(* ===== verification/_CoqProject ===== *)
-Q . S2P
Prelude.v
CString.v
Double.v
Constants.v
DoubleOrder.v
MsgParser.v
ServerState.v
ServerLogic.v
Server.v
Rules.v
Handlers.v
Framing.v
Conversation.v
GameInvariant.v
EventLoop.v
Courtesy.v
MainLoop.v
ServerClaims.v
Err.v
Wire.v
Peers.v
PeerSets.v
Node.v
NodeSpec.v
NodeInv.v
NodeClaims.v
Client.v
ClientValues.v
ClientInv.v
ClientClaims.v
ClientHears.v
ClientTurns.v
ClientRange.v
Game.v
GameClaims.v
Args.v
ArgsClaims.v
Sockets.v
SocketClaims.v
Programs.v
