(* ===== verification/Prelude.v ===== *)
(** * Verification of the two course projects: the-great-approximator and peer-time-sync

    The repository holds two network programs. In the-great-approximator a server gives every
    client the coefficients of a polynomial of degree [N] and the clients approximate it on
    the points 0 to [K] by sending puts over TCP; after [M] puts the scores are sent and a new
    game begins. In peer-time-sync the nodes of a UDP network learn of each other and
    synchronize their clocks in a tree below a leader.

    ** How the programs are modelled

    A component is a state (a [Record]), the messages and events it knows (inductive types
    with the constructors of the source), and one definition for each function of the source,
    with the name of that function. Functions that change state are computations in [M State]
    of this file: they return, or end in a [failure] ([Exit] for [fatal] and [syserr], [Throw]
    for an exception that nothing catches, [Undef] for undefined behaviour, the use of a reference
    that is no longer valid included, [Signal] for the death by [SIGPIPE] when a [send] or [write]
    finds the connection broken, [Diverge] for a loop that ran out of fuel). The safety theorems
    say which failures a state excludes.
    Integers are [Z] with their wrap-around or overflow written out; doubles are IEEE binary64
    (SpecFloat); strings are lists of characters. System calls, the clock, the resolver and
    [getopt] are parameters: the theorems hold for whatever they return, or name what is
    assumed of them: [kernel_ok] ([send] takes at most what it is given, the clock does not go back,
    [accept] gives a descriptor that is not open), [Monotonic] (the clock of a node),
    [socket_range] (what [socket] returns).

    Two provisos are on the input and not on the kernel. The server reads its coefficients file
    without a test: it dereferences a null pointer at a line that is another message than COEFF, and
    reads beyond the end of one that is too short; [coeff_file_ok] says that each line that is a
    message is a COEFF with [N + 1] coefficients (at any other line the server exits). And its timers take a client for the one they were made for when descriptor,
    address, port and name agree, so that the answer to a player who left can reach a player who
    takes its place. The theorems on one client ([served]) say that when it was accepted no answer
    was due that was meant for a former client with the same descriptor, address and port ([undue]; for
    the order of the messages it is enough that none was meant for one called UNKNOWN,
    [unanswered]); [stale_answer_to_namesake] and [stale_answer_before_hello] run the server into
    the two cases. The invariant of the server and the theorems on its operations have no such
    proviso.

    Bounds of the model: in a turn of the server's loop the monotonic clock is read once, where the
    source reads it again for each timer it sets or tests, so all of a turn happens at one moment.

    Fuel: a loop over a buffer has the length of the buffer as its fuel and removes at least
    one byte a turn; a loop over timers, list iterators or descriptors has the number of
    elements it can meet. No theorem allows [Diverge], so each one shows that the fuel is enough.

    ** the-great-approximator

    - [CString.v], [Double.v], [DoubleOrder.v]: what the program uses of the C and C++ library:
      characters, [find] and [substr], [stoll], [strtoul], [stod], printing in fixed
      notation, arithmetic and order of doubles, with their bounds.
    - [Constants.v]: [constants.h].
    - [MsgParser.v]: [msg_parser.h] and [msg_parser.cpp]; parsing is characterised exactly
      ([splitParams_correct], [parseInteger_correct], [parseDouble_correct]), and what one side
      prints the other one reads ([pair_messages_roundtrip], [state_message_roundtrip], ...).
    - [ServerState.v]: the state of the server, its players, and the queue of [server_events.cpp].
      [ServerLogic.v]: [server_logic.cpp]; [Server.v]: [approx-server.cpp],
      one turn of the loop being [main_step]. [Rules.v]: its parameters never change;
      [Handlers.v] computes the handlers,
      [Conversation.v] says what a client is to be told and how descriptors are to be used,
      [GameInvariant.v] states the invariant [inv], [Courtesy.v] that a client who respects the turns
      is never punished and gets one answer for each put (and credit, if it puts in range), [EventLoop.v] and [MainLoop.v] show that the
      loop keeps all of it, and [ServerClaims.v] holds the properties: the invariant of every reachable
      state, by what a turn can fail and why, puts accepted and refused, the end of a game, liveness of
      the turns, no bytes lost or reordered.
    - [Framing.v]: a message is one line, and a stream of messages that is cut anywhere gives the
      receiver the first ones.
    - [Client.v]: [client_logic.cpp] and [ts_queue.h]; a list of [Event]s is an interleaving of the
      five threads. [ClientValues.v]: its numbers; [ClientInv.v]: its invariant [client_inv] and
      what any step of any thread does; [ClientClaims.v]: one put at a time, the streams of bytes in
      both directions, the choice of a put, and that the server accepts what the automatic strategy
      puts ([auto_put_accepted], which composes the client with the parser and the range test of the
      server). [ClientHears.v]: a client of a server that keeps to the protocol. [ClientTurns.v]: the
      automatic client respects the turns, whatever the server does, and how each of its steps changes
      the number of puts and answers. [ClientRange.v]: it only puts at points of the game.
    - [Game.v]: the server, an automatic client and the network between them as one step relation
      ([game]), and its invariant ([joint]).
    - [GameClaims.v]: both together. What the server says to each client over a whole game follows the
      protocol ([server_keeps_to_protocol]), a client of that server takes it in message by message
      ([client_understands_server]), an automatic client among any others is never sent a PENALTY and
      gets a turn for each of its puts ([automatic_client_never_penalised]), and the server uses its
      descriptors properly. Whatever the interleaving, the game has exactly one turn, wherever it is
      ([one_turn_in_the_game]), every PUT of the client is accepted and answered with a STATE
      ([every_put_accepted]), and when nothing is on its way somebody has the next move within a
      bounded time ([game_never_stuck]).
    - [Args.v], [ArgsClaims.v]: [arg_parser.cpp], and [arg_parser.c] and [read_port] of the other
      project: which command lines are accepted, and what they promise to the programs.
    - [Sockets.v], [SocketClaims.v]: [networking.cpp], over a kernel that is a function of the
      history of calls: which descriptors are open afterwards.
    - [Programs.v]: the three [main] functions up to their loops, composed of the above.

    ** peer-time-sync

    - [Err.v]: [err.c], and [err.cpp] of the other project: the lines on the standard error stream
      over the conversions of [vfprintf], and what ends the program; the report of a rejected message
      can be read back from its line ([msg_line_reads_back]).
    - [Wire.v]: byte order ([htonll] and its kin in [messages.c]) and addresses ([networking.c]).
    - [Peers.v]: [peers.cpp]; a [std::set] is the ordered list of its elements. [PeerSets.v] is its
      abstract specification on finite sets with iterators, for every call of [peers.h], and the
      refinement ([peer_lists_are_sets]).
    - [Node.v]: [node_data.h], [clock.c], [messages.c], [main.c] with the addresses of [getifaddrs], and
      what the node writes on its standard error. [NodeSpec.v]: how each
      operation runs; [NodeInv.v]: the invariant [node_ok] and the handlers; [NodeClaims.v]: the
      invariant over all inputs and all a node can end by ([node_ends]), an exchange of synchronization
      between two nodes, HELLO between two nodes, every handler on every branch, and for each message
      whether it is reported, passed over or acted upon.

    ** Not modelled

    What the server writes on its terminal (the logs of a client and the node's standard error are modelled;
    [LOG] of [err.h] expands to nothing in the build that is released), the joining of threads, the
    memory model of C++ below the mutexes (a step of a thread between two calls that other threads can
    observe is atomic), the build files and the statements of the tasks. The build that
    is released defines [NDEBUG], so an [assert] is nothing.

    ** What is left

    The calls of [main_step] and of [handle_new_connection] over the kernel of [Sockets.v] instead of
    their own parameters; a node whose leader changes during a pending exchange; that a whole
    game of automatic clients comes to its end in bounded time ([game_never_stuck] shows that it goes
    on, [every_put_accepted] that each of at most [M] PUTs counts). *)
From stdpp Require Export base tactics list gmap strings sorting relations.
From Stdlib Require Export ZArith Lia.

#[export] Set Default Goal Selector "!".

(** ** Record update

    [Eta R] holds the eta-expanded identity of a record type; the instance of
    [Setter proj] is found from it by abstracting the updated projection. *)
Class Eta (R : Type) : Type := eta : R → R.
Class Setter {R T : Type} (proj : R → T) : Type := set_field : (T → T) → R → R.
Arguments set_field {R T} proj {_} _ _ /.
#[global] Hint Mode Setter + + + : typeclass_instances.

Ltac build_setter :=
  match goal with
  | |- @Setter ?R ?T ?proj =>
      let e := constr:(_ : Eta R) in
      let f := fresh "f" in
      let r := fresh "r" in
      unfold Setter; intros f r;
      let u := eval red in (e r) in
      match eval pattern (proj r) in u with
      | ?g _ => let v := eval cbv beta in (g (f (proj r))) in exact v
      end
  end.
#[global] Hint Extern 1 (Setter _) => build_setter : typeclass_instances.

Declare Scope model_scope.
Delimit Scope model_scope with model.
#[warnings="-postfix-notation-not-level-1"]
Notation "r <| p := v |>" := (set_field p (fun _ => v) r)
  (at level 12, left associativity, p at next level, v at level 60) : model_scope.
#[warnings="-postfix-notation-not-level-1"]
Notation "r <| p ::= f |>" := (set_field p f r)
  (at level 12, left associativity, p at next level, f at level 60) : model_scope.
Open Scope model_scope.

(** ** Computations of the modelled programs

    A call returns, or ends the process: [Exit] is [exit(1)] after [fatal] or
    [syserr], [Throw] is an exception that no handler of the program catches,
    [Undef] is undefined behaviour (an index out of range, a null pointer
    dereferenced, a reference that is no longer valid, a signed overflow), and [Signal] is
    the death by a signal that is not caught. [Diverge] is a loop whose fuel ran out: no theorem
    allows it, so each one shows that the fuel is enough. *)
Inductive failure : Type := Exit | Throw | Undef | Signal | Diverge.
Inductive outcome (A : Type) : Type := Ret (a : A) | Fail (f : failure).
Arguments Ret {A} a.
Arguments Fail {A} f.
#[global] Instance failure_eq_dec : EqDecision failure.
Proof. solve_decision. Defined.

#[global] Instance outcome_ret : MRet outcome := λ A a, Ret a.
#[global] Instance outcome_bind : MBind outcome :=
  λ A B k m, match m with Ret a => k a | Fail f => Fail f end.

(** State-passing computations over a state type [S]. *)
Definition M (S A : Type) : Type := S → outcome (A * S).
#[global] Instance M_ret S : MRet (M S) := λ A a s, Ret (a, s).
#[global] Instance M_bind S : MBind (M S) :=
  λ A B k m s, match m s with Ret (a, s') => k a s' | Fail f => Fail f end.
Lemma bind_ret {S A B} (m : M S A) (k : A → M S B) s a s' :
  m s = Ret (a, s') → (m ≫= k) s = k a s'.
Proof. unfold mbind, M_bind. by intros ->. Qed.
Definition get_state {S} : M S S := λ s, Ret (s, s).
Definition modify {S} (f : S → S) : M S unit := λ s, Ret (tt, f s).
Definition fail {S A} (f : failure) : M S A := λ _, Fail f.
(** The value of an option, or the failure [f]. *)
Definition from_opt {S A} (f : failure) (o : option A) : M S A :=
  λ s, match o with Some a => Ret (a, s) | None => Fail f end.
Definition lift_outcome {S A} (o : outcome A) : M S A :=
  λ s, match o with Ret a => Ret (a, s) | Fail f => Fail f end.
Definition from_option_or {A} (f : failure) (o : option A) : outcome A :=
  match o with Some a => Ret a | None => Fail f end.

(** Weakest precondition: [wp E m Q s] says that [m] run in [s] returns a value
    and a state that satisfy [Q], or fails with a failure that [E] allows. *)
Definition wp {S A} (E : failure → Prop) (m : M S A) (Q : A → S → Prop) (s : S) : Prop :=
  match m s with Ret (a, s') => Q a s' | Fail f => E f end.
(** No failure is allowed, or only a deliberate [exit]. *)
Definition no_failure (_ : failure) : Prop := False.
Definition only_exit (f : failure) : Prop := f = Exit.

Section wp_rules.
Context {S : Type} (E : failure → Prop).

Lemma wp_ret {A} (a : A) (Q : A → S → Prop) s : Q a s → wp E (mret a) Q s.
Proof. done. Qed.

Lemma wp_bind {A B} (m : M S A) (k : A → M S B) (Q : B → S → Prop) s :
  wp E m (λ a s', wp E (k a) Q s') s → wp E (m ≫= k) Q s.
Proof. unfold wp, mbind, M_bind. by destruct (m s) as [[a s']|f]. Qed.

Lemma wp_get_state (Q : S → S → Prop) s : Q s s → wp E get_state Q s.
Proof. done. Qed.

Lemma wp_modify f (Q : unit → S → Prop) s : Q tt (f s) → wp E (modify f) Q s.
Proof. done. Qed.

Lemma wp_fail {A} f (Q : A → S → Prop) s : E f → wp E (fail f) Q s.
Proof. done. Qed.

Lemma wp_from_opt {A} f (o : option A) (Q : A → S → Prop) s :
  (∀ a, o = Some a → Q a s) → (o = None → E f) → wp E (from_opt f o) Q s.
Proof. destruct o; unfold wp; simpl; eauto. Qed.

Lemma wp_lift_outcome {A} (o : outcome A) (Q : A → S → Prop) s :
  match o with Ret a => Q a s | Fail f => E f end → wp E (lift_outcome o) Q s.
Proof. by destruct o. Qed.

Lemma wp_mono {A} (m : M S A) (P Q : A → S → Prop) s :
  (∀ a s', P a s' → Q a s') → wp E m P s → wp E m Q s.
Proof. unfold wp. destruct (m s) as [[a s']|f]; auto. Qed.

Lemma wp_and {A} (m : M S A) (P Q : A → S → Prop) s :
  wp E m P s → wp E m Q s → wp E m (λ a s', P a s' ∧ Q a s') s.
Proof. unfold wp. destruct (m s) as [[a s']|f]; auto. Qed.

Lemma wp_elim {A} (m : M S A) (Q : A → S → Prop) s a s' :
  wp E m Q s → m s = Ret (a, s') → Q a s'.
Proof. unfold wp. intros H Hm. by rewrite Hm in H. Qed.
End wp_rules.

Lemma wp_weaken_failures {S A} (E E' : failure → Prop) (m : M S A) Q s :
  (∀ f, E f → E' f) → wp E m Q s → wp E' m Q s.
Proof. unfold wp. destruct (m s) as [[a s']|f]; auto. Qed.

(** ** Relations that every step of a computation preserves *)
Create HintDb preserves_db discriminated.
Definition any_failure (_ : failure) : Prop := True.
Section preserves.
Context {S : Type} (E : failure → Prop) (R : S → S → Prop) `{!PreOrder R}.
Definition preserves {A} (m : M S A) : Prop := ∀ s, wp E m (λ _ s', R s s') s.

Lemma preserves_bind {A B} (m : M S A) (k : A → M S B) :
  preserves m → (∀ a, preserves (k a)) → preserves (m ≫= k).
Proof using PreOrder0.
  intros Hm Hk s. apply wp_bind. eapply wp_mono; [|apply Hm]. intros a s1 H1.
  eapply wp_mono; [|apply Hk]. intros b s2 H2. cbv beta in *. by transitivity s1.
Qed.
Lemma preserves_ret {A} (a : A) : preserves (mret a).
Proof using PreOrder0. intros s. by apply wp_ret. Qed.
Lemma preserves_fail {A} f : E f → preserves (fail (A:=A) f).
Proof. intros Hf s. by apply wp_fail. Qed.
Lemma preserves_get : preserves get_state.
Proof using PreOrder0. intros s. by apply wp_get_state. Qed.
Lemma preserves_from_opt {A} f (o : option A) : E f → preserves (from_opt f o).
Proof using PreOrder0. intros Hf s. by apply wp_from_opt. Qed.
Lemma preserves_lift {A} (o : outcome A) : (∀ f, o = Fail f → E f) → preserves (lift_outcome o).
Proof using PreOrder0. intros Hf s. apply wp_lift_outcome. destruct o; [done|by apply Hf]. Qed.
Lemma preserves_modify f : (∀ s, R s (f s)) → preserves (modify f).
Proof. intros Hf s. apply wp_modify, Hf. Qed.
End preserves.
Lemma any_failure_holds f : any_failure f.
Proof. done. Qed.
#[export] Hint Resolve any_failure_holds preserves_ret preserves_fail preserves_get preserves_from_opt preserves_lift : preserves_db.

(** One of the rules above; [solve_step] relates a state to its update. *)
Ltac preserves_step solve_step :=
  lazymatch goal with
  | |- preserves _ _ (modify _) => apply preserves_modify; intros ?; solve_step
  | |- preserves _ _ (_ ≫= _) => apply preserves_bind; [apply _| |intros ?]
  | |- preserves _ _ (if ?b then _ else _) => destruct b
  | |- preserves _ _ (let '(_, _) := ?x in _) => destruct x
  | |- preserves _ _ (match ?x with _ => _ end) => destruct x
  | |- _ => solve [eauto with preserves_db typeclass_instances]
  end.
Ltac preserves_tac solve_step := cbv zeta; repeat preserves_step solve_step.


Lemma wp_no_failure_ret {S A} (m : M S A) Q s :
  wp no_failure m Q s → ∃ a s', m s = Ret (a, s') ∧ Q a s'.
Proof. unfold wp. destruct (m s) as [[a s']|f]; [eauto | done]. Qed.

Create HintDb wp_db discriminated.
#[export] Hint Resolve wp_ret wp_get_state wp_modify wp_fail : wp_db.

(** One step of symbolic execution of a goal [wp E m Q s]. *)
Ltac wp_step :=
  lazymatch goal with
  | |- wp _ (_ ≫= _) _ _ => apply wp_bind
  | |- wp _ (mret _) _ _ => apply wp_ret
  | |- wp _ get_state _ _ => apply wp_get_state
  | |- wp _ (modify _) _ _ => apply wp_modify
  | |- wp _ (fail _) _ _ => apply wp_fail
  | |- wp _ (if ?b then _ else _) _ _ => let H := fresh "Hb" in destruct b eqn:H
  end; cbv beta.
Ltac wp_steps := repeat wp_step.

(** ** Machine integers: a [w]-bit integer is a [Z] in range *)
Open Scope Z_scope.
Definition wrap (w z : Z) : Z := z mod 2 ^ w.
Definition swrap (w z : Z) : Z := (z + 2 ^ (w - 1)) mod 2 ^ w - 2 ^ (w - 1).
Definition in_u (w z : Z) : Prop := 0 ≤ z < 2 ^ w.
Definition in_s (w z : Z) : Prop := - 2 ^ (w - 1) ≤ z < 2 ^ (w - 1).
Definition in_sb (w z : Z) : bool := (- 2 ^ (w - 1) <=? z) && (z <? 2 ^ (w - 1)).

Lemma wrap_small w z : in_u w z → wrap w z = z.
Proof. unfold in_u, wrap. intros. by apply Z.mod_small. Qed.

Lemma wrap_range w z : 0 ≤ w → in_u w (wrap w z).
Proof. intros. apply Z.mod_pos_bound. lia. Qed.

Lemma swrap_small w z : 0 < w → in_s w z → swrap w z = z.
Proof.
  unfold in_s, swrap. intros Hw Hz.
  assert (2 ^ w = 2 * 2 ^ (w - 1)) as Hp.
  { replace w with (Z.succ (w - 1)) at 1 by lia. rewrite Z.pow_succ_r; lia. }
  rewrite Z.mod_small; lia.
Qed.

Lemma in_sb_spec w z : in_sb w z = true ↔ in_s w z.
Proof. unfold in_sb, in_s. rewrite andb_true_iff, Z.leb_le, Z.ltb_lt. done. Qed.

(** ** Ordered lists: the representation of the ordered containers of the
    C++ standard library ([std::set], [std::multimap]) and of [std::sort] *)
Section ordered.
Context {A : Type} (lt : A → A → bool).

(** Insertion after the elements that are not greater: the position
    [std::multimap::insert] chooses, and the only one of a new [std::set] element. *)
Fixpoint ordered_insert (x : A) (l : list A) : list A :=
  match l with
  | [] => [x]
  | y :: l' => if lt x y then x :: y :: l' else y :: ordered_insert x l'
  end.
Definition ordered_sort (l : list A) : list A :=
  fold_left (λ acc x, ordered_insert x acc) l [].

Definition not_gt (x y : A) : Prop := lt y x = false.
Definition less (x y : A) : Prop := lt x y = true.

Lemma ordered_insert_perm x l : ordered_insert x l ≡ₚ x :: l.
Proof.
  induction l as [|y l IH]; simpl; [done|].
  destruct (lt x y); [done|]. rewrite IH. apply Permutation_swap.
Qed.

Lemma elem_of_ordered_insert x y l : y ∈ ordered_insert x l ↔ y = x ∨ y ∈ l.
Proof. rewrite ordered_insert_perm. apply elem_of_cons. Qed.

Lemma length_ordered_insert x l : length (ordered_insert x l) = S (length l).
Proof. by rewrite ordered_insert_perm. Qed.

Lemma ordered_sort_perm l : ordered_sort l ≡ₚ l.
Proof.
  unfold ordered_sort.
  enough (∀ acc, fold_left (λ acc x, ordered_insert x acc) l acc ≡ₚ acc ++ l) as H
    by apply (H []).
  induction l as [|x l IH]; intros acc; simpl; [by rewrite app_nil_r|].
  by rewrite IH, ordered_insert_perm, <-Permutation_middle.
Qed.

(** A strict weak order, as the containers require of their comparison. *)
Class StrictWeakOrder : Prop := {
  swo_asym x y : lt x y = true → lt y x = false;
  swo_negtrans x y z : lt y x = false → lt z y = false → lt z x = false }.

Context `{StrictWeakOrder}.

Lemma ordered_insert_sorted x l :
  StronglySorted not_gt l → StronglySorted not_gt (ordered_insert x l).
Proof.
  induction 1 as [|y l Hl IH Hy]; simpl; [by repeat constructor|].
  destruct (lt x y) eqn:Hxy.
  - constructor; [by constructor|]. constructor; [by apply swo_asym|].
    eapply Forall_impl; [exact Hy|]. intros z Hz.
    eapply swo_negtrans; [|exact Hz]. by apply swo_asym.
  - constructor; [done|]. apply Forall_forall. intros z Hz.
    apply elem_of_ordered_insert in Hz as [->|Hz]; [done|].
    by rewrite Forall_forall in Hy; apply Hy.
Qed.

Lemma ordered_sort_sorted l : StronglySorted not_gt (ordered_sort l).
Proof.
  unfold ordered_sort.
  enough (∀ acc, StronglySorted not_gt acc →
    StronglySorted not_gt (fold_left (λ acc x, ordered_insert x acc) l acc)) as Hacc
    by (apply Hacc; constructor).
  induction l as [|x l IH]; intros acc Hacc; simpl; [done|].
  by apply IH, ordered_insert_sorted.
Qed.
End ordered.
Arguments StrictWeakOrder {A} lt.
Arguments swo_asym {A lt _} x y _.
Arguments swo_negtrans {A lt _} x y z _ _.

(** Sorting by [lt] sorts by any coarser weak order, for instance one on keys. *)
Section ordered_by.
Context {A : Type} (lt lt0 : A → A → bool) `{StrictWeakOrder A lt0}.
Hypothesis lt_key : ∀ x y, lt x y = true → lt0 y x = false.
Hypothesis nlt_key : ∀ x y, lt x y = false → lt0 x y = false.

Lemma ordered_insert_sorted_by x l :
  StronglySorted (not_gt lt0) l → StronglySorted (not_gt lt0) (ordered_insert lt x l).
Proof.
  induction 1 as [|y l Hl IH Hy]; simpl; [by repeat constructor|].
  destruct (lt x y) eqn:Hxy.
  - constructor; [by constructor|]. constructor; [by apply lt_key|].
    eapply Forall_impl; [exact Hy|]. intros z Hz.
    apply swo_negtrans with y; [by apply lt_key|exact Hz].
  - constructor; [done|]. apply Forall_forall. intros z Hz.
    apply elem_of_ordered_insert in Hz as [->|Hz]; [by apply nlt_key|].
    by rewrite Forall_forall in Hy; apply Hy.
Qed.

Lemma ordered_sort_sorted_by l : StronglySorted (not_gt lt0) (ordered_sort lt l).
Proof.
  unfold ordered_sort.
  enough (∀ acc, StronglySorted (not_gt lt0) acc →
    StronglySorted (not_gt lt0) (fold_left (λ acc x, ordered_insert lt x acc) l acc)) as Hacc
    by (apply Hacc; constructor).
  induction l as [|x l IH]; intros acc Hacc; simpl; [done|].
  by apply IH, ordered_insert_sorted_by.
Qed.
End ordered_by.

Section strict_ordered.
Context {A : Type} (lt : A → A → bool).
(** A strict total order: incomparable elements are equal. *)
Class StrictTotalOrder : Prop := {
  sto_irrefl x : lt x x = false;
  sto_trans x y z : lt x y = true → lt y z = true → lt x z = true;
  sto_total x y : lt x y = false → lt y x = false → x = y }.
Context `{StrictTotalOrder}.

Lemma sto_asym x y : lt x y = true → lt y x = false.
Proof.
  intros Hxy. destruct (lt y x) eqn:Hyx; [|done].
  rewrite <-(sto_irrefl x). symmetry. by eapply sto_trans.
Qed.

#[global] Instance sto_swo : StrictWeakOrder lt.
Proof.
  split; [apply sto_asym|]. intros x y z Hyx Hzy.
  destruct (lt z x) eqn:Hzx; [|done].
  destruct (lt x y) eqn:Hxy.
  - by rewrite (sto_trans z x y) in Hzy.
  - by rewrite (sto_total x y) in Hzx by done; rewrite Hzx in Hzy.
Qed.

Lemma ordered_insert_strict x l :
  x ∉ l → StronglySorted (less lt) l → StronglySorted (less lt) (ordered_insert lt x l).
Proof.
  intros Hx Hl. induction Hl as [|y l Hl IH Hy]; simpl; [by repeat constructor|].
  apply not_elem_of_cons in Hx as [Hne Hx].
  destruct (lt x y) eqn:Hxy.
  - constructor; [by constructor|]. constructor; [done|].
    eapply Forall_impl; [exact Hy|]. intros z Hz. by eapply sto_trans.
  - constructor; [by apply IH|]. apply Forall_forall. intros z Hz.
    apply elem_of_ordered_insert in Hz as [->|Hz].
    + unfold less. destruct (lt y x) eqn:Hyx; [done|]. by destruct Hne; apply sto_total.
    + by rewrite Forall_forall in Hy; apply Hy.
Qed.

Lemma less_sorted_nodup l : StronglySorted (less lt) l → NoDup l.
Proof.
  induction 1 as [|x l Hl IH Hx]; constructor; [|done].
  intros Hin. rewrite Forall_forall in Hx. specialize (Hx _ Hin).
  unfold less in Hx. by rewrite sto_irrefl in Hx.
Qed.
End strict_ordered.
Arguments StrictTotalOrder {A} lt.
Arguments sto_irrefl {A lt _} x.
Arguments sto_trans {A lt _} x y z _ _.
Arguments sto_total {A lt _} x y _ _.

(** Sortedness survives the removal of elements. *)
Lemma StronglySorted_filter {A} (R : A → A → Prop) (P : A → Prop) `{∀ x, Decision (P x)} l :
  StronglySorted R l → StronglySorted R (filter P l).
Proof.
  induction 1 as [|x l Hl IH Hx]; [constructor|]. rewrite filter_cons.
  destruct (decide (P x)); [|done]. constructor; [done|].
  apply Forall_forall. intros y [_ Hy]%list_elem_of_filter.
  by rewrite Forall_forall in Hx; apply Hx.
Qed.
