(* ===== verification/CString.v ===== *)
(** * Characters, strings and numbers as the C and C++ standard library treats them

    [std::string] is a list of [ascii]; the [<cctype>] predicates are those of the
    "C" locale; [find], [substr], [getline], [std::to_string], [std::stoll] and
    [strtoul] are the parts of the library the two projects use. *)
From Stdlib Require Import Ascii String.
From S2P Require Import Prelude.

(** The error number of a broken connection. *)
Definition EPIPE : Z := 32.

Abbreviation str := (list ascii).
Definition lit (s : string) : str := list_ascii_of_string s.

(** ** Characters *)
Definition code (c : ascii) : Z := Z.of_N (N_of_ascii c).
Definition isdigit (c : ascii) : bool := (48 <=? code c) && (code c <=? 57).
Definition isupper (c : ascii) : bool := (65 <=? code c) && (code c <=? 90).
Definition islower (c : ascii) : bool := (97 <=? code c) && (code c <=? 122).
Definition isalnum (c : ascii) : bool := isdigit c || isupper c || islower c.
Definition isspace (c : ascii) : bool := (code c =? 32) || ((9 <=? code c) && (code c <=? 13)).
Definition chr (z : Z) : ascii := ascii_of_N (Z.to_N z).
Definition digit (d : Z) : ascii := chr (48 + d).
Definition space : ascii := chr 32.
Definition cr : ascii := chr 13.
Definition lf : ascii := chr 10.
Definition minus : ascii := chr 45.
Definition dot : ascii := chr 46.

#[global] Instance ascii_eq_dec : EqDecision ascii := ascii_dec.

Lemma code_chr z : 0 ≤ z < 256 → code (chr z) = z.
Proof. intros. unfold code, chr. rewrite N_ascii_embedding; lia. Qed.

Lemma code_inj c d : code c = code d → c = d.
Proof.
  unfold code. intros H%N2Z.inj. rewrite <-(ascii_N_embedding c), H. apply ascii_N_embedding.
Qed.

Lemma code_digit d : 0 ≤ d < 10 → code (digit d) = 48 + d.
Proof. intros. apply code_chr. lia. Qed.

Lemma isdigit_digit d : 0 ≤ d < 10 → isdigit (digit d) = true.
Proof. intros. unfold isdigit. rewrite code_digit by done. lia. Qed.

Lemma isdigit_isalnum c : isdigit c = true → isalnum c = true.
Proof. unfold isalnum. by intros ->. Qed.

Lemma isdigit_not c d : isdigit c = true → isdigit d = false → c ≠ d.
Proof. intros Hc Hd ->. congruence. Qed.

(** ** Searching and cutting *)
Section span.
Context {A : Type} (p : A → bool).
(** The longest prefix of elements that satisfy [p], and the rest. *)
Fixpoint span (l : list A) : list A * list A :=
  match l with
  | x :: l' => if p x then let '(a, b) := span l' in (x :: a, b) else ([], l)
  | [] => ([], [])
  end.

Lemma span_app l : fst (span l) ++ snd (span l) = l.
Proof.
  induction l as [|x l IH]; [done|]. simpl. destruct (p x); [|done].
  destruct (span l). simpl in *. by f_equal.
Qed.

Lemma span_forall l : forallb p (fst (span l)) = true.
Proof.
  induction l as [|x l IH]; [done|]. simpl. destruct (p x) eqn:Hx; [|done].
  destruct (span l). simpl in *. by rewrite Hx.
Qed.

Lemma span_rest l : match snd (span l) with x :: _ => p x = false | [] => True end.
Proof.
  induction l as [|x l IH]; [done|]. simpl. destruct (p x) eqn:Hx; [|by simpl].
  by destruct (span l).
Qed.

Lemma span_stop l1 l2 :
  forallb p l1 = true → match l2 with x :: _ => p x = false | [] => True end →
  span (l1 ++ l2) = (l1, l2).
Proof.
  intros H1 H2. induction l1 as [|x l1 IH]; simpl in *.
  - destruct l2; simpl; [done|]. by rewrite H2.
  - apply andb_true_iff in H1 as [-> H1]. by rewrite (IH H1).
Qed.

Lemma span_all l : forallb p l = true → span l = (l, []).
Proof. intros. rewrite <-(app_nil_r l) at 1. by apply span_stop. Qed.
End span.

Fixpoint is_prefix (p s : str) : bool :=
  match p, s with
  | [], _ => true
  | c :: p', d :: s' => bool_decide (c = d) && is_prefix p' s'
  | _ :: _, [] => false
  end.
(** [s.find(p)]: the position of the first occurrence, [None] for [npos]. *)
Fixpoint find_str (p s : str) : option nat :=
  if is_prefix p s then Some 0%nat
  else match s with [] => None | _ :: s' => S <$> find_str p s' end.
Definition find_char (c : ascii) (s : str) : option nat := find_str [c] s.

(** [s.substr(pos)] and [s.substr(pos, n)] throw when [pos > s.size()]. *)
Definition substr_from (s : str) (pos : nat) : outcome str :=
  if (length s <? pos)%nat then Fail Throw else Ret (drop pos s).
Definition substr (s : str) (pos n : nat) : outcome str :=
  if (length s <? pos)%nat then Fail Throw else Ret (take n (drop pos s)).

(** [std::getline(file, s, '\n')]: the characters before the newline, and the
    file after it. At the end of the file the line is empty. *)
Fixpoint getline (file : str) : str * str :=
  match file with
  | [] => ([], [])
  | c :: f => if bool_decide (c = lf) then ([], f) else let '(l, r) := getline f in (c :: l, r)
  end.

Lemma is_prefix_spec p s : is_prefix p s = true ↔ ∃ r, s = p ++ r.
Proof.
  revert s. induction p as [|c p IH]; intros s; simpl; [by split; [exists s|]|].
  destruct s as [|d s]; [by split; [|intros [??]]|].
  rewrite andb_true_iff, bool_decide_eq_true, IH. split.
  - intros [-> [r ->]]. by exists r.
  - intros [r [= -> ->]]. split; [done|by exists r].
Qed.

Lemma is_prefix_app p s t : is_prefix p s = true → is_prefix p (s ++ t) = true.
Proof.
  rewrite !is_prefix_spec. intros [r ->]. exists (r ++ t). by rewrite (assoc app).
Qed.

Lemma find_str_some p s n :
  find_str p s = Some n → s = take n s ++ p ++ drop (n + length p) s.
Proof.
  revert n. induction s as [|c s IH]; intros n; cbn [find_str].
  - destruct (is_prefix p []) eqn:Hp; [|done]. intros [= <-].
    apply is_prefix_spec in Hp as [r Hr]. by destruct p.
  - destruct (is_prefix p (c :: s)) eqn:Hp.
    + intros [= <-]. apply is_prefix_spec in Hp as [r Hr]. rewrite Hr at 1.
      rewrite take_0, Hr. simpl. by rewrite drop_app_length.
    + intros (m & Hm & ->)%fmap_Some. simpl. f_equal. by apply IH.
Qed.

Lemma find_str_length p s n : find_str p s = Some n → (n + length p ≤ length s)%nat.
Proof.
  revert n. induction s as [|c s IH]; intros n; cbn [find_str].
  - destruct (is_prefix p []) eqn:Hp; [|done]. intros [= <-]. by destruct p.
  - destruct (is_prefix p (c :: s)) eqn:Hp.
    + intros [= <-]. apply is_prefix_spec in Hp as [r ->]. rewrite length_app. lia.
    + intros (m & Hm & ->)%fmap_Some. specialize (IH _ Hm). simpl. lia.
Qed.

(** What was found in a buffer stays the first occurrence when more is appended. *)
Lemma find_str_app p s t n : find_str p s = Some n → find_str p (s ++ t) = Some n.
Proof.
  revert n. induction s as [|c s IH]; intros n; cbn [find_str].
  - destruct (is_prefix p []) eqn:Hp; [|done]. intros [= <-].
    destruct p; [|done]. by destruct t.
  - destruct (is_prefix p (c :: s)) eqn:Hp.
    + intros [= <-]. simpl app. apply (is_prefix_app _ _ t) in Hp as Hp'.
      simpl app in Hp'. cbn [find_str]. by rewrite Hp'.
    + intros (m & Hm & ->)%fmap_Some. simpl app. cbn [find_str].
      destruct (is_prefix p (c :: s ++ t)) eqn:Hp'; [|by rewrite (IH _ Hm)].
      exfalso. apply find_str_length in Hm.
      apply is_prefix_spec in Hp' as [r Hr].
      enough (is_prefix p (c :: s) = true) by congruence.
      apply is_prefix_spec. exists (drop (length p) (c :: s)).
      rewrite <-(take_drop (length p) (c :: s)) at 1. f_equal.
      apply (f_equal (take (length p))) in Hr.
      change (c :: s ++ t) with ((c :: s) ++ t) in Hr.
      rewrite take_app_le, take_app_length in Hr by (simpl; lia). done.
Qed.

(** ** Framing by CRLF

    The receive loops of the server and of the client cut complete lines off the
    front of their buffer. [frames n buf] is what [n] turns of such a loop give:
    the lines without their CRLF, and the buffer left. *)
Definition crlf : str := [cr; lf].

Fixpoint frames (fuel : nat) (buf : str) : list str * str :=
  match fuel with
  | O => ([], buf)
  | S n =>
      match find_str crlf buf with
      | None => ([], buf)
      | Some pos =>
          let '(ls, r) := frames n (drop (pos + 2) buf) in (take pos buf :: ls, r)
      end
  end.
Definition all_frames (buf : str) : list str * str := frames (length buf) buf.

Lemma frames_fuel n m buf :
  (length buf ≤ n)%nat → (length buf ≤ m)%nat → frames n buf = frames m buf.
Proof.
  revert m buf. induction n as [|n IH]; intros [|m] buf Hn Hm; simpl; try done.
  - destruct buf; [done|simpl in *; lia].
  - destruct buf; [done|simpl in *; lia].
  - destruct (find_str crlf buf) as [pos|] eqn:Hf; [|done].
    apply find_str_length in Hf. simpl in Hf.
    rewrite (IH m); [done| |]; rewrite length_drop; lia.
Qed.

(** No complete line is left behind. *)
Lemma all_frames_rest buf : find_str crlf (snd (all_frames buf)) = None.
Proof.
  unfold all_frames.
  enough (∀ n b, (length b ≤ n)%nat → find_str crlf (snd (frames n b)) = None) as H by auto.
  clear buf. induction n as [|n IH]; intros b Hb; simpl.
  { by destruct b; [|simpl in *; lia]. }
  destruct (find_str crlf b) as [pos|] eqn:Hf; [|done].
  apply find_str_length in Hf. simpl in Hf.
  specialize (IH (drop (pos + 2) b)). destruct (frames n _). simpl in *.
  apply IH. rewrite length_drop. lia.
Qed.

Lemma all_frames_unfold buf :
  all_frames buf =
    match find_str crlf buf with
    | None => ([], buf)
    | Some pos =>
        let '(ls, r) := all_frames (drop (pos + 2) buf) in (take pos buf :: ls, r)
    end.
Proof.
  unfold all_frames. destruct buf as [|c buf]; [done|].
  change (length (c :: buf)) with (S (length buf)) at 1.
  destruct (find_str crlf (c :: buf)) as [pos|] eqn:Hf; cbn [frames]; rewrite Hf; [|done].
  apply find_str_length in Hf. simpl in Hf.
  by rewrite (frames_fuel _ (length (drop (pos + 2) (c :: buf))));
    rewrite ?length_drop; simpl; [| lia | lia].
Qed.

(** Chunking does not matter: the lines of [buf ++ t] are the lines of [buf] and then
    the lines of what [buf] left with [t] appended. *)
Lemma all_frames_app buf t :
  all_frames (buf ++ t) =
    (fst (all_frames buf) ++ fst (all_frames (snd (all_frames buf) ++ t)),
     snd (all_frames (snd (all_frames buf) ++ t))).
Proof.
  remember (length buf) as n eqn:Hn. revert buf Hn.
  induction (lt_wf n) as [n _ IH]; intros buf ->.
  rewrite (all_frames_unfold buf).
  destruct (find_str crlf buf) as [pos|] eqn:Hf; simpl; [|by destruct (all_frames _)].
  rewrite (all_frames_unfold (buf ++ t)), (find_str_app _ _ _ _ Hf).
  apply find_str_length in Hf. simpl in Hf.
  rewrite drop_app_le, take_app_le by lia.
  rewrite (IH (length (drop (pos + 2) buf))) by (rewrite ?length_drop; lia || done).
  by destruct (all_frames (drop (pos + 2) buf)).
Qed.

(** The lines, each with its CRLF, and the rest are the buffer. *)
Definition unframe (ls : list str) (rest : str) : str := concat (map (λ l, l ++ crlf) ls) ++ rest.

Lemma unframe_all_frames buf : unframe (fst (all_frames buf)) (snd (all_frames buf)) = buf.
Proof.
  remember (length buf) as n eqn:Hn. revert buf Hn.
  induction (lt_wf n) as [n _ IH]; intros buf ->. rewrite all_frames_unfold.
  destruct (find_str crlf buf) as [pos|] eqn:Hf; [|done].
  specialize (IH (length (drop (pos + 2) buf))). pose proof (find_str_length _ _ _ Hf) as Hlen. simpl in Hlen.
  specialize (IH ltac:(rewrite length_drop; lia) _ eq_refl).
  destruct (all_frames (drop (pos + 2) buf)) as [ls r]. unfold unframe in *. simpl in *.
  rewrite <-!app_assoc, IH. symmetry. by apply find_str_some in Hf.
Qed.

(** The loop form used by the programs: a line is the buffer up to the CRLF. *)
Lemma crlf_line buf pos :
  find_str crlf buf = Some pos → take (pos + 2) buf = take pos buf ++ crlf.
Proof.
  intros Hf. apply find_str_some in Hf as Hs. apply find_str_length in Hf. simpl in Hf.
  rewrite Hs at 1. rewrite take_app_ge; rewrite length_take; [|lia].
  replace (pos + 2 - pos `min` length buf)%nat with 2%nat by lia. done.
Qed.

(** ** Decimal numbers *)
Definition dec_value (s : str) : Z := fold_left (λ v c, 10 * v + (code c - 48)) s 0.

(** The digits of [n], most significant first, without leading zeros. *)
Fixpoint udigits (fuel : nat) (n : Z) : str :=
  match fuel with
  | O => []
  | S f => (if n <? 10 then [] else udigits f (n / 10)) ++ [digit (n mod 10)]
  end.
Definition nat_str (n : Z) : str := udigits (S (Z.to_nat (Z.log2 n))) n.
(** Exactly [k] digits, padded with zeros on the left. *)
Fixpoint fixed_digits (k : nat) (n : Z) : str :=
  match k with O => [] | S k' => fixed_digits k' (n / 10) ++ [digit (n mod 10)] end.
(** [std::to_string] of an integer. *)
Definition to_string (z : Z) : str := if z <? 0 then minus :: nat_str (- z) else nat_str z.

Lemma dec_value_snoc s c : dec_value (s ++ [c]) = 10 * dec_value s + (code c - 48).
Proof. unfold dec_value. by rewrite fold_left_app. Qed.

Lemma dec_value_app s t : dec_value (s ++ t) = dec_value s * 10 ^ Z.of_nat (length t) + dec_value t.
Proof.
  induction t as [|c t IH] using rev_ind.
  - rewrite app_nil_r. unfold dec_value at 3. simpl. lia.
  - rewrite (assoc app), !dec_value_snoc, IH, length_app. change (length [c]) with 1%nat.
    rewrite Nat2Z.inj_add, Z.pow_add_r by lia. change (10 ^ Z.of_nat 1) with 10. ring.
Qed.

Lemma mod10_range n : 0 ≤ n mod 10 < 10.
Proof. by apply Z.mod_pos_bound. Qed.

Lemma dec_value_snoc_digit s n :
  dec_value (s ++ [digit (n mod 10)]) = 10 * dec_value s + n mod 10.
Proof. rewrite dec_value_snoc, code_digit; [lia|apply mod10_range]. Qed.

Lemma udigits_value f n : 0 ≤ n < 10 ^ Z.of_nat f → dec_value (udigits f n) = n.
Proof.
  revert n. induction f as [|f IH]; intros n Hn; cbn [udigits].
  { replace n with 0 by (simpl in Hn; lia). done. }
  rewrite dec_value_snoc_digit. pose proof (Z.div_mod n 10 ltac:(done)) as Hd.
  destruct (Z.ltb_spec n 10).
  - rewrite Z.mod_small by lia. change (dec_value []) with 0. lia.
  - rewrite IH; [lia|]. rewrite Nat2Z.inj_succ, Z.pow_succ_r in Hn by lia.
    split; [apply Z.div_pos; lia|]. apply Z.div_lt_upper_bound; lia.
Qed.

Lemma nat_str_value n : 0 ≤ n → dec_value (nat_str n) = n.
Proof.
  intros Hn. apply udigits_value. split; [done|].
  destruct (decide (n = 0)) as [->|]; [done|].
  rewrite Nat2Z.inj_succ, Z2Nat.id by apply Z.log2_nonneg.
  pose proof (Z.log2_spec n ltac:(lia)) as [_ Hl].
  eapply Z.lt_le_trans; [exact Hl|]. apply Z.pow_le_mono_l. lia.
Qed.

Lemma udigits_digits f n : forallb isdigit (udigits f n) = true.
Proof.
  revert n. induction f as [|f IH]; intros n; cbn [udigits]; [done|].
  rewrite forallb_app. simpl. rewrite isdigit_digit by apply mod10_range.
  destruct (n <? 10); simpl; [done|]. by rewrite IH.
Qed.

Lemma nat_str_digits n : forallb isdigit (nat_str n) = true.
Proof. apply udigits_digits. Qed.

Lemma nat_str_nonempty n : nat_str n ≠ [].
Proof. unfold nat_str. cbn [udigits]. by destruct (if n <? 10 then _ else _). Qed.

Lemma fixed_digits_value k n : 0 ≤ n < 10 ^ Z.of_nat k → dec_value (fixed_digits k n) = n.
Proof.
  revert n. induction k as [|k IH]; intros n Hn; cbn [fixed_digits].
  { replace n with 0 by (simpl in Hn; lia). done. }
  rewrite dec_value_snoc_digit. pose proof (Z.div_mod n 10 ltac:(done)).
  rewrite IH; [lia|]. rewrite Nat2Z.inj_succ, Z.pow_succ_r in Hn by lia.
  split; [apply Z.div_pos; lia|]. apply Z.div_lt_upper_bound; lia.
Qed.

Lemma fixed_digits_digits k n : forallb isdigit (fixed_digits k n) = true.
Proof.
  revert n. induction k as [|k IH]; intros n; cbn [fixed_digits]; [done|].
  rewrite forallb_app, IH. simpl. by rewrite isdigit_digit by apply mod10_range.
Qed.

Lemma length_fixed_digits k n : length (fixed_digits k n) = k.
Proof.
  revert n. induction k as [|k IH]; intros n; cbn [fixed_digits]; [done|].
  rewrite length_app, IH. simpl. lia.
Qed.

(** ** Conversions of the library *)

(** What [strtoll] and [strtoul] in base 10 scan: blanks, a sign, digits. The
    result is the sign, the digits, and the number of characters consumed
    ([None] when there are no digits). *)
Definition scan_integer (s : str) : option (bool * Z * nat) :=
  let '(blanks, s1) := span isspace s in
  let '(neg, signs, s2) :=
    match s1 with
    | c :: s' => if bool_decide (c = minus) then (true, 1%nat, s')
                 else if bool_decide (c = chr 43) then (false, 1%nat, s')
                 else (false, 0%nat, s1)
    | [] => (false, 0%nat, s1)
    end in
  let '(ds, _) := span isdigit s2 in
  match ds with
  | [] => None
  | _ => Some (neg, dec_value ds, (length blanks + signs + length ds)%nat)
  end.

(** [std::stoll(s, &processed)]: [None] when it throws [invalid_argument] or
    [out_of_range]. *)
Definition stoll (s : str) : option (Z * nat) :=
  match scan_integer s with
  | None => None
  | Some (neg, v, n) =>
      let z := if neg then - v else v in
      if in_sb 64 z then Some (z, n) else None
  end.

(** [strtoul(s, &endptr, 10)] on a 64-bit [unsigned long]: the value, the
    rest that [endptr] points to, and whether [errno] is set to [ERANGE]. A minus
    sign negates modulo [2^64]. *)
Definition strtoul (s : str) : Z * str * bool :=
  match scan_integer s with
  | None => (0, s, false)
  | Some (neg, v, n) =>
      if 2 ^ 64 <=? v then (2 ^ 64 - 1, drop n s, true)
      else (if neg then wrap 64 (- v) else v, drop n s, false)
  end.

Lemma scan_digits s :
  s ≠ [] → forallb isdigit s = true → scan_integer s = Some (false, dec_value s, length s).
Proof.
  intros Hs Hd. unfold scan_integer.
  destruct s as [|c s]; [done|]. simpl in Hd. apply andb_true_iff in Hd as [Hc Hd].
  assert (isspace c = false) as Hsp by (unfold isspace, isdigit in *; lia).
  cbn [span]. rewrite Hsp.
  rewrite !bool_decide_eq_false_2 by (by apply isdigit_not).
  rewrite (span_all isdigit (c :: s)); [done|]. simpl. by rewrite Hc.
Qed.

Lemma scan_minus_digits s :
  s ≠ [] → forallb isdigit s = true →
  scan_integer (minus :: s) = Some (true, dec_value s, S (length s)).
Proof.
  intros Hs Hd. unfold scan_integer. change (span isspace (minus :: s)) with ([] : str, minus :: s).
  cbn [bool_decide]. rewrite bool_decide_eq_true_2 by done.
  rewrite span_all by done. by destruct s.
Qed.

(** [stoll] reads back what [to_string] writes. *)
Lemma stoll_to_string z :
  in_s 64 z → stoll (to_string z) = Some (z, length (to_string z)).
Proof.
  intros Hz. unfold to_string, stoll. destruct (Z.ltb_spec z 0).
  - rewrite scan_minus_digits by auto using nat_str_nonempty, nat_str_digits.
    rewrite nat_str_value by lia. rewrite Z.opp_involutive.
    by rewrite (proj2 (in_sb_spec 64 z) Hz).
  - rewrite scan_digits by auto using nat_str_nonempty, nat_str_digits.
    rewrite nat_str_value by lia. by rewrite (proj2 (in_sb_spec 64 z) Hz).
Qed.

(** ** Comparison of strings: [std::string::operator<] *)
Fixpoint str_lt (s t : str) : bool :=
  match s, t with
  | [], [] => false
  | [], _ :: _ => true
  | _ :: _, [] => false
  | c :: s', d :: t' => (code c <? code d) || ((code c =? code d) && str_lt s' t')
  end.

Lemma str_lt_cons c s d t :
  str_lt (c :: s) (d :: t) = true ↔ code c < code d ∨ (c = d ∧ str_lt s t = true).
Proof.
  simpl. rewrite orb_true_iff, andb_true_iff, Z.ltb_lt, Z.eqb_eq. split.
  - intros [?|[?%code_inj ?]]; auto.
  - intros [?|[-> ?]]; auto.
Qed.

#[global] Instance str_lt_order : StrictTotalOrder str_lt.
Proof.
  split.
  - intros s. induction s; simpl; [done|]. by rewrite Z.ltb_irrefl, Z.eqb_refl.
  - intros s. induction s as [|c s IH]; intros [|d t] [|e u]; try done.
    rewrite !str_lt_cons. intros [?|[-> ?]] [?|[-> ?]]; [left; lia|auto|auto|right; eauto].
  - intros s. induction s as [|c s IH]; intros [|d t]; try done.
    rewrite <-!not_true_iff_false, !str_lt_cons. intros H1 H2.
    assert (c = d) as -> by (apply code_inj; lia).
    f_equal. apply IH; apply not_true_iff_false; auto.
Qed.
