(* ===== verification/Double.v ===== *)
(** * IEEE 754 binary64 arithmetic, and its decimal input and output

    A C++ [double] is a [spec_float] of the kernel's floating-point specification at
    precision 53 and maximal exponent 1024 (round to nearest, ties to even): the
    operators are the [SF] operations, so they compute the very bits of the program.
    [stod] is the correctly rounded [std::stod] on plain decimals and [print_fixed]
    the exact [std::fixed] output. *)
From Stdlib Require Import Ascii SpecFloat.
From S2P Require Import Prelude CString.

Abbreviation double := spec_float.
Definition prec : Z := 53.
Definition emax : Z := 1024.

Definition dadd : double → double → double := SFadd prec emax.
Definition dsub : double → double → double := SFsub prec emax.
Definition dmul : double → double → double := SFmul prec emax.
Definition dlt : double → double → bool := SFltb.
Definition dgt (x y : double) : bool := dlt y x.
(** Conversion of an integer ([static_cast<double>] and the usual conversions). *)
Definition double_of_Z (z : Z) : double := binary_normalize prec emax z 0 false.
Definition dzero : double := double_of_Z 0.

(** The double nearest to [(-1)^neg * m / 10^k]. *)
Definition decimal_to_double (neg : bool) (m : Z) (k : nat) : double :=
  if m =? 0 then S754_zero neg
  else
    let '(q, e, l) := SFdiv_core_binary prec emax m 0 (10 ^ Z.of_nat k) 0 in
    binary_round_aux prec emax neg q e l.

Definition is_finite (d : double) : bool :=
  match d with S754_zero _ | S754_finite _ _ _ => true | _ => false end.
Definition valid (d : double) : bool := valid_binary prec emax d.

(** [std::stod(s, &processed)] on the decimals ["-"? digits* ("." digits* )?] with at
    least one digit: the value and the characters consumed. [None] is an exception:
    [invalid_argument] without digits, [out_of_range] when the value overflows. The
    other forms [strtod] reads (blanks, plus sign, exponents, hexadecimal, "inf",
    "nan") never reach it, see [isValidDoubleStringFormat]. *)
Definition stod (s : str) : option (double * nat) :=
  let '(neg, s1) :=
    match s with
    | c :: s' => if bool_decide (c = minus) then (true, s') else (false, s)
    | [] => (false, s)
    end in
  let '(ds, s2) := span isdigit s1 in
  let '(fs, rest) :=
    match s2 with
    | c :: s' => if bool_decide (c = dot) then span isdigit s' else ([], s2)
    | [] => ([], s2)
    end in
  match ds ++ fs with
  | [] => None
  | _ =>
      let d := decimal_to_double neg (dec_value (ds ++ fs)) (length fs) in
      if is_finite d then Some (d, (length s - length rest)%nat) else None
  end.

(** Round half to even of [num / den]. *)
Definition div_half_even (num den : Z) : Z :=
  let q := num / den in
  let r := num mod den in
  if 2 * r <? den then q
  else if den <? 2 * r then q + 1
  else if Z.even q then q else q + 1.

(** [os << std::fixed << std::setprecision(k) << d]: the exact binary value rounded
    to [k] decimals. The sign of a NaN is not represented. *)
Definition scaled (k : nat) (m : positive) (e : Z) : Z :=
  if 0 <=? e then Zpos m * 2 ^ e * 10 ^ Z.of_nat k
  else div_half_even (Zpos m * 10 ^ Z.of_nat k) (2 ^ (- e)).
Definition print_decimal (k : nat) (neg : bool) (n : Z) : str :=
  (if neg then [minus] else []) ++
  nat_str (n / 10 ^ Z.of_nat k) ++ [dot] ++ fixed_digits k (n mod 10 ^ Z.of_nat k).
Definition print_fixed (k : nat) (d : double) : str :=
  match d with
  | S754_zero s => print_decimal k s 0
  | S754_finite s m e => print_decimal k s (scaled k m e)
  | S754_infinity s => (if s then [minus] else []) ++ lit "inf"
  | S754_nan => lit "nan"
  end.

(** The double literals of the sources are read this way. *)
Example print_7 : print_fixed 7 (decimal_to_double true 123456789012 8) = lit "-1234.5678901".
Proof. vm_compute. reflexivity. Qed.
Example literal_3e8 : decimal_to_double false 3 8 = S754_finite false 4533471823554859 (-77).
Proof. vm_compute. reflexivity. Qed.

(** ** Rounding *)

Lemma digits2_log2 p : Zpos (digits2_pos p) = Z.log2 (Zpos p) + 1.
Proof.
  induction p as [p IH|p IH|]; simpl digits2_pos; [| |done].
  - rewrite Pos2Z.inj_succ, IH, Pos2Z.inj_xI, Z.log2_succ_double by lia. lia.
  - rewrite Pos2Z.inj_succ, IH, (Pos2Z.inj_xO p), Z.log2_double by lia. lia.
Qed.

Lemma Zdigits2_log2 m : 0 < m → Zdigits2 m = Z.log2 m + 1.
Proof. intros. destruct m; try lia. apply digits2_log2. Qed.

Lemma fexp_eq d : fexp prec emax d = Z.max (d - 53) (-1074).
Proof. done. Qed.

Lemma iter_pos_nat {A} (f : A → A) p x : SpecFloat.iter_pos f p x = Nat.iter (Pos.to_nat p) f x.
Proof.
  revert x. induction p as [p IH|p IH|]; intros x; cbn [SpecFloat.iter_pos]; [| |done].
  - rewrite !IH, Pos2Nat.inj_xI, Nat.iter_succ_r, <-Nat.iter_add. f_equal. lia.
  - rewrite !IH, Pos2Nat.inj_xO, <-Nat.iter_add. f_equal. lia.
Qed.

Lemma shr_1_half r : 0 ≤ shr_m r → shr_m (shr_1 r) = shr_m r / 2.
Proof.
  destruct r as [[|[p|p|]|p] b c]; simpl; intros; try lia; try done.
  - rewrite Pos2Z.inj_xI. by rewrite Z.mul_comm, Z.div_add_l by lia.
  - rewrite (Pos2Z.inj_xO p). by rewrite Z.mul_comm, Z.div_mul by lia.
Qed.

(** Shifting right divides; on a multiple it is exact. *)
Lemma shr_iter_div n r :
  0 ≤ shr_m r → shr_m (Nat.iter n shr_1 r) = shr_m r / 2 ^ Z.of_nat n.
Proof.
  intros Hr. induction n as [|n IH]; [by rewrite Z.div_1_r|].
  rewrite Nat.iter_succ, shr_1_half; rewrite IH; [|by apply Z.div_pos; lia].
  rewrite Nat2Z.inj_succ, Z.pow_succ_r, Z.div_div by lia. f_equal. lia.
Qed.

Lemma shr_iter_exact n m :
  0 ≤ m → Nat.iter n shr_1 (Build_shr_record (m * 2 ^ Z.of_nat n) false false)
          = Build_shr_record m false false.
Proof.
  intros Hm. induction n as [|n IH]; [by rewrite Z.mul_1_r|].
  rewrite Nat.iter_succ_r. etransitivity; [|exact IH]. f_equal.
  rewrite Nat2Z.inj_succ, Z.pow_succ_r by lia.
  replace (m * (2 * 2 ^ Z.of_nat n)) with (2 * (m * 2 ^ Z.of_nat n)) by ring.
  by destruct (m * 2 ^ Z.of_nat n) as [|p|p] eqn:Hp; [|simpl|lia].
Qed.

Lemma shr_m_of_loc m l : shr_m (shr_record_of_loc m l) = m.
Proof. by destruct l as [|[]]. Qed.

Lemma loc_of_exact m : shr_record_of_loc m loc_Exact = Build_shr_record m false false.
Proof. done. Qed.

(** The result of a shift to the exponent [fexp] asks for. *)
Lemma shr_fexp_spec m e l :
  0 < m →
  let k := Z.max 0 (fexp prec emax (Z.log2 m + 1 + e) - e) in
  shr_m (fst (shr_fexp prec emax m e l)) = m / 2 ^ k ∧
  snd (shr_fexp prec emax m e l) = e + k.
Proof.
  intros Hm k. unfold shr_fexp, shr. rewrite Zdigits2_log2 by done. unfold k.
  destruct (fexp prec emax (Z.log2 m + 1 + e) - e) as [|p|p]; simpl.
  - rewrite shr_m_of_loc, Z.div_1_r. lia.
  - rewrite iter_pos_nat, shr_iter_div, shr_m_of_loc by (rewrite shr_m_of_loc; lia).
    by rewrite positive_nat_Z.
  - rewrite shr_m_of_loc, Z.div_1_r. lia.
Qed.

(** A shift that loses nothing. *)
Lemma shr_fexp_exact m e k :
  0 < m → 0 ≤ k → fexp prec emax (Z.log2 m + 1 + e + k) = e + k →
  shr_fexp prec emax (m * 2 ^ k) e loc_Exact = (Build_shr_record m false false, e + k).
Proof.
  intros Hm Hk Hf. unfold shr_fexp, shr. rewrite Zdigits2_log2 by nia.
  rewrite Z.log2_mul_pow2 by lia.
  replace (k + Z.log2 m + 1 + e) with (Z.log2 m + 1 + e + k) by lia. rewrite Hf.
  replace (e + k - e) with k by lia. rewrite loc_of_exact.
  destruct k as [|p|p]; [|..|lia].
  - by rewrite Z.mul_1_r, Z.add_0_r.
  - rewrite iter_pos_nat. rewrite <-(positive_nat_Z p) at 1.
    by rewrite shr_iter_exact by lia.
Qed.

(** Rounding a number that is already a double, given with an exponent that is
    too small by [k]: the result is that double. *)
Lemma round_aux_exact s m e k :
  0 ≤ k → bounded prec emax m (e + k) = true →
  binary_round_aux prec emax s (Zpos m * 2 ^ k) e loc_Exact = S754_finite s m (e + k).
Proof.
  unfold bounded, canonical_mantissa. intros Hk [Hc Hb]%andb_true_iff.
  rewrite digits2_log2 in Hc. apply Z.eqb_eq in Hc.
  unfold binary_round_aux. rewrite shr_fexp_exact by (try lia; rewrite <-Hc; f_equal; lia).
  simpl shr_m. simpl round_nearest_even.
  pose proof (shr_fexp_exact (Zpos m) (e + k) 0 ltac:(lia) ltac:(lia)) as Hx.
  rewrite Z.mul_1_r, !Z.add_0_r in Hx. rewrite Hx by done. simpl. by rewrite Hb.
Qed.

(** Rounding a mantissa of at most 53 bits (or [2^53]) at its exponent. *)
Lemma shr_fexp_second m e :
  0 < m ≤ 2 ^ 53 → - 1074 ≤ e → (m < 2 ^ 52 → e = - 1074) →
  ∃ m2 e2, shr_fexp prec emax m e loc_Exact = (Build_shr_record (Zpos m2) false false, e2) ∧
    e ≤ e2 ≤ e + 1 ∧ Zpos m2 * 2 ^ (e2 - e) = m ∧ canonical_mantissa prec emax m2 e2 = true.
Proof.
  intros Hm He Hsub. unfold canonical_mantissa. setoid_rewrite digits2_log2.
  destruct (decide (m = 2 ^ 53)) as [->|Hne].
  - exists (2 ^ 52)%positive, (e + 1).
    pose proof (shr_fexp_exact (2 ^ 52) e 1 ltac:(lia) ltac:(lia)) as Hx.
    change (2 ^ 52 * 2 ^ 1) with (2 ^ 53) in Hx.
    rewrite Hx by (change (Z.log2 (2 ^ 52)) with 52; rewrite fexp_eq; lia).
    split; [done|]. split; [lia|].
    replace (e + 1 - e) with 1 by lia. split; [done|].
    change (Z.log2 (Z.pos (2 ^ 52))) with 52. apply Z.eqb_eq. rewrite fexp_eq. lia.
  - assert (Z.log2 m ≤ 52) as Hl by (apply Z.lt_succ_r, Z.log2_lt_pow2; lia).
    assert (fexp prec emax (Z.log2 m + 1 + e) = e) as Hf.
    { rewrite fexp_eq. destruct (decide (m < 2 ^ 52)) as [Hlt|Hge].
      - rewrite (Hsub Hlt) in *. lia.
      - assert (52 ≤ Z.log2 m) by (apply Z.log2_le_pow2; lia). lia. }
    destruct m as [|m|m]; try lia. exists m, e.
    pose proof (shr_fexp_exact (Zpos m) e 0 ltac:(lia) ltac:(lia)) as Hx.
    rewrite Z.mul_1_r, !Z.add_0_r in Hx. rewrite Hx by done.
    rewrite Z.sub_diag, Z.mul_1_r. repeat split; lia.
Qed.

(** What [binary_round_aux] returns: an integral multiple [m1] of [2^f], [f] the
    exponent of the result's binade, that is not above any multiple of [2^f] above the
    rounded value; or an infinity, when the exponent is too large. *)
Lemma round_aux_cases s m e l :
  0 < m →
  let f := fexp prec emax (Z.log2 m + 1 + e) in
  e ≤ f →
  ∃ m1, 0 ≤ m1 ∧ m / 2 ^ (f - e) ≤ m1 ≤ m / 2 ^ (f - e) + 1 ∧
    (∀ J, (l = loc_Exact ∧ m ≤ J * 2 ^ (f - e)) ∨ m + 1 ≤ J * 2 ^ (f - e) → m1 ≤ J) ∧
    ((m1 = 0 ∧ binary_round_aux prec emax s m e l = S754_zero s) ∨
     ∃ m2 e2, binary_round_aux prec emax s m e l =
         (if e2 <=? 971 then S754_finite s m2 e2 else S754_infinity s) ∧
       canonical_mantissa prec emax m2 e2 = true ∧
       f ≤ e2 ≤ f + 1 ∧ Zpos m2 * 2 ^ (e2 - f) = m1).
Proof.
  intros Hm f Hef.
  destruct (shr_fexp_spec m e l Hm) as [Hsm Hse]. fold f in Hsm, Hse.
  rewrite Z.max_r in Hsm, Hse by lia.
  destruct (shr_fexp prec emax m e l) as [mrs e'] eqn:Hshr. simpl in Hsm, Hse.
  replace (e + (f - e)) with f in Hse by lia. subst e'.
  set (m' := m / 2 ^ (f - e)) in *.
  assert (0 < 2 ^ (f - e)) as Hp by (apply Z.pow_pos_nonneg; lia).
  assert (0 ≤ m') as Hm' by (apply Z.div_pos; lia).
  set (m1 := round_nearest_even (shr_m mrs) (loc_of_shr_record mrs)).
  assert (m' ≤ m1 ≤ m' + 1) as Hm1.
  { unfold m1. rewrite Hsm. destruct (loc_of_shr_record mrs) as [|[]]; simpl; try lia.
    destruct (Z.even m'); lia. }
  exists m1. split; [lia|]. split; [lia|]. split.
  { intros J HJ. destruct (decide (m' < J)); [lia|].
    destruct HJ as [[-> HJ]|HJ].
    - assert (m = m' * 2 ^ (f - e)) as Hex.
      { pose proof (Z.div_mod m (2 ^ (f - e)) ltac:(lia)) as Hdm. fold m' in Hdm.
        pose proof (Z.mod_pos_bound m (2 ^ (f - e)) Hp). nia. }
      assert (0 < m') as Hm'0 by nia.
      assert (Z.log2 m = f - e + Z.log2 m') as Hl
        by (rewrite Hex at 1; rewrite Z.log2_mul_pow2; lia).
      unfold m1. rewrite Hex in Hshr. rewrite shr_fexp_exact in Hshr; [|done|lia|].
      + injection Hshr as <-. simpl. nia.
      + replace (Z.log2 m' + 1 + e + (f - e)) with (Z.log2 m + 1 + e) by lia. fold f. lia.
    - exfalso. pose proof (Z.div_mod m (2 ^ (f - e)) ltac:(lia)) as Hdm. fold m' in Hdm.
      pose proof (Z.mod_pos_bound m (2 ^ (f - e)) Hp). nia. }
  assert (binary_round_aux prec emax s m e l =
    let '(mrs'', e'') := shr_fexp prec emax m1 f loc_Exact in
    match shr_m mrs'' with
    | Z0 => S754_zero s
    | Zpos m => if e'' <=? emax - prec then S754_finite s m e'' else S754_infinity s
    | _ => S754_nan
    end) as -> by (unfold binary_round_aux; by rewrite Hshr).
  pose proof (fexp_eq (Z.log2 m + 1 + e)) as Hf. fold f in Hf.
  pose proof (Z.log2_spec m Hm) as [Hlo Hhi].
  assert (m' < 2 ^ 53) as Hup.
  { apply Z.div_lt_upper_bound; [done|]. rewrite <-Z.pow_add_r by lia.
    eapply Z.lt_le_trans; [exact Hhi|]. apply Z.pow_le_mono_r; lia. }
  destruct (decide (m1 = 0)) as [H0|H0].
  - left. split; [done|]. rewrite H0. unfold shr_fexp, shr. simpl Zdigits2.
    rewrite fexp_eq. destruct (Z.max (0 + f - 53) (-1074) - f) as [|p|p] eqn:Hk; [done|lia|done].
  - right. destruct (shr_fexp_second m1 f) as (m2 & e2 & -> & He2 & Hm2 & Hc); [lia|lia| |].
    { intros Hlt. destruct (decide (f = -1074)); [done|]. exfalso.
      enough (2 ^ 52 ≤ m') by lia. apply Z.div_le_lower_bound; [done|].
      rewrite <-Z.pow_add_r by lia.
      transitivity (2 ^ Z.log2 m); [|done]. apply Z.pow_le_mono_r; lia. }
    by exists m2, e2.
Qed.

Lemma round_aux_valid s m e l :
  0 < m → e ≤ fexp prec emax (Z.log2 m + 1 + e) →
  valid (binary_round_aux prec emax s m e l) = true.
Proof.
  intros Hm He. destruct (round_aux_cases s m e l Hm He) as (m1 & _ & _ & _ & [[_ ->]|H]); [done|].
  destruct H as (m2 & e2 & -> & Hc & _). destruct (e2 <=? 971) eqn:Hb; [|done].
  simpl. unfold bounded. rewrite Hc. exact Hb.
Qed.

(** For an exponent that is not too large, the result is finite. *)
Lemma round_aux_spec s m e l :
  0 < m →
  let f := fexp prec emax (Z.log2 m + 1 + e) in
  e ≤ f → Z.log2 m + 1 + e ≤ 1023 →
  ∃ m1, 0 ≤ m1 ∧
    (∀ J, (l = loc_Exact ∧ m ≤ J * 2 ^ (f - e)) ∨ m + 1 ≤ J * 2 ^ (f - e) → m1 ≤ J) ∧
    ((m1 = 0 ∧ binary_round_aux prec emax s m e l = S754_zero s) ∨
     ∃ m2 e2, binary_round_aux prec emax s m e l = S754_finite s m2 e2 ∧
       bounded prec emax m2 e2 = true ∧ f ≤ e2 ∧ Zpos m2 * 2 ^ (e2 - f) = m1).
Proof.
  intros Hm f Hef Hd. pose proof (fexp_eq (Z.log2 m + 1 + e)) as Hf. fold f in Hf.
  destruct (round_aux_cases s m e l Hm Hef) as (m1 & H0 & _ & HJ & Hr).
  exists m1. split; [done|]. split; [exact HJ|].
  destruct Hr as [Hr|(m2 & e2 & -> & Hc & He2 & Hm2)]; [by left|]. right.
  fold f in He2, Hm2. rewrite (proj2 (Z.leb_le e2 971)) by lia. exists m2, e2.
  unfold bounded. rewrite Hc. change (emax - prec) with 971.
  rewrite (proj2 (Z.leb_le e2 971)) by lia. repeat split; [lia|done].
Qed.


(** ** Bounds: no overflow

    [dabs_le j b d]: [d] is finite, valid and [|d| <= j * 2^b]. *)
Definition dabs_le (j b : Z) (d : double) : Prop :=
  valid d = true ∧
  match d with
  | S754_zero _ => True
  | S754_finite _ m e => e ≤ b ∧ Zpos m ≤ j * 2 ^ (b - e)
  | _ => False
  end.
(** The bounds the lemmas below accept: [j * 2^b] is itself a double. *)
Definition dbound (j b : Z) : Prop := 0 < j < 2 ^ 53 ∧ -1074 ≤ b ≤ 900.

Lemma dabs_le_finite j b d : dabs_le j b d → is_finite d = true.
Proof. by intros [_ ?]; destruct d. Qed.

Lemma dabs_le_valid j b d : dabs_le j b d → valid d = true.
Proof. by intros [? _]. Qed.

Lemma dabs_le_mono j j' b d : j ≤ j' → dabs_le j b d → dabs_le j' b d.
Proof.
  intros Hj [Hv Hd]. split; [done|]. destruct d as [| | |s m e]; try done.
  destruct Hd as [He Hm]. split; [done|]. etransitivity; [exact Hm|].
  apply Z.mul_le_mono_nonneg_r; [apply Z.pow_nonneg; lia|done].
Qed.

Lemma dabs_le_shift j b b' d : b ≤ b' → 0 ≤ j → dabs_le j b d → dabs_le j b' d.
Proof.
  intros Hb Hj [Hv Hd]. split; [done|]. destruct d as [| | |s m e]; try done.
  destruct Hd as [He Hm]. split; [lia|]. etransitivity; [exact Hm|].
  apply Z.mul_le_mono_nonneg_l; [done|]. apply Z.pow_le_mono_r; lia.
Qed.

Lemma dabs_le_rescale j j' b k d :
  0 ≤ k → j ≤ j' * 2 ^ k → dabs_le j b d → dabs_le j' (b + k) d.
Proof.
  intros Hk Hj [Hv Hd]. split; [done|]. destruct d as [| | |s m e]; try done.
  destruct Hd as [He Hm]. split; [lia|]. etransitivity; [exact Hm|].
  replace (b + k - e) with (k + (b - e)) by lia. rewrite Z.pow_add_r, Z.mul_assoc by lia.
  apply Z.mul_le_mono_nonneg_r; [apply Z.pow_nonneg; lia|done].
Qed.

Lemma canonical_normal m e :
  canonical_mantissa prec emax m e = true → -1074 < e → 2 ^ 52 ≤ Zpos m.
Proof.
  unfold canonical_mantissa. rewrite digits2_log2, fexp_eq. intros Hc%Z.eqb_eq He.
  pose proof (Z.log2_spec (Zpos m) ltac:(lia)) as [Hl _].
  transitivity (2 ^ Z.log2 (Z.pos m)); [|done]. apply Z.pow_le_mono_r; lia.
Qed.

Lemma pow_split a b c : a ≤ b → b ≤ c → 2 ^ (c - a) = 2 ^ (c - b) * 2 ^ (b - a).
Proof. intros. rewrite <-Z.pow_add_r by lia. f_equal. lia. Qed.

Lemma round_aux_dabs s m e l j b :
  dbound j b → 0 < m → e ≤ fexp prec emax (Z.log2 m + 1 + e) → e ≤ b →
  (l = loc_Exact ∧ m ≤ j * 2 ^ (b - e)) ∨ m + 1 ≤ j * 2 ^ (b - e) →
  dabs_le j b (binary_round_aux prec emax s m e l).
Proof.
  intros [Hj Hb] Hm Hf Heb Hv.
  assert (Z.log2 m < 53 + (b - e)) as Hd.
  { apply Z.log2_lt_pow2; [done|]. rewrite Z.pow_add_r by lia.
    eapply Z.le_lt_trans with (j * 2 ^ (b - e)); [lia|].
    apply Z.mul_lt_mono_pos_r; [apply Z.pow_pos_nonneg; lia|lia]. }
  destruct (round_aux_spec s m e l Hm) as (m1 & Hm1 & HJ & Hr); [done|lia|].
  set (f := fexp prec emax (Z.log2 m + 1 + e)) in *.
  assert (f ≤ b) as Hfb by (unfold f; rewrite fexp_eq; lia).
  assert (m1 ≤ j * 2 ^ (b - f)) as Hle.
  { apply HJ. rewrite <-Z.mul_assoc, <-pow_split by lia. done. }
  destruct Hr as [[_ ->]|(m2 & e2 & -> & Hbd & Hfe & <-)]; [done|].
  split; [done|]. apply andb_true_iff in Hbd as [Hc _].
  destruct (decide (e2 ≤ b)) as [He2|He2].
  - split; [done|]. rewrite (pow_split f e2 b) in Hle by lia.
    rewrite Z.mul_assoc in Hle. apply Z.mul_le_mono_pos_r in Hle; [done|].
    apply Z.pow_pos_nonneg; lia.
  - exfalso. pose proof (canonical_normal _ _ Hc ltac:(lia)) as Hn.
    rewrite (pow_split f b e2) in Hle by lia.
    rewrite Z.mul_assoc in Hle. apply Z.mul_le_mono_pos_r in Hle; [|apply Z.pow_pos_nonneg; lia].
    assert (2 ^ 1 ≤ 2 ^ (e2 - b)) by (apply Z.pow_le_mono_r; lia). nia.
Qed.

Lemma iter_xO m d : Zpos (Pos.iter xO m d) = Zpos m * 2 ^ Zpos d.
Proof.
  induction d as [|d IH] using Pos.peano_ind; [simpl; lia|].
  rewrite Pos.iter_succ, Pos2Z.inj_xO, IH, Pos2Z.inj_succ, Z.pow_succ_r by lia. ring.
Qed.

Lemma shl_align_spec m e e' :
  Zpos (fst (shl_align m e e')) = Zpos m * 2 ^ (e - Z.min e e') ∧
  snd (shl_align m e e') = Z.min e e'.
Proof.
  unfold shl_align. destruct (e' - e) as [|p|p] eqn:Hp; simpl.
  - replace (Z.min e e') with e by lia. rewrite Z.sub_diag. lia.
  - replace (Z.min e e') with e by lia. rewrite Z.sub_diag. lia.
  - rewrite iter_xO. replace (e - Z.min e e') with (Zpos p) by lia. lia.
Qed.

Lemma log2_shift m k : 0 < m → 0 ≤ k → Z.log2 (m * 2 ^ k) = Z.log2 m + k.
Proof. intros. rewrite Z.log2_mul_pow2; lia. Qed.

Lemma binary_round_dabs s m e j b :
  dbound j b → e ≤ b → Zpos m ≤ j * 2 ^ (b - e) →
  dabs_le j b (binary_round prec emax s m e).
Proof.
  intros Hb He Hm. unfold binary_round. rewrite digits2_log2.
  set (g := fexp prec emax _). pose proof (shl_align_spec m e g) as [H1 H2].
  destruct (shl_align m e g) as [mz ez]. simpl in H1, H2. subst ez. rewrite H1.
  assert (0 < 2 ^ (e - Z.min e g)) by (apply Z.pow_pos_nonneg; lia).
  apply round_aux_dabs; [done|lia| |lia|left; split; [done|]].
  - rewrite log2_shift by lia.
    replace (Z.log2 (Z.pos m) + (e - Z.min e g) + 1 + Z.min e g) with (Z.log2 (Z.pos m) + 1 + e) by lia.
    fold g. lia.
  - rewrite (pow_split (Z.min e g) e b), Z.mul_assoc by lia.
    apply Z.mul_le_mono_nonneg_r; lia.
Qed.

Lemma binary_normalize_dabs z e j b sz :
  dbound j b → e ≤ b → Z.abs z ≤ j * 2 ^ (b - e) →
  dabs_le j b (binary_normalize prec emax z e sz).
Proof. intros. destruct z; simpl; [done| |]; by apply binary_round_dabs. Qed.

Lemma double_of_Z_dabs z j b :
  dbound j b → 0 ≤ b → Z.abs z ≤ j * 2 ^ b → dabs_le j b (double_of_Z z).
Proof. intros. apply binary_normalize_dabs; [done|done|]. by rewrite Z.sub_0_r. Qed.

Lemma cond_Zopp_abs s m : Z.abs (cond_Zopp s (Zpos m)) = Zpos m.
Proof. by destruct s. Qed.

(** Two finite terms aligned at the smaller exponent. *)
Lemma align_le m e e' j b :
  e ≤ b → e' ≤ e → Zpos m ≤ j * 2 ^ (b - e) →
  Zpos (fst (shl_align m e e')) ≤ j * 2 ^ (b - e').
Proof.
  intros. rewrite (proj1 (shl_align_spec m e e')). rewrite Z.min_r by lia.
  rewrite (pow_split e' e b), Z.mul_assoc by lia.
  apply Z.mul_le_mono_nonneg_r; [apply Z.pow_nonneg; lia|done].
Qed.

Lemma dadd_dabs j1 j2 b x y :
  dbound (j1 + j2) b → 0 < j1 → 0 < j2 →
  dabs_le j1 b x → dabs_le j2 b y → dabs_le (j1 + j2) b (dadd x y).
Proof.
  intros Hb H1 H2 Hx Hy.
  destruct x as [sx|sx| |sx mx ex]; try by destruct Hx.
  { destruct y as [sy|sy| |sy my ey]; try by destruct Hy.
    - by destruct sx, sy.
    - apply (dabs_le_mono j2); [lia|exact Hy]. }
  destruct y as [sy|sy| |sy my ey]; try by destruct Hy.
  { apply (dabs_le_mono j1); [lia|exact Hx]. }
  destruct Hx as [_ [Hex Hmx]], Hy as [_ [Hey Hmy]].
  apply binary_normalize_dabs; [done|lia|].
  etransitivity; [apply Z.abs_triangle|]. rewrite !cond_Zopp_abs, Z.mul_add_distr_r.
  apply Z.add_le_mono; apply align_le; done || lia.
Qed.

Lemma dsub_dabs j1 j2 b x y :
  dbound (j1 + j2) b → 0 < j1 → 0 < j2 →
  dabs_le j1 b x → dabs_le j2 b y → dabs_le (j1 + j2) b (dsub x y).
Proof.
  intros Hb H1 H2 Hx Hy.
  destruct x as [sx|sx| |sx mx ex]; try by destruct Hx.
  { destruct y as [sy|sy| |sy my ey]; try by destruct Hy.
    - by destruct sx, sy.
    - apply (dabs_le_mono j2); [lia|exact Hy]. }
  destruct y as [sy|sy| |sy my ey]; try by destruct Hy.
  { apply (dabs_le_mono j1); [lia|exact Hx]. }
  destruct Hx as [_ [Hex Hmx]], Hy as [_ [Hey Hmy]].
  apply binary_normalize_dabs; [done|lia|].
  rewrite <-Z.add_opp_r. etransitivity; [apply Z.abs_triangle|].
  rewrite Z.abs_opp, !cond_Zopp_abs, Z.mul_add_distr_r.
  apply Z.add_le_mono; apply align_le; done || lia.
Qed.

Lemma bounded_fexp m e :
  bounded prec emax m e = true → fexp prec emax (Z.log2 (Zpos m) + 1 + e) = e.
Proof.
  unfold bounded, canonical_mantissa. rewrite digits2_log2, andb_true_iff, Z.eqb_eq.
  by intros [? _].
Qed.

Lemma dmul_dabs j1 j2 b1 b2 x y :
  dbound (j1 * j2) (b1 + b2) → 0 < j1 → 0 < j2 →
  dabs_le j1 b1 x → dabs_le j2 b2 y → dabs_le (j1 * j2) (b1 + b2) (dmul x y).
Proof.
  intros Hb H1 H2 Hx Hy.
  destruct x as [sx|sx| |sx mx ex]; try by destruct Hx.
  { by destruct y as [sy|sy| |sy my ey]; try by destruct Hy. }
  destruct y as [sy|sy| |sy my ey]; try by destruct Hy.
  destruct Hx as [Hvx [Hex Hmx]], Hy as [Hvy [Hey Hmy]].
  apply bounded_fexp in Hvx, Hvy. rewrite fexp_eq in Hvx, Hvy.
  apply round_aux_dabs; [done|lia| |lia|left; split; [done|]].
  - pose proof (Z.log2_mul_below (Zpos mx) (Zpos my) ltac:(lia) ltac:(lia)).
    rewrite fexp_eq, Pos2Z.inj_mul.
    pose proof (Z.log2_nonneg (Zpos mx)). pose proof (Z.log2_nonneg (Zpos my)). lia.
  - rewrite Pos2Z.inj_mul.
    replace (b1 + b2 - (ex + ey)) with ((b1 - ex) + (b2 - ey)) by lia.
    rewrite Z.pow_add_r by lia.
    transitivity ((j1 * 2 ^ (b1 - ex)) * (j2 * 2 ^ (b2 - ey))); [|lia].
    apply Z.mul_le_mono_nonneg; lia.
Qed.

(** ** Decimal input *)

Lemma SFdiv_core_eq m D e' :
  e' = Z.min (fexp prec emax (Zdigits2 m - Zdigits2 D)) 0 →
  SFdiv_core_binary prec emax m 0 D 0 =
    ((m * 2 ^ (- e')) / D, e', new_location D ((m * 2 ^ (- e')) mod D)).
Proof.
  intros He. unfold SFdiv_core_binary. rewrite Z.sub_diag, !Z.add_0_r, <-He.
  rewrite (surjective_pairing (Z.div_eucl _ _)). unfold Z.div, Z.modulo.
  rewrite Z.sub_0_l.
  destruct (- e') as [|p|p] eqn:Hp; [| |lia].
  - rewrite Z.mul_1_r. by destruct (Z.div_eucl _ _).
  - rewrite Z.shiftl_mul_pow2 by lia. by destruct (Z.div_eucl _ _).
Qed.

Lemma new_location_exact D r : new_location D r = loc_Exact ↔ r = 0.
Proof.
  unfold new_location, new_location_even, new_location_odd.
  destruct (Z.even D), (Z.eqb_spec r 0); naive_solver.
Qed.

(** Exponent and quotient of a division that keeps at least 53 bits. *)
Lemma div_core_bits m D :
  0 < m → 0 < D → D < 2 ^ 1000 →
  let e' := Z.min (fexp prec emax (Zdigits2 m - Zdigits2 D)) 0 in
  0 < (m * 2 ^ (- e')) / D ∧
  e' ≤ fexp prec emax (Z.log2 ((m * 2 ^ (- e')) / D) + 1 + e').
Proof.
  intros Hm HD Hbig e'. unfold e'. rewrite !Zdigits2_log2, !fexp_eq by done.
  set (x := Z.min _ 0).
  assert (Z.log2 D < 1000) by (apply Z.log2_lt_pow2; lia).
  pose proof (Z.log2_nonneg m). pose proof (Z.log2_nonneg D).
  pose proof (Z.log2_spec m Hm) as [Hlm _]. pose proof (Z.log2_spec D HD) as [_ HhD].
  assert (x = Z.min (Z.log2 m - Z.log2 D - 53) 0) as Hx by lia.
  assert (2 ^ 52 ≤ (m * 2 ^ (- x)) / D) as Hq.
  { apply Z.div_le_lower_bound; [done|].
    transitivity (2 ^ (Z.succ (Z.log2 D)) * 2 ^ 52).
    - apply Z.mul_le_mono_nonneg_r; lia.
    - transitivity (2 ^ Z.log2 m * 2 ^ (- x)).
      + rewrite <-!Z.pow_add_r by lia. apply Z.pow_le_mono_r; lia.
      + apply Z.mul_le_mono_nonneg_r; [apply Z.pow_nonneg; lia|done]. }
  split; [lia|].
  assert (52 ≤ Z.log2 (m * 2 ^ (- x) / D)) by (apply Z.log2_le_pow2; lia). lia.
Qed.

Lemma pow10_small k : (k ≤ 300)%nat → 10 ^ Z.of_nat k < 2 ^ 1000.
Proof.
  intros. apply Z.le_lt_trans with (10 ^ 300); [apply Z.pow_le_mono_r; lia|].
  vm_compute. done.
Qed.

Lemma pow10_pos k : 0 < 10 ^ Z.of_nat k.
Proof. apply Z.pow_pos_nonneg; lia. Qed.

Lemma decimal_to_double_dabs neg m k j b :
  (k ≤ 300)%nat → dbound j b → 0 ≤ b → 0 ≤ m ≤ j * 2 ^ b * 10 ^ Z.of_nat k →
  dabs_le j b (decimal_to_double neg m k).
Proof.
  intros Hk Hb Hb0 Hm. unfold decimal_to_double.
  destruct (Z.eqb_spec m 0) as [|Hm0]; [done|].
  pose proof (pow10_pos k) as HD. pose proof (pow10_small k Hk) as HD'.
  set (D := 10 ^ Z.of_nat k) in *.
  rewrite (SFdiv_core_eq m D _ eq_refl). set (e' := Z.min _ 0).
  destruct (div_core_bits m D) as [Hq Hf]; [lia..|]. fold e' in Hq, Hf.
  assert (e' ≤ 0) by apply Z.le_min_r.
  assert (m * 2 ^ (- e') ≤ j * 2 ^ (b - e') * D) as Hle.
  { replace (b - e') with (b + - e') by lia. rewrite Z.pow_add_r by lia.
    transitivity (j * 2 ^ b * D * 2 ^ (- e')); [|lia].
    apply Z.mul_le_mono_nonneg_r; [apply Z.pow_nonneg|]; lia. }
  pose proof (Z.div_mod (m * 2 ^ (- e')) D ltac:(lia)) as Hdm.
  pose proof (Z.mod_pos_bound (m * 2 ^ (- e')) D HD) as Hr.
  apply round_aux_dabs; [done|done|done|lia|].
  destruct (decide ((m * 2 ^ (- e')) mod D = 0)) as [H0|H0].
  - left. split; [by apply new_location_exact|]. nia.
  - right. nia.
Qed.

Lemma decimal_to_double_valid neg m k :
  (k ≤ 300)%nat → 0 ≤ m → valid (decimal_to_double neg m k) = true.
Proof.
  intros Hk Hm. unfold decimal_to_double. destruct (Z.eqb_spec m 0) as [|Hm0]; [done|].
  rewrite (SFdiv_core_eq m _ _ eq_refl).
  destruct (div_core_bits m (10 ^ Z.of_nat k)) as [Hq Hf]; [lia|apply pow10_pos|by apply pow10_small|].
  by apply round_aux_valid.
Qed.

(** A decimal that denotes an integral double is read exactly. *)
Lemma decimal_to_double_exact neg m e k :
  (k ≤ 300)%nat → 0 ≤ e → bounded prec emax m e = true →
  decimal_to_double neg (Zpos m * 2 ^ e * 10 ^ Z.of_nat k) k = S754_finite neg m e.
Proof.
  intros Hk He Hbd. unfold decimal_to_double.
  pose proof (pow10_pos k) as HD. set (D := 10 ^ Z.of_nat k) in *.
  assert (0 < 2 ^ e) by (apply Z.pow_pos_nonneg; lia).
  destruct (Z.eqb_spec (Zpos m * 2 ^ e * D) 0); [nia|].
  rewrite (SFdiv_core_eq _ D _ eq_refl). set (e' := Z.min _ 0).
  assert (e' ≤ 0) by apply Z.le_min_r.
  replace (Zpos m * 2 ^ e * D * 2 ^ (- e')) with (Zpos m * 2 ^ (e - e') * D)
    by (replace (e - e') with (e + - e') by lia; rewrite Z.pow_add_r by lia; ring).
  rewrite Z.div_mul, Z.mod_mul by lia.
  rewrite (proj2 (new_location_exact D 0) eq_refl).
  rewrite round_aux_exact; [f_equal; lia|lia|]. by replace (e' + (e - e')) with e by lia.
Qed.

(** ** Decimal output *)

Lemma div_half_even_spec num den :
  0 < den → - den ≤ 2 * (den * div_half_even num den - num) ≤ den.
Proof.
  intros Hd. unfold div_half_even.
  pose proof (Z.div_mod num den ltac:(lia)). pose proof (Z.mod_pos_bound num den Hd).
  destruct (Z.ltb_spec (2 * (num mod den)) den); [lia|].
  destruct (Z.ltb_spec den (2 * (num mod den))); [lia|].
  destruct (Z.even (num / den)); lia.
Qed.

Lemma div_half_even_le num den J :
  0 < den → 0 ≤ num ≤ J * den → 0 ≤ div_half_even num den ≤ J.
Proof. intros Hd Hn. pose proof (div_half_even_spec num den Hd). nia. Qed.

Lemma scaled_le k m e j b :
  0 ≤ b → e ≤ b → Zpos m ≤ j * 2 ^ (b - e) →
  0 ≤ scaled k m e ≤ j * 2 ^ b * 10 ^ Z.of_nat k.
Proof.
  intros Hb He Hm. unfold scaled. pose proof (pow10_pos k) as HD.
  destruct (Z.leb_spec 0 e).
  - assert (0 < 2 ^ e) by (apply Z.pow_pos_nonneg; lia). split; [nia|].
    apply Z.mul_le_mono_nonneg_r; [lia|].
    replace (2 ^ b) with (2 ^ (b - e) * 2 ^ e) by (rewrite <-Z.pow_add_r by lia; f_equal; lia).
    rewrite Z.mul_assoc. apply Z.mul_le_mono_nonneg_r; lia.
  - apply div_half_even_le; [apply Z.pow_pos_nonneg; lia|]. split; [lia|].
    replace (j * 2 ^ b * 10 ^ Z.of_nat k * 2 ^ (- e)) with (j * (2 ^ b * 2 ^ (- e)) * 10 ^ Z.of_nat k) by ring.
    rewrite <-Z.pow_add_r, Z.add_opp_r by lia. apply Z.mul_le_mono_nonneg_r; lia.
Qed.

(** A decimal in the syntax the programs accept: sign, digits, and optionally a dot
    followed by digits. *)
Definition decimal_text (neg : bool) (ds : str) (frac : option str) : str :=
  (if neg then [minus] else []) ++ ds ++ match frac with Some fs => dot :: fs | None => [] end.
Definition decimal_digits (ds : str) (frac : option str) : str := ds ++ default [] frac.

Lemma not_digit_head ds t : forallb isdigit ds = true → isdigit t = false → head ds ≠ Some t.
Proof.
  destruct ds as [|c ds]; [done|]. simpl. intros [Hc _]%andb_true_iff Ht [= ->]. congruence.
Qed.

(** Reading the sign. *)
Lemma sign_split (neg : bool) (ds t : str) :
  forallb isdigit ds = true → head t ≠ Some minus →
  match (if neg then [minus] else []) ++ ds ++ t with
  | c :: s' => if bool_decide (c = minus) then (true, s')
               else (false, (if neg then [minus] else []) ++ ds ++ t)
  | [] => (false, (if neg then [minus] else []) ++ ds ++ t)
  end = (neg, ds ++ t).
Proof.
  intros Hds Ht. destruct neg; [done|]. simpl.
  destruct ds as [|c ds]; simpl.
  - destruct t as [|c t]; [done|]. rewrite bool_decide_eq_false_2; [done|]. by intros ->.
  - rewrite bool_decide_eq_false_2; [done|]. intros ->. by apply not_digit_head with (t := minus) in Hds.
Qed.

Lemma span_decimal ds frac :
  forallb isdigit ds = true →
  span isdigit (ds ++ match frac with Some fs => dot :: fs | None => [] end) =
    (ds, match frac with Some fs => dot :: fs | None => [] end).
Proof. intros. apply span_stop; [done|]. by destruct frac. Qed.

Lemma stod_decimal neg ds frac :
  forallb isdigit ds = true → forallb isdigit (default [] frac) = true →
  decimal_digits ds frac ≠ [] →
  stod (decimal_text neg ds frac) =
    let d := decimal_to_double neg (dec_value (decimal_digits ds frac)) (length (default [] frac)) in
    if is_finite d then Some (d, length (decimal_text neg ds frac)) else None.
Proof.
  intros Hds Hfs Hne. unfold stod, decimal_text.
  rewrite sign_split by (done || by destruct frac).
  rewrite span_decimal by done. unfold decimal_digits in *.
  destruct frac as [fs|]; simpl default in *.
  - rewrite bool_decide_eq_true_2 by done. rewrite span_all by done.
    destruct (ds ++ fs); [done|]. by rewrite Nat.sub_0_r.
  - rewrite !app_nil_r in *. destruct ds; [done|]. by rewrite Nat.sub_0_r.
Qed.

Lemma print_decimal_text k neg n :
  print_decimal k neg n =
    decimal_text neg (nat_str (n / 10 ^ Z.of_nat k)) (Some (fixed_digits k (n mod 10 ^ Z.of_nat k))).
Proof. done. Qed.

Lemma print_decimal_value k n :
  0 ≤ n →
  dec_value (nat_str (n / 10 ^ Z.of_nat k) ++ fixed_digits k (n mod 10 ^ Z.of_nat k)) = n.
Proof.
  intros Hn. pose proof (pow10_pos k) as HD.
  rewrite dec_value_app, length_fixed_digits, nat_str_value by (apply Z.div_pos; lia).
  rewrite fixed_digits_value by (apply Z.mod_pos_bound; lia).
  pose proof (Z.div_mod n (10 ^ Z.of_nat k) ltac:(lia)). lia.
Qed.

Lemma stod_print_decimal k neg n :
  0 ≤ n → is_finite (decimal_to_double neg n k) = true →
  stod (print_decimal k neg n) = Some (decimal_to_double neg n k, length (print_decimal k neg n)).
Proof.
  intros Hn Hfin. rewrite print_decimal_text, stod_decimal.
  - unfold decimal_digits. simpl default.
    by rewrite print_decimal_value, length_fixed_digits, Hfin by done.
  - apply nat_str_digits.
  - apply fixed_digits_digits.
  - unfold decimal_digits. intros [Hnil _]%app_nil. by apply nat_str_nonempty in Hnil.
Qed.

Lemma valid_below_2_53 s m e : valid (S754_finite s m e) = true → e < 0 → Zpos m < 2 ^ 53.
Proof.
  intros Hv%bounded_fexp He. rewrite fexp_eq in Hv.
  pose proof (Z.log2_spec (Zpos m) ltac:(lia)) as [_ Hhi].
  eapply Z.lt_le_trans; [exact Hhi|]. apply Z.pow_le_mono_r; lia.
Qed.

(** The number [std::stod] reads from a printed number is finite; an integral double
    is read back unchanged. *)
Lemma stod_print_fixed k d :
  (k ≤ 300)%nat → valid d = true → is_finite d = true →
  ∃ d', stod (print_fixed k d) = Some (d', length (print_fixed k d)) ∧
    valid d' = true ∧ is_finite d' = true ∧
    match d with S754_finite _ _ e => 0 ≤ e → d' = d | _ => d' = d end.
Proof.
  intros Hk Hv Hfin. destruct d as [s|s| |s m e]; try done; simpl print_fixed.
  { exists (S754_zero s). by rewrite stod_print_decimal. }
  destruct (decide (0 ≤ e)) as [He|He].
  - exists (S754_finite s m e). split; [|by auto].
    assert (decimal_to_double s (scaled k m e) k = S754_finite s m e) as Hd.
    { unfold scaled. rewrite (proj2 (Z.leb_le 0 e)) by done. by apply decimal_to_double_exact. }
    rewrite stod_print_decimal; rewrite ?Hd; [done| |done].
    unfold scaled. rewrite (proj2 (Z.leb_le 0 e)) by done. pose proof (pow10_pos k).
    assert (0 < 2 ^ e) by (apply Z.pow_pos_nonneg; lia). nia.
  - pose proof (valid_below_2_53 _ _ _ Hv ltac:(lia)) as Hm.
    destruct (scaled_le k m e (2 ^ 53 - 1) 0) as [H1 H2]; [lia|lia| |].
    { assert (0 < 2 ^ (0 - e)) by (apply Z.pow_pos_nonneg; lia). nia. }
    assert (dabs_le (2 ^ 53 - 1) 0 (decimal_to_double s (scaled k m e) k)) as Hd.
    { apply decimal_to_double_dabs; [done|split; lia|lia|]. lia. }
    exists (decimal_to_double s (scaled k m e) k).
    pose proof (dabs_le_finite _ _ _ Hd). pose proof (dabs_le_valid _ _ _ Hd).
    rewrite stod_print_decimal by done. repeat split; done || lia.
Qed.

(** ** Products of small integers are exact *)

Lemma double_of_Z_pos p :
  Zpos p < 2 ^ 53 →
  ∃ m e, double_of_Z (Zpos p) = S754_finite false m e ∧ bounded prec emax m e = true ∧
    e ≤ 0 ∧ Zpos m = Zpos p * 2 ^ (- e).
Proof.
  intros Hp. unfold double_of_Z, binary_normalize, binary_round. rewrite digits2_log2, Z.add_0_r.
  assert (Z.log2 (Zpos p) < 53) by (apply Z.log2_lt_pow2; lia).
  pose proof (Z.log2_nonneg (Zpos p)).
  set (g := fexp prec emax _). assert (g = Z.log2 (Zpos p) - 52) as Hg
    by (unfold g; rewrite fexp_eq; lia).
  pose proof (shl_align_spec p 0 g) as [H1 H2].
  destruct (shl_align p 0 g) as [mz ez]. simpl in H1, H2. subst ez.
  rewrite Z.min_r in * by lia. rewrite Z.sub_0_l in H1.
  assert (bounded prec emax mz g = true) as Hb.
  { unfold bounded, canonical_mantissa. rewrite digits2_log2, H1, log2_shift by lia.
    rewrite fexp_eq. change (emax - prec) with 971.
    rewrite (proj2 (Z.leb_le g 971)) by lia. rewrite andb_true_r. apply Z.eqb_eq. lia. }
  exists mz, g. split; [|split; [done|split; [lia|done]]].
  pose proof (round_aux_exact false mz g 0 ltac:(lia)) as Hr.
  rewrite Z.mul_1_r, Z.add_0_r in Hr. by apply Hr.
Qed.

Lemma dmul_double_of_Z a b :
  0 ≤ a → 0 ≤ b → a < 2 ^ 53 → b < 2 ^ 53 → a * b < 2 ^ 53 →
  dmul (double_of_Z a) (double_of_Z b) = double_of_Z (a * b).
Proof.
  intros Ha Hb Ha53 Hb53 Hab.
  destruct a as [|a|a]; [by destruct b as [|b|b]; try (destruct (double_of_Z_pos b) as (?&?&->&_))| |lia].
  destruct b as [|b|b]; [by destruct (double_of_Z_pos a) as (?&?&->&_)| |lia].
  destruct (double_of_Z_pos a) as (ma & ea & -> & Hba & Hea & Hma); [done|].
  destruct (double_of_Z_pos b) as (mb & eb & -> & Hbb & Heb & Hmb); [done|].
  destruct (double_of_Z_pos (a * b)) as (m & e & Hm & Hbm & He & Hmm); [lia|].
  change (Zpos a * Zpos b) with (Zpos (a * b)). rewrite Hm. simpl.
  apply bounded_fexp in Hba as Hfa, Hbb as Hfb, Hbm as Hfm.
  rewrite fexp_eq in Hfa, Hfb, Hfm.
  rewrite Hma, log2_shift in Hfa by lia. rewrite Hmb, log2_shift in Hfb by lia.
  rewrite Hmm, log2_shift in Hfm by lia.
  pose proof (Z.log2_mul_below (Zpos a) (Zpos b) ltac:(lia) ltac:(lia)) as Hlog.
  rewrite <-Pos2Z.inj_mul in Hlog.
  replace (Zpos (ma * mb)) with (Zpos m * 2 ^ (e - (ea + eb))).
  - rewrite round_aux_exact; [f_equal; lia|lia|]. by replace (ea + eb + (e - (ea + eb))) with e by lia.
  - rewrite Pos2Z.inj_mul, Hma, Hmb, Hmm, Pos2Z.inj_mul.
    replace (Zpos a * 2 ^ (- ea) * (Zpos b * 2 ^ (- eb)))
      with (Zpos a * Zpos b * (2 ^ (- ea) * 2 ^ (- eb))) by ring.
    rewrite <-Z.mul_assoc, <-!Z.pow_add_r by lia. f_equal. f_equal. lia.
Qed.

(** ** Comparison with a threshold

    The programs test [d + eps < -T] and [d - eps > T] for an integral bound [T]. What
    passes both tests is at most [T + 1] in absolute value. *)

(** The double of an integral threshold: [T * 2^k] is its 53-bit mantissa. *)
Definition threshold (T k : Z) : Prop := 2 ^ 52 ≤ T * 2 ^ k < 2 ^ 53 ∧ 1 ≤ k ≤ 52.
(** Magnitudes above the threshold, as [SFcompare] sees them. *)
Definition above (T k : Z) (s : bool) (d : double) : Prop :=
  match d with
  | S754_finite s' m e => s' = s ∧ (- k < e ∨ (e = - k ∧ T * 2 ^ k < Zpos m))
  | S754_infinity s' => s' = s
  | _ => False
  end.

Lemma round_aux_above T k s m e :
  threshold T k → 0 < m → e ≤ fexp prec emax (Z.log2 m + 1 + e) → e ≤ - 1 →
  (2 * T + 1) * 2 ^ (- e) ≤ 2 * m →
  above T k s (binary_round_aux prec emax s m e loc_Exact).
Proof.
  intros [HT Hk] Hm Hf He Hv.
  assert (0 < 2 ^ (- e)) as Hpe by (apply Z.pow_pos_nonneg; lia).
  assert (T * 2 ^ (- e) < m) as Hlt by nia.
  assert (52 - k - e ≤ Z.log2 m) as Hlog.
  { apply Z.log2_le_pow2; [done|].
    apply (Z.mul_le_mono_pos_r _ _ (2 ^ k)); [apply Z.pow_pos_nonneg; lia|].
    rewrite <-Z.pow_add_r by lia. replace (52 - k - e + k) with (52 + - e) by lia.
    rewrite Z.pow_add_r by lia. assert (0 < 2 ^ k) by (apply Z.pow_pos_nonneg; lia). nia. }
  destruct (round_aux_cases s m e loc_Exact Hm Hf) as (m1 & _ & Hm1 & _ & Hr).
  set (f := fexp prec emax (Z.log2 m + 1 + e)) in *.
  assert (f = Z.log2 m + 1 + e - 53) as Hfe by (unfold f; rewrite fexp_eq; lia).
  assert (f = - k → T * 2 ^ k < m1) as Hk1.
  { intros Hfk. enough (T * 2 ^ k + 1 ≤ m / 2 ^ (f - e)) by lia.
    apply Z.div_le_lower_bound; [apply Z.pow_pos_nonneg; lia|].
    rewrite Hfk. replace (- e) with ((- k - e) + k) in Hv by lia.
    rewrite Z.pow_add_r in Hv by lia.
    assert (0 < 2 ^ (- k - e)) by (apply Z.pow_pos_nonneg; lia).
    assert (2 ^ 1 ≤ 2 ^ k) by (apply Z.pow_le_mono_r; lia). nia. }
  destruct Hr as [[H0 _]|(m2 & e2 & -> & _ & He2 & Hm2)].
  { destruct (decide (f = - k)) as [Hfk|Hfk]; [specialize (Hk1 Hfk); lia|].
    exfalso. enough (1 ≤ m / 2 ^ (f - e)) by lia.
    apply Z.div_le_lower_bound; [apply Z.pow_pos_nonneg; lia|].
    pose proof (Z.log2_spec m Hm) as [Hlo _]. rewrite Z.mul_1_r.
    transitivity (2 ^ Z.log2 m); [apply Z.pow_le_mono_r; lia|done]. }
  destruct (e2 <=? 971); [|done]. split; [done|].
  destruct (decide (e2 = - k)) as [Hek|Hek]; [right|left; lia].
  split; [done|]. assert (f = - k) as Hfk by lia. specialize (Hk1 Hfk).
  rewrite Hek, Hfk, Z.sub_diag, Z.mul_1_r in Hm2. lia.
Qed.

Lemma binary_round_above T k s m e :
  threshold T k → e ≤ - 1 → (2 * T + 1) * 2 ^ (- e) ≤ 2 * Zpos m →
  above T k s (binary_round prec emax s m e).
Proof.
  intros HT He Hv. unfold binary_round. rewrite digits2_log2.
  set (g := fexp prec emax _). pose proof (shl_align_spec m e g) as [H1 H2].
  destruct (shl_align m e g) as [mz ez]. simpl in H1, H2. subst ez. rewrite H1.
  assert (0 < 2 ^ (e - Z.min e g)) by (apply Z.pow_pos_nonneg; lia).
  apply round_aux_above; [done|lia| |lia|].
  - rewrite log2_shift by lia.
    replace (Z.log2 (Z.pos m) + (e - Z.min e g) + 1 + Z.min e g) with (Z.log2 (Z.pos m) + 1 + e) by lia.
    fold g. lia.
  - replace (- Z.min e g) with ((- e) + (e - Z.min e g)) by lia. rewrite Z.pow_add_r by lia. nia.
Qed.

Lemma above_compare T k s d :
  threshold T k → above T k s d →
  (s = false → SFcompare (S754_finite false (Z.to_pos (T * 2 ^ k)) (- k)) d = Some Lt) ∧
  (s = true → SFcompare d (S754_finite true (Z.to_pos (T * 2 ^ k)) (- k)) = Some Lt).
Proof.
  intros [HT _] Hd. assert (Zpos (Z.to_pos (T * 2 ^ k)) = T * 2 ^ k) as Hpos by (apply Z2Pos.id; lia).
  destruct d as [s'|s'| |s' m e]; try done; simpl in Hd.
  { subst s'. by split; intros ->. }
  destruct Hd as [-> Hd]. split; intros ->; simpl; do 2 f_equal.
  - destruct (Z.compare_spec (- k) e) as [Hc|Hc|Hc]; [|done|lia].
    destruct Hd as [Hd|[_ Hd]]; [lia|]. change (Pos.compare_cont Eq) with Pos.compare.
    apply Pos.compare_lt_iff. lia.
  - destruct (Z.compare_spec e (- k)) as [Hc|Hc|Hc]; [|lia|done].
    destruct Hd as [Hd|[_ Hd]]; [lia|]. change (Pos.compare_cont Eq) with Pos.compare.
    apply CompOpp_iff, Pos.compare_gt_iff. lia.
Qed.

(** The comparison tolerance [3e-8] of [constants.h]. *)
Definition eps_m : positive := 4533471823554859.

Lemma threshold_mantissa T k m e :
  threshold T k → 0 < T → valid (S754_finite false m e) = true →
  ~ (e ≤ 0 ∧ Zpos m ≤ (T + 1) * 2 ^ (0 - e)) →
  let ez := Z.min e (-77) in
  (2 * T + 1) * 2 ^ (- ez) ≤ 2 * (Zpos m * 2 ^ (e - ez) - Zpos eps_m * 2 ^ (-77 - ez)).
Proof.
  intros [HT Hk] HT0 Hv Hbig ez.
  assert (0 < 2 ^ (-77 - ez)) as Hp by (apply Z.pow_pos_nonneg; lia).
  assert ((T + 1) * 2 ^ (- ez) ≤ Zpos m * 2 ^ (e - ez)) as Hm.
  { assert (0 < 2 ^ (e - ez)) by (apply Z.pow_pos_nonneg; lia).
    destruct (decide (e ≤ 0)) as [He|He].
    - replace (- ez) with ((0 - e) + (e - ez)) by lia. rewrite Z.pow_add_r by lia.
      assert ((T + 1) * 2 ^ (0 - e) < Zpos m) by lia. nia.
    - apply andb_true_iff in Hv as [Hc _].
      pose proof (canonical_normal _ _ Hc ltac:(lia)) as Hn.
      replace (e - ez) with ((- ez) + e) by lia. rewrite Z.pow_add_r by lia.
      assert (0 < 2 ^ (- ez)) by (apply Z.pow_pos_nonneg; lia).
      assert (2 ^ 1 ≤ 2 ^ e) by (apply Z.pow_le_mono_r; lia).
      assert (2 ^ 1 ≤ 2 ^ k) by (apply Z.pow_le_mono_r; lia).
      assert (T + 1 ≤ 2 ^ 53) as HT53 by nia.
      transitivity (2 ^ 53 * 2 ^ (- ez)); [apply Z.mul_le_mono_nonneg_r; lia|].
      transitivity ((2 ^ 52 * 2 ^ 1) * 2 ^ (- ez)); [done|].
      transitivity ((Zpos m * 2 ^ e) * 2 ^ (- ez)); [|lia].
      apply Z.mul_le_mono_nonneg_r; [lia|]. apply Z.mul_le_mono_nonneg; lia. }
  assert (2 * (Zpos eps_m * 2 ^ (-77 - ez)) ≤ 2 ^ (- ez)) as He.
  { replace (- ez) with ((-77 - ez) + 77) by lia. rewrite Z.pow_add_r by lia.
    unfold eps_m. nia. }
  lia.
Qed.

Lemma within_threshold T k tlo thi eps d :
  threshold T k → 0 < T →
  eps = S754_finite false eps_m (-77) →
  thi = S754_finite false (Z.to_pos (T * 2 ^ k)) (- k) →
  tlo = S754_finite true (Z.to_pos (T * 2 ^ k)) (- k) →
  valid d = true → is_finite d = true →
  dlt (dadd d eps) tlo = false → dgt (dsub d eps) thi = false →
  dabs_le (T + 1) 0 d.
Proof.
  intros HT HT0 -> -> -> Hv Hfin Hlo Hhi. split; [done|].
  destruct d as [s|s| |s m e]; try done.
  destruct (decide (e ≤ 0 ∧ Zpos m ≤ (T + 1) * 2 ^ (0 - e))) as [|Hbig]; [done|]. exfalso.
  pose proof (threshold_mantissa T k m e HT HT0 Hv Hbig) as Hz. cbv zeta in Hz.
  set (ez := Z.min e (-77)) in *.
  pose proof (proj1 (shl_align_spec m e ez)) as Hm. rewrite Z.min_r in Hm by lia.
  pose proof (proj1 (shl_align_spec eps_m (-77) ez)) as He. rewrite Z.min_r in He by lia.
  assert (0 < 2 ^ (- ez)) by (apply Z.pow_pos_nonneg; lia).
  destruct s.
  - unfold dlt, dadd, SFltb in Hlo. cbn [SFadd] in Hlo. fold ez in Hlo.
    cbn [cond_Zopp] in Hlo. rewrite Hm, He in Hlo.
    set (z := Zpos m * 2 ^ (e - ez) - Zpos eps_m * 2 ^ (-77 - ez)) in *.
    replace (- (Zpos m * 2 ^ (e - ez)) + Zpos eps_m * 2 ^ (-77 - ez)) with (- z) in Hlo by lia.
    destruct z as [|z|z]; [lia| |lia]. simpl in Hlo.
    by rewrite (proj2 (above_compare T k true _ HT
      (binary_round_above T k true z ez HT ltac:(lia) ltac:(lia))) eq_refl) in Hlo.
  - unfold dgt, dlt, dsub, SFltb in Hhi. cbn [SFsub] in Hhi. fold ez in Hhi.
    cbn [cond_Zopp] in Hhi. rewrite Hm, He in Hhi.
    set (z := Zpos m * 2 ^ (e - ez) - Zpos eps_m * 2 ^ (-77 - ez)) in *.
    destruct z as [|z|z]; [lia| |lia]. cbn [binary_normalize] in Hhi.
    by rewrite (proj1 (above_compare T k false _ HT
      (binary_round_above T k false z ez HT ltac:(lia) ltac:(lia))) eq_refl) in Hhi.
Qed.

(** Repeated addition of a small positive integer never overflows: at [2^58] the sum
    rounds back. *)
Lemma below_power_58 s m e :
  valid (S754_finite s m e) = true → e ≤ 57 → Zpos m ≤ 2 * 2 ^ (57 - e) →
  S754_finite s m e = S754_finite s (2 ^ 52) 6 ∨ (e ≤ 5 ∧ Zpos m < 2 ^ 53).
Proof.
  intros Hv He Hm. pose proof (bounded_fexp _ _ Hv) as Hf. rewrite fexp_eq in Hf.
  pose proof (Z.log2_spec (Zpos m) ltac:(lia)) as [Hlo Hhi].
  assert (Z.log2 (Zpos m) ≤ 52) as Hl by lia.
  assert (Zpos m < 2 ^ 53) as H53.
  { eapply Z.lt_le_trans; [exact Hhi|]. apply Z.pow_le_mono_r; lia. }
  destruct (decide (e ≤ 5)); [by right|]. left.
  apply andb_true_iff in Hv as [Hc _]. pose proof (canonical_normal _ _ Hc ltac:(lia)) as Hn.
  assert (e = 6) as ->.
  { destruct (decide (7 ≤ e)) as [H7|]; [|lia].
    assert (2 ^ (57 - e) ≤ 2 ^ 50) by (apply Z.pow_le_mono_r; lia). lia. }
  f_equal. change (2 * 2 ^ (57 - 6)) with (2 ^ 52) in Hm. lia.
Qed.

Lemma dadd_sticky n d :
  n = 10 ∨ n = 20 → dabs_le 2 57 d → dabs_le 2 57 (dadd d (double_of_Z n)).
Proof.
  intros Hn Hd. assert (dabs_le 20 0 (double_of_Z n)) as Hdn.
  { apply double_of_Z_dabs; [unfold dbound; lia|lia|lia]. }
  destruct d as [s|s| |s m e]; try by destruct Hd.
  { apply (dabs_le_rescale 20 2 0 57 _) in Hdn; [|lia|lia].
    destruct (double_of_Z n) as [sn| | |]; try (by destruct Hdn).
    by destruct s, sn. }
  destruct Hd as [Hv [He Hm]].
  destruct (below_power_58 s m e Hv He Hm) as [->|[He5 Hm53]].
  - destruct Hn as [-> | ->], s; split; (vm_compute; done).
  - assert (∃ mn en, double_of_Z n = S754_finite false mn en ∧ en ≤ 0 ∧ Zpos mn = n * 2 ^ (- en)) as
      (mn & en & Hdn' & Hen & Hmn).
    { destruct (double_of_Z_pos (Z.to_pos n)) as (mn & en & H1 & _ & H2 & H3);
        rewrite Z2Pos.id in * by lia; [lia|]. eauto. }
    rewrite Hdn'. unfold dadd. cbn [SFadd]. set (ez := Z.min e en).
    pose proof (proj1 (shl_align_spec m e ez)) as H1. rewrite Z.min_r in H1 by lia.
    pose proof (proj1 (shl_align_spec mn en ez)) as H2. rewrite Z.min_r in H2 by lia.
    apply binary_normalize_dabs; [unfold dbound; lia|lia|]. rewrite H1, H2, Hmn.
    assert (0 < 2 ^ (- ez)) as Hp by (apply Z.pow_pos_nonneg; lia).
    assert (n * 2 ^ (- en) * 2 ^ (en - ez) = n * 2 ^ (- ez)) as ->.
    { rewrite <-Z.mul_assoc, <-Z.pow_add_r by lia. do 2 f_equal. lia. }
    assert (2 * 2 ^ (57 - ez) = 2 ^ 58 * 2 ^ (- ez)) as ->.
    { replace (57 - ez) with (57 + - ez) by lia. rewrite Z.pow_add_r by lia. lia. }
    assert (Zpos m * 2 ^ (e - ez) ≤ (2 ^ 58 - 32) * 2 ^ (- ez)) as Hme.
    { transitivity ((2 ^ 53 - 1) * 2 ^ (5 - ez)).
      - apply Z.mul_le_mono_nonneg; [lia|lia|apply Z.pow_nonneg; lia|apply Z.pow_le_mono_r; lia].
      - replace (5 - ez) with (5 + - ez) by lia. rewrite Z.pow_add_r by lia. nia. }
    destruct s; simpl cond_Zopp; rewrite ?H1; nia.
Qed.
