(* ===== verification/Constants.v ===== *)
(** * Constants of the-great-approximator ([constants.h]) *)
From Stdlib Require Import Ascii String.
From S2P Require Import Prelude CString Double.

Module constants.
Definition max_k : Z := 10000.
Definition max_n : Z := 8.
Definition max_m : Z := 12341234.
Definition min_coeff : double := double_of_Z (-100).
Definition max_coeff : double := double_of_Z 100.
Definition eps : double := decimal_to_double false 3 8.
Definition min_put_value : double := double_of_Z (-5).
Definition max_put_value : double := double_of_Z 5.
Definition max_fractional_digits : nat := 7.
Definition early_put_penalty : Z := 20.
Definition bad_put_penalty : Z := 10.
(** Durations in milliseconds; the sources give the first two in seconds. *)
Definition bad_put_delay : Z := 1 * 1000.
Definition hello_wait_time : Z := 3 * 1000.
Definition listening_socket_backlog : Z := 64.
Definition reset_delay : Z := 1000.
Definition client_timeout : Z := 200.
End constants.
