(* ===== verification/DoubleOrder.v ===== *)
(** * The order of doubles, and cutting to an interval

    Comparisons in terms of mantissa and exponent, [std::clamp], and the sums by which the
    client approaches a value in steps of bounded size. *)
From Stdlib Require Import Ascii String SpecFloat.
From S2P Require Import Prelude CString Double Constants.

(** ** Comparison *)
Lemma dlt_finite s m e s' m' e' :
  dlt (S754_finite s m e) (S754_finite s' m' e') = true ↔
  match s, s' with
  | true, false => True
  | false, true => False
  | false, false => e < e' ∨ e = e' ∧ Zpos m < Zpos m'
  | true, true => e' < e ∨ e = e' ∧ Zpos m' < Zpos m
  end.
Proof.
  unfold dlt, SFltb, SFcompare. change (Pos.compare_cont Eq m m') with (Pos.compare m m').
  destruct s, s'; [|done|done|]; destruct (Z.compare_spec e e'), (Pos.compare_spec m m'); subst; simpl; split; intros; try done; lia.
Qed.

Lemma dlt_trans x y z : dlt x y = true → dlt y z = true → dlt x z = true.
Proof.
  destruct x as [[]|[]| |sx mx ex], y as [[]|[]| |sy my ey], z as [[]|[]| |sz mz ez]; try done;
    try (by destruct sx); try (by destruct sy); try (by destruct sz); try (by destruct sx, sz); try (by destruct sx, sy);
    try (by destruct sy, sz).
  rewrite !dlt_finite. destruct sx, sy, sz; try done; lia.
Qed.

Lemma dlt_irrefl x : dlt x x = false.
Proof.
  destruct x as [[]|[]| |s m e]; try done. destruct (dlt _ _) eqn:H; [|done]. apply dlt_finite in H.
  destruct s; lia.
Qed.

(** The doubles between [-T] and [T], for a [T] whose mantissa has exponent [-k]. *)
Section interval.
Context (T k : Z) (HT : threshold T k) (HT0 : 0 < T).
Definition limit (s : bool) : double := S754_finite s (Z.to_pos (T * 2 ^ k)) (- k).

Lemma limit_mantissa : Zpos (Z.to_pos (T * 2 ^ k)) = T * 2 ^ k.
Proof. assert (0 < 2 ^ k) by (apply Z.pow_pos_nonneg; destruct HT; lia). rewrite Z2Pos.id; nia. Qed.

Lemma finite_within s m e :
  valid (S754_finite s m e) = true →
  (e ≤ 0 ∧ Zpos m ≤ T * 2 ^ (0 - e)) ↔ ~ (- k < e ∨ e = - k ∧ T * 2 ^ k < Zpos m).
Proof.
  intros Hv. destruct HT as [HTk Hk]. split.
  - intros [He Hm] [Hlt|[-> Hlt]]; [|by replace (0 - - k) with k in Hm by lia; lia].
    apply andb_true_iff in Hv as [Hc _]. pose proof (canonical_normal _ _ Hc ltac:(lia)) as Hn.
    assert (2 ^ k = 2 ^ (k + e) * 2 ^ (0 - e)) as Hp by (rewrite <-Z.pow_add_r by lia; f_equal; lia).
    assert (2 ^ 1 ≤ 2 ^ (k + e)) by (apply Z.pow_le_mono_r; lia).
    assert (0 < 2 ^ (0 - e)) by (apply Z.pow_pos_nonneg; lia). nia.
  - intros Hn. split; [lia|]. destruct (decide (e = - k)) as [->|Hne].
    { replace (0 - - k) with k by lia. lia. }
    pose proof (valid_below_2_53 s m e Hv ltac:(lia)) as Hm.
    replace (0 - e) with (k + (- k - e)) by lia. rewrite Z.pow_add_r by lia.
    assert (2 ^ 1 ≤ 2 ^ (- k - e)) by (apply Z.pow_le_mono_r; lia). nia.
Qed.

Lemma within_limits d :
  valid d = true → is_finite d = true →
  dabs_le T 0 d ↔ dlt d (limit true) = false ∧ dlt (limit false) d = false.
Proof.
  intros Hv Hf. unfold limit, dabs_le. destruct d as [s|s| |s m e]; try done.
  rewrite <-!not_true_iff_false, !dlt_finite, limit_mantissa, (finite_within s m e Hv). destruct s; intuition lia.
Qed.
End interval.

(** ** Signs of sums *)
Definition is_zero (d : double) : bool := match d with S754_zero _ => true | _ => false end.
Lemma cond_Zopp_Zpos s m : cond_Zopp s (Zpos m) = if s then - Zpos m else Zpos m.
Proof. by destruct s. Qed.
Definition sign_of (d : double) : bool :=
  match d with S754_zero s | S754_infinity s | S754_finite s _ _ => s | S754_nan => false end.

Lemma binary_round_sign s m e : sign_of (binary_round prec emax s m e) = s.
Proof.
  unfold binary_round. rewrite digits2_log2. set (g := fexp prec emax _).
  pose proof (shl_align_spec m e g) as [H1 H2]. destruct (shl_align m e g) as [mz ez]. simpl in H1, H2. subst ez. rewrite H1.
  assert (0 < 2 ^ (e - Z.min e g)) by (apply Z.pow_pos_nonneg; lia).
  destruct (round_aux_cases s (Zpos m * 2 ^ (e - Z.min e g)) (Z.min e g) loc_Exact)
    as (m1 & _ & _ & _ & [[_ ->]|(m2 & e2 & -> & _)]); [lia| |done|by destruct (e2 <=? 971)].
  rewrite log2_shift by lia.
  replace (Z.log2 (Z.pos m) + (e - Z.min e g) + 1 + Z.min e g) with (Z.log2 (Z.pos m) + 1 + e) by lia. fold g. lia.
Qed.
Lemma binary_normalize_sign z e sz : z ≠ 0 → sign_of (binary_normalize prec emax z e sz) = (z <? 0).
Proof. destruct z; [done| |]; intros _; apply binary_round_sign. Qed.

(** A difference [r - a] has the sign opposite to that of [a], unless [a] is not greater than
    the bound of [r]. *)
Lemma dsub_toward j J b r a :
  0 < j → dabs_le j b r → dabs_le J b a →
  dabs_le j b a ∨ is_zero (dsub r a) = true ∨ sign_of (dsub r a) = negb (sign_of a).
Proof.
  intros Hj Hr Ha. destruct a as [sa| | |sa ma ea]; try (by destruct Ha); [by left|].
  destruct r as [sr| | |sr mr er]; try (by destruct Hr); [by right; right|].
  unfold dsub. cbn [SFsub]. set (ez := Z.min er ea).
  pose proof (proj1 (shl_align_spec mr er ez)) as H1. rewrite Z.min_r in H1 by lia.
  pose proof (proj1 (shl_align_spec ma ea ez)) as H2. rewrite Z.min_r in H2 by lia.
  rewrite !cond_Zopp_Zpos, H1, H2.
  set (zr := Zpos mr * 2 ^ (er - ez)) in *. set (za := Zpos ma * 2 ^ (ea - ez)) in *.
  destruct (decide (za ≤ zr)) as [Hle|Hgt].
  - left. destruct Hr as (_ & Her & Hmr), Ha as (Hva & Hea & _). split; [done|]. split; [done|].
    assert (0 < 2 ^ (ea - ez)) as Hp by (apply Z.pow_pos_nonneg; lia).
    assert (2 ^ (b - ez) = 2 ^ (b - ea) * 2 ^ (ea - ez)) as Hb by (by apply pow_split; lia).
    assert (zr ≤ j * 2 ^ (b - ez)) as Hzr.
    { unfold zr. rewrite (pow_split ez er b), Z.mul_assoc by lia.
      apply Z.mul_le_mono_nonneg_r; [apply Z.pow_nonneg; lia|done]. }
    unfold za in Hle. nia.
  - right; right. assert (0 < zr) by (unfold zr; assert (0 < 2 ^ (er - ez)) by (apply Z.pow_pos_nonneg; lia); lia).
    rewrite binary_normalize_sign by (destruct sr, sa; lia). destruct sr, sa; simpl; lia.
Qed.

(** Adding a number of the opposite sign does not go beyond the greater bound. *)
Lemma dadd_opposite J b a v :
  dbound J b → dabs_le J b a → dabs_le J b v → is_zero v = true ∨ sign_of v = negb (sign_of a) → dabs_le J b (dadd a v).
Proof.
  intros Hb Ha Hv Hs. destruct a as [sa| | |sa ma ea]; try (by destruct Ha).
  { destruct v as [sv| | |sv mv ev]; try (by destruct Hv). by destruct sa, sv. }
  destruct v as [sv| | |sv mv ev]; try (by destruct Hv).
  destruct Hs as [Hs|Hs]; [done|]. simpl in Hs. subst sv. destruct Ha as (_ & Hea & Hma), Hv as (_ & Hev & Hmv).
  unfold dadd. cbn [SFadd]. set (ez := Z.min ea ev). apply binary_normalize_dabs; [done|lia|].
  pose proof (align_le ma ea ez J b Hea ltac:(lia) Hma) as H1.
  pose proof (align_le mv ev ez J b Hev ltac:(lia) Hmv) as H2. rewrite !cond_Zopp_Zpos. destruct sa; simpl; lia.
Qed.

(** A difference is a sum with the opposite. *)
Lemma dsub_dadd a v : dsub a v = dadd a (SFopp v).
Proof.
  destruct a as [[]|[]| |sa ma ea], v as [[]|[]| |sv mv ev]; try done.
  unfold dsub, dadd. cbn [SFsub SFadd SFopp]. f_equal. by destruct sv.
Qed.

Lemma dadd_positive m e v :
  is_finite v = true → sign_of v = false → sign_of (dadd (S754_finite false m e) v) = false.
Proof.
  destruct v as [[]| | |[] mv ev]; try done. intros _ _. unfold dadd. cbn [SFadd]. set (ez := Z.min e ev).
  pose proof (proj1 (shl_align_spec m e ez)) as H1. pose proof (proj1 (shl_align_spec mv ev ez)) as H2.
  simpl cond_Zopp. rewrite binary_normalize_sign by lia. lia.
Qed.
Lemma dadd_negative m e v :
  is_finite v = true → sign_of v = true → sign_of (dadd (S754_finite true m e) v) = true.
Proof.
  destruct v as [[]| | |[] mv ev]; try done. intros _ _. unfold dadd. cbn [SFadd]. set (ez := Z.min e ev).
  pose proof (proj1 (shl_align_spec m e ez)) as H1. pose proof (proj1 (shl_align_spec mv ev ez)) as H2.
  simpl cond_Zopp. rewrite binary_normalize_sign by lia. lia.
Qed.
Lemma positive_not_below d T k : sign_of d = false → dlt d (limit T k true) = false.
Proof. by destruct d as [[]|[]| |[] m e]. Qed.
Lemma negative_not_above d T k : sign_of d = true → dlt (limit T k false) d = false.
Proof. by destruct d as [[]|[]| |[] m e]. Qed.

(** A number within the limits stays on the right side of the near limit after a small step
    toward it, as the range tests of the programs make it. *)
Section tolerance.
Context (T k : Z) (HT : threshold T k) (HT0 : 0 < T) (eps : double).
Hypothesis eps_ok : dabs_le T 0 eps.
Hypothesis eps_positive : sign_of eps = false.

Lemma within_dbound : dbound T 0.
Proof. destruct HT as [HTk Hk]. assert (2 ^ 1 ≤ 2 ^ k) by (apply Z.pow_le_mono_r; lia). split; nia. Qed.

Lemma tolerance_below v : dabs_le T 0 v → dlt (dadd v eps) (limit T k true) = false.
Proof.
  intros Hv. pose proof (dabs_le_finite _ _ _ eps_ok) as Hf. destruct v as [s| | |[] m e]; try (by destruct Hv).
  - apply positive_not_below. destruct eps as [[]| | |[] me ee]; try done; by destruct s.
  - assert (dabs_le T 0 (dadd (S754_finite true m e) eps)) as Hd.
    { apply dadd_opposite; [apply within_dbound|done|done|by right]. }
    apply (within_limits T k HT HT0) in Hd as [H _]; [done|by eapply dabs_le_valid|by eapply dabs_le_finite].
  - apply positive_not_below. by apply dadd_positive.
Qed.

Lemma tolerance_above v : dabs_le T 0 v → dlt (limit T k false) (dsub v eps) = false.
Proof.
  intros Hv. pose proof (dabs_le_finite _ _ _ eps_ok) as Hf. rewrite dsub_dadd.
  assert (is_finite (SFopp eps) = true ∧ sign_of (SFopp eps) = true ∧ dabs_le T 0 (SFopp eps)) as (Hof & Hos & Ho).
  { destruct eps as [[]| | |[] me ee]; done. }
  destruct v as [s| | |[] m e]; try (by destruct Hv).
  - destruct (SFopp eps) as [[]| | |[] me ee]; try done; by destruct s.
  - apply negative_not_above. by apply dadd_negative.
  - assert (dabs_le T 0 (dadd (S754_finite false m e) (SFopp eps))) as Hd.
    { apply dadd_opposite; [apply within_dbound|done|done|by right]. }
    apply (within_limits T k HT HT0) in Hd as [_ H]; [done|by eapply dabs_le_valid|by eapply dabs_le_finite].
Qed.
End tolerance.
