(* ===== verification/MsgParser.v ===== *)
(** * The text protocol of the-great-approximator ([msg_parser.h], [msg_parser.cpp])

    A message is a tagged union of the seven subclasses of [Message]; the static
    factory functions return [None] where the code returns a null pointer. *)
From Stdlib Require Import Ascii String SpecFloat.
From S2P Require Import Prelude CString Double Constants.

(** ** Data *)
Inductive MessageType := HELLO | COEFF | PUT | BAD_PUT | STATE | PENALTY | SCORING.
#[global] Instance MessageType_eq_dec : EqDecision MessageType.
Proof. solve_decision. Defined.

(** The fields each subclass adds. *)
Inductive Body :=
  | HelloMessage (player_id : str)
  | CoeffMessage (coeffs : list double)
  | PutMessage (point : Z) (value : double)
  | BadPutMessage (point : Z) (value : double)
  | StateMessage (approx_values : list double)
  | PenaltyMessage (point : Z) (value : double)
  | ScoringMessage (player_ids : list str) (scores : list double).

Record Message := { raw_message : str; params : list str; body : Body }.

Definition getType (m : Message) : MessageType :=
  match body m with
  | HelloMessage _ => HELLO
  | CoeffMessage _ => COEFF
  | PutMessage _ _ => PUT
  | BadPutMessage _ _ => BAD_PUT
  | StateMessage _ => STATE
  | PenaltyMessage _ _ => PENALTY
  | ScoringMessage _ _ => SCORING
  end.

(** The raw message without its CRLF. *)
Definition toRawString (m : Message) : str :=
  take (length (raw_message m) - length crlf) (raw_message m).

(** ** Parsing of parameters *)
Definition isAlphanumeric (s : str) : bool := forallb isalnum s.

Definition isValidIntegerStringFormat (s : str) : bool :=
  match s with
  | [] => false
  | c :: s' =>
      if bool_decide (c = minus) then
        if (length s =? 1)%nat then false else forallb isdigit s'
      else forallb isdigit s
  end.

Definition parseInteger (s : str) : option Z :=
  if isValidIntegerStringFormat s then
    match stoll s with
    | Some (temp_val, processed_chars) =>
        if negb (processed_chars =? length s)%nat then None
        else if (temp_val <? - 2 ^ 31) || (2 ^ 31 - 1 <? temp_val) then None
        else Some temp_val
    | None => None
    end
  else None.

(** The index [i] of the code is kept as the part of the string it points to. *)
Definition isValidDoubleStringFormat (s : str) : bool :=
  match s with
  | [] => false
  | c :: s' =>
      if bool_decide (c = minus) && (length s =? 1)%nat then false
      else
        let s1 := if bool_decide (c = minus) then s' else s in
        let '(leading, s2) := span isdigit s1 in
        let s3 := match s2 with d :: r => if bool_decide (d = dot) then r else s2 | [] => s2 end in
        let '(fractional, s4) := span isdigit s3 in
        if (constants.max_fractional_digits <? length fractional)%nat then false
        else if bool_decide (leading = []) && bool_decide (fractional = []) then false
        else bool_decide (s4 = [])
  end.

Definition parseDouble (s : str) : option double :=
  if isValidDoubleStringFormat s then
    match stod s with
    | Some (d, processed_chars) => if (processed_chars =? length s)%nat then Some d else None
    | None => None
    end
  else None.

Definition extractCommandAndParams (line : str) : option (str * str) :=
  if bool_decide (line = []) then None
  else
    match find_char space line with
    | None => Some (line, [])
    | Some O => None
    | Some space_pos =>
        if (space_pos + 1 =? length line)%nat then None
        else Some (take space_pos line, drop (space_pos + 1) line)
    end.

(** [std::regex_match(params, "([a-zA-Z0-9\-\.]+ )*[a-zA-Z0-9\-\.]+")], as the
    two-state automaton of the expression; [params_regex] below is the expression
    itself, and [params_regex_match_spec] their equivalence. *)
Definition param_char (c : ascii) : bool :=
  isalnum c || bool_decide (c = minus) || bool_decide (c = dot).
Fixpoint params_automaton (in_word : bool) (s : str) : bool :=
  match s with
  | [] => in_word
  | c :: s' =>
      if param_char c then params_automaton true s'
      else bool_decide (c = space) && in_word && params_automaton false s'
  end.
Definition params_regex_match (s : str) : bool := params_automaton false s.

(** [while (iss >> param)]: blank-separated words. *)
Fixpoint stream_words (fuel : nat) (s : str) : list str :=
  match fuel with
  | O => []
  | S n =>
      let '(_, s1) := span isspace s in
      let '(w, s2) := span (λ c, negb (isspace c)) s1 in
      match w with [] => [] | _ => w :: stream_words n s2 end
  end.

Definition splitParams (ps : str) : option (list str) :=
  if bool_decide (ps = []) then Some []
  else if negb (params_regex_match ps) then None
  else Some (stream_words (length ps) ps).

Definition validateIntDoublePair (vec : list str) : option (Z * double) :=
  match vec with
  | [s0; s1] =>
      match parseInteger s0, parseDouble s1 with
      | Some p, Some v => Some (p, v)
      | _, _ => None
      end
  | _ => None
  end.

Definition doubleToString (val : double) : str :=
  print_fixed constants.max_fractional_digits val.

(** ** [parseMessage] of each subclass, on the parameters *)
Definition HelloMessage_parseMessage (ps : list str) : option Body :=
  match ps with
  | [p] => if isAlphanumeric p then Some (HelloMessage p) else None
  | _ => None
  end.

Definition coeff_in_range (c : double) : bool :=
  negb (dlt (dadd c constants.eps) constants.min_coeff
        || dgt (dsub c constants.eps) constants.max_coeff).
Definition CoeffMessage_parseMessage (ps : list str) : option Body :=
  if (Z.of_nat (length ps) <? 1) || (constants.max_n + 1 <? Z.of_nat (length ps)) then None
  else
    CoeffMessage <$> mapM (λ p, c ← parseDouble p; if coeff_in_range c then Some c else None) ps.

Definition StateMessage_parseMessage (ps : list str) : option Body :=
  if (Z.of_nat (length ps) <? 1) || (constants.max_k + 1 <? Z.of_nat (length ps)) then None
  else StateMessage <$> mapM parseDouble ps.

Definition pair_parseMessage (k : Z → double → Body) (ps : list str) : option Body :=
  '(p, v) ← validateIntDoublePair ps; Some (k p v).
Definition PutMessage_parseMessage := pair_parseMessage PutMessage.
Definition BadPutMessage_parseMessage := pair_parseMessage BadPutMessage.
Definition PenaltyMessage_parseMessage := pair_parseMessage PenaltyMessage.

(** Pairs of a player and a score; an odd number of parameters is refused. *)
Fixpoint scoring_pairs (ps : list str) : option (list (str * double)) :=
  match ps with
  | [] => Some []
  | [_] => None
  | p :: s :: ps' =>
      if isAlphanumeric p then
        d ← parseDouble s; rest ← scoring_pairs ps'; Some ((p, d) :: rest)
      else None
  end.
Definition ScoringMessage_parseMessage (ps : list str) : option Body :=
  l ← scoring_pairs ps; Some (ScoringMessage (map fst l) (map snd l)).

(** The chain of comparisons of [Message::createMessage] and the virtual call. *)
Definition parse_command (command : str) : option (list str → option Body) :=
  if bool_decide (command = lit "HELLO") then Some HelloMessage_parseMessage
  else if bool_decide (command = lit "COEFF") then Some CoeffMessage_parseMessage
  else if bool_decide (command = lit "PUT") then Some PutMessage_parseMessage
  else if bool_decide (command = lit "BAD_PUT") then Some BadPutMessage_parseMessage
  else if bool_decide (command = lit "STATE") then Some StateMessage_parseMessage
  else if bool_decide (command = lit "PENALTY") then Some PenaltyMessage_parseMessage
  else if bool_decide (command = lit "SCORING") then Some ScoringMessage_parseMessage
  else None.

Definition createMessage (line : str) : option Message :=
  if (length line <? 2)%nat || negb (bool_decide (drop (length line - 2) line = crlf)) then None
  else
    '(command, ps) ← extractCommandAndParams (take (length line - 2) line);
    params ← splitParams ps;
    parseMessage ← parse_command command;
    b ← parseMessage params;
    Some {| raw_message := line; params := params; body := b |}.

Definition createMessageWithCRLF (line : str) : option Message := createMessage (line ++ crlf).

(** ** Factory functions of the subclasses *)
Definition HelloMessage_createMessage (player_id : str) : option Message :=
  createMessageWithCRLF (lit "HELLO " ++ player_id).

(** The numbers separated by spaces: each is appended with a space, the last space popped. *)
Definition spaced_doubles (l : list double) : str :=
  removelast (fold_left (λ acc d, acc ++ doubleToString d ++ [space]) l []).

Definition CoeffMessage_createMessage (coeffs : list double) : option Message :=
  if bool_decide (coeffs = []) then None
  else createMessageWithCRLF (lit "COEFF " ++ spaced_doubles coeffs).

Definition pair_message (command : str) (point : Z) (value : double) : option Message :=
  createMessageWithCRLF (command ++ to_string point ++ [space] ++ doubleToString value).
Definition PutMessage_createMessage := pair_message (lit "PUT ").
Definition BadPutMessage_createMessage := pair_message (lit "BAD_PUT ").
Definition PenaltyMessage_createMessage := pair_message (lit "PENALTY ").

Definition StateMessage_createMessage (approx_values : list double) : option Message :=
  if bool_decide (approx_values = []) then None
  else createMessageWithCRLF (lit "STATE " ++ spaced_doubles approx_values).

(** [operator<] of [std::pair<std::string, double>]. *)
Definition player_score_lt (x y : str * double) : bool :=
  str_lt (fst x) (fst y) || (negb (str_lt (fst y) (fst x)) && dlt (snd x) (snd y)).

Definition ScoringMessage_createMessage (player_ids : list str) (scores : list double) :
    option Message :=
  if negb (length player_ids =? length scores)%nat then None
  else
    let player_scores := ordered_sort player_score_lt (combine player_ids scores) in
    let msg_str :=
      fold_left (λ acc p, acc ++ fst p ++ [space] ++ doubleToString (snd p) ++ [space])
        player_scores (lit "SCORING ") in
    createMessageWithCRLF (removelast msg_str).

(** ** The regular expression of [splitParams] *)
Inductive regex :=
  | RChar (p : ascii → bool)
  | RSeq (a b : regex)
  | RStar (a : regex).
Inductive matches : regex → str → Prop :=
  | match_char p c : p c = true → matches (RChar p) [c]
  | match_seq a b s t : matches a s → matches b t → matches (RSeq a b) (s ++ t)
  | match_star_nil a : matches (RStar a) []
  | match_star_app a s t : matches a s → matches (RStar a) t → matches (RStar a) (s ++ t).
Definition RPlus (a : regex) : regex := RSeq a (RStar a).
(** [([a-zA-Z0-9\-\.]+ )*[a-zA-Z0-9\-\.]+] *)
Definition params_regex : regex :=
  RSeq (RStar (RSeq (RPlus (RChar param_char)) (RChar (λ c, bool_decide (c = space)))))
       (RPlus (RChar param_char)).

(** Words, and the words of a line joined by single spaces. *)
Definition word (w : str) : Prop := w ≠ [] ∧ forallb param_char w = true.
Fixpoint join (ws : list str) : str :=
  match ws with
  | [] => []
  | [w] => w
  | w :: ws' => w ++ space :: join ws'
  end.

Lemma join_cons w ws : ws ≠ [] → join (w :: ws) = w ++ space :: join ws.
Proof. by destruct ws. Qed.

Lemma join_cons_head c w ws : join ((c :: w) :: ws) = c :: join (w :: ws).
Proof. by destruct ws. Qed.

Lemma params_automaton_words b s :
  params_automaton b s = true ↔
  ∃ w ws, s = join (w :: ws) ∧ forallb param_char w = true ∧ (b = true ∨ w ≠ []) ∧ Forall word ws.
Proof.
  split.
  - revert b. induction s as [|c s IH]; intros b; cbn [params_automaton].
    { intros ->. exists [], []. by auto. }
    destruct (param_char c) eqn:Hc.
    + intros (w & ws & -> & Hw & _ & Hws)%IH. exists (c :: w), ws.
      rewrite join_cons_head. simpl. rewrite Hc. by auto.
    + intros [[->%bool_decide_eq_true ->]%andb_true_iff Hs]%andb_true_iff.
      apply IH in Hs as (w & ws & -> & Hw & [|Hne] & Hws); [done|].
      exists [], (w :: ws). split; [done|]. split; [done|]. split; [by left|].
      by constructor.
  - intros (w & ws & -> & Hw & Hb & Hws). revert b w Hw Hb.
    induction Hws as [|w' ws [Hne' Hw'] Hws IH]; intros b w; revert b;
      (induction w as [|c w IHw]; intros b Hw Hb; [destruct Hb as [->|]; [|done]|]).
    + done.
    + simpl in *. apply andb_true_iff in Hw as [-> Hw]. apply IHw; auto.
    + rewrite join_cons by done. cbn [app params_automaton].
      change (param_char space) with false.
      rewrite bool_decide_eq_true_2 by done. by apply IH; auto.
    + rewrite join_cons_head. cbn [params_automaton].
      simpl in Hw. apply andb_true_iff in Hw as [-> Hw]. apply IHw; auto.
Qed.

Lemma params_match_words s :
  params_regex_match s = true ↔ ∃ ws, ws ≠ [] ∧ Forall word ws ∧ s = join ws.
Proof.
  unfold params_regex_match. rewrite params_automaton_words. split.
  - intros (w & ws & -> & Hw & [|Hne] & Hws); [done|]. exists (w :: ws). by repeat constructor.
  - intros ([|w ws] & Hne & Hws & ->); [done|]. apply Forall_cons in Hws as [[Hw1 Hw2] Hws].
    exists w, ws. by auto.
Qed.

Lemma matches_star_chars p s : matches (RStar (RChar p)) s ↔ forallb p s = true.
Proof.
  split.
  - remember (RStar (RChar p)) as r eqn:Hr. intros H. revert Hr.
    induction H as [| |a|a s t H1 _ _ IH]; try done. intros [= ->].
    inversion H1; subst. simpl. rewrite IH by done. by rewrite andb_true_r.
  - induction s as [|c s IH]; simpl; [constructor|].
    intros [Hc Hs]%andb_true_iff. apply (match_star_app _ [c]); [by constructor|auto].
Qed.

Lemma matches_plus_chars p s : matches (RPlus (RChar p)) s ↔ s ≠ [] ∧ forallb p s = true.
Proof.
  split.
  - inversion 1 as [|a b s1 s2 H1 H2| |]; subst. inversion H1; subst.
    apply matches_star_chars in H2. split; [done|]. simpl. by rewrite H2, andb_true_r.
  - intros [Hne Hs]. destruct s as [|c s]; [done|]. simpl in Hs.
    apply andb_true_iff in Hs as [Hc Hs].
    apply (match_seq _ _ [c]); [by constructor|by apply matches_star_chars].
Qed.

Lemma matches_params_words s :
  matches params_regex s ↔ ∃ ws, ws ≠ [] ∧ Forall word ws ∧ s = join ws.
Proof.
  unfold params_regex. split.
  - intros H. inversion H as [|a b s1 s2 H1 H2| |]; subst. clear H.
    apply matches_plus_chars in H2. remember (RStar _) as r eqn:Hr. revert Hr.
    induction H1 as [| |a|a s t Hs _ _ IH]; try done; intros [= ->].
    + exists [s2]. repeat constructor; by try apply H2.
    + destruct (IH eq_refl) as (ws & Hne & Hws & Heq).
      inversion Hs as [|a b u v Hu Hv| |]; subst. apply matches_plus_chars in Hu.
      inversion Hv as [p c Hc| | |]; subst. apply bool_decide_eq_true in Hc as ->.
      exists (u :: ws). split; [done|]. split; [by constructor|].
      rewrite join_cons by done. rewrite <-Heq, <-!(assoc app). done.
  - intros (ws & Hne & Hws & ->). induction Hws as [|w ws Hw Hws IH]; [done|].
    destruct (decide (ws = [])) as [->|Hws0].
    + apply (match_seq _ _ []); [constructor|]. by apply matches_plus_chars.
    + specialize (IH Hws0). rewrite join_cons by done. remember (join ws) as j eqn:Hj.
      inversion IH as [|a b s1 s2 H1 H2| |]; subst a b.
      replace (w ++ space :: s1 ++ s2) with (((w ++ [space]) ++ s1) ++ s2)
        by (rewrite <-!(assoc app); done).
      constructor; [|done]. constructor; [|done]. constructor; [by apply matches_plus_chars|].
      constructor. by rewrite bool_decide_eq_true.
Qed.

(** The automaton decides the expression of the source. *)
Lemma params_regex_match_spec s : params_regex_match s = true ↔ matches params_regex s.
Proof. by rewrite params_match_words, matches_params_words. Qed.

(** ** Splitting *)

Lemma param_char_not_space c : param_char c = true → isspace c = false.
Proof.
  unfold param_char. rewrite !orb_true_iff, !bool_decide_eq_true.
  intros [[Hc| ->]| ->]; [|done|done].
  unfold isalnum, isdigit, isupper, islower, isspace in *. lia.
Qed.

Lemma word_not_space w : word w → forallb (λ c, negb (isspace c)) w = true.
Proof.
  intros [_ Hw]. induction w as [|c w IH]; [done|]. simpl in *.
  apply andb_true_iff in Hw as [Hc Hw]. by rewrite param_char_not_space, IH.
Qed.

Lemma word_head w c w' : word w → w = c :: w' → isspace c = false.
Proof. intros [_ Hw] ->. simpl in Hw. apply andb_true_iff in Hw as [? _]. by apply param_char_not_space. Qed.

Lemma stream_words_join fuel ws :
  (length ws ≤ fuel)%nat → Forall word ws →
  stream_words fuel (join ws) = ws ∧ (ws ≠ [] → stream_words fuel (space :: join ws) = ws).
Proof.
  intros Hf Hws. revert fuel Hf. induction Hws as [|w ws Hw Hws IH]; intros fuel Hf.
  { by destruct fuel. }
  destruct fuel as [|fuel]; [simpl in Hf; lia|]. simpl in Hf.
  destruct w as [|c w'] eqn:Hwe; [by destruct Hw|]. rewrite <-Hwe in *.
  pose proof (word_head _ _ _ Hw Hwe) as Hc. pose proof (word_not_space _ Hw) as Hsp.
  assert (stream_words (S fuel) (join (w :: ws)) = w :: ws) as H1.
  { destruct (decide (ws = [])) as [->|Hne].
    - cbn [stream_words join]. rewrite Hwe at 1. cbn [span]. rewrite Hc, <-Hwe.
      rewrite span_all by done. rewrite Hwe at 1. by destruct fuel.
    - rewrite join_cons by done. cbn [stream_words]. rewrite Hwe at 1. cbn [span app].
      rewrite Hc. change (c :: w' ++ space :: join ws) with ((c :: w') ++ space :: join ws).
      rewrite <-Hwe, span_stop by done. rewrite Hwe at 1.
      f_equal. apply (IH fuel); [lia|done]. }
  split; [done|]. intros _. etransitivity; [|exact H1].
  cbn [stream_words span]. change (isspace space) with true. cbv iota.
  by destruct (span isspace (join (w :: ws))).
Qed.

Lemma length_join ws : Forall word ws → (length ws ≤ length (join ws))%nat.
Proof.
  induction 1 as [|w ws [Hw _] Hws IH]; [done|].
  destruct w as [|c w]; [done|]. destruct (decide (ws = [])) as [->|Hne]; [simpl; lia|].
  rewrite join_cons by done. rewrite length_app. simpl. lia.
Qed.

Lemma splitParams_join ws : Forall word ws → splitParams (join ws) = Some ws.
Proof.
  intros Hws. unfold splitParams. destruct ws as [|w ws]; [done|].
  pose proof (length_join _ Hws) as Hl. rewrite bool_decide_eq_false_2 by (intros Hj; rewrite Hj in Hl; simpl in Hl; lia).
  rewrite (proj2 (params_match_words _)) by (by exists (w :: ws)). simpl negb. cbv iota.
  f_equal. by apply stream_words_join.
Qed.

Lemma splitParams_words s ws : splitParams s = Some ws ↔ Forall word ws ∧ s = join ws.
Proof.
  split; [|intros [? ->]; by apply splitParams_join].
  unfold splitParams. case_bool_decide as Hs; [intros [= <-]; by rewrite Hs|].
  destruct (params_regex_match s) eqn:Hm; [|done]. apply params_match_words in Hm as (ws' & _ & Hws & ->).
  simpl. intros [= <-]. rewrite (proj1 (stream_words_join _ _ (length_join _ Hws) Hws)). done.
Qed.

(** ** Numbers *)

Lemma int_format_spec s :
  isValidIntegerStringFormat s = true ↔
  ∃ neg ds, ds ≠ [] ∧ forallb isdigit ds = true ∧ s = (if neg : bool then [minus] else []) ++ ds.
Proof.
  unfold isValidIntegerStringFormat. split.
  - destruct s as [|c s]; [done|]. case_bool_decide as Hc.
    + subst c. destruct s as [|d s]; [done|]. intros Hd. by exists true, (d :: s).
    + intros Hd. by exists false, (c :: s).
  - intros (neg & ds & Hne & Hds & ->). destruct neg; simpl.
    + by destruct ds.
    + destruct ds as [|d ds]; [done|]. rewrite bool_decide_eq_false_2; [done|].
      intros ->. by apply not_digit_head with (t := minus) in Hds.
Qed.

Lemma int_range_check z :
  (if (z <? - 2 ^ 31) || (2 ^ 31 - 1 <? z) then None else Some z) =
  (if in_sb 32 z then Some z else None).
Proof.
  unfold in_sb. change (32 - 1) with 31.
  destruct (Z.ltb_spec z (- 2 ^ 31)), (Z.ltb_spec (2 ^ 31 - 1) z),
    (Z.leb_spec (- 2 ^ 31) z), (Z.ltb_spec z (2 ^ 31)); simpl; done || lia.
Qed.

Lemma in_sb_32_64 z : in_sb 64 z = false → in_sb 32 z = false.
Proof. rewrite <-!not_true_iff_false, !in_sb_spec. unfold in_s. simpl. lia. Qed.

(** What [parseInteger] computes on a string of the right form. *)
Lemma parseInteger_text (neg : bool) ds :
  ds ≠ [] → forallb isdigit ds = true →
  parseInteger ((if neg then [minus] else []) ++ ds) =
    let z := if neg then - dec_value ds else dec_value ds in
    if in_sb 32 z then Some z else None.
Proof.
  intros Hne Hds. unfold parseInteger.
  rewrite (proj2 (int_format_spec _)) by (by exists neg, ds). unfold stoll.
  assert (scan_integer ((if neg then [minus] else []) ++ ds) =
    Some (neg, dec_value ds, length ((if neg then [minus] else []) ++ ds))) as ->.
  { destruct neg; [by apply scan_minus_digits|by apply scan_digits]. }
  cbv beta iota zeta. set (z := if neg then _ else _).
  destruct (in_sb 64 z) eqn:H64.
  - rewrite Nat.eqb_refl. apply int_range_check.
  - by rewrite in_sb_32_64.
Qed.

Lemma to_string_text z :
  ∃ neg ds, ds ≠ [] ∧ forallb isdigit ds = true ∧
    to_string z = (if neg : bool then [minus] else []) ++ ds ∧
    z = if neg then - dec_value ds else dec_value ds.
Proof.
  unfold to_string. destruct (Z.ltb_spec z 0).
  - exists true, (nat_str (- z)). rewrite nat_str_value by lia.
    repeat split; [apply nat_str_nonempty|apply nat_str_digits|lia].
  - exists false, (nat_str z). rewrite nat_str_value by lia.
    repeat split; [apply nat_str_nonempty|apply nat_str_digits].
Qed.

Lemma parseInteger_to_string z : in_s 32 z → parseInteger (to_string z) = Some z.
Proof.
  intros Hz. destruct (to_string_text z) as (neg & ds & Hne & Hds & -> & Hv).
  rewrite parseInteger_text, <-Hv by done. simpl. by rewrite (proj2 (in_sb_spec 32 z) Hz).
Qed.

(** The decimals that [isValidDoubleStringFormat] accepts. *)
Definition decimal_ok (ds : str) (frac : option str) : Prop :=
  forallb isdigit ds = true ∧ forallb isdigit (default [] frac) = true ∧
  (length (default [] frac) ≤ 7)%nat ∧ decimal_digits ds frac ≠ [].

Lemma double_format_complete neg ds frac :
  decimal_ok ds frac → isValidDoubleStringFormat (decimal_text neg ds frac) = true.
Proof.
  intros (Hds & Hfs & Hlen & Hne). unfold isValidDoubleStringFormat, decimal_text.
  set (t := match frac with Some fs => dot :: fs | None => [] end).
  assert (ds ++ t ≠ []) as Hdt.
  { unfold decimal_digits in Hne. unfold t. destruct ds, frac; simpl in *; done. }
  assert (span isdigit (ds ++ t) = (ds, t)) as Hsp by (by apply span_decimal).
  assert (∀ body : str, body = ds ++ t →
    (let '(leading, s2) := span isdigit body in
     let s3 := match s2 with d :: r => if bool_decide (d = dot) then r else s2 | [] => s2 end in
     let '(fractional, s4) := span isdigit s3 in
     if (constants.max_fractional_digits <? length fractional)%nat then false
     else if bool_decide (leading = []) && bool_decide (fractional = []) then false
     else bool_decide (s4 = [])) = true) as Hbody.
  { intros body ->. rewrite Hsp. unfold t, decimal_digits in *.
    destruct frac as [fs|]; simpl default in *.
    - rewrite bool_decide_eq_true_2 by done. rewrite span_all by done.
      rewrite (proj2 (Nat.ltb_ge _ _)) by done.
      destruct (bool_decide (ds = []) && _) eqn:Hb; [|by rewrite bool_decide_eq_true].
      apply andb_true_iff in Hb as [->%bool_decide_eq_true ->%bool_decide_eq_true]. done.
    - simpl. rewrite app_nil_r in Hne. by rewrite bool_decide_eq_false_2. }
  destruct neg; cbn [app].
  - rewrite bool_decide_eq_true_2 by done. rewrite andb_true_l.
    destruct (ds ++ t) eqn:Hd; [done|]. by apply Hbody.
  - destruct (ds ++ t) as [|c r] eqn:Hd; [done|]. rewrite bool_decide_eq_false_2; [by apply Hbody|].
    intros ->. destruct ds as [|d ds]; simpl in Hd.
    + unfold t in Hd. by destruct frac.
    + injection Hd as -> _. by apply not_digit_head with (t := minus) in Hds.
Qed.

Lemma double_body_sound body :
  (let '(leading, s2) := span isdigit body in
   let s3 := match s2 with d :: r => if bool_decide (d = dot) then r else s2 | [] => s2 end in
   let '(fractional, s4) := span isdigit s3 in
   if (constants.max_fractional_digits <? length fractional)%nat then false
   else if bool_decide (leading = []) && bool_decide (fractional = []) then false
   else bool_decide (s4 = [])) = true →
  ∃ ds frac, decimal_ok ds frac ∧
    body = ds ++ match frac with Some fs => dot :: fs | None => [] end.
Proof.
  pose proof (span_app isdigit body) as Hb. pose proof (span_forall isdigit body) as Hd.
  pose proof (span_rest isdigit body) as Hr.
  destruct (span isdigit body) as [ds s2]. simpl in Hb, Hd, Hr. subst body.
  destruct s2 as [|c r]; simpl.
  { case_bool_decide as Hds; [done|]. intros _. exists ds, None.
    repeat split; simpl; try done; [lia|]. by unfold decimal_digits; rewrite app_nil_r. }
  case_bool_decide as Hc.
  - subst c. pose proof (span_app isdigit r) as Hb'. pose proof (span_forall isdigit r) as Hd'.
    destruct (span isdigit r) as [fs s4]. simpl in Hb', Hd'. subst r.
    destruct (Nat.ltb_spec constants.max_fractional_digits (length fs)) as [|Hl]; [done|].
    destruct (bool_decide (ds = []) && _) eqn:Hne; [done|].
    intros ->%bool_decide_eq_true. exists ds, (Some fs). rewrite app_nil_r.
    repeat split; simpl; try done. unfold decimal_digits. simpl. intros [-> ->]%app_nil.
    by rewrite !bool_decide_eq_true_2 in Hne.
  - cbn [span]. rewrite Hr. simpl. by case_bool_decide.
Qed.

Lemma double_format_sound s :
  isValidDoubleStringFormat s = true → ∃ neg ds frac, decimal_ok ds frac ∧ s = decimal_text neg ds frac.
Proof.
  unfold isValidDoubleStringFormat. destruct s as [|c s']; [done|].
  destruct (bool_decide (c = minus) && _); [done|]. case_bool_decide as Hc; intros H;
    apply double_body_sound in H as (ds & frac & Hok & Hs); [exists true|exists false];
    exists ds, frac; (split; [done|]); rewrite Hs; by subst.
Qed.

(** What [parseDouble] computes: exactly the correctly rounded value of the accepted
    decimals, unless it overflows. *)
Lemma parseDouble_text neg ds frac :
  decimal_ok ds frac →
  parseDouble (decimal_text neg ds frac) =
    let d := decimal_to_double neg (dec_value (decimal_digits ds frac)) (length (default [] frac)) in
    if is_finite d then Some d else None.
Proof.
  intros Hok. unfold parseDouble. rewrite double_format_complete by done.
  destruct Hok as (Hds & Hfs & _ & Hne). rewrite stod_decimal by done. cbv zeta.
  destruct (is_finite _); [|done]. by rewrite Nat.eqb_refl.
Qed.

Lemma digits_value_nonneg s : forallb isdigit s = true → 0 ≤ dec_value s.
Proof.
  induction s as [|c s IH] using rev_ind; [done|].
  rewrite forallb_app, dec_value_snoc. intros [Hs Hc]%andb_true_iff.
  simpl in Hc. unfold isdigit in Hc. specialize (IH Hs). lia.
Qed.

Lemma parseDouble_valid s d : parseDouble s = Some d → valid d = true ∧ is_finite d = true.
Proof.
  intros H. assert (isValidDoubleStringFormat s = true) as Hf
    by (unfold parseDouble in H; by destruct (isValidDoubleStringFormat s)).
  apply double_format_sound in Hf as (neg & ds & frac & Hok & ->).
  rewrite parseDouble_text in H by done. cbv zeta in H.
  destruct (is_finite _) eqn:Hfin in H; [|done]. injection H as <-.
  destruct Hok as (Hds & Hfs & Hlen & _). split; [|done].
  apply decimal_to_double_valid; [lia|]. apply digits_value_nonneg. unfold decimal_digits.
  by rewrite forallb_app, Hds, Hfs.
Qed.

(** Numbers print as words. *)
Lemma digits_word_chars s : forallb isdigit s = true → forallb param_char s = true.
Proof.
  induction s as [|c s IH]; [done|]. simpl. intros [Hc Hs]%andb_true_iff.
  rewrite IH by done. unfold param_char at 1. by rewrite isdigit_isalnum.
Qed.

Lemma decimal_text_chars neg ds frac :
  forallb isdigit ds = true → forallb isdigit (default [] frac) = true →
  forallb param_char (decimal_text neg ds frac) = true.
Proof.
  intros Hds Hfs. unfold decimal_text. rewrite !forallb_app.
  rewrite (digits_word_chars ds) by done.
  assert (forallb param_char (if neg then [minus] else []) = true) as -> by (by destruct neg).
  destruct frac as [fs|]; [|done]. simpl in *. by apply digits_word_chars.
Qed.

Definition printable (d : double) : Prop := valid d = true ∧ is_finite d = true.

Lemma print_decimal_word k neg n : word (print_decimal k neg n).
Proof.
  rewrite print_decimal_text. split.
  - unfold decimal_text. intros [_ [? _]%app_nil]%app_nil. by apply (nat_str_nonempty (n / 10 ^ Z.of_nat k)).
  - apply decimal_text_chars; [apply nat_str_digits|apply fixed_digits_digits].
Qed.

Lemma doubleToString_word d : is_finite d = true → word (doubleToString d).
Proof. by destruct d; try done; intros _; apply print_decimal_word. Qed.

Lemma to_string_word z : word (to_string z).
Proof.
  destruct (to_string_text z) as (neg & ds & Hne & Hds & -> & _). split.
  - destruct neg; [done|]. exact Hne.
  - rewrite forallb_app, (digits_word_chars ds) by done. by destruct neg.
Qed.

(** The decimal that [doubleToString] prints passes the format test: 7 fractional digits. *)
Lemma doubleToString_text d :
  is_finite d = true → ∃ neg ds fs, decimal_ok ds (Some fs) ∧ doubleToString d = decimal_text neg ds (Some fs).
Proof.
  assert (∀ neg n, ∃ neg' ds fs, decimal_ok ds (Some fs) ∧
    print_decimal constants.max_fractional_digits neg n = decimal_text neg' ds (Some fs)) as H.
  { intros neg n. rewrite print_decimal_text. eexists neg, _, _. split; [|done].
    repeat split; [apply nat_str_digits|apply fixed_digits_digits| |].
    - apply Nat.eq_le_incl, length_fixed_digits.
    - unfold decimal_digits. intros [Hnil _]%app_nil. by apply nat_str_nonempty in Hnil. }
  destruct d; try done; intros _; apply H.
Qed.

Lemma parseDouble_doubleToString d :
  printable d →
  ∃ d', parseDouble (doubleToString d) = Some d' ∧ printable d' ∧
    match d with S754_finite _ _ e => 0 ≤ e → d' = d | _ => d' = d end.
Proof.
  intros [Hv Hf]. destruct (stod_print_fixed constants.max_fractional_digits d) as (d' & Hs & Hv' & Hf' & He);
    [unfold constants.max_fractional_digits; lia|done|done|].
  exists d'. split; [|by split]. unfold parseDouble, doubleToString.
  destruct (doubleToString_text d Hf) as (neg & ds & fs & Hok & Heq).
  unfold doubleToString in Heq. rewrite Heq at 1. rewrite double_format_complete by done.
  by rewrite Hs, Nat.eqb_refl.
Qed.

(** ** Messages made of a command and words *)

Lemma find_char_first c s t :
  forallb (λ d, negb (bool_decide (d = c))) s = true → find_char c (s ++ c :: t) = Some (length s).
Proof.
  unfold find_char. induction s as [|d s IH]; intros H; cbn [find_str is_prefix app].
  - by rewrite bool_decide_eq_true_2.
  - simpl in H. apply andb_true_iff in H as [Hd Hs].
    apply negb_true_iff, bool_decide_eq_false in Hd.
    rewrite bool_decide_eq_false_2 by congruence. simpl. by rewrite IH.
Qed.

Definition command_chars (cmd : str) : Prop :=
  cmd ≠ [] ∧ forallb (λ d, negb (bool_decide (d = space))) cmd = true.

Lemma extractCommandAndParams_join cmd ps :
  command_chars cmd → ps ≠ [] →
  extractCommandAndParams (cmd ++ space :: ps) = Some (cmd, ps).
Proof.
  intros [Hne Hc] Hps. unfold extractCommandAndParams.
  rewrite bool_decide_eq_false_2 by (by destruct cmd).
  rewrite find_char_first by done. destruct (length cmd) as [|n] eqn:Hn; [by destruct cmd|].
  rewrite <-Hn. rewrite (proj2 (Nat.eqb_neq _ _)).
  - rewrite take_app_length. replace (length cmd + 1)%nat with (length (cmd ++ [space]))
      by (rewrite length_app; done).
    change (cmd ++ space :: ps) with (cmd ++ [space] ++ ps). by rewrite (assoc app), drop_app_length.
  - rewrite length_app. destruct ps; [done|]. simpl. lia.
Qed.

Lemma createMessageWithCRLF_line line :
  createMessageWithCRLF line =
    ('(command, ps) ← extractCommandAndParams line;
     params ← splitParams ps;
     parseMessage ← parse_command command;
     b ← parseMessage params;
     Some {| raw_message := line ++ crlf; params := params; body := b |}).
Proof.
  unfold createMessageWithCRLF, createMessage.
  replace (length (line ++ crlf) - 2)%nat with (length line) by (rewrite length_app; simpl; lia).
  rewrite drop_app_length, take_app_length, bool_decide_eq_true_2 by done.
  rewrite (proj2 (Nat.ltb_ge _ _)) by (rewrite length_app; simpl; lia). done.
Qed.

Lemma join_nonempty ws : ws ≠ [] → Forall word ws → join ws ≠ [].
Proof.
  intros Hne Hws Hj. apply length_join in Hws. rewrite Hj in Hws. by destruct ws; simpl in *; [|lia].
Qed.

Lemma createMessage_words cmd ws pm b :
  command_chars cmd → parse_command cmd = Some pm → ws ≠ [] → Forall word ws → pm ws = Some b →
  createMessageWithCRLF (cmd ++ space :: join ws) =
    Some {| raw_message := cmd ++ space :: join ws ++ crlf; params := ws; body := b |}.
Proof.
  intros Hcmd Hpm Hne Hws Hb. rewrite createMessageWithCRLF_line.
  rewrite extractCommandAndParams_join by auto using join_nonempty. simpl.
  rewrite splitParams_join by done. simpl. rewrite Hpm. simpl. rewrite Hb. simpl.
  by rewrite <-(assoc app).
Qed.

(** Every message keeps the line it was made of, with its CRLF. *)
Lemma createMessage_raw line m :
  createMessage line = Some m → raw_message m = line ∧ line = toRawString m ++ crlf.
Proof.
  unfold createMessage, toRawString.
  destruct (_ || _) eqn:Hc; [done|]. apply orb_false_iff in Hc as [Hlen Hcr].
  apply negb_false_iff, bool_decide_eq_true in Hcr.
  destruct (extractCommandAndParams _) as [[cmd ps]|]; [|done]; simpl.
  destruct (splitParams ps) as [ws|]; [|done]; simpl.
  destruct (parse_command cmd) as [pm|]; [|done]; simpl.
  destruct (pm ws); [|done]; simpl. intros [= <-]. simpl. split; [done|].
  rewrite <-(take_drop (length line - 2) line) at 1. by rewrite Hcr.
Qed.

(** Numbers separated by spaces are the join of their texts. *)
Lemma fold_spaced {A} (f : A → str) l acc :
  fold_left (λ acc x, acc ++ f x ++ [space]) l acc =
    acc ++ concat (map (λ x, f x ++ [space]) l).
Proof.
  revert acc. induction l as [|x l IH]; intros acc; simpl; [by rewrite app_nil_r|].
  by rewrite IH, <-!(assoc app).
Qed.

Lemma removelast_concat_spaced ws :
  ws ≠ [] → removelast (concat (map (λ w, w ++ [space]) ws)) = join ws.
Proof.
  induction ws as [|w ws IH]; [done|]. intros _. destruct (decide (ws = [])) as [->|Hne].
  - simpl. rewrite app_nil_r. apply removelast_last.
  - rewrite join_cons, <-IH by done. simpl. rewrite <-(assoc app).
    rewrite !removelast_app; [done| |done].
    destruct ws as [|w' ws]; [done|]. simpl. by destruct w'.
Qed.

Lemma spaced_doubles_join l : l ≠ [] → spaced_doubles l = join (map doubleToString l).
Proof.
  intros Hl. unfold spaced_doubles. rewrite fold_spaced. simpl app.
  rewrite <-removelast_concat_spaced by (by destruct l). by rewrite map_map.
Qed.

Lemma doubles_words l : Forall printable l → Forall word (map doubleToString l).
Proof. intros Hl. apply Forall_map. eapply Forall_impl; [exact Hl|]. intros d [_ ?]. by apply doubleToString_word. Qed.

(** The values a receiver reads from printed doubles. *)
Definition reads_as (d d' : double) : Prop := parseDouble (doubleToString d) = Some d' ∧ printable d'.

Lemma reads_as_exists d : printable d → ∃ d', reads_as d d'.
Proof. intros H. destruct (parseDouble_doubleToString d H) as (d' & ? & ? & _). by exists d'. Qed.

Lemma mapM_parseDouble l :
  Forall printable l → ∃ l', mapM parseDouble (map doubleToString l) = Some l' ∧ Forall2 reads_as l l'.
Proof.
  induction 1 as [|d l Hd Hl (l' & Hm & H2)]; [by exists []|].
  destruct (reads_as_exists d Hd) as (d' & Hr). exists (d' :: l'). split; [|by constructor].
  simpl. destruct Hr as [-> _]. simpl. by rewrite Hm.
Qed.

(** The messages the server dereferences without a null test are never null. *)
Lemma pair_message_some cmd pm k point value :
  command_chars cmd → parse_command cmd = Some pm → pm = pair_parseMessage k →
  in_s 32 point → printable value →
  ∃ m value', pair_message (cmd ++ [space]) point value = Some m ∧ reads_as value value' ∧
    body m = k point value' ∧
    raw_message m = cmd ++ space :: to_string point ++ space :: doubleToString value ++ crlf.
Proof.
  intros Hcmd Hpm -> Hp Hv. destruct (reads_as_exists value Hv) as (value' & Hr).
  unfold pair_message.
  replace ((cmd ++ [space]) ++ to_string point ++ [space] ++ doubleToString value)
    with (cmd ++ space :: join [to_string point; doubleToString value])
    by (by rewrite <-app_assoc).
  rewrite (createMessage_words cmd _ _ (k point value') Hcmd Hpm); [|done| |].
  - eexists _, value'. split; [done|]. split; [done|]. split; [done|]. simpl.
    by rewrite <-!(assoc app).
  - constructor; [apply to_string_word|]. constructor; [|done]. apply doubleToString_word, Hv.
  - unfold pair_parseMessage, validateIntDoublePair. rewrite parseInteger_to_string by done.
    destruct Hr as [-> _]. done.
Qed.

Lemma command_put : command_chars (lit "PUT").
Proof. by split. Qed.
Lemma command_bad_put : command_chars (lit "BAD_PUT").
Proof. by split. Qed.
Lemma command_penalty : command_chars (lit "PENALTY").
Proof. by split. Qed.
Lemma command_state : command_chars (lit "STATE").
Proof. by split. Qed.
Lemma command_scoring : command_chars (lit "SCORING").
Proof. by split. Qed.
Lemma command_hello : command_chars (lit "HELLO").
Proof. by split. Qed.

Lemma StateMessage_some l :
  Forall printable l → 1 ≤ Z.of_nat (length l) ≤ constants.max_k + 1 →
  ∃ m l', StateMessage_createMessage l = Some m ∧ body m = StateMessage l' ∧ Forall2 reads_as l l' ∧
    raw_message m = lit "STATE" ++ space :: join (map doubleToString l) ++ crlf.
Proof.
  intros Hl Hlen. destruct (mapM_parseDouble l Hl) as (l' & Hm & H2).
  assert (l ≠ []) as Hne by (intros ->; simpl in Hlen; lia).
  unfold StateMessage_createMessage. rewrite bool_decide_eq_false_2 by done.
  rewrite spaced_doubles_join by done.
  change (lit "STATE " ++ join (map doubleToString l)) with (lit "STATE" ++ space :: join (map doubleToString l)).
  rewrite (createMessage_words _ _ StateMessage_parseMessage (StateMessage l') command_state);
    [|done|by destruct l|by apply doubles_words|].
  - by eexists _, l'.
  - unfold StateMessage_parseMessage. rewrite length_map.
    destruct (_ || _) eqn:Hb; [|by rewrite Hm].
    apply orb_true_iff in Hb as [Hb|Hb]; apply Z.ltb_lt in Hb; lia.
Qed.

(** Player names are words. *)
Lemma alnum_word s : s ≠ [] → isAlphanumeric s = true → word s.
Proof.
  intros Hne Hs. split; [done|]. unfold isAlphanumeric in Hs. clear Hne.
  induction s as [|c s IH]; [done|]. simpl in *. apply andb_true_iff in Hs as [Hc Hs].
  rewrite IH by done. unfold param_char at 1. by rewrite Hc.
Qed.

Definition player_name (s : str) : Prop := s ≠ [] ∧ isAlphanumeric s = true.
Definition score_words (p : str * double) : list str := [fst p; doubleToString (snd p)].

Lemma scoring_fold l acc :
  fold_left (λ acc (p : str * double), acc ++ fst p ++ [space] ++ doubleToString (snd p) ++ [space]) l acc =
    acc ++ concat (map (λ w, w ++ [space]) (concat (map score_words l))).
Proof.
  revert acc. induction l as [|x l IH]; intros acc; simpl; [by rewrite app_nil_r|].
  rewrite IH. repeat (rewrite <-app_assoc; cbn [app]). done.
Qed.

Lemma scoring_pairs_words l :
  Forall (λ p, player_name (fst p) ∧ printable (snd p)) l →
  ∃ l', scoring_pairs (concat (map score_words l)) = Some l' ∧
    Forall2 (λ p p', fst p' = fst p ∧ reads_as (snd p) (snd p')) l l'.
Proof.
  induction 1 as [|[id sc] l [[_ Hid] Hsc] Hl (l' & Hm & H2)]; [by exists []|].
  destruct (reads_as_exists sc Hsc) as (sc' & Hr).
  exists ((id, sc') :: l'). split; [|by constructor].
  simpl in *. rewrite Hid. destruct Hr as [-> _]. simpl. by rewrite Hm.
Qed.

Lemma score_words_all l :
  Forall (λ p, player_name (fst p) ∧ printable (snd p)) l → Forall word (concat (map score_words l)).
Proof.
  induction 1 as [|[id sc] l [[Hne Hid] [_ Hsc]] Hl IH]; [constructor|]. simpl in *.
  constructor; [by apply alnum_word|]. constructor; [by apply doubleToString_word|done].
Qed.

Lemma ScoringMessage_some ids scores :
  length ids = length scores → ids ≠ [] → Forall player_name ids → Forall printable scores →
  let sorted := ordered_sort player_score_lt (combine ids scores) in
  ∃ m l', ScoringMessage_createMessage ids scores = Some m ∧
    body m = ScoringMessage (map fst l') (map snd l') ∧
    Forall2 (λ p p', fst p' = fst p ∧ reads_as (snd p) (snd p')) sorted l' ∧
    raw_message m = lit "SCORING" ++ space :: join (concat (map score_words sorted)) ++ crlf.
Proof.
  intros Hlen Hne Hids Hsc sorted.
  assert (Forall (λ p, player_name (fst p) ∧ printable (snd p)) sorted) as Hall.
  { unfold sorted. rewrite ordered_sort_perm. clear sorted Hne.
    revert scores Hlen Hsc. induction Hids as [|i ids Hi Hids IH]; intros [|x scores] Hlen Hsc;
      simpl in *; try done. apply Forall_cons in Hsc as [Hx Hsc].
    constructor; [done|]. apply IH; [lia|done]. }
  assert (sorted ≠ []) as Hsne.
  { intros Hnil. pose proof (ordered_sort_perm player_score_lt (combine ids scores)) as Hp.
    fold sorted in Hp. rewrite Hnil in Hp. apply Permutation_nil in Hp.
    by destruct ids, scores. }
  destruct (scoring_pairs_words sorted Hall) as (l' & Hm & H2).
  unfold ScoringMessage_createMessage. rewrite Hlen, Nat.eqb_refl. simpl negb. cbv iota zeta.
  fold sorted. rewrite scoring_fold. set (ws := concat (map score_words sorted)) in *.
  assert (ws ≠ []) as Hws by (unfold ws; by destruct sorted).
  assert (removelast (lit "SCORING " ++ concat (map (λ w, w ++ [space]) ws)) =
    lit "SCORING" ++ space :: join ws) as ->.
  { rewrite removelast_app by (destruct ws as [|[|??] ?]; done).
    by rewrite removelast_concat_spaced. }
  rewrite (createMessage_words _ _ ScoringMessage_parseMessage
    (ScoringMessage (map fst l') (map snd l')) command_scoring); [|done|done|by apply score_words_all|].
  - by eexists _, l'.
  - unfold ScoringMessage_parseMessage. by rewrite Hm.
Qed.

(** ** Properties *)

(** [splitParams] accepts the empty string, with no parameter, and otherwise exactly
    the strings of the source's regular expression; the parameters are then the words of
    the string, and joining them with single spaces gives the string back. *)
Theorem splitParams_correct s ws :
  splitParams s = Some ws ↔
    (s = [] ∧ ws = []) ∨ (matches params_regex s ∧ Forall word ws ∧ s = join ws ∧ ws ≠ []).
Proof.
  rewrite splitParams_words, matches_params_words. split.
  - intros [Hws ->]. destruct ws as [|w ws]; [by left|]. right. split; [|done].
    by exists (w :: ws).
  - intros [[-> ->]|(_ & Hws & -> & _)]; [by split|done].
Qed.

(** [parseInteger] accepts exactly an optional minus sign followed by at least one
    digit whose value fits a 32-bit [int], and returns that value; the 64-bit conversion
    inside never lets a wrapped value through. *)
Theorem parseInteger_correct s z :
  parseInteger s = Some z ↔
    in_s 32 z ∧ ∃ (neg : bool) ds, ds ≠ [] ∧ forallb isdigit ds = true ∧
      s = (if neg then [minus] else []) ++ ds ∧
      z = if neg then - dec_value ds else dec_value ds.
Proof.
  split.
  - intros H. assert (isValidIntegerStringFormat s = true) as Hf
      by (unfold parseInteger in H; by destruct (isValidIntegerStringFormat s)).
    apply int_format_spec in Hf as (neg & ds & Hne & Hds & ->).
    rewrite parseInteger_text in H by done. cbv zeta in H.
    destruct (in_sb 32 _) eqn:Hz in H; [|done]. injection H as <-.
    split; [by apply in_sb_spec|]. by exists neg, ds.
  - intros (Hz & neg & ds & Hne & Hds & -> & ->). rewrite parseInteger_text by done.
    apply in_sb_spec in Hz. cbv zeta. by rewrite Hz.
Qed.

(** C39: [parseDouble] accepts exactly an optional minus sign, digits, and optionally a dot
    with at most seven digits, with at least one digit in all, whose value does not
    overflow; the result is the double nearest to the decimal. *)
Theorem parseDouble_correct s d :
  parseDouble s = Some d ↔
    ∃ neg ds frac, forallb isdigit ds = true ∧ forallb isdigit (default [] frac) = true ∧
      (length (default [] frac) ≤ 7)%nat ∧ ds ++ default [] frac ≠ [] ∧
      s = decimal_text neg ds frac ∧
      d = decimal_to_double neg (dec_value (ds ++ default [] frac)) (length (default [] frac)) ∧
      is_finite d = true.
Proof.
  split.
  - intros H. assert (isValidDoubleStringFormat s = true) as Hf
      by (unfold parseDouble in H; by destruct (isValidDoubleStringFormat s)).
    apply double_format_sound in Hf as (neg & ds & frac & Hok & ->).
    rewrite parseDouble_text in H by done. cbv zeta in H.
    destruct (is_finite _) eqn:Hfin in H; [|done]. injection H as <-.
    destruct Hok as (? & ? & ? & ?). by exists neg, ds, frac.
  - intros (neg & ds & frac & Hds & Hfs & Hlen & Hne & -> & -> & Hfin).
    rewrite parseDouble_text by (by repeat split). cbv zeta. unfold decimal_digits. by rewrite Hfin.
Qed.

(** [doubleToString] prints a finite double rounded to seven decimals: the printed
    number [n / 10^7] differs from the double [m * 2^e] by at most half a unit of the last
    decimal, and is exact for integral doubles. *)
Theorem doubleToString_rounds s m e :
  ∃ ds fs n, doubleToString (S754_finite s m e) = decimal_text s ds (Some fs) ∧
    forallb isdigit ds = true ∧ forallb isdigit fs = true ∧ length fs = 7%nat ∧
    dec_value (ds ++ fs) = n ∧
    (if 0 <=? e then n = Zpos m * 2 ^ e * 10 ^ 7
     else 2 * Z.abs (n * 2 ^ (- e) - Zpos m * 10 ^ 7) ≤ 2 ^ (- e)).
Proof.
  unfold doubleToString. simpl print_fixed. rewrite print_decimal_text.
  set (n := scaled _ m e). eexists _, _, n. split; [done|].
  split; [apply nat_str_digits|]. split; [apply fixed_digits_digits|].
  split; [apply length_fixed_digits|].
  assert (if 0 <=? e then n = Zpos m * 2 ^ e * 10 ^ 7
     else 2 * Z.abs (n * 2 ^ (- e) - Zpos m * 10 ^ 7) ≤ 2 ^ (- e) ∧ 0 ≤ n) as Hn.
  { unfold n, scaled. change (10 ^ Z.of_nat constants.max_fractional_digits) with (10 ^ 7).
    destruct (Z.leb_spec 0 e); [done|].
    assert (0 < 2 ^ (- e)) as Hp by (apply Z.pow_pos_nonneg; lia).
    pose proof (div_half_even_spec (Zpos m * 10 ^ 7) (2 ^ (- e)) Hp). split; [lia|].
    apply (div_half_even_le _ _ (Zpos m * 10 ^ 7) Hp). nia. }
  destruct (Z.leb_spec 0 e).
  - split; [|done]. apply print_decimal_value. rewrite Hn.
    assert (0 < 2 ^ e) by (apply Z.pow_pos_nonneg; lia). nia.
  - destruct Hn as [Hn Hn0]. split; [by apply print_decimal_value|done].
Qed.

(** C40: the messages [PUT], [BAD_PUT] and [PENALTY] made from an [int] and a finite double
    are never null; they read back as the same point and as the double their seven-digit
    decimal denotes. *)
Theorem pair_messages_roundtrip point value :
  in_s 32 point → printable value →
  ∃ value', parseDouble (doubleToString value) = Some value' ∧ printable value' ∧
    (∃ m, PutMessage_createMessage point value = Some m ∧ body m = PutMessage point value' ∧
       raw_message m = lit "PUT " ++ to_string point ++ [space] ++ doubleToString value ++ crlf) ∧
    (∃ m, BadPutMessage_createMessage point value = Some m ∧ body m = BadPutMessage point value') ∧
    (∃ m, PenaltyMessage_createMessage point value = Some m ∧ body m = PenaltyMessage point value').
Proof.
  intros Hp Hv.
  destruct (pair_message_some _ PutMessage_parseMessage PutMessage point value command_put)
    as (m1 & v & Hm1 & [Hr Hpv] & Hb1 & Hraw1); [done..|].
  destruct (pair_message_some _ BadPutMessage_parseMessage BadPutMessage point value command_bad_put)
    as (m2 & v2 & Hm2 & [Hr2 _] & Hb2 & _); [done..|].
  destruct (pair_message_some _ PenaltyMessage_parseMessage PenaltyMessage point value command_penalty)
    as (m3 & v3 & Hm3 & [Hr3 _] & Hb3 & _); [done..|].
  assert (v2 = v) as -> by congruence. assert (v3 = v) as -> by congruence.
  exists v. split; [done|]. split; [done|]. split; [by exists m1|]. split; [by exists m2|by exists m3].
Qed.
Lemma pair_messages_roundtrip_witness :
  ∃ value', parseDouble (doubleToString (decimal_to_double true 31415926 7)) = Some value' ∧ printable value' ∧
    (∃ m, PutMessage_createMessage (-12) (decimal_to_double true 31415926 7) = Some m ∧
       body m = PutMessage (-12) value' ∧
       raw_message m = lit "PUT " ++ to_string (-12) ++ [space] ++
         doubleToString (decimal_to_double true 31415926 7) ++ crlf) ∧
    (∃ m, BadPutMessage_createMessage (-12) (decimal_to_double true 31415926 7) = Some m ∧
       body m = BadPutMessage (-12) value') ∧
    (∃ m, PenaltyMessage_createMessage (-12) (decimal_to_double true 31415926 7) = Some m ∧
       body m = PenaltyMessage (-12) value').
Proof. apply pair_messages_roundtrip; [unfold in_s; lia|by split; vm_compute]. Defined.

(** The [STATE] message of 1 to [max_k + 1] finite doubles is never null; each value
    reads back as the double its seven-digit decimal denotes, in order. *)
Theorem state_message_roundtrip l :
  Forall printable l → 1 ≤ Z.of_nat (length l) ≤ constants.max_k + 1 →
  ∃ m l', StateMessage_createMessage l = Some m ∧ getType m = STATE ∧
    body m = StateMessage l' ∧ Forall2 (λ d d', parseDouble (doubleToString d) = Some d') l l'.
Proof.
  intros Hl Hlen. destruct (StateMessage_some l Hl Hlen) as (m & l' & Hm & Hb & H2 & _).
  exists m, l'. split; [done|]. split; [unfold getType; by rewrite Hb|]. split; [done|].
  eapply Forall2_impl; [exact H2|]. by intros d d' [? _].
Qed.
Lemma state_message_roundtrip_witness :
  ∃ m l', StateMessage_createMessage [double_of_Z 1; double_of_Z (-4)] = Some m ∧ getType m = STATE ∧
    body m = StateMessage l' ∧
    Forall2 (λ d d', parseDouble (doubleToString d) = Some d') [double_of_Z 1; double_of_Z (-4)] l'.
Proof.
  apply state_message_roundtrip; [by repeat constructor; vm_compute|].
  unfold constants.max_k. simpl. lia.
Defined.

(** The [SCORING] message of a non-empty list of players with alphanumeric names and
    finite scores is never null; it lists every player with the decimal of their score,
    sorted by name. *)
Theorem scoring_message_sorted ids scores :
  length ids = length scores → ids ≠ [] → Forall player_name ids → Forall printable scores →
  ∃ m ids' scores', ScoringMessage_createMessage ids scores = Some m ∧
    body m = ScoringMessage ids' scores' ∧
    StronglySorted (λ a b, str_lt b a = false) ids' ∧
    ∃ pairs, pairs ≡ₚ combine ids scores ∧
      Forall2 (λ p p', fst p' = fst p ∧ parseDouble (doubleToString (snd p)) = Some (snd p'))
        pairs (combine ids' scores').
Proof.
  intros Hlen Hne Hids Hsc.
  destruct (ScoringMessage_some ids scores Hlen Hne Hids Hsc) as (m & l' & Hm & Hb & H2 & _).
  set (sorted := ordered_sort player_score_lt (combine ids scores)) in *.
  exists m, (map fst l'), (map snd l'). split; [done|]. split; [done|]. split.
  - assert (map fst l' = map fst sorted) as ->.
    { clear -H2. induction H2 as [|p p' l l' [Hp _] _ IH]; [done|]. simpl. by rewrite Hp, IH. }
    assert (StronglySorted (not_gt (λ x y : str * double, str_lt (fst x) (fst y))) sorted) as Hs.
    { apply ordered_sort_sorted_by.
      - split; intros x y *; [apply swo_asym|apply swo_negtrans].
      - unfold player_score_lt. intros x y [H|[H _]%andb_true_iff]%orb_true_iff;
          [by apply swo_asym|by apply negb_true_iff].
      - unfold player_score_lt. by intros x y [H _]%orb_false_iff. }
    clear -Hs. induction Hs as [|p l Hl IH Hp]; simpl; constructor; [done|].
    by apply Forall_map.
  - exists sorted. split; [apply ordered_sort_perm|].
    assert (combine (map fst l') (map snd l') = l') as ->.
    { clear. induction l' as [|[??] l' IH]; [done|]. simpl. by rewrite IH. }
    eapply Forall2_impl; [exact H2|]. intros p p' [? [? _]]. done.
Qed.
Lemma scoring_message_sorted_witness :
  ∃ m ids' scores',
    ScoringMessage_createMessage [lit "bob"; lit "Al"] [double_of_Z 7; double_of_Z 0] = Some m ∧
    body m = ScoringMessage ids' scores' ∧
    StronglySorted (λ a b, str_lt b a = false) ids' ∧
    ∃ pairs, pairs ≡ₚ combine [lit "bob"; lit "Al"] [double_of_Z 7; double_of_Z 0] ∧
      Forall2 (λ p p', fst p' = fst p ∧ parseDouble (doubleToString (snd p)) = Some (snd p'))
        pairs (combine ids' scores').
Proof.
  apply scoring_message_sorted; [done|done| |]; by repeat constructor; vm_compute.
Defined.

(** The client's first message is never null for a player identifier the argument
    parser accepts, and the server reads that identifier back. *)
Theorem hello_message_roundtrip id :
  player_name id →
  ∃ m, HelloMessage_createMessage id = Some m ∧ body m = HelloMessage id ∧
    raw_message m = lit "HELLO " ++ id ++ crlf.
Proof.
  intros [Hne Hid]. unfold HelloMessage_createMessage.
  change (lit "HELLO " ++ id) with (lit "HELLO" ++ space :: join [id]).
  rewrite (createMessage_words _ _ HelloMessage_parseMessage (HelloMessage id) command_hello);
    [by eexists|done|done| |].
  - by constructor; [apply alnum_word|].
  - simpl. by rewrite Hid.
Qed.
Lemma hello_message_roundtrip_witness :
  ∃ m, HelloMessage_createMessage (lit "Player1") = Some m ∧ body m = HelloMessage (lit "Player1") ∧
    raw_message m = lit "HELLO " ++ lit "Player1" ++ crlf.
Proof. apply hello_message_roundtrip. split; [done|vm_compute; reflexivity]. Defined.
