(* ===== verification/ServerState.v ===== *)
(** * The state of the server ([server_logic.h], [server_events.h], [server_events.cpp])

    [Server] is the state of the server process: the fields of [ServerLogic], the multimap
    of [EventManager], and the globals of [approx-server.cpp] that callbacks reach. A
    callback ([std::function<void()>]) is a constructor of [Callback] with the variables
    its lambda captures; [Server.v] runs them. [now] is [steady_clock::now()] in
    milliseconds. *)
From Stdlib Require Import Ascii String SpecFloat.
From S2P Require Import Prelude CString Double.

Record PlayerInfo := {
  id : str;
  ip : str;
  port : Z;
  messages : list str;
  approximations : list double;
  coefficients : list double;
  penalty : double;
  is_known : bool;
  correct_puts : Z;
  can_put : bool;
  delay : Z }.
#[export] Instance eta_PlayerInfo : Eta PlayerInfo := λ p,
  {| id := id p; ip := ip p; port := port p; messages := messages p;
     approximations := approximations p; coefficients := coefficients p;
     penalty := penalty p; is_known := is_known p; correct_puts := correct_puts p;
     can_put := can_put p; delay := delay p |}.

(** The lambdas passed to [EventManager::add_event], with their captures. *)
Inductive Callback :=
  | CbBadPut (client_fd : Z) (point : Z) (value : double) (client_ip : str) (client_port : Z) (client_id : str)
  | CbState (client_fd : Z) (state_msg : str) (client_ip : str) (client_port : Z) (client_id : str)
  | CbHello (client_fd : Z) (ip_str : str) (port : Z).

Record pollfd := { fd : Z; pevents : Z; revents : Z }.
#[export] Instance eta_pollfd : Eta pollfd := λ p, {| fd := fd p; pevents := pevents p; revents := revents p |}.

(** What the process did to its sockets. *)
Inductive Output :=
  | Accepted (client_fd : Z)
  | Received (client_fd : Z) (bytes : str)
  | Sent (client_fd : Z) (bytes : str)
  | Closed (client_fd : Z).

Record Server := {
  K : Z;
  N : Z;
  M_ : Z;                              (* the constructor's [M] *)
  total_correct_puts : Z;
  coeff_file : str;                    (* what is left of the open file *)
  players : gmap Z PlayerInfo;
  stopping : bool;
  events : list (Z * Callback);        (* [EventManager::events], by deadline *)
  poll_fds : list pollfd;
  client_buffers : gmap Z str;
  now : Z;
  trace : list Output }.
#[export] Instance eta_Server : Eta Server := λ s,
  {| K := K s; N := N s; M_ := M_ s; total_correct_puts := total_correct_puts s;
     coeff_file := coeff_file s; players := players s; stopping := stopping s;
     events := events s; poll_fds := poll_fds s; client_buffers := client_buffers s;
     now := now s; trace := trace s |}.

Abbreviation SM := (M Server).

(** ** [EventManager] *)
Module EventManager.
Definition deadline_lt (x y : Z * Callback) : bool := fst x <? fst y.
(** [events.insert]: after the events with the same deadline. *)
Definition add_event (callback : Callback) (deadline : Z) : SM unit :=
  modify (λ s, s <| events ::= ordered_insert deadline_lt (deadline, callback) |>).
Definition reset : SM unit := modify (λ s, s <| events := [] |>).
End EventManager.
