(* ===== verification/ServerLogic.v ===== *)
(** * The game logic of the server ([server_logic.h], [server_logic.cpp])

    The methods of [ServerLogic], on the state of [ServerState.v]. Output to [stdout] and
    [stderr] is not modelled, except where computing it can throw. *)
From Stdlib Require Import Ascii String SpecFloat.
From S2P Require Import Prelude CString Double Constants MsgParser ServerState.

(** ** Access to [players] *)

(** The value-initialised element [operator[]] inserts for a missing key. *)
Definition default_player : PlayerInfo :=
  {| id := []; ip := []; port := 0; messages := []; approximations := []; coefficients := [];
     penalty := dzero; is_known := false; correct_puts := 0; can_put := false; delay := 0 |}.
(** [players.at(client_fd)] throws [out_of_range] for a missing key. *)
Definition players_at (client_fd : Z) : SM PlayerInfo :=
  s ← get_state; from_opt Throw (players s !! client_fd).
(** [players[client_fd]], read, and written through the reference it returns. *)
Definition players_ref (client_fd : Z) : SM PlayerInfo :=
  s ← get_state;
  match players s !! client_fd with
  | Some p => mret p
  | None => _ ← modify (λ s, s <| players ::= <[client_fd := default_player]> |>); mret default_player
  end.
Definition update_player (client_fd : Z) (f : PlayerInfo → PlayerInfo) : SM unit :=
  p ← players_ref client_fd; modify (λ s, s <| players ::= <[client_fd := f p]> |>).

Definition is_client_connected (s : Server) (client_fd : Z) : bool :=
  bool_decide (is_Some (players s !! client_fd)).

Definition validate_client (s : Server) (client_fd : Z) (ip_ : str) (port_ : Z) : bool :=
  match players s !! client_fd with
  | None => false
  | Some player => bool_decide (ip player = ip_) && (port player =? port_)
  end.

Definition getClientPlayerID (client_fd : Z) : SM str := p ← players_at client_fd; mret (id p).
Definition getClientIP (client_fd : Z) : SM str := p ← players_at client_fd; mret (ip p).
Definition getClientPort (client_fd : Z) : SM Z := p ← players_at client_fd; mret (port p).
Definition getPlayerInfo (client_fd : Z) : SM PlayerInfo := players_at client_fd.
Definition is_stopping : SM bool := s ← get_state; mret (stopping s).

Definition register_new_client (client_fd : Z) (ip_ : str) (port_ : Z) : SM unit :=
  modify (λ s, s <| players ::= <[client_fd :=
    {| id := lit "UNKNOWN"; ip := ip_; port := port_; messages := [];
       approximations := replicate (Z.to_nat (K s + 1)) dzero;
       coefficients := replicate (Z.to_nat (N s + 1)) dzero;
       penalty := dzero; is_known := false; correct_puts := 0; can_put := false; delay := 0 |}]> |>).

Definition handle_client_disconnect (client_fd : Z) : SM unit :=
  p ← players_ref client_fd;
  modify (λ s, s <| total_correct_puts ::= λ t, t - correct_puts p |> <| players ::= delete client_fd |>).

Definition has_pending_messages (client_fd : Z) : SM bool :=
  p ← players_at client_fd; mret (negb (bool_decide (messages p = []))).
(** [front()] and [pop_front()] of an empty deque are undefined. *)
Definition take_next_message_str (client_fd : Z) : SM str :=
  p ← players_at client_fd;
  msg_str ← from_opt Undef (head (messages p));
  _ ← update_player client_fd (λ p, p <| messages ::= tail |>);
  mret msg_str.
Definition append_message_front (client_fd : Z) (msg : str) : SM unit :=
  update_player client_fd (λ p, p <| messages ::= cons msg |>).
Definition append_message_back (client_fd : Z) (msg : str) : SM unit :=
  update_player client_fd (λ p, p <| messages ::= λ l, l ++ [msg] |>).

(** A smart pointer dereferenced without a test. *)
Definition deref (m : option Message) : SM Message := from_opt Undef m.

(** ** Scores *)

(** The loop of [player_poly_at], from index [i] on; the vector is read out of range when
    it has no [N + 1] elements. *)
Fixpoint poly_loop (coeffs : list double) (x : Z) (fuel i : nat) (result x_pow : double) : outcome double :=
  match fuel with
  | O => Ret result
  | S fuel' =>
      c ← from_option_or Undef (coeffs !! i);
      poly_loop coeffs x fuel' (S i) (dadd result (dmul c x_pow)) (dmul x_pow (double_of_Z x))
  end.
Definition player_poly_at (n : Z) (player : PlayerInfo) (x : Z) : outcome double :=
  poly_loop (coefficients player) x (Z.to_nat (n + 1)) O (double_of_Z 0) (double_of_Z 1).

Fixpoint score_loop (n : Z) (player : PlayerInfo) (fuel x : nat) (score : double) : outcome double :=
  match fuel with
  | O => Ret score
  | S fuel' =>
      real_value ← player_poly_at n player (Z.of_nat x);
      approx_value ← from_option_or Undef (approximations player !! x);
      let diff := dsub real_value approx_value in
      score_loop n player fuel' (S x) (dadd score (dmul diff diff))
  end.
Definition calculate_score (k n : Z) (player : PlayerInfo) : outcome double :=
  score ← score_loop n player (Z.to_nat (k + 1)) O (double_of_Z 0);
  Ret (dadd score (penalty player)).

(** The iteration order of [std::map<int, PlayerInfo>]. *)
Definition fd_lt (x y : Z * PlayerInfo) : bool := fst x <? fst y.
Definition players_in_order (s : Server) : list (Z * PlayerInfo) :=
  ordered_sort fd_lt (map_to_list (players s)).
Definition known_players (s : Server) : list (Z * PlayerInfo) :=
  List.filter (λ p, is_known (snd p)) (players_in_order s).

Fixpoint append_all (fds : list Z) (msg : str) : SM unit :=
  match fds with
  | [] => mret tt
  | client_fd :: fds' => _ ← append_message_back client_fd msg; append_all fds' msg
  end.

Definition send_scoring_messages : SM unit :=
  s ← get_state;
  let known := known_players s in
  let ids := map (λ p, id (snd p)) known in
  scores ← lift_outcome (mapM (λ p, calculate_score (K s) (N s) (snd p)) known);
  scoring_msg ← deref (ScoringMessage_createMessage ids scores);
  _ ← append_all (map fst known) (raw_message scoring_msg);
  _ ← lift_outcome (substr_from (toRawString scoring_msg) (length (lit "SCORING ")));
  mret tt.

Definition game_over : SM unit :=
  _ ← send_scoring_messages; modify (λ s, s <| stopping := true |>).

(** ** Responses *)
Definition respond_with_penalty (client_fd point : Z) (value : double) : SM unit :=
  _ ← update_player client_fd (λ p,
        p <| penalty ::= λ x, dadd x (double_of_Z constants.early_put_penalty) |> <| can_put := true |>);
  penalty_msg ← deref (PenaltyMessage_createMessage point value);
  append_message_back client_fd (raw_message penalty_msg).

Definition respond_with_bad_put (client_fd point : Z) (value : double) : SM unit :=
  _ ← update_player client_fd (λ p,
        p <| penalty ::= λ x, dadd x (double_of_Z constants.bad_put_penalty) |>);
  client_ip ← getClientIP client_fd;
  client_port ← getClientPort client_fd;
  client_id ← getClientPlayerID client_fd;
  s ← get_state;
  EventManager.add_event (CbBadPut client_fd point value client_ip client_port client_id)
    (now s + constants.bad_put_delay).

Definition respond_with_state (client_fd : Z) (state_msg : str) : SM unit :=
  client_ip ← getClientIP client_fd;
  client_port ← getClientPort client_fd;
  client_id ← getClientPlayerID client_fd;
  p ← players_ref client_fd;
  s ← get_state;
  EventManager.add_event (CbState client_fd state_msg client_ip client_port client_id)
    (now s + delay p * 1000).

(** ** Handlers *)
Definition handle_hello (client_fd : Z) (player_id : str) : SM bool :=
  player ← players_ref client_fd;
  if is_known player then mret false
  else
    _ ← update_player client_fd (λ p,
          p <| id := player_id |>
            <| delay := Z.of_nat (length (List.filter islower player_id)) |>
            <| is_known := true |> <| can_put := true |>);
    s ← get_state;
    let '(line, rest) := getline (coeff_file s) in
    _ ← modify (λ s, s <| coeff_file := rest |>);
    let coeffs_str := line ++ [lf] in
    match createMessage coeffs_str with
    | None => fail Exit                      (* fatal("could not create coeff message") *)
    | Some coeff_msg =>
        match body coeff_msg with
        | CoeffMessage coeffs =>
            _ ← update_player client_fd (λ p, p <| coefficients := coeffs |>);
            _ ← append_message_back client_fd (raw_message coeff_msg);
            mret true
        | _ => fail Undef                    (* dynamic_cast gives a null pointer *)
        end
    end.

Definition put_out_of_range (k point : Z) (value : double) : bool :=
  (point <? 0) || (k <? point)
  || dlt (dadd value constants.eps) constants.min_put_value
  || dgt (dsub value constants.eps) constants.max_put_value.

(** [player.approximations[point] += value]: undefined out of the vector's range. *)
Definition add_to_approximation (client_fd point : Z) (value : double) : SM unit :=
  p ← players_ref client_fd;
  a ← from_opt Undef (if point <? 0 then None else approximations p !! Z.to_nat point);
  update_player client_fd (λ p, p <| approximations ::= <[Z.to_nat point := dadd a value]> |>).

Definition handle_put (client_fd point : Z) (value : double) : SM bool :=
  player ← players_ref client_fd;
  if negb (is_known player) then mret false
  else
    early ← (if negb (can_put player) then
               _ ← respond_with_penalty client_fd point value; mret true
             else mret false);
    _ ← update_player client_fd (λ p, p <| can_put := false |>);
    s ← get_state;
    bad ← (if put_out_of_range (K s) point value then
             _ ← respond_with_bad_put client_fd point value; mret true
           else mret false);
    if early || bad then mret false
    else
      _ ← update_player client_fd (λ p, p <| correct_puts ::= Z.succ |>);
      _ ← modify (λ s, s <| total_correct_puts ::= Z.succ |>);
      _ ← add_to_approximation client_fd point value;
      p ← players_ref client_fd;
      state_msg ← deref (StateMessage_createMessage (approximations p));
      _ ← lift_outcome (substr_from (toRawString state_msg) (length (lit "STATE ")));
      _ ← respond_with_state client_fd (raw_message state_msg);
      s ← get_state;
      _ ← (if M_ s <=? total_correct_puts s then game_over else mret tt);
      mret true.

Definition handle_client_message (client_fd : Z) (msg : Message) : SM bool :=
  match body msg with
  | HelloMessage player_id => handle_hello client_fd player_id
  | PutMessage point value => handle_put client_fd point value
  | _ => mret false
  end.

Definition reset : SM unit :=
  _ ← EventManager.reset;
  modify (λ s, s <| total_correct_puts := 0 |> <| players := ∅ |> <| stopping := false |>).
