(* ===== verification/Server.v ===== *)
(** * The event loop of the server ([approx-server.cpp], [EventManager::check_timers])

    One turn of the main loop is [main_step]: it consumes the results of the system calls
    of that turn, which are the parameters of the section. [poll_fds[0]] is the listening
    socket. *)
From Stdlib Require Import Ascii String SpecFloat.
From S2P Require Import Prelude CString Double Constants MsgParser ServerState ServerLogic.

Definition POLLIN : Z := 1.
Definition POLLOUT : Z := 4.
Definition POLLERR : Z := 8.
Definition POLLHUP : Z := 16.
Definition has_flag (bits flags : Z) : bool := negb (Z.land bits flags =? 0).

(** [accept_new_connection]: a client, no pending connection, or an error that exits. *)
Inductive AcceptResult := AcceptClient (client_fd : Z) (ip_str : str) (port : Z) | AcceptNone | AcceptError.

(** [v[i]] of a vector: undefined out of range. *)
Definition vec_get {A} (l : list A) (i : Z) : option A :=
  if i <? 0 then None else l !! Z.to_nat i.
Definition poll_fd_at (i : Z) : SM pollfd := s ← get_state; from_opt Undef (vec_get (poll_fds s) i).

(** [poll_fds.erase(poll_fds.begin() + i)]. *)
Definition erase_poll_fd (i : Z) : SM unit :=
  s ← get_state;
  if (0 <=? i) && (i <? Z.of_nat (length (poll_fds s)))
  then modify (λ s, s <| poll_fds ::= λ l, take (Z.to_nat i) l ++ drop (S (Z.to_nat i)) l |>)
  else fail Undef.

(** The [size_t] index given by reference comes back decremented. *)
Definition disconnect_client (client_fd i : Z) : SM Z :=
  _ ← handle_client_disconnect client_fd;
  _ ← modify (λ s, s <| trace ::= λ t, t ++ [Closed client_fd] |>);
  _ ← erase_poll_fd i;
  _ ← modify (λ s, s <| client_buffers ::= delete client_fd |>);
  mret (wrap 64 (i - 1)).

(** The index of the first entry of a file descriptor, the length when there is none. *)
Fixpoint index_of_fd (client_fd : Z) (l : list pollfd) : Z :=
  match l with
  | [] => 0
  | p :: l' => if fd p =? client_fd then 0 else Z.succ (index_of_fd client_fd l')
  end.

(** [state_msg.substr("STATE ".length(), ...)] of the lambda's log line can throw. *)
Definition run_callback (c : Callback) : SM unit :=
  s ← get_state;
  match c with
  | CbBadPut client_fd point value client_ip client_port client_id =>
      if negb (validate_client s client_fd client_ip client_port) then mret tt
      else
        cur ← getClientPlayerID client_fd;
        if negb (bool_decide (cur = client_id)) then mret tt
        else
          _ ← update_player client_fd (λ p, p <| can_put := true |>);
          bad_put_msg ← deref (BadPutMessage_createMessage point value);
          append_message_back client_fd (raw_message bad_put_msg)
  | CbState client_fd state_msg client_ip client_port client_id =>
      if negb (validate_client s client_fd client_ip client_port) then mret tt
      else
        cur ← getClientPlayerID client_fd;
        if negb (bool_decide (cur = client_id)) then mret tt
        else
          _ ← append_message_back client_fd state_msg;
          _ ← lift_outcome (substr_from state_msg (length (lit "STATE ")));
          update_player client_fd (λ p, p <| can_put := true |>)
  | CbHello client_fd ip_str port_ =>
      if negb (validate_client s client_fd ip_str port_) then mret tt
      else
        p ← getPlayerInfo client_fd;
        if is_known (p : PlayerInfo) then mret tt
        else _ ← disconnect_client client_fd (index_of_fd client_fd (poll_fds s)); mret tt
  end.

(** [EventManager::check_timers]: the callback is called before its event is erased, and
    what is erased is the first event at that time. One unit of fuel per event is enough
    because no callback adds an event. *)
Fixpoint check_timers_loop (fuel : nat) (time : Z) : SM unit :=
  s ← get_state;
  match events s with
  | (deadline, callback) :: _ =>
      if deadline <=? time then
        match fuel with
        | O => fail Diverge
        | S fuel' =>
            _ ← run_callback callback;
            _ ← modify (λ s, s <| events ::= tail |>);
            check_timers_loop fuel' time
        end
      else mret tt
  | [] => mret tt
  end.
Definition check_timers : SM unit :=
  s ← get_state; check_timers_loop (length (events s)) (now s).

Section SystemCalls.
(** Results of [accept], [recv] and [send]. The first argument of the last two numbers
    the call, so that every call has its own result: [recv] gives the bytes read ([Some []]
    is a closed connection, [None] an error), [send] the number of bytes it accepts, or an error
    number with a minus sign. *)
Variable accept_result : AcceptResult.
Variable recv_result : nat → Z → option str.
Variable send_result : nat → Z → str → Z.

Definition handle_new_connection : SM unit :=
  match accept_result with
  | AcceptNone => mret tt
  | AcceptError => fail Exit
  | AcceptClient client_fd ip_str port_ =>
      _ ← modify (λ s, s <| trace ::= λ t, t ++ [Accepted client_fd] |>);
      _ ← modify (λ s, s <| poll_fds ::= λ l, l ++ [{| fd := client_fd; pevents := POLLIN; revents := 0 |}] |>);
      _ ← register_new_client client_fd ip_str port_;
      _ ← modify (λ s, s <| client_buffers ::= <[client_fd := []]> |>);
      s ← get_state;
      EventManager.add_event (CbHello client_fd ip_str port_) (now s + constants.hello_wait_time)
  end.

Definition client_buffer (s : Server) (client_fd : Z) : str := default [] (client_buffers s !! client_fd).

(** One complete line: a bad message is only logged. *)
Definition deliver_line (client_fd : Z) (msg_str : str) : SM unit :=
  match createMessageWithCRLF msg_str with
  | None => _ ← getClientIP client_fd; _ ← getClientPort client_fd; mret tt
  | Some msg =>
      ok ← handle_client_message client_fd msg;
      if negb ok then _ ← getClientIP client_fd; _ ← getClientPort client_fd; mret tt
      else mret tt
  end.

(** The loop over the complete lines of the buffer. The second component of the result
    is the index [i], the first whether the client was disconnected. *)
Fixpoint read_loop (fuel : nat) (client_fd i : Z) : SM (bool * Z) :=
  s ← get_state;
  let buf := client_buffer s client_fd in
  match find_str crlf buf with
  | None => mret (false, i)
  | Some crlf_pos =>
      match fuel with
      | O => fail Diverge
      | S fuel' =>
          msg_str ← lift_outcome (substr buf 0 crlf_pos);
          _ ← modify (λ s, s <| client_buffers ::= <[client_fd := drop (crlf_pos + length crlf) buf]> |>);
          _ ← deliver_line client_fd msg_str;
          p ← getPlayerInfo client_fd;
          if negb (is_known (p : PlayerInfo)) then i' ← disconnect_client client_fd i; mret (true, i')
          else
            stop ← is_stopping;
            if (stop : bool) then mret (false, i) else read_loop fuel' client_fd i
      end
  end.

(** The boolean is the value returned by the code; the second component the index. *)
Definition handle_read_from_client (i : Z) : SM (bool * Z) :=
  p ← poll_fd_at i;
  s ← get_state;
  let client_fd := fd p in
  let bytes_read := recv_result (length (trace s)) client_fd in
  player_id ← getClientPlayerID client_fd;
  match bytes_read with
  | None | Some [] => i' ← disconnect_client client_fd i; mret (false, i')
  | Some data =>
      _ ← modify (λ s, s <| trace ::= λ t, t ++ [Received client_fd data] |>);
      _ ← modify (λ s, s <| client_buffers ::= <[client_fd := client_buffer s client_fd ++ data]> |>);
      s ← get_state;
      '(_, i') ← read_loop (length (client_buffer s client_fd)) client_fd i;
      mret (true, i')
  end.

(** [send] on a connection that the client has reset gives the error [EPIPE] and raises [SIGPIPE], which
    ends the process: the program neither catches the signal nor passes [MSG_NOSIGNAL]. *)
Definition raise_sigpipe (send_value : Z) : SM unit :=
  if send_value =? - EPIPE then fail Signal else mret tt.

Definition set_poll_fd (i : Z) (f : pollfd → pollfd) : SM unit :=
  p ← poll_fd_at i; modify (λ s, s <| poll_fds ::= <[Z.to_nat i := f p]> |>).

Definition handle_write_to_client (i : Z) : SM (bool * Z) :=
  p ← poll_fd_at i;
  let client_fd := fd p in
  player_id ← getClientPlayerID client_fd;
  pending ← has_pending_messages client_fd;
  if negb (pending : bool) then
    _ ← set_poll_fd i (λ p, p <| pevents ::= λ e, Z.ldiff e POLLOUT |>); mret (true, i)
  else
    msg_str ← take_next_message_str client_fd;
    if bool_decide (msg_str = []) then mret (true, i)
    else
      s ← get_state;
      let bytes_written := send_result (length (trace s)) client_fd msg_str in
      _ ← raise_sigpipe bytes_written;
      if bytes_written <=? 0 then i' ← disconnect_client client_fd i; mret (false, i')
      else
        _ ← modify (λ s, s <| trace ::= λ t, t ++ [Sent client_fd (take (Z.to_nat bytes_written) msg_str)] |>);
        msg_rest ← lift_outcome (substr_from msg_str (Z.to_nat bytes_written));
        _ ← (if bool_decide (msg_rest = []) then mret tt else append_message_front client_fd msg_rest);
        mret (true, i).

(** [reset_server]: the pending messages of one client, then of each, then the
    disconnection. *)
Fixpoint flush_client (fuel : nat) (client_fd : Z) : SM unit :=
  pending ← has_pending_messages client_fd;
  if negb (pending : bool) then mret tt
  else
    match fuel with
    | O => fail Diverge
    | S fuel' =>
        msg_str ← take_next_message_str client_fd;
        if bool_decide (msg_str = []) then mret tt
        else
          s ← get_state;
          let bytes_written := send_result (length (trace s)) client_fd msg_str in
          _ ← raise_sigpipe bytes_written;
          _ ← modify (λ s, s <| trace ::= λ t, t ++ [Sent client_fd (take (Z.to_nat bytes_written) msg_str)] |>);
          if negb (bytes_written =? Z.of_nat (length msg_str)) then mret tt
          else flush_client fuel' client_fd
    end.
Fixpoint flush_clients (l : list pollfd) : SM unit :=
  match l with
  | [] => mret tt
  | p :: l' =>
      player ← players_at (fd p);
      _ ← flush_client (length (messages player)) (fd p);
      flush_clients l'
  end.
Definition reset_server : SM unit :=
  s ← get_state;
  _ ← flush_clients (tail (poll_fds s));
  modify (λ s, s <| trace ::= λ t, t ++ map (λ p, Closed (fd p)) (tail (poll_fds s)) |>
                 <| poll_fds ::= take 1 |> <| client_buffers := ∅ |>
                 <| now ::= λ t, t + constants.reset_delay |>).

(** What the main loop reads through its reference [pollfd] to element [i] after
    [handle_read_from_client], which gave back the index [i']. When the two differ the element was
    erased, which makes the reference invalid: using it is undefined. *)
Definition poll_slot (i i' : Z) : SM pollfd := if i' =? i then poll_fd_at i else fail Undef.

(** The loop over the client sockets. *)
Fixpoint client_loop (fuel : nat) (i : Z) : SM unit :=
  s ← get_state;
  if negb (i <? Z.of_nat (length (poll_fds s))) then mret tt
  else
    match fuel with
    | O => fail Diverge
    | S fuel' =>
        p ← poll_fd_at i;
        if has_flag (revents p) POLLHUP then
          _ ← getClientPlayerID (fd p);
          i' ← disconnect_client (fd p) i; client_loop fuel' (wrap 64 (i' + 1))
        else
          '(connected, i') ←
            (if has_flag (revents p) (Z.lor POLLIN POLLERR) then handle_read_from_client i
             else mret (true, i));
          if negb (connected : bool) then client_loop fuel' (wrap 64 (i' + 1))
          else
            stop ← is_stopping;
            if (stop : bool) then mret tt
            else
              p' ← poll_slot i i';
              if has_flag (revents p') POLLOUT then
                '(_, i'') ← handle_write_to_client i';
                client_loop fuel' (wrap 64 (i'' + 1))
              else client_loop fuel' (wrap 64 (i' + 1))
    end.

(** Ask for [POLLOUT] on the sockets with pending messages. *)
Fixpoint request_writes (l : list pollfd) : SM (list pollfd) :=
  match l with
  | [] => mret []
  | p :: l' =>
      pending ← has_pending_messages (fd p);
      rest ← request_writes l';
      mret ((if (pending : bool) then p <| pevents ::= λ e, Z.lor e POLLOUT |> else p) :: rest)
  end.

(** One turn of the main loop. [poll_result] is the [revents] that [poll] writes, [None]
    when it fails; [time] is the clock after it. *)
Definition set_revents (l : list pollfd) (rs : list Z) : list pollfd :=
  imap (λ i p, p <| revents := default 0 (rs !! i) |>) l.
Definition main_step (poll_result : option (list Z)) (time : Z) : SM unit :=
  match poll_result with
  | None => fail Exit
  | Some rs =>
      _ ← modify (λ s, s <| poll_fds ::= λ l, set_revents l rs |> <| now := time |>);
      stop ← is_stopping;
      if (stop : bool) then _ ← reset_server; reset
      else
        _ ← check_timers;
        s ← get_state;
        rest ← request_writes (tail (poll_fds s));
        _ ← modify (λ s, s <| poll_fds ::= λ l, take 1 l ++ rest |>);
        if forallb (λ r, r =? 0) rs then mret tt
        else
          listening ← poll_fd_at 0;
          _ ← (if has_flag (revents listening) POLLIN then handle_new_connection else mret tt);
          s ← get_state;
          client_loop (length (poll_fds s)) 1
  end.
End SystemCalls.

(** ** The process *)

(** The state of [main] when it reaches its loop. *)
Definition initial_server (k n m : Z) (file : str) (listening_fd time : Z) : Server :=
  {| K := k; N := n; M_ := m; total_correct_puts := 0; coeff_file := file; players := ∅;
     stopping := false; events := [];
     poll_fds := [{| fd := listening_fd; pevents := POLLIN; revents := 0 |}];
     client_buffers := ∅; now := time; trace := [] |}.

(** What the system calls of one turn of the loop return. *)
Record Turn := {
  turn_accept : AcceptResult;
  turn_recv : nat → Z → option str;
  turn_send : nat → Z → str → Z;
  turn_poll : option (list Z);
  turn_time : Z }.
Definition run_turn (t : Turn) : SM unit :=
  main_step (turn_accept t) (turn_recv t) (turn_send t) (turn_poll t) (turn_time t).
