(* ===== verification/Rules.v ===== *)
(** * The rules of a game do not change

    No step of the server changes the numbers of its command line: the points, the degree of the
    polynomials and the number of puts of a game. *)
From Stdlib Require Import Ascii String SpecFloat.
From S2P Require Import Prelude CString Double Constants MsgParser ServerState ServerLogic Server.

(** The three numbers of the command line. *)
Definition same_rules (s s' : Server) : Prop := K s' = K s ∧ N s' = N s ∧ M_ s' = M_ s.
#[local] Instance same_rules_preorder : PreOrder same_rules.
Proof. split; [by intros s|]. intros s1 s2 s3 (H1 & H2 & H3) (H4 & H5 & H6). split_and!; congruence. Qed.
Abbreviation keeps_rules := (preserves any_failure same_rules).
Ltac rules_tac := preserves_tac ltac:(done).

(** ** The game *)
Lemma rules_players_ref f : keeps_rules (players_ref f).
Proof. unfold players_ref. rules_tac. Qed.
Lemma rules_players_at f : keeps_rules (players_at f).
Proof. unfold players_at. rules_tac. Qed.
#[local] Hint Resolve rules_players_ref rules_players_at : preserves_db.
Lemma rules_update f g : keeps_rules (update_player f g).
Proof. unfold update_player. rules_tac. Qed.
Lemma rules_event cb d : keeps_rules (EventManager.add_event cb d).
Proof. unfold EventManager.add_event. rules_tac. Qed.
Lemma rules_getters f : keeps_rules (getClientPlayerID f) ∧ keeps_rules (getClientIP f) ∧ keeps_rules (getClientPort f) ∧
  keeps_rules (getPlayerInfo f) ∧ keeps_rules is_stopping.
Proof. unfold getClientPlayerID, getClientIP, getClientPort, getPlayerInfo, is_stopping. split_and!; rules_tac. Qed.
#[local] Hint Resolve rules_update rules_event : preserves_db.
#[local] Hint Extern 1 (keeps_rules (getClientPlayerID _)) => apply rules_getters : preserves_db.
#[local] Hint Extern 1 (keeps_rules (getClientIP _)) => apply rules_getters : preserves_db.
#[local] Hint Extern 1 (keeps_rules (getClientPort _)) => apply rules_getters : preserves_db.
#[local] Hint Extern 1 (keeps_rules (getPlayerInfo _)) => apply rules_getters : preserves_db.
#[local] Hint Extern 1 (keeps_rules is_stopping) => apply (rules_getters 0) : preserves_db.
Lemma rules_append f m : keeps_rules (append_message_back f m) ∧ keeps_rules (append_message_front f m).
Proof. split; apply rules_update. Qed.
#[local] Hint Extern 1 (keeps_rules (append_message_back _ _)) => apply rules_append : preserves_db.
#[local] Hint Extern 1 (keeps_rules (append_message_front _ _)) => apply rules_append : preserves_db.
Lemma rules_append_all fds m : keeps_rules (append_all fds m).
Proof. induction fds as [|f fds IH]; cbn [append_all]; rules_tac; apply IH. Qed.
#[local] Hint Resolve rules_append_all : preserves_db.
Lemma rules_game_over : keeps_rules game_over.
Proof. unfold game_over, send_scoring_messages, deref. rules_tac. Qed.
#[local] Hint Resolve rules_game_over : preserves_db.
Lemma rules_put f i v : keeps_rules (handle_put f i v).
Proof. unfold handle_put, respond_with_penalty, respond_with_bad_put, respond_with_state, add_to_approximation, deref. rules_tac. Qed.
Lemma rules_hello f name : keeps_rules (handle_hello f name).
Proof. unfold handle_hello. rules_tac. Qed.
#[local] Hint Resolve rules_put rules_hello : preserves_db.

(** ** The loop *)
Lemma rules_disconnect f i : keeps_rules (disconnect_client f i).
Proof. unfold disconnect_client, handle_client_disconnect, erase_poll_fd. rules_tac. Qed.
#[local] Hint Resolve rules_disconnect : preserves_db.
Lemma rules_callback cb : keeps_rules (run_callback cb).
Proof. unfold run_callback, deref. rules_tac. Qed.
#[local] Hint Resolve rules_callback : preserves_db.
Lemma rules_timers fuel time : keeps_rules (check_timers_loop fuel time).
Proof. induction fuel as [|fuel IH]; cbn [check_timers_loop]; rules_tac; apply IH. Qed.
Lemma rules_line f line : keeps_rules (deliver_line f line).
Proof. unfold deliver_line, handle_client_message. rules_tac. Qed.
#[local] Hint Resolve rules_timers rules_line : preserves_db.
Lemma rules_read_loop fuel f i : keeps_rules (read_loop fuel f i).
Proof. induction fuel as [|fuel IH]; cbn [read_loop]; rules_tac; apply IH. Qed.
#[local] Hint Resolve rules_read_loop : preserves_db.
Lemma rules_pending f : keeps_rules (has_pending_messages f).
Proof. unfold has_pending_messages. rules_tac. Qed.
Lemma rules_next f : keeps_rules (take_next_message_str f).
Proof. unfold take_next_message_str. rules_tac. Qed.
Lemma rules_sigpipe v : keeps_rules (raise_sigpipe v).
Proof. unfold raise_sigpipe. rules_tac. Qed.
Lemma rules_poll_fd i : keeps_rules (poll_fd_at i).
Proof. unfold poll_fd_at. rules_tac. Qed.
#[local] Hint Resolve rules_pending rules_next rules_sigpipe rules_poll_fd : preserves_db.
Lemma rules_slot i i' : keeps_rules (poll_slot i i').
Proof. unfold poll_slot. rules_tac. Qed.
#[local] Hint Resolve rules_slot : preserves_db.
Lemma rules_read recv i : keeps_rules (handle_read_from_client recv i).
Proof. unfold handle_read_from_client. rules_tac. Qed.
Lemma rules_write send i : keeps_rules (handle_write_to_client send i).
Proof. unfold handle_write_to_client, set_poll_fd. rules_tac. Qed.
#[local] Hint Resolve rules_read rules_write : preserves_db.
Lemma rules_flush send fuel f : keeps_rules (flush_client send fuel f).
Proof. induction fuel as [|fuel IH]; cbn [flush_client]; rules_tac; apply IH. Qed.
#[local] Hint Resolve rules_flush : preserves_db.
Lemma rules_flushes send l : keeps_rules (flush_clients send l).
Proof. induction l as [|p l IH]; cbn [flush_clients]; rules_tac; apply IH. Qed.
Lemma rules_client_loop recv send fuel i : keeps_rules (client_loop recv send fuel i).
Proof. revert i. induction fuel as [|fuel IH]; intros i; cbn [client_loop]; rules_tac; apply IH. Qed.
Lemma rules_requests l : keeps_rules (request_writes l).
Proof. induction l as [|p l IH]; cbn [request_writes]; rules_tac; apply IH. Qed.
#[local] Hint Resolve rules_flushes rules_client_loop rules_requests : preserves_db.

Lemma rules_turn t : keeps_rules (run_turn t).
Proof.
  unfold run_turn, main_step, reset_server, reset, EventManager.reset, check_timers, handle_new_connection,
    register_new_client. rules_tac.
Qed.
Lemma run_turn_rules t s s' : run_turn t s = Ret (tt, s') → same_rules s s'.
Proof. intros Hr. pose proof (rules_turn t s) as H. unfold wp in H. by rewrite Hr in H. Qed.
