(* ===== verification/Handlers.v ===== *)
(** * The handlers of the server, computed

    Every handler of [ServerLogic] is computed symbolically, branch by branch: its result
    and the state it leaves, as an explicit update of the state it started from. The other
    files reason about these updates instead of the monadic code. *)
From Stdlib Require Import Ascii String SpecFloat.
From S2P Require Import Prelude CString Double Constants MsgParser ServerState ServerLogic Server.

Create HintDb server_db discriminated.
Create HintDb server_run discriminated.

(** ** Symbolic execution *)
Definition set_player (client_fd : Z) (p : PlayerInfo) (s : Server) : Server :=
  s <| players ::= <[client_fd := p]> |>.
Definition player_of (s : Server) (client_fd : Z) (p : PlayerInfo) : Prop :=
  players s !! client_fd = Some p.

Lemma player_of_set fd p s : player_of (set_player fd p s) fd p.
Proof. apply lookup_insert_eq. Qed.

Lemma set_player_twice fd p q s : set_player fd q (set_player fd p s) = set_player fd q s.
Proof. unfold set_player. simpl. by rewrite insert_insert_eq. Qed.

Lemma players_at_ret fd p s : player_of s fd p → players_at fd s = Ret (p, s).
Proof. unfold player_of, players_at, mbind, M_bind, get_state, from_opt. by intros ->. Qed.
Lemma players_ref_ret fd p s : player_of s fd p → players_ref fd s = Ret (p, s).
Proof. unfold player_of, players_ref, mbind, M_bind, get_state. by intros ->. Qed.
Lemma update_player_ret fd p f s :
  player_of s fd p → update_player fd f s = Ret (tt, set_player fd (f p) s).
Proof. intros H. unfold update_player. by rewrite (bind_ret _ _ _ _ _ (players_ref_ret _ _ _ H)). Qed.
Lemma getClientIP_ret fd p s : player_of s fd p → getClientIP fd s = Ret (ip p, s).
Proof. intros H. unfold getClientIP. by rewrite (bind_ret _ _ _ _ _ (players_at_ret _ _ _ H)). Qed.
Lemma getClientPort_ret fd p s : player_of s fd p → getClientPort fd s = Ret (port p, s).
Proof. intros H. unfold getClientPort. by rewrite (bind_ret _ _ _ _ _ (players_at_ret _ _ _ H)). Qed.
Lemma getClientPlayerID_ret fd p s : player_of s fd p → getClientPlayerID fd s = Ret (id p, s).
Proof. intros H. unfold getClientPlayerID. by rewrite (bind_ret _ _ _ _ _ (players_at_ret _ _ _ H)). Qed.
Lemma append_message_back_ret fd p msg s :
  player_of s fd p →
  append_message_back fd msg s = Ret (tt, set_player fd (p <| messages ::= λ l, l ++ [msg] |>) s).
Proof. apply update_player_ret. Qed.
Lemma append_message_front_ret fd p msg s :
  player_of s fd p →
  append_message_front fd msg s = Ret (tt, set_player fd (p <| messages ::= cons msg |>) s).
Proof. apply update_player_ret. Qed.
Lemma has_pending_messages_ret fd p s :
  player_of s fd p → has_pending_messages fd s = Ret (negb (bool_decide (messages p = [])), s).
Proof. intros H. unfold has_pending_messages. by rewrite (bind_ret _ _ _ _ _ (players_at_ret _ _ _ H)). Qed.
Lemma deref_ret m (s : Server) : deref (Some m) s = Ret (m, s).
Proof. done. Qed.
Lemma take_next_message_ret fd p s m ms :
  player_of s fd p → messages p = m :: ms →
  take_next_message_str fd s = Ret (m, set_player fd (p <| messages := ms |>) s).
Proof.
  intros H Hm. unfold take_next_message_str.
  rewrite (bind_ret _ _ _ _ _ (players_at_ret _ _ _ H)), Hm. cbn [head].
  rewrite (bind_ret _ _ s m s) by done.
  rewrite (bind_ret _ _ _ _ _ (update_player_ret _ _ _ _ H)).
  destruct p. simpl in *. by subst.
Qed.

#[export] Hint Resolve player_of_set : server_db.
#[export] Hint Resolve players_at_ret players_ref_ret update_player_ret getClientIP_ret
  getClientPort_ret getClientPlayerID_ret append_message_back_ret append_message_front_ret
  has_pending_messages_ret deref_ret : server_run.

(** Run the first action of a goal [(m ≫= k) s = _] by the database. *)
Ltac run_step :=
  first
    [ erewrite bind_ret by (eauto with server_run server_db)
    | rewrite (bind_ret get_state _ _ _ _ eq_refl)
    | rewrite (bind_ret (modify _) _ _ _ _ eq_refl)
    | rewrite (bind_ret (mret _) _ _ _ _ eq_refl) ]; cbv beta.

(** ** [EventManager] *)
Lemma deadline_swo : StrictWeakOrder EventManager.deadline_lt.
Proof. unfold EventManager.deadline_lt. split; intros; lia. Qed.
#[export] Existing Instance deadline_swo.

(** ** Scores: no overflow *)
Lemma dzero_dabs j b : dabs_le j b dzero.
Proof. by split. Qed.

Lemma pow_double x j :
  0 ≤ x < 2 ^ 14 → (j ≤ 9)%nat →
  ∀ d, dabs_le 1 (14 * Z.of_nat j) d → dabs_le 1 (14 * Z.of_nat (S j)) (dmul d (double_of_Z x)).
Proof.
  intros Hx Hj d Hd. replace (14 * Z.of_nat (S j)) with (14 * Z.of_nat j + 14) by lia.
  change 1 with (1 * 1). apply dmul_dabs; [unfold dbound; lia|lia|lia|done|].
  apply double_of_Z_dabs; [unfold dbound; lia|lia|]. lia.
Qed.

Lemma poly_loop_ret coeffs x fuel i result x_pow :
  0 ≤ x < 2 ^ 14 → Forall (dabs_le 101 0) coeffs → (i + fuel = length coeffs)%nat → (length coeffs ≤ 9)%nat →
  dabs_le (1 + Z.of_nat i) 119 result → dabs_le 1 (14 * Z.of_nat i) x_pow →
  ∃ r, poly_loop coeffs x fuel i result x_pow = Ret r ∧ dabs_le 10 119 r.
Proof.
  intros Hx Hc. revert i result x_pow. induction fuel as [|fuel IH]; intros i result x_pow Hi Hl Hr Hp.
  { exists result. split; [done|]. apply (dabs_le_mono (1 + Z.of_nat i)); [lia|done]. }
  cbn [poly_loop]. destruct (coeffs !! i) as [c|] eqn:Hci; [|apply lookup_ge_None in Hci; lia].
  cbn [from_option_or mbind outcome_bind]. apply IH; [lia|done| |apply pow_double; [done|lia|done]].
  replace (1 + Z.of_nat (S i)) with ((1 + Z.of_nat i) + 1) by lia.
  apply dadd_dabs; [unfold dbound; lia|lia|lia|done|].
  apply (dabs_le_shift _ (7 + 14 * Z.of_nat i)); [lia|lia|]. change 1 with (1 * 1).
  apply dmul_dabs; [unfold dbound; lia|lia|lia| |done].
  rewrite Forall_forall in Hc. assert (c ∈ coeffs) as Hin by (by eapply list_elem_of_lookup_2).
  specialize (Hc c Hin). replace 7 with (0 + 7) by lia.
  by apply (dabs_le_rescale 101); [lia|lia|].
Qed.

Lemma player_poly_at_ret n p x :
  0 ≤ x < 2 ^ 14 → 0 ≤ n ≤ 8 → Forall (dabs_le 101 0) (coefficients p) →
  length (coefficients p) = Z.to_nat (n + 1) →
  ∃ r, player_poly_at n p x = Ret r ∧ dabs_le 10 119 r.
Proof.
  intros Hx Hn Hc Hl. apply poly_loop_ret; [done|done|lia|lia| |].
  - apply dzero_dabs.
  - apply double_of_Z_dabs; [unfold dbound; lia|lia|lia].
Qed.

Definition square_bound (x : nat) (d : double) : Prop := dabs_le (1 + Z.of_nat x) 248 d.
Lemma score_loop_ret n p fuel x score :
  0 ≤ n ≤ 8 → Forall (dabs_le 101 0) (coefficients p) →
  length (coefficients p) = Z.to_nat (n + 1) →
  Forall (dabs_le 1 123) (approximations p) → (x + fuel = length (approximations p))%nat →
  Z.of_nat (length (approximations p)) ≤ 10001 → square_bound x score →
  ∃ r, score_loop n p fuel x score = Ret r ∧ square_bound (x + fuel) r.
Proof.
  intros Hn Hc Hlc Ha. revert x score. induction fuel as [|fuel IH]; intros x score Hx Hla Hs.
  { exists score. by rewrite Nat.add_0_r. }
  cbn [score_loop].
  destruct (player_poly_at_ret n p (Z.of_nat x)) as (r & -> & Hr); [lia|done..|].
  destruct (approximations p !! x) as [a|] eqn:Hax; [|apply lookup_ge_None in Hax; lia].
  cbn [from_option_or mbind outcome_bind]. replace (x + S fuel)%nat with (S x + fuel)%nat by lia.
  apply IH; [lia|done|]. unfold square_bound.
  replace (1 + Z.of_nat (S x)) with ((1 + Z.of_nat x) + 1) by lia.
  apply dadd_dabs; [unfold dbound; lia|lia|lia|done|].
  assert (dabs_le 1 (123 + 1) (dsub r a)) as Hd.
  { apply (dabs_le_rescale 2 1 123 1); [lia|lia|]. change 2 with (1 + 1).
    apply dsub_dabs; [unfold dbound; lia|lia|lia| |].
    - by apply (dabs_le_rescale 10 1 119 4).
    - rewrite Forall_forall in Ha. apply Ha. by eapply list_elem_of_lookup_2. }
  change 1 with (1 * 1) at 1. change 248 with ((123 + 1) + (123 + 1)).
  by apply dmul_dabs; [unfold dbound; lia|lia|lia|..].
Qed.

Lemma calculate_score_ret k n p :
  0 ≤ k ≤ 10000 → 0 ≤ n ≤ 8 → Forall (dabs_le 101 0) (coefficients p) →
  length (coefficients p) = Z.to_nat (n + 1) →
  Forall (dabs_le 1 123) (approximations p) → length (approximations p) = Z.to_nat (k + 1) →
  dabs_le 2 57 (penalty p) →
  ∃ r, calculate_score k n p = Ret r ∧ printable r.
Proof.
  intros Hk Hn Hc Hlc Ha Hla Hp. unfold calculate_score.
  destruct (score_loop_ret n p (Z.to_nat (k + 1)) 0 (double_of_Z 0)) as (r & -> & Hr); [done..| | | |].
  - lia.
  - lia.
  - apply dzero_dabs.
  - cbn [mbind outcome_bind]. eexists. split; [done|].
    assert (dabs_le ((1 + Z.of_nat (0 + Z.to_nat (k + 1))) + 2) 248 (dadd r (penalty p))) as Hd.
    { apply dadd_dabs; [unfold dbound; lia|lia|lia|done|]. by apply (dabs_le_shift _ 57). }
    split; [by eapply dabs_le_valid|by eapply dabs_le_finite].
Qed.

(** ** Parsed messages are well formed *)
Definition body_ok (b : Body) : Prop :=
  match b with
  | HelloMessage player_id => player_name player_id
  | PutMessage point value => in_s 32 point ∧ printable value
  | CoeffMessage coeffs => Forall (dabs_le 101 0) coeffs
  | _ => True
  end.

Lemma coeff_in_range_dabs c : printable c → coeff_in_range c = true → dabs_le 101 0 c.
Proof.
  intros [Hv Hf] Hc. apply negb_true_iff, orb_false_iff in Hc as [Hlo Hhi].
  by eapply (within_threshold 100 46); [split; lia|lia|vm_compute; reflexivity..| | | |].
Qed.

Lemma in_range_dabs k point value :
  printable value → put_out_of_range k point value = false → dabs_le 6 0 value ∧ 0 ≤ point ≤ k.
Proof.
  intros [Hv Hf]. unfold put_out_of_range. rewrite !orb_false_iff. intros [[[H1 H2] Hlo] Hhi].
  split; [|lia].
  by eapply (within_threshold 5 50); [split; lia|lia|vm_compute; reflexivity..| | | |].
Qed.

Lemma parse_command_inv cmd pm :
  parse_command cmd = Some pm →
  pm = HelloMessage_parseMessage ∨ pm = CoeffMessage_parseMessage ∨ pm = PutMessage_parseMessage ∨
  pm = BadPutMessage_parseMessage ∨ pm = StateMessage_parseMessage ∨
  pm = PenaltyMessage_parseMessage ∨ pm = ScoringMessage_parseMessage.
Proof. unfold parse_command. repeat case_bool_decide; intros [= <-]; tauto. Qed.

Lemma pair_parse_ok k ps b :
  pair_parseMessage k ps = Some b →
  ∃ p v, b = k p v ∧ in_s 32 p ∧ printable v.
Proof.
  unfold pair_parseMessage, validateIntDoublePair. destruct ps as [|s0 [|s1 [|]]]; try done.
  destruct (parseInteger s0) as [p|] eqn:Hp; [|done].
  destruct (parseDouble s1) as [v|] eqn:Hv; [|done]. intros [= <-]. exists p, v.
  apply parseDouble_valid in Hv. split; [done|]. split; [|done].
  assert (isValidIntegerStringFormat s0 = true) as Hf
    by (unfold parseInteger in Hp; by destruct (isValidIntegerStringFormat s0)).
  apply int_format_spec in Hf as (neg & ds & Hne & Hds & ->).
  rewrite parseInteger_text in Hp by done. cbv zeta in Hp.
  destruct (in_sb 32 _) eqn:Hin in Hp; [|done]. injection Hp as <-. by apply in_sb_spec.
Qed.

Lemma coeff_parse_ok ps b :
  CoeffMessage_parseMessage ps = Some b → ∃ coeffs, b = CoeffMessage coeffs ∧ Forall (dabs_le 101 0) coeffs.
Proof.
  unfold CoeffMessage_parseMessage. destruct (_ || _); [done|].
  destruct (mapM _ ps) as [coeffs|] eqn:Hm; [|done]. intros [= <-]. exists coeffs. split; [done|].
  apply mapM_Some in Hm. clear -Hm. induction Hm as [|p c ps coeffs Hpc _ IH]; constructor; [|done].
  destruct (parseDouble p) as [d|] eqn:Hd; [|done]. cbn [mbind option_bind] in Hpc.
  destruct (coeff_in_range d) eqn:Hr; [|done]. injection Hpc as <-.
  apply coeff_in_range_dabs; [by eapply parseDouble_valid|done].
Qed.

Lemma createMessage_ok line m : createMessage line = Some m → body_ok (body m).
Proof.
  unfold createMessage. destruct (_ || _); [done|].
  destruct (extractCommandAndParams _) as [[cmd ps]|]; [|done]; cbn [mbind option_bind].
  destruct (splitParams ps) as [ws|] eqn:Hws; [|done]; cbn [mbind option_bind].
  apply splitParams_words in Hws as [Hws _].
  destruct (parse_command cmd) as [pm|] eqn:Hpm; [|done]; cbn [mbind option_bind].
  destruct (pm ws) as [b|] eqn:Hb; [|done]. intros [= <-]. cbn [body].
  apply parse_command_inv in Hpm as [-> |[-> |[-> |[-> |[-> |[-> | ->]]]]]].
  - destruct ws as [|w [|]]; try done. simpl in Hb. destruct (isAlphanumeric w) eqn:Ha; [|done].
    injection Hb as <-. apply Forall_cons in Hws as [[Hw _] _]. by split.
  - by apply coeff_parse_ok in Hb as (coeffs & -> & H).
  - by apply pair_parse_ok in Hb as (p & v & -> & H).
  - by apply pair_parse_ok in Hb as (p & v & -> & H).
  - unfold StateMessage_parseMessage in Hb. destruct (_ || _); [done|].
    destruct (mapM _ ws); [|done]. by injection Hb as <-.
  - by apply pair_parse_ok in Hb as (p & v & -> & H).
  - unfold ScoringMessage_parseMessage in Hb. destruct (scoring_pairs ws); [|done].
    by injection Hb as <-.
Qed.

(** ** Functional behaviour of the handlers *)
Definition schedule (deadline : Z) (callback : Callback) (s : Server) : Server :=
  s <| events ::= ordered_insert EventManager.deadline_lt (deadline, callback) |>.
Definition queue_message (msg : str) (p : PlayerInfo) : PlayerInfo := p <| messages ::= λ l, l ++ [msg] |>.
Definition penalise (n : Z) (p : PlayerInfo) : PlayerInfo :=
  p <| penalty ::= λ x, dadd x (double_of_Z n) |>.

(** The lines sent to players. *)
Definition pair_line (command : str) (point : Z) (value : double) : str :=
  command ++ space :: to_string point ++ space :: doubleToString value ++ crlf.
Definition state_line (approx_values : list double) : str :=
  lit "STATE" ++ space :: join (map doubleToString approx_values) ++ crlf.

Ltac solve_player :=
  unfold player_of, set_player, schedule in *; simpl;
  first [eassumption | rewrite ?insert_insert_eq, lookup_insert_eq; reflexivity].
(** A field that the updates did not touch. *)
Ltac same_field f s :=
  repeat match goal with |- context [f ?t] => progress change (f t) with (f s) end.
#[export] Hint Extern 2 (player_of _ _ _) => solve_player : server_db.

Lemma respond_with_penalty_ret fd p point value s :
  player_of s fd p → in_s 32 point → printable value →
  respond_with_penalty fd point value s =
    Ret (tt, set_player fd (queue_message (pair_line (lit "PENALTY") point value)
               (penalise constants.early_put_penalty p <| can_put := true |>)) s).
Proof.
  intros Hp Hpt Hv. unfold respond_with_penalty.
  destruct (pair_message_some (lit "PENALTY") PenaltyMessage_parseMessage PenaltyMessage point value
    command_penalty) as (m & v & Hm & _ & _ & Hraw); [done..|].
  change (pair_message (lit "PENALTY" ++ [space])) with PenaltyMessage_createMessage in Hm.
  run_step. rewrite Hm. run_step. rewrite Hraw.
  rewrite (append_message_back_ret _ _ _ _ (player_of_set _ _ _)), set_player_twice. done.
Qed.

Lemma respond_with_bad_put_ret fd p point value s :
  player_of s fd p →
  respond_with_bad_put fd point value s =
    Ret (tt, schedule (now s + constants.bad_put_delay) (CbBadPut fd point value (ip p) (port p) (id p))
               (set_player fd (penalise constants.bad_put_penalty p) s)).
Proof. intros Hp. unfold respond_with_bad_put. by do 5 run_step. Qed.

Lemma respond_with_state_ret fd p msg s :
  player_of s fd p →
  respond_with_state fd msg s =
    Ret (tt, schedule (now s + delay p * 1000) (CbState fd msg (ip p) (port p) (id p)) s).
Proof. intros Hp. unfold respond_with_state. by do 5 run_step. Qed.

Lemma getline_eq f : getline f = (fst (getline f), snd (getline f)).
Proof. by destruct (getline f). Qed.

(** [handle_hello] of an unknown player. *)
Definition named (player_id : str) (p : PlayerInfo) : PlayerInfo :=
  p <| id := player_id |> <| delay := Z.of_nat (length (List.filter islower player_id)) |>
    <| is_known := true |> <| can_put := true |>.
Lemma handle_hello_known fd p player_id s :
  player_of s fd p → is_known p = true → handle_hello fd player_id s = Ret (false, s).
Proof. intros Hp Hk. unfold handle_hello. run_step. by rewrite Hk. Qed.

Lemma handle_hello_run fd p player_id s :
  player_of s fd p → is_known p = false →
  handle_hello fd player_id s =
    match createMessage (fst (getline (coeff_file s)) ++ [lf]) with
    | None => Fail Exit
    | Some m =>
        match body m with
        | CoeffMessage coeffs =>
            Ret (true, set_player fd (queue_message (raw_message m)
              (named player_id p <| coefficients := coeffs |>))
              (s <| coeff_file := snd (getline (coeff_file s)) |>))
        | _ => Fail Undef
        end
    end.
Proof.
  intros Hp Hk. unfold handle_hello. run_step. rewrite Hk. run_step. run_step. same_field coeff_file s.
  rewrite (getline_eq (coeff_file s)). cbn [fst snd]. run_step.
  destruct (createMessage _) as [m|]; [|done]. destruct (body m); try done.
  run_step. run_step. unfold mret, M_ret. do 2 f_equal.
  unfold set_player. simpl. by rewrite !insert_insert_eq.
Qed.

(** [handle_put], branch by branch. *)
Definition approximated (point : Z) (value : double) (p : PlayerInfo) : list double :=
  match approximations p !! Z.to_nat point with
  | Some a => <[Z.to_nat point := dadd a value]> (approximations p)
  | None => approximations p
  end.
Definition credited (point : Z) (value : double) (p : PlayerInfo) : PlayerInfo :=
  p <| can_put := false |> <| correct_puts ::= Z.succ |> <| approximations := approximated point value p |>.
Definition after_good_put (fd point : Z) (value : double) (p : PlayerInfo) (s : Server) : Server :=
  schedule (now s + delay p * 1000)
    (CbState fd (state_line (approximated point value p)) (ip p) (port p) (id p))
    (set_player fd (credited point value p) (s <| total_correct_puts ::= Z.succ |>)).

Lemma handle_put_unknown fd p point value s :
  player_of s fd p → is_known p = false → handle_put fd point value s = Ret (false, s).
Proof. intros Hp Hk. unfold handle_put. run_step. by rewrite Hk. Qed.

Lemma handle_put_refused fd p point value s :
  player_of s fd p → is_known p = true → in_s 32 point → printable value →
  can_put p = false ∨ put_out_of_range (K s) point value = true →
  let p1 := if can_put p then p
            else queue_message (pair_line (lit "PENALTY") point value) (penalise 20 p) in
  handle_put fd point value s =
    Ret (false,
      if put_out_of_range (K s) point value then
        schedule (now s + 1000) (CbBadPut fd point value (ip p) (port p) (id p))
          (set_player fd (penalise 10 (p1 <| can_put := false |>)) s)
      else set_player fd (p1 <| can_put := false |>) s).
Proof.
  intros Hp Hk Hpt Hv Href p1. unfold handle_put. run_step. rewrite Hk.
  destruct (can_put p) eqn:Hc; cbn [negb].
  - destruct Href as [|Hbad]; [done|]. run_step. run_step. run_step. same_field K s.
    rewrite Hbad. erewrite (bind_ret _ _ _ true); cycle 1.
    { erewrite bind_ret; [reflexivity|]. apply respond_with_bad_put_ret, player_of_set. }
    simpl. unfold mret, M_ret. by rewrite set_player_twice.
  - erewrite (bind_ret _ _ _ true); cycle 1.
    { erewrite bind_ret; [reflexivity|]. by apply respond_with_penalty_ret. }
    run_step. rewrite set_player_twice. run_step. same_field K s.
    destruct (put_out_of_range (K s) point value) eqn:Hbad.
    + erewrite (bind_ret _ _ _ true); cycle 1.
      { erewrite bind_ret; [reflexivity|]. apply respond_with_bad_put_ret, player_of_set. }
      simpl. unfold mret, M_ret. by rewrite set_player_twice.
    + by run_step.
Qed.

Lemma handle_put_accepted fd p point value s :
  player_of s fd p → is_known p = true → can_put p = true →
  put_out_of_range (K s) point value = false →
  (0 ≤ point < Z.of_nat (length (approximations p))) →
  Forall printable (approximated point value p) →
  Z.of_nat (length (approximations p)) ≤ constants.max_k + 1 →
  handle_put fd point value s =
    (_ ← (if M_ s <=? total_correct_puts s + 1 then game_over else mret tt); mret true)
      (after_good_put fd point value p s).
Proof.
  intros Hp Hk Hc Hin Hpt Hpr Hlen. unfold handle_put. run_step. rewrite Hk, Hc. cbn [negb].
  run_step. run_step. run_step. same_field K s. rewrite Hin. run_step. cbn [orb].
  run_step. rewrite set_player_twice. run_step.
  destruct (lookup_lt_is_Some_2 (approximations p) (Z.to_nat point)) as [a Ha]; [lia|].
  set (q := p <| can_put := false |> <| correct_puts ::= Z.succ |>).
  set (s1 := set_field total_correct_puts Z.succ (set_player fd q s)).
  assert (player_of s1 fd q) as Hq by (unfold s1; solve_player).
  assert (approximated point value p = <[Z.to_nat point := dadd a value]> (approximations p)) as Happ
    by (unfold approximated; by rewrite Ha).
  rewrite (bind_ret (add_to_approximation _ _ _) _ _ tt (set_player fd (credited point value p) s1)); cycle 1.
  { unfold add_to_approximation. run_step.
    rewrite (proj2 (Z.ltb_ge _ _)) by lia. unfold q at 1. simpl approximations. rewrite Ha.
    rewrite (bind_ret _ _ _ a s1) by done. rewrite (update_player_ret _ _ _ _ Hq).
    unfold credited. by rewrite Happ. }
  run_step. simpl approximations.
  destruct (StateMessage_some (approximated point value p) Hpr) as (m & l' & Hm & _ & _ & Hraw).
  { rewrite Happ, length_insert. unfold constants.max_k in *. lia. }
  rewrite Hm. rewrite (bind_ret _ _ _ m _) by done. fold (state_line (approximated point value p)) in Hraw.
  rewrite (bind_ret (lift_outcome _) _ _ (drop 6 (toRawString m)) (set_player fd (credited point value p) s1)); cycle 1.
  { unfold lift_outcome, substr_from. destruct (Nat.ltb_spec (length (toRawString m)) (length (lit "STATE "))) as [Hl|]; [|done].
    exfalso. unfold toRawString in Hl. rewrite Hraw in Hl. unfold state_line in Hl.
    rewrite length_take, !length_app in Hl. simpl in Hl. rewrite length_app in Hl. simpl in Hl. lia. }
  rewrite (bind_ret _ _ _ _ _ (respond_with_state_ret fd (credited point value p) _ _ (player_of_set _ _ _))).
  run_step. rewrite Hraw.
  assert (schedule (now (set_player fd (credited point value p) s1) + delay (credited point value p) * 1000)
    (CbState fd (state_line (approximated point value p)) (ip (credited point value p))
      (port (credited point value p)) (id (credited point value p)))
    (set_player fd (credited point value p) s1) = after_good_put fd point value p s) as ->.
  { unfold after_good_put, schedule, s1, set_player. simpl. by rewrite insert_insert_eq. }
  reflexivity.
Qed.

(** ** The end of the game *)

Lemma fd_lt_swo : StrictWeakOrder fd_lt.
Proof. unfold fd_lt. split; intros; lia. Qed.
#[export] Existing Instance fd_lt_swo.

Lemma elem_of_players_in_order s fd p : (fd, p) ∈ players_in_order s ↔ player_of s fd p.
Proof. unfold players_in_order. by rewrite ordered_sort_perm, elem_of_map_to_list. Qed.

Lemma elem_of_known_players s fd p :
  (fd, p) ∈ known_players s ↔ player_of s fd p ∧ is_known p = true.
Proof.
  unfold known_players. rewrite list_elem_of_In, filter_In, <-list_elem_of_In.
  by rewrite elem_of_players_in_order.
Qed.

Lemma known_players_nodup s : NoDup (map fst (known_players s)).
Proof.
  unfold known_players. apply (sublist_NoDup _ (map fst (players_in_order s))); cycle 1.
  - generalize (players_in_order s) as l. induction l as [|[fd p] l IH]; simpl; [constructor|].
    destruct (is_known p); simpl; [by apply sublist_skip|by apply sublist_cons].
  - unfold players_in_order. rewrite ordered_sort_perm. apply NoDup_fst_map_to_list.
Qed.

(** The players, each with a message queued when [P] holds of it. *)
Definition queue_for (P : Z → PlayerInfo → bool) (msg : str) (ps : gmap Z PlayerInfo) : gmap Z PlayerInfo :=
  map_imap (λ fd p, Some (if P fd p then queue_message msg p else p)) ps.
Definition with_players (ps : gmap Z PlayerInfo) (s : Server) : Server := s <| players := ps |>.

Lemma lookup_queue_for P msg ps fd :
  queue_for P msg ps !! fd = (λ p, if P fd p then queue_message msg p else p) <$> ps !! fd.
Proof. unfold queue_for. rewrite map_lookup_imap. by destruct (ps !! fd). Qed.

Lemma append_all_ret fds msg s :
  NoDup fds → (∀ fd, fd ∈ fds → is_Some (players s !! fd)) →
  append_all fds msg s =
    Ret (tt, with_players (queue_for (λ fd _, bool_decide (fd ∈ fds)) msg (players s)) s).
Proof.
  intros Hnd. revert s. induction Hnd as [|fd fds Hfd Hnd IH]; intros s Hfds; cbn [append_all].
  - unfold mret, M_ret. do 2 f_equal. destruct s. unfold with_players. simpl. f_equal.
    apply map_eq. intros fd. rewrite lookup_queue_for. by destruct (_ !! fd).
  - destruct (Hfds fd) as [p Hp]; [constructor|]. fold (player_of s fd p) in Hp. run_step.
    rewrite IH.
    + do 2 f_equal. unfold with_players, set_player. destruct s. simpl in *. f_equal.
      apply map_eq. intros fd'. rewrite !lookup_queue_for.
      destruct (decide (fd' = fd)) as [->|Hne].
      * rewrite lookup_insert_eq. unfold player_of in Hp. simpl in Hp. rewrite Hp. simpl.
        rewrite bool_decide_eq_false_2 by done. by rewrite bool_decide_eq_true_2 by constructor.
      * rewrite lookup_insert_ne by done. destruct (_ !! fd'); [simpl|done]. f_equal.
        rewrite (bool_decide_ext (fd' ∈ fd :: fds) (fd' ∈ fds)); [done|].
        rewrite elem_of_cons. split; [by intros [-> |]|auto].
    + intros fd' Hfd'. unfold set_player. simpl. destruct (decide (fd' = fd)) as [->|Hne].
      * rewrite lookup_insert_eq. by eexists.
      * rewrite lookup_insert_ne by done. apply Hfds. by constructor.
Qed.

Definition scoring_line (ids : list str) (scores : list double) : str :=
  lit "SCORING" ++ space ::
    join (concat (map score_words (ordered_sort player_score_lt (combine ids scores)))) ++ crlf.

Lemma mapM_outcome {A B} (f : A → outcome B) (P : B → Prop) l :
  (∀ x, x ∈ l → ∃ y, f x = Ret y ∧ P y) →
  ∃ ys, mapM f l = Ret ys ∧ Forall2 (λ x y, f x = Ret y) l ys ∧ Forall P ys.
Proof.
  induction l as [|x l IH]; intros H; [by exists []|].
  destruct (H x) as (y & Hy & HP); [constructor|].
  destruct IH as (ys & Hys & H2 & HPs); [intros; apply H; by constructor|].
  exists (y :: ys). split; [|by split; constructor]. simpl. rewrite Hy. simpl. by rewrite Hys.
Qed.

(** Everything [calculate_score] and the [SCORING] message need of a known player. *)
Definition scorable (s : Server) (p : PlayerInfo) : Prop :=
  player_name (id p) ∧
  Forall (dabs_le 101 0) (coefficients p) ∧ length (coefficients p) = Z.to_nat (N s + 1) ∧
  Forall (dabs_le 1 123) (approximations p) ∧ length (approximations p) = Z.to_nat (K s + 1) ∧
  dabs_le 2 57 (penalty p).

(** [game_over] sends every known player one [SCORING] line with the score of each, and
    sets [stopping]. *)
Lemma game_over_ret s :
  0 ≤ K s ≤ 10000 → 0 ≤ N s ≤ 8 →
  (∃ fd p, player_of s fd p ∧ is_known p = true) →
  (∀ fd p, player_of s fd p → is_known p = true → scorable s p) →
  ∃ scores,
    Forall2 (λ fp score, calculate_score (K s) (N s) (snd fp) = Ret score) (known_players s) scores ∧
    (∃ m, ScoringMessage_createMessage (map (λ fp, id (snd fp)) (known_players s)) scores = Some m ∧
       (∃ ids' scores', body m = ScoringMessage ids' scores') ∧
       raw_message m = scoring_line (map (λ fp, id (snd fp)) (known_players s)) scores) ∧
    game_over s = Ret (tt,
      with_players (queue_for (λ _ p, is_known p)
        (scoring_line (map (λ fp, id (snd fp)) (known_players s)) scores) (players s)) s
      <| stopping := true |>).
Proof.
  intros HK HN (fd0 & p0 & Hp0 & Hk0) Hall.
  destruct (mapM_outcome (λ fp : Z * PlayerInfo, calculate_score (K s) (N s) (snd fp)) printable
    (known_players s)) as (scores & Hm & H2 & Hpr).
  { intros [fd p] [Hp Hk]%elem_of_known_players.
    destruct (Hall fd p Hp Hk) as (_ & Hc & Hlc & Ha & Hla & Hpen). by apply calculate_score_ret. }
  exists scores. split; [done|].
  destruct (ScoringMessage_some (map (λ fp, id (snd fp)) (known_players s)) scores) as (m & l' & Hsm & Hbody & _ & Hraw).
  - rewrite length_map. by apply Forall2_length in H2.
  - intros Hnil%map_eq_nil. assert ((fd0, p0) ∈ known_players s) as Hin by (by apply elem_of_known_players).
    rewrite Hnil in Hin. by apply not_elem_of_nil in Hin.
  - apply Forall_map, Forall_forall. intros [fd p] [Hp Hk]%elem_of_known_players. by apply (Hall fd p Hp Hk).
  - done.
  - split; [by eauto 10|]. unfold game_over. erewrite bind_ret; [reflexivity|]. unfold send_scoring_messages. run_step.
    rewrite (bind_ret (lift_outcome _) _ _ scores s) by (unfold lift_outcome; by rewrite Hm).
    rewrite Hsm. rewrite (bind_ret _ _ _ m s) by done. fold (scoring_line (map (λ fp, id (snd fp)) (known_players s)) scores) in Hraw.
    rewrite Hraw. erewrite bind_ret; cycle 1.
    { apply append_all_ret; [apply known_players_nodup|].
      intros fd Hfd. apply list_elem_of_fmap in Hfd as ([fd' p] & -> & [Hp _]%elem_of_known_players). by eexists. }
    cbv beta. erewrite (bind_ret (lift_outcome _) _ _ (drop 8 (toRawString m))); cycle 1.
    { unfold lift_outcome, substr_from.
      destruct (Nat.ltb_spec (length (toRawString m)) (length (lit "SCORING "))) as [Hl|]; [|done].
      exfalso. unfold toRawString in Hl. rewrite Hraw in Hl. unfold scoring_line in Hl.
      rewrite length_take, !length_app in Hl. simpl in Hl. rewrite length_app in Hl. simpl in Hl. lia. }
    unfold mret, M_ret. do 2 f_equal. unfold with_players. destruct s. simpl in *. f_equal.
    apply map_eq. intros fd. rewrite !lookup_queue_for. destruct (_ !! fd) as [p|] eqn:Hp; [|done].
    simpl. f_equal. destruct (is_known p) eqn:Hk.
    + rewrite bool_decide_eq_true_2; [done|]. apply list_elem_of_fmap. exists (fd, p).
      split; [done|]. by apply elem_of_known_players.
    + rewrite bool_decide_eq_false_2; [done|]. intros Hin.
      apply list_elem_of_fmap in Hin as ([fd' p'] & -> & [Hp' Hk']%elem_of_known_players).
      unfold player_of in Hp'. simpl in *. congruence.
Qed.
