(* ===== verification/Framing.v ===== *)
(** * Messages as lines of a stream

    A message that was made by a factory function is one line; a stream of such messages, cut
    anywhere, gives the receiver exactly the first ones. *)
From Stdlib Require Import Ascii String.
From S2P Require Import Prelude CString Double Constants MsgParser Handlers.

Lemma find_crlf_line l t : cr ∉ l → find_str crlf (l ++ crlf ++ t) = Some (length l).
Proof.
  induction l as [|c l IH]; intros Hl; [done|]. apply not_elem_of_cons in Hl as [Hc Hl].
  cbn [app find_str]. replace (is_prefix crlf (c :: l ++ crlf ++ t)) with false.
  - by rewrite IH.
  - unfold crlf. cbn [is_prefix]. rewrite bool_decide_eq_false_2; [done|]. by intros <-.
Qed.

Lemma word_no_cr w : word w → cr ∉ w.
Proof.
  intros [_ Hw]. induction w as [|c w IH]; [by apply not_elem_of_nil|]. simpl in Hw. apply andb_true_iff in Hw as [Hc Hw].
  intros [<-|Hin]%elem_of_cons; [done|]. by apply (IH Hw).
Qed.
Lemma join_no_cr ws : Forall word ws → cr ∉ join ws.
Proof.
  induction 1 as [|w ws Hw Hws IH]; [by apply not_elem_of_nil|]. cbn [join]. apply word_no_cr in Hw.
  destruct ws; [done|]. rewrite elem_of_app, elem_of_cons. intros [H|[H|H]]; [done|done|by apply IH].
Qed.

(** What the parser accepts is a line without a carriage return, and its CRLF. *)
Lemma createMessage_line t m :
  createMessage t = Some m → raw_message m = t ∧ ∃ l, t = l ++ crlf ∧ cr ∉ l.
Proof.
  unfold createMessage. destruct (_ || _) eqn:Hcrlf; [done|]. apply orb_false_iff in Hcrlf as [_ Hcrlf].
  apply negb_false_iff, bool_decide_eq_true in Hcrlf. set (l := take (length t - 2) t) in *.
  destruct (extractCommandAndParams l) as [[cmd ps]|] eqn:Hl; [|done]; cbn [mbind option_bind].
  destruct (splitParams ps) as [ws|] eqn:Hws; [|done]; cbn [mbind option_bind].
  apply splitParams_words in Hws as [Hws Hps].
  destruct (parse_command cmd) as [pm|] eqn:Hpm; [|done]; cbn [mbind option_bind].
  destruct (pm ws) as [b|]; [|done]. intros [= <-]. split; [done|]. exists l.
  split; [unfold l; by rewrite <-Hcrlf, take_drop|].
  assert (cr ∉ cmd) as Hcmd.
  { unfold parse_command in Hpm. repeat case_bool_decide; try done; subst cmd;
      intros Hin; repeat (apply elem_of_cons in Hin as [Hin|Hin]; [done|]); by apply not_elem_of_nil in Hin. }
  unfold extractCommandAndParams in Hl. case_bool_decide; [done|].
  destruct (find_char space l) as [[|pos]|] eqn:Hpos; [done| |by injection Hl as -> <-].
  destruct (_ =? _)%nat; [done|]. injection Hl as Hcmdl Hpsl.
  apply find_str_some in Hpos. rewrite Hcmdl in Hpos. change (length [space]) with 1%nat in Hpos.
  change (S pos + 1)%nat with (S (pos + 1)) in Hpos. rewrite Hpsl in Hpos. rewrite Hpos, !elem_of_app, list_elem_of_singleton. intros [Hin|[Hin|Hin]]; [done|done|].
  rewrite Hps in Hin. by apply join_no_cr in Hin.
Qed.

(** The messages that the receiver makes of lines. *)
Definition read_lines (ls : list str) : option (list Message) := mapM (λ l, createMessage (l ++ crlf)) ls.
Definition made (m : Message) : Prop := createMessage (raw_message m) = Some m.

Lemma createMessageWithCRLF_made line m : createMessageWithCRLF line = Some m → made m.
Proof. unfold createMessageWithCRLF, made. intros H. by rewrite (proj1 (createMessage_line _ _ H)). Qed.

Lemma frames_of_messages ms :
  Forall made ms → ∃ ls, all_frames (concat (map raw_message ms)) = (ls, []) ∧ read_lines ls = Some ms.
Proof.
  induction 1 as [|m ms Hm Hms (ls & Hf & Hr)]; [by exists []|]. unfold made in Hm.
  destruct (createMessage_line _ _ Hm) as (_ & l & Hl & Hcr). exists (l :: ls). cbn [map concat]. rewrite Hl in *. split.
  - rewrite <-(assoc app), all_frames_unfold, find_crlf_line by done.
    replace (drop (length l + 2) (l ++ crlf ++ concat (map raw_message ms))) with (concat (map raw_message ms)).
    + rewrite Hf. by rewrite take_app_length.
    + rewrite (assoc app). by rewrite drop_app_length' by (rewrite length_app; done).
  - unfold read_lines in *. cbn [mapM]. rewrite Hm. cbn [mbind option_bind]. by rewrite Hr.
Qed.

Lemma read_lines_app ls ls' ms :
  read_lines (ls ++ ls') = Some ms → ∃ ms1, read_lines ls = Some ms1 ∧ ms1 `prefix_of` ms.
Proof.
  revert ms. induction ls as [|l ls IH]; intros ms; [intros _; exists []; split; [done|apply prefix_nil]|].
  unfold read_lines in *. cbn [app mapM]. destruct (createMessage (l ++ crlf)) as [m|]; [|done]. cbn [mbind option_bind].
  destruct (mapM _ (ls ++ ls')) as [ms'|] eqn:Hm; [|done]. intros [= <-].
  destruct (IH ms' eq_refl) as (ms1 & -> & Hp). exists (m :: ms1). split; [done|]. by apply prefix_cons.
Qed.

(** A stream of messages that is cut anywhere. *)
Lemma frames_of_prefix buf ms :
  Forall made ms → buf `prefix_of` concat (map raw_message ms) →
  ∃ ms1, read_lines (fst (all_frames buf)) = Some ms1 ∧ ms1 `prefix_of` ms.
Proof.
  intros Hms [rest Hrest]. destruct (frames_of_messages ms Hms) as (ls & Hf & Hr).
  rewrite Hrest, all_frames_app in Hf. injection Hf as Hls _. rewrite <-Hls in Hr. by apply read_lines_app in Hr.
Qed.
