(* ===== verification/Conversation.v ===== *)
(** * What the server says to a client, and what it does with its descriptors

    The record [trace] of what the server did to its sockets is checked against the life of a
    descriptor (accepted, used, closed), and everything said to a client against the protocol:
    nothing before its [HELLO], then its coefficients, then the answers to its puts, and at the
    end of the game the scores. [talks] states the second of what some [watched] descriptors were told
    since they were accepted, [fds_open] the first of a state of the server; the files after this
    one show that every step of the loop keeps them. *)
From Stdlib Require Import Ascii String SpecFloat.
From S2P Require Import Prelude CString Double Constants MsgParser ServerState ServerLogic Server Handlers Framing.

(** ** Descriptors *)

(** The descriptors of clients that are open after an output; [None] when it uses one that is
    not open, or opens one that is. *)
Definition use_fd (fds : gset Z) (o : Output) : option (gset Z) :=
  match o with
  | Accepted f => if decide (f ∈ fds) then None else Some ({[f]} ∪ fds)
  | Received f _ | Sent f _ => if decide (f ∈ fds) then Some fds else None
  | Closed f => if decide (f ∈ fds) then Some (fds ∖ {[f]}) else None
  end.
Fixpoint use_fds (fds : gset Z) (t : list Output) : option (gset Z) :=
  match t with
  | [] => Some fds
  | o :: t' => fds' ← use_fd fds o; use_fds fds' t'
  end.
(** The open descriptors are those of the players. *)
Definition fds_open (s : Server) : Prop := use_fds ∅ (trace s) = Some (dom (players s)).

Lemma use_fds_app fds t t' : use_fds fds (t ++ t') = use_fds fds t ≫= λ fds', use_fds fds' t'.
Proof.
  revert fds. induction t as [|o t IH]; intros fds; [done|]. cbn [app use_fds].
  destruct (use_fd fds o) as [fds'|]; [apply IH|done].
Qed.

Lemma fds_open_outputs s s' o :
  fds_open s → trace s' = trace s ++ o → use_fds (dom (players s)) o = Some (dom (players s')) → fds_open s'.
Proof. unfold fds_open. intros Hs -> Ho. rewrite use_fds_app, Hs. exact Ho. Qed.

Lemma fds_open_same s s' :
  trace s' = trace s → (∀ f, is_Some (players s' !! f) ↔ is_Some (players s !! f)) → fds_open s → fds_open s'.
Proof.
  unfold fds_open. intros -> Hp ->. f_equal. apply set_eq. intros f. by rewrite !elem_of_dom, Hp.
Qed.

Lemma use_fd_accepted fds f : f ∉ fds → use_fd fds (Accepted f) = Some ({[f]} ∪ fds).
Proof. intros Hf. unfold use_fd. by rewrite decide_False. Qed.
Lemma use_fd_sent fds f b : f ∈ fds → use_fd fds (Sent f b) = Some fds.
Proof. intros Hf. unfold use_fd. by rewrite decide_True. Qed.
Lemma use_fd_received fds f b : f ∈ fds → use_fd fds (Received f b) = Some fds.
Proof. intros Hf. unfold use_fd. by rewrite decide_True. Qed.
Lemma use_fd_closed fds f : f ∈ fds → use_fd fds (Closed f) = Some (fds ∖ {[f]}).
Proof. intros Hf. unfold use_fd. by rewrite decide_True. Qed.

(** Closing each of some open descriptors once. *)
Lemma use_fds_closed fds l :
  NoDup l → (∀ f, f ∈ l → f ∈ fds) → use_fds fds (map Closed l) = Some (fds ∖ list_to_set l).
Proof.
  intros Hnd. revert fds. induction Hnd as [|f l Hf Hnd IH]; intros fds Hl; simpl.
  { by rewrite difference_empty_L. }
  rewrite decide_True by (apply Hl; by left). simpl. rewrite IH.
  - by rewrite difference_difference_l_L.
  - intros g Hg. apply elem_of_difference. split; [apply Hl; by right|]. intros ->%elem_of_singleton. done.
Qed.

(** ** Bytes *)

(** The bytes given to the kernel on the connection that was last accepted on a descriptor, and
    with them the bytes still queued: everything the server said to the client. *)
Definition sent_to (client_fd : Z) (t : list Output) : str :=
  fold_left (λ acc o,
    match o with
    | Accepted f => if f =? client_fd then [] else acc
    | Sent f b => if f =? client_fd then acc ++ b else acc
    | Received _ _ | Closed _ => acc
    end) t [].
Definition said (s : Server) (client_fd : Z) (p : PlayerInfo) : str :=
  sent_to client_fd (trace s) ++ concat (messages p).

Lemma sent_to_snoc f t o :
  sent_to f (t ++ [o]) =
    match o with
    | Accepted f' => if f' =? f then [] else sent_to f t
    | Sent f' b => if f' =? f then sent_to f t ++ b else sent_to f t
    | Received _ _ | Closed _ => sent_to f t
    end.
Proof. unfold sent_to. by rewrite fold_left_app. Qed.

(** ** The protocol *)
Definition is_coeff (cs : list double) (m : Message) : Prop := body m = CoeffMessage cs.
Definition is_scoring (m : Message) : Prop := ∃ ids scores, body m = ScoringMessage ids scores.
Definition reply_body (b : Body) : Prop :=
  match b with BadPutMessage _ _ | StateMessage _ | PenaltyMessage _ _ => True | _ => False end.
Definition reply (m : Message) : Prop := reply_body (body m).
(** The replies that give the turn back. *)
Definition answer (m : Message) : Prop :=
  match body m with BadPutMessage _ _ | StateMessage _ => True | _ => False end.
Lemma answer_reply m : answer m → reply m.
Proof. unfold answer, reply. by destruct (body m). Qed.
(** A STATE with a value for each of the points [0..k]. *)
Definition state_of (k : Z) (m : Message) : Prop :=
  ∃ values, body m = StateMessage values ∧ Z.of_nat (length values) = k + 1.
(** The answer of each callback. *)
Definition answer_to (k : Z) (cb : Callback) (m : Message) : Prop :=
  match cb with
  | CbBadPut _ _ _ _ _ _ => ∃ point value, body m = BadPutMessage point value
  | CbState _ _ _ _ _ => state_of k m
  | CbHello _ _ _ => False
  end.
Lemma answer_to_answer k cb m : answer_to k cb m → answer m.
Proof. unfold answer. destruct cb; [by intros (? & ? & ->)|by intros (? & -> & _)|done]. Qed.

(** What a client with the coefficients [cs] is told; [over] at the end of the game. *)
Definition script (over : bool) (cs : list double) (ms : list Message) : Prop :=
  ∃ first replies last, ms = first :: replies ++ last ∧ is_coeff cs first ∧ Forall reply replies ∧
    if over then ∃ m, last = [m] ∧ is_scoring m else last = [].

Definition conversation (over : bool) (p : PlayerInfo) (bytes : str) : Prop :=
  if is_known p then
    ∃ ms, Forall made ms ∧ script over (coefficients p) ms ∧ bytes = concat (map raw_message ms)
  else bytes = [].

(** A line that is a message of some kind. *)
Definition line_of (kind : Message → Prop) (text : str) : Prop :=
  ∃ m, made m ∧ raw_message m = text ∧ kind m.

Lemma line_of_created kind line m : createMessage line = Some m → kind m → line_of kind (raw_message m).
Proof. intros Hm Hk. exists m. split; [|done]. unfold made. by rewrite (proj1 (createMessage_line _ _ Hm)). Qed.

Lemma line_of_mono (kind kind' : Message → Prop) text : (∀ m, kind m → kind' m) → line_of kind text → line_of kind' text.
Proof. intros Hk (m & Hm & Hraw & ?). exists m. auto. Qed.

Lemma line_of_nonempty kind text : line_of kind text → text ≠ [].
Proof.
  intros (m & Hm & <- & _) Hnil. unfold made in Hm. destruct (createMessage_line _ _ Hm) as (_ & l & Hl & _).
  rewrite Hnil in Hl. by destruct l.
Qed.

Lemma lines_of_messages kind texts :
  Forall (line_of kind) texts → ∃ ms, Forall made ms ∧ Forall kind ms ∧ texts = map raw_message ms.
Proof.
  induction 1 as [|text texts (m & Hm & <- & Hk) _ (ms & H1 & H2 & ->)]; [by exists []|].
  exists (m :: ms). split; [by constructor|]. by split; [constructor|].
Qed.

Lemma line_of_crlf kind line m : createMessageWithCRLF line = Some m → kind m → line_of kind (raw_message m).
Proof. apply line_of_created. Qed.

(** The lines that the server makes. *)
Lemma pair_line_of kind cmd pm k point value :
  command_chars cmd → parse_command cmd = Some pm → pm = pair_parseMessage k →
  (∀ m v, body m = k point v → kind m) →
  in_s 32 point → printable value → line_of kind (pair_line cmd point value).
Proof.
  intros Hcmd Hpm Hk Hr Hp Hv.
  destruct (pair_message_some cmd pm k point value) as (m & v & Hm & _ & Hb & Hraw); [done..|].
  unfold pair_line. rewrite <-Hraw. apply (line_of_crlf kind _ m Hm). by eapply Hr.
Qed.
Lemma bad_put_answer point value :
  in_s 32 point → printable value →
  line_of (λ m, ∃ point value, body m = BadPutMessage point value) (pair_line (lit "BAD_PUT") point value).
Proof. intros. apply (pair_line_of _ _ BadPutMessage_parseMessage BadPutMessage); try done. eauto. Qed.
Lemma penalty_reply point value :
  in_s 32 point → printable value → line_of reply (pair_line (lit "PENALTY") point value).
Proof.
  intros. apply (pair_line_of _ _ PenaltyMessage_parseMessage PenaltyMessage); try done.
  unfold reply. by intros m v ->.
Qed.

Lemma state_line_answer l :
  Forall printable l → 1 ≤ Z.of_nat (length l) ≤ constants.max_k + 1 →
  line_of (state_of (Z.of_nat (length l) - 1)) (state_line l).
Proof.
  intros Hl Hlen. destruct (StateMessage_some l Hl Hlen) as (m & l' & Hm & Hb & H2 & Hraw).
  unfold state_line. rewrite <-Hraw. unfold StateMessage_createMessage in Hm. case_bool_decide; [done|].
  eapply line_of_crlf; [exact Hm|]. exists l'. split; [done|]. rewrite (Forall2_length _ _ _ H2). lia.
Qed.

Lemma scoring_line_of ids scores m :
  ScoringMessage_createMessage ids scores = Some m → (∃ ids' scores', body m = ScoringMessage ids' scores') →
  line_of is_scoring (raw_message m).
Proof.
  unfold ScoringMessage_createMessage. destruct (negb _); [done|]. intros Hm Hb.
  by eapply line_of_crlf.
Qed.

Lemma conversation_same over p q b :
  is_known q = is_known p → coefficients q = coefficients p → conversation over p b → conversation over q b.
Proof. unfold conversation. by intros -> ->. Qed.

Lemma conversation_first p q b text :
  is_known p = false → is_known q = true → line_of (is_coeff (coefficients q)) text →
  conversation false p b → conversation false q (b ++ text).
Proof.
  unfold conversation. intros -> -> (m & Hm & <- & Hc) ->. exists [m]. split; [by constructor|].
  split; [by exists m, [], []|]. simpl. by rewrite app_nil_r.
Qed.

Lemma conversation_replies p q b texts :
  is_known p = true → is_known q = true → coefficients q = coefficients p → Forall (line_of reply) texts →
  conversation false p b → conversation false q (b ++ concat texts).
Proof.
  unfold conversation. intros -> -> -> (ms' & Hm' & Hr & ->)%lines_of_messages
    (ms & Hms & (first & replies & last & -> & Hf & Hrs & ->) & ->).
  exists (first :: (replies ++ ms') ++ []). split; [|split].
  - apply Forall_cons in Hms as [? Hms]. rewrite app_nil_r in *. apply Forall_cons. split; [done|]. by apply Forall_app.
  - exists first, (replies ++ ms'), []. split; [done|]. split; [done|]. by split; [apply Forall_app|].
  - rewrite !app_nil_r. cbn [map concat]. by rewrite map_app, concat_app, !(assoc app).
Qed.

Lemma conversation_last p q b text :
  is_known p = true → is_known q = true → coefficients q = coefficients p → line_of is_scoring text →
  conversation false p b → conversation true q (b ++ text).
Proof.
  unfold conversation. intros -> -> -> (m & Hm & <- & Hsc) (ms & Hms & (first & replies & last & -> & Hf & Hrs & ->) & ->).
  exists (first :: replies ++ [m]). rewrite app_nil_r in *. split; [|split].
  - apply Forall_cons in Hms as [? Hms]. apply Forall_cons. split; [done|]. apply Forall_app. by split; [|constructor].
  - exists first, replies, [m]. split; [done|]. split; [done|]. by split; [|exists m].
  - cbn [map concat]. rewrite map_app, concat_app. cbn [map concat]. by rewrite app_nil_r, !(assoc app).
Qed.

Lemma conversation_unknown over over' p b : is_known p = false → conversation over p b → conversation over' p b.
Proof. unfold conversation. by intros ->. Qed.

(** ** The state of all conversations *)

(** The event that gives the turn back to the player of [client_fd]. *)
Definition gives_turn (client_fd : Z) (p : PlayerInfo) (cb : Callback) : Prop :=
  match cb with
  | CbBadPut fd _ _ ip' port' id' | CbState fd _ ip' port' id' =>
      fd = client_fd ∧ ip' = ip p ∧ port' = port p ∧ id' = id p
  | CbHello _ _ _ => False
  end.

(** No answer is waiting for a player who has not said its name yet. *)
Section talks.
Context {watched : Z → Prop}.
Record talks (s : Server) : Prop := {
  talks_said client_fd p :
    watched client_fd → player_of s client_fd p → conversation (stopping s) p (said s client_fd p);
  talks_unknown client_fd p d cb :
    watched client_fd → player_of s client_fd p → is_known p = false → (d, cb) ∈ events s → ~ gives_turn client_fd p cb }.

Lemma talks_frame s s' :
  players s' = players s → trace s' = trace s → stopping s' = stopping s →
  (∀ e, e ∈ events s' → e ∈ events s) → talks s → talks s'.
Proof.
  intros Hp Ht Hst He [H2 H3]. split; unfold player_of in *.
  - intros f p Hw. unfold said in *. rewrite Hp, Hst, Ht. by apply H2.
  - intros f p d cb Hw. rewrite Hp. intros Hfp Hk Hin. by eapply H3; [..|apply He].
Qed.

(** One player changes, with some output on its descriptor. *)
Lemma talks_set_player s s0 fd p q o :
  player_of s fd p → players s0 = players s → stopping s0 = stopping s → events s0 = events s →
  trace s0 = trace s ++ o →
  (∀ f, f ≠ fd → sent_to f (trace s ++ o) = sent_to f (trace s)) →
  (watched fd → is_known q = false → is_known p = false ∧ ∀ cb, gives_turn fd q cb → gives_turn fd p cb) →
  (watched fd → conversation (stopping s) p (said s fd p) → conversation (stopping s) q (said s0 fd q)) →
  talks s → talks (set_player fd q s0).
Proof.
  intros Hp Hps Hst Hev Htr Hothers Hk Hc [H2 H3].
  assert (∀ f r, player_of (set_player fd q s0) f r → f = fd ∧ r = q ∨ f ≠ fd ∧ player_of s f r) as Hcases.
  { intros f r. unfold player_of, set_player. simpl. rewrite Hps. destruct (decide (f = fd)) as [->|Hne].
    - rewrite lookup_insert_eq. intros [= <-]. by left.
    - rewrite lookup_insert_ne by done. by right. }
  split.
  - intros f r Hw Hr. unfold set_player. simpl. rewrite Hst.
    change (said (set_player fd q s0) f r) with (said s0 f r).
    apply Hcases in Hr as [[-> ->]|[Hne Hr]]; [by apply Hc, H2|].
    unfold said. rewrite Htr, Hothers by done. by apply H2.
  - intros f r d cb Hw Hr Hkr Hin. unfold set_player in Hin. simpl in Hin. rewrite Hev in Hin.
    apply Hcases in Hr as [[-> ->]|[_ Hr]]; [|by eapply H3].
    destruct (Hk Hw Hkr) as [Hkp Hg]. intros Hcb%Hg. by eapply H3.
Qed.

(** More is queued for one player, who is known from then on. *)
Lemma talks_say s s0 fd p q new :
  player_of s fd p → players s0 = players s → stopping s0 = stopping s → events s0 = events s → trace s0 = trace s →
  messages q = messages p ++ new → (watched fd → is_known q = true) →
  (watched fd → ∀ b, conversation (stopping s) p b → conversation (stopping s) q (b ++ concat new)) →
  talks s → talks (set_player fd q s0).
Proof.
  intros Hp Hps Hst Hev Htr Hm Hk Hc. eapply (talks_set_player s s0 fd p q []); try done.
  - by rewrite app_nil_r.
  - intros f _. by rewrite app_nil_r.
  - intros Hw. by rewrite Hk.
  - intros Hw H. unfold said. rewrite Htr, Hm, concat_app, (assoc app). by apply Hc.
Qed.

Lemma talks_schedule s d cb :
  (∀ fd p, player_of s fd p → gives_turn fd p cb → is_known p = true) → talks s → talks (schedule d cb s).
Proof.
  intros Hcb [H2 H3]. split; [done|]. intros f p d' cb' Hw Hp Hk Hin Hg.
  unfold schedule in Hin. simpl in Hin. apply elem_of_ordered_insert in Hin as [[= -> ->]|Hin].
  - apply (Hcb f p Hp) in Hg. congruence.
  - by eapply H3.
Qed.

(** The end of a game: every known player gets the scores. *)
Lemma talks_scoring s text :
  stopping s = false → line_of is_scoring text → talks s →
  talks (with_players (queue_for (λ _ p, is_known p) text (players s)) s <| stopping := true |>).
Proof.
  intros Hst Htext [H2 H3].
  assert (∀ f q, players (with_players (queue_for (λ _ p, is_known p) text (players s)) s) !! f = Some q →
    ∃ p, player_of s f p ∧ q = if is_known p then queue_message text p else p) as Hq.
  { intros f q. unfold with_players, player_of. simpl. rewrite lookup_queue_for.
    destruct (players s !! f) as [p|]; [|done]. intros [= <-]. by exists p. }
  split.
  - intros f q Hw (p & Hp & ->)%Hq. simpl. specialize (H2 f p Hw Hp). rewrite Hst in H2. unfold said in *. simpl.
    destruct (is_known p) eqn:Hk; [|by eapply conversation_unknown].
    simpl. rewrite concat_app, (assoc app). simpl. rewrite app_nil_r.
    by eapply (conversation_last p).
  - intros f q d cb Hw (p & Hp & ->)%Hq Hkq Hin. destruct (is_known p) eqn:Hk; [|by eapply H3].
    simpl in Hkq. congruence.
Qed.
End talks.
Arguments talks watched s : clear implicits.
