(* ===== verification/GameInvariant.v ===== *)
(** * The invariant of the game

    [inv] is the invariant of the server's state between two turns of the main loop and
    between two handlers: the counters agree, every number is far from overflow, and every
    player who has to wait has an event that will end the wait. *)
From Stdlib Require Import Ascii String SpecFloat.
From S2P Require Import Prelude CString Double Constants MsgParser ServerState ServerLogic Server Handlers Framing Conversation.

(** ** The sum of the counters *)
Definition sum_puts (ps : gmap Z PlayerInfo) : Z := map_fold (λ _ p acc, correct_puts p + acc) 0 ps.

Lemma sum_puts_insert fd p ps :
  ps !! fd = None → sum_puts (<[fd := p]> ps) = correct_puts p + sum_puts ps.
Proof. intros H. unfold sum_puts. rewrite map_fold_insert_L; [done|intros; lia|done]. Qed.

Lemma sum_puts_delete fd p ps :
  ps !! fd = Some p → sum_puts (delete fd ps) = sum_puts ps - correct_puts p.
Proof.
  intros H. unfold sum_puts. rewrite (map_fold_delete_L _ _ fd p ps); [|intros; lia|done].
  generalize (map_fold (λ _ q acc, correct_puts q + acc) 0 (delete fd ps)). intros; lia.
Qed.

Lemma sum_puts_update fd p q ps :
  ps !! fd = Some p → sum_puts (<[fd := q]> ps) = sum_puts ps + (correct_puts q - correct_puts p).
Proof.
  intros H. rewrite <-insert_delete_eq, sum_puts_insert by apply lookup_delete_eq.
  rewrite (sum_puts_delete _ _ _ H). lia.
Qed.

Lemma sum_puts_fmap ps : sum_puts ps = map_fold (λ _ n acc, n + acc) 0 (correct_puts <$> ps).
Proof. unfold sum_puts. by rewrite map_fold_fmap. Qed.

Lemma sum_puts_queue_for P msg ps : sum_puts (queue_for P msg ps) = sum_puts ps.
Proof.
  rewrite !sum_puts_fmap. f_equal. apply map_eq. intros fd.
  rewrite !lookup_fmap, lookup_queue_for. destruct (ps !! fd) as [p|]; [|done].
  simpl. by destruct (P fd p).
Qed.

Lemma sum_puts_nonneg ps : (∀ fd p, ps !! fd = Some p → 0 ≤ correct_puts p) → 0 ≤ sum_puts ps.
Proof.
  induction ps as [|fd p ps Hfd IH] using map_ind; intros H; [done|].
  rewrite sum_puts_insert by done.
  pose proof (H fd p (lookup_insert_eq _ _ _)). enough (0 ≤ sum_puts ps) by lia.
  apply IH. intros fd' p' Hp'. apply (H fd'). rewrite lookup_insert_ne; [done|]. congruence.
Qed.

Lemma sum_puts_le ps fd p :
  (∀ fd p, ps !! fd = Some p → 0 ≤ correct_puts p) → ps !! fd = Some p → correct_puts p ≤ sum_puts ps.
Proof.
  intros H Hp. enough (0 ≤ sum_puts (delete fd ps)) as Hd
    by (rewrite (sum_puts_delete _ _ _ Hp) in Hd; lia).
  apply sum_puts_nonneg. intros fd' p' [_ Hp']%lookup_delete_Some. by eapply H.
Qed.

(** ** The coefficients file *)
Fixpoint file_lines (file : str) : list str :=
  match file with
  | [] => []
  | c :: f =>
      if bool_decide (c = lf) then [] :: file_lines f
      else match file_lines f with [] => [[c]] | l :: ls => (c :: l) :: ls end
  end.

Lemma getline_lines file :
  fst (getline file) = default [] (head (file_lines file)) ∧
  file_lines (snd (getline file)) = tail (file_lines file).
Proof.
  induction file as [|c f [IH1 IH2]]; [done|]. simpl. case_bool_decide; [done|].
  destruct (getline f) as [l r]. simpl in *. subst l. rewrite IH2.
  destruct (file_lines f) as [|l ls]; done.
Qed.

(** A line that is a [COEFF] message has the [n + 1] coefficients of the polynomials the
    server was started for, and the file holds no other message. *)
Definition coeff_line_ok (n : Z) (line : str) : Prop :=
  ∀ m, createMessage (line ++ [lf]) = Some m →
    ∃ coeffs, body m = CoeffMessage coeffs ∧ length coeffs = Z.to_nat (n + 1).
Definition coeff_file_ok (n : Z) (file : str) : Prop := Forall (coeff_line_ok n) (file_lines file).

Lemma empty_line_none : createMessage ([] ++ [lf]) = None.
Proof. reflexivity. Qed.

Lemma coeff_file_getline n file :
  coeff_file_ok n file →
  coeff_line_ok n (fst (getline file)) ∧ coeff_file_ok n (snd (getline file)).
Proof.
  unfold coeff_file_ok. destruct (getline_lines file) as [-> ->]. intros H.
  destruct (file_lines file) as [|l ls]; simpl; [|by apply Forall_cons in H].
  split; [|done]. intros m Hm. by rewrite empty_line_none in Hm.
Qed.

(** ** Players *)

(** The numbers of a player of a game on the points [0..k], polynomials of degree [n]. *)
Record numbers_ok (k n : Z) (p : PlayerInfo) : Prop := {
  puts_nonneg : 0 ≤ correct_puts p;
  approximations_length : length (approximations p) = Z.to_nat (k + 1);
  approximations_bound : Forall (dabs_le (6 * correct_puts p + 1) 0) (approximations p);
  coefficients_length : length (coefficients p) = Z.to_nat (n + 1);
  coefficients_bound : Forall (dabs_le 101 0) (coefficients p);
  penalty_bound : dabs_le 2 57 (penalty p);
  messages_nonempty : Forall (λ m, m ≠ []) (messages p);
  delay_nonneg : 0 ≤ delay p;
  known_name : is_known p = true → player_name (id p);
  unknown_puts : is_known p = false → correct_puts p = 0 }.

(** The longest a player can wait for the answer to a [PUT], in milliseconds. *)
Definition max_wait (p : PlayerInfo) : Z := 1000 * Z.max 1 (delay p).
Definition turn_ok (time : Z) (evs : list (Z * Callback)) (client_fd : Z) (p : PlayerInfo) : Prop :=
  if is_known p then
    can_put p = true ∨ ∃ d cb, (d, cb) ∈ evs ∧ gives_turn client_fd p cb ∧ d ≤ time + max_wait p
  else ∃ d, (d, CbHello client_fd (ip p) (port p)) ∈ evs ∧ d ≤ time + 3000.

Definition callback_ok (k : Z) (cb : Callback) : Prop :=
  match cb with
  | CbBadPut _ point value _ _ _ => in_s 32 point ∧ printable value
  | CbState _ state_msg _ _ _ => (6 ≤ length state_msg)%nat ∧ line_of (state_of k) state_msg
  | CbHello _ _ _ => True
  end.

(** The listening socket comes first, then one socket per player. *)
Record sockets_ok (ps : gmap Z PlayerInfo) (fds : list Z) : Prop := {
  fds_nodup : NoDup fds;
  fds_range : Forall (λ f, 0 ≤ f < 2 ^ 31) fds;
  fds_listening : fds ≠ [];
  fds_players f : is_Some (ps !! f) ↔ f ∈ tail fds }.

Record inv_core (s : Server) : Prop := {
  inv_K : 1 ≤ K s ≤ constants.max_k;
  inv_N : 1 ≤ N s ≤ constants.max_n;
  inv_M : 1 ≤ M_ s ≤ constants.max_m;
  inv_file : coeff_file_ok (N s) (coeff_file s);
  inv_total : total_correct_puts s = sum_puts (players s);
  inv_numbers client_fd p : player_of s client_fd p → numbers_ok (K s) (N s) p;
  inv_turn client_fd p : player_of s client_fd p → turn_ok (now s) (events s) client_fd p;
  inv_callbacks : Forall (λ e, callback_ok (K s) (snd e)) (events s);
  inv_sorted : StronglySorted (not_gt EventManager.deadline_lt) (events s);
  inv_sockets : sockets_ok (players s) (map fd (poll_fds s)) }.

(** The game ends exactly when [M] puts have been counted. *)
Definition total_ok (s : Server) : Prop :=
  if stopping s then total_correct_puts s ≤ M_ s else total_correct_puts s < M_ s.
Definition inv (s : Server) : Prop := inv_core s ∧ total_ok s.

(** What a field-wise comparison preserves. *)
Lemma inv_core_frame s s' :
  K s' = K s → N s' = N s → M_ s' = M_ s → coeff_file s' = coeff_file s →
  total_correct_puts s' = total_correct_puts s → players s' = players s →
  events s' = events s → now s' = now s → map fd (poll_fds s') = map fd (poll_fds s) →
  inv_core s → inv_core s'.
Proof.
  intros HK HN HM Hf Ht Hp He Hn Hs Hi. destruct s, s'. simpl in *. subst.
  destruct Hi. constructor; try done. simpl in *. by rewrite Hs.
Qed.

Lemma turn_ok_mono time evs evs' fd p :
  (∀ e, e ∈ evs → e ∈ evs') → turn_ok time evs fd p → turn_ok time evs' fd p.
Proof. unfold turn_ok. intros H. destruct (is_known p).
  - intros [|(d & cb & ? & ?)]; [by left|]. right. exists d, cb. auto.
  - intros (d & ? & ?). exists d. auto.
 Qed.

Lemma inv_core_schedule s d cb :
  callback_ok (K s) cb → inv_core s → inv_core (schedule d cb s).
Proof.
  intros Hcb []. constructor; try done.
  - intros fd p Hp. unfold schedule. simpl. eapply turn_ok_mono; [|by apply inv_turn0].
    intros e He. apply elem_of_ordered_insert. by right.
  - unfold schedule. simpl. rewrite ordered_insert_perm. apply Forall_cons. by split.
  - unfold schedule. simpl. apply ordered_insert_sorted; [apply deadline_swo|done].
Qed.

(** A player changes, and the total with it. *)
Lemma inv_core_set_player s fd p q :
  player_of s fd p → numbers_ok (K s) (N s) q → turn_ok (now s) (events s) fd q →
  inv_core s →
  inv_core (set_player fd q (s <| total_correct_puts ::= λ t, t + (correct_puts q - correct_puts p) |>)).
Proof.
  intros Hp Hn Ht []. constructor; try done.
  - simpl. rewrite (sum_puts_update _ _ _ _ Hp). lia.
  - intros fd' p' Hp'. unfold player_of, set_player in Hp'. simpl in Hp'.
    destruct (decide (fd' = fd)) as [->|Hne].
    + rewrite lookup_insert_eq in Hp'. by injection Hp' as <-.
    + rewrite lookup_insert_ne in Hp' by done. by apply (inv_numbers0 fd').
  - intros fd' p' Hp'. unfold player_of, set_player in Hp'. simpl in Hp'.
    destruct (decide (fd' = fd)) as [->|Hne].
    + rewrite lookup_insert_eq in Hp'. by injection Hp' as <-.
    + rewrite lookup_insert_ne in Hp' by done. by apply (inv_turn0 fd').
  - destruct inv_sockets0 as [H1 H2 H3 H4]. constructor; try done. intros f. simpl.
    rewrite <-H4. destruct (decide (f = fd)) as [->|Hne]; [|by rewrite lookup_insert_ne].
    rewrite lookup_insert_eq. unfold player_of in Hp. rewrite Hp. by split; eexists.
Qed.

Lemma inv_set_player s fd p q :
  player_of s fd p → numbers_ok (K s) (N s) q → turn_ok (now s) (events s) fd q →
  correct_puts q = correct_puts p → inv s → inv (set_player fd q s).
Proof.
  intros Hp Hn Ht Hc [Hi Htot]. split; [|done].
  eapply inv_core_frame; [..|by apply (inv_core_set_player s fd p q)]; try done. simpl. lia.
Qed.

Lemma numbers_ok_queue k n msg p : msg ≠ [] → numbers_ok k n p → numbers_ok k n (queue_message msg p).
Proof.
  intros Hm []. constructor; try done. simpl. apply Forall_app. split; [done|]. by constructor.
Qed.

Lemma player_of_queue_for s P msg fd q :
  player_of (with_players (queue_for P msg (players s)) s) fd q →
  ∃ p, player_of s fd p ∧ q = if P fd p then queue_message msg p else p.
Proof.
  unfold player_of, with_players. simpl. rewrite lookup_queue_for.
  destruct (players s !! fd) as [p|]; [|done]. intros [= <-]. by exists p.
Qed.

Lemma inv_core_queue_for s P msg :
  msg ≠ [] → inv_core s → inv_core (with_players (queue_for P msg (players s)) s).
Proof.
  intros Hm []. constructor; try done.
  - simpl. by rewrite sum_puts_queue_for.
  - intros fd q (p & Hp & ->)%player_of_queue_for. apply inv_numbers0 in Hp.
    destruct (P fd p); [by apply numbers_ok_queue|done].
  - intros fd q (p & Hp & ->)%player_of_queue_for. apply inv_turn0 in Hp. by destruct (P fd p).
  - destruct inv_sockets0 as [H1 H2 H3 H4]. constructor; try done. intros f. simpl.
    rewrite <-H4, lookup_queue_for. apply fmap_is_Some.
Qed.

(** ** What the handlers leave alone *)

(** A handler may change players and events; it adds messages at the end of a player's
    queue, forgets no player, and moves no socket. *)
Record logic_step (s s' : Server) : Prop := {
  step_K : K s' = K s;
  step_N : N s' = N s;
  step_M : M_ s' = M_ s;
  step_poll_fds : poll_fds s' = poll_fds s;
  step_buffers : client_buffers s' = client_buffers s;
  step_now : now s' = now s;
  step_trace : trace s' = trace s;
  step_players fd p : player_of s fd p →
    ∃ p' ms, player_of s' fd p' ∧ messages p' = messages p ++ ms ∧
      (is_known p = true → is_known p' = true);
  step_no_new fd p' : player_of s' fd p' → is_Some (players s !! fd);
  step_talks watched : talks watched s → talks watched s' }.

Lemma logic_step_refl s : logic_step s s.
Proof.
  constructor; try done.
  - intros fd p Hp. exists p, []. by rewrite app_nil_r.
Qed.

Lemma logic_step_trans s1 s2 s3 : logic_step s1 s2 → logic_step s2 s3 → logic_step s1 s3.
Proof.
  intros [] []. constructor; try congruence.
  - intros fd p (p' & ms & Hp' & Hm & Hk)%step_players0.
    apply step_players1 in Hp' as (p'' & ms' & Hp'' & Hm' & Hk').
    exists p'', (ms ++ ms'). rewrite Hm', Hm, (assoc app). auto.
  - intros fd p' [p Hp]%step_no_new1. by eapply step_no_new0.
  - auto.
Qed.

Lemma logic_step_set_player s s0 fd p q ms :
  player_of s fd p → messages q = messages p ++ ms → is_known q = true →
  (∀ b, conversation (stopping s) p b → conversation (stopping s) q (b ++ concat ms)) →
  K s0 = K s → N s0 = N s → M_ s0 = M_ s → poll_fds s0 = poll_fds s →
  client_buffers s0 = client_buffers s → now s0 = now s → trace s0 = trace s → players s0 = players s →
  events s0 = events s → stopping s0 = stopping s → logic_step s (set_player fd q s0).
Proof.
  intros Hp Hm Hk Hc ??????? Hps ??. constructor; unfold set_player; simpl; try congruence.
  - intros fd' p' Hp'. destruct (decide (fd' = fd)) as [->|Hne].
    + exists q, ms. unfold player_of in *. simplify_eq. split; [apply player_of_set|done].
    + exists p', []. rewrite app_nil_r. split; [|done]. unfold player_of, set_player. simpl.
      by rewrite Hps, lookup_insert_ne.
  - intros fd' p'. unfold player_of, set_player in *. simpl. rewrite Hps.
    destruct (decide (fd' = fd)) as [->|Hne]; [intros _; by eexists|].
    rewrite lookup_insert_ne by done. intros ->. by eexists.
  - intros watched. by apply (talks_say s s0 fd p q ms).
Qed.

Lemma logic_step_schedule s d cb :
  (∀ fd p, player_of s fd p → gives_turn fd p cb → is_known p = true) → logic_step s (schedule d cb s).
Proof. intros Hcb. destruct (logic_step_refl s). constructor; try done. intros watched. by apply talks_schedule. Qed.

(** An answer is scheduled for a player who is known. *)
Lemma logic_step_answer s fd p d cb :
  player_of s fd p → is_known p = true → (∀ f q, gives_turn f q cb → f = fd) → logic_step s (schedule d cb s).
Proof.
  intros Hp Hk Hcb. apply logic_step_schedule. intros f q Hq ->%Hcb. unfold player_of in *. by simplify_eq.
Qed.

Lemma logic_step_scoring s msg :
  stopping s = false → line_of is_scoring msg →
  logic_step s (with_players (queue_for (λ _ p, is_known p) msg (players s)) s <| stopping := true |>).
Proof.
  intros Hst Hmsg. constructor; try done; [| |intros watched; by apply talks_scoring].
  - intros fd p Hp. exists (if is_known p then queue_message msg p else p), (if is_known p then [msg] else []).
    split; [|destruct (is_known p) eqn:Hk; [done|by rewrite app_nil_r]].
    unfold player_of in *. simpl. by rewrite lookup_queue_for, Hp.
  - intros fd q (p & Hp & _)%player_of_queue_for. by eexists.
Qed.

(** ** The handlers preserve the invariant *)
Lemma scorable_ok s fd p : inv_core s → player_of s fd p → total_correct_puts s ≤ M_ s →
  is_known p = true → scorable s p.
Proof.
  intros Hi Hp Ht Hk. destruct (inv_numbers s Hi fd p Hp).
  pose proof (inv_M s Hi). pose proof (inv_total s Hi).
  assert (correct_puts p ≤ sum_puts (players s)) as Hle.
  { eapply sum_puts_le; [|done]. intros fd' p' Hp'. by eapply inv_numbers. }
  split; [by apply known_name0|]. do 2 (split; [done|]). split; [|by split].
  eapply Forall_impl; [done|]. intros d Hd. change 123 with (0 + 123).
  eapply dabs_le_rescale; [| |exact Hd]; [lia|]. unfold constants.max_m in *. lia.
Qed.

Lemma game_over_inv s :
  inv_core s → stopping s = false → total_correct_puts s ≤ M_ s → (∃ fd p, player_of s fd p ∧ is_known p = true) →
  wp no_failure game_over (λ _ s', inv s' ∧ logic_step s s') s.
Proof.
  intros Hi Hst Ht Hex. pose proof (inv_K s Hi). pose proof (inv_N s Hi).
  unfold constants.max_k, constants.max_n in *.
  destruct (game_over_ret s) as (scores & _ & (m & Hm & Hbody & Hraw) & Hrun); [lia|lia|done|eauto using scorable_ok|].
  unfold wp. rewrite Hrun. split; [|apply logic_step_scoring; [done|]; rewrite <-Hraw; by eapply scoring_line_of].
  split; [|done].
  eapply inv_core_frame; [..|eapply (inv_core_queue_for s); [|done]]; try done.
Qed.

Lemma numbers_ok_can_put k n b p : numbers_ok k n p → numbers_ok k n (p <| can_put := b |>).
Proof. by intros []. Qed.
Lemma numbers_ok_penalise k n z p : z = 10 ∨ z = 20 → numbers_ok k n p → numbers_ok k n (penalise z p).
Proof. intros Hz []. constructor; try done. by apply dadd_sticky. Qed.

Lemma approximated_bound point value p k n :
  numbers_ok k n p → 6 * correct_puts p + 7 < 2 ^ 53 → dabs_le 6 0 value →
  Forall (dabs_le (6 * Z.succ (correct_puts p) + 1) 0) (approximated point value p).
Proof.
  intros [] Hc Hv. unfold approximated.
  assert (Forall (dabs_le (6 * Z.succ (correct_puts p) + 1) 0) (approximations p)) as Hall.
  { eapply Forall_impl; [done|]. intros d. apply dabs_le_mono. lia. }
  destruct (approximations p !! Z.to_nat point) as [a|] eqn:Ha; [|done].
  apply Forall_insert; [done|]. replace (6 * Z.succ (correct_puts p) + 1) with ((6 * correct_puts p + 1) + 6) by lia.
  apply dadd_dabs; [unfold dbound; lia|lia|lia| |done].
  rewrite Forall_forall in approximations_bound0. apply approximations_bound0.
  by eapply list_elem_of_lookup_2.
Qed.

Lemma length_approximated point value p : length (approximated point value p) = length (approximations p).
Proof. unfold approximated. destruct (_ !! _); [apply length_insert|done]. Qed.

Lemma pair_line_nonempty cmd point value : cmd ≠ [] → pair_line cmd point value ≠ [].
Proof. unfold pair_line. by destruct cmd. Qed.

(** A state where only one player and the events changed. *)
Lemma inv_set_scheduled s fd p q d cb :
  player_of s fd p → numbers_ok (K s) (N s) q → callback_ok (K s) cb → gives_turn fd q cb →
  is_known q = true → d ≤ now s + max_wait q → correct_puts q = correct_puts p →
  inv s → inv (schedule d cb (set_player fd q s)).
Proof.
  intros Hp Hn Hcb Hg Hk Hd Hc [Hi Ht].
  apply (inv_set_player (schedule d cb s) fd p q); try done.
  - unfold turn_ok. rewrite Hk. right. exists d, cb. split; [|done].
    apply elem_of_ordered_insert. by left.
  - split; [by apply inv_core_schedule|done].
Qed.

Lemma put_refused_inv s fd p point value :
  inv s → stopping s = false → player_of s fd p → is_known p = true → in_s 32 point → printable value →
  can_put p = false ∨ put_out_of_range (K s) point value = true →
  wp no_failure (handle_put fd point value) (λ r s', r = false ∧ inv s' ∧ logic_step s s') s.
Proof.
  intros Hi Hst Hp Hk Hpt Hv Href. unfold wp. rewrite (handle_put_refused fd p point value s) by done.
  split; [done|]. pose proof (inv_numbers s (proj1 Hi) fd p Hp) as Hnum.
  set (p1 := if can_put p then p else _).
  assert (numbers_ok (K s) (N s) p1 ∧ is_known p1 = true ∧ id p1 = id p ∧ ip p1 = ip p ∧
    port p1 = port p ∧ delay p1 = delay p ∧ correct_puts p1 = correct_puts p ∧ coefficients p1 = coefficients p ∧
    ∃ ms, messages p1 = messages p ++ ms ∧ Forall (line_of reply) ms)
    as (Hn1 & Hk1 & Hid & Hip & Hport & Hdel & Hc1 & Hco & ms & Hms & Hrep).
  { unfold p1. destruct (can_put p); simpl; repeat (split; [done|]); [by exists []; rewrite app_nil_r|].
    split; [|do 7 (split; [done|]); eexists; split; [done|]; by repeat constructor; apply penalty_reply].
    apply numbers_ok_queue; [by apply pair_line_nonempty|].
    apply numbers_ok_penalise; [by right|done]. }
  assert (∀ q, messages q = messages p1 → is_known q = true → coefficients q = coefficients p1 →
    logic_step s (set_player fd q s)) as Hstep.
  { intros q Hq Hkq Hcq. eapply (logic_step_set_player s s fd p q ms); rewrite ?Hq; try done.
    rewrite Hst. intros b. apply conversation_replies; congruence. }
  destruct (put_out_of_range (K s) point value) eqn:Hbad.
  - split; cycle 1.
    { eapply logic_step_trans; [|by eapply logic_step_answer; [apply player_of_set|..|intros f r [-> _]]].
      by apply Hstep. }
    eapply (inv_set_scheduled s fd p); try done.
    + apply numbers_ok_penalise; [by left|]. by apply numbers_ok_can_put.
    + unfold max_wait. simpl. lia.
  - destruct Href as [Hc|]; [|done]. split; [|by apply Hstep].
    apply (inv_set_player s fd p); try done; [by apply numbers_ok_can_put|].
    pose proof (inv_turn s (proj1 Hi) fd p Hp) as Ht. unfold turn_ok in *. simpl. rewrite Hk1.
    rewrite Hk, Hc in Ht. destruct Ht as [|(d & cb & Hd & Hg & Hle)]; [done|]. right.
    exists d, cb. split; [done|]. unfold max_wait in *. simpl. rewrite Hdel. split; [|done].
    unfold gives_turn in *. simpl. by rewrite Hid, Hip, Hport.
Qed.

Lemma state_line_length l : (6 ≤ length (state_line l))%nat.
Proof. unfold state_line. rewrite length_app. simpl. lia. Qed.

(** What the invariant gives an accepted [PUT]. *)
Record put_facts (s : Server) (p : PlayerInfo) (point : Z) (value : double) : Prop := {
  put_point : 0 ≤ point < Z.of_nat (length (approximations p));
  put_length : Z.of_nat (length (approximations p)) ≤ constants.max_k + 1;
  put_bound : Forall (dabs_le (6 * Z.succ (correct_puts p) + 1) 0) (approximated point value p);
  put_printable : Forall printable (approximated point value p) }.

Lemma put_facts_ok s fd p point value :
  inv_core s → total_correct_puts s ≤ M_ s → player_of s fd p → printable value →
  put_out_of_range (K s) point value = false → put_facts s p point value.
Proof.
  intros Hi Htot Hp Hv Hin. destruct (in_range_dabs _ _ _ Hv Hin) as [Hv6 Hpt].
  pose proof (inv_numbers s Hi fd p Hp) as Hnum. pose proof (inv_K s Hi). pose proof (inv_M s Hi).
  unfold constants.max_k, constants.max_m in *.
  assert (correct_puts p ≤ total_correct_puts s) as Hle.
  { rewrite (inv_total s Hi). eapply sum_puts_le; [|exact Hp]. intros fd' p' Hp'. by eapply inv_numbers. }
  pose proof (puts_nonneg _ _ _ Hnum). pose proof (approximations_length _ _ _ Hnum) as Hal.
  pose proof (approximated_bound point value p (K s) (N s) Hnum ltac:(lia) Hv6) as Hab.
  constructor; [lia|unfold constants.max_k; lia|done|].
  eapply Forall_impl; [exact Hab|]. intros d Hd. split; [by eapply dabs_le_valid|by eapply dabs_le_finite].
Qed.

Lemma after_good_put_inv s fd p point value :
  inv_core s → total_correct_puts s ≤ M_ s → player_of s fd p → is_known p = true → printable value →
  put_out_of_range (K s) point value = false → inv_core (after_good_put fd point value p s).
Proof.
  intros Hi Htot Hp Hk Hv Hin. pose proof (inv_numbers s Hi fd p Hp) as Hnum.
  destruct (put_facts_ok s fd p point value Hi Htot Hp Hv Hin) as [Hpt Hpl Hab Hpr].
  eapply inv_core_frame; [..|apply (inv_core_set_player (schedule (now s + delay p * 1000)
    (CbState fd (state_line (approximated point value p)) (ip p) (port p) (id p)) s) fd p
    (credited point value p) Hp)]; try done.
  - simpl. lia.
  - destruct Hnum. constructor; try done; simpl; [lia|by rewrite length_approximated|].
    intros Hu. congruence.
  - unfold turn_ok. simpl. rewrite Hk. right. eexists _, _.
    split; [apply elem_of_ordered_insert; by left|]. split; [done|]. unfold max_wait. simpl. lia.
  - apply inv_core_schedule; [|done]. split; [apply state_line_length|].
    replace (K s) with (Z.of_nat (length (approximated point value p)) - 1)
      by (rewrite length_approximated, (approximations_length _ _ _ Hnum); pose proof (inv_K s Hi); lia).
    apply state_line_answer; [done|]. rewrite length_approximated. lia.
Qed.

(** An accepted [PUT], up to the end of the game. *)
Lemma put_in_range s fd p point value :
  inv_core s → total_correct_puts s ≤ M_ s → player_of s fd p → is_known p = true → printable value →
  can_put p = true → put_out_of_range (K s) point value = false →
  handle_put fd point value s =
    (_ ← (if M_ s <=? total_correct_puts s + 1 then game_over else mret tt); mret true)
      (after_good_put fd point value p s).
Proof.
  intros Hi Htot Hp Hk Hv Hc Hin. destruct (put_facts_ok s fd p point value Hi Htot Hp Hv Hin).
  by apply handle_put_accepted.
Qed.

Lemma put_accepted_inv s fd p point value :
  inv s → stopping s = false → player_of s fd p → is_known p = true → printable value → can_put p = true →
  put_out_of_range (K s) point value = false →
  wp no_failure (handle_put fd point value) (λ r s', r = true ∧ inv s' ∧ logic_step s s') s.
Proof.
  intros [Hi Htot] Hstop Hp Hk Hv Hc Hin. unfold total_ok in Htot. rewrite Hstop in Htot.
  set (s1 := after_good_put fd point value p s).
  assert (inv_core s1) as Hi1 by (apply after_good_put_inv; by auto with lia).
  assert (logic_step s s1) as Hs1.
  { eapply logic_step_trans; [|by eapply logic_step_answer; [apply player_of_set|..|intros f r [-> _]]].
    eapply (logic_step_set_player _ _ _ _ _ [] Hp); try done; [simpl; by rewrite app_nil_r|].
    intros b. rewrite app_nil_r. by apply conversation_same. }
  assert (player_of s1 fd (credited point value p)) as Hp1 by apply player_of_set.
  unfold wp. rewrite (put_in_range s fd p point value) by (auto with lia). fold s1.
  destruct (Z.leb_spec (M_ s) (total_correct_puts s + 1)) as [Hm|Hm].
  - assert (wp no_failure (_ ← game_over; mret true) (λ r s', r = true ∧ inv s' ∧ logic_step s s') s1) as H; [|exact H].
    apply wp_bind. eapply wp_mono; [|apply game_over_inv; [done|done|simpl; lia|by exists fd, (credited point value p)]].
    intros _ s2 [Hi2 Hs2]. apply wp_ret. split; [done|]. split; [done|]. by eapply logic_step_trans.
  - simpl. split; [done|]. split; [|done]. split; [done|]. unfold total_ok. simpl. rewrite Hstop. lia.
Qed.

(** A [PUT] never fails and preserves the invariant. *)
Lemma handle_put_inv s fd p point value :
  inv s → stopping s = false → player_of s fd p → in_s 32 point → printable value →
  wp no_failure (handle_put fd point value) (λ _ s', inv s' ∧ logic_step s s') s.
Proof.
  intros Hi Hstop Hp Hpt Hv. destruct (is_known p) eqn:Hk.
  - destruct (can_put p && negb (put_out_of_range (K s) point value)) eqn:Hc.
    + apply andb_true_iff in Hc as [Hc Hin%negb_true_iff].
      eapply wp_mono; [|by apply (put_accepted_inv s fd p)]. by intros r s' (_ & ? & ?).
    + apply andb_false_iff in Hc as [Hc|Hc%negb_false_iff];
        (eapply wp_mono; [|apply (put_refused_inv s fd p); by auto]); by intros r s' (_ & ? & ?).
  - unfold wp. rewrite (handle_put_unknown fd p) by done. split; [done|apply logic_step_refl].
Qed.

Lemma named_numbers_ok k n name coeffs p :
  numbers_ok k n p → player_name name → length coeffs = Z.to_nat (n + 1) → Forall (dabs_le 101 0) coeffs →
  numbers_ok k n (named name p <| coefficients := coeffs |>).
Proof. intros [] Hn Hl Hc. constructor; try done. simpl. lia. Qed.

(** The only failure of a line is the exit on a bad coefficients file, when it is the first HELLO. *)
Definition hello_exit (p : PlayerInfo) (f : failure) : Prop := f = Exit ∧ is_known p = false.
Lemma handle_hello_inv s fd p name :
  inv s → stopping s = false → player_of s fd p → player_name name →
  wp (hello_exit p) (handle_hello fd name) (λ _ s', inv s' ∧ stopping s' = stopping s ∧ logic_step s s') s.
Proof.
  intros [Hi Htot] Hst Hp Hname. unfold wp. destruct (is_known p) eqn:Hk.
  { rewrite (handle_hello_known fd p) by done. split; [done|]. split; [done|apply logic_step_refl]. }
  rewrite (handle_hello_run fd p) by done.
  destruct (coeff_file_getline _ _ (inv_file s Hi)) as [Hline Hrest].
  destruct (createMessage _) as [m|] eqn:Hm; [|done].
  destruct (Hline m Hm) as (coeffs & Hb & Hl). rewrite Hb.
  pose proof (createMessage_ok _ _ Hm) as Hok. rewrite Hb in Hok. simpl in Hok.
  pose proof (createMessage_raw _ _ Hm) as [Hraw _].
  assert (raw_message m ≠ []) as Hne by (rewrite Hraw; by intros [_ ?]%app_nil).
  pose proof (inv_numbers s Hi fd p Hp) as Hnum.
  set (q := queue_message _ _). set (s0 := set_field coeff_file _ s).
  split; [|split; [done|]].
  - apply (inv_set_player s0 fd p); try done.
    + apply numbers_ok_queue; [done|]. by apply named_numbers_ok.
    + unfold turn_ok. simpl. by left.
    + split; [|done]. destruct Hi. by constructor.
  - eapply (logic_step_set_player s s0 fd p q [raw_message m]); try done.
    rewrite Hst. intros b. simpl. rewrite app_nil_r. apply conversation_first; [done|done|].
    by apply (line_of_created _ _ _ Hm).
Qed.

Lemma handle_client_message_inv s fd p m :
  inv s → stopping s = false → player_of s fd p → body_ok (body m) →
  wp (hello_exit p) (handle_client_message fd m) (λ _ s', inv s' ∧ logic_step s s') s.
Proof.
  intros Hi Hstop Hp Hb. unfold handle_client_message.
  destruct (body m) as [name|coeffs|point value|point value|vs|point value|ids scores];
    try (by apply wp_ret; split; [|apply logic_step_refl]).
  - eapply wp_mono; [|by apply (handle_hello_inv s fd p)]. by intros r s' (? & _ & ?).
  - destruct Hb. eapply wp_weaken_failures; [|by apply (handle_put_inv s fd p)]. done.
Qed.
