(* ===== verification/EventLoop.v ===== *)
(** * The event loop of the server: timers, connections, reads and writes

    Every step of the loop preserves the invariant of [GameInvariant.v]; with it, the
    timers, the framing of the bytes received and the queues of the bytes to send are shown
    correct. *)
From Stdlib Require Import Ascii String SpecFloat.
From S2P Require Import Prelude CString Double Constants MsgParser ServerState ServerLogic Server Handlers.
From S2P Require Import Framing Conversation GameInvariant.

(** ** Disconnection *)
Definition disconnected (client_fd i : Z) (p : PlayerInfo) (s : Server) : Server :=
  s <| total_correct_puts ::= λ t, t - correct_puts p |>
    <| players ::= delete client_fd |>
    <| trace ::= λ t, t ++ [Closed client_fd] |>
    <| poll_fds ::= λ l, take (Z.to_nat i) l ++ drop (S (Z.to_nat i)) l |>
    <| client_buffers ::= delete client_fd |>.

(** Socket [i] of the loop belongs to the player of [client_fd]. *)
Record socket_of (s : Server) (i : Z) (client_fd : Z) (pf : pollfd) : Prop := {
  socket_index : 1 ≤ i < Z.of_nat (length (poll_fds s));
  socket_lookup : poll_fds s !! Z.to_nat i = Some pf;
  socket_fd : fd pf = client_fd }.

Lemma socket_player s i client_fd pf :
  inv_core s → socket_of s i client_fd pf → ∃ p, player_of s client_fd p.
Proof.
  intros Hi [Hix Hl <-]. destruct (inv_sockets s Hi) as [_ _ _ H].
  apply (H (fd pf)). destruct (poll_fds s) as [|l0 l]; [done|]. simpl.
  apply list_elem_of_fmap. exists pf. split; [done|].
  replace (Z.to_nat i) with (S (Z.to_nat (i - 1))) in Hl by lia. simpl in Hl.
  by eapply list_elem_of_lookup_2.
Qed.

Lemma disconnect_client_ret s i client_fd pf p :
  socket_of s i client_fd pf → player_of s client_fd p →
  disconnect_client client_fd i s = Ret (wrap 64 (i - 1), disconnected client_fd i p s).
Proof.
  intros [Hix Hl Hf] Hp. unfold disconnect_client, handle_client_disconnect.
  erewrite bind_ret; cycle 1. { by run_step. } cbv beta. run_step.
  unfold erase_poll_fd. erewrite bind_ret; cycle 1.
  { run_step. same_field poll_fds s. rewrite (proj2 (Z.leb_le 0 i)), (proj2 (Z.ltb_lt _ _)) by lia. done. }
  cbv beta. run_step. done.
Qed.

Lemma map_erase {A B} (f : A → B) n l :
  map f (take n l ++ drop (S n) l) = take n (map f l) ++ drop (S n) (map f l).
Proof. by rewrite map_app, firstn_map, skipn_map. Qed.

Lemma disconnected_inv s i client_fd pf p :
  inv s → socket_of s i client_fd pf → player_of s client_fd p → inv (disconnected client_fd i p s).
Proof.
  intros [Hi Ht] [Hix Hl Hf] Hp.
  pose proof (puts_nonneg _ _ _ (inv_numbers s Hi _ _ Hp)) as Hc.
  split; [|unfold total_ok in *; simpl; destruct (stopping s); lia].
  destruct Hi. constructor; try done.
  - simpl. rewrite (sum_puts_delete _ _ _ Hp). lia.
  - intros f q Hq. change (delete client_fd (players s) !! f = Some q) in Hq. apply lookup_delete_Some in Hq as [_ Hq]. by apply (inv_numbers f).
  - intros f q Hq. change (delete client_fd (players s) !! f = Some q) in Hq. apply lookup_delete_Some in Hq as [_ Hq]. by apply (inv_turn f).
  - cbn [disconnected poll_fds players]. simpl. rewrite map_erase.
    assert (map fd (poll_fds s) !! Z.to_nat i = Some client_fd) as Hlf
      by (rewrite list_lookup_fmap, Hl; simpl; by rewrite Hf).
    destruct inv_sockets as [Hnd Hr Hne Hps]. remember (map fd (poll_fds s)) as fds eqn:Hfds.
    rewrite <-(take_drop_middle fds (Z.to_nat i) client_fd Hlf) in Hnd, Hr, Hps.
    apply NoDup_app in Hnd as (Hnd1 & Hdis & Hnd2). apply NoDup_cons in Hnd2 as [Hnc Hnd2].
    apply Forall_app in Hr as [Hr1 Hr2]. apply Forall_cons in Hr2 as [_ Hr2].
    destruct (take (Z.to_nat i) fds) as [|l0 l1] eqn:Htk.
    { destruct fds; [done|]. replace (Z.to_nat i) with (S (Z.to_nat (i - 1))) in Htk by lia. done. }
    constructor.
    + apply NoDup_app. split; [done|]. split; [|done]. intros x Hx Hx'. eapply Hdis; [done|by constructor].
    + apply Forall_app. by split.
    + done.
    + intros f. simpl in *. rewrite lookup_delete_is_Some, Hps.
      rewrite !elem_of_app, elem_of_cons. split; [intros [? [?|[->|?]]]; tauto|].
      intros Hf1. split; [|tauto]. intros <-. destruct Hf1 as [Hf1|Hf1]; [|done].
      apply (Hdis client_fd); by constructor.
Qed.

(** ** What a step of the loop keeps of the sockets and players that stay *)

(** What is said to a client is only ever extended, while the client stays. *)
Definition says_more (s s' : Server) : Prop :=
  ∀ f p, player_of s f p → is_Some (players s' !! f) →
    ∃ p' new, player_of s' f p' ∧ (is_known p = true → is_known p' = true) ∧
      said s' f p' = said s f p ++ new.

(** Nobody is accepted. *)
Definition no_accept (s s' : Server) : Prop := ∃ o, trace s' = trace s ++ o ∧ ∀ f, Accepted f ∉ o.

Record keeps (s s' : Server) : Prop := {
  keeps_sockets pf : pf ∈ tail (poll_fds s') →
    ∃ pf0, pf0 ∈ tail (poll_fds s) ∧ fd pf0 = fd pf ∧ revents pf0 = revents pf;
  keeps_no_new f : is_Some (players s' !! f) → is_Some (players s !! f);
  keeps_said : says_more s s';
  keeps_listening : head (map fd (poll_fds s')) = head (map fd (poll_fds s));
  keeps_length : (length (poll_fds s') ≤ length (poll_fds s))%nat;
  keeps_now : now s' = now s;
  keeps_fds : fds_open s → fds_open s';
  keeps_outputs : no_accept s s';
  keeps_talks watched : talks watched s → talks watched s' }.

Lemma says_more_same s s' : players s' = players s → trace s' = trace s → says_more s s'.
Proof.
  intros Hp Ht f p Hf _. exists p, []. unfold said, player_of in *. by rewrite Hp, Ht, app_nil_r.
Qed.

Lemma outputs_same s s' : trace s' = trace s → no_accept s s'.
Proof. intros Ht. exists []. split; [by rewrite app_nil_r|]. intros f. apply not_elem_of_nil. Qed.
Lemma keeps_refl s : keeps s s.
Proof. constructor; try done; eauto; [by apply says_more_same|by apply outputs_same]. Qed.

Lemma keeps_trans s1 s2 s3 : keeps s1 s2 → keeps s2 s3 → keeps s1 s3.
Proof.
  intros [] []. constructor; try lia; try congruence.
  - intros pf (pf2 & Hin & Hf & Hr)%keeps_sockets1. apply keeps_sockets0 in Hin as (pf1 & Hin & Hf1 & Hr1).
    exists pf1. split; [done|]. split; congruence.
  - auto.
  - intros f p Hp Hs3. destruct (keeps_said0 f p Hp) as (p2 & new & Hp2 & Hk2 & Hs2); [auto|].
    destruct (keeps_said1 f p2 Hp2 Hs3) as (p3 & new' & Hp3 & Hk3 & Hs). exists p3, (new ++ new').
    rewrite Hs, Hs2, (assoc app). auto.
  - auto.
  - destruct keeps_outputs0 as (o & H1 & Ho), keeps_outputs1 as (o' & H2 & Ho'). exists (o ++ o').
    rewrite H2, H1, (assoc app). split; [done|]. intros f. rewrite elem_of_app. by intros [?%Ho|?%Ho'].
  - auto.
Qed.

(** One thing is done to a socket. *)
Lemma outputs_one s s' x : trace s' = trace s ++ [x] → (∀ f, x ≠ Accepted f) → no_accept s s'.
Proof. intros Ht Hx. exists [x]. split; [done|]. intros f Hin%list_elem_of_singleton. by eapply Hx. Qed.

Lemma logic_step_keeps s s' : logic_step s s' → keeps s s'.
Proof.
  intros []. constructor; [|intros f [p' Hp']; by eapply step_no_new|..| |by apply outputs_same|done].
  - rewrite step_poll_fds. eauto.
  - intros f p Hp _. destruct (step_players f p Hp) as (p' & ms & Hp' & Hm & Hk').
    exists p', (concat ms). unfold said. rewrite step_trace, Hm, concat_app, (assoc app). auto.
  - by rewrite step_poll_fds.
  - by rewrite step_poll_fds.
  - done.
  - apply fds_open_same; [done|]. intros f. split; [intros [p Hp]; by eapply step_no_new|].
    intros [p Hp]. destruct (step_players f p Hp) as (p' & _ & Hp' & _). by exists p'.
Qed.

Lemma tail_erase {A} (l : list A) n x : x ∈ tail (take (S n) l ++ drop (S (S n)) l) → x ∈ tail l.
Proof.
  destruct l as [|y l]; [done|]. simpl. rewrite <-(take_drop n l) at 3.
  rewrite !elem_of_app. intros [|Hx]; [by left|]. right.
  destruct (drop n l) as [|z l'] eqn:Hd.
  - rewrite <-Nat.add_1_r, <-drop_drop, Hd in Hx. by apply not_elem_of_nil in Hx.
  - rewrite <-Nat.add_1_r, <-drop_drop, Hd in Hx. simpl in Hx. by right.
Qed.

Lemma fds_disconnected s i client_fd p :
  player_of s client_fd p → fds_open s → fds_open (disconnected client_fd i p s).
Proof.
  intros Hp Hs. eapply (fds_open_outputs s _ [Closed client_fd]); [done|done|]. cbn [use_fds].
  rewrite use_fd_closed by (apply elem_of_dom; by exists p). simpl. by rewrite dom_delete_L.
Qed.

Lemma talks_disconnected watched s i client_fd p : talks watched s → talks watched (disconnected client_fd i p s).
Proof.
  intros [H2 H3].
  assert (∀ f q, player_of (disconnected client_fd i p s) f q → client_fd ≠ f ∧ player_of s f q) as Hq
    by (intros f q; apply lookup_delete_Some).
  split.
  - intros f q Hw [Hne Hfq]%Hq. unfold said, disconnected. simpl. rewrite sent_to_snoc. by apply H2.
  - intros f q d cb Hw [_ Hfq]%Hq. by apply H3.
Qed.

Lemma disconnected_keeps s i client_fd pf p :
  socket_of s i client_fd pf → player_of s client_fd p → keeps s (disconnected client_fd i p s) ∧
  S (length (poll_fds (disconnected client_fd i p s))) = length (poll_fds s).
Proof.
  intros [Hix Hl Hf] Hp. assert (S (length (poll_fds (disconnected client_fd i p s))) = length (poll_fds s)) as Hlen.
  { cbn [disconnected]. simpl. rewrite length_app, length_take, length_drop. lia. }
  split; [|done]. constructor; [| | | |lia|done|by apply fds_disconnected|by eapply (outputs_one _ _ (Closed client_fd))|
    intros watched; by apply talks_disconnected].
  - intros pf' Hin. cbn [disconnected] in Hin. simpl in Hin.
    replace (Z.to_nat i) with (S (Z.to_nat (i - 1))) in Hin by lia. apply tail_erase in Hin. eauto.
  - intros f Hs. change (is_Some (delete client_fd (players s) !! f)) in Hs.
    by apply lookup_delete_is_Some in Hs as [_ ?].
  - intros f q Hq Hs. change (is_Some (delete client_fd (players s) !! f)) in Hs.
    apply lookup_delete_is_Some in Hs as [Hne _]. exists q, []. split; [|split; [done|]].
    + change (delete client_fd (players s) !! f = Some q). by rewrite lookup_delete_ne.
    + unfold said. cbn [disconnected]. simpl. by rewrite sent_to_snoc, app_nil_r.
  - cbn [disconnected]. simpl. destruct (poll_fds s); [done|].
    by replace (Z.to_nat i) with (S (Z.to_nat (i - 1))) by lia.
Qed.

(** ** Timers *)

Lemma index_of_fd_spec l f :
  f ∈ map fd l → ∃ n pf, index_of_fd f l = Z.of_nat n ∧ l !! n = Some pf ∧ fd pf = f ∧ (n < length l)%nat.
Proof.
  induction l as [|pf l IH]; [by intros ?%not_elem_of_nil|]. simpl. intros Hin.
  destruct (Z.eqb_spec (fd pf) f) as [He|Hne]; [exists 0%nat, pf; repeat split; [done|lia]|].
  apply elem_of_cons in Hin as [|Hin]; [congruence|].
  destruct (IH Hin) as (k & pf' & -> & Hl & Hf & Hlt). exists (S k), pf'.
  rewrite Nat2Z.inj_succ. auto with lia.
Qed.

Lemma player_socket s client_fd p :
  inv_core s → player_of s client_fd p →
  ∃ pf, socket_of s (index_of_fd client_fd (poll_fds s)) client_fd pf.
Proof.
  intros Hi Hp. destruct (inv_sockets s Hi) as [Hnd Hr Hne H].
  assert (client_fd ∈ tail (map fd (poll_fds s))) as Hin by (apply H; by eexists).
  destruct (poll_fds s) as [|pf0 l] eqn:Hpf; [done|]. simpl in *. rewrite NoDup_cons in Hnd.
  destruct (Z.eqb_spec (fd pf0) client_fd) as [<-|Hne0]; [by destruct Hnd|].
  destruct (index_of_fd_spec l client_fd Hin) as (n & pf & -> & Hl & Hf & Hlt).
  exists pf. rewrite <-Nat2Z.inj_succ.
  constructor; rewrite ?Hpf; [simpl; lia| |done]. by rewrite Nat2Z.id.
Qed.

Lemma validate_client_spec s client_fd ip_ port_ :
  validate_client s client_fd ip_ port_ = true ↔
  ∃ p, player_of s client_fd p ∧ ip p = ip_ ∧ port p = port_.
Proof.
  unfold validate_client, player_of. destruct (players s !! client_fd) as [p|].
  - rewrite andb_true_iff, bool_decide_eq_true, Z.eqb_eq. split.
    + intros [? ?]. by exists p.
    + by intros (p' & [= ->] & ? & ?).
  - split; [done|by intros (p & ? & _)].
Qed.

(** Whether a player waits for a callback. *)
Definition waits_for (client_fd : Z) (p : PlayerInfo) (cb : Callback) : Prop :=
  if is_known p then gives_turn client_fd p cb else cb = CbHello client_fd (ip p) (port p).

(** What a callback does: nothing when its client is gone, the turn and an answer for the
    player it was set for, or the disconnection of a client that sent no [HELLO]. *)
Inductive callback_effect (cb : Callback) (s : Server) : Server → Prop :=
  | effect_none :
      (∀ fd p, player_of s fd p → ~ waits_for fd p cb) → callback_effect cb s s
  | effect_turn fd p msg :
      player_of s fd p → line_of (answer_to (K s) cb) msg → gives_turn fd p cb →
      callback_effect cb s (set_player fd (queue_message msg (p <| can_put := true |>)) s)
  | effect_disconnect fd p i pf :
      player_of s fd p → is_known p = false → socket_of s i fd pf → cb = CbHello fd (ip p) (port p) →
      callback_effect cb s (disconnected fd i p s).

(** An event gives the turn to one player, and no player still owing a [HELLO] waits for it. *)
Lemma gives_turn_waits fd p cb : gives_turn fd p cb → is_known p = false → ~ waits_for fd p cb.
Proof. unfold waits_for. by intros Hg -> ->. Qed.
Lemma gives_turn_only fd p cb fd' p' : gives_turn fd p cb → waits_for fd' p' cb → fd' = fd.
Proof.
  unfold waits_for. destruct (is_known p'); [|by intros Hg ->].
  destruct cb; [intros [-> _] [-> _]; done..|done].
Qed.

Lemma answer_effect s cb fd ip_ port_ id_ :
  (∀ fd' p', gives_turn fd' p' cb ↔ fd = fd' ∧ ip_ = ip p' ∧ port_ = port p' ∧ id_ = id p') →
  (∀ fd' ip' port', cb ≠ CbHello fd' ip' port') →
  (validate_client s fd ip_ port_ = false ∨
   ∃ p, player_of s fd p ∧ id p ≠ id_) → callback_effect cb s s.
Proof.
  intros Hg Hh Hno. apply effect_none. intros fd' p' Hp' Hw. unfold waits_for in Hw.
  destruct (is_known p'); [|by eapply Hh]. apply Hg in Hw as (-> & -> & -> & ->).
  destruct Hno as [Hv|(p & Hp & Hid)].
  - rewrite (proj2 (validate_client_spec s fd' (ip p') (port p'))) in Hv; [done|by exists p'].
  - unfold player_of in *. by simplify_eq.
Qed.

Definition has_effect (cb : Callback) (s : Server) : Prop :=
  ∃ s', run_callback cb s = Ret (tt, s') ∧ callback_effect cb s s'.
Lemma bad_put_callback s fd point value ip_ port_ id_ :
  in_s 32 point ∧ printable value → has_effect (CbBadPut fd point value ip_ port_ id_) s.
Proof.
  intros Hok.
  destruct (validate_client s fd ip_ port_) eqn:Hv; cycle 1.
  { exists s. split; [unfold run_callback; run_step; by rewrite Hv|].
    eapply (answer_effect s _ fd ip_ port_ id_); auto. }
  pose proof Hv as (p & Hp & Hip & Hport)%validate_client_spec.
  destruct (decide (id p = id_)) as [Hid|Hid]; cycle 1.
  { exists s. split; [unfold run_callback; run_step; rewrite Hv; cbn [negb]; run_step; by rewrite bool_decide_eq_false_2|].
    eapply (answer_effect s _ fd ip_ port_ id_); eauto. }
  eexists. split; [|apply (effect_turn _ _ fd p (pair_line (lit "BAD_PUT") point value) Hp)].
  - unfold run_callback. run_step. rewrite Hv. cbn [negb]. run_step. rewrite bool_decide_eq_true_2 by done. cbn [negb]. run_step.
    destruct (pair_message_some (lit "BAD_PUT") BadPutMessage_parseMessage BadPutMessage point value
      command_bad_put) as (m & v & Hm & _ & _ & Hraw); [done|done|by apply Hok|by apply Hok|].
    change (pair_message (lit "BAD_PUT" ++ [space])) with BadPutMessage_createMessage in Hm.
    rewrite Hm. run_step. rewrite Hraw, (append_message_back_ret _ _ _ _ (player_of_set _ _ _)).
    by rewrite set_player_twice.
  - by apply bad_put_answer; apply Hok.
  - by simpl.
Qed.
Lemma state_callback s fd msg ip_ port_ id_ :
  (6 ≤ length msg)%nat ∧ line_of (state_of (K s)) msg → has_effect (CbState fd msg ip_ port_ id_) s.
Proof.
  intros Hok.
  destruct (validate_client s fd ip_ port_) eqn:Hv; cycle 1.
  { exists s. split; [unfold run_callback; run_step; by rewrite Hv|].
    eapply (answer_effect s _ fd ip_ port_ id_); auto. }
  pose proof Hv as (p & Hp & Hip & Hport)%validate_client_spec.
  destruct (decide (id p = id_)) as [Hid|Hid]; cycle 1.
  { exists s. split; [unfold run_callback; run_step; rewrite Hv; cbn [negb]; run_step; by rewrite bool_decide_eq_false_2|].
    eapply (answer_effect s _ fd ip_ port_ id_); eauto. }
  eexists. split; [|apply (effect_turn _ _ fd p msg Hp)].
  - unfold run_callback. run_step. rewrite Hv. cbn [negb]. run_step. rewrite bool_decide_eq_true_2 by done. cbn [negb]. run_step.
    erewrite (bind_ret (lift_outcome _)); cycle 1.
    { unfold lift_outcome, substr_from. by rewrite (proj2 (Nat.ltb_ge _ _)) by apply Hok. }
    rewrite (update_player_ret _ _ _ _ (player_of_set _ _ _)). by rewrite set_player_twice.
  - apply Hok.
  - by simpl.
Qed.
Lemma hello_callback s fd ip_ port_ : inv_core s → has_effect (CbHello fd ip_ port_) s.
Proof.
  intros Hi.
  destruct (validate_client s fd ip_ port_) eqn:Hv; cycle 1.
  { exists s. split; [unfold run_callback; run_step; by rewrite Hv|].
    apply effect_none. intros fd' p' Hp' Hw. unfold waits_for in Hw.
    destruct (is_known p'); [done|]. injection Hw as -> -> ->.
    rewrite (proj2 (validate_client_spec s fd' (ip p') (port p'))) in Hv; [done|by exists p']. }
  pose proof Hv as (p & Hp & Hip & Hport)%validate_client_spec.
  destruct (is_known p) eqn:Hk.
  { exists s. split; [unfold run_callback; run_step; rewrite Hv; cbn [negb]; unfold getPlayerInfo; run_step; by rewrite Hk|].
    apply effect_none. intros fd' p' Hp' Hw. unfold waits_for in Hw.
    destruct (is_known p') eqn:Hk'; [done|]. injection Hw as <- _ _.
    unfold player_of in Hp, Hp'. rewrite Hp in Hp'. injection Hp' as ->. congruence. }
  destruct (player_socket s fd p Hi Hp) as [pf Hpf].
  eexists. split; [|eapply (effect_disconnect _ _ fd p _ pf); [done|done|done|by subst]].
  unfold run_callback. run_step. rewrite Hv. cbn [negb]. unfold getPlayerInfo. run_step. rewrite Hk. cbn [negb].
  by erewrite bind_ret by (eapply disconnect_client_ret; eassumption).
Qed.
Lemma run_callback_effect s cb : inv_core s → callback_ok (K s) cb → has_effect cb s.
Proof. intros Hi Hok. destruct cb; [by apply bad_put_callback|by apply state_callback|by apply hello_callback]. Qed.

Definition wait_limit (p : PlayerInfo) : Z := if is_known p then max_wait p else 3000.
Lemma turn_ok_waits T evs fd p :
  turn_ok T evs fd p ↔
    (is_known p = true ∧ can_put p = true) ∨
    ∃ d cb, (d, cb) ∈ evs ∧ waits_for fd p cb ∧ d ≤ T + wait_limit p.
Proof.
  unfold turn_ok, waits_for, wait_limit. destruct (is_known p); split.
  - by intros [|]; [left|right].
  - by intros [[]|]; [left|right].
  - intros (d & ? & ?). right. by exists d, (CbHello fd (ip p) (port p)).
  - intros [[]|(d & cb & ? & -> & ?)]; [done|]. by exists d.
Qed.

(** Every player who has to wait has an event due at most [wait_limit] after [T]. *)
Definition turns_ok (T : Z) (s : Server) : Prop := ∀ fd p, player_of s fd p → turn_ok T (events s) fd p.
Definition drop_event (s : Server) : Server := s <| events ::= tail |>.

Lemma effect_turns cb d evs s s' T :
  events s = (d, cb) :: evs → callback_effect cb s s' → turns_ok T s → turns_ok T (drop_event s').
Proof.
  intros Hev He Ht. unfold turns_ok in *. rewrite Hev in Ht.
  assert (events s' = events s) as Hev' by (by destruct He).
  assert (∀ fd p, player_of s fd p → ~ waits_for fd p cb → turn_ok T evs fd p) as Hother.
  { intros fd p Hp Hw. specialize (Ht fd p Hp). rewrite turn_ok_waits in *.
    destruct Ht as [|(d' & cb' & Hin & Hw' & Hd)]; [by left|]. right. exists d', cb'.
    apply elem_of_cons in Hin as [[= -> ->]|]; done. }
  intros fd' p' Hp'. unfold drop_event. simpl. rewrite Hev', Hev. simpl.
  change (player_of s' fd' p') in Hp'.
  destruct He as [Hno|fd p msg Hp Hm Hg|fd p i pf Hp Hk Hpf Hcb].
  - apply Hother; [done|]. by apply Hno.
  - unfold player_of, set_player in Hp'. simpl in Hp'. destruct (decide (fd' = fd)) as [->|Hne].
    + rewrite lookup_insert_eq in Hp'. injection Hp' as <-. unfold turn_ok. simpl.
      destruct (is_known p) eqn:Hk; [by left|].
      specialize (Hother fd p Hp (gives_turn_waits _ _ _ Hg Hk)). unfold turn_ok in Hother. by rewrite Hk in Hother.
    + rewrite lookup_insert_ne in Hp' by done. apply Hother; [done|].
      intros Hw. by apply Hne, (gives_turn_only fd p cb fd' p').
  - change (delete fd (players s) !! fd' = Some p') in Hp'.
    apply lookup_delete_Some in Hp' as [Hne Hp']. apply Hother; [done|].
    subst cb. unfold waits_for. destruct (is_known p'); [simpl; tauto|].
    intros Hw. injection Hw. congruence.
Qed.

Lemma effect_inv_core cb s s' : callback_effect cb s s' → inv s → inv s'.
Proof.
  intros [Hno|fd p msg Hp Hm Hg|fd p i pf Hp Hk Hpf Hcb] Hi; [done| |].
  - pose proof (inv_numbers s (proj1 Hi) fd p Hp) as Hn. apply (inv_set_player s fd p); try done.
    + apply numbers_ok_queue; [by eapply line_of_nonempty|]. by apply numbers_ok_can_put.
    + pose proof (inv_turn s (proj1 Hi) fd p Hp) as Ht. unfold turn_ok in *. simpl.
      destruct (is_known p); [by left|done].
  - by eapply disconnected_inv.
Qed.

Lemma drop_event_inv s : turns_ok (now s) (drop_event s) → inv s → inv (drop_event s).
Proof.
  intros Ht [[] Htot]. split; [|done]. constructor; try done; simpl.
  - by destruct (events s) as [|e evs]; [|apply Forall_cons in inv_callbacks as []].
  - destruct (events s) as [|e evs]; [done|]. simpl. by inversion inv_sorted.
Qed.

Lemma effect_inv cb d evs s s' :
  events s = (d, cb) :: evs → callback_effect cb s s' → inv s → inv (drop_event s').
Proof.
  intros Hev He Hi. apply drop_event_inv; [|by eapply effect_inv_core].
  assert (now s' = now s) as -> by (by destruct He).
  eapply effect_turns; [done|done|]. exact (inv_turn s (proj1 Hi)).
Qed.

(** What the timers leave alone. *)
Record timers_step (s s' : Server) : Prop := {
  timers_stopping : stopping s' = stopping s;
  timers_now : now s' = now s;
  timers_players fd p' : player_of s' fd p' →
    ∃ p ms, player_of s fd p ∧ messages p' = messages p ++ ms ∧
      is_known p' = is_known p ∧ delay p' = delay p;
  timers_known fd p : player_of s fd p → is_known p = true → ∃ p', player_of s' fd p' }.

Lemma timers_step_refl s : timers_step s s.
Proof.
  constructor; try done.
  - intros fd p Hp. exists p, []. by rewrite app_nil_r.
  - by eauto.
Qed.

Lemma timers_step_trans s1 s2 s3 : timers_step s1 s2 → timers_step s2 s3 → timers_step s1 s3.
Proof.
  intros [] []. constructor; try congruence.
  - intros fd p' (p & ms & Hp & Hm & Hk & Hd)%timers_players1.
    apply timers_players0 in Hp as (p0 & ms0 & Hp0 & Hm0 & Hk0 & Hd0).
    exists p0, (ms0 ++ ms). rewrite Hm, Hm0, (assoc app). repeat split; congruence.
  - intros fd p Hp Hk. destruct (timers_known0 fd p Hp Hk) as [p' Hp'].
    apply (timers_known1 fd p' Hp'). destruct (timers_players0 fd p' Hp') as (q & _ & Hq & _ & Hkq & _).
    unfold player_of in *. simplify_eq. congruence.
Qed.

Lemma effect_timers cb s s' : callback_effect cb s s' → timers_step s (drop_event s').
Proof.
  intros [Hno|fd p msg Hp Hm Hg|fd p i pf Hp Hk Hpf Hcb]; [by destruct (timers_step_refl s)| |].
  - constructor; try done.
    + intros fd' p'. unfold player_of, set_player. simpl. destruct (decide (fd' = fd)) as [->|Hne].
      * rewrite lookup_insert_eq. intros [= <-]. by exists p, [msg].
      * rewrite lookup_insert_ne by done. intros Hp'. exists p', []. by rewrite app_nil_r.
    + intros fd' p' Hp' _. unfold player_of, set_player in *. simpl. destruct (decide (fd' = fd)) as [->|Hne].
      * rewrite lookup_insert_eq. by eexists.
      * rewrite lookup_insert_ne by done. by exists p'.
  - constructor; try done.
    + intros fd' p' Hp'. change (delete fd (players s) !! fd' = Some p') in Hp'.
      apply lookup_delete_Some in Hp' as [_ Hp']. exists p', []. by rewrite app_nil_r.
    + intros fd' p' Hp' Hk'. exists p'. change (delete fd (players s) !! fd' = Some p').
      rewrite lookup_delete_ne; [done|]. intros ->. unfold player_of in *. simplify_eq. congruence.
Qed.

Lemma set_player_keeps s fd p q s0 o new :
  player_of s fd p → (is_known p = true → is_known q = true) →
  s0 = s <| trace ::= λ t, t ++ o |> →
  use_fds (dom (players s)) o = Some (dom (players s)) →
  (∀ f, f ≠ fd → sent_to f (trace s ++ o) = sent_to f (trace s)) →
  said s0 fd q = said s fd p ++ new → (∀ f, Accepted f ∉ o) →
  (∀ watched, talks watched s → talks watched (set_player fd q s0)) → keeps s (set_player fd q s0).
Proof.
  intros Hp Hk -> Hfds Ho Hsaid Hacc Ht. constructor; try done; [by eauto| | | |by exists o]; cycle 2.
  { intros Hs. eapply (fds_open_outputs s); [done|done|]. rewrite Hfds. f_equal. unfold set_player. simpl.
    rewrite dom_insert_lookup_L; [done|]. by exists p. }
  - intros f. unfold set_player. simpl. destruct (decide (f = fd)) as [->|Hne].
    + rewrite Hp. by eexists.
    + by rewrite lookup_insert_ne.
  - intros f r Hr _. destruct (decide (f = fd)) as [->|Hne].
    + exists q, new. split; [apply player_of_set|]. unfold player_of in *. by simplify_eq.
    + exists r, []. split; [|split; [done|]].
      * unfold player_of, set_player. simpl. by rewrite lookup_insert_ne.
      * unfold said. simpl. by rewrite Ho, app_nil_r.
Qed.

(** A step that changes nothing but events, [poll] entries and buffers. *)
Lemma drop_event_keeps s : keeps s (drop_event s).
Proof.
  destruct (keeps_refl s). constructor; try done. intros watched. apply talks_frame; try done.
  unfold drop_event. simpl. destruct (events s); [done|]. intros e He. by right.
Qed.

(** An answer goes to a player who is known: the others wait for no answer. *)
Lemma answered_talks watched d cb s fd p msg :
  (d, cb) ∈ events s → stopping s = false → player_of s fd p → line_of (answer_to (K s) cb) msg → gives_turn fd p cb →
  talks watched s → talks watched (set_player fd (queue_message msg (p <| can_put := true |>)) s).
Proof.
  intros Hin Hst Hp Hm Hg Ht.
  assert (watched fd → is_known p = true) as Hk.
  { intros Hw. destruct (is_known p) eqn:Hk; [done|]. by destruct (talks_unknown s Ht fd p d cb). }
  apply (talks_say s s fd p _ [msg]); try done. rewrite Hst. intros Hw b.
  apply conversation_replies; [by apply Hk..|done|]. constructor; [|done].
  eapply line_of_mono; [|exact Hm]. intros m Ha. by eapply answer_reply, answer_to_answer.
Qed.

Lemma effect_keeps d cb s s' :
  (d, cb) ∈ events s → stopping s = false → callback_effect cb s s' → keeps s (drop_event s').
Proof.
  intros Hin Hst He. eapply keeps_trans; [|apply drop_event_keeps].
  destruct He as [Hno|fd p msg Hp Hm Hg|fd p i pf Hp Hk Hpf Hcb].
  - apply keeps_refl.
  - assert (∀ watched, talks watched s →
      talks watched (set_player fd (queue_message msg (p <| can_put := true |>)) s)) as Ht
      by (intros watched; by eapply answered_talks).
    replace s with (s <| trace ::= λ t, t ++ [] |>) at 2 by (destruct s; simpl; by rewrite app_nil_r).
    apply (set_player_keeps s fd p _ _ [] msg Hp); [done|done|done|by intros; rewrite app_nil_r| |intros f; apply not_elem_of_nil|].
    + unfold said. simpl. rewrite app_nil_r, concat_app, (assoc app). simpl. by rewrite app_nil_r.
    + by replace (s <| trace ::= λ t, t ++ [] |>) with s by (destruct s; simpl; by rewrite app_nil_r).
  - by apply (disconnected_keeps s i fd pf p).
Qed.

Lemma events_due_filter time d cb evs :
  StronglySorted (not_gt EventManager.deadline_lt) ((d, cb) :: evs) → time < d →
  List.filter (λ e : Z * Callback, time <? fst e) ((d, cb) :: evs) = (d, cb) :: evs.
Proof.
  intros Hs Hd. inversion Hs as [|? ? _ Hall]; subst. simpl. rewrite (proj2 (Z.ltb_lt _ _)) by done.
  f_equal. clear Hs. induction Hall as [|[d' cb'] evs Hd' _ IH]; [done|]. simpl.
  unfold not_gt, EventManager.deadline_lt in Hd'. simpl in Hd'.
  rewrite (proj2 (Z.ltb_lt time d')) by lia. by rewrite IH.
Qed.

(** The loop of [check_timers] on a clock that reads [time], with a unit of fuel per event. *)
Lemma check_timers_loop_run fuel time s T :
  inv s → turns_ok T s → (length (events s) ≤ fuel)%nat →
  ∃ s', check_timers_loop fuel time s = Ret (tt, s') ∧ inv s' ∧ turns_ok T s' ∧ timers_step s s' ∧ (stopping s = false → keeps s s') ∧
    events s' = List.filter (λ e, time <? fst e) (events s).
Proof.
  revert s. induction fuel as [|fuel IH]; intros s Hi HT Hlen.
  { exists s. destruct (events s) eqn:Hev; [|simpl in Hlen; lia]. unfold check_timers_loop. run_step.
    rewrite Hev. repeat (split; [done|]). split; [apply timers_step_refl|]. split; [intros _; apply keeps_refl|done]. }
  cbn [check_timers_loop]. run_step. destruct (events s) as [|[d cb] evs] eqn:Hev.
  { exists s. repeat (split; [done|]). split; [apply timers_step_refl|]. split; [intros _; apply keeps_refl|done]. }
  pose proof (inv_callbacks s (proj1 Hi)) as Hok. rewrite Hev in Hok.
  apply Forall_cons in Hok as [Hok _].
  destruct (Z.leb_spec d time) as [Hd|Hd].
  - destruct (run_callback_effect s cb (proj1 Hi) Hok) as (s1 & Hrun & Heff).
    rewrite (bind_ret _ _ _ _ _ Hrun). cbv beta.
    rewrite (bind_ret (modify _) _ s1 tt (drop_event s1)) by done.
    assert (events (drop_event s1) = evs) as Hev1.
    { unfold drop_event. simpl. assert (events s1 = events s) as -> by (by destruct Heff). by rewrite Hev. }
    destruct (IH (drop_event s1)) as (s' & Hr & Hi' & HT' & Hst & Hk & Hev').
    + by eapply effect_inv.
    + by eapply effect_turns.
    + rewrite Hev1. simpl in Hlen. lia.
    + exists s'. split; [done|]. split; [done|]. split; [done|]. split.
      { eapply timers_step_trans; [by eapply effect_timers|done]. }
      split.
      { intros Hstop. eapply keeps_trans; [|apply Hk].
        - eapply (effect_keeps d cb s s1); [rewrite Hev; by left|done|done].
        - by rewrite (timers_stopping _ _ (effect_timers _ _ _ Heff)). }
      rewrite Hev', Hev1. simpl. rewrite (proj2 (Z.ltb_ge _ _)) by done. done.
  - exists s. split; [done|]. split; [done|]. split; [done|]. split; [apply timers_step_refl|]. split; [intros _; apply keeps_refl|].
    rewrite Hev. symmetry. apply events_due_filter; [|done]. rewrite <-Hev. apply (inv_sorted s (proj1 Hi)).
Qed.

(** ** New connections *)

(** What the kernel promises of [accept]: a descriptor that is not open yet. *)
Definition accept_fresh (r : AcceptResult) (s : Server) : Prop :=
  match r with
  | AcceptClient client_fd _ _ => (client_fd ∉ map fd (poll_fds s)) ∧ 0 ≤ client_fd < 2 ^ 31
  | _ => True
  end.

Definition new_player (s : Server) (ip_ : str) (port_ : Z) : PlayerInfo :=
  {| id := lit "UNKNOWN"; ip := ip_; port := port_; messages := [];
     approximations := replicate (Z.to_nat (K s + 1)) dzero;
     coefficients := replicate (Z.to_nat (N s + 1)) dzero;
     penalty := dzero; is_known := false; correct_puts := 0; can_put := false; delay := 0 |}.
Definition connected (client_fd : Z) (ip_ : str) (port_ : Z) (s : Server) : Server :=
  schedule (now s + constants.hello_wait_time) (CbHello client_fd ip_ port_)
    (s <| trace ::= λ t, t ++ [Accepted client_fd] |>
       <| poll_fds ::= λ l, l ++ [{| fd := client_fd; pevents := POLLIN; revents := 0 |}] |>
       <| players ::= <[client_fd := new_player s ip_ port_]> |>
       <| client_buffers ::= <[client_fd := []]> |>).

Lemma handle_new_connection_ret client_fd ip_ port_ s :
  handle_new_connection (AcceptClient client_fd ip_ port_) s = Ret (tt, connected client_fd ip_ port_ s).
Proof. reflexivity. Qed.

Lemma new_player_numbers s ip_ port_ : numbers_ok (K s) (N s) (new_player s ip_ port_).
Proof.
  constructor; simpl; try done; try (by rewrite length_replicate);
    try (by apply Forall_replicate, dzero_dabs).
Qed.

(** No answer to somebody else would pass for an answer to the new client: the callbacks compare
    descriptor, address and name, and a client has the name UNKNOWN before its [HELLO]. *)
Definition accept_unanswered (r : AcceptResult) (s : Server) : Prop :=
  match r with
  | AcceptClient client_fd ip_ port_ =>
      ∀ d cb, (d, cb) ∈ events s → ~ gives_turn client_fd (new_player s ip_ port_) cb
  | _ => True
  end.

Lemma fds_connected s client_fd ip_ port_ :
  players s !! client_fd = None → fds_open s → fds_open (connected client_fd ip_ port_ s).
Proof.
  intros Hnone Hs. eapply (fds_open_outputs s _ [Accepted client_fd]); [done|done|]. cbn [use_fds].
  rewrite use_fd_accepted by (by apply not_elem_of_dom). simpl. by rewrite dom_insert_L.
Qed.

Lemma talks_connected (watched : Z → Prop) s client_fd ip_ port_ :
  (watched client_fd → accept_unanswered (AcceptClient client_fd ip_ port_) s) →
  talks watched s → talks watched (connected client_fd ip_ port_ s).
Proof.
  intros Hun [H2 H3].
  assert (∀ f q, player_of (connected client_fd ip_ port_ s) f q →
    f = client_fd ∧ q = new_player s ip_ port_ ∨ client_fd ≠ f ∧ player_of s f q) as Hq.
  { intros f q. unfold player_of, connected, schedule. simpl. destruct (decide (client_fd = f)) as [->|Hne].
    - rewrite lookup_insert_eq. intros [= <-]. by left.
    - rewrite lookup_insert_ne by done. by right. }
  split.
  - intros f q Hw Hfq. unfold said, connected, schedule. simpl. rewrite sent_to_snoc.
    apply Hq in Hfq as [[-> ->]|[Hne Hfq]]; [by rewrite Z.eqb_refl|].
    rewrite (proj2 (Z.eqb_neq client_fd f) Hne). by apply H2.
  - intros f q d cb Hw Hfq Hk Hin. unfold connected, schedule in Hin. simpl in Hin.
    apply elem_of_ordered_insert in Hin as [[= -> ->]|Hin]; [by intros []|].
    apply Hq in Hfq as [[-> ->]|[Hne Hfq]]; [by apply (Hun Hw d cb)|by eapply H3].
Qed.

Lemma connected_inv s client_fd ip_ port_ :
  accept_fresh (AcceptClient client_fd ip_ port_) s → inv s → inv (connected client_fd ip_ port_ s).
Proof.
  intros [Hfresh Hrange] [Hi Htot]. split; [|done].
  assert (players s !! client_fd = None) as Hnone.
  { destruct (players s !! client_fd) as [p|] eqn:Hp; [|done]. exfalso. apply Hfresh.
    destruct (inv_sockets s Hi) as [_ _ _ H]. assert (client_fd ∈ tail (map fd (poll_fds s))) as Hin
      by (apply H; by eexists).
    destruct (map fd (poll_fds s)); [done|]. by right. }
  destruct Hi. constructor; try done.
  - simpl. by rewrite sum_puts_insert.
  - intros f p Hp. unfold player_of in Hp. simpl in Hp. destruct (decide (f = client_fd)) as [->|Hne].
    + rewrite lookup_insert_eq in Hp. injection Hp as <-. exact (new_player_numbers s ip_ port_).
    + rewrite lookup_insert_ne in Hp by done. exact (inv_numbers f p Hp).
  - intros f p Hp. unfold player_of in Hp. simpl in Hp. destruct (decide (f = client_fd)) as [->|Hne].
    + rewrite lookup_insert_eq in Hp. injection Hp as <-. unfold turn_ok. simpl.
      eexists. split; [apply elem_of_ordered_insert; by left|]. unfold constants.hello_wait_time. lia.
    + rewrite lookup_insert_ne in Hp by done. eapply turn_ok_mono; [|by apply (inv_turn f)].
      intros e He. apply elem_of_ordered_insert. by right.
  - unfold connected, schedule. simpl. rewrite ordered_insert_perm. apply Forall_cons. by split.
  - unfold connected, schedule. simpl. apply ordered_insert_sorted; [apply deadline_swo|done].
  - destruct inv_sockets as [Hnd Hr Hne Hps]. simpl. rewrite map_app. constructor.
    + apply NoDup_app. split; [done|]. split; [|by apply NoDup_singleton].
      intros x Hx ->%list_elem_of_singleton. done.
    + apply Forall_app. split; [done|]. by constructor.
    + by destruct (map fd (poll_fds s)).
    + intros f. destruct (map fd (poll_fds s)) as [|l0 l] eqn:Hl; [done|]. simpl in *.
      rewrite elem_of_app, list_elem_of_singleton, <-Hps.
      destruct (decide (f = client_fd)) as [->|Hnf].
      * rewrite lookup_insert_eq. split; [by right|by eexists].
      * rewrite lookup_insert_ne by done. split; [by left|by intros [|]].
Qed.

(** There are at most [2^31] sockets. *)
Lemma nodup_range_length l n : NoDup l → Forall (λ f, 0 ≤ f < n) l → Z.of_nat (length l) ≤ Z.max 0 n.
Proof.
  intros Hnd Hr. assert (l ⊆+ seqZ 0 n) as Hs.
  { apply NoDup_submseteq; [done|]. intros x Hx. apply elem_of_seqZ.
    rewrite Forall_forall in Hr. specialize (Hr x Hx). lia. }
  apply submseteq_length in Hs. rewrite length_seqZ in Hs. lia.
Qed.

Lemma sockets_bound s : inv_core s → Z.of_nat (length (poll_fds s)) ≤ 2 ^ 31.
Proof.
  intros Hi. destruct (inv_sockets s Hi) as [Hnd Hr _ _].
  pose proof (nodup_range_length _ _ Hnd Hr) as H. rewrite length_map in H. lia.
Qed.

Lemma wrap_index i : 1 ≤ i ≤ 2 ^ 31 → wrap 64 (i - 1) = i - 1 ∧ wrap 64 (i - 1 + 1) = i ∧ wrap 64 (i + 1) = i + 1.
Proof. intros. rewrite !wrap_small; [lia|unfold in_u; lia..]. Qed.
