(* ===== verification/Courtesy.v ===== *)
(** * Turns: who waits for whom

    A client has the turn after a COEFF, a STATE or a BAD_PUT; a PUT gives it away. [polite] says of
    the record of a connection that the client keeps to this: at no moment has the server received
    more PUTs than it had sent turns. [courteous] is what the server then does to those of some
    [watched] descriptors: nobody who is polite is ever sent a PENALTY, everybody who waits has exactly one answer due, and whoever puts in range
    is credited for each PUT and never sent a BAD_PUT. This file shows it of
    the handlers, the timers and the other steps; [MainLoop.v] shows it of the loop. *)
From Stdlib Require Import Ascii String SpecFloat.
From S2P Require Import Prelude CString Double Constants MsgParser ServerState ServerLogic Server Handlers.
From S2P Require Import Framing Conversation GameInvariant EventLoop.

(** ** Counting messages *)
Definition put_message (m : Message) : bool := match body m with PutMessage _ _ => true | _ => false end.
Definition turn_message (m : Message) : bool :=
  match body m with CoeffMessage _ | BadPutMessage _ _ | StateMessage _ => true | _ => false end.
Definition penalty_message (m : Message) : bool := match body m with PenaltyMessage _ _ => true | _ => false end.
Definition bad_put_message (m : Message) : bool := match body m with BadPutMessage _ _ => true | _ => false end.

Definition messages_of_lines (ls : list str) : list Message := omap createMessageWithCRLF ls.
Definition messages_in (bytes : str) : list Message := messages_of_lines (fst (all_frames bytes)).
Definition count (k : Message → bool) (ms : list Message) : nat := length (List.filter k ms).
Definition puts_in (bytes : str) : nat := count put_message (messages_in bytes).
Definition turns_in (bytes : str) : nat := count turn_message (messages_in bytes).
Definition puts_of (ls : list str) : nat := count put_message (messages_of_lines ls).

Lemma count_app k ms ms' : count k (ms ++ ms') = (count k ms + count k ms')%nat.
Proof. unfold count. by rewrite List.filter_app, length_app. Qed.
Lemma messages_of_lines_app ls ls' : messages_of_lines (ls ++ ls') = messages_of_lines ls ++ messages_of_lines ls'.
Proof. apply omap_app. Qed.
Lemma puts_of_app ls ls' : puts_of (ls ++ ls') = (puts_of ls + puts_of ls')%nat.
Proof. unfold puts_of. by rewrite messages_of_lines_app, count_app. Qed.
Lemma count_prefix k ms ms' : ms `prefix_of` ms' → (count k ms ≤ count k ms')%nat.
Proof. intros [more ->]. rewrite count_app. lia. Qed.

Lemma read_lines_messages ls ms : read_lines ls = Some ms → messages_of_lines ls = ms.
Proof.
  unfold read_lines, messages_of_lines. revert ms. induction ls as [|l ls IH]; intros ms; cbn [mapM]; [by intros [= <-]|].
  destruct (createMessage (l ++ crlf)) as [m|] eqn:Hm; [|done]. cbn [mbind option_bind].
  destruct (mapM _ ls) as [ms'|]; [|done]. intros [= <-]. cbn [omap list_omap].
  unfold createMessageWithCRLF at 1. rewrite Hm. f_equal. by apply IH.
Qed.

(** No PUT out of the range of a game on the points [0..k]; no STATE of another game. *)
Definition good_put (k : Z) (m : Message) : Prop :=
  match body m with PutMessage point value => put_out_of_range k point value = false | _ => True end.
Definition good_state (k : Z) (m : Message) : Prop :=
  match body m with StateMessage values => Z.of_nat (length values) = k + 1 | _ => True end.
Definition in_range (k : Z) (ls : list str) : Prop := Forall (good_put k) (messages_of_lines ls).
Lemma in_range_app k ls ls' : in_range k (ls ++ ls') ↔ in_range k ls ∧ in_range k ls'.
Proof. unfold in_range. by rewrite messages_of_lines_app, Forall_app. Qed.

(** The turns in the first bytes of some messages. *)
Lemma turns_in_prefix bytes ms :
  Forall made ms → bytes `prefix_of` concat (map raw_message ms) → (turns_in bytes ≤ count turn_message ms)%nat.
Proof.
  intros Hms Hp. destruct (frames_of_prefix bytes ms Hms Hp) as (ms1 & Hms1 & Hp1).
  unfold turns_in, messages_in. rewrite (read_lines_messages _ _ Hms1). by apply count_prefix.
Qed.

(** ** Polite clients *)

(** The bytes received on the connection that was last accepted on a descriptor. *)
Definition received_from (client_fd : Z) (t : list Output) : str :=
  fold_left (λ acc o,
    match o with
    | Accepted f => if f =? client_fd then [] else acc
    | Received f b => if f =? client_fd then acc ++ b else acc
    | Sent _ _ | Closed _ => acc
    end) t [].
Lemma received_from_snoc f t o :
  received_from f (t ++ [o]) =
    match o with
    | Accepted f' => if f' =? f then [] else received_from f t
    | Received f' b => if f' =? f then received_from f t ++ b else received_from f t
    | Sent _ _ | Closed _ => received_from f t
    end.
Proof. unfold received_from. by rewrite fold_left_app. Qed.

Definition polite (client_fd : Z) (t : list Output) : Prop :=
  ∀ t1 t2, t = t1 ++ t2 → Accepted client_fd ∉ t2 →
    (puts_in (received_from client_fd t1) ≤ turns_in (sent_to client_fd t1))%nat.

Lemma polite_app f t o : Accepted f ∉ o → polite f (t ++ o) → polite f t.
Proof.
  intros Ho Hp t1 t2 -> Ht2. apply (Hp t1 (t2 ++ o)); [by rewrite (assoc app)|].
  rewrite elem_of_app. by intros [|].
Qed.
Lemma polite_now f t : polite f t → (puts_in (received_from f t) ≤ turns_in (sent_to f t))%nat.
Proof. intros Hp. apply (Hp t []); [by rewrite app_nil_r|apply not_elem_of_nil]. Qed.

(** ** Answers that are due *)

(** The callback was made for this descriptor, address and port, whatever the name. *)
Definition about (client_fd : Z) (p : PlayerInfo) (cb : Callback) : Prop :=
  match cb with
  | CbBadPut fd _ _ ip' port' _ | CbState fd _ ip' port' _ => fd = client_fd ∧ ip' = ip p ∧ port' = port p
  | CbHello _ _ _ => False
  end.
#[export] Instance about_dec client_fd p cb : Decision (about client_fd p cb).
Proof. destruct cb; apply _. Defined.
Definition answers_due (client_fd : Z) (p : PlayerInfo) (evs : list (Z * Callback)) : list (Z * Callback) :=
  filter (λ e, about client_fd p (snd e)) evs.
(** One answer is due to a player who waits, none to the others. *)
Definition due_ok (client_fd : Z) (p : PlayerInfo) (evs : list (Z * Callback)) : Prop :=
  if is_known p && negb (can_put p)
  then ∃ e, answers_due client_fd p evs = [e] ∧ gives_turn client_fd p (snd e)
  else answers_due client_fd p evs = [].

Lemma gives_turn_about f p cb : gives_turn f p cb → about f p cb.
Proof. destruct cb; simpl; tauto. Qed.

Lemma answers_due_insert f p e evs :
  answers_due f p (ordered_insert EventManager.deadline_lt e evs) ≡ₚ answers_due f p (e :: evs).
Proof. unfold answers_due. by rewrite ordered_insert_perm. Qed.

Lemma answers_due_other f p e evs :
  ~ about f p (snd e) → answers_due f p (ordered_insert EventManager.deadline_lt e evs) ≡ₚ answers_due f p evs.
Proof. intros He. rewrite answers_due_insert. unfold answers_due. by rewrite filter_cons_False. Qed.

Lemma due_ok_perm f p evs evs' : answers_due f p evs' ≡ₚ answers_due f p evs → due_ok f p evs → due_ok f p evs'.
Proof.
  unfold due_ok. intros Hp. destruct (is_known p && negb (can_put p)).
  - intros (e & He & Hg). exists e. split; [|done]. rewrite He in Hp. by apply Permutation_singleton_r in Hp.
  - intros He. rewrite He in Hp. by apply Permutation_nil_r in Hp.
Qed.

Lemma due_ok_new f p d cb evs :
  answers_due f p evs = [] → is_known p = true → can_put p = false → gives_turn f p cb →
  due_ok f p (ordered_insert EventManager.deadline_lt (d, cb) evs).
Proof.
  intros He Hk Hc Hg. unfold due_ok. rewrite Hk, Hc. exists (d, cb). split; [|done].
  apply Permutation_singleton_r. rewrite answers_due_insert. unfold answers_due in *.
  by rewrite filter_cons_True, He by (by apply gives_turn_about).
Qed.

(** ** Fair states *)
Definition turn_of (p : PlayerInfo) : nat := if can_put p then 1 else 0.

Definition gives_state (cb : Callback) : Prop := match cb with CbState _ _ _ _ _ => True | _ => False end.
(** Each PUT among the lines [taken] was accepted, and none cost a penalty. *)
Record paid (client_fd : Z) (p : PlayerInfo) (taken : list str) (evs : list (Z * Callback)) : Prop := {
  paid_puts : correct_puts p = Z.of_nat (puts_of taken);
  paid_penalty : penalty p = dzero;
  paid_due : Forall (λ e, gives_state (snd e)) (answers_due client_fd p evs) }.

(** What the server owes a player whose lines [taken] were handled, when [next] is about to be
    handled and the rest is in the buffer: no PENALTY, and a turn for each PUT; if all were in range,
    no BAD_PUT, and credit for each PUT. *)
Record fair (s : Server) (client_fd : Z) (p : PlayerInfo) (taken next : list str) : Prop := {
  fair_lines : all_frames (received_from client_fd (trace s)) =
    (taken ++ next ++ fst (all_frames (client_buffer s client_fd)), snd (all_frames (client_buffer s client_fd)));
  fair_said : ∃ ms, said s client_fd p = concat (map raw_message ms) ∧ Forall made ms ∧
    count penalty_message ms = 0%nat ∧ count turn_message ms = (puts_of taken + turn_of p)%nat ∧
    Forall (good_state (K s)) ms ∧ (in_range (K s) taken → count bad_put_message ms = 0%nat);
  fair_due : due_ok client_fd p (events s);
  fair_unknown : is_known p = false → can_put p = false ∧ taken = [];
  fair_paid : in_range (K s) taken → paid client_fd p taken (events s) }.


(** A player changes in a step that receives nothing. *)
Lemma fair_step s s' f p q taken taken' next next' new :
  K s' = K s → taken `prefix_of` taken' →
  received_from f (trace s') = received_from f (trace s) → client_buffer s' f = client_buffer s f →
  taken' ++ next' = taken ++ next →
  said s' f q = said s f p ++ concat (map raw_message new) → Forall made new → count penalty_message new = 0%nat →
  (count turn_message new + puts_of taken + turn_of p = puts_of taken' + turn_of q)%nat →
  due_ok f q (events s') → (is_known q = false → can_put q = false ∧ taken' = []) →
  Forall (good_state (K s)) new → (in_range (K s) taken' → count bad_put_message new = 0%nat) →
  (in_range (K s) taken' → paid f p taken (events s) → paid f q taken' (events s')) →
  fair s f p taken next → fair s' f q taken' next'.
Proof.
  intros HK [more ->] Hr Hb Hl Hsaid Hmade Hpen Hcount Hdue Hunk Hst Hbad Hpaid [H1 (ms & H2 & H3 & H4 & H5 & H6 & H7) _ _ H8].
  assert (in_range (K s) (taken ++ more) → in_range (K s) taken) as Hrange by (by intros [? _]%in_range_app).
  split; rewrite ?HK; [| |done|done|auto].
  - by rewrite Hr, H1, Hb, !(assoc app), Hl.
  - exists (ms ++ new). rewrite Hsaid, H2, map_app, concat_app, !count_app. split; [done|].
    split; [by apply Forall_app|]. split; [lia|]. split; [lia|]. split; [by apply Forall_app|].
    intros H. by rewrite (H7 (Hrange H)), (Hbad H).
Qed.

Lemma paid_perm f p taken evs evs' :
  answers_due f p evs' ≡ₚ answers_due f p evs → paid f p taken evs → paid f p taken evs'.
Proof. intros He [H1 H2 H3]. split; [done|done|]. by rewrite He. Qed.

(** Nobody's turn, PUT or PENALTY. *)
Definition neutral (m : Message) : Prop := turn_message m = false ∧ penalty_message m = false.
Lemma count_neutral k ms :
  Forall neutral ms →
  count turn_message ms = 0%nat ∧ count penalty_message ms = 0%nat ∧ count bad_put_message ms = 0%nat ∧
  Forall (good_state k) ms.
Proof.
  unfold count, neutral, turn_message, penalty_message, bad_put_message, good_state.
  induction 1 as [|m ms [H1 H2] _ IH]; [done|]. cbn [List.filter]. rewrite Forall_cons. destruct IH as (? & ? & ? & ?). by destruct (body m).
Qed.

(** Nothing about a player changes but what is said that is no turn. *)
Lemma fair_quiet s s' f p q taken next new :
  K s' = K s → received_from f (trace s') = received_from f (trace s) → client_buffer s' f = client_buffer s f →
  events s' = events s → q = p <| messages := messages q |> →
  said s' f q = said s f p ++ concat (map raw_message new) → Forall made new → Forall neutral new →
  fair s f p taken next → fair s' f q taken next.
Proof.
  intros HK Hr Hb He Hq Hs Hm (Ht & Hp & Hbad & Hg)%(count_neutral (K s)) Hf.
  eapply (fair_step s s' f p q taken taken next next new); try done; rewrite ?He.
  - rewrite Ht, Hq. by unfold turn_of.
  - rewrite Hq. exact (fair_due _ _ _ _ _ Hf).
  - rewrite Hq. exact (fair_unknown _ _ _ _ _ Hf).
  - intros _ [H1 H2 H3]. rewrite Hq. by split.
Qed.

(** Nothing about a player changes but the events about others. *)
Lemma fair_same s s' f p taken next :
  K s' = K s → received_from f (trace s') = received_from f (trace s) → sent_to f (trace s') = sent_to f (trace s) →
  client_buffer s' f = client_buffer s f →
  answers_due f p (events s') ≡ₚ answers_due f p (events s) →
  fair s f p taken next → fair s' f p taken next.
Proof.
  intros HK Hr Hs Hb He Hf. eapply (fair_step s s' f p p taken taken next next []); try done.
  - unfold said. by rewrite Hs, app_nil_r.
  - eapply due_ok_perm; [done|]. apply Hf.
  - apply Hf.
  - intros _. by apply paid_perm.
Qed.

(** ** The handlers *)
Section watched.
Context {watched : Z → Prop}.

(** Everybody polite on a descriptor that is watched is treated fairly; [but] is under way. *)
Definition courteous_but (but : Z) (s : Server) : Prop :=
  ∀ f p, watched f → f ≠ but → player_of s f p → polite f (trace s) → ∃ taken, fair s f p taken [].
Definition courteous (s : Server) : Prop :=
  ∀ f p, watched f → player_of s f p → polite f (trace s) → ∃ taken, fair s f p taken [].

Lemma courteous_courteous_but f s : courteous s → courteous_but f s.
Proof. intros Hs f' p Hw _. by apply Hs. Qed.

(** The line that was just taken is handled. *)
Definition handled (f : Z) (s' : Server) : Prop :=
  courteous_but f s' ∧
  ∀ q, watched f → player_of s' f q → is_known q = true → polite f (trace s') → ∃ taken, fair s' f q taken [].

Section handlers.
Context (s : Server) (f : Z) (p : PlayerInfo) (line : str).
Hypothesis Hp : player_of s f p.
Hypothesis Hothers : courteous_but f s.
Hypothesis Hmine : watched f → polite f (trace s) → ∃ taken, fair s f p taken [line].

(** A line that is no PUT, or that was said before HELLO, changes nothing. *)
Lemma handled_nothing : puts_of [line] = 0%nat ∨ is_known p = false → handled f s.
Proof using Hp Hothers Hmine.
  intros Hl. split; [done|]. intros q Hw Hq Hk Hpol. unfold player_of in *. simplify_eq.
  destruct Hl as [Hl|]; [|congruence]. destruct (Hmine Hw Hpol) as [taken Hf]. exists (taken ++ [line]).
  eapply (fair_step s s f p p taken (taken ++ [line]) [line] [] []); try done.
  - by apply prefix_app_r.
  - by rewrite app_nil_r.
  - by rewrite app_nil_r.
  - rewrite puts_of_app, Hl. simpl. lia.
  - apply Hf.
  - by rewrite Hk.
  - intros _ [H1 H2 H3]. split; [|done|done]. rewrite puts_of_app, Hl. lia.
Qed.

(** The state of one player and the events about that player change. *)
Lemma handled_player s' q :
  K s' = K s → trace s' = trace s → client_buffers s' = client_buffers s →
  players s' = <[f := q]> (players s) →
  (∀ f' p', f' ≠ f → answers_due f' p' (events s') ≡ₚ answers_due f' p' (events s)) →
  (polite f (trace s) → ∀ taken, fair s f p taken [line] → ∃ new,
     messages q = messages p ++ map raw_message new ∧ Forall made new ∧ count penalty_message new = 0%nat ∧
     (count turn_message new + turn_of p = puts_of [line] + turn_of q)%nat ∧ due_ok f q (events s') ∧
     Forall (good_state (K s)) new ∧ count bad_put_message new = 0%nat ∧
     (in_range (K s) [line] → paid f p taken (events s) → paid f q (taken ++ [line]) (events s'))) →
  is_known q = true → handled f s'.
Proof using Hp Hothers Hmine.
  intros HK Htr Hbuf Hps Hev Hturn Hk.
  assert (∀ g, client_buffer s' g = client_buffer s g) as Hb by (intros g; unfold client_buffer; by rewrite Hbuf).
  split.
  - intros g r Hw Hne Hr Hpol. unfold player_of in Hr. rewrite Hps, lookup_insert_ne in Hr by done. rewrite Htr in Hpol.
    destruct (Hothers g r Hw Hne Hr Hpol) as [taken Hf]. exists taken.
    eapply (fair_same s); [done|by rewrite Htr..|apply Hb|by apply Hev|done].
  - intros r Hw Hr _ Hpol. unfold player_of in Hr. rewrite Hps, lookup_insert_eq in Hr. injection Hr as <-.
    rewrite Htr in Hpol. destruct (Hmine Hw Hpol) as [taken Hf]. destruct (Hturn Hpol taken Hf) as (new & Hm & Hmade & Hpen & Hc & Hdue & Hst & Hbad & Hpaid).
    exists (taken ++ [line]). eapply (fair_step s s' f p q taken (taken ++ [line]) [line] [] new); try done.
    + by apply prefix_app_r.
    + by rewrite Htr.
    + by rewrite app_nil_r.
    + unfold said. by rewrite Htr, Hm, concat_app, (assoc app).
    + rewrite puts_of_app. lia.
    + by rewrite Hk.
    + intros [_ H]%in_range_app. auto.
Qed.

(** A polite player who sends a PUT has the turn. *)
Lemma polite_has_turn taken :
  polite f (trace s) → fair s f p taken [line] → puts_of [line] = 1%nat → can_put p = true.
Proof using Type.
  intros Hpol [H1 (ms & H2 & H3 & _ & H5 & _) _ _ _] Hl. apply polite_now in Hpol.
  assert (turns_in (sent_to f (trace s)) ≤ count turn_message ms)%nat as Hturns.
  { apply turns_in_prefix; [done|]. rewrite <-H2. unfold said. by apply prefix_app_r. }
  unfold puts_in, messages_in in Hpol. rewrite H1 in Hpol. cbn [fst] in Hpol.
  fold (puts_of (taken ++ [line] ++ (all_frames (client_buffer s f)).1)) in Hpol.
  rewrite !puts_of_app in Hpol. unfold turn_of in H5. destruct (can_put p); [done|]. lia.
Qed.

(** An event about this player leaves what is due to the others. *)
Lemma due_others d cb g r :
  g ≠ f → (∀ h r, about h r cb → h = f) →
  answers_due g r (ordered_insert EventManager.deadline_lt (d, cb) (events s)) ≡ₚ answers_due g r (events s).
Proof using Type. intros Hg Hcb. apply answers_due_other. simpl. intros Ha%Hcb. done. Qed.

(** HELLO gives the coefficients, and with them the turn. *)
Lemma hello_handled name m coeffs text :
  is_known p = false → puts_of [line] = 0%nat → createMessage text = Some m → body m = CoeffMessage coeffs →
  handled f (set_player f (queue_message (raw_message m) (named name p <| coefficients := coeffs |>))
               (s <| coeff_file := snd (getline (coeff_file s)) |>)).
Proof using Hp Hothers Hmine.
  intros Hk Hl Hm Hb. eapply handled_player; try done.
  intros Hpol taken Hf. exists [m]. split; [done|]. split.
  { constructor; [|done]. unfold made. by rewrite (proj1 (createMessage_line _ _ Hm)). }
  unfold count, turn_message, penalty_message. simpl. rewrite Hb. split; [done|].
  destruct (fair_unknown _ _ _ _ _ Hf Hk) as [Hc _]. unfold turn_of. simpl. rewrite Hc, Hl. split; [done|].
  pose proof (fair_due _ _ _ _ _ Hf) as Hd. unfold due_ok in *. rewrite Hk in Hd. simpl in *. split; [exact Hd|].
  rewrite Forall_singleton. unfold good_state, bad_put_message. rewrite Hb. do 2 (split; [done|]).
  intros _ [H1 H2 H3]. split; [|exact H2|exact H3]. rewrite puts_of_app, Hl, Nat.add_0_r. exact H1.
Qed.

(** A PUT on time: one answer is scheduled, and the turn is gone; if it is in range, it counts. *)
Lemma put_handled s' q d cb :
  is_known p = true → can_put p = true → puts_of [line] = 1%nat →
  (in_range (K s) [line] → gives_state cb ∧ correct_puts q = Z.succ (correct_puts p) ∧ penalty q = penalty p) →
  K s' = K s → trace s' = trace s → client_buffers s' = client_buffers s → players s' = <[f := q]> (players s) →
  events s' = ordered_insert EventManager.deadline_lt (d, cb) (events s) →
  messages q = messages p → is_known q = true → can_put q = false → gives_turn f q cb →
  (∀ evs, answers_due f q evs = answers_due f p evs) → (∀ h r, about h r cb → h = f) → handled f s'.
Proof using Hp Hothers Hmine.
  intros Hk Hc Hl Hgood HK Htr Hbuf Hps Hev Hm Hkq Hcq Hg Hdue Hcb. apply (handled_player s' q); try done.
  - intros g r Hne. rewrite Hev. by apply due_others.
  - intros Hpol taken Hf. exists []. rewrite app_nil_r. split; [done|]. split; [done|]. split; [done|].
    unfold turn_of. rewrite Hc, Hcq, Hl, Hev. split; [done|].
    assert (answers_due f q (events s) = []) as Hnone.
    { rewrite Hdue. pose proof (fair_due _ _ _ _ _ Hf) as Hd. unfold due_ok in Hd. by rewrite Hk, Hc in Hd. }
    split; [by apply due_ok_new|]. split; [done|]. split; [done|]. intros (Hcb1 & Hcr & Hpen)%Hgood [H1 H2 _]. split; [|congruence|].
    + rewrite puts_of_app, Hl. lia.
    + rewrite answers_due_insert. unfold answers_due in *. rewrite filter_cons_True, Hnone by (by apply gives_turn_about).
      by constructor.
Qed.

(** Whoever is polite does not get here: a PUT out of turn. *)
Lemma early_put_handled s' q :
  can_put p = false → puts_of [line] = 1%nat →
  K s' = K s → trace s' = trace s → client_buffers s' = client_buffers s → players s' = <[f := q]> (players s) → is_known q = true →
  (∀ g r, g ≠ f → answers_due g r (events s') ≡ₚ answers_due g r (events s)) → handled f s'.
Proof using Hp Hothers Hmine.
  intros Hc Hl HK Htr Hbuf Hps Hk Hev. apply (handled_player s' q); try done.
  intros Hpol taken Hf. pose proof (polite_has_turn taken Hpol Hf Hl). congruence.
Qed.
End handlers.

(** The scores are no turn and no PENALTY. *)
Lemma scoring_fair s f p taken m :
  made m → is_scoring m → fair s f p taken [] →
  let text := raw_message m in
  fair (with_players (queue_for (λ _ p, is_known p) text (players s)) s <| stopping := true |>) f
    (if is_known p then queue_message text p else p) taken [].
Proof.
  intros Hm (ids & scores & Hb) Hf text.
  assert (neutral m) by (unfold neutral, turn_message, penalty_message; by rewrite Hb).
  destruct (is_known p).
  - eapply (fair_quiet s _ f p _ taken [] [m]); try done; try by constructor.
    unfold said. simpl. by rewrite concat_app, (assoc app).
  - eapply (fair_quiet s _ f p p taken [] []); try done; [by destruct p|]. unfold said. by rewrite app_nil_r.
Qed.

Lemma scoring_handled s f text :
  line_of is_scoring text → handled f s →
  handled f (with_players (queue_for (λ _ p, is_known p) text (players s)) s <| stopping := true |>).
Proof.
  intros (m & Hm & <- & Hsc) [Ho Hf]. split.
  - intros g q Hw Hne (p & Hp & ->)%player_of_queue_for Hpol. destruct (Ho g p Hw Hne Hp Hpol) as [taken Hfair].
    exists taken. by apply scoring_fair.
  - intros q Hw (p & Hp & ->)%player_of_queue_for Hk Hpol.
    assert (is_known p = true) as Hkp by (destruct (is_known p) eqn:Hkp; [done|congruence]).
    destruct (Hf p Hw Hp Hkp Hpol) as [taken Hfair]. exists taken. by apply scoring_fair.
Qed.

(** ** One line *)
Lemma game_over_handled s f :
  inv_core s → total_correct_puts s ≤ M_ s → (∃ fd p, player_of s fd p ∧ is_known p = true) →
  handled f s → wp no_failure game_over (λ _ s', handled f s') s.
Proof.
  intros Hi Ht Hex Hh. pose proof (inv_K s Hi). pose proof (inv_N s Hi).
  unfold constants.max_k, constants.max_n in *.
  destruct (game_over_ret s) as (scores & _ & (m & Hm & Hbody & Hraw) & Hrun); [lia|lia|done|eauto using scorable_ok|].
  unfold wp. rewrite Hrun. apply scoring_handled; [|done]. rewrite <-Hraw. by eapply scoring_line_of.
Qed.

Section one_line.
Context (s : Server) (f : Z) (p : PlayerInfo) (line : str).
Hypothesis Hi : inv s.
Hypothesis Hstop : stopping s = false.
Hypothesis Hp : player_of s f p.
Hypothesis Hothers : courteous_but f s.
Hypothesis Hmine : watched f → polite f (trace s) → ∃ taken, fair s f p taken [line].

Lemma handle_put_handled point value :
  is_known p = true → in_s 32 point → printable value → puts_of [line] = 1%nat →
  (in_range (K s) [line] → put_out_of_range (K s) point value = false) →
  wp no_failure (handle_put f point value) (λ _ s', handled f s') s.
Proof using Hi Hstop Hp Hothers Hmine.
  intros Hk Hpt Hv Hl Hin. destruct (can_put p) eqn:Hc; [destruct (put_out_of_range (K s) point value) eqn:Hbad|].
  - unfold wp. rewrite (handle_put_refused f p point value s) by auto. rewrite Hbad, Hc.
    eapply put_handled; [exact Hp|done|done|done|done|done|by intros ?%Hin|..]; try done. by intros h r [-> _].
  - unfold wp. pose proof Hi as [Hi0 Htot]. unfold total_ok in Htot. rewrite Hstop in Htot.
    rewrite (put_in_range s f p point value) by (auto with lia).
    set (s1 := after_good_put f point value p s).
    assert (handled f s1) as Hh.
    { eapply put_handled; [exact Hp|done|done|done|done|done|..]; try done; [|by intros h r [-> _]].
      by intros _. }
    assert (inv_core s1) as Hi1 by (apply after_good_put_inv; by auto with lia).
    destruct (Z.leb_spec (M_ s) (total_correct_puts s + 1)) as [Hm|Hm]; [|done].
    assert (wp no_failure (_ ← game_over; mret true) (λ _ s', handled f s') s1) as H; [|exact H].
    apply wp_bind. eapply wp_mono; [|apply (game_over_handled s1 f); [done|simpl; lia| |done]].
    + intros ? s2 H2. by apply wp_ret.
    + exists f, (credited point value p). split; [apply player_of_set|done].
  - unfold wp. rewrite (handle_put_refused f p point value s) by auto. rewrite Hc.
    destruct (put_out_of_range (K s) point value).
    + eapply early_put_handled; [exact Hp|done|done|..]; try done. intros g r Hne. apply (due_others s f); [done|].
      by intros h r' [-> _].
    + eapply early_put_handled; [exact Hp|done|done|..]; try done.
Qed.

Lemma handle_hello_handled name :
  puts_of [line] = 0%nat → wp only_exit (handle_hello f name) (λ _ s', handled f s') s.
Proof using Hi Hp Hothers Hmine.
  intros Hl. unfold wp. destruct (is_known p) eqn:Hk.
  { rewrite (handle_hello_known f p) by done. apply (handled_nothing s f p line); auto. }
  rewrite (handle_hello_run f p) by done. destruct (coeff_file_getline _ _ (inv_file s (proj1 Hi))) as [Hline _].
  destruct (createMessage _) as [m|] eqn:Hm; [|done]. destruct (Hline m Hm) as (coeffs & Hb & _). rewrite Hb.
  by eapply hello_handled.
Qed.

Lemma deliver_handled : wp only_exit (deliver_line f line) (λ _ s', handled f s') s.
Proof using Hi Hstop Hp Hothers Hmine.
  unfold deliver_line. destruct (createMessageWithCRLF line) as [m|] eqn:Hm; cycle 1.
  { unfold wp. do 2 run_step. apply (handled_nothing s f p line); try done. left. unfold puts_of. simpl. by rewrite Hm. }
  assert (puts_of [line] = if put_message m then 1%nat else 0%nat) as Hl.
  { unfold puts_of, messages_of_lines, count. simpl. rewrite Hm. simpl. by destruct (put_message m). }
  pose proof (createMessage_ok _ _ Hm) as Hok.
  assert (wp only_exit (handle_client_message f m) (λ _ s', handled f s') s) as H.
  { unfold handle_client_message, put_message in *. pose proof (handled_nothing s f p line Hp Hothers Hmine) as Hno.
    destruct (body m) as [name|?|point value|? ?|?|? ?|? ?] eqn:Hbody; try (apply wp_ret; by auto).
    - by apply handle_hello_handled.
    - destruct Hok. destruct (is_known p) eqn:Hk.
      + eapply wp_weaken_failures, handle_put_handled; try done. unfold in_range, messages_of_lines.
        cbn [omap list_omap]. rewrite Hm, Forall_singleton. unfold good_put. by rewrite Hbody.
      + unfold wp. rewrite (handle_put_unknown f p) by done. auto. }
  apply wp_bind. eapply wp_mono; [|apply wp_and; [exact H|]].
  2:{ eapply wp_weaken_failures; [|by apply (handle_client_message_inv s f p)]. by intros ? [-> _]. }
  intros ok s2 (H2 & _ & Hst). destruct ok; cbn [negb]; [by apply wp_ret|].
  destruct (step_players _ _ Hst f p Hp) as (p2 & ms & Hp2 & _ & _). unfold wp. by do 2 run_step.
Qed.
End one_line.

(** ** Steps of the loop *)
Lemma courteous_frame s s' :
  K s' = K s → players s' = players s → trace s' = trace s → client_buffers s' = client_buffers s →
  events s' = events s → courteous s → courteous s'.
Proof.
  intros HK Hp Ht Hb He Hs f p Hw Hfp Hpol. unfold player_of in Hfp. rewrite Hp in Hfp. rewrite Ht in Hpol.
  destruct (Hs f p Hw Hfp Hpol) as [taken Hf]. exists taken.
  eapply (fair_same s); [done|by rewrite Ht..|unfold client_buffer; by rewrite Hb|by rewrite He|done].
Qed.

Lemma no_players_courteous s : players s = ∅ → courteous s.
Proof. intros Hp f p _. unfold player_of. by rewrite Hp, lookup_empty. Qed.

(** Nothing happens to the clients other than [but], except to go. *)
Lemma courteous_but_outputs but s s' o :
  K s' = K s → trace s' = trace s ++ o →
  (∀ f p, f ≠ but → player_of s' f p →
     player_of s f p ∧ (Accepted f ∉ o) ∧ client_buffer s' f = client_buffer s f ∧
     received_from f (trace s') = received_from f (trace s) ∧ sent_to f (trace s') = sent_to f (trace s) ∧
     answers_due f p (events s') ≡ₚ answers_due f p (events s)) →
  courteous_but but s → courteous_but but s'.
Proof.
  intros HK Ht Hf Hs f p Hw Hne Hp Hpol. destruct (Hf f p Hne Hp) as (Hp0 & Ho & Hb & Hr & Hsent & He).
  rewrite Ht in Hpol. apply polite_app in Hpol; [|done]. destruct (Hs f p Hw Hne Hp0 Hpol) as [taken Hfair].
  exists taken. by eapply (fair_same s).
Qed.

(** With a fair answer to [but] itself, everybody is treated fairly. *)
Lemma courteous_join but s :
  courteous_but but s → (∀ p, watched but → player_of s but p → polite but (trace s) → ∃ taken, fair s but p taken []) → courteous s.
Proof. intros Ho Hb f p Hw. destruct (decide (f = but)) as [->|Hne]; [by apply Hb|by apply Ho]. Qed.

Lemma handled_known s f p : handled f s → player_of s f p → is_known p = true → courteous s.
Proof.
  intros [Ho Hf] Hp Hk. apply (courteous_join f); [done|]. intros q Hw Hq. apply Hf; [done|done|].
  unfold player_of in *. by simplify_eq.
Qed.

Lemma client_buffer_other s s' f g b :
  client_buffers s' = <[g := b]> (client_buffers s) → f ≠ g → client_buffer s' f = client_buffer s f.
Proof. unfold client_buffer. intros -> Hne. by rewrite lookup_insert_ne. Qed.

(** A client leaves. *)
Lemma courteous_disconnected s f i p : courteous_but f s → courteous (disconnected f i p s).
Proof.
  intros Hs. apply (courteous_join f).
  - eapply (courteous_but_outputs f s _ [Closed f]); [done|done| |done]. intros g q Hne Hq.
    change (delete f (players s) !! g = Some q) in Hq. apply lookup_delete_Some in Hq as [_ Hq]. split; [done|]. split; [by intros ?%list_elem_of_singleton|].
    split; [unfold client_buffer; simpl; by rewrite lookup_delete_ne|]. simpl. by rewrite received_from_snoc, sent_to_snoc.
  - intros q _ Hq. change (delete f (players s) !! f = Some q) in Hq. by apply lookup_delete_Some in Hq as [Hne _].
Qed.

(** A client comes, and no answer to somebody on the same descriptor and address is due. *)
Definition accept_undue (r : AcceptResult) (s : Server) : Prop :=
  match r with
  | AcceptClient client_fd ip_ port_ =>
      ∀ d cb, (d, cb) ∈ events s → ~ about client_fd (new_player s ip_ port_) cb
  | _ => True
  end.

Lemma answers_due_none f p evs : (∀ d cb, (d, cb) ∈ evs → ~ about f p cb) → answers_due f p evs = [].
Proof.
  intros Hno. unfold answers_due. destruct (filter _ evs) as [|[d cb] l] eqn:Hl; [done|].
  assert ((d, cb) ∈ filter (λ e : Z * Callback, about f p (snd e)) evs) as Hin by (rewrite Hl; by left).
  apply list_elem_of_filter in Hin as [Ha Hin]. by destruct (Hno d cb).
Qed.

Lemma courteous_connected s f ip_ port_ :
  (watched f → accept_undue (AcceptClient f ip_ port_) s) → courteous s → courteous (connected f ip_ port_ s).
Proof.
  intros Hun Hs. apply (courteous_join f).
  - eapply (courteous_but_outputs f s _ [Accepted f]); [done|done| |by apply courteous_courteous_but]. intros g q Hne Hq.
    unfold player_of, connected, schedule in Hq. simpl in Hq. rewrite lookup_insert_ne in Hq by done.
    split; [done|]. split; [by intros [= ->]%list_elem_of_singleton|].
    split; [by eapply client_buffer_other; [done|]|]. simpl. rewrite received_from_snoc, sent_to_snoc.
    rewrite (proj2 (Z.eqb_neq f g)) by done. split; [done|]. split; [done|]. apply answers_due_other. simpl. tauto.
  - intros q Hw Hq _. specialize (Hun Hw). unfold player_of, connected, schedule in Hq. simpl in Hq. rewrite lookup_insert_eq in Hq.
    injection Hq as <-. exists [].
    assert (answers_due f (new_player s ip_ port_) (events (connected f ip_ port_ s)) = []) as Hnone.
    { apply Permutation_nil_r. unfold connected, schedule. simpl.
      rewrite answers_due_other by (simpl; tauto). by rewrite answers_due_none. }
    split; [| |exact Hnone|done|by split; rewrite ?Hnone].
    + unfold client_buffer. simpl. by rewrite received_from_snoc, Z.eqb_refl, lookup_insert_eq.
    + exists []. unfold said. simpl. by rewrite sent_to_snoc, Z.eqb_refl.
Qed.

(** Some of what is queued for a client is sent. *)
Lemma courteous_sent s f b p q s' :
  player_of s f p → s' = set_player f q (s <| trace ::= λ t, t ++ [Sent f b] |>) →
  q = p <| messages := messages q |> → said s' f q = said s f p → courteous s → courteous s'.
Proof.
  intros Hp Hs' Hq Hsaid Hs. apply (courteous_join f).
  - eapply (courteous_but_outputs f s _ [Sent f b]); [by subst s'..| |by apply courteous_courteous_but].
    intros g r Hne Hr. subst s'. unfold player_of, set_player in Hr. simpl in Hr. rewrite lookup_insert_ne in Hr by done.
    split; [done|]. split; [by intros ?%list_elem_of_singleton|]. split; [done|]. simpl.
    rewrite received_from_snoc, sent_to_snoc. by rewrite (proj2 (Z.eqb_neq f g)) by done.
  - intros r Hw Hr Hpol. subst s'. unfold player_of, set_player in Hr. simpl in Hr. rewrite lookup_insert_eq in Hr.
    injection Hr as <-. apply polite_app in Hpol; [|by intros ?%list_elem_of_singleton].
    destruct (Hs f p Hw Hp Hpol) as [taken Hf]. exists taken.
    eapply (fair_quiet s _ f p q taken [] []); try done; [simpl; by rewrite received_from_snoc|].
    by rewrite Hsaid, app_nil_r.
Qed.

(** Bytes arrive from a client. *)
Lemma courteous_received s f p data s' :
  player_of s f p → K s' = K s → trace s' = trace s ++ [Received f data] → players s' = players s → events s' = events s →
  client_buffers s' = <[f := client_buffer s f ++ data]> (client_buffers s) → courteous s → courteous s'.
Proof.
  intros Hp HK Ht Hps He Hb Hs. apply (courteous_join f).
  - eapply (courteous_but_outputs f s _ [Received f data]); [done|done| |by apply courteous_courteous_but].
    intros g r Hne Hr. unfold player_of in Hr. rewrite Hps in Hr. split; [done|].
    split; [by intros ?%list_elem_of_singleton|]. split; [by eapply client_buffer_other|].
    rewrite Ht, He, received_from_snoc, sent_to_snoc. by rewrite (proj2 (Z.eqb_neq f g)) by done.
  - intros r Hw Hr Hpol. unfold player_of in *. rewrite Hps, Hp in Hr. injection Hr as <-. rewrite Ht in Hpol.
    apply polite_app in Hpol; [|by intros ?%list_elem_of_singleton]. destruct (Hs f p Hw Hp Hpol) as [taken [H1 H2 H3 H4 H5]].
    assert (client_buffer s' f = client_buffer s f ++ data) as Hb' by (unfold client_buffer at 1; by rewrite Hb, lookup_insert_eq).
    exists taken. split; rewrite ?HK, ?He; [| |done..].
    + rewrite Ht, received_from_snoc, Z.eqb_refl, Hb', (all_frames_app (received_from _ _)), H1.
      rewrite (all_frames_app (client_buffer s f)). cbn [fst snd app]. by rewrite !(assoc app).
    + destruct H2 as (ms & H2 & ?). exists ms. split; [|done]. rewrite <-H2. unfold said. by rewrite Ht, sent_to_snoc.
Qed.

(** One line is taken out of a client's buffer. *)
Lemma courteous_take s f p pos s' :
  player_of s f p → find_str crlf (client_buffer s f) = Some pos →
  K s' = K s → trace s' = trace s → players s' = players s → events s' = events s →
  client_buffers s' = <[f := drop (pos + 2) (client_buffer s f)]> (client_buffers s) → courteous s →
  courteous_but f s' ∧ (watched f → polite f (trace s') → ∃ taken, fair s' f p taken [take pos (client_buffer s f)]).
Proof.
  intros Hp Hfind HK Ht Hps He Hb Hs. split.
  - eapply (courteous_but_outputs f s _ []); [done|by rewrite app_nil_r| |by apply courteous_courteous_but].
    intros g r Hne Hr. unfold player_of in Hr. rewrite Hps in Hr. split; [done|].
    split; [by intros ?%not_elem_of_nil|]. split; [by eapply client_buffer_other|]. by rewrite Ht, He.
  - rewrite Ht. intros Hw Hpol. destruct (Hs f p Hw Hp Hpol) as [taken [H1 H2 H3 H4 H5]].
    assert (client_buffer s' f = drop (pos + 2) (client_buffer s f)) as Hb' by (unfold client_buffer at 1; by rewrite Hb, lookup_insert_eq).
    exists taken. split; rewrite ?HK, ?He; [| |done..].
    + rewrite Ht, H1, Hb', all_frames_unfold, Hfind. by destruct (all_frames (drop _ _)).
    + destruct H2 as (ms & H2 & ?). exists ms. split; [|done]. rewrite <-H2. unfold said. by rewrite Ht.
Qed.

(** ** Timers *)
Lemma answers_due_tail f p d cb evs : ~ about f p cb → answers_due f p evs = answers_due f p ((d, cb) :: evs).
Proof. intros Ha. unfold answers_due. by rewrite filter_cons_False. Qed.

(** The one answer that is due to a player is the first event. *)
Lemma due_ok_head f p d cb evs :
  about f p cb → due_ok f p ((d, cb) :: evs) →
  is_known p = true ∧ can_put p = false ∧ gives_turn f p cb ∧ answers_due f p evs = [].
Proof.
  intros Ha. unfold due_ok, answers_due. rewrite filter_cons_True by done.
  destruct (is_known p), (can_put p); try done. by intros (e & [= <- He] & Hg).
Qed.

Lemma answer_counts k cb m :
  answer_to k cb m → count turn_message [m] = 1%nat ∧ count penalty_message [m] = 0%nat ∧ good_state k m ∧
    (gives_state cb → count bad_put_message [m] = 0%nat).
Proof.
  unfold answer_to, state_of, count, turn_message, penalty_message, bad_put_message, good_state. simpl.
  destruct cb; [by intros (? & ? & ->)|by intros (? & -> & ->)|done].
Qed.

Lemma courteous_effect d cb evs s s' :
  events s = (d, cb) :: evs → callback_effect cb s s' → courteous s → courteous (drop_event s').
Proof.
  intros Hev He Hs.
  assert (∀ s1, events s1 = events s → events (drop_event s1) = evs) as Hdrop
    by (intros s1 H1; unfold drop_event; simpl; by rewrite H1, Hev).
  destruct He as [Hno|fd p msg Hp (m & Hm & <- & Hans) Hg|fd p i pf Hp Hk Hpf Hcb].
  - intros f p Hw Hp Hpol. destruct (Hs f p Hw Hp Hpol) as [taken Hf]. exists taken.
    eapply (fair_same s); [done..| |done]. rewrite Hdrop, Hev by done. rewrite (answers_due_tail f p d cb evs); [done|].
    intros Ha. pose proof (fair_due _ _ _ _ _ Hf) as Hd. rewrite Hev in Hd.
    apply due_ok_head in Hd as (Hk & _ & Hg & _); [|done]. apply (Hno f p Hp). unfold waits_for. by rewrite Hk.
  - apply (courteous_join fd).
    + eapply (courteous_but_outputs fd s _ []); [done|by rewrite app_nil_r| |by apply courteous_courteous_but].
      intros g r Hne Hr. unfold player_of, set_player, drop_event in Hr. simpl in Hr. rewrite lookup_insert_ne in Hr by done.
      split; [done|]. split; [by intros ?%not_elem_of_nil|]. do 3 (split; [done|]).
      rewrite Hdrop, Hev by done. rewrite (answers_due_tail g r d cb evs); [done|].
      intros Ha. apply Hne. destruct cb; simpl in *; try done; by destruct Ha as [<- _], Hg as [<- _].
    + intros q Hw Hq Hpol. unfold player_of, set_player, drop_event in Hq. simpl in Hq. rewrite lookup_insert_eq in Hq.
      injection Hq as <-. destruct (Hs fd p Hw Hp Hpol) as [taken Hf]. exists taken.
      pose proof (fair_due _ _ _ _ _ Hf) as Hd. rewrite Hev in Hd.
      apply due_ok_head in Hd as (Hk & Hc & _ & Hd); [|by apply gives_turn_about].
      destruct (answer_counts _ _ m Hans) as (Ht & Hpen & Hst & Hbad).
      assert (answers_due fd p (events s) = [(d, cb)]) as Hdue.
      { rewrite Hev. unfold answers_due in *. by rewrite filter_cons_True, Hd by (by apply gives_turn_about). }
      eapply (fair_step s _ fd p _ taken taken [] [] [m]); try done.
      * unfold said. simpl. by rewrite concat_app, (assoc app).
      * by constructor.
      * rewrite Ht. unfold turn_of. rewrite Hc. simpl. lia.
      * rewrite Hdrop by done. unfold due_ok. simpl. by rewrite andb_false_r.
      * simpl. by rewrite Hk.
      * by constructor.
      * intros Hin. apply Hbad. destruct (fair_paid _ _ _ _ _ Hf Hin) as [_ _ H]. rewrite Hdue in H.
        exact (proj1 (proj1 (Forall_cons _ _ _) H)).
      * intros _ [H1 H2 H3]. split; [done|done|]. rewrite Hdrop by done. change (Forall (λ e, gives_state (snd e)) (answers_due fd p evs)).
        by rewrite Hd.
  - pose proof (courteous_disconnected s fd i p (courteous_courteous_but fd s Hs)) as Hd.
    intros f q Hw Hq Hpol. destruct (Hd f q Hw Hq Hpol) as [taken Hf]. exists taken.
    eapply (fair_same (disconnected fd i p s)); [done..| |done].
    rewrite Hdrop by done. change (events (disconnected fd i p s)) with (events s). rewrite Hev.
    rewrite (answers_due_tail f q d cb evs); [done|]. rewrite Hcb. simpl. tauto.
Qed.

Lemma check_timers_loop_courteous fuel time s s' :
  inv s → check_timers_loop fuel time s = Ret (tt, s') → courteous s → courteous s'.
Proof.
  revert s. induction fuel as [|fuel IH]; intros s Hi.
  { unfold check_timers_loop, mbind, M_bind, get_state. destruct (events s) as [|[d cb] evs]; [by intros [= <-]|].
    destruct (d <=? time); [done|]. by intros [= <-]. }
  cbn [check_timers_loop]. run_step. destruct (events s) as [|[d cb] evs] eqn:Hev; [by intros [= <-]|].
  destruct (d <=? time); [|by intros [= <-]].
  pose proof (inv_callbacks s (proj1 Hi)) as Hok. rewrite Hev in Hok. apply Forall_cons in Hok as [Hok _].
  destruct (run_callback_effect s cb (proj1 Hi) Hok) as (s1 & Hrun & Heff).
  rewrite (bind_ret _ _ _ _ _ Hrun). cbv beta. rewrite (bind_ret (modify _) _ s1 tt (drop_event s1)) by done.
  intros Hr Hs. apply (IH (drop_event s1)); [by eapply effect_inv|done|by eapply courteous_effect].
Qed.

End watched.
Arguments courteous_but watched but s : clear implicits.
Arguments courteous watched s : clear implicits.
Arguments handled watched f s' : clear implicits.

(** A step of the loop: what it keeps, and that it is fair. *)
Definition goes (s s' : Server) : Prop :=
  keeps s s' ∧ ∀ watched, courteous watched s → courteous watched s'.
Lemma goes_refl s : goes s s.
Proof. by split; [apply keeps_refl|]. Qed.
Lemma goes_trans s1 s2 s3 : goes s1 s2 → goes s2 s3 → goes s1 s3.
Proof. intros [] []. split; [by eapply keeps_trans|auto]. Qed.
