(* ===== verification/MainLoop.v ===== *)
(** * One turn of the server's main loop

    The loop over the client sockets and the whole turn preserve the invariant. They fail
    only for the reasons that three propositions stand for below: [X], when [poll] or [accept] fails; [T],
    when a client that has not said HELLO is readable, with an exit when there is no line of coefficients
    for it or the undefined behaviour of [early_disconnect_kills_server]; [B], when a [send] raises
    [SIGPIPE]. *)
From Stdlib Require Import Ascii String SpecFloat.
From S2P Require Import Prelude CString Double Constants MsgParser ServerState ServerLogic Server Handlers.
From S2P Require Import Framing Conversation GameInvariant EventLoop Courtesy.

(** The failures a turn may end with: exits if [X] or [T], undefined behaviour if [T], a signal if [B]. *)
Definition ends (X T B : Prop) (f : failure) : Prop :=
  match f with Exit => X ∨ T | Undef => T | Signal => B | Throw | Diverge => False end.
Lemma raise_sigpipe_wp E v s : (v = - EPIPE → E Signal) → wp E (raise_sigpipe v) (λ _ s', s' = s) s.
Proof. unfold raise_sigpipe. intros HE. destruct (Z.eqb_spec v (- EPIPE)); [by apply wp_fail, HE|by apply wp_ret]. Qed.
(** Every socket that is reported readable belongs to a player who sent [HELLO]. *)
Definition readable_known (s : Server) : Prop :=
  ∀ pf, pf ∈ tail (poll_fds s) → has_flag (revents pf) (Z.lor POLLIN POLLERR) = true →
    ∃ p, player_of s (fd pf) p ∧ is_known p = true.

Lemma readable_known_keeps s s' :
  inv_core s' → keeps s s' → readable_known s → readable_known s'.
Proof.
  intros Hi [] Hr pf Hin Hf. destruct (keeps_sockets pf Hin) as (pf0 & Hin0 & Hfd & Hrev).
  rewrite <-Hrev in Hf. destruct (Hr pf0 Hin0 Hf) as (p & Hp & Hk). rewrite Hfd in Hp.
  destruct (keeps_said (fd pf) p Hp) as (p' & _ & ? & ? & _); [|by eauto].
  destruct (inv_sockets s' Hi) as [_ _ _ H]. apply H.
  destruct (poll_fds s') as [|pf1 l]; [by apply not_elem_of_nil in Hin|]. simpl in *.
  apply list_elem_of_fmap. by exists pf.
Qed.

(** Buffers and the record of what was sent are outside the invariant. *)
Definition set_buffer (client_fd : Z) (b : str) (s : Server) : Server :=
  s <| client_buffers ::= <[client_fd := b]> |>.

Lemma set_buffer_inv client_fd b s : inv s → inv (set_buffer client_fd b s).
Proof. intros [Hi Ht]. split; [|done]. by eapply inv_core_frame; [..|exact Hi]. Qed.

Lemma set_buffer_keeps client_fd b s : keeps s (set_buffer client_fd b s).
Proof. destruct (keeps_refl s). constructor; try done. intros watched. by apply talks_frame. Qed.

(** What is done to the sockets is recorded. *)
Definition log_output (o : Output) (s : Server) : Server := s <| trace ::= λ t, t ++ [o] |>.
Lemma log_output_inv o s : inv s → inv (log_output o s).
Proof. intros [Hi Ht]. split; [|done]. by eapply inv_core_frame; [..|exact Hi]. Qed.

(** Bytes arrive from a player. *)
Definition receive_state (client_fd : Z) (data : str) (s : Server) : Server :=
  set_buffer client_fd (client_buffer s client_fd ++ data) (log_output (Received client_fd data) s).
Lemma receive_state_inv client_fd data s p :
  inv s → player_of s client_fd p →
  inv (receive_state client_fd data s) ∧ goes s (receive_state client_fd data s).
Proof.
  intros Hi Hp. split; [by apply set_buffer_inv, log_output_inv|]. split; [|intros watched; by eapply courteous_received].
  destruct (keeps_refl s). constructor; try done.
  - intros f q Hq _. exists q, []. unfold said. simpl. by rewrite sent_to_snoc, app_nil_r.
  - intros Hs. eapply (fds_open_outputs s _ [Received client_fd data]); [done|done|]. cbn [use_fds].
    rewrite use_fd_received; [done|]. apply elem_of_dom. by exists p.
  - by eapply (outputs_one _ _ (Received client_fd data)).
  - intros watched [H2 H3]. split; [|done]. intros f q Hw Hq. unfold said. simpl. rewrite sent_to_snoc. by apply H2.
Qed.

Lemma socket_of_step s s' i client_fd pf :
  poll_fds s' = poll_fds s → socket_of s i client_fd pf → socket_of s' i client_fd pf.
Proof. intros He []. constructor; by rewrite ?He. Qed.

(** ** Reads *)

(** The answer of a step about socket [i]: it is still open at the same place, or it was
    dropped and the index went down by one. *)
Definition step_result (s : Server) (i i' : Z) (s' : Server) : Prop :=
  (i' = i ∧ length (poll_fds s') = length (poll_fds s)) ∨
  (i' = i - 1 ∧ S (length (poll_fds s')) = length (poll_fds s)).

Lemma step_result_eq s s2 i i' s' :
  poll_fds s2 = poll_fds s → step_result s2 i i' s' → step_result s i i' s'.
Proof. unfold step_result. by intros ->. Qed.
Lemma step_result_same s i s' : poll_fds s' = poll_fds s → step_result s i i s'.
Proof. left. split; [done|congruence]. Qed.

Lemma disconnect_client_wp E s i client_fd pf p (Q : Z → Server → Prop) :
  inv s → socket_of s i client_fd pf → player_of s client_fd p →
  (∀ s', inv s' → keeps s s' → (∀ watched, courteous_but watched client_fd s → courteous watched s') → step_result s i (i - 1) s' →
     stopping s' = stopping s → Q (i - 1) s') →
  wp E (disconnect_client client_fd i) Q s.
Proof.
  intros Hi Hs Hp HQ. unfold wp. rewrite (disconnect_client_ret s i client_fd pf p Hs Hp).
  destruct (disconnected_keeps s i client_fd pf p Hs Hp) as [Hk Hlen].
  pose proof (sockets_bound s (proj1 Hi)). destruct Hs as [Hix Hl Hf].
  rewrite (proj1 (wrap_index i ltac:(lia))). apply HQ.
  - by eapply disconnected_inv.
  - done.
  - intros watched. apply courteous_disconnected.
  - by right.
  - done.
Qed.

(** A complete line takes at least its CRLF from the buffer. *)
Lemma client_buffer_set client_fd b s : client_buffer (set_buffer client_fd b s) client_fd = b.
Proof. unfold client_buffer, set_buffer. simpl. by rewrite lookup_insert_eq. Qed.

Lemma deliver_line_wp client_fd line s p :
  inv s → stopping s = false → player_of s client_fd p →
  wp (hello_exit p) (deliver_line client_fd line) (λ _ s', inv s' ∧ logic_step s s') s.
Proof.
  intros Hi Hstop Hp. unfold deliver_line.
  destruct (createMessageWithCRLF line) as [m|] eqn:Hm; cycle 1.
  { unfold wp. do 2 run_step. split; [done|apply logic_step_refl]. }
  apply wp_bind. eapply wp_mono; [|by apply (handle_client_message_inv s client_fd p); [..|eapply createMessage_ok]].
  intros ok s2 [Hi2 Hst]. cbv beta. destruct ok; cbn [negb]; [by apply wp_ret|].
  destruct (step_players _ _ Hst client_fd p Hp) as (p2 & ms & Hp2 & _ & _).
  unfold wp. by do 2 run_step.
Qed.

(** The result of [read_loop]: dropped clients had not sent [HELLO]. *)
Definition read_result (s : Server) (i : Z) (p : PlayerInfo) (r : bool * Z) (s' : Server) : Prop :=
  inv s' ∧ goes s s' ∧ step_result s i (snd r) s' ∧
  if fst r then is_known p = false ∧ snd r = i - 1 else snd r = i.

Lemma read_loop_wp fuel client_fd i pf s p :
  inv s → stopping s = false → socket_of s i client_fd pf → player_of s client_fd p →
  (length (client_buffer s client_fd) ≤ fuel)%nat →
  wp (hello_exit p) (read_loop fuel client_fd i) (read_result s i p) s.
Proof.
  revert s p. induction fuel as [|fuel IH]; intros s p Hi Hstop Hs Hp Hlen;
    (cbn [read_loop]; apply wp_bind, wp_get_state;
     destruct (find_str crlf (client_buffer s client_fd)) as [pos|] eqn:Hfind;
     [pose proof Hfind as Hpos; apply find_str_length in Hfind; simpl in Hfind
     |apply wp_ret; split; [done|]; split; [apply goes_refl|]; by split; [apply step_result_same|]]).
  { lia. }
  apply wp_bind, wp_lift_outcome. unfold substr. rewrite (proj2 (Nat.ltb_ge _ _)) by (simpl; lia).
  apply wp_bind, wp_modify. set (rest := drop (pos + length crlf) (client_buffer s client_fd)).
  fold (set_buffer client_fd rest s). set (s1 := set_buffer client_fd rest s).
  assert (player_of s1 client_fd p) as Hp1 by done.
  pose proof (set_buffer_inv client_fd rest s Hi) as Hi1.
  assert (∀ watched, courteous watched s →
    wp only_exit (deliver_line client_fd (take pos (client_buffer s client_fd))) (λ _, handled watched client_fd) s1) as Hfair.
  { intros watched Hc. destruct (courteous_take (watched:=watched) s client_fd p pos s1) as [Ho Hf]; [done..|].
    by apply (deliver_handled s1 client_fd p). }
  pose proof (deliver_line_wp client_fd (take pos (client_buffer s client_fd)) s1 p Hi1 Hstop Hp1) as Hline.
  apply wp_bind.
  unfold wp in Hfair, Hline. unfold wp at 1.
  destruct (deliver_line client_fd _ s1) as [[[] s2]|f]; [|done]. destruct Hline as [Hi2 Hst]. apply wp_bind.
  destruct (step_players _ _ Hst client_fd p Hp1) as (p2 & ms & Hp2 & _ & Hk2).
  assert (wp (hello_exit p) (getPlayerInfo client_fd) (λ q s3, q = p2 ∧ s3 = s2) s2) as Hget
    by (unfold wp, getPlayerInfo; by rewrite (players_at_ret _ _ _ Hp2)).
  eapply wp_mono; [|exact Hget]. intros q s3 [-> ->].
  assert (keeps s s2) as Hkeep.
  { eapply keeps_trans; [apply set_buffer_keeps|by apply logic_step_keeps]. }
  assert (is_known p2 = true → goes s s2) as Hgo
    by (split; [done|]; intros watched Hc; by eapply handled_known; [apply Hfair|..]).
  assert (poll_fds s2 = poll_fds s) as Hpf by (by rewrite (step_poll_fds _ _ Hst)).
  assert (socket_of s2 i client_fd pf) as Hs2 by (by eapply socket_of_step).
  destruct (is_known p2) eqn:Hkp; cbn [negb].
  - apply wp_bind. unfold is_stopping. apply wp_bind, wp_get_state, wp_ret.
    destruct (stopping s2) eqn:Hstop2.
    { apply wp_ret. split; [done|]. split; [by apply Hgo|]. by split; [apply step_result_same|]. }
    eapply wp_weaken_failures; [|eapply wp_mono; [|apply (IH s2 p2); try done]].
    + intros f [_ Hk]. congruence.
    + intros [dropped i'] s' (Hi' & Hk' & Hres & Hd). split; [done|]. split; [by eapply goes_trans; [apply Hgo|]|].
      split; [by eapply step_result_eq|]. simpl in *. destruct dropped; [|done]. destruct Hd as [Hd _]. congruence.
    + unfold client_buffer. rewrite (step_buffers _ _ Hst).
      change (length (client_buffer s1 client_fd) ≤ fuel)%nat.
      unfold s1. rewrite client_buffer_set. unfold rest. rewrite length_drop. simpl. lia.
  - apply wp_bind. eapply disconnect_client_wp; [done|done|done|].
    intros s' Hi' Hk' Hc' Hres Hst'. apply wp_ret. split; [done|].
    split; [split; [by eapply keeps_trans|intros watched Hc; by apply Hc', Hfair]|].
    split; [by eapply step_result_eq|]. split; [|done].
    destruct (is_known p) eqn:Hkp0; [|done]. specialize (Hk2 eq_refl). congruence.
Qed.

Lemma socket_at s i : 1 ≤ i < Z.of_nat (length (poll_fds s)) → ∃ pf, socket_of s i (fd pf) pf.
Proof.
  intros Hi. destruct (lookup_lt_is_Some_2 (poll_fds s) (Z.to_nat i)) as [pf Hpf]; [lia|].
  by exists pf.
Qed.

Lemma poll_fd_at_ret s i pf : poll_fds s !! Z.to_nat i = Some pf → 0 ≤ i → poll_fd_at i s = Ret (pf, s).
Proof.
  intros Hl Hi. unfold poll_fd_at. run_step. unfold vec_get.
  rewrite (proj2 (Z.ltb_ge _ _)) by lia. by rewrite Hl.
Qed.

Section Environment.
Variable recv_result : nat → Z → option str.
Variable send_result : nat → Z → str → Z.
(** [send] accepts at most the bytes it is given. *)
Hypothesis send_at_most : ∀ n client_fd msg, send_result n client_fd msg ≤ Z.of_nat (length msg).
(** Whether some [send] finds its connection reset. *)
Variables X B : Prop.
Hypothesis send_broken : ∀ n client_fd msg, send_result n client_fd msg = - EPIPE → B.

Lemma handle_read_wp i client_fd pf p s :
  inv s → stopping s = false → socket_of s i client_fd pf → player_of s client_fd p →
  wp (hello_exit p) (handle_read_from_client recv_result i) (λ '(connected, i') s',
    inv s' ∧ goes s s' ∧ step_result s i i' s' ∧
    if connected then i' = i ∨ is_known p = false else i' = i - 1 ∧ stopping s' = false) s.
Proof.
  intros Hi Hstop Hs Hp. pose proof Hs as [Hix Hl Hf].
  unfold handle_read_from_client, wp. rewrite (bind_ret _ _ _ _ _ (poll_fd_at_ret s i pf Hl ltac:(lia))).
  run_step. rewrite Hf. run_step.
  assert (wp (hello_exit p) (i' ← disconnect_client client_fd i; mret (false, i')) (λ '(connected, i') s',
      inv s' ∧ goes s s' ∧ step_result s i i' s' ∧
      if connected then i' = i ∨ is_known p = false else i' = i - 1 ∧ stopping s' = false) s) as Hdrop.
  { apply wp_bind. eapply disconnect_client_wp; [done|done|done|].
    intros s' Hi' Hk' Hc' Hres Hst'. apply wp_ret. split; [done|].
    split; [split; [done|]; intros watched Hc; by apply Hc', courteous_courteous_but|]. split; [done|]. split; [done|]. congruence. }
  destruct (recv_result (length (trace s)) client_fd) as [[|c data]|]; [exact Hdrop| |exact Hdrop].
  destruct (receive_state_inv client_fd (c :: data) s p Hi Hp) as [Hi1 Hgo]. set (s1 := receive_state client_fd (c :: data) s) in *.
  rewrite (bind_ret (modify _) _ s tt (log_output (Received client_fd (c :: data)) s)) by done.
  rewrite (bind_ret (modify _) _ _ tt s1) by done. run_step.
  pose proof (read_loop_wp (length (client_buffer s1 client_fd)) client_fd i pf s1 p) as Hloop.
  unfold wp in Hloop. unfold mbind, M_bind.
  destruct (read_loop _ client_fd i s1) as [[[dropped i'] s']|f]; simpl.
  - destruct Hloop as (Hi' & Hk' & Hres & Hd); [done|done| |done|done|].
    { by eapply socket_of_step; [|done]. }
    split; [done|]. split; [by eapply goes_trans|].
    split; [done|]. destruct dropped; [right; by apply Hd|by left].
  - apply Hloop; [done|done| |done|done]. by eapply socket_of_step; [|done].
Qed.

(** ** Writes *)

Lemma map_fd_insert l n pf q :
  l !! n = Some pf → fd q = fd pf → map fd (<[n := q]> l) = map fd l.
Proof.
  intros Hl Hq. rewrite <-(list_insert_id (map fd l) n (fd pf)) by (by rewrite list_lookup_fmap, Hl).
  rewrite <-Hq. apply list_fmap_insert.
Qed.

Lemma set_pevents_inv s n pf q :
  poll_fds s !! n = Some pf → fd q = fd pf → revents q = revents pf → inv s →
  inv (s <| poll_fds ::= <[n := q]> |>) ∧ goes s (s <| poll_fds ::= <[n := q]> |>).
Proof.
  intros Hl Hf Hr [Hi Ht]. split.
  - split; [|done]. eapply inv_core_frame; [..|exact Hi]; try done. simpl. by eapply map_fd_insert.
  - split; [|intros watched; by apply courteous_frame]. constructor; try done;
      [|by apply says_more_same|simpl; by erewrite map_fd_insert|simpl; by rewrite length_insert|by apply outputs_same|
       intros watched; by apply talks_frame].
    simpl. intros pf' Hin. destruct n as [|n].
    + destruct (poll_fds s); simpl in *; [done|]. by exists pf'.
    + destruct (poll_fds s) as [|pf0 l]; [done|]. simpl in *.
      apply list_elem_of_lookup in Hin as [m Hm].
      apply list_lookup_insert_Some in Hm as [(-> & <- & _)|[_ Hm]].
      * exists pf. split; [by eapply list_elem_of_lookup_2|done].
      * exists pf'. split; [by eapply list_elem_of_lookup_2|done].
Qed.

(** Changing the queue of a player. *)
Lemma set_messages_inv s client_fd p ms :
  inv s → player_of s client_fd p → Forall (λ m, m ≠ []) ms →
  inv (set_player client_fd (p <| messages := ms |>) s).
Proof.
  intros Hi Hp Hms. apply (inv_set_player s client_fd p); try done.
  - destruct (inv_numbers s (proj1 Hi) _ _ Hp). by constructor.
  - exact (inv_turn s (proj1 Hi) _ _ Hp).
Qed.

(** The state after [n] bytes of a player's first message were sent. *)
Definition sent_state (client_fd : Z) (n : nat) (msg : str) (ms : list str) (p : PlayerInfo) (s : Server) : Server :=
  set_player client_fd (p <| messages := if bool_decide (drop n msg = []) then ms else drop n msg :: ms |>)
    (log_output (Sent client_fd (take n msg)) s).

Lemma use_fds_sent s f p b : player_of s f p → use_fds (dom (players s)) [Sent f b] = Some (dom (players s)).
Proof. intros Hp. cbn [use_fds]. rewrite use_fd_sent; [done|]. apply elem_of_dom. by exists p. Qed.

Lemma sent_to_others f client_fd t b : f ≠ client_fd → sent_to f (t ++ [Sent client_fd b]) = sent_to f t.
Proof. intros Hf. rewrite sent_to_snoc. by rewrite (proj2 (Z.eqb_neq client_fd f)). Qed.

Lemma sent_state_said client_fd n msg ms p s :
  messages p = msg :: ms →
  said (log_output (Sent client_fd (take n msg)) s) client_fd
    (p <| messages := if bool_decide (drop n msg = []) then ms else drop n msg :: ms |>) = said s client_fd p.
Proof.
  intros Hms. unfold said. simpl. rewrite sent_to_snoc, Z.eqb_refl, <-(assoc app). f_equal.
  rewrite Hms. case_bool_decide as Hd; simpl.
  - rewrite <-(take_drop n msg) at 2. by rewrite Hd, app_nil_r.
  - by rewrite (assoc app), take_drop.
Qed.

Lemma sent_state_inv client_fd n msg ms p s :
  inv s → player_of s client_fd p → messages p = msg :: ms →
  inv (sent_state client_fd n msg ms p s) ∧ goes s (sent_state client_fd n msg ms p s).
Proof.
  intros Hi Hp Hms. split.
  - pose proof (messages_nonempty _ _ _ (inv_numbers s (proj1 Hi) _ _ Hp)) as Hne.
    rewrite Hms in Hne. apply Forall_cons in Hne as [Hmsg Hne].
    apply set_messages_inv; [by apply log_output_inv|done|]. case_bool_decide; [done|by constructor].
  - split; [|intros watched; eapply (courteous_sent s client_fd); [done|done|done|by apply sent_state_said]].
    apply (set_player_keeps s client_fd p _ _ [Sent client_fd (take n msg)] [] Hp); [done|done|by eapply use_fds_sent| | |by intros f ?%list_elem_of_singleton|].
    + intros f. apply sent_to_others.
    + rewrite app_nil_r. by apply sent_state_said.
    + intros watched. apply (talks_set_player s _ client_fd p _ [Sent client_fd (take n msg)] Hp); try done.
      * intros f. apply sent_to_others.
      * intros _ H. rewrite sent_state_said by done. by eapply conversation_same.
Qed.

Lemma handle_write_wp E i client_fd pf s :
  inv s → (B → E Signal) → socket_of s i client_fd pf →
  wp E (handle_write_to_client send_result i) (λ '(_, i') s',
    inv s' ∧ goes s s' ∧ step_result s i i' s' ∧ stopping s' = stopping s) s.
Proof.
  intros Hi HE Hs. pose proof Hs as [Hix Hl Hf].
  destruct (socket_player s i client_fd pf (proj1 Hi) Hs) as [p Hp].
  unfold handle_write_to_client, wp. rewrite (bind_ret _ _ _ _ _ (poll_fd_at_ret s i pf Hl ltac:(lia))).
  rewrite Hf. run_step. run_step. case_bool_decide as Hm; cbn [negb].
  { unfold set_poll_fd. erewrite bind_ret; cycle 1.
    { rewrite (bind_ret _ _ _ _ _ (poll_fd_at_ret s i pf Hl ltac:(lia))). reflexivity. }
    destruct (set_pevents_inv s (Z.to_nat i) pf (pf <| pevents ::= λ e, Z.ldiff e POLLOUT |>)) as [Hi' Hk']; [done..|].
    split; [exact Hi'|]. split; [exact Hk'|]. split; [left; simpl; by rewrite length_insert|done]. }
  destruct (messages p) as [|msg ms] eqn:Hms; [done|].
  pose proof (messages_nonempty _ _ _ (inv_numbers s (proj1 Hi) _ _ Hp)) as Hne.
  rewrite Hms in Hne. apply Forall_cons in Hne as [Hmsg Hne].
  rewrite (bind_ret _ _ _ _ _ (take_next_message_ret _ _ _ _ _ Hp Hms)).
  rewrite bool_decide_eq_false_2 by done. run_step.
  set (s1 := set_player client_fd (p <| messages := ms |>) s). set (n := send_result _ client_fd msg).
  unfold raise_sigpipe. destruct (Z.eqb_spec n (- EPIPE)) as [He|_]; [by apply HE, (send_broken _ _ _ He)|].
  rewrite (bind_ret (mret tt) _ s1 tt s1) by done.
  destruct (Z.leb_spec n 0) as [Hn|Hn].
  - assert (socket_of s1 i client_fd pf) as Hs1 by done.
    erewrite bind_ret by (eapply disconnect_client_ret; [exact Hs1|apply player_of_set]).
    assert (disconnected client_fd i (p <| messages := ms |>) s1 = disconnected client_fd i p s) as ->.
    { unfold disconnected, s1, set_player. simpl. by rewrite delete_insert_eq. }
    destruct (disconnected_keeps s i client_fd pf p Hs Hp) as [Hk Hlen]. pose proof (sockets_bound s (proj1 Hi)).
    rewrite (proj1 (wrap_index i ltac:(lia))).
    split; [by eapply disconnected_inv|].
    split; [split; [done|]; intros watched Hc; by apply courteous_disconnected, courteous_courteous_but|]. split; [by right|done].
  - run_step. fold (log_output (Sent client_fd (take (Z.to_nat n) msg)) s1).
    pose proof (send_at_most (length (trace s1)) client_fd msg) as Hle. fold n in Hle.
    erewrite (bind_ret (lift_outcome _)); cycle 1.
    { unfold lift_outcome, substr_from. rewrite (proj2 (Nat.ltb_ge _ _)) by lia. reflexivity. }
    destruct (sent_state_inv client_fd (Z.to_nat n) msg ms p s Hi Hp Hms) as [Hi2 Hk2].
    assert (∀ s', s' = sent_state client_fd (Z.to_nat n) msg ms p s →
      inv s' ∧ goes s s' ∧ step_result s i i s' ∧ stopping s' = stopping s) as Hdone.
    { intros s' ->. split; [done|]. split; [done|]. by split; [apply step_result_same|]. }
    unfold sent_state in Hdone. case_bool_decide as Hrest; [by apply Hdone|].
    set (s2 := log_output _ s1).
    assert (player_of s2 client_fd (p <| messages := ms |>)) as Hp2 by apply player_of_set.
    rewrite (bind_ret _ _ _ _ _ (append_message_front_ret _ _ _ _ Hp2)). apply Hdone.
    unfold s2, set_player, log_output, s1. simpl. by rewrite insert_insert_eq.
Qed.

(** ** The loop over the client sockets *)

(** The listening socket is nobody's player. *)
Lemma listening_no_player s pf0 : inv_core s → poll_fds s !! 0%nat = Some pf0 → players s !! fd pf0 = None.
Proof.
  intros Hi Hl. destruct (inv_sockets s Hi) as [Hnd _ _ H].
  destruct (poll_fds s) as [|pf l]; [done|]. injection Hl as ->. simpl in *.
  apply NoDup_cons in Hnd as [Hnin _]. rewrite <-H in Hnin.
  destruct (players s !! fd pf0); [|done]. destruct Hnin. by eexists.
Qed.

(** Writing to the listening socket throws: [players.at] finds no player. *)
Lemma handle_write_listening s :
  inv_core s → handle_write_to_client send_result 0 s = Fail Throw.
Proof.
  intros Hi. destruct (inv_sockets s Hi) as [_ _ Hne _].
  destruct (poll_fds s) as [|pf0 l] eqn:Hpf; [done|].
  assert (poll_fds s !! 0%nat = Some pf0) as Hl by (by rewrite Hpf).
  unfold handle_write_to_client. rewrite (bind_ret _ _ _ _ _ (poll_fd_at_ret s 0 pf0 Hl ltac:(lia))).
  pose proof (listening_no_player s pf0 Hi Hl) as Hnone.
  unfold getClientPlayerID, players_at, mbind, M_bind, get_state, from_opt. by rewrite Hnone.
Qed.

(** What is read of the client at [i], if there is anything. A known client is not dropped. *)
Lemma loop_read T i pf p s :
  inv s → stopping s = false → socket_of s i (fd pf) pf → player_of s (fd pf) p → T ∨ readable_known s →
  wp (ends X T B)
    (if has_flag (revents pf) (Z.lor POLLIN POLLERR) then handle_read_from_client recv_result i else mret (true, i))
    (λ '(connected, i') s', inv s' ∧ goes s s' ∧ step_result s i i' s' ∧
       if (connected : bool) then i' = i ∨ (T ∧ i' = i - 1) else stopping s' = false) s.
Proof.
  intros Hi Hstop Hs Hp HT. pose proof Hs as [Hix Hl _].
  destruct (has_flag _ _) eqn:Hflag; cycle 1.
  { apply wp_ret. split; [done|]. split; [apply goes_refl|]. split; [by apply step_result_same|by left]. }
  assert (is_known p = false → T) as HTk.
  { intros Hk. destruct HT as [|HT]; [done|]. destruct (HT pf) as (p' & Hp' & Hk'); [|done|].
    - destruct (poll_fds s) as [|pf0 l]; [done|]. simpl.
      replace (Z.to_nat i) with (S (Z.to_nat (i - 1))) in Hl by lia. by eapply list_elem_of_lookup_2.
    - unfold player_of in *. simplify_eq. congruence. }
  eapply wp_weaken_failures; [|eapply wp_mono; [|by apply (handle_read_wp i (fd pf) pf p s)]].
  { intros f [-> Hk]. right. by apply HTk. }
  intros [connected i'] s' (Hi' & Hk & Hres & Hc). split; [done|]. split; [done|]. split; [done|].
  destruct connected; [|by destruct Hc]. destruct Hc as [->|Hu]; [by left|].
  destruct Hres as [[-> _]|[-> _]]; [by left|]. right. split; [by apply HTk|done].
Qed.

Lemma client_loop_wp T fuel i s :
  inv s → stopping s = false → 1 ≤ i ≤ Z.of_nat (length (poll_fds s)) →
  Z.of_nat (length (poll_fds s)) - i ≤ Z.of_nat fuel → T ∨ readable_known s →
  wp (ends X T B) (client_loop recv_result send_result fuel i)
    (λ _ s', inv s' ∧ goes s s') s.
Proof.
  revert i s. induction fuel as [|fuel IH]; intros i s Hi Hstop Hix Hfuel HT;
    (cbn [client_loop]; apply wp_bind, wp_get_state;
     destruct (Z.ltb_spec i (Z.of_nat (length (poll_fds s)))) as [Hlt|]; cbn [negb]; [|by apply wp_ret; split; [|apply goes_refl]]).
  { lia. }
  destruct (socket_at s i ltac:(lia)) as [pf Hs]. pose proof Hs as [_ Hl _].
  destruct (socket_player s i _ pf (proj1 Hi) Hs) as [p Hp].
  pose proof (sockets_bound s (proj1 Hi)) as Hbound.
  assert (∀ n s', inv s' → goes s s' → stopping s' = false → 0 ≤ n < Z.of_nat (length (poll_fds s')) →
    Z.of_nat (length (poll_fds s')) - (n + 1) ≤ Z.of_nat fuel →
    wp (ends X T B) (client_loop recv_result send_result fuel (wrap 64 (n + 1)))
      (λ _ s2, inv s2 ∧ goes s s2) s') as Hnext.
  { intros n s' Hi' Hk Hst Hn Hf. pose proof (sockets_bound s' (proj1 Hi')).
    rewrite wrap_small by (unfold in_u; lia).
    eapply wp_mono; [|apply IH; [done|done|lia|lia|]].
    - intros _ s2 [? Hk2]. split; [done|]. by eapply goes_trans.
    - destruct HT as [|HT]; [by left|right]. eapply readable_known_keeps; [apply Hi'|apply Hk|done]. }
  apply wp_bind. unfold wp at 1. rewrite (poll_fd_at_ret s i pf Hl) by lia.
  destruct (has_flag (revents pf) POLLHUP).
  { assert (wp (ends X T B) (getClientPlayerID (fd pf)) (λ _ s', s' = s) s) as Hid
      by (unfold wp; by rewrite (getClientPlayerID_ret _ p)).
    apply wp_bind. eapply wp_mono; [|exact Hid]. intros _ s' ->.
    apply wp_bind. eapply disconnect_client_wp; [done|done|done|].
    intros s' Hi' Hk Hc Hres Hst. unfold step_result in Hres.
    apply Hnext; [done|split; [done|]; intros watched Hs0; by apply Hc, courteous_courteous_but|congruence|lia|lia]. }
  apply wp_bind. eapply wp_mono; [|by apply (loop_read T i pf p s)].
  intros [connected i'] s' (Hi' & Hk & Hres & Hc). unfold step_result in Hres.
  destruct connected; cbn [negb]; [|apply Hnext; [done|done|done|lia|lia]].
  apply wp_bind. unfold is_stopping. apply wp_bind, wp_get_state, wp_ret.
  destruct (stopping s') eqn:Hst; [by apply wp_ret|].
  apply wp_bind. unfold poll_slot. destruct (Z.eqb_spec i' i) as [->|Hne]; cycle 1.
  { apply wp_fail. destruct Hc as [|[HT' _]]; [done|]. exact HT'. }
  destruct (socket_at s' i) as [pf' Hs']; [lia|]. unfold wp at 1.
  rewrite (poll_fd_at_ret s' i pf' (socket_lookup _ _ _ _ Hs')) by lia.
  destruct (has_flag _ POLLOUT); [|apply Hnext; [done|done|done|lia|lia]].
  apply wp_bind. eapply wp_mono; [|apply (handle_write_wp _ i (fd pf') pf'); [done|done|done]].
  intros [c i''] s2 (Hi2 & Hk2 & Hres2 & Hst2).
  unfold step_result in Hres2. apply Hnext; [done|by eapply goes_trans|congruence|lia|lia].
Qed.

(** ** The end of a game *)
Lemma flush_client_wp E fuel client_fd p s :
  inv s → (B → E Signal) → player_of s client_fd p → (length (messages p) ≤ fuel)%nat →
  wp E (flush_client send_result fuel client_fd)
    (λ _ s', inv s' ∧ poll_fds s' = poll_fds s ∧ now s' = now s ∧
       (∀ f, is_Some (players s !! f) → is_Some (players s' !! f)) ∧ (fds_open s → fds_open s')) s.
Proof.
  intros Hi HE. revert s p Hi. induction fuel as [|fuel IH]; intros s p Hi Hp Hlen; cbn [flush_client]; unfold wp; run_step;
    case_bool_decide as Hm; cbn [negb]; try done.
  { destruct (messages p); [done|simpl in Hlen; lia]. }
  destruct (messages p) as [|msg ms] eqn:Hms; [done|].
  pose proof (messages_nonempty _ _ _ (inv_numbers s (proj1 Hi) _ _ Hp)) as Hne.
  rewrite Hms in Hne. apply Forall_cons in Hne as [Hmsg Hne].
  rewrite (bind_ret _ _ _ _ _ (take_next_message_ret _ _ _ _ _ Hp Hms)).
  rewrite bool_decide_eq_false_2 by done. run_step.
  pose proof (set_messages_inv s client_fd p ms Hi Hp Hne) as Hi1.
  set (s1 := set_player client_fd _ s) in *. set (n := send_result _ client_fd msg).
  unfold raise_sigpipe. destruct (Z.eqb_spec n (- EPIPE)) as [He|_]; [by apply HE, (send_broken _ _ _ He)|].
  rewrite (bind_ret (mret tt) _ s1 tt s1) by done. run_step.
  fold (log_output (Sent client_fd (take (Z.to_nat n) msg)) s1). set (s2 := log_output _ s1).
  assert (inv s2) as Hi2 by (by apply log_output_inv).
  assert (∀ f, is_Some (players s !! f) → is_Some (players s2 !! f)) as Hps.
  { intros f Hf. unfold s2, s1. simpl. destruct (decide (f = client_fd)) as [->|Hnf];
      [rewrite lookup_insert_eq; by eexists|by rewrite lookup_insert_ne]. }
  assert (fds_open s → fds_open s2) as Hfds.
  { intros Hs. eapply (fds_open_outputs s); [done|done|]. rewrite (use_fds_sent s _ p) by done. f_equal.
    unfold s2, s1. simpl. rewrite dom_insert_lookup_L; [done|]. by exists p. }
  destruct (n =? Z.of_nat (length msg)); cbn [negb]; [|done].
  assert (player_of s2 client_fd (p <| messages := ms |>)) as Hp2 by apply player_of_set.
  pose proof (IH s2 _ Hi2 Hp2) as H. unfold wp in H.
  destruct (flush_client send_result fuel client_fd s2) as [[[] s3]|f]; [|apply H; simpl in *; lia].
  destruct H as (H1 & H2 & H3 & H4 & H5); [simpl in *; lia|]. split; [done|]. split; [by rewrite H2|].
  split; [by rewrite H3|]. auto.
Qed.

Lemma flush_clients_wp E l s :
  inv s → (B → E Signal) → (∀ pf, pf ∈ l → is_Some (players s !! fd pf)) →
  wp E (flush_clients send_result l) (λ _ s',
    inv s' ∧ poll_fds s' = poll_fds s ∧ now s' = now s ∧ (fds_open s → fds_open s')) s.
Proof.
  intros Hi HE. revert s Hi. induction l as [|pf l IH]; intros s Hi Hl; cbn [flush_clients]; [by apply wp_ret|].
  destruct (Hl pf) as [p Hp]; [by left|]. apply wp_bind. unfold wp at 1.
  rewrite (players_at_ret _ _ s Hp).
  apply wp_bind. eapply wp_mono; [|by apply (flush_client_wp E _ _ p)].
  intros _ s1 (Hi1 & Hpf1 & Hn1 & Hs1 & Ho1). eapply wp_mono; [|apply IH; [done|]].
  - intros _ s2 (? & -> & -> & ?). do 3 (split; [done|]). auto.
  - intros pf' Hin. apply Hs1, Hl. by right.
Qed.

Lemma tail_players s pf : inv_core s → pf ∈ tail (poll_fds s) → is_Some (players s !! fd pf).
Proof.
  intros Hi Hin. destruct (inv_sockets s Hi) as [_ _ _ H]. apply H.
  destruct (poll_fds s) as [|pf0 l]; [by apply not_elem_of_nil in Hin|]. simpl in *.
  apply list_elem_of_fmap. by exists pf.
Qed.

(** After every client's descriptor was closed, none is open. *)
Lemma closed_fds_open s :
  inv_core s → fds_open s →
  use_fds ∅ (trace s ++ map (λ p, Closed (fd p)) (tail (poll_fds s))) = Some ∅.
Proof.
  intros Hi Hs. unfold fds_open in Hs. rewrite use_fds_app, Hs. simpl. destruct (inv_sockets s Hi) as [Hnd _ _ H].
  rewrite <-(map_map fd Closed). assert (tail (map fd (poll_fds s)) = map fd (tail (poll_fds s))) as Htl
    by (by destruct (poll_fds s)). rewrite Htl in H.
  rewrite use_fds_closed.
  - f_equal. apply set_eq. intros f. rewrite elem_of_difference, elem_of_dom, elem_of_list_to_set, H, elem_of_empty. tauto.
  - rewrite <-Htl. destruct (map fd (poll_fds s)); [done|]. by apply NoDup_cons in Hnd as [_ ?].
  - intros f Hf. by apply elem_of_dom, H.
Qed.

Lemma reset_fds s s' :
  inv_core s → fds_open s → trace s' = trace s ++ map (λ p, Closed (fd p)) (tail (poll_fds s)) →
  players s' = ∅ → fds_open s'.
Proof. intros Hi Hs Ht Hp. unfold fds_open. by rewrite Ht, closed_fds_open, Hp, dom_empty_L. Qed.

Lemma no_players_talk watched s : players s = ∅ → talks watched s.
Proof.
  intros Hp. split.
  - intros f p _. unfold player_of. by rewrite Hp, lookup_empty.
  - intros f p d cb _. unfold player_of. by rewrite Hp, lookup_empty.
Qed.

(** A new game starts with no player, no event and only the listening socket. *)
Lemma reset_server_wp E s :
  inv s → (B → E Signal) →
  wp E (_ ← reset_server send_result; reset) (λ _ s',
    inv s' ∧ now s ≤ now s' ∧ players s' = ∅ ∧ events s' = [] ∧ stopping s' = false ∧
    total_correct_puts s' = 0 ∧ poll_fds s' = take 1 (poll_fds s) ∧ (fds_open s → fds_open s')) s.
Proof.
  intros Hi HE. apply wp_bind. unfold reset_server. apply wp_bind, wp_get_state. apply wp_bind.
  eapply wp_mono; [|apply flush_clients_wp; [done|done|intros pf; by apply tail_players, Hi]].
  intros _ s1 ([Hi1 _] & Hpf & Hnow & Hfds). apply wp_modify. unfold reset. apply wp_bind, wp_modify, wp_modify.
  split; [|simpl; unfold constants.reset_delay; rewrite Hpf, Hnow; do 6 (split; [done || lia|]); intros Hs; apply (reset_fds s1); auto; by rewrite Hpf].
  destruct Hi1 as [HK HN HM Hf _ _ _ _ _ [Hnd Hr Hne _]]. split.
  - constructor; try done; try by constructor. simpl.
    destruct (poll_fds s1) as [|pf0 l]; [done|]. simpl in *. constructor; try done.
    + apply NoDup_singleton.
    + apply Forall_cons in Hr as [Hr _]. by constructor.
    + intros f. rewrite lookup_empty. split; [by intros []|by intros ?%not_elem_of_nil].
  - unfold total_ok. simpl. lia.
Qed.

(** ** One turn *)
Definition with_revents (rs : list Z) (s : Server) : Server := s <| poll_fds ::= λ l, set_revents l rs |>.

Lemma map_fd_set_revents l rs : map fd (set_revents l rs) = map fd l.
Proof.
  unfold set_revents. apply list_eq. intros n. rewrite !list_lookup_fmap, list_lookup_imap.
  by destruct (l !! n).
Qed.

Lemma request_writes_ret l s :
  (∀ pf, pf ∈ l → is_Some (players s !! fd pf)) →
  ∃ l', request_writes l s = Ret (l', s) ∧ Forall2 (λ a b, fd b = fd a ∧ revents b = revents a) l l'.
Proof.
  induction l as [|pf l IH]; intros Hl; [by exists []|].
  destruct IH as (l' & Hr & H2); [intros; apply Hl; by right|].
  destruct (Hl pf) as [p Hp]; [by left|]. cbn [request_writes].
  rewrite (bind_ret _ _ _ _ _ (has_pending_messages_ret _ _ s Hp)).
  rewrite (bind_ret _ _ _ _ _ Hr). eexists. split; [reflexivity|].
  constructor; [by case_bool_decide|done].
Qed.

(** Asking for write events. *)
Lemma request_writes_inv s l' :
  Forall2 (λ a b, fd b = fd a ∧ revents b = revents a) (tail (poll_fds s)) l' → inv s →
  let s' := s <| poll_fds ::= λ l, take 1 l ++ l' |> in inv s' ∧ goes s s'.
Proof.
  intros H2 Hi. assert (map fd l' = map fd (tail (poll_fds s))) as Hmap.
  { clear Hi. induction H2 as [|a b l l' [Hf _] _ IH]; [done|]. simpl. congruence. }
  assert (length (take 1 (poll_fds s) ++ l') = length (poll_fds s)) as Hlen.
  { apply Forall2_length in H2. destruct (poll_fds s); simpl in *; lia. }
  destruct (inv_sockets s (proj1 Hi)) as [_ _ Hne _]. split.
  - destruct Hi as [Hi Ht]. split; [|done]. eapply inv_core_frame; [..|exact Hi]; try done. simpl.
    rewrite map_app, Hmap. by destruct (poll_fds s).
  - split; [|intros watched; by apply courteous_frame]. constructor; try done;
      [|by apply says_more_same|simpl; by destruct (poll_fds s)|simpl; by rewrite Hlen|by apply outputs_same|
       intros watched; by apply talks_frame].
    simpl. intros pf Hin.
    assert (pf ∈ l') as Hin' by (by destruct (poll_fds s)).
    apply list_elem_of_lookup in Hin' as [n Hn].
    destruct (Forall2_lookup_r _ _ _ _ _ H2 Hn) as (pf0 & Hn0 & Hf & Hr).
    exists pf0. split; [by eapply list_elem_of_lookup_2|done].
Qed.

Lemma set_now_inv time s : now s ≤ time → inv s → inv (s <| now := time |>).
Proof.
  intros Hle [[] Ht]. split; [|done]. constructor; try done. intros f p Hp.
  specialize (inv_turn f p Hp). simpl. unfold turn_ok in *. destruct (is_known p).
  - destruct inv_turn as [|(d & cb & Hin & Hg & Hd)]; [by left|]. right. exists d, cb.
    split; [done|]. split; [done|lia].
  - destruct inv_turn as (d & Hin & Hd). exists d. split; [done|lia].
Qed.

Lemma connected_readable client_fd ip_ port_ s :
  players s !! client_fd = None → readable_known s → readable_known (connected client_fd ip_ port_ s).
Proof.
  intros Hnone Hr pf Hin Hf. unfold connected in *. simpl in Hin.
  assert (pf ∈ tail (poll_fds s)) as Hold.
  { destruct (poll_fds s) as [|pf0 l]; simpl in *; [by apply not_elem_of_nil in Hin|].
    apply elem_of_app in Hin as [|Hin%list_elem_of_singleton]; [done|]. by subst pf. }
  destruct (Hr pf Hold Hf) as (p & Hp & Hk). exists p. split; [|done].
  unfold player_of, schedule in *. simpl. rewrite lookup_insert_ne; [done|]. congruence.
Qed.

Variable accept_result : AcceptResult.
Hypothesis accept_fails : accept_result = AcceptError → X.

(** A client was accepted on [f]. What holds of the client on [f] holds from then on, if it does at that
    moment; [clear] is what that takes. *)
Definition accepted_in (f : Z) (s s' : Server) : Prop := ∃ o, trace s' = trace s ++ o ∧ Accepted f ∈ o.
Definition continues (P : Server → Prop) (clear : Prop) (f : Z) (s s' : Server) : Prop :=
  (accepted_in f s s' → clear) → (accepted_in f s s' ∨ P s) → P s'.

Lemma accepted_in_same f s s' : trace s' = trace s → ~ accepted_in f s s'.
Proof.
  intros Ht (o & Ho & Hin). rewrite Ht in Ho. apply (f_equal length) in Ho. rewrite length_app in Ho.
  destruct o; [by apply not_elem_of_nil in Hin|simpl in Ho; lia].
Qed.
Lemma continues_same (P : Server → Prop) clear f s s' :
  trace s' = trace s → (P s → P s') → continues P clear f s s'.
Proof. intros Ht HP _ [?%accepted_in_same|]; [done..|auto]. Qed.

(** Before and after it nobody is accepted. *)
Lemma continues_between (P : Server → Prop) clear f s0 s1 s2 s3 :
  no_accept s0 s1 → (P s0 → P s1) → (∃ o, trace s2 = trace s1 ++ o) → continues P clear f s1 s2 →
  no_accept s2 s3 → (P s2 → P s3) → continues P clear f s0 s3.
Proof.
  intros (o1 & H1 & Hn1) HP1 [o2 H2] Hc (o3 & H3 & Hn3) HP3 Hclear Hor.
  assert (accepted_in f s0 s3 ↔ accepted_in f s1 s2) as Hiff.
  { rewrite H2, H1 in H3. split; intros (o & Ho & Hin).
    - exists o2. split; [done|]. rewrite H3, <-!(assoc app) in Ho. apply app_inv_head in Ho. subst o.
      apply elem_of_app in Hin as [?%Hn1|[|?%Hn3]%elem_of_app]; done.
    - exists (o1 ++ o2 ++ o3). rewrite H3, !(assoc app). split; [done|].
      rewrite H2 in Ho. apply app_inv_head in Ho. subst o. rewrite !elem_of_app. auto. }
  apply HP3, Hc; [by intros ?%Hiff%Hclear|]. destruct Hor as [?%Hiff|]; auto.
Qed.

(** What a turn of the loop does for the client on a descriptor. *)
Definition served_well (r : AcceptResult) (s s' : Server) : Prop :=
  (∃ o, trace s' = trace s ++ o) ∧
  ∀ f, continues (talks (eq f)) (accept_unanswered r s) f s s' ∧ continues (courteous (eq f)) (accept_undue r s) f s s'.

Lemma served_well_connected client_fd ip_ port_ s :
  players s !! client_fd = None → served_well (AcceptClient client_fd ip_ port_) s (connected client_fd ip_ port_ s).
Proof.
  intros Hnone. split; [by exists [Accepted client_fd]|].
  assert (∀ f, accepted_in f s (connected client_fd ip_ port_ s) ↔ f = client_fd) as Hacc.
  { intros f. split.
    - intros (o & Ho & Hin). apply app_inv_head in Ho. subst o. by apply list_elem_of_singleton in Hin as [= ->].
    - intros ->. exists [Accepted client_fd]. split; [done|by left]. }
  assert (∀ p, ~ player_of s client_fd p) as Hno by (unfold player_of; rewrite Hnone; by intros p).
  intros f. split; intros Hclear Hor.
  - apply talks_connected; [intros ->; by apply Hclear, Hacc|]. destruct Hor as [->%Hacc|]; [|done].
    split; [intros ? p <-|intros ? p d cb <-]; by intros ?%Hno.
  - apply courteous_connected; [intros ->; by apply Hclear, Hacc|]. destruct Hor as [->%Hacc|]; [|done].
    intros ? p <-. by intros ?%Hno.
Qed.
Lemma served_well_goes r s0 s1 s2 s3 : goes s0 s1 → served_well r s1 s2 → goes s2 s3 →
  (∃ o, trace s3 = trace s0 ++ o) ∧
  ∀ f, continues (talks (eq f)) (accept_unanswered r s1) f s0 s3 ∧ continues (courteous (eq f)) (accept_undue r s1) f s0 s3.
Proof.
  intros [Hk1 Hc1] [Hx Hw] [Hk3 Hc3]. split.
  - destruct (keeps_outputs _ _ Hk1) as (o1 & H1 & _), Hx as [o2 H2], (keeps_outputs _ _ Hk3) as (o3 & H3 & _).
    exists (o1 ++ o2 ++ o3). by rewrite H3, H2, H1, !(assoc app).
  - intros f. destruct (Hw f) as [Ht Hc]. split; (eapply continues_between;
      [apply Hk1| |exact Hx|eassumption|apply Hk3|]); first [apply (keeps_talks _ _ Hk1)|apply (keeps_talks _ _ Hk3)|auto].
Qed.
Lemma served_well_same r s : served_well r s s.
Proof. split; [exists []; by rewrite app_nil_r|]. intros f. split; by apply continues_same. Qed.

Lemma handle_new_connection_wp T s :
  inv s → accept_fresh accept_result s → T ∨ readable_known s →
  wp (ends X T B) (handle_new_connection accept_result) (λ _ s',
    inv s' ∧ now s' = now s ∧ stopping s' = stopping s ∧ (T ∨ readable_known s') ∧
    (fds_open s → fds_open s') ∧ served_well accept_result s s') s.
Proof.
  intros Hi Hf HT. unfold handle_new_connection.
  destruct accept_result as [client_fd ip_ port_| |] eqn:Ha;
    [|apply wp_ret; repeat (split; [done|]); apply served_well_same|apply wp_fail; left; by apply accept_fails].
  unfold wp. pose proof (handle_new_connection_ret client_fd ip_ port_ s) as Hrun.
  unfold handle_new_connection in Hrun. rewrite Hrun.
  split; [by apply connected_inv|]. split; [done|]. split; [done|].
  assert (players s !! client_fd = None) as Hnone.
  { destruct (players s !! client_fd) as [p|] eqn:Hp; [|done]. destruct Hf as [Hf _]. destruct Hf.
    destruct (inv_sockets s (proj1 Hi)) as [_ _ _ H]. assert (client_fd ∈ tail (map fd (poll_fds s))) as Hin
      by (apply H; by eexists).
    destruct (map fd (poll_fds s)); [done|]. by right. }
  split; [|split; [by apply fds_connected|by apply served_well_connected]]. destruct HT as [|HT]; [by left|right]. by apply connected_readable.
Qed.

Lemma accept_fresh_keeps s s' :
  keeps s s' → accept_fresh accept_result s → accept_fresh accept_result s'.
Proof.
  intros []. unfold accept_fresh. destruct accept_result as [f ? ?| |]; [|done..]. intros [Hn ?].
  split; [|done]. intros Hin. apply Hn.
  destruct (poll_fds s') as [|pf' l'], (poll_fds s) as [|pf l]; simpl in *; try done.
  injection keeps_listening as Hfd. rewrite Hfd in Hin. apply elem_of_cons in Hin as [->|Hin]; [by left|]. right.
  apply list_elem_of_fmap in Hin as (q & -> & Hq). destruct (keeps_sockets q Hq) as (q0 & Hq0 & <- & _).
  apply list_elem_of_fmap. by exists q0.
Qed.

(** A turn of the loop preserves the invariant and fails only by an [exit], or, if [T], by
    undefined behaviour, or, if [B], by a signal. *)
Definition turn_start (rs : list Z) (time : Z) (s : Server) : Server := with_revents rs s <| now := time |>.
(** [accept] is called when the timers have run. *)
Definition accept_when (P : AcceptResult → Server → Prop) (poll_result : option (list Z)) (time : Z) (s : Server) : Prop :=
  ∀ rs s', poll_result = Some rs → check_timers (turn_start rs time s) = Ret (tt, s') → P accept_result s'.
Definition accept_ok := accept_when accept_fresh.
Definition accept_quiet := accept_when accept_unanswered.
Definition accept_clear := accept_when accept_undue.

(** The part of a turn after [poll] and the timers: a new connection, and the clients' sockets. *)
Lemma main_step_sockets T s :
  inv s → stopping s = false → T ∨ readable_known s → accept_fresh accept_result s →
  wp (ends X T B)
    (listening ← poll_fd_at 0;
     _ ← (if has_flag (revents listening) POLLIN then handle_new_connection accept_result else mret tt);
     s ← get_state; client_loop recv_result send_result (length (poll_fds s)) 1)
    (λ _ s', inv s' ∧ now s' = now s ∧ (fds_open s → fds_open s') ∧ served_well accept_result s s') s.
Proof.
  intros Hi Hst HT Hacc. destruct (inv_sockets s (proj1 Hi)) as [_ _ Hne _].
  destruct (poll_fds s) as [|pf0 l0] eqn:Hpf; [done|].
  apply wp_bind. unfold wp at 1. rewrite (poll_fd_at_ret s 0 pf0) by (by rewrite ?Hpf).
  apply wp_bind.
  assert (wp (ends X T B)
    (if has_flag (revents pf0) POLLIN then handle_new_connection accept_result else mret tt)
    (λ _ s', inv s' ∧ now s' = now s ∧ stopping s' = stopping s ∧ (T ∨ readable_known s') ∧
       (fds_open s → fds_open s') ∧ served_well accept_result s s') s) as Hnew.
  { destruct (has_flag _ _); [|apply wp_ret; repeat (split; [done|]); apply served_well_same]. by apply handle_new_connection_wp. }
  eapply wp_mono; [|exact Hnew]. clear Hnew. intros _ s4 (Hi4 & Hn4 & Hst4 & HT4 & Ho4 & Hw4).
  apply wp_bind, wp_get_state.
  destruct (inv_sockets s4 (proj1 Hi4)) as [_ _ Hne4 _].
  assert (1 ≤ Z.of_nat (length (poll_fds s4))) as Hlen by (destruct (poll_fds s4); [done|simpl; lia]).
  eapply wp_mono; [|apply client_loop_wp; [done|congruence|lia|lia|done]].
  intros _ s5 [? [Hk5 Hc5]]. split; [done|]. split; [rewrite (keeps_now _ _ Hk5); lia|].
  split; [intros Ho; by apply (keeps_fds _ _ Hk5), Ho4|].
  by eapply served_well_goes; [apply goes_refl|exact Hw4|].
Qed.

Lemma main_step_wp T poll_result time s :
  inv s → now s ≤ time → accept_ok poll_result time s →
  T ∨ (∀ rs, poll_result = Some rs → readable_known (with_revents rs s)) → (poll_result = None → X) →
  wp (ends X T B) (main_step accept_result recv_result send_result poll_result time)
    (λ _ s', inv s' ∧ time ≤ now s' ∧ (fds_open s → fds_open s') ∧
       ∀ f, continues (talks (eq f)) (accept_quiet poll_result time s) f s s' ∧
         continues (courteous (eq f)) (accept_clear poll_result time s) f s s') s.
Proof.
  intros Hi Htime Hacc HT HX. unfold main_step. destruct poll_result as [rs|]; [|apply wp_fail; left; by apply HX].
  set (s1 := with_revents rs s <| now := time |>).
  assert (inv s1) as Hi1.
  { apply set_now_inv; [done|]. destruct Hi as [Hi Ht]. split; [|done].
    eapply inv_core_frame; [..|exact Hi]; try done. simpl. apply map_fd_set_revents. }
  assert (T ∨ readable_known s1) as HT1.
  { destruct HT as [|HT]; [by left|right]. exact (HT rs eq_refl). }
  apply wp_bind, wp_modify. fold (with_revents rs s). fold s1.
  apply wp_bind. unfold is_stopping. apply wp_bind, wp_get_state, wp_ret.
  destruct (stopping s1) eqn:Hstop.
  { eapply wp_mono; [|by apply reset_server_wp]. intros _ s2 (? & ? & Hno & _ & _ & _ & _ & Ho2).
    do 2 (split; [done|]). split; [intros Ho; by apply Ho2|].
    intros f. split; intros _ _; [by apply no_players_talk|by apply no_players_courteous]. }
  destruct (check_timers_loop_run (length (events s1)) time s1 (now s1) Hi1 (inv_turn s1 (proj1 Hi1)))
    as (s2 & Hrun & Hi2 & _ & Hst2 & Hk2 & _); [done|]. specialize (Hk2 Hstop).
  apply wp_bind. unfold check_timers. apply wp_bind, wp_get_state.
  unfold wp at 1. change (now s1) with time. rewrite Hrun.
  assert (accept_fresh accept_result s2) as Hacc2 by (by apply (Hacc rs)).
  apply wp_bind, wp_get_state. apply wp_bind.
  destruct (request_writes_ret (tail (poll_fds s2)) s2) as (rest & Hw & Hrest).
  { intros pf. apply tail_players, Hi2. }
  unfold wp at 1. rewrite Hw. apply wp_bind, wp_modify.
  destruct (request_writes_inv s2 rest Hrest Hi2) as [Hi3 Hk3]. set (s3 := set_field poll_fds _ s2) in *.
  assert (goes s1 s3) as [Hk13 Hc13].
  { eapply goes_trans; [|exact Hk3]. split; [done|]. intros watched. by eapply check_timers_loop_courteous. }
  assert (now s3 = time) as Hn3 by (by rewrite (keeps_now _ _ Hk13)).
  assert (stopping s3 = false) as Hst3 by (change (stopping s2 = false); by rewrite (timers_stopping _ _ Hst2)).
  assert (T ∨ readable_known s3) as HT3.
  { destruct HT1 as [|HT1]; [by left|right]. eapply readable_known_keeps; [apply Hi3|done|done]. }
  assert (∀ watched, talks watched s → talks watched s3) as Ht3.
  { intros watched Ht. apply (keeps_talks _ _ Hk13). by eapply talks_frame; [..|exact Ht]. }
  assert (∀ watched, courteous watched s → courteous watched s3) as Hc3.
  { intros watched Hc. apply Hc13. by eapply courteous_frame; [..|exact Hc]. }
  assert (no_accept s s3) as Ha3 by exact (keeps_outputs _ _ Hk13).
  assert (fds_open s → fds_open s3) as Ho3 by (intros Ho; by apply (keeps_fds _ _ Hk13)).
  assert (∀ s4, served_well accept_result s3 s4 → ∀ f,
    continues (talks (eq f)) (accept_quiet (Some rs) time s) f s s4 ∧
    continues (courteous (eq f)) (accept_clear (Some rs) time s) f s s4) as Hlast.
  { intros s4 [Hx Hw5] f. destruct (Hw5 f) as [Ht4 Hc4]. split.
    - intros Hq. eapply (continues_between _ _ f s s3 s4 s4 Ha3 (Ht3 _) Hx Ht4);
        [by apply outputs_same|done|]. intros Ha. by apply (Hq Ha rs s2).
    - intros Hq. eapply (continues_between _ _ f s s3 s4 s4 Ha3 (Hc3 _) Hx Hc4);
        [by apply outputs_same|done|]. intros Ha. by apply (Hq Ha rs s2). }
  destruct (forallb _ rs).
  { apply wp_ret. split; [done|]. split; [lia|]. split; [done|]. apply Hlast, served_well_same. }
  eapply wp_mono; [|apply main_step_sockets; [done|done|done|by eapply accept_fresh_keeps; [apply Hk3|]]].
  intros _ s4 (? & Hn4 & Ho4 & Hw4). split; [done|]. split; [lia|]. split; [auto|]. by apply Hlast.
Qed.
End Environment.
