(* ===== verification/ServerClaims.v ===== *)
(** * Properties of the server

    The theorems of the server part, stated on the code's definitions, with the states the
    witnesses run on. *)
From Stdlib Require Import Ascii String SpecFloat.
From S2P Require Import Prelude CString Double Constants MsgParser ServerState ServerLogic Server Handlers.
From S2P Require Import Framing Conversation GameInvariant EventLoop Courtesy MainLoop.

(** What the system guarantees of one turn: [send] accepts at most what it is given, the
    monotonic clock does not go back, [accept] gives a descriptor that is not open. *)
Definition kernel_ok (t : Turn) (s : Server) : Prop :=
  (∀ n client_fd msg, turn_send t n client_fd msg ≤ Z.of_nat (length msg)) ∧
  now s ≤ turn_time t ∧ accept_ok (turn_accept t) (turn_poll t) (turn_time t) s.

(** The states the loop goes through, as long as no turn fails. *)
Inductive reachable (s0 : Server) : Server → Prop :=
  | reach_start : reachable s0 s0
  | reach_turn s t s' : reachable s0 s → kernel_ok t s → run_turn t s = Ret (tt, s') → reachable s0 s'.

(** The states since a client was accepted on [f] when [clear] held, and no other client on [f] since. *)
Inductive served (clear : AcceptResult → Server → Prop) (s0 : Server) (f : Z) : Server → Prop :=
  | served_accept s t s' :
      reachable s0 s → kernel_ok t s → run_turn t s = Ret (tt, s') → accepted_in f s s' →
      accept_when (turn_accept t) clear (turn_poll t) (turn_time t) s → served clear s0 f s'
  | served_turn s t s' :
      served clear s0 f s → kernel_ok t s → run_turn t s = Ret (tt, s') → ~ accepted_in f s s' →
      served clear s0 f s'.
Lemma served_reachable clear s0 f s : served clear s0 f s → reachable s0 s.
Proof. induction 1; by eapply reach_turn. Qed.
Lemma served_weaken (clear clear' : AcceptResult → Server → Prop) s0 f s :
  (∀ r s, clear r s → clear' r s) → served clear s0 f s → served clear' s0 f s.
Proof.
  intros Hc. induction 1 as [s t s' Hr Hk Hrun Ha Hclear|s t s' _ IH Hk Hrun Ha].
  - eapply served_accept; [done..|]. intros rs s1 Hrs Ht. by apply Hc, (Hclear rs).
  - by eapply served_turn.
Qed.

(** A new client on a descriptor, address and port: [undue] says that no answer is due that was meant for
    a former client with all three; [unanswered] excludes only those for a client called UNKNOWN. *)
Abbreviation undue := accept_undue.
Abbreviation unanswered := accept_unanswered.
Lemma undue_unanswered r s : undue r s → unanswered r s.
Proof.
  unfold accept_undue, accept_unanswered. destruct r; [|done..].
  intros Hc d cb Hin Hg%gives_turn_about. by apply (Hc d cb).
Qed.

(** The ranges that [ServerArgParser] enforces, and a usable coefficients file. *)
Definition config_ok (k n m : Z) (file : str) (listening_fd : Z) : Prop :=
  1 ≤ k ≤ constants.max_k ∧ 1 ≤ n ≤ constants.max_n ∧ 1 ≤ m ≤ constants.max_m ∧
  coeff_file_ok n file ∧ 0 ≤ listening_fd < 2 ^ 31.

Lemma initial_inv k n m file listening_fd time :
  config_ok k n m file listening_fd → inv (initial_server k n m file listening_fd time).
Proof.
  intros (Hk & Hn & Hm & Hf & Hl). split; [|unfold total_ok; simpl; lia].
  constructor; try done; try by constructor. simpl. constructor.
  - apply NoDup_singleton.
  - by constructor.
  - done.
  - intros f. rewrite lookup_empty. split; [by intros []|by intros ?%not_elem_of_nil].
Qed.

(** What one turn does. *)
Lemma run_turn_post t s s' :
  inv s → kernel_ok t s → run_turn t s = Ret (tt, s') →
  inv s' ∧ (fds_open s → fds_open s') ∧
  ∀ f, continues (talks (eq f)) (accept_quiet (turn_accept t) (turn_poll t) (turn_time t) s) f s s' ∧
    continues (courteous (eq f)) (accept_clear (turn_accept t) (turn_poll t) (turn_time t) s) f s s'.
Proof.
  intros Hi (Hsend & Ht & Hacc) Hrun.
  pose proof (main_step_wp (turn_recv t) (turn_send t) Hsend True True (λ _ _ _ _, I) (turn_accept t) (λ _, I) True
    (turn_poll t) (turn_time t) s Hi Ht Hacc (or_introl I) (λ _, I)) as H.
  by destruct (wp_elim _ _ _ _ _ _ H Hrun) as (? & _ & ?).
Qed.

Lemma reachable_inv s0 s : inv s0 → reachable s0 s → inv s.
Proof. intros H0 Hr. induction Hr as [|s t s' Hr IH Hk Hrun]; [done|]. by apply (run_turn_post t s s' IH Hk Hrun). Qed.
Lemma reachable_fds s0 s : inv s0 → fds_open s0 → reachable s0 s → fds_open s.
Proof.
  intros H0 Hf0 Hr. induction Hr as [|s t s' Hr IH Hk Hrun]; [done|].
  destruct (run_turn_post t s s' (reachable_inv s0 s H0 Hr) Hk Hrun) as (_ & H & _). by apply H.
Qed.

(** What holds of the client on [f] when it is accepted and continues holds as long as it is served. *)
Lemma served_continues clear (P : Server → Prop) s0 f s :
  (∀ t s s', inv s → kernel_ok t s → run_turn t s = Ret (tt, s') →
     continues P (accept_when (turn_accept t) clear (turn_poll t) (turn_time t) s) f s s') →
  inv s0 → served clear s0 f s → P s.
Proof.
  intros Hstep H0. induction 1 as [s t s' Hr Hk Hrun Ha Hc|s t s' Hs IH Hk Hrun Ha].
  - apply (Hstep t s s' (reachable_inv s0 s H0 Hr) Hk Hrun); [done|by left].
  - apply (Hstep t s s' (reachable_inv s0 s H0 (served_reachable _ _ _ _ Hs)) Hk Hrun); [done|by right].
Qed.
Lemma served_talks s0 f s : inv s0 → served unanswered s0 f s → talks (eq f) s.
Proof. apply served_continues. intros t s1 s' Hi Hk Hrun. by apply (run_turn_post t s1 s' Hi Hk Hrun). Qed.
Lemma served_courteous s0 f s : inv s0 → served undue s0 f s → courteous (eq f) s.
Proof. apply served_continues. intros t s1 s' Hi Hk Hrun. by apply (run_turn_post t s1 s' Hi Hk Hrun). Qed.

Lemma initial_fds k n m file listening_fd time : fds_open (initial_server k n m file listening_fd time).
Proof. unfold fds_open. simpl. by rewrite dom_empty_L. Qed.

(** Either every readable socket belongs to a known player, or one does not. *)
Lemma readable_cases s :
  inv_core s →
  readable_known s ∨
  ∃ pf p, pf ∈ tail (poll_fds s) ∧ has_flag (revents pf) (Z.lor POLLIN POLLERR) = true ∧
    player_of s (fd pf) p ∧ is_known p = false.
Proof.
  intros Hi. assert (∀ l : list pollfd, (∀ pf, pf ∈ l → is_Some (players s !! fd pf)) →
    (∀ pf, pf ∈ l → has_flag (revents pf) (Z.lor POLLIN POLLERR) = true →
      ∃ p, player_of s (fd pf) p ∧ is_known p = true) ∨
    ∃ pf p, pf ∈ l ∧ has_flag (revents pf) (Z.lor POLLIN POLLERR) = true ∧
      player_of s (fd pf) p ∧ is_known p = false) as H.
  { induction l as [|pf l IH]; intros Hl; [left; by intros pf ?%not_elem_of_nil|].
    destruct IH as [IH|(pf' & p & Hin & H)]; [intros; apply Hl; by right| |].
    - destruct (has_flag (revents pf) (Z.lor POLLIN POLLERR)) eqn:Hf.
      + destruct (Hl pf) as [p Hp]; [by left|]. destruct (is_known p) eqn:Hk.
        * left. intros pf' [->|Hin]%elem_of_cons Hf'; [by exists p|by apply IH].
        * right. exists pf, p. by repeat split; [left|..].
      + left. intros pf' [->|Hin]%elem_of_cons Hf'; [congruence|by apply IH].
    - right. exists pf', p. split; [by right|done]. }
  apply H. intros pf. by apply tail_players.
Qed.

(** ** Concrete states for the witnesses *)
Definition demo_file : str := lit "COEFF 1 -2" ++ crlf ++ lit "COEFF 0.5 3" ++ crlf.
Definition demo_start : Server := initial_server 5 1 3 demo_file 3 0.
Definition demo_connected : Server := connected 5 (lit "::1") 4242 demo_start.

Lemma demo_config : config_ok 5 1 3 demo_file 3.
Proof.
  unfold config_ok, constants.max_k, constants.max_n, constants.max_m. repeat (split; [lia|]). split; [|lia].
  unfold coeff_file_ok. change (file_lines demo_file) with [lit "COEFF 1 -2" ++ [cr]; lit "COEFF 0.5 3" ++ [cr]].
  repeat constructor; intros m Hm; vm_compute in Hm; injection Hm as <-; by eexists.
Qed.
Lemma demo_inv : inv demo_start.
Proof. apply initial_inv, demo_config. Qed.
Lemma demo_connected_inv : inv demo_connected.
Proof.
  apply connected_inv; [|apply demo_inv]. split; [|lia]. simpl.
  intros Hin%list_elem_of_singleton. discriminate.
Qed.

Definition demo_player : PlayerInfo := new_player demo_start (lit "::1") 4242.
Definition demo_named : Server := match handle_hello 5 (lit "Bob") demo_connected with Ret (_, s) => s | Fail _ => demo_start end.
Definition demo_bob : PlayerInfo := default demo_player (players demo_named !! 5).
Lemma demo_named_run : handle_hello 5 (lit "Bob") demo_connected = Ret (true, demo_named).
Proof. vm_compute. reflexivity. Qed.
Lemma demo_named_player : player_of demo_named 5 demo_bob.
Proof. vm_compute. reflexivity. Qed.
Lemma demo_named_inv : inv demo_named.
Proof.
  eapply (wp_elim _ _ _ _ _ _ (handle_hello_inv demo_connected 5 demo_player (lit "Bob") demo_connected_inv eq_refl
    ltac:(vm_compute; reflexivity) ltac:(split; [done|vm_compute; reflexivity])) demo_named_run).
Qed.

(** ** A game of one client, for the witnesses *)
Definition demo_turn (accept : AcceptResult) (data : option str) (rs : list Z) (time : Z) : Turn :=
  {| turn_accept := accept; turn_recv := λ _ _, data; turn_send := λ _ _ msg, Z.min 20 (Z.of_nat (length msg));
     turn_poll := Some rs; turn_time := time |}.
Definition bob_arrives : AcceptResult := AcceptClient 5 (lit "::1") 4242.
Fixpoint run_turns (ts : list Turn) : SM unit :=
  match ts with [] => mret tt | t :: ts' => _ ← run_turn t; run_turns ts' end.

(** Whether the results of a turn are those of a kernel as assumed, and whether nobody with the descriptor,
    address and port of the new client has an answer due. *)
Definition at_accept (P : Z → str → Z → Server → bool) (t : Turn) (s : Server) : bool :=
  match turn_poll t with
  | None => true
  | Some rs =>
      match check_timers (turn_start rs (turn_time t) s) with
      | Fail _ => true
      | Ret (_, s') => match turn_accept t with AcceptClient f ip_ port_ => P f ip_ port_ s' | _ => true end
      end
  end.
Definition turn_okb (t : Turn) (s : Server) : bool :=
  (now s <=? turn_time t) &&
  at_accept (λ f _ _ s', bool_decide ((f ∉ map fd (poll_fds s')) ∧ 0 ≤ f < 2 ^ 31)) t s.
Definition undueb : Turn → Server → bool :=
  at_accept (λ f ip_ port_ s', forallb (λ e : Z * Callback, match snd e with
    | CbHello _ _ _ => true
    | CbBadPut f' _ _ i p _ | CbState f' _ i p _ => negb (bool_decide (f' = f ∧ i = ip_ ∧ p = port_))
    end) (events s')).

Lemma at_accept_sound P (Q : AcceptResult → Server → Prop) t s :
  (∀ f ip_ port_ s', P f ip_ port_ s' = true → Q (AcceptClient f ip_ port_) s') →
  (∀ s', Q AcceptNone s') → (∀ s', Q AcceptError s') →
  at_accept P t s = true → accept_when (turn_accept t) Q (turn_poll t) (turn_time t) s.
Proof.
  unfold at_accept. intros HP HN HE Hok rs s' Hrs Hrun. rewrite Hrs, Hrun in Hok.
  destruct (turn_accept t); auto.
Qed.
Definition sends_at_most (t : Turn) : Prop := ∀ n f msg, turn_send t n f msg ≤ Z.of_nat (length msg).
Lemma turn_okb_sound t s : sends_at_most t → turn_okb t s = true → kernel_ok t s.
Proof.
  unfold turn_okb. intros Hsend [Ht Hacc]%andb_true_iff. split; [done|]. split; [lia|].
  eapply at_accept_sound; [|done..|exact Hacc]. intros f ip_ port_ s'. simpl. apply bool_decide_eq_true.
Qed.
Lemma undueb_sound t s :
  undueb t s = true → accept_when (turn_accept t) undue (turn_poll t) (turn_time t) s.
Proof.
  apply at_accept_sound; [|done..]. intros f ip_ port_ s' Hev d cb Hin Hg.
  rewrite forallb_forall in Hev. specialize (Hev (d, cb) (proj1 (list_elem_of_In _ _) Hin)).
  destruct cb; simpl in *; try done; by apply negb_true_iff, bool_decide_eq_false in Hev.
Qed.

#[export] Instance output_eq_dec : EqDecision Output.
Proof. solve_decision. Defined.
(** Nobody is accepted on [f] between two states. *)
Definition not_acceptedb (f : Z) (s s' : Server) : bool :=
  negb (bool_decide (Accepted f ∈ drop (length (trace s)) (trace s'))).
Lemma not_acceptedb_sound f s s' : not_acceptedb f s s' = true → ~ accepted_in f s s'.
Proof.
  intros Hn%negb_true_iff%bool_decide_eq_false (o & Ho & Hin). rewrite Ho, drop_app_length in Hn. done.
Qed.

Fixpoint turns_okb (f : Z) (ts : list Turn) (s : Server) : bool :=
  match ts with
  | [] => true
  | t :: ts' =>
      turn_okb t s &&
      match run_turn t s with Ret (_, s') => not_acceptedb f s s' && turns_okb f ts' s' | Fail _ => false end
  end.
Lemma run_turns_served clear s0 f ts s s' :
  Forall sends_at_most ts → turns_okb f ts s = true → served clear s0 f s → run_turns ts s = Ret (tt, s') →
  served clear s0 f s'.
Proof.
  intros Hsend. revert s. induction Hsend as [|t ts Ht _ IH]; intros s Hok Hr Hrun; [by injection Hrun as <-|].
  cbn [turns_okb run_turns] in *. apply andb_true_iff in Hok as [Hok Hoks]. unfold mbind, M_bind in Hrun.
  destruct (run_turn t s) as [[[] s1]|] eqn:Hs1; [|done]. apply andb_true_iff in Hoks as [Hna Hoks].
  apply (IH s1 Hoks); [|done]. eapply served_turn; [exact Hr|by apply turn_okb_sound|done|by apply not_acceptedb_sound].
Qed.

Definition bob_seated : Server :=
  match run_turn (demo_turn bob_arrives None [POLLIN] 0) demo_start with Ret (_, s) => s | Fail _ => demo_start end.
Lemma demo_turn_sends accept data rs time : sends_at_most (demo_turn accept data rs time).
Proof. intros n f msg. apply Z.le_min_r. Qed.
Lemma bob_seated_served : served undue demo_start 5 bob_seated.
Proof.
  apply (served_accept _ _ _ demo_start (demo_turn bob_arrives None [POLLIN] 0)).
  - constructor.
  - apply turn_okb_sound; [apply demo_turn_sends|vm_compute; reflexivity].
  - vm_compute. reflexivity.
  - exists [Accepted 5]. split; [vm_compute; reflexivity|by left].
  - apply undueb_sound. vm_compute. reflexivity.
Qed.

Definition bob_plays : list Turn :=
  [demo_turn AcceptNone (Some (lit "HELLO Bob" ++ crlf)) [0; POLLIN] 10;
   demo_turn AcceptNone None [0; POLLOUT] 20;
   demo_turn AcceptNone (Some (lit "PUT 1 2" ++ crlf ++ lit "PUT 2 2" ++ crlf)) [0; POLLIN] 30;
   demo_turn AcceptNone None [0; 0] 2040;
   demo_turn AcceptNone None [0; POLLOUT] 2050;
   demo_turn AcceptNone None [0; POLLOUT] 2060].
Definition bob_after (ts : list Turn) : Server :=
  match run_turns ts bob_seated with Ret (_, s) => s | Fail _ => demo_start end.
Definition bob_played : Server := bob_after bob_plays.
Definition played_bob : PlayerInfo := default demo_player (players bob_played !! 5).
Lemma bob_after_served ts :
  Forall sends_at_most ts → turns_okb 5 ts bob_seated = true →
  run_turns ts bob_seated = Ret (tt, bob_after ts) → served undue demo_start 5 (bob_after ts).
Proof. intros Hs Hok Hrun. eapply run_turns_served; [exact Hs|exact Hok|exact bob_seated_served|exact Hrun]. Qed.
Lemma bob_played_served : served undue demo_start 5 bob_played.
Proof.
  apply bob_after_served; [|vm_compute; reflexivity..]. repeat constructor; apply demo_turn_sends.
Qed.
Lemma played_bob_player : player_of bob_played 5 played_bob.
Proof. vm_compute. reflexivity. Qed.

(** ** The process as a whole *)

(** C1: in every state the server reaches from its start, with any configuration its
    argument parser accepts and a coefficients file in which each line that is a message is a
    COEFF with [N + 1] coefficients, any
    clients and any results of the system calls, the invariant
    holds: [total_correct_puts] is the sum of the players' counters and stays below [M]
    until the game stops; each player's vectors have the [K + 1] and [N + 1] elements the
    code indexes; every number is bounded far from overflow; the events are sorted by
    deadline; the sockets are exactly the listening one and one per player; and every player
    who has to wait for an answer, or still owes a [HELLO], has an event that ends the wait. *)
Theorem server_invariant k n m file listening_fd time s :
  config_ok k n m file listening_fd →
  reachable (initial_server k n m file listening_fd time) s → inv s.
Proof. intros Hc. by apply reachable_inv, initial_inv. Qed.
Lemma server_invariant_witness :
  total_correct_puts bob_played = 1 ∧ length (events bob_played) = 1%nat ∧ now bob_played = 2060 ∧ inv bob_played.
Proof.
  do 3 (split; [vm_compute; reflexivity|]).
  apply (server_invariant 5 1 3 demo_file 3 0); [apply demo_config|]. eapply served_reachable, bob_played_served.
Defined.

(** C2: how a turn of the main loop can end in a state that the server reaches with a coefficients file
    in which each line that is a message is a COEFF with [N + 1] coefficients. It returns; or it exits deliberately ([fatal],
    [syserr]), and then [poll] or [accept] failed or a client that has not said HELLO was readable; or
    it is killed by [SIGPIPE], and then some [send] reported a broken connection; or its behaviour is
    undefined, and then a client that has not said HELLO was readable. It never ends with an exception that
    nothing catches, and never loops forever. *)
Theorem server_failures k n m file listening_fd time s t f :
  config_ok k n m file listening_fd →
  reachable (initial_server k n m file listening_fd time) s → kernel_ok t s →
  run_turn t s = Fail f →
  let call_failed := turn_poll t = None ∨ turn_accept t = AcceptError in
  let connection_broken := ∃ n client_fd msg, turn_send t n client_fd msg = - EPIPE in
  let unknown_readable := ∃ rs pf p, turn_poll t = Some rs ∧ pf ∈ tail (poll_fds (with_revents rs s)) ∧
     has_flag (revents pf) (Z.lor POLLIN POLLERR) = true ∧ player_of s (fd pf) p ∧ is_known p = false in
  match f with
  | Exit => call_failed ∨ unknown_readable
  | Signal => connection_broken
  | Undef => unknown_readable
  | Throw | Diverge => False
  end.
Proof.
  intros Hc Hr (Hsend & Ht & Hacc) Hrun X B T.
  assert (inv s) as Hi by (eapply reachable_inv; [by apply initial_inv|done]).
  assert (T ∨ ∀ rs, turn_poll t = Some rs → readable_known (with_revents rs s)) as HT.
  { destruct (turn_poll t) as [rs|] eqn:Hp; [|by right].
    destruct (readable_cases (with_revents rs s)) as [Hk|(pf & p & H)].
    - eapply inv_core_frame; [..|apply Hi]; try done. apply map_fd_set_revents.
    - right. by intros rs' [= <-].
    - left. exists rs, pf, p. split; [done|exact H]. }
  pose proof (main_step_wp (turn_recv t) (turn_send t) Hsend X B (λ n f msg H, ex_intro _ n (ex_intro _ f (ex_intro _ msg H)))
    (turn_accept t) (λ H, or_intror H) T (turn_poll t) (turn_time t) s Hi Ht Hacc HT (λ H, or_introl H)) as H.
  unfold wp in H. unfold run_turn in Hrun. rewrite Hrun in H. by destruct f.
Qed.
(** Somebody sends a PUT first; and Bob's connection is broken when his COEFF is sent. *)
Definition put_first : Turn := demo_turn AcceptNone (Some (lit "PUT 1 1" ++ crlf)) [0; POLLIN] 10.
Definition bob_named : Server := bob_after (take 1 bob_plays).
Definition bob_gone : Turn :=
  {| turn_accept := AcceptNone; turn_recv := λ _ _, None; turn_send := λ _ _ _, - EPIPE;
     turn_poll := Some [0; POLLOUT]; turn_time := 20 |}.
Lemma server_failures_witness :
  (run_turn put_first bob_seated = Fail Undef ∧
   ∃ rs pf p, turn_poll put_first = Some rs ∧ pf ∈ tail (poll_fds (with_revents rs bob_seated)) ∧
     has_flag (revents pf) (Z.lor POLLIN POLLERR) = true ∧ player_of bob_seated (fd pf) p ∧ is_known p = false) ∧
  (run_turn bob_gone bob_named = Fail Signal ∧ ∃ n client_fd msg, turn_send bob_gone n client_fd msg = - EPIPE).
Proof.
  split.
  - assert (run_turn put_first bob_seated = Fail Undef) as Hrun by (vm_compute; reflexivity). split; [exact Hrun|].
    apply (server_failures 5 1 3 demo_file 3 0 bob_seated put_first Undef); [apply demo_config| | |exact Hrun].
    + eapply served_reachable, bob_seated_served.
    + apply turn_okb_sound; [apply demo_turn_sends|vm_compute; reflexivity].
  - assert (run_turn bob_gone bob_named = Fail Signal) as Hrun by (vm_compute; reflexivity). split; [exact Hrun|].
    apply (server_failures 5 1 3 demo_file 3 0 bob_named bob_gone Signal); [apply demo_config| | |exact Hrun].
    + eapply served_reachable, bob_after_served; [|vm_compute; reflexivity..]. repeat constructor; apply demo_turn_sends.
    + apply turn_okb_sound; [|vm_compute; reflexivity]. intros n f msg. simpl. unfold EPIPE. lia.
Defined.

(** ** A bad first message *)




(** ** Timers *)

(** C23: [check_timers] returns, runs every event whose deadline has passed and keeps exactly
    the others; running them fails in no way and preserves the invariant. *)
Theorem check_timers_runs_due_events s :
  inv s →
  ∃ s', check_timers s = Ret (tt, s') ∧ inv s' ∧
    events s' = List.filter (λ e, now s <? fst e) (events s).
Proof.
  intros Hi. destruct (check_timers_loop_run (length (events s)) (now s) s (now s) Hi (inv_turn s (proj1 Hi)))
    as (s' & Hrun & Hi' & _ & _ & _ & Hev); [done|].
  exists s'. split; [|done]. unfold check_timers. by run_step.
Qed.
Lemma check_timers_runs_due_events_witness :
  ∃ s', check_timers demo_named = Ret (tt, s') ∧ inv s' ∧
    events s' = List.filter (λ e, now demo_named <? fst e) (events demo_named).
Proof. apply check_timers_runs_due_events, demo_named_inv. Defined.

(** C17: no player is left waiting: [max_wait] milliseconds after any state of a game, that is
    a second or as many seconds as the name has lower-case letters, the timers have given
    every known player the turn back. *)
Theorem turn_comes_back s client_fd p time :
  inv s → player_of s client_fd p → is_known p = true → now s + max_wait p ≤ time →
  ∃ s' p', check_timers_loop (length (events s)) time s = Ret (tt, s') ∧
    player_of s' client_fd p' ∧ can_put p' = true.
Proof.
  intros Hi Hp Hk Ht.
  destruct (check_timers_loop_run (length (events s)) time s (now s) Hi (inv_turn s (proj1 Hi)))
    as (s' & Hrun & Hi' & HT & Hst & _ & Hev); [done|].
  destruct (timers_known _ _ Hst client_fd p Hp Hk) as [p' Hp'].
  destruct (timers_players _ _ Hst client_fd p' Hp') as (q & ms & Hq & _ & Hkq & Hd).
  unfold player_of in Hp, Hq. rewrite Hp in Hq. injection Hq as <-.
  exists s', p'. split; [done|]. split; [done|]. specialize (HT client_fd p' Hp').
  unfold turn_ok in HT. rewrite Hkq, Hk in HT. destruct HT as [|(d & cb & Hin & _ & Hle)]; [done|].
  exfalso. rewrite Hev in Hin. apply list_elem_of_In, filter_In in Hin as [_ Hlt%Z.ltb_lt].
  unfold max_wait in *. rewrite Hd in Hle. simpl in Hlt. lia.
Qed.
Lemma turn_comes_back_witness :
  ∃ s' p', check_timers_loop (length (events demo_named)) 2000 demo_named = Ret (tt, s') ∧
    player_of s' 5 p' ∧ can_put p' = true.
Proof.
  apply (turn_comes_back demo_named 5 demo_bob); [apply demo_named_inv|apply demo_named_player|..];
    vm_compute; done.
Defined.

(** C37: a client that has not sent [HELLO] three seconds after any state it was connected in
    is disconnected by the timers. *)
Theorem silent_client_dropped s client_fd p time :
  inv s → player_of s client_fd p → is_known p = false → now s + 3000 ≤ time →
  ∃ s', check_timers_loop (length (events s)) time s = Ret (tt, s') ∧ players s' !! client_fd = None.
Proof.
  intros Hi Hp Hk Ht.
  destruct (check_timers_loop_run (length (events s)) time s (now s) Hi (inv_turn s (proj1 Hi)))
    as (s' & Hrun & Hi' & HT & Hst & _ & Hev); [done|].
  exists s'. split; [done|]. destruct (players s' !! client_fd) as [p'|] eqn:Hp'; [exfalso|done].
  destruct (timers_players _ _ Hst client_fd p' Hp') as (q & ms & Hq & _ & Hkq & _).
  unfold player_of in Hp, Hq. rewrite Hp in Hq. injection Hq as <-.
  specialize (HT client_fd p' Hp'). unfold turn_ok in HT. rewrite Hkq, Hk in HT.
  destruct HT as (d & Hin & Hle). rewrite Hev in Hin.
  apply list_elem_of_In, filter_In in Hin as [_ Hlt%Z.ltb_lt]. simpl in Hlt. lia.
Qed.
Lemma silent_client_dropped_witness :
  ∃ s', check_timers_loop (length (events demo_connected)) 3000 demo_connected = Ret (tt, s') ∧
    players s' !! 5 = None.
Proof.
  apply (silent_client_dropped demo_connected 5 demo_player); [apply demo_connected_inv|vm_compute; done..].
Defined.

(** ** Messages of the players *)

(** C35: the first [HELLO] names the player and sets the delay to the number of lower-case
    letters of the name, gives the player the turn, takes the next line of the coefficients
    file as its polynomial, and queues exactly that line (with CRLF) for the player. A bad
    line ends the process; a second [HELLO] changes nothing. *)
Theorem handle_hello_correct s client_fd p player_id :
  inv s → player_of s client_fd p →
  (is_known p = true → handle_hello client_fd player_id s = Ret (false, s)) ∧
  (is_known p = false →
    let line := fst (getline (coeff_file s)) ++ [lf] in
    match createMessage line with
    | None => handle_hello client_fd player_id s = Fail Exit
    | Some m => ∃ coeffs, body m = CoeffMessage coeffs ∧ length coeffs = Z.to_nat (N s + 1) ∧
        handle_hello client_fd player_id s = Ret (true,
          set_player client_fd
            (p <| id := player_id |> <| delay := Z.of_nat (length (List.filter islower player_id)) |>
               <| is_known := true |> <| can_put := true |> <| coefficients := coeffs |>
               <| messages := messages p ++ [line] |>)
            (s <| coeff_file := snd (getline (coeff_file s)) |>))
    end).
Proof.
  intros Hi Hp. split; intros Hk; [by apply (handle_hello_known client_fd p)|]. intros line.
  rewrite (handle_hello_run client_fd p) by done. fold line.
  destruct (createMessage line) as [m|] eqn:Hm; [|done].
  destruct (proj1 (coeff_file_getline _ _ (inv_file s (proj1 Hi))) m Hm) as (coeffs & Hb & Hl).
  exists coeffs. split; [done|]. split; [done|]. rewrite Hb.
  by rewrite (proj1 (createMessage_raw _ _ Hm)).
Qed.
Lemma handle_hello_correct_witness :
  (is_known demo_player = true → handle_hello 5 (lit "Bob") demo_connected = Ret (false, demo_connected)) ∧
  (is_known demo_player = false →
    let line := fst (getline (coeff_file demo_connected)) ++ [lf] in
    match createMessage line with
    | None => handle_hello 5 (lit "Bob") demo_connected = Fail Exit
    | Some m => ∃ coeffs, body m = CoeffMessage coeffs ∧ length coeffs = Z.to_nat (N demo_connected + 1) ∧
        handle_hello 5 (lit "Bob") demo_connected = Ret (true,
          set_player 5
            (demo_player <| id := lit "Bob" |> <| delay := Z.of_nat (length (List.filter islower (lit "Bob"))) |>
               <| is_known := true |> <| can_put := true |> <| coefficients := coeffs |>
               <| messages := messages demo_player ++ [line] |>)
            (demo_connected <| coeff_file := snd (getline (coeff_file demo_connected)) |>))
    end).
Proof. apply (handle_hello_correct demo_connected 5 demo_player); [apply demo_connected_inv|vm_compute; done]. Defined.

(** C18: a [PUT] of a player who has the turn, on a point of [0..K] and with a value within
    [-5, 5] (up to the tolerance), which is not the last of the game: the value is added to
    that point's approximation, the player's and the total counters go up by one, the
    player loses the turn, and the [STATE] line of the new approximations is scheduled
    [delay] seconds later; nothing else changes. *)
Theorem accepted_put_correct s client_fd p point value :
  inv s → stopping s = false → player_of s client_fd p → is_known p = true → printable value →
  can_put p = true → put_out_of_range (K s) point value = false → total_correct_puts s + 1 < M_ s →
  ∃ a, approximations p !! Z.to_nat point = Some a ∧
    let approx := <[Z.to_nat point := dadd a value]> (approximations p) in
    handle_put client_fd point value s = Ret (true,
      s <| players ::= <[client_fd := p <| can_put := false |> <| correct_puts := correct_puts p + 1 |>
                                        <| approximations := approx |>]> |>
        <| total_correct_puts := total_correct_puts s + 1 |>
        <| events ::= ordered_insert EventManager.deadline_lt
             (now s + 1000 * delay p, CbState client_fd (state_line approx) (ip p) (port p) (id p)) |>).
Proof.
  intros Hi Hstop Hp Hk Hv Hc Hin Hm.
  pose proof (inv_numbers s (proj1 Hi) client_fd p Hp) as Hnum.
  destruct (in_range_dabs _ _ _ Hv Hin) as [_ Hpt].
  destruct (lookup_lt_is_Some_2 (approximations p) (Z.to_nat point)) as [a Ha].
  { rewrite (approximations_length _ _ _ Hnum). lia. }
  exists a. split; [done|]. intros approx. rewrite (put_in_range s client_fd p); try done; [|apply Hi|lia].
  rewrite (proj2 (Z.leb_gt _ _)) by lia.
  assert (approximated point value p = approx) as Happ by (unfold approximated; by rewrite Ha).
  rewrite (bind_ret _ _ _ tt (after_good_put client_fd point value p s)) by done.
  unfold mret, M_ret, after_good_put, credited. rewrite Happ, (Z.mul_comm (delay p)). done.
Qed.
Lemma accepted_put_correct_witness :
  ∃ a, approximations demo_bob !! Z.to_nat 4 = Some a ∧
    let approx := <[Z.to_nat 4 := dadd a (double_of_Z (-3))]> (approximations demo_bob) in
    handle_put 5 4 (double_of_Z (-3)) demo_named = Ret (true,
      demo_named <| players ::= <[5 := demo_bob <| can_put := false |> <| correct_puts := correct_puts demo_bob + 1 |>
                                        <| approximations := approx |>]> |>
        <| total_correct_puts := total_correct_puts demo_named + 1 |>
        <| events ::= ordered_insert EventManager.deadline_lt
             (now demo_named + 1000 * delay demo_bob,
              CbState 5 (state_line approx) (ip demo_bob) (port demo_bob) (id demo_bob)) |>).
Proof.
  apply (accepted_put_correct demo_named 5 demo_bob); [apply demo_named_inv|vm_compute; done|
    apply demo_named_player|vm_compute; done| |vm_compute; done..]. by split; vm_compute.
Defined.

(** C19: a [PUT] before the player's turn is answered with a [PENALTY] line at once and 20
    points; a [PUT] out of range costs 10 points and schedules [BAD_PUT] one second later;
    both rules apply to a [PUT] that breaks both. In each case the player waits and no
    approximation or counter changes. *)
Theorem refused_put_correct s client_fd p point value :
  inv s → player_of s client_fd p → is_known p = true → in_s 32 point → printable value →
  can_put p = false ∨ put_out_of_range (K s) point value = true →
  let early := negb (can_put p) in
  let bad := put_out_of_range (K s) point value in
  let p1 := if early then p <| penalty := dadd (penalty p) (double_of_Z 20) |>
                            <| messages := messages p ++ [pair_line (lit "PENALTY") point value] |> else p in
  let p2 := if bad then p1 <| penalty := dadd (penalty p1) (double_of_Z 10) |> else p1 in
  handle_put client_fd point value s = Ret (false,
    s <| players ::= <[client_fd := p2 <| can_put := false |>]> |>
      <| events ::= if bad then ordered_insert EventManager.deadline_lt
           (now s + 1000, CbBadPut client_fd point value (ip p) (port p) (id p)) else λ l, l |>).
Proof.
  intros Hi Hp Hk Hpt Hv Href early bad p1 p2. rewrite (handle_put_refused client_fd p) by done.
  unfold early, bad, p1, p2, schedule, set_player, queue_message, penalise.
  destruct (can_put p), (put_out_of_range (K s) point value); done.
Qed.
Lemma refused_put_correct_witness :
  let early := negb (can_put demo_bob) in
  let bad := put_out_of_range (K demo_named) 9 (double_of_Z 1) in
  let p1 := if early then demo_bob <| penalty := dadd (penalty demo_bob) (double_of_Z 20) |>
      <| messages := messages demo_bob ++ [pair_line (lit "PENALTY") 9 (double_of_Z 1)] |> else demo_bob in
  let p2 := if bad then p1 <| penalty := dadd (penalty p1) (double_of_Z 10) |> else p1 in
  handle_put 5 9 (double_of_Z 1) demo_named = Ret (false,
    demo_named <| players ::= <[5 := p2 <| can_put := false |>]> |>
      <| events ::= if bad then ordered_insert EventManager.deadline_lt
           (now demo_named + 1000, CbBadPut 5 9 (double_of_Z 1) (ip demo_bob) (port demo_bob) (id demo_bob))
         else λ l, l |>).
Proof.
  apply (refused_put_correct demo_named 5 demo_bob); [apply demo_named_inv|apply demo_named_player|
    vm_compute; done|unfold in_s; lia|by split; vm_compute|]. right. by vm_compute.
Defined.

(** C20: the [M]-th correct put ends the game: after the put is counted as usual, every known
    player gets the same [SCORING] line, last in its queue, made of the name and the score
    of every known player, and the server is [stopping]. *)
Theorem last_put_ends_game s client_fd p point value :
  inv s → stopping s = false → player_of s client_fd p → is_known p = true → printable value →
  can_put p = true → put_out_of_range (K s) point value = false → M_ s ≤ total_correct_puts s + 1 →
  let s1 := after_good_put client_fd point value p s in
  ∃ scores,
    Forall2 (λ fp score, calculate_score (K s) (N s) (snd fp) = Ret score) (known_players s1) scores ∧
    let line := scoring_line (map (λ fp, id (snd fp)) (known_players s1)) scores in
    handle_put client_fd point value s = Ret (true,
      s1 <| players := map_imap (λ _ q, Some (if is_known q then q <| messages := messages q ++ [line] |> else q))
                         (players s1) |>
         <| stopping := true |>).
Proof.
  intros [Hi Ht] Hstop Hp Hk Hv Hc Hin Hm s1. unfold total_ok in Ht. rewrite Hstop in Ht.
  assert (inv_core s1) as Hi1 by (apply after_good_put_inv; by auto with lia).
  assert (total_correct_puts s1 ≤ M_ s1) as Ht1 by (unfold s1; simpl; lia).
  pose proof (inv_K s1 Hi1). pose proof (inv_N s1 Hi1). unfold constants.max_k, constants.max_n in *.
  destruct (game_over_ret s1) as (scores & H2 & _ & Hrun); [lia|lia| |eauto using scorable_ok|].
  { exists client_fd, (credited point value p). split; [apply player_of_set|done]. }
  exists scores. split; [exact H2|]. cbv zeta. rewrite (put_in_range s client_fd p) by (auto with lia).
  rewrite (proj2 (Z.leb_le _ _)) by lia. rewrite (bind_ret _ _ _ _ _ Hrun). done.
Qed.

Definition demo_last : Server := demo_named <| M_ := 1 |>.
Lemma demo_last_inv : inv demo_last.
Proof.
  destruct demo_named_inv as [[] _]. split; [|vm_compute; done].
  by constructor.
Qed.
Lemma last_put_ends_game_witness :
  let s1 := after_good_put 5 2 (double_of_Z 1) demo_bob demo_last in
  ∃ scores,
    Forall2 (λ fp score, calculate_score (K demo_last) (N demo_last) (snd fp) = Ret score) (known_players s1) scores ∧
    let line := scoring_line (map (λ fp, id (snd fp)) (known_players s1)) scores in
    handle_put 5 2 (double_of_Z 1) demo_last = Ret (true,
      s1 <| players := map_imap (λ _ q, Some (if is_known q then q <| messages := messages q ++ [line] |> else q))
                         (players s1) |>
         <| stopping := true |>).
Proof.
  apply (last_put_ends_game demo_last 5 demo_bob); [apply demo_last_inv|vm_compute; done|
    apply demo_named_player|vm_compute; done| |vm_compute; done..]. by split; vm_compute.
Defined.

(** C38: the score of a player of a running or finished game is computed without reading out
    of a vector and is a finite number, whatever was put. *)
Theorem scores_are_finite s client_fd p :
  inv s → player_of s client_fd p → is_known p = true →
  ∃ score, calculate_score (K s) (N s) p = Ret score ∧ is_finite score = true.
Proof.
  intros [Hi Ht] Hp Hk. pose proof (inv_K s Hi). pose proof (inv_N s Hi).
  unfold constants.max_k, constants.max_n in *.
  assert (total_correct_puts s ≤ M_ s) as Htot by (unfold total_ok in Ht; destruct (stopping s); lia).
  destruct (scorable_ok s client_fd p Hi Hp Htot Hk) as (_ & Hc & Hlc & Ha & Hla & Hpen).
  destruct (calculate_score_ret (K s) (N s) p) as (r & Hr & _ & Hf); [lia|lia|done..|]. by exists r.
Qed.
Lemma scores_are_finite_witness :
  ∃ score, calculate_score (K demo_named) (N demo_named) demo_bob = Ret score ∧ is_finite score = true.
Proof. apply (scores_are_finite demo_named 5); [apply demo_named_inv|apply demo_named_player|by vm_compute]. Defined.

(** ** Bytes in and out *)

(** What reading does with the complete lines of a buffer, one after the other. *)
Fixpoint deliver_lines (client_fd i : Z) (lines : list str) (rest : str) : SM (bool * Z) :=
  match lines with
  | [] => mret (false, i)
  | l :: ls =>
      _ ← modify (set_buffer client_fd (unframe ls rest));
      _ ← deliver_line client_fd l;
      p ← getPlayerInfo client_fd;
      if negb (is_known p) then i' ← disconnect_client client_fd i; mret (true, i')
      else
        stop ← is_stopping;
        if (stop : bool) then mret (false, i) else deliver_lines client_fd i ls rest
  end.

(** C22: the loop that reads from a client hands over exactly the lines of its buffer that end
    in CRLF, in order, without the CRLF, until the client is dropped or the game ends, and
    leaves the bytes after the last line it took in the buffer. How the bytes were cut into
    [recv] results does not matter ([all_frames_app]). *)
Theorem read_loop_delivers_lines s client_fd i pf p :
  inv s → stopping s = false → socket_of s i client_fd pf → player_of s client_fd p →
  let buf := client_buffer s client_fd in
  read_loop (length buf) client_fd i s =
    deliver_lines client_fd i (fst (all_frames buf)) (snd (all_frames buf)) s.
Proof.
  intros Hi Hstop Hs Hp buf.
  enough (∀ fuel s p, inv s → stopping s = false → socket_of s i client_fd pf → player_of s client_fd p →
    (length (client_buffer s client_fd) ≤ fuel)%nat →
    read_loop fuel client_fd i s =
      deliver_lines client_fd i (fst (all_frames (client_buffer s client_fd)))
        (snd (all_frames (client_buffer s client_fd))) s) as H by (by eapply H).
  clear. induction fuel as [|fuel IH]; intros s p Hi Hstop Hs Hp Hlen;
    cbn [read_loop]; run_step; rewrite all_frames_unfold;
    (destruct (find_str crlf (client_buffer s client_fd)) as [pos|] eqn:Hfind; [|done]).
  { apply find_str_length in Hfind. simpl in Hfind. lia. }
  set (buf := client_buffer s client_fd) in *.
  pose proof (unframe_all_frames (drop (pos + 2) buf)) as Hun. set (rest := drop (pos + 2) buf) in *.
  rewrite (bind_ret (lift_outcome _) _ _ (take pos buf) s).
  2:{ unfold lift_outcome, substr. by rewrite (proj2 (Nat.ltb_ge _ _)) by (simpl; lia). }
  change (length crlf) with 2%nat. fold rest. set (s1 := set_buffer client_fd rest s).
  rewrite (bind_ret (modify _) _ s tt s1) by done.
  assert (∀ ls r, all_frames rest = (ls, r) →
    deliver_lines client_fd i (take pos buf :: ls) r s =
      (_ ← deliver_line client_fd (take pos buf); p ← getPlayerInfo client_fd;
       if negb (is_known p) then i' ← disconnect_client client_fd i; mret (true, i')
       else stop ← is_stopping; if (stop : bool) then mret (false, i) else deliver_lines client_fd i ls r) s1) as Hd.
  { intros ls r Hlr. cbn [deliver_lines]. rewrite Hlr in Hun. simpl in Hun. rewrite Hun.
    by rewrite (bind_ret (modify _) _ s tt s1) by done. }
  destruct (all_frames rest) as [ls r] eqn:Hlr. cbn [fst snd]. rewrite (Hd ls r eq_refl).
  pose proof (deliver_line_wp client_fd (take pos buf) s1 p (set_buffer_inv _ _ _ Hi) Hstop Hp) as Hw.
  unfold mbind, M_bind, wp in *. destruct (deliver_line client_fd (take pos buf) s1) as [[[] s2]|f]; [|done].
  destruct Hw as [Hi2 Hst]. destruct (step_players _ _ Hst client_fd p Hp) as (p2 & ms & Hp2 & _ & _).
  unfold getPlayerInfo. rewrite (players_at_ret _ _ _ Hp2).
  destruct (is_known p2); cbn [negb]; [|done].
  unfold is_stopping, mbind, M_bind, get_state, mret, M_ret. destruct (stopping s2) eqn:Hs2; [done|].
  assert (client_buffer s2 client_fd = rest) as Hb2.
  { unfold client_buffer. rewrite (step_buffers _ _ Hst). apply client_buffer_set. }
  rewrite (IH s2 p2 Hi2 Hs2); [by rewrite Hb2, Hlr| |done|].
  - by apply (socket_of_step s s2); [rewrite (step_poll_fds _ _ Hst)|].
  - rewrite Hb2. unfold rest. rewrite length_drop. pose proof (find_str_length _ _ _ Hfind) as Hl.
    simpl in Hl. lia.
Qed.
Definition demo_buffered : Server :=
  set_buffer 5 (lit "HELLO Ann" ++ crlf ++ lit "PUT 0 1" ++ crlf ++ lit "PU") demo_connected.
Lemma read_loop_delivers_lines_witness :
  let buf := client_buffer demo_buffered 5 in
  read_loop (length buf) 5 1 demo_buffered =
    deliver_lines 5 1 (fst (all_frames buf)) (snd (all_frames buf)) demo_buffered.
Proof.
  eapply (read_loop_delivers_lines demo_buffered 5 1 _ demo_player);
    [apply set_buffer_inv, demo_connected_inv|done| |done].
  constructor; [simpl; lia|reflexivity|reflexivity].
Defined.

(** C21: the bytes sent to a client are the messages queued for it, in order, with none lost,
    repeated or mixed up, however many bytes each [send] accepts: over the loop of one turn,
    for every client that stays, the bytes already sent followed by the bytes still queued
    are only extended at the end; and no client appears. *)
Theorem client_loop_lossless recv send s s' :
  (∀ n client_fd msg, send n client_fd msg ≤ Z.of_nat (length msg)) →
  inv s → stopping s = false →
  client_loop recv send (length (poll_fds s)) 1 s = Ret (tt, s') →
  (∀ f, is_Some (players s' !! f) → is_Some (players s !! f)) ∧
  ∀ f p, player_of s f p → is_Some (players s' !! f) →
    ∃ p' new, player_of s' f p' ∧
      sent_to f (trace s') ++ concat (messages p') = sent_to f (trace s) ++ concat (messages p) ++ new.
Proof.
  intros Hsend Hi Hstop Hrun. destruct (inv_sockets s (proj1 Hi)) as [_ _ Hne _].
  assert (1 ≤ Z.of_nat (length (poll_fds s))) as Hlen by (destruct (poll_fds s); [done|simpl; lia]).
  pose proof (client_loop_wp recv send Hsend True True (λ _ _ _ _, I) True (length (poll_fds s)) 1 s Hi Hstop ltac:(lia) ltac:(lia)
    (or_introl I)) as H.
  destruct (wp_elim _ _ _ _ _ _ H Hrun) as [_ [Hk _]]. split; [apply (keeps_no_new _ _ Hk)|].
  intros f p Hp Hs. destruct (keeps_said _ _ Hk f p Hp Hs) as (p' & new & Hp' & _ & Hsaid).
  exists p', new. split; [done|]. unfold said in Hsaid. by rewrite Hsaid, (assoc app).
Qed.
Definition demo_writable : Server :=
  demo_named <| poll_fds ::= <[1%nat := {| fd := 5; pevents := POLLOUT; revents := POLLOUT |}]> |>.
Definition demo_written : Server :=
  match client_loop (λ _ _, None) (λ _ _ m, Z.min 4 (Z.of_nat (length m))) 2 1 demo_writable with Ret (_, s) => s | Fail _ => demo_start end.
Lemma demo_writable_inv : inv demo_writable.
Proof.
  destruct demo_named_inv as [Hi Ht]. split; [|exact Ht].
  by eapply inv_core_frame; [..|exact Hi]; vm_compute.
Qed.
Lemma client_loop_lossless_witness :
  (∀ f, is_Some (players demo_written !! f) → is_Some (players demo_writable !! f)) ∧
  ∀ f p, player_of demo_writable f p → is_Some (players demo_written !! f) →
    ∃ p' new, player_of demo_written f p' ∧
      sent_to f (trace demo_written) ++ concat (messages p') =
        sent_to f (trace demo_writable) ++ concat (messages p) ++ new.
Proof.
  apply (client_loop_lossless (λ _ _, None) (λ _ _ m, Z.min 4 (Z.of_nat (length m)))).
  - intros. lia.
  - apply demo_writable_inv.
  - vm_compute. done.
  - vm_compute. reflexivity.
Defined.
