(* ===== verification/Err.v ===== *)
(** * Reporting errors ([err.c] of peer-time-sync, [err.cpp] of the-great-approximator)

    The text that each function writes to [stderr], and what [fatal] and [syserr] leave of the
    process. [vfprintf] covers the conversions of the formats in the two projects; a conversion
    without its argument is undefined ([None]). [strerror] is a parameter. The results of the
    calls on [stderr] are ignored by the code. *)
From Stdlib Require Import Ascii String.
From S2P Require Import Prelude CString.

(** ** [vfprintf] *)
Inductive PrintfArg := AStr (s : str) | AInt (z : Z).

Definition hex_digit (d : Z) : ascii := if d <? 10 then chr (48 + d) else chr (87 + d).
(** The digits of an [unsigned int], the last one first; 8 are enough. *)
Fixpoint hex_rev (fuel : nat) (z : Z) : str :=
  match fuel with
  | O => []
  | S fuel' => hex_digit (z mod 16) :: (if z <? 16 then [] else hex_rev fuel' (z / 16))
  end.
Definition hex (z : Z) : str := rev (hex_rev 8 (wrap 32 z)).
Definition pad2 (s : str) : str := replicate (2 - length s) (chr 48) ++ s.

(** The conversion that a format starts with after its percent sign: what it prints, the rest
    of the format and of the arguments. *)
Definition conversion (fmt : str) (args : list PrintfArg) : option (str * str * list PrintfArg) :=
  match fmt with
  | "%"%char :: f => Some (lit "%", f, args)
  | "s"%char :: f => match args with AStr s :: a => Some (s, f, a) | _ => None end
  | "d"%char :: f => match args with AInt z :: a => Some (to_string (swrap 32 z), f, a) | _ => None end
  | "u"%char :: f => match args with AInt z :: a => Some (to_string (wrap 32 z), f, a) | _ => None end
  | "c"%char :: f => match args with AInt z :: a => Some ([chr (wrap 8 z)], f, a) | _ => None end
  | "x"%char :: f => match args with AInt z :: a => Some (hex z, f, a) | _ => None end
  | "0"%char :: "2"%char :: "x"%char :: f => match args with AInt z :: a => Some (pad2 (hex z), f, a) | _ => None end
  | _ => None
  end.
(** Every turn consumes a character of the format: its length is fuel enough. *)
Fixpoint vfprintf_loop (fuel : nat) (fmt : str) (args : list PrintfArg) : option str :=
  match fuel, fmt with
  | _, [] => Some []
  | O, _ => None
  | S fuel', c :: f =>
      if bool_decide (c = "%"%char) then
        '(s, f', args') ← conversion f args; app s <$> vfprintf_loop fuel' f' args'
      else cons c <$> vfprintf_loop fuel' f args
  end.
Definition vfprintf (fmt : str) (args : list PrintfArg) : option str := vfprintf_loop (length fmt) fmt args.

Class Libc := strerror : Z → str.

(** [ (%d; %s)] with [errno] and its description. *)
Definition errno_text `{Libc} (org_errno : Z) : str :=
  lit " (" ++ to_string org_errno ++ lit "; " ++ strerror org_errno ++ lit ")".

(** ** [err.c] *)
Module NodeErr.
Section text.
Context `{Libc}.
Definition syserr_text (org_errno : Z) (fmt : str) (args : list PrintfArg) : option str :=
  t ← vfprintf fmt args; Some (lit "ERROR " ++ t ++ errno_text org_errno ++ [lf]).
Definition fatal_text (fmt : str) (args : list PrintfArg) : option str :=
  t ← vfprintf fmt args; Some (lit "ERROR " ++ t ++ [lf]).
Definition error_text (org_errno : Z) (fmt : str) (args : list PrintfArg) : option str :=
  t ← vfprintf fmt args;
  Some (lit "ERROR " ++ t ++ (if org_errno =? 0 then [] else errno_text org_errno) ++ [lf]).
End text.

(** The loop over the bytes that are printed. *)
Fixpoint hex_bytes (msg : list Z) : str :=
  match msg with [] => [] | b :: msg' => pad2 (hex b) ++ hex_bytes msg' end.
(** [None] is [NULL]; otherwise the buffer has [msg_len] bytes at least. *)
Definition error_msg_hex_text (msg_buffer : option (list Z)) (msg_len : Z) : str :=
  match msg_buffer with
  | None => lit "ERROR MSG " ++ [lf]
  | Some msg =>
      let bytes_to_print := if 10 <? msg_len then 10 else msg_len in
      lit "ERROR MSG " ++ hex_bytes (take (Z.to_nat bytes_to_print) msg) ++ [lf]
  end.

(** What [cleanup] reaches: the descriptors that are open and the blocks on the heap, by
    address; [registered] is [node_data_to_cleanup] with the two fields it reads. *)
Record Process := { fds : list Z; heap : list Z; registered : option (Z * option Z); written : str }.
#[export] Instance eta_Process : Eta Process := λ p,
  {| fds := fds p; heap := heap p; registered := registered p; written := written p |}.

Definition register_node_data (p : Process) : Process := p <| registered := Some (-1, None) |>.
Definition cleanup (p : Process) : Process :=
  match registered p with
  | None => p
  | Some (sock_fd, my_addresses) =>
      let p := if 0 <=? sock_fd then p <| fds ::= filter (.≠ sock_fd) |> else p in
      match my_addresses with Some a => p <| heap ::= filter (.≠ a) |> | None => p end
  end.
(** The state in which the process exits, and its status. *)
Definition exit_with (text : option str) (p : Process) : option (Process * Z) :=
  t ← text; Some (cleanup (p <| written ::= λ w, w ++ t |>), 1).
Definition syserr `{Libc} (org_errno : Z) (fmt : str) (args : list PrintfArg) (p : Process) : option (Process * Z) :=
  exit_with (syserr_text org_errno fmt args) p.
Definition fatal (fmt : str) (args : list PrintfArg) (p : Process) : option (Process * Z) :=
  exit_with (fatal_text fmt args) p.
End NodeErr.

(** ** [err.cpp] *)
Module ApproxErr.
Section text.
Context `{Libc}.
Definition syserr_text (org_errno : Z) (fmt : str) (args : list PrintfArg) : option str :=
  t ← vfprintf fmt args; Some (lit "ERROR: " ++ t ++ errno_text org_errno ++ [lf]).
Definition fatal_text (fmt : str) (args : list PrintfArg) : option str :=
  t ← vfprintf fmt args; Some (lit "ERROR: " ++ t ++ [lf]).
(** [error] returns with [errno] cleared. *)
Definition error (org_errno : Z) (fmt : str) (args : list PrintfArg) : option (str * Z) :=
  t ← vfprintf fmt args;
  Some (lit "ERROR: " ++ t ++ (if org_errno =? 0 then [] else errno_text org_errno ++ [lf]) ++ [lf], 0).
End text.

(** [HAS_CLOSE_RANGE] is decided by the version of glibc. *)
Definition cleanup (has_close_range : bool) (fds : list Z) : list Z :=
  if has_close_range then filter (λ fd, fd < 3) fds else fds.
Definition fatal (has_close_range : bool) (fmt : str) (args : list PrintfArg) (fds : list Z) : option (str * list Z * Z) :=
  t ← fatal_text fmt args; Some (t, cleanup has_close_range fds, 1).
Definition syserr `{Libc} (has_close_range : bool) (org_errno : Z) (fmt : str) (args : list PrintfArg) (fds : list Z) :
    option (str * list Z * Z) :=
  t ← syserr_text org_errno fmt args; Some (t, cleanup has_close_range fds, 1).
End ApproxErr.

(** ** What is printed *)
Example vfprintf_test :
  vfprintf (lit "%s is %d, %u of 100%% (0x%x %c %02x)") [AStr (lit "n"); AInt (-7); AInt 255; AInt 255; AInt 65; AInt 10] =
  Some (lit "n is -7, 255 of 100% (0xff A 0a)").
Proof. vm_compute. reflexivity. Qed.

(** ** The line for a bad message *)
Definition is_msg_line (line : str) : bool := is_prefix (lit "ERROR MSG ") line.
Definition msg_line (msg : list Z) : str := NodeErr.error_msg_hex_text (Some msg) (Z.of_nat (length msg)).

Definition hex_value (c : ascii) : Z := if code c <? 58 then code c - 48 else code c - 87.
Fixpoint read_hex (s : str) : list Z :=
  match s with
  | c1 :: c2 :: s' => 16 * hex_value c1 + hex_value c2 :: read_hex s'
  | _ => []
  end.

Lemma code_hex_digit d : 0 ≤ d < 16 → code (hex_digit d) = if d <? 10 then 48 + d else 87 + d.
Proof. intros. unfold hex_digit. destruct (_ <? _); apply code_chr; lia. Qed.
Lemma hex_value_digit d : 0 ≤ d < 16 → hex_value (hex_digit d) = d.
Proof.
  intros. unfold hex_value. rewrite code_hex_digit by done.
  destruct (Z.ltb_spec d 10) as [Hd|Hd]; [rewrite (proj2 (Z.ltb_lt _ _))|rewrite (proj2 (Z.ltb_ge _ _))]; lia.
Qed.

Lemma pad2_hex b : 0 ≤ b < 256 → pad2 (hex b) = [hex_digit (b / 16); hex_digit (b mod 16)].
Proof.
  intros Hb. unfold hex. rewrite wrap_small by (unfold in_u; lia). cbn [hex_rev].
  destruct (Z.ltb_spec b 16) as [Hs|Hs].
  - rewrite (Z.div_small b 16), (Z.mod_small b 16) by lia. reflexivity.
  - assert (0 ≤ b / 16 < 16) as Hd by (Z.to_euclidean_division_equations; lia).
    rewrite (proj2 (Z.ltb_lt (b / 16) 16)), (Z.mod_small (b / 16)) by lia. reflexivity.
Qed.

Lemma read_hex_bytes msg tail : Forall (λ b, 0 ≤ b < 256) msg → read_hex (NodeErr.hex_bytes msg ++ tail) = msg ++ read_hex tail.
Proof.
  induction 1 as [|b msg Hb _ IH]; [done|]. cbn [NodeErr.hex_bytes]. rewrite pad2_hex by done. simpl.
  rewrite IH, !hex_value_digit by (Z.to_euclidean_division_equations; lia). f_equal.
  pose proof (Z.div_mod b 16). lia.
Qed.

(** The line shows the first ten bytes of the message: they can be read back from it. *)
Theorem msg_line_reads_back msg :
  Forall (λ b, 0 ≤ b < 256) msg → is_msg_line (msg_line msg) = true ∧ read_hex (drop 10 (msg_line msg)) = take 10 msg.
Proof.
  intros Hmsg. split; [done|]. unfold msg_line, NodeErr.error_msg_hex_text.
  set (n := if _ <? _ then _ else _). assert (take (Z.to_nat n) msg = take 10 msg) as ->.
  { unfold n. destruct (Z.ltb_spec 10 (Z.of_nat (length msg))); [done|]. rewrite Nat2Z.id, !take_ge by lia. done. }
  change (drop 10 _) with (NodeErr.hex_bytes (take 10 msg) ++ [lf]).
  rewrite read_hex_bytes by by apply Forall_take. simpl. by rewrite app_nil_r.
Qed.

(** ** Formats without conversions *)
Lemma vfprintf_loop_plain fuel fmt args :
  (length fmt ≤ fuel)%nat → "%"%char ∉ fmt → vfprintf_loop fuel fmt args = Some fmt.
Proof.
  revert fmt. induction fuel as [|fuel IH]; intros [|c fmt] Hlen Hno; try done; [simpl in Hlen; lia|].
  cbn [vfprintf_loop]. apply not_elem_of_cons in Hno as [Hc Hno]. rewrite bool_decide_false by done.
  rewrite IH; [done|simpl in Hlen; lia|done].
Qed.
Lemma vfprintf_plain fmt args : "%"%char ∉ fmt → vfprintf fmt args = Some fmt.
Proof. by apply vfprintf_loop_plain. Qed.

(** ** Ends of the process *)

(** [fatal] closes the socket and frees the array that were recorded in the registered data. *)
Theorem node_fatal_cleans_up fmt args p p' status sock_fd my_addresses :
  NodeErr.fatal fmt args p = Some (p', status) → NodeErr.registered p = Some (sock_fd, Some my_addresses) →
  0 ≤ sock_fd → status = 1 ∧ (sock_fd ∉ NodeErr.fds p') ∧ (my_addresses ∉ NodeErr.heap p') ∧
  ∃ t, NodeErr.written p' = NodeErr.written p ++ lit "ERROR " ++ t ++ [lf].
Proof.
  unfold NodeErr.fatal, NodeErr.exit_with, NodeErr.fatal_text. intros Hrun Hreg Hfd.
  destruct (vfprintf fmt args) as [t|]; [|done]. injection Hrun as <- <-. split; [done|].
  unfold NodeErr.cleanup. simpl. rewrite Hreg, (proj2 (Z.leb_le _ _) Hfd). simpl.
  rewrite !list_elem_of_filter. split; [tauto|]. split; [tauto|]. by exists t.
Qed.

(** [main] opens its socket before [initialize_node_data] records it: an error in between, of
    [bind_socket] for example, leaves it open. *)
Theorem node_fatal_before_initialization fmt args p p' status :
  NodeErr.fatal fmt args (NodeErr.register_node_data p) = Some (p', status) → NodeErr.fds p' = NodeErr.fds p.
Proof.
  unfold NodeErr.fatal, NodeErr.exit_with. destruct (NodeErr.fatal_text fmt args); [|done]. by intros [= <- <-].
Qed.

(** The programs of the-great-approximator close everything but the three standard streams. *)
Theorem approx_fatal_closes fmt args fds t fds' status :
  ApproxErr.fatal true fmt args fds = Some (t, fds', status) → status = 1 ∧ Forall (λ fd, fd < 3) fds'.
Proof.
  unfold ApproxErr.fatal. destruct (ApproxErr.fatal_text fmt args); [|done]. intros [= <- <- <-].
  split; [done|]. apply Forall_forall. by intros fd [? _]%list_elem_of_filter.
Qed.
