(* ===== verification/Wire.v ===== *)
(** * Byte order and addresses of peer-time-sync ([messages.c], [networking.c])

    Memory is a list of bytes ([Z] from 0 to 255). [Host] is the byte order of the machine:
    everything below is shown for both. *)
From S2P Require Import Prelude.

Class Host := big_endian : bool.

(** Families of addresses. *)
Definition AF_UNSPEC : Z := 0.
Definition AF_INET : Z := 2.
Definition AF_INET6 : Z := 10.

Definition byte_ok (b : Z) : Prop := 0 ≤ b < 256.

Fixpoint le_bytes (n : nat) (x : Z) : list Z :=
  match n with O => [] | S n' => x mod 256 :: le_bytes n' (x / 256) end.
Fixpoint le_value (l : list Z) : Z :=
  match l with [] => 0 | b :: l' => b + 256 * le_value l' end.
Definition be_bytes (n : nat) (x : Z) : list Z := rev (le_bytes n x).
Definition be_value (l : list Z) : Z := le_value (rev l).

Lemma length_le_bytes n x : length (le_bytes n x) = n.
Proof. revert x. induction n as [|n IH]; intros x; simpl; [done|]. by rewrite IH. Qed.
Lemma length_be_bytes n x : length (be_bytes n x) = n.
Proof. unfold be_bytes. by rewrite length_rev, length_le_bytes. Qed.

Lemma le_bytes_ok n x : Forall byte_ok (le_bytes n x).
Proof.
  revert x. induction n as [|n IH]; intros x; simpl; constructor; [|done].
  unfold byte_ok. by apply Z.mod_pos_bound.
Qed.
Lemma be_bytes_ok n x : Forall byte_ok (be_bytes n x).
Proof. unfold be_bytes. apply Forall_rev, le_bytes_ok. Qed.

Lemma le_value_bytes n x : 0 ≤ x < 256 ^ Z.of_nat n → le_value (le_bytes n x) = x.
Proof.
  revert x. induction n as [|n IH]; intros x Hx; cbn [le_bytes le_value]; [change (256 ^ Z.of_nat 0) with 1 in Hx; lia|].
  rewrite Nat2Z.inj_succ, Z.pow_succ_r in Hx by lia.
  rewrite IH; [pose proof (Z.div_mod x 256 ltac:(done)); lia|].
  split; [by apply Z.div_pos; lia|]. by apply Z.div_lt_upper_bound; lia.
Qed.

Lemma le_bytes_value l : Forall byte_ok l → le_bytes (length l) (le_value l) = l.
Proof.
  induction 1 as [|b l Hb Hl IH]; simpl; [done|]. unfold byte_ok in Hb.
  rewrite (Z.mul_comm 256), Z.mod_add, Z.mod_small by lia.
  rewrite Z.div_add, Z.div_small by lia. by rewrite Z.add_0_l, IH.
Qed.

Lemma le_value_range l : Forall byte_ok l → 0 ≤ le_value l < 256 ^ Z.of_nat (length l).
Proof.
  induction 1 as [|b l Hb Hl IH]; cbn [le_value length]; [done|]. unfold byte_ok in Hb.
  rewrite Nat2Z.inj_succ, Z.pow_succ_r by lia. lia.
Qed.

Lemma le_value_app a b : le_value (a ++ b) = le_value a + 256 ^ Z.of_nat (length a) * le_value b.
Proof.
  induction a as [|c a IH]; cbn [le_value app length]; [change (256 ^ Z.of_nat 0) with 1; lia|].
  rewrite IH, Nat2Z.inj_succ, Z.pow_succ_r by lia. ring.
Qed.

Lemma be_value_bytes n x : 0 ≤ x < 256 ^ Z.of_nat n → be_value (be_bytes n x) = x.
Proof. intros. unfold be_value, be_bytes. rewrite rev_involutive. by apply le_value_bytes. Qed.

Lemma be_bytes_value l : Forall byte_ok l → be_bytes (length l) (be_value l) = l.
Proof.
  intros Hl. unfold be_value, be_bytes. rewrite <-(length_rev l), le_bytes_value by (by apply Forall_rev).
  apply rev_involutive.
Qed.

Lemma be_value_range l : Forall byte_ok l → 0 ≤ be_value l < 256 ^ Z.of_nat (length l).
Proof. intros. unfold be_value. rewrite <-length_rev. by apply le_value_range, Forall_rev. Qed.

Lemma le_bytes_app n m x : 0 ≤ x → le_bytes (n + m) x = le_bytes n x ++ le_bytes m (x / 256 ^ Z.of_nat n).
Proof.
  revert x. induction n as [|n IH]; intros x Hx; cbn [le_bytes app Nat.add].
  { change (256 ^ Z.of_nat 0) with 1. by rewrite Z.div_1_r. }
  rewrite IH by (by apply Z.div_pos). rewrite Nat2Z.inj_succ, Z.pow_succ_r, Z.div_div by lia. done.
Qed.

Lemma le_bytes_mod n x : 0 ≤ x → le_bytes n (x mod 256 ^ Z.of_nat n) = le_bytes n x.
Proof.
  revert x. induction n as [|n IH]; intros x Hx; [done|]. cbn [le_bytes].
  rewrite Nat2Z.inj_succ, Z.pow_succ_r by lia.
  assert (0 < 256 ^ Z.of_nat n) by (apply Z.pow_pos_nonneg; lia).
  rewrite Z.rem_mul_r by lia. rewrite (Z.mul_comm 256), Z.mod_add, Z.mod_mod by lia.
  rewrite Z.div_add, Z.div_small, Z.add_0_l by (lia || by apply Z.mod_pos_bound).
  by rewrite IH by (by apply Z.div_pos).
Qed.

(** Splitting a 64-bit integer in halves. *)
Lemma le_bytes_halves hi lo :
  0 ≤ lo < 2 ^ 32 → 0 ≤ hi → le_bytes 8 (hi * 2 ^ 32 + lo) = le_bytes 4 lo ++ le_bytes 4 hi.
Proof.
  intros Hlo Hhi. rewrite (le_bytes_app 4 4) by lia. change (256 ^ Z.of_nat 4) with (2 ^ 32).
  f_equal.
  - rewrite <-(le_bytes_mod 4) by lia. change (256 ^ Z.of_nat 4) with (2 ^ 32).
    by rewrite Z.add_comm, Z.mod_add, Z.mod_small by lia.
  - by rewrite Z.div_add_l, Z.div_small, Z.add_0_r by lia.
Qed.

Lemma be_bytes_halves x :
  0 ≤ x < 2 ^ 64 → be_bytes 8 x = be_bytes 4 (x / 2 ^ 32) ++ be_bytes 4 (x mod 2 ^ 32).
Proof.
  intros Hx. unfold be_bytes. rewrite (Z.div_mod x (2 ^ 32)) at 1 by done.
  rewrite (Z.mul_comm (2 ^ 32)), le_bytes_halves, rev_app_distr; [done|by apply Z.mod_pos_bound|by apply Z.div_pos; lia].
Qed.

Section host.
Context `{Host}.

(** The memory of an unsigned integer of [n] bytes ([memcpy] from it), and the integer in
    [n] bytes of memory ([memcpy] to it). *)
Definition store (n : nat) (x : Z) : list Z := if big_endian then be_bytes n x else le_bytes n x.
Definition load (l : list Z) : Z := if big_endian then be_value l else le_value l.

(** [htonl] and the like give the integer whose memory is the big-endian encoding. *)
Definition hton (n : nat) (x : Z) : Z := load (be_bytes n x).
Definition ntoh (n : nat) (x : Z) : Z := be_value (store n x).
Definition htons := hton 2.
Definition ntohs := ntoh 2.
Definition htonl := hton 4.
Definition ntohl := ntoh 4.

(** The macros [htonll] and [ntohll], as selected by [__BYTE_ORDER__]. *)
Definition htonll (x : Z) : Z :=
  if big_endian then x
  else Z.lor (Z.shiftl (htonl (Z.land x 0xFFFFFFFF)) 32) (htonl (Z.shiftr x 32)).
Definition ntohll (x : Z) : Z :=
  if big_endian then x
  else Z.lor (Z.shiftl (ntohl (Z.land x 0xFFFFFFFF)) 32) (ntohl (Z.shiftr x 32)).

Lemma length_store n x : length (store n x) = n.
Proof. unfold store. destruct big_endian; [apply length_be_bytes|apply length_le_bytes]. Qed.
Lemma store_ok n x : Forall byte_ok (store n x).
Proof. unfold store. destruct big_endian; [apply be_bytes_ok|apply le_bytes_ok]. Qed.
Lemma store_load l : Forall byte_ok l → store (length l) (load l) = l.
Proof. unfold store, load. destruct big_endian; [apply be_bytes_value|apply le_bytes_value]. Qed.
Lemma load_store n x : 0 ≤ x < 256 ^ Z.of_nat n → load (store n x) = x.
Proof. unfold store, load. destruct big_endian; [apply be_value_bytes|apply le_value_bytes]. Qed.
Lemma load_range l : Forall byte_ok l → 0 ≤ load l < 256 ^ Z.of_nat (length l).
Proof. unfold load. destruct big_endian; [apply be_value_range|apply le_value_range]. Qed.

Lemma store_hton n x : store n (hton n x) = be_bytes n x.
Proof.
  pose proof (store_load (be_bytes n x) (be_bytes_ok n x)) as Hs. by rewrite length_be_bytes in Hs.
Qed.
Lemma hton_range n x : 0 ≤ hton n x < 256 ^ Z.of_nat n.
Proof. pose proof (load_range (be_bytes n x) (be_bytes_ok n x)) as Hr. by rewrite length_be_bytes in Hr. Qed.
Lemma ntoh_hton n x : 0 ≤ x < 256 ^ Z.of_nat n → ntoh n (hton n x) = x.
Proof. intros. unfold ntoh. rewrite store_hton. by apply be_value_bytes. Qed.
Lemma hton_ntoh n x : 0 ≤ x < 256 ^ Z.of_nat n → hton n (ntoh n x) = x.
Proof.
  intros Hx. unfold hton, ntoh. pose proof (be_bytes_value (store n x) (store_ok n x)) as Hb.
  rewrite length_store in Hb. rewrite Hb. by apply load_store.
Qed.
Lemma ntoh_load l : Forall byte_ok l → ntoh (length l) (load l) = be_value l.
Proof. intros. unfold ntoh. by rewrite store_load. Qed.

Lemma lor_halves a b : 0 ≤ b < 2 ^ 32 → Z.lor (Z.shiftl a 32) b = a * 2 ^ 32 + b.
Proof.
  intros Hb. rewrite Z.shiftl_mul_pow2 by done. rewrite <-Z.add_lor_land.
  enough (Z.land (a * 2 ^ 32) b = 0) as -> by lia.
  apply Z.bits_inj'. intros n Hn. rewrite Z.land_spec, Z.bits_0.
  destruct (Z.lt_ge_cases n 32) as [Hlt|Hge].
  - by rewrite Z.mul_pow2_bits_low.
  - rewrite (Z.bits_above_log2 b n), andb_false_r; [done|lia|].
    destruct (Z.eq_dec b 0) as [->|]; [simpl; lia|]. apply Z.log2_lt_pow2; [lia|].
    eapply Z.lt_le_trans; [apply Hb|]. apply Z.pow_le_mono_r; lia.
Qed.

(** The macros agree with the functions for shorter integers. *)
Lemma htonll_hton x : 0 ≤ x < 2 ^ 64 → htonll x = hton 8 x.
Proof.
  intros Hx. unfold htonll, hton, htonl, load. destruct big_endian eqn:Hb; [by rewrite be_value_bytes|].
  pose proof (hton_range 4 (Z.shiftr x 32)) as Hr. change (256 ^ Z.of_nat 4) with (2 ^ 32) in Hr.
  rewrite lor_halves by done. change 0xFFFFFFFF with (Z.ones 32).
  rewrite Z.land_ones, Z.shiftr_div_pow2 by done. unfold hton, load. rewrite Hb.
  rewrite (be_bytes_halves x Hx).
  rewrite le_value_app, length_be_bytes. change (256 ^ Z.of_nat 4) with (2 ^ 32). lia.
Qed.

Lemma ntohll_ntoh x : 0 ≤ x < 2 ^ 64 → ntohll x = ntoh 8 x.
Proof.
  intros Hx. unfold ntohll, ntoh, ntohl. destruct big_endian eqn:Hb.
  - unfold store. by rewrite Hb, be_value_bytes.
  - assert (0 ≤ ntoh 4 (Z.shiftr x 32) < 2 ^ 32) as Hr.
    { unfold ntoh. pose proof (be_value_range _ (store_ok 4 (Z.shiftr x 32))) as Hr. by rewrite length_store in Hr. }
    rewrite lor_halves by done. change 0xFFFFFFFF with (Z.ones 32).
    rewrite Z.land_ones, Z.shiftr_div_pow2 by done. unfold ntoh, store. rewrite Hb.
    rewrite (Z.div_mod x (2 ^ 32)) at 3 by done. rewrite (Z.mul_comm (2 ^ 32)).
    rewrite le_bytes_halves by (apply Z.mod_pos_bound || apply Z.div_pos; lia).
    unfold be_value. rewrite rev_app_distr.
    rewrite le_value_app, length_rev, length_le_bytes. change (256 ^ Z.of_nat 4) with (2 ^ 32). lia.
Qed.
End host.

(** ** Addresses: [struct sockaddr_in] as the program uses it ([sin_family] is always
    [AF_INET]); both fields in network order, as integers of the host *)
Record sockaddr_in := { s_addr : Z; sin_port : Z }.
#[export] Instance sockaddr_in_eq_dec : EqDecision sockaddr_in.
Proof. solve_decision. Defined.
Definition addr_ok (a : sockaddr_in) : Prop := 0 ≤ s_addr a < 2 ^ 32 ∧ 0 ≤ sin_port a < 2 ^ 16.

Definition equal_addr (a b : sockaddr_in) : bool := (s_addr a =? s_addr b) && (sin_port a =? sin_port b).
Fixpoint address_in_array (address : sockaddr_in) (arr : list sockaddr_in) : bool :=
  match arr with
  | [] => false
  | a :: arr' => if equal_addr address a then true else address_in_array address arr'
  end.

Lemma equal_addr_spec a b : equal_addr a b = true ↔ a = b.
Proof.
  unfold equal_addr. rewrite andb_true_iff, !Z.eqb_eq. destruct a, b. simpl.
  split; [by intros [-> ->]|by intros [= -> ->]].
Qed.
Lemma equal_addr_false a b : equal_addr a b = false ↔ a ≠ b.
Proof. rewrite <-equal_addr_spec. by destruct (equal_addr a b). Qed.
Lemma address_in_array_spec a arr : address_in_array a arr = true ↔ a ∈ arr.
Proof.
  induction arr as [|b arr IH]; simpl; [by split; [|intros ?%not_elem_of_nil]|].
  rewrite elem_of_cons. destruct (equal_addr a b) eqn:Hab.
  - apply equal_addr_spec in Hab. tauto.
  - apply equal_addr_false in Hab. rewrite IH. tauto.
Qed.
Lemma address_in_array_false a arr : address_in_array a arr = false ↔ a ∉ arr.
Proof. rewrite <-address_in_array_spec. by destruct (address_in_array a arr). Qed.

(** ** The macros of [messages.c] *)

(** On a host of either byte order, the 64-bit macros do what [htonl] does for 32 bits:
    the memory of [htonll x] is the big-endian encoding of [x], [ntohll] reads it back, and
    [ntohll] of any eight bytes of memory is the number they encode. *)
Theorem htonll_network_order `{Host} (x : Z) (bytes : list Z) :
  0 ≤ x < 2 ^ 64 → Forall byte_ok bytes → length bytes = 8%nat →
  store 8 (htonll x) = be_bytes 8 x ∧ ntohll (htonll x) = x ∧ ntohll (load bytes) = be_value bytes ∧
  htonll (ntohll x) = x.
Proof.
  intros Hx Hb Hl. rewrite htonll_hton by done. pose proof (hton_range 8 x) as Hh.
  pose proof (load_range bytes Hb) as Hload. rewrite Hl in Hload.
  split; [apply store_hton|]. split; [rewrite ntohll_ntoh by done; by apply ntoh_hton|].
  split; [rewrite ntohll_ntoh by done; rewrite <-Hl; by apply ntoh_load|].
  rewrite ntohll_ntoh by done. rewrite htonll_hton; [by apply hton_ntoh|].
  unfold ntoh. pose proof (be_value_range (store 8 x) (store_ok 8 x)) as Hr. by rewrite length_store in Hr.
Qed.

Lemma htonll_network_order_witness :
  store (H:=false) 8 (htonll (H:=false) 258) = be_bytes 8 258 ∧ ntohll (H:=false) (htonll (H:=false) 258) = 258 ∧
  ntohll (H:=false) (load (H:=false) [0; 0; 0; 0; 0; 0; 1; 2]) = be_value [0; 0; 0; 0; 0; 0; 1; 2] ∧
  htonll (H:=false) (ntohll (H:=false) 258) = 258.
Proof. apply (htonll_network_order (H:=false) 258 [0; 0; 0; 0; 0; 0; 1; 2]); [done| |done]. by repeat constructor. Defined.
