(* ===== verification/Peers.v ===== *)
(** * Peer lists of peer-time-sync ([peers.cpp])

    A [std::set<sockaddr_in, SockaddrInLess>] is the list of its elements in order. An
    iterator is the element it points to, or [None] when it points to none: it is [end()], or
    the element was erased, or the set was assigned. The next element is looked up in the set
    as it is then, as for the nodes of a [std::set]. *)
From S2P Require Import Prelude Wire.

Definition MAX_CAPACITY : Z := 65535.

(** [SockaddrInLess]. *)
Definition sockaddr_in_less (a b : sockaddr_in) : bool :=
  if negb (s_addr a =? s_addr b) then s_addr a <? s_addr b else sin_port a <? sin_port b.

(** The globals of the file and the static variable of [peer_list_create]. *)
Record Peers := {
  peer_lists : list (list sockaddr_in);
  peer_list_iterators : list (option sockaddr_in);
  next_id : nat }.
#[export] Instance eta_Peers : Eta Peers := λ p,
  {| peer_lists := peer_lists p; peer_list_iterators := peer_list_iterators p; next_id := next_id p |}.

Definition is_src_addr (addr : sockaddr_in) (src_addr_arr : list sockaddr_in) : bool :=
  existsb (λ a, (s_addr addr =? s_addr a) && (sin_port addr =? sin_port a)) src_addr_arr.

(** [peer_lists[list_id]]: undefined out of range. *)
Definition get_list (list_id : nat) : M Peers (list sockaddr_in) :=
  s ← get_state; from_opt Undef (peer_lists s !! list_id).
(** [find]: an element is found when neither is less than the other. *)
Definition set_find (peer : sockaddr_in) (l : list sockaddr_in) : bool :=
  existsb (λ a, negb (sockaddr_in_less a peer) && negb (sockaddr_in_less peer a)) l.
(** An insertion or a removal: an iterator to an element that is gone is invalid. *)
Definition still_in (l : list sockaddr_in) (it : option sockaddr_in) : option sockaddr_in :=
  match it with Some a => if set_find a l then Some a else None | None => None end.
Definition set_list (list_id : nat) (l : list sockaddr_in) : M Peers unit :=
  modify (λ s, s <| peer_lists ::= <[list_id := l]> |> <| peer_list_iterators ::= alter (still_in l) list_id |>).

Definition peer_list_create : M Peers nat :=
  s ← get_state;
  _ ← modify (λ s, s <| peer_lists ::= λ l, l ++ [[]] |> <| peer_list_iterators ::= λ l, l ++ [None] |>
                     <| next_id ::= S |>);
  mret (next_id s).

Definition peer_list_count (list_id : nat) : M Peers Z :=
  l ← get_list list_id; mret (wrap 16 (Z.of_nat (length l))).

(** [count] is a [uint16_t]. *)
Fixpoint count_loop (l : list sockaddr_in) (src_addr_arr : list sockaddr_in) (dest_addr : sockaddr_in) (count : Z) : Z :=
  match l with
  | [] => count
  | peer_addr :: l' =>
      if is_src_addr peer_addr src_addr_arr then count_loop l' src_addr_arr dest_addr count
      else if (s_addr peer_addr =? s_addr dest_addr) && (sin_port peer_addr =? sin_port dest_addr)
      then count_loop l' src_addr_arr dest_addr count
      else count_loop l' src_addr_arr dest_addr (wrap 16 (count + 1))
  end.
Definition peer_list_count_excl (list_id : nat) (src_addr_arr : list sockaddr_in) (dest_addr : sockaddr_in) : M Peers Z :=
  l ← get_list list_id; mret (count_loop l src_addr_arr dest_addr 0).

Definition peer_list_contains (list_id : nat) (peer : sockaddr_in) : M Peers bool :=
  l ← get_list list_id; mret (set_find peer l).

Definition peer_list_add (list_id : nat) (peer : sockaddr_in) : M Peers Z :=
  contains ← peer_list_contains list_id peer;
  l ← get_list list_id;
  if (contains : bool) then mret 0
  else if Z.of_nat (length l) <? MAX_CAPACITY then
    _ ← set_list list_id (ordered_insert sockaddr_in_less peer l); mret 1
  else mret (-1).

Definition peer_list_remove (list_id : nat) (peer : sockaddr_in) : M Peers unit :=
  l ← get_list list_id;
  set_list list_id (List.filter (λ a, sockaddr_in_less a peer || sockaddr_in_less peer a) l).

Section host.
Context `{Host}.

(** The bytes the loop writes from [buf] on, and the value returned. *)
Definition addr_len : Z := 4.
Definition record_size : Z := 7.
Definition peer_record (peer_addr : sockaddr_in) : list Z :=
  addr_len :: store 4 (s_addr peer_addr) ++ store 2 (sin_port peer_addr).
Fixpoint write_loop (l : list sockaddr_in) (size : Z) (src_addr_arr : list sockaddr_in) (dest_addr : sockaddr_in) :
    list Z * bool :=
  match l with
  | [] => ([], negb (0 <? size))
  | peer_addr :: l' =>
      if is_src_addr peer_addr src_addr_arr then write_loop l' size src_addr_arr dest_addr
      else if (s_addr peer_addr =? s_addr dest_addr) && (sin_port peer_addr =? sin_port dest_addr)
      then write_loop l' size src_addr_arr dest_addr
      else if size <? record_size then ([], false)
      else
        let '(bytes, ok) := write_loop l' (size - record_size) src_addr_arr dest_addr in
        (peer_record peer_addr ++ bytes, ok)
  end.
Definition peer_list_write_to_buf_excl (list_id : nat) (size : Z) (src_addr_arr : list sockaddr_in)
    (dest_addr : sockaddr_in) : M Peers (list Z * bool) :=
  l ← get_list list_id; mret (write_loop l size src_addr_arr dest_addr).
End host.

(** The assignment clears the list first, so no iterator into it stays valid. *)
Definition peer_list_cpy (src_list dest_list : nat) : M Peers unit :=
  l ← get_list src_list; _ ← get_list dest_list; _ ← set_list dest_list []; set_list dest_list l.

Definition set_iterator (list_id : nat) (it : option sockaddr_in) : M Peers unit :=
  s ← get_state;
  _ ← from_opt Undef (peer_list_iterators s !! list_id);
  modify (λ s, s <| peer_list_iterators ::= <[list_id := it]> |>).
(** Reading through an iterator that points to no element is undefined. *)
Definition valid_iterator (list_id : nat) : M Peers sockaddr_in :=
  s ← get_state;
  it ← from_opt Undef (peer_list_iterators s !! list_id);
  from_opt Undef it.

Definition peer_list_iterator_begin (list_id : nat) : M Peers bool :=
  l ← get_list list_id;
  _ ← set_iterator list_id (head l);
  mret (match head l with Some _ => true | None => false end).
Definition peer_list_iterator_next (list_id : nat) : M Peers bool :=
  peer ← valid_iterator list_id;
  l ← get_list list_id;
  let it := head (List.filter (sockaddr_in_less peer) l) in
  _ ← set_iterator list_id it;
  mret (match it with Some _ => true | None => false end).
Definition peer_list_iterator_get_peer (list_id : nat) : M Peers sockaddr_in := valid_iterator list_id.

Definition peer_list_full (list_id : nat) : M Peers bool :=
  l ← get_list list_id; mret (MAX_CAPACITY <=? Z.of_nat (length l)).

(** ** The order and the sets *)
#[export] Instance sockaddr_sto : StrictTotalOrder sockaddr_in_less.
Proof.
  unfold sockaddr_in_less. split.
  - intros x. rewrite Z.eqb_refl. simpl. apply Z.ltb_irrefl.
  - intros x y z. destruct (Z.eqb_spec (s_addr x) (s_addr y)), (Z.eqb_spec (s_addr y) (s_addr z)),
      (Z.eqb_spec (s_addr x) (s_addr z)); simpl; intros; lia.
  - intros [xa xp] [ya yp]. simpl. rewrite (Z.eqb_sym ya xa). destruct (Z.eqb_spec xa ya); simpl; intros; f_equal; lia.
Qed.

(** A set in order, within the capacity. *)
Record set_ok (l : list sockaddr_in) : Prop := {
  set_sorted : StronglySorted (less sockaddr_in_less) l;
  set_capacity : Z.of_nat (length l) ≤ MAX_CAPACITY;
  set_addresses : Forall addr_ok l }.

Lemma set_find_spec peer l : set_find peer l = true ↔ peer ∈ l.
Proof.
  unfold set_find. rewrite existsb_exists. split.
  - intros (a & Ha & [H1%negb_true_iff H2%negb_true_iff]%andb_true_iff).
    rewrite (sto_total peer a H2 H1). by apply list_elem_of_In.
  - intros Hin. exists peer. split; [by apply list_elem_of_In|]. by rewrite (sto_irrefl (lt:=sockaddr_in_less)).
Qed.
Lemma set_find_false peer l : set_find peer l = false ↔ peer ∉ l.
Proof. rewrite <-set_find_spec. by destruct (set_find peer l). Qed.

Lemma is_src_addr_spec a arr : is_src_addr a arr = address_in_array a arr.
Proof.
  induction arr as [|b arr IH]; [done|]. simpl. rewrite IH. unfold equal_addr.
  by destruct (_ && _).
Qed.

Lemma set_ok_nil : set_ok [].
Proof. constructor; [constructor|done|constructor]. Qed.

Lemma set_ok_insert peer l :
  set_ok l → addr_ok peer → peer ∉ l → Z.of_nat (length l) < MAX_CAPACITY →
  set_ok (ordered_insert sockaddr_in_less peer l).
Proof.
  intros [Hs Hc Ha] Hp Hn Hl. constructor.
  - apply ordered_insert_strict; [apply _|done|done].
  - rewrite length_ordered_insert. lia.
  - rewrite ordered_insert_perm. by apply Forall_cons.
Qed.

Lemma filter_remove peer l :
  List.filter (λ a, sockaddr_in_less a peer || sockaddr_in_less peer a) l = filter (.≠ peer) l.
Proof.
  induction l as [|a l IH]; [done|]. rewrite filter_cons. simpl. rewrite IH.
  destruct (decide (a ≠ peer)) as [Hne|Heq].
  - destruct (sockaddr_in_less a peer) eqn:H1, (sockaddr_in_less peer a) eqn:H2; try done.
    by destruct Hne; apply sto_total.
  - assert (a = peer) as -> by (destruct (decide (a = peer)); [done|by destruct Heq]).
    by rewrite (sto_irrefl (lt:=sockaddr_in_less)).
Qed.

Lemma set_ok_remove peer l : set_ok l → set_ok (filter (.≠ peer) l).
Proof.
  intros [Hs Hc Ha]. constructor.
  - by apply StronglySorted_filter.
  - pose proof (length_filter (.≠ peer) l). lia.
  - rewrite Forall_forall in *. intros a [_ Hin]%list_elem_of_filter. auto.
Qed.

(** Iteration: the elements after one of the set. *)
Lemma filter_less_after l1 peer l2 :
  StronglySorted (less sockaddr_in_less) (l1 ++ peer :: l2) →
  List.filter (sockaddr_in_less peer) (l1 ++ peer :: l2) = l2.
Proof.
  induction l1 as [|a l1 IH]; simpl.
  - intros Hs. inversion Hs as [|? ? _ Hall]; subst. rewrite (sto_irrefl (lt:=sockaddr_in_less)). clear Hs.
    induction Hall as [|b l2 Hb _ IH]; [done|]. simpl. unfold less in Hb. by rewrite Hb, IH.
  - intros Hs. inversion Hs as [|? ? Hs' Hall]; subst. rewrite Forall_app, Forall_cons in Hall.
    destruct Hall as (_ & Ha & _). unfold less in Ha. rewrite (swo_asym a peer Ha). by apply IH.
Qed.
