(* ===== verification/PeerSets.v ===== *)
(** * The peer lists of peer-time-sync are finite sets ([peers.cpp])

    [Op] are all the calls of the interface [peers.h]; [spec_op] is what they promise, on
    finite sets with a position for the iteration, and [run_op] is what the code does, on
    ordered lists. *)
From S2P Require Import Prelude Wire Peers.

#[export] Instance sockaddr_in_countable : Countable sockaddr_in.
Proof.
  refine (inj_countable' (λ a, (s_addr a, sin_port a))
    (λ '(x, y), {| s_addr := x; sin_port := y |}) _). by intros [].
Defined.

(** ** The invariant of the globals of the file; [next_id] is that of an [assert] *)
Record peers_ok (p : Peers) : Prop := {
  lists_ok : Forall set_ok (peer_lists p);
  iterators_length : length (peer_list_iterators p) = length (peer_lists p);
  next_id_ok : next_id p = length (peer_lists p);
  iterators_in i l a :
    peer_lists p !! i = Some l → peer_list_iterators p !! i = Some (Some a) → a ∈ l }.

Lemma no_position (ls : list (list sockaddr_in)) n i l a :
  ls !! i = Some l → replicate n (@None sockaddr_in) !! i = Some (Some a) → a ∈ l.
Proof. by intros _ [? _]%lookup_replicate. Qed.

Definition no_peers : Peers := {| peer_lists := []; peer_list_iterators := []; next_id := 0 |}.
Lemma no_peers_ok : peers_ok no_peers.
Proof. by split; [constructor| | |]. Qed.

(** ** The calls on lists *)
Section calls.
Context (p : Peers) (list_id : nat) (l : list sockaddr_in) (Hl : peer_lists p !! list_id = Some l).

Lemma run_get_list : get_list list_id p = Ret (l, p).
Proof. unfold get_list, get_state, from_opt, mbind, M_bind. by rewrite Hl. Qed.

Lemma run_read {A} (k : list sockaddr_in → A) : (x ← get_list list_id; mret (k x)) p = Ret (k l, p).
Proof. unfold mbind, M_bind. by rewrite run_get_list. Qed.

Lemma peer_list_contains_run peer : peer_list_contains list_id peer p = Ret (bool_decide (peer ∈ l), p).
Proof.
  unfold peer_list_contains. rewrite (run_read (set_find peer)). do 2 f_equal.
  apply eq_true_iff_eq. by rewrite set_find_spec, bool_decide_eq_true.
Qed.

Definition set_to (l' : list sockaddr_in) : Peers :=
  p <| peer_lists ::= <[list_id := l']> |> <| peer_list_iterators ::= alter (still_in l') list_id |>.

Lemma peer_list_add_run peer :
  peer_list_add list_id peer p =
  if bool_decide (peer ∈ l) then Ret (0, p)
  else if Z.of_nat (length l) <? MAX_CAPACITY then Ret (1, set_to (ordered_insert sockaddr_in_less peer l))
  else Ret (-1, p).
Proof.
  unfold peer_list_add, mbind, M_bind. rewrite peer_list_contains_run, run_get_list.
  destruct (bool_decide _); [done|]. by destruct (_ <? _).
Qed.

Lemma peer_list_remove_run peer : peer_list_remove list_id peer p = Ret (tt, set_to (filter (.≠ peer) l)).
Proof. unfold peer_list_remove, mbind, M_bind. by rewrite run_get_list, filter_remove. Qed.

Lemma peer_list_full_run : peer_list_full list_id p = Ret (MAX_CAPACITY <=? Z.of_nat (length l), p).
Proof. apply (run_read (λ l, MAX_CAPACITY <=? Z.of_nat (length l))). Qed.

Lemma peer_list_cpy_run dest l' :
  peer_lists p !! dest = Some l' →
  peer_list_cpy list_id dest p =
  Ret (tt, p <| peer_lists ::= <[dest := []]> |> <| peer_list_iterators ::= alter (still_in []) dest |>
             <| peer_lists ::= <[dest := l]> |> <| peer_list_iterators ::= alter (still_in l) dest |>).
Proof.
  intros Hd. unfold peer_list_cpy, mbind, M_bind. rewrite run_get_list.
  unfold get_list, get_state, from_opt, mbind, M_bind. by rewrite Hd.
Qed.

Lemma lists_ok_lookup : peers_ok p → set_ok l.
Proof. intros [Hp _ _ _]. rewrite Forall_lookup in Hp. eauto. Qed.

Lemma still_in_some l' it a : still_in l' it = Some a → it = Some a ∧ a ∈ l'.
Proof. destruct it as [b|]; [|done]. simpl. destruct (set_find b l') eqn:Hb; [|done]. intros [= ->]. by apply set_find_spec in Hb. Qed.

Lemma set_to_ok l' : peers_ok p → set_ok l' → peers_ok (set_to l').
Proof.
  intros [Hp Hi Hn Hin] Hl'. split; simpl; rewrite ?length_insert, ?length_alter; try done; [by apply Forall_insert|].
  intros j k a Hj Ha. destruct (decide (list_id = j)) as [<-|Hne].
  - rewrite list_lookup_insert_eq in Hj by (by eapply lookup_lt_Some). injection Hj as <-.
    rewrite list_lookup_alter_eq in Ha. destruct (peer_list_iterators p !! list_id) as [it|]; [|done].
    apply (inj Some) in Ha. by apply still_in_some in Ha as [_ ?].
  - rewrite list_lookup_insert_ne in Hj by done. rewrite list_lookup_alter_ne in Ha by done. eauto.
Qed.

(** The list [list_id] is [l'], and the others are what they were. *)
Definition sets (l' : list sockaddr_in) (p' : Peers) : Prop :=
  peers_ok p' ∧ peer_lists p' = <[list_id := l']> (peer_lists p).
Lemma sets_to l' : peers_ok p → set_ok l' → sets l' (set_to l').
Proof. intros. split; [by apply set_to_ok|done]. Qed.
Lemma sets_same : peers_ok p → sets l p.
Proof. intros. split; [done|]. by rewrite list_insert_id. Qed.
End calls.

(** The addresses of [l] that a [HELLO_REPLY] lists. *)
Definition listed (src_addr_arr : list sockaddr_in) (dest_addr : sockaddr_in) (l : list sockaddr_in) : list sockaddr_in :=
  filter (λ a, (a ∉ src_addr_arr) ∧ a ≠ dest_addr) l.

Lemma listed_cons src dest a l :
  listed src dest (a :: l) =
  if is_src_addr a src then listed src dest l
  else if (s_addr a =? s_addr dest) && (sin_port a =? sin_port dest) then listed src dest l
  else a :: listed src dest l.
Proof.
  unfold listed. rewrite filter_cons, is_src_addr_spec.
  change ((s_addr a =? s_addr dest) && (sin_port a =? sin_port dest)) with (equal_addr a dest).
  destruct (address_in_array a src) eqn:Hs.
  - apply address_in_array_spec in Hs. by rewrite decide_False by tauto.
  - apply address_in_array_false in Hs. destruct (equal_addr a dest) eqn:Hd.
    + apply equal_addr_spec in Hd. by rewrite decide_False by tauto.
    + apply equal_addr_false in Hd. by rewrite decide_True.
Qed.

Lemma length_listed src dest l : (length (listed src dest l) ≤ length l)%nat.
Proof. apply length_filter. Qed.

(** [uint16_t] is wide enough for a list of at most [MAX_CAPACITY]. *)
Lemma count_loop_spec l src dest count :
  0 ≤ count → count + Z.of_nat (length l) < 2 ^ 16 →
  count_loop l src dest count = count + Z.of_nat (length (listed src dest l)).
Proof.
  revert count. induction l as [|a l IH]; intros count H0 Hc; simpl; [lia|].
  rewrite listed_cons. simpl in Hc.
  destruct (is_src_addr a src); [apply IH; lia|].
  destruct (_ && _); [apply IH; lia|].
  unfold wrap. rewrite Z.mod_small by lia. rewrite IH by lia. simpl. lia.
Qed.

Lemma peer_list_count_excl_run p list_id l src dest :
  peers_ok p → peer_lists p !! list_id = Some l →
  peer_list_count_excl list_id src dest p = Ret (Z.of_nat (length (listed src dest l)), p).
Proof.
  intros Hp Hl. unfold peer_list_count_excl.
  rewrite (run_read p list_id l Hl (λ l, count_loop l src dest 0)), count_loop_spec; [done|done|].
  pose proof (set_capacity _ (lists_ok_lookup p list_id l Hl Hp)). unfold MAX_CAPACITY in *. lia.
Qed.

(** ** Iteration *)
Definition iterator_to (p : Peers) (list_id : nat) (it : option sockaddr_in) : Peers :=
  p <| peer_list_iterators ::= <[list_id := it]> |>.

Lemma filter_bool (f : sockaddr_in → bool) l : List.filter f l = filter (λ a, f a = true) l.
Proof. induction l as [|a l IH]; [done|]. rewrite filter_cons. simpl. rewrite IH. by destruct (f a). Qed.

Section iteration.
Context (p : Peers) (list_id : nat) (l : list sockaddr_in).
Context (Hp : peers_ok p) (Hl : peer_lists p !! list_id = Some l).

Lemma iterator_exists : ∃ it, peer_list_iterators p !! list_id = Some it.
Proof using Hp Hl. apply lookup_lt_is_Some_2. rewrite (iterators_length p Hp). by eapply lookup_lt_Some. Qed.

Lemma set_iterator_run it : set_iterator list_id it p = Ret (tt, iterator_to p list_id it).
Proof using Hp Hl. unfold set_iterator, mbind, M_bind, get_state, from_opt. by destruct iterator_exists as [x ->]. Qed.

Lemma iterator_to_ok it : (∀ a, it = Some a → a ∈ l) → peers_ok (iterator_to p list_id it).
Proof using Hp Hl.
  intros Hit. destruct Hp as [H1 H2 H3 H4]. split; simpl; rewrite ?length_insert; try done.
  intros j k a Hj Ha. apply list_lookup_insert_Some in Ha as [(<- & Ha & _)|[_ Ha]]; [|eauto].
  rewrite Hl in Hj. injection Hj as <-. auto.
Qed.

Lemma peer_list_iterator_begin_run :
  peer_list_iterator_begin list_id p =
  Ret (match l with [] => false | _ => true end, iterator_to p list_id (head l)).
Proof using Hp Hl.
  unfold peer_list_iterator_begin, mbind, M_bind. rewrite (run_get_list _ _ _ Hl), set_iterator_run. by destruct l.
Qed.

Section at_element.
Context (peer : sockaddr_in) (Hit : peer_list_iterators p !! list_id = Some (Some peer)).

Lemma valid_iterator_run : valid_iterator list_id p = Ret (peer, p).
Proof using Hit. unfold valid_iterator, mbind, M_bind, get_state, from_opt. by rewrite Hit. Qed.

Lemma iterator_next_run :
  let it := head (filter (λ a, sockaddr_in_less peer a = true) l) in
  peer_list_iterator_next list_id p =
  Ret (match it with Some _ => true | None => false end, iterator_to p list_id it).
Proof using Hp Hl Hit.
  unfold peer_list_iterator_next, mbind, M_bind. rewrite valid_iterator_run, (run_get_list _ _ _ Hl), filter_bool.
  by rewrite set_iterator_run.
Qed.
End at_element.

(** When the iterator is in the middle of the list. *)
Lemma peer_list_iterator_next_run l1 peer l2 :
  l = l1 ++ peer :: l2 → peer_list_iterators p !! list_id = Some (Some peer) →
  peer_list_iterator_next list_id p =
  Ret (match l2 with [] => false | _ => true end, iterator_to p list_id (head l2)).
Proof using Hp Hl.
  intros Hsplit Hit. rewrite (iterator_next_run peer Hit), <-filter_bool.
  rewrite Hsplit, filter_less_after; [by destruct l2|]. rewrite <-Hsplit. by apply (lists_ok_lookup p list_id).
Qed.
End iteration.

(** ** What [peers.h] promises *)
Inductive Op :=
  | Create
  | Count (list_id : nat)
  | CountExcl (list_id : nat) (src_addr_arr : list sockaddr_in) (dest_addr : sockaddr_in)
  | Contains (list_id : nat) (peer : sockaddr_in)
  | Add (list_id : nat) (peer : sockaddr_in)
  | Remove (list_id : nat) (peer : sockaddr_in)
  | WriteToBufExcl (list_id : nat) (size : Z) (src_addr_arr : list sockaddr_in) (dest_addr : sockaddr_in)
  | Cpy (src_list dest_list : nat)
  | IteratorBegin (list_id : nat)
  | IteratorNext (list_id : nat)
  | IteratorGetPeer (list_id : nat)
  | Full (list_id : nat).

(** What a call returns; [Written] has what the call wrote to the buffer as well. *)
Inductive Result :=
  | Done
  | Number (n : Z)
  | Truth (b : bool)
  | Address (a : sockaddr_in)
  | Written (bytes : list Z) (all : bool).

(** A list is a set, and the element to which its iterator points, if there is one. *)
Record PeerSet := { members : gset sockaddr_in; position : option sockaddr_in }.

Definition in_order (s : gset sockaddr_in) : list sockaddr_in := ordered_sort sockaddr_in_less (elements s).
Definition least (s : gset sockaddr_in) : option sockaddr_in := head (in_order s).
Definition move_to (s : PeerSet) (it : option sockaddr_in) : PeerSet := {| members := members s; position := it |}.

Section operations.
Context `{Host}.

Definition run_op (o : Op) : M Peers Result :=
  match o with
  | Create => i ← peer_list_create; mret (Number (Z.of_nat i))
  | Count i => n ← peer_list_count i; mret (Number n)
  | CountExcl i src dest => n ← peer_list_count_excl i src dest; mret (Number n)
  | Contains i a => b ← peer_list_contains i a; mret (Truth b)
  | Add i a => n ← peer_list_add i a; mret (Number n)
  | Remove i a => _ ← peer_list_remove i a; mret Done
  | WriteToBufExcl i size src dest => '(bytes, ok) ← peer_list_write_to_buf_excl i size src dest; mret (Written bytes ok)
  | Cpy i j => _ ← peer_list_cpy i j; mret Done
  | IteratorBegin i => b ← peer_list_iterator_begin i; mret (Truth b)
  | IteratorNext i => b ← peer_list_iterator_next i; mret (Truth b)
  | IteratorGetPeer i => a ← peer_list_iterator_get_peer i; mret (Address a)
  | Full i => b ← peer_list_full i; mret (Truth b)
  end.

(** The result of a call on [s] and [s] after it, [None] when there is no element to which the
    iterator points. [WriteToBufExcl] writes the records that fit, least first, and succeeds
    when they are all and fill the buffer. *)
Definition spec_call (o : Op) (s : PeerSet) : option (Result * PeerSet) :=
  match o with
  | Count _ => Some (Number (Z.of_nat (size (members s))), s)
  | CountExcl _ src dest => Some (Number (Z.of_nat (size (members s ∖ list_to_set src ∖ {[dest]}))), s)
  | Contains _ a => Some (Truth (bool_decide (a ∈ members s)), s)
  | Add _ a =>
      if decide (a ∈ members s) then Some (Number 0, s)
      else if decide (Z.of_nat (size (members s)) < MAX_CAPACITY)
      then Some (Number 1, {| members := {[a]} ∪ members s; position := position s |})
      else Some (Number (-1), s)
  | Remove _ a =>
      Some (Done, {| members := members s ∖ {[a]};
                     position := if decide (position s = Some a) then None else position s |})
  | WriteToBufExcl _ size src dest =>
      let listed := in_order (members s ∖ list_to_set src ∖ {[dest]}) in
      Some (Written (flat_map peer_record (take (Z.to_nat (size / record_size)) listed))
                    (bool_decide (size = record_size * Z.of_nat (length listed))), s)
  | IteratorBegin _ =>
      let it := least (members s) in Some (Truth (bool_decide (is_Some it)), move_to s it)
  | IteratorNext _ =>
      peer ← position s;
      let it := least (filter (λ a, sockaddr_in_less peer a = true) (members s)) in
      Some (Truth (bool_decide (is_Some it)), move_to s it)
  | IteratorGetPeer _ => peer ← position s; Some (Address peer, s)
  | Full _ => Some (Truth (bool_decide (Z.of_nat (size (members s)) = MAX_CAPACITY)), s)
  | Create | Cpy _ _ => None
  end.
(** The list that a call uses, or copies to. *)
Definition list_of (o : Op) : nat :=
  match o with
  | Create => 0
  | Count i | CountExcl i _ _ | Contains i _ | Add i _ | Remove i _ | WriteToBufExcl i _ _ _ | Cpy _ i
  | IteratorBegin i | IteratorNext i | IteratorGetPeer i | Full i => i
  end.
(** On all lists; [None] when there is no such list. *)
Definition spec_op (o : Op) (v : list PeerSet) : option (Result * list PeerSet) :=
  match o with
  | Create => Some (Number (Z.of_nat (length v)), v ++ [{| members := ∅; position := None |}])
  | Cpy i j => s ← v !! i; _ ← v !! j; Some (Done, <[j := {| members := members s; position := None |}]> v)
  | _ => s ← v !! list_of o; '(r, s') ← spec_call o s; Some (r, <[list_of o := s']> v)
  end.

Definition op_ok (o : Op) : Prop :=
  match o with Add _ a => addr_ok a | WriteToBufExcl _ size _ _ => 0 ≤ size | _ => True end.

Fixpoint run_ops (os : list Op) : M Peers (list Result) :=
  match os with [] => mret [] | o :: os' => r ← run_op o; rs ← run_ops os'; mret (r :: rs) end.
Fixpoint spec_ops (os : list Op) (v : list PeerSet) : option (list Result * list PeerSet) :=
  match os with
  | [] => Some ([], v)
  | o :: os' => '(r, v') ← spec_op o v; '(rs, v'') ← spec_ops os' v'; Some (r :: rs, v'')
  end.
End operations.

(** ** The lists implement the sets *)
Definition peer_set (l : list sockaddr_in) (it : option sockaddr_in) : PeerSet :=
  {| members := list_to_set l; position := it |}.
Definition view (p : Peers) : list PeerSet := zip_with peer_set (peer_lists p) (peer_list_iterators p).

Lemma set_ok_nodup l : set_ok l → NoDup l.
Proof. intros [Hs _ _]. by apply (less_sorted_nodup sockaddr_in_less). Qed.

Lemma set_ok_size l : set_ok l → size (list_to_set l : gset sockaddr_in) = length l.
Proof. intros. by apply size_list_to_set, set_ok_nodup. Qed.

(** A sorted list is its set in order. *)
Lemma in_order_sorted l (s : gset sockaddr_in) :
  StronglySorted (less sockaddr_in_less) l → (∀ a, a ∈ s ↔ a ∈ l) → in_order s = l.
Proof.
  intros Hl Hs. assert (s = list_to_set l) as -> by (apply set_eq; intros a; by rewrite Hs, elem_of_list_to_set).
  apply (StronglySorted_unique_strong (not_gt sockaddr_in_less)).
  - intros x y _ _ Hxy Hyx. by apply sto_total.
  - apply ordered_sort_sorted, _.
  - clear Hs. induction Hl as [|a l Hl IH Ha]; constructor; [done|].
    eapply Forall_impl; [exact Ha|]. intros b Hb. by apply swo_asym.
  - unfold in_order. rewrite ordered_sort_perm. by apply elements_list_to_set, (less_sorted_nodup sockaddr_in_less).
Qed.

Lemma in_order_list l : set_ok l → in_order (list_to_set l) = l.
Proof. intros Hl. apply in_order_sorted; [by apply set_sorted|]. intros a. apply elem_of_list_to_set. Qed.

Lemma in_order_listed l src dest :
  set_ok l → in_order ((list_to_set l : gset sockaddr_in) ∖ list_to_set src ∖ {[dest]}) = listed src dest l.
Proof.
  intros Hl. apply in_order_sorted; [by apply StronglySorted_filter, set_sorted|]. intros a. unfold listed.
  rewrite !elem_of_difference, elem_of_singleton, !elem_of_list_to_set, list_elem_of_filter. tauto.
Qed.

Lemma listed_size l src dest :
  set_ok l → size ((list_to_set l : gset sockaddr_in) ∖ list_to_set src ∖ {[dest]}) = length (listed src dest l).
Proof. intros Hl. rewrite <-(in_order_listed l) by done. unfold in_order. by rewrite ordered_sort_perm. Qed.

Lemma least_after l a :
  set_ok l →
  least (filter (λ b, sockaddr_in_less a b = true) (list_to_set l)) = head (filter (λ b, sockaddr_in_less a b = true) l).
Proof.
  intros Hl. unfold least. f_equal. apply in_order_sorted; [by apply StronglySorted_filter, set_sorted|].
  intros b. by rewrite elem_of_filter, list_elem_of_filter, elem_of_list_to_set.
Qed.

(** The buffer takes the records that fit. *)
Lemma write_loop_fits `{Host} l size src dest :
  0 ≤ size →
  write_loop l size src dest =
  (flat_map peer_record (take (Z.to_nat (size / record_size)) (listed src dest l)),
   bool_decide (size = record_size * Z.of_nat (length (listed src dest l)))).
Proof.
  revert size. induction l as [|a l IH]; intros size Hsize; cbn [write_loop].
  { unfold listed. rewrite filter_nil, take_nil. cbn [flat_map length]. f_equal.
    destruct (Z.ltb_spec 0 size); case_bool_decide; (done || lia). }
  rewrite listed_cons. destruct (is_src_addr a src); [by apply IH|]. destruct (_ && _); [by apply IH|].
  destruct (Z.ltb_spec size record_size) as [Hlt|Hge].
  - rewrite Z.div_small by lia. cbn [Z.to_nat take flat_map length]. f_equal. unfold record_size in *.
    case_bool_decide; [lia|done].
  - rewrite IH by (unfold record_size in *; lia).
    replace (Z.to_nat (size / record_size)) with (S (Z.to_nat ((size - record_size) / record_size))).
    + cbn [take flat_map]. f_equal. apply bool_decide_ext. cbn [length]. lia.
    + unfold record_size in *. pose proof (Z.div_pos (size - 7) 7 ltac:(lia) ltac:(lia)) as Hd.
      replace size with (size - 7 + 1 * 7) at 2 by lia. rewrite Z.div_add by done. lia.
Qed.

Section lists.
Context (p : Peers) (i : nat) (l : list sockaddr_in) (it : option sockaddr_in).
Context (Hl : peer_lists p !! i = Some l) (Hit : peer_list_iterators p !! i = Some it).

Lemma view_at : view p !! i = Some (peer_set l it).
Proof using Hl Hit. apply lookup_zip_with_Some. eauto. Qed.

Lemma view_same : <[i := peer_set l it]> (view p) = view p.
Proof using Hl Hit. apply list_insert_id, view_at. Qed.

Lemma view_set_to l' : view (set_to p i l') = <[i := peer_set l' (still_in l' it)]> (view p).
Proof using Hit.
  unfold view. rewrite insert_zip_with. simpl. f_equal. apply list_eq. intros j.
  destruct (decide (i = j)) as [<-|Hne].
  - rewrite list_lookup_alter_eq, Hit, list_lookup_insert_eq by (by eapply lookup_lt_Some). done.
  - by rewrite list_lookup_alter_ne, list_lookup_insert_ne by done.
Qed.

Lemma view_iterator_to it' : view (iterator_to p i it') = <[i := peer_set l it']> (view p).
Proof using Hl. unfold view. rewrite insert_zip_with. simpl. by rewrite (list_insert_id (peer_lists p)). Qed.
End lists.

Lemma view_none p i : peer_lists p !! i = None → view p !! i = None.
Proof. intros Hl. unfold view. rewrite lookup_zip_with, Hl. done. Qed.
Lemma length_view p : peers_ok p → length (view p) = length (peer_lists p).
Proof. intros Hp. unfold view. rewrite length_zip_with, (iterators_length p Hp). lia. Qed.

Section simulation.
Context `{Host}.

Definition simulates (o : Op) (p : Peers) : Prop :=
  match spec_op o (view p) with
  | Some (r, v) => ∃ p', run_op o p = Ret (r, p') ∧ view p' = v ∧ peers_ok p'
  | None => run_op o p = Fail Undef
  end.

Lemma simulates_create p : peers_ok p → simulates Create p.
Proof.
  intros Hp. pose proof (length_view p Hp) as Hlen. destruct Hp as [Hp Hi Hn Hin].
  unfold simulates. cbn [spec_op]. eexists. split; [|split].
  - unfold run_op, peer_list_create, get_state, modify, mret, M_ret, mbind, M_bind. by rewrite Hlen, <-Hn.
  - unfold view. simpl. by rewrite zip_with_app by done.
  - split; simpl; rewrite ?length_app; simpl; [|lia|lia|].
    + apply Forall_app. split; [done|]. apply Forall_singleton, set_ok_nil.
    + intros j l a Hj Ha. apply lookup_app_Some in Ha as [Ha|[_ Ha]].
      * rewrite lookup_app_l in Hj by (rewrite <-Hi; by eapply lookup_lt_Some). eauto.
      * destruct (j - _)%nat; [done|by destruct n].
Qed.

Lemma get_list_none i p : peer_lists p !! i = None → get_list i p = Fail Undef.
Proof. intros Hl. unfold get_list, get_state, from_opt, mbind, M_bind. by rewrite Hl. Qed.
Lemma iterator_none i p : peers_ok p → peer_lists p !! i = None → valid_iterator i p = Fail Undef.
Proof.
  intros Hp Hl. unfold valid_iterator, get_state, from_opt, mbind, M_bind.
  apply lookup_ge_None in Hl. by rewrite (proj2 (lookup_ge_None _ _)) by (by rewrite (iterators_length p Hp)).
Qed.

Ltac peers_monad := unfold mbind, M_bind, mret, M_ret.

Lemma simulates_cpy i j p : peers_ok p → simulates (Cpy i j) p.
Proof.
  intros Hp. unfold simulates, run_op, peer_list_cpy. cbn [spec_op].
  destruct (peer_lists p !! i) as [l|] eqn:Hl.
  2: { rewrite (view_none p i Hl). peers_monad. by rewrite (get_list_none i p Hl). }
  destruct (iterator_exists p i l Hp Hl) as [it Hit]. rewrite (view_at p i l it Hl Hit).
  destruct (peer_lists p !! j) as [l'|] eqn:Hj.
  2: { rewrite (view_none p j Hj). peers_monad. rewrite (run_get_list p i l Hl). by rewrite (get_list_none j p Hj). }
  destruct (iterator_exists p j l' Hp Hj) as [it' Hit']. rewrite (view_at p j l' it' Hj Hit').
  set (p1 := set_to p j []). exists (set_to p1 j l).
  assert (peers_ok p1) as Hp1 by (apply (set_to_ok p j l' Hj); [done|apply set_ok_nil]).
  assert (peer_list_iterators p1 !! j = Some None) as Hit1
    by (unfold p1; simpl; rewrite list_lookup_alter_eq, Hit'; by destruct it').
  split; [|split].
  - peers_monad. pose proof (peer_list_cpy_run p i l Hl j l' Hj) as Hrun.
    unfold peer_list_cpy, mbind, M_bind in Hrun. by rewrite Hrun.
  - rewrite (view_set_to p1 j None Hit1). unfold p1. by rewrite (view_set_to p j it' Hit'), list_insert_insert_eq.
  - apply (set_to_ok p1 j [] ltac:(simpl; apply list_lookup_insert_eq; by eapply lookup_lt_Some)); [done|].
    by eapply lists_ok_lookup.
Qed.

Section one_list.
Context (p : Peers) (i : nat) (l : list sockaddr_in) (it : option sockaddr_in).
Context (Hp : peers_ok p) (Hl : peer_lists p !! i = Some l) (Hit : peer_list_iterators p !! i = Some it).

(** What [o] has to do when it uses the list [i]. *)
Definition simulates_call (o : Op) : Prop :=
  match spec_call o (peer_set l it) with
  | Some (r, s) => ∃ p', run_op o p = Ret (r, p') ∧ view p' = <[i := s]> (view p) ∧ peers_ok p'
  | None => run_op o p = Fail Undef
  end.

Lemma simulates_read o r :
  spec_call o (peer_set l it) = Some (r, peer_set l it) → run_op o p = Ret (r, p) → simulates_call o.
Proof using Hp Hl Hit.
  intros Hs Hr. unfold simulates_call. rewrite Hs. exists p. split; [done|]. by rewrite (view_same p i l it).
Qed.

Lemma simulates_set o r l' s :
  spec_call o (peer_set l it) = Some (r, s) → run_op o p = Ret (r, set_to p i l') → set_ok l' →
  peer_set l' (still_in l' it) = s → simulates_call o.
Proof using Hp Hl Hit.
  intros Hs Hr Hok <-. unfold simulates_call. rewrite Hs. exists (set_to p i l'). split; [done|].
  split; [by apply view_set_to|]. by apply (set_to_ok p i l Hl).
Qed.

Lemma simulates_move o r it' :
  spec_call o (peer_set l it) = Some (r, move_to (peer_set l it) it') → run_op o p = Ret (r, iterator_to p i it') →
  (∀ a, it' = Some a → a ∈ l) → simulates_call o.
Proof using Hp Hl Hit.
  intros Hs Hr Hin. unfold simulates_call. rewrite Hs. exists (iterator_to p i it'). split; [done|].
  split; [by apply view_iterator_to|]. by eapply iterator_to_ok.
Qed.

Lemma still_in_list l' : (∀ a, a ∈ l → a ∈ l') → still_in l' it = it.
Proof using Hp Hl Hit.
  intros Hin. destruct it as [a|]; [|done]. simpl. rewrite (proj2 (set_find_spec a l')); [done|].
  apply Hin. by eapply (iterators_in p Hp).
Qed.

Lemma simulates_add a : addr_ok a → simulates_call (Add i a).
Proof using Hp Hl Hit.
  intros Ha. pose proof (lists_ok_lookup p i l Hl Hp) as Hok. pose proof (peer_list_add_run p i l Hl a) as Hrun.
  destruct (decide (a ∈ l)) as [Hin|Hin].
  { rewrite bool_decide_true in Hrun by done. apply (simulates_read _ (Number 0)).
    - cbn [spec_call members peer_set]. by rewrite decide_True by (by rewrite elem_of_list_to_set).
    - unfold run_op, mbind, M_bind. by rewrite Hrun. }
  rewrite bool_decide_false in Hrun by done.
  assert (a ∉ (list_to_set l : gset sockaddr_in)) as Hin' by (by rewrite elem_of_list_to_set).
  destruct (Z.ltb_spec (Z.of_nat (length l)) MAX_CAPACITY) as [Hlt|Hge].
  - eapply (simulates_set _ (Number 1)).
    + cbn [spec_call members peer_set]. by rewrite decide_False, decide_True by (by rewrite ?set_ok_size by done).
    + unfold run_op, mbind, M_bind. by rewrite Hrun.
    + by apply set_ok_insert.
    + rewrite still_in_list by (intros b ?; rewrite elem_of_ordered_insert; by right).
      unfold peer_set. f_equal. by rewrite ordered_insert_perm.
  - apply (simulates_read _ (Number (-1))).
    + cbn [spec_call members peer_set]. rewrite set_ok_size by done. by rewrite decide_False, decide_False by (done || lia).
    + unfold run_op, mbind, M_bind. by rewrite Hrun.
Qed.

Lemma simulates_remove a : simulates_call (Remove i a).
Proof using Hp Hl Hit.
  pose proof (lists_ok_lookup p i l Hl Hp) as Hok. eapply (simulates_set _ Done); [reflexivity|..].
  - unfold run_op, mbind, M_bind. by rewrite (peer_list_remove_run p i l Hl).
  - by apply set_ok_remove.
  - unfold peer_set. cbn [members position]. f_equal.
    + apply set_eq. intros b. rewrite elem_of_difference, elem_of_singleton, !elem_of_list_to_set, list_elem_of_filter. tauto.
    + destruct it as [b|]; [|done]. cbn [still_in]. pose proof (iterators_in p Hp i l b Hl Hit) as Hb.
      case_decide as Heq.
      * injection Heq as ->. rewrite (proj2 (set_find_false a _)); [done|]. by intros [? _]%list_elem_of_filter.
      * rewrite (proj2 (set_find_spec b _)); [done|]. apply list_elem_of_filter. split; [congruence|done].
Qed.

Lemma simulates_begin : simulates_call (IteratorBegin i).
Proof using Hp Hl Hit.
  pose proof (lists_ok_lookup p i l Hl Hp) as Hok. apply (simulates_move _ (Truth (bool_decide (is_Some (head l)))) (head l)).
  - cbn [spec_call members peer_set]. unfold least. by rewrite in_order_list.
  - unfold run_op, mbind, M_bind. rewrite (peer_list_iterator_begin_run p i l Hp Hl). by destruct l.
  - intros a Ha. by apply head_Some_elem_of.
Qed.

Lemma simulates_next : simulates_call (IteratorNext i).
Proof using Hp Hl Hit.
  pose proof (lists_ok_lookup p i l Hl Hp) as Hok. unfold simulates_call. destruct it as [a|] eqn:Hit_eq.
  - set (it' := head (filter (λ b, sockaddr_in_less a b = true) l)).
    assert (Hs : spec_call (IteratorNext i) (peer_set l (Some a)) =
      Some (Truth (bool_decide (is_Some it')), move_to (peer_set l (Some a)) it'))
      by (cbn [spec_call members position peer_set mbind option_bind]; by rewrite least_after).
    rewrite Hs. exists (iterator_to p i it'). split; [|split].
    + unfold run_op, mbind, M_bind. rewrite (iterator_next_run p i l Hp Hl a Hit). fold it'. by destruct it'.
    + by apply view_iterator_to.
    + eapply iterator_to_ok; [done|exact Hl|]. intros b Hb%head_Some_elem_of. by apply list_elem_of_filter in Hb as [_ ?].
  - unfold run_op, peer_list_iterator_next, valid_iterator, get_state, from_opt, mbind, M_bind.
    cbn [spec_call position peer_set mbind option_bind]. by rewrite Hit.
Qed.

(** The calls that change nothing. *)
Lemma simulates_reads o :
  list_of o = i → op_ok o →
  match o with Create | Add _ _ | Remove _ _ | Cpy _ _ | IteratorBegin _ | IteratorNext _ => False | _ => True end →
  simulates_call o.
Proof using Hp Hl Hit.
  pose proof (lists_ok_lookup p i l Hl Hp) as Hok. pose proof (set_capacity _ Hok) as Hcap.
  intros Hi Ho Hread. destruct o as [|j|j src dest|j a|j a|j a|j sz src dest|j k|j|j|j|j]; try done; cbn [list_of] in Hi; subst j.
  - eapply simulates_read; [reflexivity|]. unfold run_op, peer_list_count, mbind, M_bind.
    rewrite (run_get_list p i l Hl). unfold mret, M_ret. cbn [members peer_set]. rewrite set_ok_size, wrap_small; [done| |done].
    unfold MAX_CAPACITY, in_u in *. lia.
  - eapply simulates_read; [reflexivity|]. unfold run_op, mbind, M_bind.
    rewrite (peer_list_count_excl_run p i l src dest Hp Hl). cbn [members peer_set]. by rewrite listed_size.
  - eapply simulates_read; [reflexivity|]. unfold run_op, mbind, M_bind.
    rewrite (peer_list_contains_run p i l Hl). cbn [members peer_set].
    erewrite bool_decide_ext; [done|]. by rewrite elem_of_list_to_set.
  - eapply simulates_read; [reflexivity|]. unfold run_op, peer_list_write_to_buf_excl, mbind, M_bind.
    rewrite (run_get_list p i l Hl). unfold mret, M_ret. rewrite write_loop_fits by done.
    cbn [members peer_set]. by rewrite in_order_listed.
  - unfold simulates_call. destruct it as [a|] eqn:Hit_eq.
    + cbn [spec_call position peer_set mbind option_bind]. exists p. split; [|by rewrite (view_same p i l (Some a))].
      unfold run_op, peer_list_iterator_get_peer, mbind, M_bind. by rewrite (valid_iterator_run p i a Hit).
    + unfold run_op, peer_list_iterator_get_peer, valid_iterator, get_state, from_opt, mbind, M_bind.
      cbn [spec_call position peer_set mbind option_bind]. by rewrite Hit.
  - eapply simulates_read; [reflexivity|]. unfold run_op, mbind, M_bind.
    rewrite (peer_list_full_run p i l Hl). cbn [members peer_set]. rewrite set_ok_size by done.
    assert ((MAX_CAPACITY <=? Z.of_nat (length l)) = bool_decide (Z.of_nat (length l) = MAX_CAPACITY)) as ->; [|done].
    apply eq_true_iff_eq. rewrite Z.leb_le, bool_decide_eq_true. lia.
Qed.
End one_list.

(** A call on one list: with the list there is, and without one. *)
Lemma simulates_lookup o p :
  peers_ok p →
  spec_op o (view p) = (s ← view p !! list_of o; '(r, s') ← spec_call o s; Some (r, <[list_of o := s']> (view p))) →
  (∀ l it, peer_lists p !! list_of o = Some l → peer_list_iterators p !! list_of o = Some it →
     simulates_call p (list_of o) l it o) →
  (peer_lists p !! list_of o = None → run_op o p = Fail Undef) → simulates o p.
Proof.
  intros Hp Hspec Hsome Hnone. unfold simulates. rewrite Hspec.
  destruct (peer_lists p !! list_of o) as [l|] eqn:Hl; [|rewrite view_none by done; by apply Hnone].
  destruct (iterator_exists p _ l Hp Hl) as [it Hit]. rewrite (view_at p _ l it Hl Hit). cbn [mbind option_bind].
  specialize (Hsome l it eq_refl Hit). unfold simulates_call in Hsome.
  by destruct (spec_call o (peer_set l it)) as [[r s]|].
Qed.

Lemma simulates_op o p : peers_ok p → op_ok o → simulates o p.
Proof.
  intros Hp Ho. destruct o; [by apply simulates_create|..|by apply simulates_cpy| | | |].
  all: apply simulates_lookup; [done|reflexivity|intros l it Hl Hit|intros Hl; cbn [list_of] in Hl].
  all: try (by apply simulates_reads).
  all: try (unfold run_op, peer_list_count, peer_list_count_excl, peer_list_contains, peer_list_add, peer_list_contains,
      peer_list_remove, peer_list_write_to_buf_excl, peer_list_full, peer_list_iterator_begin, peer_list_iterator_next,
      peer_list_iterator_get_peer; peers_monad; simpl;
    by first [rewrite (get_list_none _ p Hl)|rewrite (iterator_none _ p Hp Hl)]).
  - by apply simulates_add.
  - by apply simulates_remove.
  - by apply simulates_begin.
  - by apply simulates_next.
Qed.
End simulation.

(** ** The sets *)
(** C29: from the start of the program, any sequence of calls of [peers.h], all of its
    functions, returns what the same calls on finite sets return, and leaves the lists sorted,
    within the capacity and without duplicates. The iterator of a list goes through its
    elements from the least to the greatest, also when others are added or removed meanwhile;
    a write of the addresses stores those that fit in the size given, in order, and succeeds
    when they fill it. A call with an id that was not created is undefined, as is the use of
    an iterator at the end, or after its element was removed or its list overwritten. *)
Theorem peer_lists_are_sets `{Host} (os : list Op) :
  Forall op_ok os →
  match spec_ops os [] with
  | Some (rs, v) => ∃ p, run_ops os no_peers = Ret (rs, p) ∧ view p = v ∧ peers_ok p
  | None => run_ops os no_peers = Fail Undef
  end.
Proof.
  intros Hos. change [] with (view no_peers). generalize no_peers_ok. generalize no_peers.
  induction Hos as [|o os Ho Hos IH]; intros p Hp; simpl; [eauto|].
  pose proof (simulates_op o p Hp Ho) as Hsim. unfold simulates in Hsim.
  unfold mbind, M_bind. simpl. destruct (spec_op o (view p)) as [[r v]|]; simpl.
  - destruct Hsim as (p' & -> & <- & Hp'). specialize (IH p' Hp').
    destruct (spec_ops os (view p')) as [[rs v']|]; simpl.
    + destruct IH as (p'' & -> & Hv & Hok). eauto.
    + by rewrite IH.
  - by rewrite Hsim.
Qed.

(** All calls; the buffer of 14 bytes is larger than the one record that is left. The iterator
    of list 0 stands at [a] when [c] is added behind it and [b] removed before it. *)
Lemma peer_lists_are_sets_witness :
  let a := {| s_addr := 1; sin_port := 2 |} in let b := {| s_addr := 0; sin_port := 7 |} in
  let c := {| s_addr := 1; sin_port := 3 |} in
  ∃ p, run_ops (H:=false)
         [Create; Add 0 a; Add 0 b; Add 0 a; Contains 0 b; CountExcl 0 [b] b; WriteToBufExcl 0 7 [b] b;
          WriteToBufExcl 0 14 [b] b; Create; Cpy 0 1; IteratorBegin 0; IteratorNext 0; IteratorGetPeer 0; Add 0 c;
          Remove 0 b; IteratorNext 0; IteratorGetPeer 0; IteratorNext 0; Count 0; Full 0; Contains 1 b] no_peers =
       Ret ([Number 0; Number 1; Number 1; Number 0; Truth true; Number 1; Written [4; 1; 0; 0; 0; 2; 0] true;
             Written [4; 1; 0; 0; 0; 2; 0] false; Number 1; Done; Truth true; Truth true; Address a; Number 1;
             Done; Truth true; Address c; Truth false; Number 2; Truth false; Truth true], p)
       ∧ view p = [{| members := {[a; c]}; position := None |}; {| members := {[a; b]}; position := None |}] ∧ peers_ok p.
Proof.
  intros a b c.
  pose proof (peer_lists_are_sets (H:=false)
    [Create; Add 0 a; Add 0 b; Add 0 a; Contains 0 b; CountExcl 0 [b] b; WriteToBufExcl 0 7 [b] b;
     WriteToBufExcl 0 14 [b] b; Create; Cpy 0 1; IteratorBegin 0; IteratorNext 0; IteratorGetPeer 0; Add 0 c;
     Remove 0 b; IteratorNext 0; IteratorGetPeer 0; IteratorNext 0; Count 0; Full 0; Contains 1 b]) as H.
  destruct H as (p & Hr & Hv & Hp).
  - repeat constructor; done.
  - exists p. split; [exact Hr|]. split; [|exact Hp]. rewrite Hv. vm_compute. reflexivity.
Defined.
