(* ===== verification/Node.v ===== *)
(** * A node of peer-time-sync ([node_data.h], [clock.c], [messages.c], [main.c])

    [World] is the state of the process: the [NodeData] of [main], the globals of [peers.cpp]
    and of [messages.c], [errno], and what the node has sent and written to [stderr]. Message
    buffers are lists of bytes. The model is that of the release build, where [LOG] is empty. *)
From Stdlib Require Import String.
From S2P Require Import Prelude CString Err Wire Peers.

Record timespec := { tv_sec : Z; tv_nsec : Z }.

Definition CLOCK_UNSYNCHRONIZED : Z := 255.
Definition CLOCK_LEADER : Z := 0.

Definition HELLO : Z := 1.
Definition HELLO_REPLY : Z := 2.
Definition CONNECT : Z := 3.
Definition ACK_CONNECT : Z := 4.
Definition SYNC_START : Z := 11.
Definition DELAY_REQUEST : Z := 12.
Definition DELAY_RESPONSE : Z := 13.
Definition LEADER : Z := 21.
Definition GET_TIME : Z := 31.
Definition TIME : Z := 32.

Definition MESSAGE_SIZE : Z := 1.
Definition COUNT_SIZE : Z := 2.
Definition PEER_ADDRESS_LENGTH_SIZE : Z := 1.
Definition PEER_ADDRESS_SIZE : Z := 4.
Definition PEER_PORT_SIZE : Z := 2.
Definition TIMESTAMP_SIZE : Z := 8.
Definition SYNCHRONIZED_SIZE : Z := 1.

Definition LEADER_SYNCHRONIZATION_DELAY : Z := 2.
Definition SYNCHRONIZATION_CHECK_DELAY : Z := 20.
Definition DELAY_RESPONSE_TIME : Z := 5.
Definition SYNC_START_DELAY : Z := 5.
Definition BUFFER_SIZE : Z := 65536.

(** The array [my_addresses] with its size is a list; the peer lists are their ids. *)
Record NodeData := {
  my_addresses : list sockaddr_in;
  known_peer : sockaddr_in;
  peer_list : nat;
  waiting_for_hello_reply : bool;
  waiting_for_ack_connect : nat;
  sync_level : Z;
  offset_ms : Z;
  synchronized_peer : sockaddr_in;
  next_sync_start : timespec;
  next_sync_check : timespec;
  last_sync_start : Z;
  asked_to_synchronize : nat;
  synchronizing : bool;
  synchronizing_level : Z;
  peer_to_sync : sockaddr_in;
  waiting_for_delay_response : timespec;
  T1 : Z;
  T2 : Z;
  T3 : Z;
  T4 : Z }.
#[export] Instance eta_NodeData : Eta NodeData := λ n,
  {| my_addresses := my_addresses n; known_peer := known_peer n; peer_list := peer_list n;
     waiting_for_hello_reply := waiting_for_hello_reply n;
     waiting_for_ack_connect := waiting_for_ack_connect n; sync_level := sync_level n;
     offset_ms := offset_ms n; synchronized_peer := synchronized_peer n;
     next_sync_start := next_sync_start n; next_sync_check := next_sync_check n;
     last_sync_start := last_sync_start n; asked_to_synchronize := asked_to_synchronize n;
     synchronizing := synchronizing n; synchronizing_level := synchronizing_level n;
     peer_to_sync := peer_to_sync n; waiting_for_delay_response := waiting_for_delay_response n;
     T1 := T1 n; T2 := T2 n; T3 := T3 n; T4 := T4 n |}.

Record World := {
  node : NodeData;
  peers : Peers;
  send_buffer : list Z;
  start_time : timespec;
  clock_reads : nat;                    (* how often the clock was read *)
  sent : list (sockaddr_in * list Z);   (* the calls of [sendto], in order *)
  errno : Z;
  stderr : list str }.                  (* what each call of [error] and [error_msg_hex] wrote *)
#[export] Instance eta_World : Eta World := λ w,
  {| node := node w; peers := peers w; send_buffer := send_buffer w; start_time := start_time w;
     clock_reads := clock_reads w; sent := sent w; errno := errno w; stderr := stderr w |}.

Abbreviation WM := (M World).

(** The result of a call of [sendto], and its [errno] when the result is negative; the calls
    before it are given. *)
Class Udp := sendto : list (sockaddr_in * list Z) → sockaddr_in → list Z → Z * Z.

Definition get_node : WM NodeData := w ← get_state; mret (node w).
Definition set_node (f : NodeData → NodeData) : WM unit := modify (λ w, w <| node ::= f |>).
(** A function of [peers.cpp]. *)
Definition with_peers {A} (m : M Peers A) : WM A := λ w,
  match m (peers w) with Ret (a, p) => Ret (a, w <| peers := p |>) | Fail f => Fail f end.
(** Signed 64-bit arithmetic: undefined when it overflows. *)
Definition signed64 (z : Z) : WM Z := if in_sb 64 z then mret z else fail Undef.

(** ** [err.c] *)
Definition error `{Libc} (fmt : str) (args : list PrintfArg) : WM unit :=
  w ← get_state;
  text ← from_opt Undef (NodeErr.error_text (errno w) fmt args);
  modify (λ w, w <| stderr ::= λ l, l ++ [text] |>).
Definition error_msg_hex (msg_buffer : option (list Z)) (msg_len : Z) : WM unit :=
  modify (λ w, w <| stderr ::= λ l, l ++ [NodeErr.error_msg_hex_text msg_buffer msg_len] |>).
(** [error_msg_hex(msg_buf, buf_len)] in a handler. *)
Definition bad_message (msg_buf : list Z) : WM unit := error_msg_hex (Some msg_buf) (Z.of_nat (length msg_buf)).

(** ** [clock.c] *)
Definition check_order (ts_before ts_after : timespec) : bool :=
  (tv_sec ts_before <? tv_sec ts_after) ||
  ((tv_sec ts_before =? tv_sec ts_after) && (tv_nsec ts_before <? tv_nsec ts_after)).

Section environment.
Context `{Host} `{libc : Libc} `{udp : Udp}.
(** The result of the [n]-th read of [CLOCK_MONOTONIC], [None] for an error. *)
Context (clock : nat → option timespec).

Definition clock_gettime : WM timespec :=
  w ← get_state;
  _ ← modify (λ w, w <| clock_reads ::= S |>);
  from_opt Exit (clock (clock_reads w)).

Definition clock_init : WM unit := t ← clock_gettime; modify (λ w, w <| start_time := t |>).

(** The division of [long] truncates; the result becomes a [uint64_t]. *)
Definition get_natural_clock : WM Z :=
  current_time ← clock_gettime;
  w ← get_state;
  dsec ← signed64 (tv_sec current_time - tv_sec (start_time w));
  ms ← signed64 (dsec * 1000);
  dnsec ← signed64 (tv_nsec current_time - tv_nsec (start_time w));
  elapsed_time ← signed64 (ms + Z.quot dnsec 1000000);
  mret (wrap 64 elapsed_time).

Definition get_clock : WM Z :=
  natural ← get_natural_clock;
  let natural_time := swrap 64 natural in
  n ← get_node;
  if sync_level n =? CLOCK_UNSYNCHRONIZED then mret (wrap 64 natural_time)
  else if offset_ms n <=? natural_time then
    d ← signed64 (natural_time - offset_ms n); mret (wrap 64 d)
  else mret 0.

(** The [timespec] that [set_event_in_x_seconds] stores. *)
Definition event_in_x_seconds (x : Z) : WM timespec :=
  ts ← clock_gettime;
  s ← signed64 (tv_sec ts + x);
  mret {| tv_sec := s; tv_nsec := tv_nsec ts |}.

Definition now_is_after (ts1 : timespec) : WM bool :=
  current_time ← clock_gettime; mret (check_order ts1 current_time).

Definition update_offset : WM unit :=
  n ← get_node;
  a ← signed64 (swrap 64 (T2 n) - swrap 64 (T1 n));
  b ← signed64 (a + swrap 64 (T3 n));
  c ← signed64 (b - swrap 64 (T4 n));
  set_node (λ n, n <| offset_ms := Z.quot c 2 |>).

(** ** [messages.c]: messages to send *)

(** [memcpy] to [send_buffer]: undefined when it overruns the array. *)
Definition write_send_buffer (pos : Z) (bytes : list Z) : WM unit :=
  w ← get_state;
  if (0 <=? pos) && (pos + Z.of_nat (length bytes) <=? Z.of_nat (length (send_buffer w)))
  then modify (λ w, w <| send_buffer ::= λ b,
         take (Z.to_nat pos) b ++ bytes ++ drop (Z.to_nat pos + length bytes) b |>)
  else fail Undef.

Definition create_simple_message (message_type : Z) : WM Z :=
  _ ← write_send_buffer 0 [message_type]; mret MESSAGE_SIZE.

Definition create_sync_level_and_timestamp_message (message_type level timestamp : Z) : WM Z :=
  _ ← write_send_buffer 0 [message_type];
  _ ← write_send_buffer MESSAGE_SIZE [level];
  let network_ts := htonll timestamp in
  _ ← write_send_buffer (MESSAGE_SIZE + SYNCHRONIZED_SIZE) (store 8 network_ts);
  mret (MESSAGE_SIZE + SYNCHRONIZED_SIZE + TIMESTAMP_SIZE).

Definition create_hello_message : WM Z := create_simple_message HELLO.

(** The length of the message, or 0. [count * 7] is an [int]; it cannot overflow. *)
Definition create_hello_reply_message (list_id : nat) (src_addr_arr : list sockaddr_in)
    (dest_addr : sockaddr_in) : WM Z :=
  _ ← write_send_buffer 0 [HELLO_REPLY];
  count ← with_peers (peer_list_count_excl list_id src_addr_arr dest_addr);
  let network_count := htons count in
  _ ← write_send_buffer MESSAGE_SIZE (store 2 network_count);
  let peers_list_size := count * (PEER_ADDRESS_LENGTH_SIZE + PEER_ADDRESS_SIZE + PEER_PORT_SIZE) in
  if BUFFER_SIZE <=? MESSAGE_SIZE + COUNT_SIZE + peers_list_size then mret 0
  else
    '(bytes, ok) ← with_peers (peer_list_write_to_buf_excl list_id peers_list_size src_addr_arr dest_addr);
    _ ← write_send_buffer (MESSAGE_SIZE + COUNT_SIZE) bytes;
    if negb (ok : bool) then _ ← error (lit "Incorrect HELLO_REPLY message created") []; mret 0
    else mret (MESSAGE_SIZE + COUNT_SIZE + peers_list_size).

Definition create_connect_message : WM Z := create_simple_message CONNECT.
Definition create_ack_connect_message : WM Z := create_simple_message ACK_CONNECT.
Definition create_sync_start_message (level timestamp : Z) : WM Z :=
  create_sync_level_and_timestamp_message SYNC_START level timestamp.
Definition create_delay_request_message : WM Z := create_simple_message DELAY_REQUEST.
Definition create_delay_response_message (level timestamp : Z) : WM Z :=
  create_sync_level_and_timestamp_message DELAY_RESPONSE level timestamp.
Definition create_time_message (level timestamp : Z) : WM Z :=
  create_sync_level_and_timestamp_message TIME level timestamp.

(** [sendto] is given the first bytes of [send_buffer]; its failures are only reported. *)
Definition send_message (message_type msg_length : Z) (dest_addr : sockaddr_in) : WM unit :=
  w ← get_state;
  let bytes := take (Z.to_nat msg_length) (send_buffer w) in
  let '(sent_length, failure) := sendto (sent w) dest_addr bytes in
  _ ← modify (λ w, w <| sent ::= λ l, l ++ [(dest_addr, bytes)] |>);
  if sent_length <? 0 then
    _ ← modify (λ w, w <| errno := failure |>);
    error (lit "Failed to send a message of type %u") [AInt message_type]
  else if negb (sent_length =? msg_length) then error (lit "Incomplete message of type %u sent") [AInt message_type]
  else mret tt.

(** ** [messages.c]: handlers *)
Definition list_contains (list_id : nat) (a : sockaddr_in) : WM bool := with_peers (peer_list_contains list_id a).
Definition list_add (list_id : nat) (a : sockaddr_in) : WM Z := with_peers (peer_list_add list_id a).
Definition list_full (list_id : nat) : WM bool := with_peers (peer_list_full list_id).

(** [msg_buf[i]], and [memcpy] of [len] bytes from it. *)
Definition msg_byte (msg_buf : list Z) (i : Z) : WM Z := from_opt Undef (msg_buf !! Z.to_nat i).
Definition msg_bytes (msg_buf : list Z) (i len : Z) : WM (list Z) :=
  if i + len <=? Z.of_nat (length msg_buf) then mret (take (Z.to_nat len) (drop (Z.to_nat i) msg_buf)) else fail Undef.
Definition msg_timestamp (msg_buf : list Z) : WM Z :=
  bytes ← msg_bytes msg_buf (MESSAGE_SIZE + SYNCHRONIZED_SIZE) TIMESTAMP_SIZE; mret (ntohll (load bytes)).
Definition msg_count (msg_buf : list Z) : WM Z :=
  bytes ← msg_bytes msg_buf MESSAGE_SIZE COUNT_SIZE; mret (ntohs (load bytes)).

Definition handle_hello (msg_buf : list Z) (sender_addr : sockaddr_in) : WM unit :=
  n ← get_node;
  if negb (Z.of_nat (length msg_buf) =? MESSAGE_SIZE) then bad_message msg_buf
  else if address_in_array sender_addr (my_addresses n) then bad_message msg_buf
  else
    msg_length ← create_hello_reply_message (peer_list n) (my_addresses n) sender_addr;
    if 0 <? msg_length then
      added ← list_add (peer_list n) sender_addr;
      if 0 <=? added then send_message HELLO_REPLY msg_length sender_addr else bad_message msg_buf
    else bad_message msg_buf.

(** One record of the list of peers: its length byte, the address, and what follows. *)
Definition read_peer (buf : list Z) : option (Z * sockaddr_in * list Z) :=
  match buf with
  | len :: a0 :: a1 :: a2 :: a3 :: p0 :: p1 :: rest =>
      Some (len, {| s_addr := load [a0; a1; a2; a3]; sin_port := load [p0; p1] |}, rest)
  | _ => None
  end.
Fixpoint check_peers (n : NodeData) (sender_addr : sockaddr_in) (count : nat) (buf : list Z) : outcome bool :=
  match count with
  | O => Ret true
  | S count' =>
      '(address_length, peer_address, rest) ← from_option_or Undef (read_peer buf);
      if negb (address_length =? PEER_ADDRESS_SIZE) then Ret false
      else if sin_port peer_address =? 0 then Ret false
      else if equal_addr peer_address sender_addr || address_in_array peer_address (my_addresses n) then Ret false
      else check_peers n sender_addr count' rest
  end.
Definition check_hello_reply (msg_buf : list Z) (sender_addr : sockaddr_in) : WM bool :=
  n ← get_node;
  if negb (waiting_for_hello_reply n) || negb (equal_addr sender_addr (known_peer n)) then mret false
  else if address_in_array sender_addr (my_addresses n) then mret false
  else if Z.of_nat (length msg_buf) <? MESSAGE_SIZE + COUNT_SIZE then mret false
  else
    count ← msg_count msg_buf;
    if negb (Z.of_nat (length msg_buf) =?
             MESSAGE_SIZE + COUNT_SIZE + count * (PEER_ADDRESS_LENGTH_SIZE + PEER_ADDRESS_SIZE + PEER_PORT_SIZE))
    then mret false
    else lift_outcome (check_peers n sender_addr (Z.to_nat count) (drop 3 msg_buf)).

Fixpoint connect_peers (count : nat) (buf : list Z) : WM unit :=
  match count with
  | O => mret tt
  | S count' =>
      '(_, peer_address, rest) ← from_opt Undef (read_peer buf);
      n ← get_node;
      _ ← list_add (waiting_for_ack_connect n) peer_address;
      msg_length ← create_connect_message;
      _ ← send_message CONNECT msg_length peer_address;
      connect_peers count' rest
  end.
Definition handle_hello_reply (msg_buf : list Z) (sender_addr : sockaddr_in) : WM unit :=
  ok ← check_hello_reply msg_buf sender_addr;
  if negb (ok : bool) then bad_message msg_buf
  else
    _ ← set_node (λ n, n <| waiting_for_hello_reply := false |>);
    count ← msg_count msg_buf;
    _ ← connect_peers (Z.to_nat count) (drop 3 msg_buf);
    n ← get_node;
    _ ← list_add (peer_list n) sender_addr;
    mret tt.

Definition handle_connect (msg_buf : list Z) (sender_addr : sockaddr_in) : WM unit :=
  n ← get_node;
  if negb (Z.of_nat (length msg_buf) =? MESSAGE_SIZE) then bad_message msg_buf
  else
    full ← list_full (peer_list n);
    known ← list_contains (peer_list n) sender_addr;
    if (full : bool) && negb known then bad_message msg_buf
    else if address_in_array sender_addr (my_addresses n) then bad_message msg_buf
    else
      msg_length ← create_ack_connect_message;
      _ ← send_message ACK_CONNECT msg_length sender_addr;
      _ ← list_add (peer_list n) sender_addr;
      mret tt.

Definition handle_ack_connect (msg_buf : list Z) (sender_addr : sockaddr_in) : WM unit :=
  n ← get_node;
  if negb (Z.of_nat (length msg_buf) =? MESSAGE_SIZE) then bad_message msg_buf
  else
    expected ← list_contains (waiting_for_ack_connect n) sender_addr;
    if negb (expected : bool) then bad_message msg_buf
    else
      full ← list_full (peer_list n);
      known ← list_contains (peer_list n) sender_addr;
      if (full : bool) && negb known then bad_message msg_buf
      else if address_in_array sender_addr (my_addresses n) then bad_message msg_buf
      else
        _ ← with_peers (peer_list_remove (waiting_for_ack_connect n) sender_addr);
        _ ← list_add (peer_list n) sender_addr;
        mret tt.

Definition check_sync_start (msg_buf : list Z) (sender_addr : sockaddr_in) : WM bool :=
  n ← get_node;
  if negb (Z.of_nat (length msg_buf) =? MESSAGE_SIZE + SYNCHRONIZED_SIZE + TIMESTAMP_SIZE) then mret false
  else
    sender_sync_level ← msg_byte msg_buf MESSAGE_SIZE;
    sender_is_known ← list_contains (peer_list n) sender_addr;
    if (CLOCK_UNSYNCHRONIZED - 1 <=? sender_sync_level) || negb (sender_is_known : bool) then mret false
    else mret true.

(** The part of [handle_sync_start] after its last test. *)
Definition start_synchronization (sender_sync_level sender_timestamp receive_time : Z) (sender_addr : sockaddr_in) : WM unit :=
  _ ← set_node (λ n, n <| synchronizing := true |> <| synchronizing_level := sender_sync_level |>
                       <| T1 := sender_timestamp |> <| T2 := receive_time |> <| peer_to_sync := sender_addr |>);
  msg_length ← create_delay_request_message;
  t3 ← get_natural_clock;
  _ ← set_node (λ n, n <| T3 := t3 |>);
  _ ← send_message DELAY_REQUEST msg_length sender_addr;
  ts ← event_in_x_seconds DELAY_RESPONSE_TIME;
  set_node (λ n, n <| waiting_for_delay_response := ts |>).

Definition handle_sync_start (msg_buf : list Z) (sender_addr : sockaddr_in) : WM unit :=
  receive_time ← get_natural_clock;
  ok ← check_sync_start msg_buf sender_addr;
  if negb (ok : bool) then bad_message msg_buf
  else
    n ← get_node;
    if synchronizing n then mret tt
    else
      sender_sync_level ← msg_byte msg_buf MESSAGE_SIZE;
      sender_timestamp ← msg_timestamp msg_buf;
      let synchronized_to_sender :=
        (sync_level n <? CLOCK_UNSYNCHRONIZED) && equal_addr sender_addr (synchronized_peer n) in
      if synchronized_to_sender then
        if sync_level n <=? sender_sync_level then
          set_node (λ n, n <| sync_level := CLOCK_UNSYNCHRONIZED |> <| offset_ms := 0 |>)
        else
          ts ← event_in_x_seconds SYNCHRONIZATION_CHECK_DELAY;
          _ ← set_node (λ n, n <| next_sync_check := ts |>);
          start_synchronization sender_sync_level sender_timestamp receive_time sender_addr
      else if sync_level n <=? sender_sync_level + 1 then mret tt
      else start_synchronization sender_sync_level sender_timestamp receive_time sender_addr.

Definition handle_delay_request (msg_buf : list Z) (sender_addr : sockaddr_in) : WM unit :=
  synchronized_receive_time ← get_clock;
  receive_time ← get_natural_clock;
  n ← get_node;
  if negb (Z.of_nat (length msg_buf) =? MESSAGE_SIZE) then bad_message msg_buf
  else
    asked ← list_contains (asked_to_synchronize n) sender_addr;
    if negb (asked : bool) || (wrap 64 (last_sync_start n + DELAY_RESPONSE_TIME) <? receive_time) then bad_message msg_buf
    else
      msg_length ← create_delay_response_message (sync_level n) synchronized_receive_time;
      send_message DELAY_RESPONSE msg_length sender_addr.

(** The part of [handle_delay_response] after the timer of [SYNC_START] was set. *)
Definition finish_synchronization (sender_sync_level : Z) (sender_addr : sockaddr_in) : WM unit :=
  _ ← set_node (λ n, n <| sync_level := wrap 8 (sender_sync_level + 1) |>);
  _ ← update_offset;
  _ ← set_node (λ n, n <| synchronized_peer := sender_addr |>);
  ts ← event_in_x_seconds SYNCHRONIZATION_CHECK_DELAY;
  set_node (λ n, n <| next_sync_check := ts |> <| synchronizing := false |>).

Definition handle_delay_response (msg_buf : list Z) (sender_addr : sockaddr_in) : WM unit :=
  n ← get_node;
  if negb (Z.of_nat (length msg_buf) =? MESSAGE_SIZE + SYNCHRONIZED_SIZE + TIMESTAMP_SIZE) then bad_message msg_buf
  else if negb (synchronizing n) || negb (equal_addr sender_addr (peer_to_sync n)) then bad_message msg_buf
  else
    sender_sync_level ← msg_byte msg_buf MESSAGE_SIZE;
    sender_timestamp ← msg_timestamp msg_buf;
    if negb (sender_sync_level =? synchronizing_level n) || (sender_timestamp <? T1 n) then bad_message msg_buf
    else
      _ ← set_node (λ n, n <| T4 := sender_timestamp |>);
      _ ← (if (CLOCK_UNSYNCHRONIZED - 1 <=? sync_level n) && (sender_sync_level + 1 <? CLOCK_UNSYNCHRONIZED - 1)
           then ts ← event_in_x_seconds 0; set_node (λ n, n <| next_sync_start := ts |>)
           else mret tt);
      finish_synchronization sender_sync_level sender_addr.

Definition handle_leader (msg_buf : list Z) (sender_addr : sockaddr_in) : WM unit :=
  if negb (Z.of_nat (length msg_buf) =? MESSAGE_SIZE + SYNCHRONIZED_SIZE) then bad_message msg_buf
  else
    msg_sync ← msg_byte msg_buf MESSAGE_SIZE;
    if msg_sync =? CLOCK_LEADER then
      _ ← set_node (λ n, n <| sync_level := CLOCK_LEADER |>);
      ts ← event_in_x_seconds LEADER_SYNCHRONIZATION_DELAY;
      set_node (λ n, n <| next_sync_start := ts |>)
    else if msg_sync =? CLOCK_UNSYNCHRONIZED then
      n ← get_node;
      if negb (sync_level n =? CLOCK_LEADER) then bad_message msg_buf
      else set_node (λ n, n <| sync_level := CLOCK_UNSYNCHRONIZED |>)
    else bad_message msg_buf.

Definition handle_get_time (msg_buf : list Z) (sender_addr : sockaddr_in) : WM unit :=
  n ← get_node;
  if negb (Z.of_nat (length msg_buf) =? MESSAGE_SIZE) then bad_message msg_buf
  else
    t ← get_clock;
    msg_length ← create_time_message (sync_level n) t;
    send_message TIME msg_length sender_addr.

Definition handle_message (msg_buf : list Z) (sender_addr : sockaddr_in) : WM unit :=
  message_type ← msg_byte msg_buf 0;
  if message_type =? HELLO then handle_hello msg_buf sender_addr
  else if message_type =? HELLO_REPLY then handle_hello_reply msg_buf sender_addr
  else if message_type =? CONNECT then handle_connect msg_buf sender_addr
  else if message_type =? ACK_CONNECT then handle_ack_connect msg_buf sender_addr
  else if message_type =? SYNC_START then handle_sync_start msg_buf sender_addr
  else if message_type =? DELAY_REQUEST then handle_delay_request msg_buf sender_addr
  else if message_type =? DELAY_RESPONSE then handle_delay_response msg_buf sender_addr
  else if message_type =? LEADER then handle_leader msg_buf sender_addr
  else if message_type =? GET_TIME then handle_get_time msg_buf sender_addr
  else bad_message msg_buf.

Definition send_hello_message : WM unit :=
  n ← get_node; msg_length ← create_hello_message; send_message HELLO msg_length (known_peer n).

(** The [do ... while] loop over the peers. *)
Fixpoint sync_start_loop (fuel : nat) : WM unit :=
  match fuel with
  | O => fail Diverge
  | S fuel' =>
      n ← get_node;
      peer_addr ← with_peers (peer_list_iterator_get_peer (peer_list n));
      t ← get_clock;
      msg_length ← create_sync_start_message (sync_level n) t;
      _ ← send_message SYNC_START msg_length peer_addr;
      more ← with_peers (peer_list_iterator_next (peer_list n));
      if (more : bool) then sync_start_loop fuel' else mret tt
  end.

(** What [check_and_handle_timers] does when [SYNC_START] is due. *)
Definition send_sync_starts (n : NodeData) : WM unit :=
  some ← with_peers (peer_list_iterator_begin (peer_list n));
  _ ← (if (some : bool) then
         l ← with_peers (get_list (peer_list n));
         _ ← sync_start_loop (length l);
         with_peers (peer_list_cpy (peer_list n) (asked_to_synchronize n))
       else mret tt);
  t ← get_natural_clock;
  _ ← set_node (λ n, n <| last_sync_start := t |>);
  ts ← event_in_x_seconds SYNC_START_DELAY;
  set_node (λ n, n <| next_sync_start := ts |>).

Definition check_and_handle_timers : WM unit :=
  n ← get_node;
  _ ← (if (CLOCK_LEADER <? sync_level n) && (sync_level n <? CLOCK_UNSYNCHRONIZED) then
         late ← now_is_after (next_sync_check n);
         if (late : bool) then set_node (λ n, n <| sync_level := CLOCK_UNSYNCHRONIZED |> <| offset_ms := 0 |>)
         else mret tt
       else mret tt);
  n ← get_node;
  if sync_level n <? CLOCK_UNSYNCHRONIZED - 1 then
    due ← now_is_after (next_sync_start n);
    if (due : bool) then send_sync_starts n else mret tt
  else mret tt.

(** ** [main.c] *)

(** What [recvfrom] gives: nothing within the timeout, an error, or a datagram. A timeout is
    the error [EAGAIN], which is cleared. *)
Inductive Received := RecvTimeout | RecvError (errno : Z) | Datagram (bytes : list Z) (sender : sockaddr_in).

(** What the main loop does after [recvfrom], and a turn of it. *)
Definition receive (r : Received) : WM unit :=
  match r with
  | RecvTimeout => modify (λ w, w <| errno := 0 |>)
  | RecvError e => _ ← modify (λ w, w <| errno := e |>); error (lit "recvfrom failed") []
  | Datagram [] _ => error_msg_hex None 0
  | Datagram bytes sender => handle_message bytes sender
  end.
Definition node_turn (r : Received) : WM unit := _ ← check_and_handle_timers; receive r.

(** *** [initialize_node_data] *)

(** An entry of the list of [getifaddrs]: the family and the IPv4 address of [ifa_addr], if it
    is not [NULL]. *)
Definition ifaddrs : Type := option (Z * Z).
Definition is_ipv4 (ifa : ifaddrs) : bool :=
  match ifa with Some (family, _) => family =? AF_INET | None => false end.
(** The first loop counts the IPv4 addresses, the second stores them from [idx] on; a store
    beyond the array is undefined. *)
Fixpoint count_ipv4 (l : list ifaddrs) (num : nat) : nat :=
  match l with [] => num | ifa :: l' => count_ipv4 l' (if is_ipv4 ifa then S num else num) end.
Fixpoint store_ipv4 (port : Z) (l : list ifaddrs) (idx : nat) (arr : list sockaddr_in) : outcome (list sockaddr_in) :=
  match l with
  | [] => Ret arr
  | Some (family, a) :: l' =>
      if family =? AF_INET then
        if (idx <? length arr)%nat
        then store_ipv4 port l' (S idx) (<[idx := {| s_addr := a; sin_port := htons port |}]> arr)
        else Fail Undef
      else store_ipv4 port l' idx arr
  | None :: l' => store_ipv4 port l' idx arr
  end.

(** What the environment gives: the list of [getifaddrs] or an error, whether [malloc]
    succeeds, and what the block it gives holds. *)
Record Setup := { getifaddrs : option (list ifaddrs); malloc : bool; garbage : sockaddr_in }.

Definition find_my_addresses (e : Setup) (bound : bool) (listen_address : sockaddr_in) (port : Z) :
    outcome (list sockaddr_in) :=
  if bound then
    if malloc e then Ret [{| s_addr := s_addr listen_address; sin_port := htons port |}] else Fail Undef
  else
    ifaddr ← from_option_or Exit (getifaddrs e);
    let num_my_addresses := count_ipv4 ifaddr 0 in
    if (num_my_addresses =? 0)%nat then Ret []
    else if malloc e then store_ipv4 port ifaddr 0 (replicate num_my_addresses (garbage e))
    else Fail Exit.

(** [bound]: a bind address was given. The other fields keep what memory held. *)
Definition initialize_node_data (e : Setup) (bound : bool) (listen_address : sockaddr_in) (port : Z) : WM unit :=
  pl ← with_peers peer_list_create;
  wa ← with_peers peer_list_create;
  ats ← with_peers peer_list_create;
  _ ← set_node (λ n, n <| my_addresses := [] |> <| peer_list := pl |> <| waiting_for_hello_reply := false |>
    <| waiting_for_ack_connect := wa |> <| sync_level := CLOCK_UNSYNCHRONIZED |> <| offset_ms := 0 |>
    <| last_sync_start := 0 |> <| synchronizing := false |> <| asked_to_synchronize := ats |>);
  own ← lift_outcome (find_my_addresses e bound listen_address port);
  set_node (λ n, n <| my_addresses := own |>).

(** [main] up to its loop; [peer] is the address of the arguments [-a] and [-r]. *)
Definition node_main_start (e : Setup) (bound : bool) (listen_address : sockaddr_in) (port : Z)
    (peer : option sockaddr_in) : WM unit :=
  _ ← clock_init;
  _ ← initialize_node_data e bound listen_address port;
  match peer with
  | None => mret tt
  | Some peer_address =>
      _ ← set_node (λ n, n <| waiting_for_hello_reply := true |>);
      _ ← set_node (λ n, n <| known_peer := peer_address |>);
      send_hello_message
  end.

(** The main loop, for what [recvfrom] gives in the turns. *)
Fixpoint node_loop (rs : list Received) : WM unit :=
  match rs with [] => mret tt | r :: rs' => _ ← node_turn r; node_loop rs' end.
End environment.
