(* ===== verification/NodeSpec.v ===== *)
(** * How each operation of a node runs

    For the functions of [clock.c] and [messages.c] that handlers are made of: from a sound
    state they return, or the process exits because the clock could not be read, and what
    they do to the state. [Monotonic] is what the kernel documents of [CLOCK_MONOTONIC]. *)
From Stdlib Require Import Ascii String.
From S2P Require Import Prelude CString Err Wire Peers PeerSets Node.

(** ** Times *)
Definition nanos (t : timespec) : Z := tv_sec t * 1000000000 + tv_nsec t.
Definition timespec_ok (t : timespec) : Prop := 0 ≤ tv_sec t < 2 ^ 40 ∧ 0 ≤ tv_nsec t < 1000000000.
Definition elapsed (from to : timespec) : Z :=
  (tv_sec to - tv_sec from) * 1000 + Z.quot (tv_nsec to - tv_nsec from) 1000000.
Definition later (x : Z) (t : timespec) : timespec := {| tv_sec := tv_sec t + x; tv_nsec := tv_nsec t |}.

Class Monotonic (clock : nat → option timespec) : Prop := {
  monotonic_range k t : clock k = Some t → timespec_ok t;
  monotonic_order j k t u : (j ≤ k)%nat → clock j = Some t → clock k = Some u → nanos t ≤ nanos u }.

Lemma quot_bounds d : -1000000000 < d < 1000000000 →
  let q := Z.quot d 1000000 in
  (0 ≤ d → q * 1000000 ≤ d < q * 1000000 + 1000000 ∧ 0 ≤ q) ∧
  (d ≤ 0 → q * 1000000 - 1000000 < d ≤ q * 1000000 ∧ q ≤ 0) ∧ -1000 < q < 1000.
Proof.
  intros Hd q. unfold q. Z.to_euclidean_division_equations. lia.
Qed.

Lemma check_order_nanos t u :
  timespec_ok t → timespec_ok u → check_order t u = (nanos t <? nanos u).
Proof.
  intros [_ Ht] [_ Hu]. unfold check_order, nanos. apply eq_true_iff_eq.
  rewrite orb_true_iff, andb_true_iff, !Z.ltb_lt, Z.eqb_eq. lia.
Qed.

Lemma elapsed_accurate s t :
  timespec_ok s → timespec_ok t → Z.abs (elapsed s t * 1000000 - (nanos t - nanos s)) < 1000000.
Proof.
  intros [Hs Hs'] [Ht Ht']. unfold elapsed, nanos.
  pose proof (quot_bounds (tv_nsec t - tv_nsec s) ltac:(lia)) as Hq. cbv zeta in Hq. lia.
Qed.

Lemma elapsed_mono s t u :
  timespec_ok s → timespec_ok t → timespec_ok u → nanos t ≤ nanos u → elapsed s t ≤ elapsed s u.
Proof.
  intros [Hs Hs'] [Ht Ht'] [Hu Hu'] Hle. unfold elapsed. unfold nanos in Hle.
  pose proof (quot_bounds (tv_nsec t - tv_nsec s) ltac:(lia)) as Hq.
  pose proof (quot_bounds (tv_nsec u - tv_nsec s) ltac:(lia)) as Hr. cbv zeta in Hq, Hr. lia.
Qed.

Lemma elapsed_range s t :
  timespec_ok s → timespec_ok t → nanos s ≤ nanos t → 0 ≤ elapsed s t < 2 ^ 50.
Proof.
  intros [Hs Hs'] [Ht Ht'] Hle. unfold elapsed. unfold nanos in Hle.
  pose proof (quot_bounds (tv_nsec t - tv_nsec s) ltac:(lia)) as Hq. cbv zeta in Hq. lia.
Qed.

(** ** Rules for the operations of a node *)
Definition tick (w : World) : World := w <| clock_reads ::= S |>.

Lemma signed64_small z : in_s 64 z → signed64 z = mret z.
Proof. intros Hz. unfold signed64. by rewrite (proj2 (in_sb_spec 64 z) Hz). Qed.

(** The one reason a running node has to exit: a read of the clock fails. *)
Definition clock_exit (clock : nat → option timespec) (f : failure) : Prop := f = Exit ∧ ∃ n, clock n = None.

(** Operations without a failure of their own. *)
Section plain_rules.
Context {E : failure → Prop}.

Lemma wp_get_node (Q : NodeData → World → Prop) w : Q (node w) w → wp E get_node Q w.
Proof. done. Qed.
Lemma wp_set_node f (Q : unit → World → Prop) w : Q tt (w <| node ::= f |>) → wp E (set_node f) Q w.
Proof. done. Qed.
Lemma wp_signed64 z (Q : Z → World → Prop) w : in_s 64 z → Q z w → wp E (signed64 z) Q w.
Proof. intros Hz HQ. by rewrite signed64_small. Qed.

Lemma wp_with_peers {A} (m : M Peers A) (Q : A → World → Prop) w a p :
  m (peers w) = Ret (a, p) → Q a (w <| peers := p |>) → wp E (with_peers m) Q w.
Proof. intros Hm HQ. unfold wp, with_peers. by rewrite Hm. Qed.

(** A call that only reads. *)
Lemma wp_peers_read {A} (m : M Peers A) (Q : A → World → Prop) w a :
  m (peers w) = Ret (a, peers w) → Q a w → wp E (with_peers m) Q w.
Proof. intros Hm HQ. eapply wp_with_peers; [exact Hm|]. by destruct w. Qed.
End plain_rules.

Section rules.
Context `{Host} (clock : nat → option timespec) `{Monotonic clock}.

(** The start time was read before every read still to come. *)
Record started (w : World) : Prop := {
  start_range : timespec_ok (start_time w);
  start_before k t : (clock_reads w ≤ k)%nat → clock k = Some t → nanos (start_time w) ≤ nanos t }.

Lemma started_tick w : started w → started (tick w).
Proof. intros [Hr Hb]. split; [done|]. intros k t Hk. apply Hb. simpl in Hk. lia. Qed.

Abbreviation wp' := (wp (clock_exit clock)).

Lemma wp_clock_gettime (Q : timespec → World → Prop) w :
  (∀ t, clock (clock_reads w) = Some t → timespec_ok t → Q t (tick w)) → wp' (clock_gettime clock) Q w.
Proof.
  intros HQ. unfold clock_gettime. wp_steps. apply wp_from_opt; [|intros Hnone; split; [done|by eexists]].
  intros t Ht. apply HQ; [done|]. by eapply monotonic_range.
Qed.

Lemma wp_get_natural_clock (Q : Z → World → Prop) w :
  started w →
  (∀ t, clock (clock_reads w) = Some t → timespec_ok t → nanos (start_time w) ≤ nanos t →
        0 ≤ elapsed (start_time w) t < 2 ^ 50 → Q (elapsed (start_time w) t) (tick w)) →
  wp' (get_natural_clock clock) Q w.
Proof.
  intros Hs HQ. unfold get_natural_clock. wp_step. apply wp_clock_gettime. intros t Ht Hok.
  pose proof (start_before w Hs _ t (le_n _) Ht) as Hle. pose proof (start_range w Hs) as Hr.
  pose proof (elapsed_range _ _ Hr Hok Hle) as He. specialize (HQ t Ht Hok Hle He).
  destruct Hr as [Hr1 Hr2], Hok as [Hk1 Hk2].
  pose proof (quot_bounds (tv_nsec t - tv_nsec (start_time w)) ltac:(lia)) as Hq. cbv zeta in Hq.
  repeat (wp_step || (apply wp_signed64; [unfold in_s; simpl; unfold elapsed in *; lia|])).
  change (start_time (tick w)) with (start_time w).
  rewrite wrap_small; [exact HQ|]. unfold in_u, elapsed in *. lia.
Qed.

(** The clock that others see. *)
Definition synchronized (level offset natural : Z) : Z :=
  if level =? CLOCK_UNSYNCHRONIZED then natural
  else if offset <=? natural then natural - offset else 0.

Lemma wp_get_clock (Q : Z → World → Prop) w :
  started w → - 2 ^ 62 ≤ offset_ms (node w) < 2 ^ 62 →
  (∀ t, clock (clock_reads w) = Some t → timespec_ok t → nanos (start_time w) ≤ nanos t →
        0 ≤ elapsed (start_time w) t < 2 ^ 50 →
        Q (synchronized (sync_level (node w)) (offset_ms (node w)) (elapsed (start_time w) t)) (tick w)) →
  wp' (get_clock clock) Q w.
Proof.
  intros Hs Ho HQ. unfold get_clock. wp_step. apply wp_get_natural_clock; [done|].
  intros t Ht Hok Hle He. specialize (HQ t Ht Hok Hle He). unfold synchronized in HQ.
  wp_step. apply wp_get_node.
  rewrite swrap_small by (unfold in_s; lia). change (node (tick w)) with (node w).
  destruct (sync_level (node w) =? CLOCK_UNSYNCHRONIZED).
  { wp_step. rewrite wrap_small; [exact HQ|unfold in_u; lia]. }
  destruct (offset_ms (node w) <=? _) eqn:Hoff; [apply Z.leb_le in Hoff|by apply wp_ret].
  wp_step. apply wp_signed64; [unfold in_s; lia|]. wp_step.
  rewrite wrap_small; [exact HQ|unfold in_u; lia].
Qed.

Lemma synchronized_range level offset natural :
  - 2 ^ 62 ≤ offset < 2 ^ 62 → 0 ≤ natural < 2 ^ 50 → 0 ≤ synchronized level offset natural < 2 ^ 63.
Proof. intros. unfold synchronized. destruct (_ =? _); [lia|]. destruct (Z.leb_spec offset natural); lia. Qed.

Lemma wp_event_in_x_seconds x (Q : timespec → World → Prop) w :
  0 ≤ x < 2 ^ 10 →
  (∀ t, clock (clock_reads w) = Some t → timespec_ok t → Q (later x t) (tick w)) →
  wp' (event_in_x_seconds clock x) Q w.
Proof.
  intros Hx HQ. unfold event_in_x_seconds. wp_step. apply wp_clock_gettime. intros t Ht Hok.
  wp_step. apply wp_signed64; [destruct Hok; unfold in_s; lia|]. wp_step. by apply HQ.
Qed.

Lemma wp_now_is_after ts (Q : bool → World → Prop) w :
  (∀ t, clock (clock_reads w) = Some t → timespec_ok t → Q (check_order ts t) (tick w)) →
  wp' (now_is_after clock ts) Q w.
Proof. intros HQ. unfold now_is_after. wp_step. apply wp_clock_gettime. intros t Ht Hok. wp_step. by apply HQ. Qed.
End rules.

(** ** Messages to send *)
Definition buffer_ok (w : World) : Prop := Z.of_nat (length (send_buffer w)) = BUFFER_SIZE.

Definition sync_bytes (message_type level timestamp : Z) : list Z := message_type :: level :: be_bytes 8 timestamp.

(** The lines for bad messages among those on [stderr]. *)
Definition bad_lines (w : World) : list str := List.filter is_msg_line (stderr w).
(** No such line was written. *)
Definition quiet (w w' : World) : Prop := bad_lines w' = bad_lines w.
Lemma quiet_refl w : quiet w w.
Proof. done. Qed.
Lemma quiet_trans w1 w2 w3 : quiet w1 w2 → quiet w2 w3 → quiet w1 w3.
Proof. unfold quiet. congruence. Qed.
Lemma quiet_same w w' : stderr w' = stderr w → quiet w w'.
Proof. unfold quiet, bad_lines. by intros ->. Qed.
#[export] Hint Resolve quiet_refl : wp_db.

Section messages.
Context `{Host} `{libc : Libc} `{udp : Udp} {E : failure → Prop}.
Abbreviation wp' := (wp E).

Definition hello_reply_bytes (listed : list sockaddr_in) : list Z :=
  HELLO_REPLY :: be_bytes 2 (Z.of_nat (length listed)) ++ flat_map peer_record listed.

Lemma length_peer_record a : length (peer_record a) = 7%nat.
Proof. unfold peer_record. simpl. by rewrite length_app, !length_store. Qed.
Lemma length_peer_records l : Z.of_nat (length (flat_map peer_record l)) = 7 * Z.of_nat (length l).
Proof.
  induction l as [|a l IH]; [done|]. cbn [flat_map]. rewrite length_app, length_peer_record.
  rewrite Nat2Z.inj_add, IH. simpl length. lia.
Qed.
Lemma length_hello_reply l : Z.of_nat (length (hello_reply_bytes l)) = 3 + 7 * Z.of_nat (length l).
Proof.
  unfold hello_reply_bytes. cbn [length]. rewrite length_app, length_be_bytes.
  pose proof (length_peer_records l). lia.
Qed.

Lemma wp_write_send_buffer pos bytes (Q : unit → World → Prop) w :
  0 ≤ pos → pos + Z.of_nat (length bytes) ≤ BUFFER_SIZE → buffer_ok w →
  (∀ b, Z.of_nat (length b) = BUFFER_SIZE →
        take (Z.to_nat pos + length bytes) b = take (Z.to_nat pos) (send_buffer w) ++ bytes →
        Q tt (w <| send_buffer := b |>)) →
  wp' (write_send_buffer pos bytes) Q w.
Proof.
  intros Hpos Hlen Hb HQ. unfold buffer_ok in Hb. unfold write_send_buffer. wp_step. wp_step.
  rewrite (proj2 (Z.leb_le _ _) Hpos), Hb, (proj2 (Z.leb_le _ _) Hlen). apply wp_modify, HQ.
  - rewrite !length_app, length_take, length_drop. lia.
  - rewrite app_assoc. rewrite take_app_le; rewrite ?length_app, ?length_take; [|lia].
    apply take_ge. rewrite length_app, length_take. lia.
Qed.

Lemma wp_create_simple_message ty (Q : Z → World → Prop) w :
  buffer_ok w →
  (∀ b, Z.of_nat (length b) = BUFFER_SIZE → take 1 b = [ty] → Q 1 (w <| send_buffer := b |>)) →
  wp' (create_simple_message ty) Q w.
Proof.
  intros Hb HQ. unfold create_simple_message. wp_step. apply wp_write_send_buffer; [done|done|done|].
  intros b Hlen Ht. wp_step. by apply HQ.
Qed.

Lemma wp_create_sync_message ty level ts (Q : Z → World → Prop) w :
  buffer_ok w → 0 ≤ ts < 2 ^ 64 →
  (∀ b, Z.of_nat (length b) = BUFFER_SIZE → take 10 b = sync_bytes ty level ts → Q 10 (w <| send_buffer := b |>)) →
  wp' (create_sync_level_and_timestamp_message ty level ts) Q w.
Proof.
  intros Hb Hts HQ. unfold create_sync_level_and_timestamp_message.
  wp_step. apply wp_write_send_buffer; [done|done|done|]. intros b1 Hl1 Ht1.
  wp_step. apply wp_write_send_buffer; [done|done|done|]. intros b2 Hl2 Ht2.
  wp_step. rewrite htonll_hton, store_hton by done.
  apply wp_write_send_buffer; [done|by rewrite length_be_bytes|done|]. intros b3 Hl3 Ht3.
  wp_step. change (MESSAGE_SIZE + SYNCHRONIZED_SIZE + TIMESTAMP_SIZE) with 10. apply (HQ b3); [done|].
  rewrite length_be_bytes in Ht3. change (Z.to_nat (MESSAGE_SIZE + SYNCHRONIZED_SIZE)) with 2%nat in Ht3.
  change (2 + 8)%nat with 10%nat in Ht3. change (take (Z.to_nat MESSAGE_SIZE + length [level]) b2) with (take 2 b2) in Ht2.
  rewrite Ht3. change (send_buffer (set_field send_buffer _ _)) with b2. rewrite Ht2.
  change (send_buffer (set_field send_buffer _ _)) with b1 in Ht2 |- *.
  change (take (Z.to_nat MESSAGE_SIZE) b1) with (take (Z.to_nat 0 + length [ty]) b1). by rewrite Ht1.
Qed.

Lemma write_loop_spec l src dest :
  write_loop l (7 * Z.of_nat (length (listed src dest l))) src dest = (flat_map peer_record (listed src dest l), true).
Proof.
  induction l as [|a l IH]; [done|]. cbn [write_loop]. rewrite listed_cons.
  destruct (is_src_addr a src); [exact IH|]. destruct (_ && _); [exact IH|].
  cbn [length]. unfold record_size. rewrite (proj2 (Z.ltb_ge _ _)) by lia.
  replace (7 * Z.of_nat (S (length (listed src dest l))) - 7) with (7 * Z.of_nat (length (listed src dest l))) by lia.
  by rewrite IH.
Qed.

Lemma wp_create_hello_reply_message list_id l src dest (Q : Z → World → Prop) w :
  buffer_ok w → peers_ok (peers w) → peer_lists (peers w) !! list_id = Some l →
  let ls := listed src dest l in
  (∀ b, Z.of_nat (length b) = BUFFER_SIZE →
        (9362 ≤ Z.of_nat (length ls) → Q 0 (w <| send_buffer := b |>)) ∧
        (Z.of_nat (length ls) < 9362 → take (length (hello_reply_bytes ls)) b = hello_reply_bytes ls →
         Q (Z.of_nat (length (hello_reply_bytes ls))) (w <| send_buffer := b |>))) →
  wp' (create_hello_reply_message list_id src dest) Q w.
Proof.
  intros Hb Hp Hl ls HQ. unfold create_hello_reply_message.
  assert (0 ≤ Z.of_nat (length ls) < 2 ^ 16) as Hls.
  { pose proof (length_listed src dest l) as Hle. pose proof (set_capacity _ (lists_ok_lookup _ _ _ Hl Hp)).
    unfold MAX_CAPACITY in *. fold ls in Hle. lia. }
  wp_step. apply wp_write_send_buffer; [done|done|done|]. intros b1 Hl1 Ht1.
  wp_step. eapply wp_peers_read; [by apply peer_list_count_excl_run|]. fold ls.
  wp_step. unfold htons. rewrite store_hton.
  apply wp_write_send_buffer; [done|by rewrite length_be_bytes|done|]. intros b2 Hl2 Ht2.
  assert (take 3 b2 = HELLO_REPLY :: be_bytes 2 (Z.of_nat (length ls))) as Hb2.
  { rewrite length_be_bytes in Ht2. change (take 3 b2 = [HELLO_REPLY] ++ be_bytes 2 (Z.of_nat (length ls))).
    change (Z.to_nat MESSAGE_SIZE + 2)%nat with 3%nat in Ht2. rewrite Ht2. f_equal. exact Ht1. }
  unfold MESSAGE_SIZE, COUNT_SIZE, PEER_ADDRESS_LENGTH_SIZE, PEER_ADDRESS_SIZE, PEER_PORT_SIZE, BUFFER_SIZE. cbv zeta.
  wp_step; [apply Z.leb_le in Hb0|apply Z.leb_gt in Hb0].
  { apply wp_ret. apply (HQ b2 Hl2). lia. }
  replace (Z.of_nat (length ls) * (1 + 4 + 2)) with (7 * Z.of_nat (length ls)) in * by lia.
  wp_step. eapply wp_peers_read.
  { unfold peer_list_write_to_buf_excl.
    rewrite (run_read _ _ _ Hl (λ l, write_loop l (7 * Z.of_nat (length ls)) src dest)).
    unfold ls. by rewrite write_loop_spec. }
  cbv iota. fold ls. wp_step. apply wp_write_send_buffer; [done|rewrite length_peer_records; unfold BUFFER_SIZE; fold ls; lia|done|].
  intros b3 Hl3 Ht3. change (negb true) with false. cbv iota. wp_step.
  pose proof (length_hello_reply ls) as Hlen. replace (1 + 2 + 7 * Z.of_nat (length ls)) with (Z.of_nat (length (hello_reply_bytes ls))) by lia.
  apply (HQ b3 Hl3); [lia|].
  replace (length (hello_reply_bytes ls)) with (Z.to_nat (1 + 2) + length (flat_map peer_record ls))%nat
    by (pose proof (length_peer_records ls); lia).
  rewrite Ht3. unfold hello_reply_bytes. rewrite app_comm_cons. f_equal. exact Hb2.
Qed.

(** What [error] writes is no line for a bad message, when its text does not begin with [MSG]. *)
Lemma wp_error fmt args t (Q : unit → World → Prop) w :
  vfprintf fmt args = Some t → (∀ s, is_msg_line (lit "ERROR " ++ t ++ s) = false) →
  (∀ l, List.filter is_msg_line l = bad_lines w → Q tt (w <| stderr := l |>)) → wp' (error fmt args) Q w.
Proof.
  intros Ht Hno HQ. unfold error, NodeErr.error_text. rewrite Ht. wp_steps. apply wp_from_opt; [|done].
  intros text <-%(inj Some). apply wp_modify, HQ. rewrite List.filter_app. cbn [List.filter].
  rewrite Hno. apply app_nil_r.
Qed.

Lemma wp_bad_message msg_buf (Q : unit → World → Prop) w :
  Q tt (w <| stderr ::= λ l, l ++ [msg_line msg_buf] |>) → wp' (bad_message msg_buf) Q w.
Proof. done. Qed.

(** Whatever becomes of the datagram: a failure is reported, and the node goes on. *)
Lemma wp_send_message ty len dest bytes (Q : unit → World → Prop) w :
  take (Z.to_nat len) (send_buffer w) = bytes →
  (∀ e l, List.filter is_msg_line l = bad_lines w →
    Q tt (w <| sent ::= λ l, l ++ [(dest, bytes)] |> <| errno := e |> <| stderr := l |>)) →
  wp' (send_message ty len dest) Q w.
Proof.
  intros <- HQ. unfold send_message. wp_step. wp_step.
  destruct (sendto _ _ _) as [sent_length failure]. wp_step. apply wp_modify.
  destruct (sent_length <? 0).
  - wp_step. apply wp_modify. eapply wp_error; [reflexivity|done|]. intros l Hl. by apply HQ.
  - destruct (negb _).
    + eapply wp_error; [reflexivity|done|]. intros l Hl. by apply (HQ (errno w)).
    + apply wp_ret. specialize (HQ (errno w) (stderr w) eq_refl). by destruct w.
Qed.
End messages.
