(* ===== verification/NodeInv.v ===== *)
(** * The invariant of a node of peer-time-sync, and its handlers

    [node_ok] holds from the end of [initialize_node_data] on. For each handler of
    [messages.c] there is a lemma: from a state where [node_ok] holds it returns, or exits
    because the clock cannot be read, in a state where [node_ok] holds and that its [_post]
    relates to the first one on every branch. *)
From S2P Require Import Prelude CString Err Wire Peers PeerSets Node NodeSpec.


(** ** The three peer lists *)
Definition list_at (w : World) (i : nat) : list sockaddr_in := default [] (peer_lists (peers w) !! i).
Definition known (w : World) : list sockaddr_in := list_at w (peer_list (node w)).
Definition awaiting (w : World) : list sockaddr_in := list_at w (waiting_for_ack_connect (node w)).
Definition asked (w : World) : list sockaddr_in := list_at w (asked_to_synchronize (node w)).

(** The invariant of the lists: no node has one of its own addresses in a list. *)
Record lists_inv (own : list sockaddr_in) (p : Peers) : Prop := {
  inv_peers_ok : peers_ok p;
  inv_three : length (peer_lists p) = 3%nat;
  inv_not_own i l a : peer_lists p !! i = Some l → a ∈ l → a ∉ own }.

(** The invariant of [NodeData], with the list of known peers. *)
Record data_inv (n : NodeData) (peers : list sockaddr_in) : Prop := {
  inv_ids : peer_list n = 0%nat ∧ waiting_for_ack_connect n = 1%nat ∧ asked_to_synchronize n = 2%nat;
  inv_level : 0 ≤ sync_level n < 256;
  inv_offset : - 2 ^ 62 ≤ offset_ms n < 2 ^ 62;
  inv_last : 0 ≤ last_sync_start n < 2 ^ 50;
  inv_sync : synchronizing n = true →
    0 ≤ synchronizing_level n < 254 ∧ 0 ≤ T1 n < 2 ^ 62 ∧ 0 ≤ T2 n < 2 ^ 50 ∧ 0 ≤ T3 n < 2 ^ 50 ∧
    peer_to_sync n ∈ peers }.

Record node_ok (clock : nat → option timespec) (w : World) : Prop := {
  ok_started : started clock w;
  ok_buffer : buffer_ok w;
  ok_lists : lists_inv (my_addresses (node w)) (peers w);
  ok_data : data_inv (node w) (known w) }.

(** The lists after one of them changed. *)
Lemma lists_inv_set own p i l l' p' :
  lists_inv own p → peer_lists p !! i = Some l → sets p i l' p' → (∀ a, a ∈ l' → a ∉ own) → lists_inv own p'.
Proof.
  intros [Hp Hn Ho] Hl [Hok Hl'] Hown. split.
  - done.
  - by rewrite Hl', length_insert.
  - intros j k a Hj Ha. rewrite Hl' in Hj. destruct (decide (i = j)) as [->|Hne].
    + rewrite list_lookup_insert_eq in Hj by (by eapply lookup_lt_Some). injection Hj as <-. auto.
    + rewrite list_lookup_insert_ne in Hj by done. eauto.
Qed.

(** What a node gets: bytes from another node's [sendto], and the address [recvfrom] gives. *)
Definition bytes_ok (msg_buf : list Z) : Prop := Forall byte_ok msg_buf.

Section handlers.
Context `{host : Host} `{libc : Libc} `{udp : Udp}.
Context (clock : nat → option timespec) `{clock_monotonic : Monotonic clock}.
Abbreviation wp' := (wp (clock_exit clock)).
Abbreviation node_ok := (node_ok clock).

Lemma node_ok_frame w w' :
  node_ok w → started clock w' → buffer_ok w' → node w' = node w → peers w' = peers w → node_ok w'.
Proof.
  intros [Hs Hb Hl Hd] Hs' Hb' Hn Hp. split; [done|done|by rewrite Hn, Hp|].
  unfold known, list_at in *. by rewrite Hn, Hp.
Qed.

(** The handlers see three lists. *)
Lemma node_ok_lists w :
  node_ok w →
  peer_lists (peers w) !! peer_list (node w) = Some (known w) ∧
  peer_lists (peers w) !! waiting_for_ack_connect (node w) = Some (awaiting w) ∧
  peer_lists (peers w) !! asked_to_synchronize (node w) = Some (asked w).
Proof.
  intros [_ _ [_ Hn _] [(H0 & H1 & H2) _ _ _ _]]. unfold known, awaiting, asked, list_at. rewrite H0, H1, H2.
  destruct (peer_lists (peers w)) as [|l0 [|l1 [|l2 [|]]]]; done.
Qed.

Lemma known_ok w : node_ok w → set_ok (known w).
Proof.
  intros Hw. destruct (node_ok_lists w Hw) as (Hk & _). destruct Hw as [_ _ [Hp _ _] _].
  by eapply lists_ok_lookup.
Qed.
Lemma awaiting_ok w : node_ok w → set_ok (awaiting w).
Proof.
  intros Hw. destruct (node_ok_lists w Hw) as (_ & Hk & _). destruct Hw as [_ _ [Hp _ _] _].
  by eapply lists_ok_lookup.
Qed.

(** [peer_list_add]: the list is [l'] after it. *)
Definition added (a : sockaddr_in) (l : list sockaddr_in) : list sockaddr_in :=
  if decide (a ∈ l) then l
  else if decide (Z.of_nat (length l) < MAX_CAPACITY) then ordered_insert sockaddr_in_less a l
  else l.
Definition can_add (a : sockaddr_in) (l : list sockaddr_in) : Prop := a ∈ l ∨ Z.of_nat (length l) < MAX_CAPACITY.
#[global] Instance can_add_dec a l : Decision (can_add a l).
Proof. unfold can_add. apply _. Defined.

Lemma added_ok a l : set_ok l → addr_ok a → set_ok (added a l).
Proof. intros. unfold added. case_decide; [done|]. case_decide; [|done]. by apply set_ok_insert. Qed.
Lemma elem_of_added a b l : b ∈ added a l → b = a ∨ b ∈ l.
Proof.
  unfold added. case_decide; [by right|]. case_decide; [|by right]. by rewrite elem_of_ordered_insert.
Qed.
Lemma added_keeps a b l : b ∈ l → b ∈ added a l.
Proof.
  unfold added. case_decide; [done|]. case_decide; [|done]. rewrite elem_of_ordered_insert. by right.
Qed.
Lemma added_set a l : can_add a l → (list_to_set (added a l) : gset sockaddr_in) = {[a]} ∪ list_to_set l.
Proof.
  unfold added, can_add. intros [Hin|Hlen]; apply set_eq; intros b.
  - rewrite decide_True by done. rewrite elem_of_union, elem_of_singleton, !elem_of_list_to_set.
    split; [tauto|]. by intros [->|].
  - case_decide; rewrite elem_of_union, elem_of_singleton, !elem_of_list_to_set; [by split; [tauto|intros [->|]]|].
    by rewrite decide_True, elem_of_ordered_insert.
Qed.
Lemma added_full a l : ¬ can_add a l → added a l = l.
Proof. unfold added, can_add. intros Hn. by rewrite !decide_False by tauto. Qed.

Lemma wp_list_add i l a (Q : Z → World → Prop) w :
  peers_ok (peers w) → addr_ok a → peer_lists (peers w) !! i = Some l →
  (∀ r p, (0 ≤ r ↔ can_add a l) → (¬ can_add a l → p = peers w) → sets (peers w) i (added a l) p →
     Q r (w <| peers := p |>)) →
  wp' (list_add i a) Q w.
Proof.
  intros Hp Ha Hl HQ. unfold list_add. pose proof (sets_same _ i l Hl Hp) as Hsame.
  unfold added, can_add in HQ. pose proof (peer_list_add_run _ i l Hl a) as Hrun.
  destruct (decide (a ∈ l)) as [Hin|Hin].
  - rewrite bool_decide_true in Hrun by done. eapply wp_with_peers; [exact Hrun|]. apply HQ; [by split; [left|]|tauto|done].
  - rewrite bool_decide_false in Hrun by done. case_decide as Hc.
    + rewrite (proj2 (Z.ltb_lt _ _) Hc) in Hrun. eapply wp_with_peers; [exact Hrun|]. apply HQ; [by split; [right|]|tauto|].
      apply (sets_to _ i l Hl); [done|]. apply set_ok_insert; [by eapply lists_ok_lookup|done..].
    + rewrite (proj2 (Z.ltb_ge _ _)) in Hrun by lia. eapply wp_with_peers; [exact Hrun|].
      apply HQ; [split; [lia|]; by intros [|]|done|done].
Qed.

Lemma wp_list_contains i l a (Q : bool → World → Prop) w :
  peer_lists (peers w) !! i = Some l → Q (bool_decide (a ∈ l)) w → wp' (list_contains i a) Q w.
Proof. intros Hl HQ. eapply wp_peers_read; [by apply peer_list_contains_run|done]. Qed.
Lemma wp_list_full i l (Q : bool → World → Prop) w :
  peer_lists (peers w) !! i = Some l → Q (MAX_CAPACITY <=? Z.of_nat (length l)) w → wp' (list_full i) Q w.
Proof. intros Hl HQ. eapply wp_peers_read; [by apply peer_list_full_run|done]. Qed.

(** ** What a handler did *)
Definition unchanged (w w' : World) : Prop := node w' = node w ∧ peers w' = peers w ∧ sent w' = sent w.
Definition lists_now (w : World) := (known w, awaiting w, asked w).
(** A message was accepted without a report, or reported by one line. *)
Definition logged (accepted : Prop) (msg_buf : list Z) (w w' : World) : Prop :=
  (accepted ∧ quiet w w') ∨ (¬ accepted ∧ stderr w' = stderr w ++ [msg_line msg_buf]).

Lemma logged_quiet (accepted : Prop) msg_buf w w' : accepted → quiet w w' → logged accepted msg_buf w w'.
Proof. by left. Qed.
Lemma logged_line (accepted : Prop) msg_buf w w' :
  ¬ accepted → stderr w' = stderr w ++ [msg_line msg_buf] → logged accepted msg_buf w w'.
Proof. by right. Qed.

Lemma same_peers_lists w w' : node w' = node w → peers w' = peers w → lists_now w' = lists_now w.
Proof. intros Hn Hp. unfold lists_now, known, awaiting, asked, list_at. by rewrite Hn, Hp. Qed.

(** The state after the known list, or the awaited list, was set. *)
Lemma set_known_lists w l w' :
  node_ok w → node w' = node w → sets (peers w) (peer_list (node w)) l (peers w') →
  lists_now w' = (l, awaiting w, asked w).
Proof.
  intros [_ _ [_ Hn _] [(H0 & H1 & H2) _ _ _ _]] Hnode [_ Hp].
  unfold lists_now, known, awaiting, asked, list_at. rewrite Hnode, Hp, H0, H1, H2. simpl.
  by destruct (peer_lists (peers w)).
Qed.
Lemma set_awaiting_lists w l w' :
  node_ok w → node w' = node w → sets (peers w) (waiting_for_ack_connect (node w)) l (peers w') →
  lists_now w' = (known w, l, asked w).
Proof.
  intros [_ _ [_ Hn _] [(H0 & H1 & H2) _ _ _ _]] Hnode [_ Hp].
  unfold lists_now, known, awaiting, asked, list_at. rewrite Hnode, Hp, H0, H1, H2. simpl.
  by destruct (peer_lists (peers w)) as [|? [|]].
Qed.

Lemma data_inv_grows n l l' : data_inv n l → (∀ a, a ∈ l → a ∈ l') → data_inv n l'.
Proof. intros [] Hsub. split; try done. intros Hs. destruct (inv_sync0 Hs) as (? & ? & ? & ? & ?). eauto 10. Qed.

Lemma node_ok_set_known w a w' :
  node_ok w → a ∉ my_addresses (node w) → started clock w' → buffer_ok w' → node w' = node w →
  sets (peers w) (peer_list (node w)) (added a (known w)) (peers w') →
  node_ok w' ∧ lists_now w' = (added a (known w), awaiting w, asked w).
Proof.
  intros Hw Hown Hs Hb Hn Hp. pose proof (set_known_lists w _ w' Hw Hn Hp) as Hlists. split; [|done].
  destruct (node_ok_lists w Hw) as (Hk & _ & _).
  destruct Hw as [_ _ Hl Hd]. split; [done|done|..].
  - rewrite Hn. eapply lists_inv_set; [done|done|done|].
    intros b [->|Hb']%elem_of_added; [done|]. by eapply (inv_not_own _ _ Hl).
  - rewrite Hn. unfold lists_now in Hlists. injection Hlists as -> _ _.
    eapply data_inv_grows; [exact Hd|]. intros b. apply added_keeps.
Qed.

Lemma node_ok_set_awaiting w l w' :
  node_ok w → (∀ a, a ∈ l → a ∉ my_addresses (node w)) → started clock w' → buffer_ok w' →
  node w' = node w → sets (peers w) (waiting_for_ack_connect (node w)) l (peers w') →
  node_ok w' ∧ lists_now w' = (known w, l, asked w).
Proof.
  intros Hw Hown Hs Hb Hn Hp. pose proof (set_awaiting_lists w _ w' Hw Hn Hp) as Hlists. split; [|done].
  destruct (node_ok_lists w Hw) as (_ & Hk & _). destruct Hw as [_ _ Hl Hd]. split; [done|done|..].
  - rewrite Hn. by eapply lists_inv_set.
  - rewrite Hn. unfold lists_now in Hlists. by injection Hlists as -> _ _.
Qed.

(** The known list was copied to the asked list. *)
Lemma node_ok_set_asked w w' :
  node_ok w → started clock w' → buffer_ok w' → node w' = node w →
  sets (peers w) (asked_to_synchronize (node w)) (known w) (peers w') →
  node_ok w' ∧ lists_now w' = (known w, awaiting w, known w).
Proof.
  intros Hw Hs Hb Hn Hp. destruct (node_ok_lists w Hw) as (Hk & Ha & Hq). pose proof Hp as [_ Hpl].
  assert (lists_now w' = (known w, awaiting w, known w)) as Hlists.
  { destruct Hw as [_ _ [_ H3 _] [(I0 & I1 & I2) _ _ _ _]]. unfold lists_now, known, awaiting, asked, list_at in *.
    rewrite Hn, Hpl, I0, I1, I2. simpl. by destruct (peer_lists (peers w)) as [|? [|? [|? [|]]]]. }
  split; [|done]. destruct Hw as [_ _ Hl Hd]. split; [done|done|..].
  - rewrite Hn. eapply lists_inv_set; [done|done|done|]. intros a Hin. exact (inv_not_own _ _ Hl _ _ _ Hk Hin).
  - rewrite Hn. unfold lists_now in Hlists. by injection Hlists as -> _ _.
Qed.

Lemma started_later w w' :
  started clock w → start_time w' = start_time w → (clock_reads w ≤ clock_reads w')%nat → started clock w'.
Proof.
  intros [Hr Hb] Hs Hk. split; [by rewrite Hs|]. intros k t Hle Ht. rewrite Hs. eapply Hb; [|done]. lia.
Qed.
Lemma buffer_same w w' : buffer_ok w → send_buffer w' = send_buffer w → buffer_ok w'.
Proof. unfold buffer_ok. by intros ? ->. Qed.
Hint Extern 1 (started clock _) =>
  eapply started_later; [by eapply ok_started|reflexivity
    |first [apply Nat.le_refl|apply Nat.le_succ_diag_r|simpl; lia]] : wp_db.
Hint Extern 1 (buffer_ok _) =>
  first [assumption|eapply buffer_same; [by eapply ok_buffer|reflexivity]] : wp_db.

(** The data changed, and neither the addresses nor the lists. *)
Lemma node_ok_set_data w w' :
  node_ok w → started clock w' → buffer_ok w' → peers w' = peers w → my_addresses (node w') = my_addresses (node w) →
  data_inv (node w') (known w) → node_ok w'.
Proof.
  intros Hw Hs Hb Hp Hm Hd. split; [done|done|rewrite Hm, Hp; apply Hw|].
  assert (known w' = known w) as ->; [|done]. unfold known, list_at. rewrite Hp.
  destruct (inv_ids _ _ Hd) as (-> & _). by destruct (inv_ids _ _ (ok_data _ _ Hw)) as (-> & _).
Qed.

Lemma unchanged_refl w : unchanged w w.
Proof. done. Qed.
Hint Resolve unchanged_refl : wp_db.

(** What is written to [stderr], and [errno], are no part of the invariant. *)
Lemma node_ok_console w e l : node_ok w → node_ok (w <| errno := e |> <| stderr := l |>).
Proof. intros Hw. by eapply node_ok_frame; eauto with wp_db. Qed.

Lemma and_shuffle (A B C D E : Prop) : A ∧ C → (B ∧ D) ∧ E → A ∧ (B ∧ C ∧ D) ∧ E.
Proof. tauto. Qed.

(** A handler ends with the report of its message: only [stderr] changed since [w]. *)
Lemma wp_rejected (accepted : Prop) (B : World → Prop) msg_buf w w1 :
  node_ok w1 → ¬ accepted → stderr w1 = stderr w →
  B (w1 <| stderr ::= λ l, l ++ [msg_line msg_buf] |>) →
  wp' (bad_message msg_buf) (λ _ w', node_ok w' ∧ B w' ∧ logged accepted msg_buf w w') w1.
Proof.
  intros Hw Hno Hs HB. apply wp_bad_message. split; [exact (node_ok_console _ (errno w1) _ Hw)|].
  split; [exact HB|]. apply logged_line; [done|]. simpl. by rewrite Hs.
Qed.
Ltac reject tac := apply wp_rejected; [first [assumption|by eapply node_ok_frame; eauto with wp_db]|tac|done|cbv beta zeta; rewrite decide_False by tac; done].

(** ** The handlers of the messages between peers *)
Definition hello_valid (msg_buf : list Z) (sender : sockaddr_in) (w : World) : Prop :=
  length msg_buf = 1%nat ∧ (sender ∉ my_addresses (node w)) ∧
  Z.of_nat (length (listed (my_addresses (node w)) sender (known w))) < 9362 ∧ can_add sender (known w).
#[global] Instance hello_valid_dec msg_buf sender w : Decision (hello_valid msg_buf sender w).
Proof. unfold hello_valid. apply _. Defined.

Definition handle_hello_post (msg_buf : list Z) (sender : sockaddr_in) (w w' : World) : Prop :=
  let ls := listed (my_addresses (node w)) sender (known w) in
  (if decide (hello_valid msg_buf sender w)
   then node w' = node w ∧ lists_now w' = (added sender (known w), awaiting w, asked w) ∧
        sent w' = sent w ++ [(sender, hello_reply_bytes ls)]
   else unchanged w w') ∧ logged (hello_valid msg_buf sender w) msg_buf w w'.

Lemma hello_handler_run msg_buf sender w :
  node_ok w → addr_ok sender →
  wp' (handle_hello msg_buf sender) (λ _ w', node_ok w' ∧ handle_hello_post msg_buf sender w w') w.
Proof.
  intros Hw Hs. unfold handle_hello, handle_hello_post. destruct (node_ok_lists w Hw) as (Hk & _ & _).
  wp_step. apply wp_get_node. unfold MESSAGE_SIZE.
  wp_step; [apply negb_true_iff, Z.eqb_neq in Hb|apply negb_false_iff, Z.eqb_eq in Hb].
  { reject ltac:(unfold hello_valid; lia). }
  wp_step; [apply address_in_array_spec in Hb0|apply address_in_array_false in Hb0].
  { reject ltac:(by intros (_ & ? & _)). }
  wp_step. eapply wp_create_hello_reply_message; [eauto with wp_db|apply Hw|exact Hk|].
  intros b Hlen. split.
  { intros Hmany. wp_step; [done|]. reject ltac:(unfold hello_valid; lia). }
  intros Hfew Htake. rewrite (proj2 (Z.ltb_lt _ _)) by (rewrite length_hello_reply; lia).
  wp_step. eapply wp_list_add; [apply Hw|done|exact Hk|]. intros r p Hr Hsame Hsets.
  wp_step; [apply Z.leb_le, Hr in Hb1|apply Z.leb_gt in Hb1].
  - eapply wp_send_message; [rewrite Nat2Z.id; exact Htake|]. intros e l Hl.
    assert (hello_valid msg_buf sender w) as Hv by (split; [lia|done]). rewrite decide_True by done.
    eapply and_shuffle; [apply node_ok_set_known; eauto with wp_db|]. split; [done|]. by apply logged_quiet.
  - assert (¬ can_add sender (known w)) as Hno by (rewrite <-Hr; lia). specialize (Hsame Hno). simpl in Hsame. subst p.
    assert (node_ok (w <| send_buffer := b |> <| peers := peers w |>)) as Hw1
      by (eapply node_ok_frame; eauto with wp_db).
    apply wp_rejected; [exact Hw1|by intros (_ & _ & _ & ?)|done|]. rewrite decide_False by (by intros (_ & _ & _ & ?)).
    by split.
Qed.

(** The test of both handlers below. *)
Lemma full_unknown a l :
  (MAX_CAPACITY <=? Z.of_nat (length l)) && negb (bool_decide (a ∈ l)) = negb (bool_decide (can_add a l)).
Proof.
  unfold can_add. apply eq_true_iff_eq.
  rewrite andb_true_iff, !negb_true_iff, !bool_decide_eq_false, Z.leb_le.
  split; [intros [? ?] [?|?]; [done|lia]|]. intros Hn. split; [|tauto].
  destruct (Z.le_gt_cases MAX_CAPACITY (Z.of_nat (length l))); [done|]. tauto.
Qed.

Definition connect_valid (msg_buf : list Z) (sender : sockaddr_in) (w : World) : Prop :=
  length msg_buf = 1%nat ∧ can_add sender (known w) ∧ sender ∉ my_addresses (node w).
Definition ack_connect_valid (msg_buf : list Z) (sender : sockaddr_in) (w : World) : Prop :=
  length msg_buf = 1%nat ∧ sender ∈ awaiting w ∧ can_add sender (known w).
#[global] Instance connect_valid_dec msg_buf sender w : Decision (connect_valid msg_buf sender w).
Proof. unfold connect_valid. apply _. Defined.
#[global] Instance ack_connect_valid_dec msg_buf sender w : Decision (ack_connect_valid msg_buf sender w).
Proof. unfold ack_connect_valid. apply _. Defined.

Definition handle_connect_post (msg_buf : list Z) (sender : sockaddr_in) (w w' : World) : Prop :=
  (if decide (connect_valid msg_buf sender w)
   then node w' = node w ∧ lists_now w' = (added sender (known w), awaiting w, asked w) ∧
        sent w' = sent w ++ [(sender, [ACK_CONNECT])]
   else unchanged w w') ∧ logged (connect_valid msg_buf sender w) msg_buf w w'.

Lemma handle_connect_run msg_buf sender w :
  node_ok w → addr_ok sender →
  wp' (handle_connect msg_buf sender) (λ _ w', node_ok w' ∧ handle_connect_post msg_buf sender w w') w.
Proof.
  intros Hw Hs. unfold handle_connect, handle_connect_post. destruct (node_ok_lists w Hw) as (Hk & _ & _).
  wp_step. apply wp_get_node. unfold MESSAGE_SIZE.
  wp_step; [apply negb_true_iff, Z.eqb_neq in Hb|apply negb_false_iff, Z.eqb_eq in Hb].
  { reject ltac:(unfold connect_valid; lia). }
  wp_step. eapply wp_list_full; [exact Hk|]. wp_step. eapply wp_list_contains; [exact Hk|].
  rewrite full_unknown. case_bool_decide as Hadd; cbn [negb]; cbv iota; [|reject ltac:(by intros (_ & ? & _))].
  wp_step; [apply address_in_array_spec in Hb0|apply address_in_array_false in Hb0].
  { reject ltac:(by intros (_ & _ & ?)). }
  assert (connect_valid msg_buf sender w) as Hv by (split; [lia|done]).
  wp_step. apply wp_create_simple_message; [eauto with wp_db|]. intros b Hlen Htake.
  wp_step. eapply wp_send_message; [exact Htake|]. intros e l Hl.
  wp_step. eapply wp_list_add; [apply Hw|done|exact Hk|]. intros r p _ _ Hsets. apply wp_ret. rewrite decide_True by done.
  eapply and_shuffle; [apply node_ok_set_known; eauto with wp_db|]. split; [done|]. by apply logged_quiet.
Qed.

Definition handle_ack_connect_post (msg_buf : list Z) (sender : sockaddr_in) (w w' : World) : Prop :=
  (if decide (ack_connect_valid msg_buf sender w)
   then node w' = node w ∧ sent w' = sent w ∧
        lists_now w' = (added sender (known w), filter (.≠ sender) (awaiting w), asked w)
   else unchanged w w') ∧ logged (ack_connect_valid msg_buf sender w) msg_buf w w'.

Lemma handle_ack_connect_run msg_buf sender w :
  node_ok w → addr_ok sender →
  wp' (handle_ack_connect msg_buf sender) (λ _ w', node_ok w' ∧ handle_ack_connect_post msg_buf sender w w') w.
Proof.
  intros Hw Hs. unfold handle_ack_connect, handle_ack_connect_post. destruct (node_ok_lists w Hw) as (Hk & Ha & _).
  wp_step. apply wp_get_node. unfold MESSAGE_SIZE.
  wp_step; [apply negb_true_iff, Z.eqb_neq in Hb|apply negb_false_iff, Z.eqb_eq in Hb].
  { reject ltac:(unfold ack_connect_valid; lia). }
  wp_step. eapply wp_list_contains; [exact Ha|].
  case_bool_decide as Hin; cbn [negb]; cbv iota; [|reject ltac:(by intros (_ & ? & _))].
  wp_step. eapply wp_list_full; [exact Hk|]. wp_step. eapply wp_list_contains; [exact Hk|].
  rewrite full_unknown. case_bool_decide as Hadd; cbn [negb]; cbv iota; [|reject ltac:(by intros (_ & _ & ?))].
  pose proof (inv_not_own _ _ (ok_lists _ _ Hw) _ _ _ Ha Hin) as Hown.
  rewrite (proj2 (address_in_array_false _ _) Hown).
  assert (ack_connect_valid msg_buf sender w) as Hv by (split; [lia|done]).
  wp_step. eapply wp_with_peers; [by apply peer_list_remove_run|].
  set (w1 := w <| peers := _ |>).
  assert (node_ok w1 ∧ lists_now w1 = (known w, filter (.≠ sender) (awaiting w), asked w)) as [Hw1 Hl1].
  { apply node_ok_set_awaiting; eauto with wp_db.
    - intros a [_ Hina]%list_elem_of_filter. by eapply (inv_not_own _ _ (ok_lists _ _ Hw)).
    - apply (sets_to _ _ _ Ha); [apply Hw|]. by apply set_ok_remove, awaiting_ok. }
  injection Hl1 as Hk1 Ha1 Hq1.
  wp_step. destruct (node_ok_lists w1 Hw1) as (Hk' & _ & _). eapply wp_list_add; [apply Hw1|done|exact Hk'|].
  intros r p _ _ Hsets. apply wp_ret. rewrite decide_True by done.
  lazymatch goal with |- node_ok ?w' ∧ _ => destruct (node_ok_set_known w1 sender w') as [Hok Hl] end; eauto with wp_db.
  split; [exact Hok|]. split; [|by apply logged_quiet]. split; [done|]. split; [done|]. by rewrite Hl, Hk1, Ha1, Hq1.
Qed.

(** ** [HELLO_REPLY] *)

(** The records of the message: length bytes and addresses. *)
Fixpoint records (count : nat) (buf : list Z) : list (Z * sockaddr_in) :=
  match count, read_peer buf with
  | S count', Some (len, a, rest) => (len, a) :: records count' rest
  | _, _ => []
  end.
Definition reply_count (msg_buf : list Z) : Z := be_value (take 2 (drop 1 msg_buf)).
Definition reply_records (msg_buf : list Z) : list (Z * sockaddr_in) :=
  records (Z.to_nat (reply_count msg_buf)) (drop 3 msg_buf).
Definition reply_peers (msg_buf : list Z) : list sockaddr_in := map snd (reply_records msg_buf).

Definition record_valid (n : NodeData) (sender : sockaddr_in) (r : Z * sockaddr_in) : Prop :=
  r.1 = 4 ∧ sin_port r.2 ≠ 0 ∧ r.2 ≠ sender ∧ r.2 ∉ my_addresses n.
#[global] Instance record_valid_dec n sender r : Decision (record_valid n sender r).
Proof. unfold record_valid. apply _. Defined.

Definition reply_valid (n : NodeData) (sender : sockaddr_in) (msg_buf : list Z) : Prop :=
  waiting_for_hello_reply n = true ∧ sender = known_peer n ∧ (sender ∉ my_addresses n) ∧
  3 ≤ Z.of_nat (length msg_buf) ∧ Z.of_nat (length msg_buf) = 3 + reply_count msg_buf * 7 ∧
  Forall (record_valid n sender) (reply_records msg_buf).
#[global] Instance reply_valid_dec n sender msg_buf : Decision (reply_valid n sender msg_buf).
Proof. unfold reply_valid. apply _. Defined.

Lemma read_peer_some buf :
  (7 ≤ length buf)%nat → bytes_ok buf →
  ∃ len a rest, read_peer buf = Some (len, a, rest) ∧ addr_ok a ∧ rest = drop 7 buf.
Proof.
  intros Hlen Hb. destruct buf as [|len [|a0 [|a1 [|a2 [|a3 [|p0 [|p1 rest]]]]]]]; simpl in Hlen; try lia.
  exists len, {| s_addr := load [a0; a1; a2; a3]; sin_port := load [p0; p1] |}, rest. split; [done|]. split; [|done].
  unfold bytes_ok in Hb. rewrite !Forall_cons in Hb. split; simpl.
  - apply (load_range [a0; a1; a2; a3]). rewrite !Forall_cons, Forall_nil. tauto.
  - apply (load_range [p0; p1]). rewrite !Forall_cons, Forall_nil. tauto.
Qed.

Lemma check_peers_spec n sender count buf :
  length buf = (7 * count)%nat → bytes_ok buf →
  check_peers n sender count buf = Ret (bool_decide (Forall (record_valid n sender) (records count buf))).
Proof.
  revert buf. induction count as [|count IH]; intros buf Hlen Hb; cbn [check_peers records]; [by rewrite bool_decide_true by constructor|].
  destruct (read_peer_some buf) as (len & a & rest & Hread & Ha & Hrest); [lia|done|]. rewrite Hread. cbn [from_option_or mbind outcome_bind].
  assert (bytes_ok rest) as Hb' by (subst rest; by apply Forall_drop).
  rewrite (bool_decide_ext _ (record_valid n sender (len, a) ∧ Forall (record_valid n sender) (records count rest)))
    by apply Forall_cons.
  unfold record_valid at 1. simpl. unfold PEER_ADDRESS_SIZE.
  destruct (Z.eqb_spec len 4); simpl; [|by rewrite bool_decide_false by tauto].
  destruct (Z.eqb_spec (sin_port a) 0); [by rewrite bool_decide_false by tauto|].
  destruct (equal_addr a sender) eqn:Ha1; simpl.
  { apply equal_addr_spec in Ha1. by rewrite bool_decide_false by tauto. }
  apply equal_addr_false in Ha1. destruct (address_in_array a (my_addresses n)) eqn:Ha2.
  { apply address_in_array_spec in Ha2. by rewrite bool_decide_false by tauto. }
  apply address_in_array_false in Ha2. rewrite IH; [|subst rest; rewrite length_drop; lia|done].
  f_equal. apply bool_decide_ext. tauto.
Qed.

Lemma wp_msg_count msg_buf (Q : Z → World → Prop) w :
  (3 ≤ length msg_buf)%nat → bytes_ok msg_buf → Q (reply_count msg_buf) w → wp' (msg_count msg_buf) Q w.
Proof.
  intros Hlen Hb HQ. unfold msg_count, msg_bytes, MESSAGE_SIZE, COUNT_SIZE.
  rewrite (proj2 (Z.leb_le _ _)) by lia. wp_step. apply wp_ret, wp_ret. change (Z.to_nat 2) with 2%nat.
  change (Z.to_nat 1) with 1%nat. unfold ntohs. set (bytes := take 2 (drop 1 msg_buf)).
  assert (length bytes = 2%nat) as Hl by (unfold bytes; rewrite length_take, length_drop; lia).
  rewrite <-Hl, ntoh_load; [done|]. by apply Forall_take, Forall_drop.
Qed.

Lemma reply_count_range msg_buf : bytes_ok msg_buf → 0 ≤ reply_count msg_buf < 2 ^ 16.
Proof.
  intros Hb. unfold reply_count. pose proof (be_value_range (take 2 (drop 1 msg_buf))) as Hr.
  assert (256 ^ Z.of_nat (length (take 2 (drop 1 msg_buf))) ≤ 256 ^ 2).
  { apply Z.pow_le_mono_r; [done|]. rewrite length_take. lia. }
  assert (Forall byte_ok (take 2 (drop 1 msg_buf))) as Hf by (by apply Forall_take, Forall_drop).
  specialize (Hr Hf). lia.
Qed.

Lemma wp_check_hello_reply msg_buf sender (Q : bool → World → Prop) w :
  bytes_ok msg_buf → Q (bool_decide (reply_valid (node w) sender msg_buf)) w →
  wp' (check_hello_reply msg_buf sender) Q w.
Proof.
  intros Hb HQ. unfold check_hello_reply. wp_step. apply wp_get_node.
  pose proof (reply_count_range msg_buf Hb) as Hc.
  assert (∀ P, (reply_valid (node w) sender msg_buf → P) → ¬ P → wp' (mret false) Q w) as Hno.
  { intros P HP HnP. apply wp_ret. by rewrite bool_decide_false in HQ by tauto. }
  destruct (waiting_for_hello_reply (node w)) eqn:Hwait; cbn [negb orb].
  2: { apply (Hno (true = false)); [|done]. unfold reply_valid. rewrite Hwait. by intros [? _]. }
  wp_step; [apply negb_true_iff, equal_addr_false in Hb0|apply negb_false_iff, equal_addr_spec in Hb0].
  { eapply Hno; [|exact Hb0]. by intros (_ & ? & _). }
  wp_step; [apply address_in_array_spec in Hb1|apply address_in_array_false in Hb1].
  { apply (Hno (sender ∉ my_addresses (node w))); [by intros (_ & _ & ? & _)|tauto]. }
  unfold MESSAGE_SIZE, COUNT_SIZE, PEER_ADDRESS_LENGTH_SIZE, PEER_ADDRESS_SIZE, PEER_PORT_SIZE in *.
  wp_step; [apply Z.ltb_lt in Hb2|apply Z.ltb_ge in Hb2].
  { apply (Hno (3 ≤ Z.of_nat (length msg_buf))); [by intros (_ & _ & _ & ? & _)|lia]. }
  wp_step. apply wp_msg_count; [lia|done|].
  wp_step; [apply negb_true_iff, Z.eqb_neq in Hb3|apply negb_false_iff, Z.eqb_eq in Hb3].
  { apply (Hno (Z.of_nat (length msg_buf) = 3 + reply_count msg_buf * 7)); [by intros (_ & _ & _ & _ & ? & _)|lia]. }
  apply wp_lift_outcome. rewrite check_peers_spec; [|rewrite length_drop; lia|by apply Forall_drop].
  fold (reply_records msg_buf).
  rewrite (bool_decide_ext _ (reply_valid (node w) sender msg_buf)); [done|].
  unfold reply_valid. split; [|by intros (_ & _ & _ & _ & _ & ?)]. intros. repeat split; try done; lia.
Qed.

Definition connect_to (a : sockaddr_in) : sockaddr_in * list Z := (a, [CONNECT]).

Lemma wp_connect_peers count buf (Q : unit → World → Prop) w :
  node_ok w → length buf = (7 * count)%nat → bytes_ok buf →
  (∀ a, a ∈ map snd (records count buf) → a ∉ my_addresses (node w)) →
  (∀ w', node_ok w' → node w' = node w →
     lists_now w' = (known w, fold_left (λ l a, added a l) (map snd (records count buf)) (awaiting w), asked w) →
     sent w' = sent w ++ map connect_to (map snd (records count buf)) → quiet w w' → Q tt w') →
  wp' (connect_peers count buf) Q w.
Proof.
  revert buf w. induction count as [|count IH]; intros buf w Hw Hlen Hb Hown HQ.
  { apply wp_ret. apply HQ; try done. by rewrite app_nil_r. }
  cbn [connect_peers records] in *. destruct (read_peer_some buf) as (len & a & rest & Hread & Ha & Hrest); [lia|done|].
  rewrite Hread in *. cbn [map fold_left snd] in *.
  wp_step. apply wp_ret. wp_step. apply wp_get_node.
  destruct (node_ok_lists w Hw) as (_ & Hk & _). wp_step. eapply wp_list_add; [apply Hw|done|exact Hk|]. intros r p _ _ Hsets.
  set (w1 := w <| peers := _ |>).
  assert (node_ok w1 ∧ lists_now w1 = (known w, added a (awaiting w), asked w)) as [Hw1 Hl1].
  { apply node_ok_set_awaiting; eauto with wp_db.
    - intros b [->|Hin]%elem_of_added; [apply Hown; by left|]. by eapply (inv_not_own _ _ (ok_lists _ _ Hw)). }
  wp_step. apply wp_create_simple_message; [eauto with wp_db|]. intros b Hblen Htake.
  wp_step. eapply wp_send_message; [exact Htake|]. intros e l Hlines.
  set (w2 := w1 <| send_buffer := b |> <| sent ::= _ |> <| errno := e |> <| stderr := l |>).
  assert (node_ok w2) as Hw2 by (eapply node_ok_frame; eauto with wp_db).
  assert (lists_now w2 = lists_now w1) as Hl2 by (by apply same_peers_lists). rewrite Hl1 in Hl2.
  injection Hl2 as Hk2 Ha2 Hq2.
  apply IH; [done|subst rest; rewrite length_drop; lia|subst rest; by apply Forall_drop|..].
  - intros c Hc. apply Hown. by right.
  - intros w' Hw' Hn Hl Hs Hquiet. apply HQ; [done|by rewrite Hn|by rewrite Hl, Hk2, Ha2, Hq2|..].
    + rewrite Hs. unfold w2, w1. simpl. by rewrite <-app_assoc.
    + by apply (quiet_trans _ w2).
Qed.

Definition handle_hello_reply_post (msg_buf : list Z) (sender : sockaddr_in) (w w' : World) : Prop :=
  (if decide (reply_valid (node w) sender msg_buf)
   then node w' = node w <| waiting_for_hello_reply := false |> ∧
        lists_now w' = (added sender (known w),
          fold_left (λ l a, added a l) (reply_peers msg_buf) (awaiting w), asked w) ∧
        sent w' = sent w ++ map connect_to (reply_peers msg_buf)
   else unchanged w w') ∧ logged (reply_valid (node w) sender msg_buf) msg_buf w w'.

Lemma handle_hello_reply_run msg_buf sender w :
  node_ok w → addr_ok sender → bytes_ok msg_buf →
  wp' (handle_hello_reply msg_buf sender) (λ _ w', node_ok w' ∧ handle_hello_reply_post msg_buf sender w w') w.
Proof.
  intros Hw Hs Hb. unfold handle_hello_reply, handle_hello_reply_post.
  wp_step. apply wp_check_hello_reply; [done|]. case_bool_decide as Hv; cbn [negb]; cbv iota.
  2: { reject ltac:(done). }
  pose proof Hv as (Hwait & Hknown & Hown & Hlen & Hcount & Hrec).
  wp_step. apply wp_set_node. set (w1 := w <| node ::= _ |>).
  assert (node_ok w1) as Hw1.
  { eapply node_ok_set_data; eauto with wp_db; [done..|]. by destruct (ok_data _ _ Hw). }
  wp_step. apply wp_msg_count; [lia|done|]. wp_step.
  pose proof (reply_count_range msg_buf Hb) as Hrange.
  apply wp_connect_peers; [done|rewrite length_drop; lia|by apply Forall_drop|..].
  { intros a Hin. fold (reply_records msg_buf) in Hin. apply list_elem_of_fmap in Hin as (r & -> & Hr).
    rewrite Forall_forall in Hrec. apply (Hrec r Hr). }
  intros w2 Hw2 Hn2 Hl2 Hs2 Hquiet. fold (reply_records msg_buf) in Hl2, Hs2. fold (reply_peers msg_buf) in Hl2, Hs2.
  injection Hl2 as Hk2 Ha2 Hq2.
  wp_step. apply wp_get_node. wp_step. destruct (node_ok_lists w2 Hw2) as (Hk & _).
  eapply wp_list_add; [apply Hw2|done|exact Hk|]. intros r p _ _ Hsets. apply wp_ret.
  lazymatch goal with |- node_ok ?w' ∧ _ => destruct (node_ok_set_known w2 sender w') as [Hok Hl] end; eauto with wp_db.
  { by rewrite Hn2. }
  rewrite decide_True by done. split; [exact Hok|]. split; [|by apply logged_quiet].
  split; [exact Hn2|]. split; [by rewrite Hl, Hk2, Ha2, Hq2|exact Hs2].
Qed.

(** The message of [create_hello_reply_message] reads back. *)
Lemma read_peer_record a rest : addr_ok a → read_peer (peer_record a ++ rest) = Some (4, a, rest).
Proof.
  intros [Ha Hp]. unfold peer_record.
  pose proof (length_store 4 (s_addr a)) as L4. pose proof (length_store 2 (sin_port a)) as L2.
  pose proof (load_store 4 (s_addr a) Ha) as E4. pose proof (load_store 2 (sin_port a) Hp) as E2.
  destruct (store 4 (s_addr a)) as [|a0 [|a1 [|a2 [|a3 [|]]]]]; try done.
  destruct (store 2 (sin_port a)) as [|p0 [|p1 [|]]]; try done.
  cbn [read_peer app]. rewrite E4, E2. by destruct a.
Qed.

Lemma records_peers ls : Forall addr_ok ls → records (length ls) (flat_map peer_record ls) = map (λ a, (4, a)) ls.
Proof.
  induction 1 as [|a ls Ha Hls IH]; [done|]. cbn [flat_map length records map]. by rewrite read_peer_record, IH.
Qed.

Lemma hello_reply_ok ls : bytes_ok (hello_reply_bytes ls).
Proof.
  unfold hello_reply_bytes, bytes_ok. constructor; [done|]. apply Forall_app. split; [apply be_bytes_ok|].
  induction ls as [|a ls IH]; [constructor|]. cbn [flat_map]. unfold peer_record. cbn [app].
  constructor; [done|]. rewrite !Forall_app. split; [split; apply store_ok|exact IH].
Qed.

Lemma reply_count_bytes ls : Z.of_nat (length ls) < 2 ^ 16 → reply_count (hello_reply_bytes ls) = Z.of_nat (length ls).
Proof.
  intros Hlen. unfold reply_count.
  change (drop 1 (hello_reply_bytes ls)) with (be_bytes 2 (Z.of_nat (length ls)) ++ flat_map peer_record ls).
  rewrite take_app_le by (rewrite length_be_bytes; lia). rewrite take_ge by (rewrite length_be_bytes; lia).
  apply be_value_bytes. lia.
Qed.

Lemma reply_records_bytes ls :
  Forall addr_ok ls → Z.of_nat (length ls) < 2 ^ 16 → reply_records (hello_reply_bytes ls) = map (λ a, (4, a)) ls.
Proof.
  intros Hls Hlen. unfold reply_records. rewrite reply_count_bytes, Nat2Z.id by done.
  rewrite <-records_peers by done. by f_equal.
Qed.

Lemma reply_peers_bytes ls :
  Forall addr_ok ls → Z.of_nat (length ls) < 2 ^ 16 → reply_peers (hello_reply_bytes ls) = ls.
Proof. intros. unfold reply_peers. rewrite reply_records_bytes, map_map by done. apply map_id. Qed.

Lemma hello_reply_valid n sender ls :
  waiting_for_hello_reply n = true → known_peer n = sender → sender ∉ my_addresses n →
  Z.of_nat (length ls) < 9362 → Forall addr_ok ls →
  (∀ c, c ∈ ls → sin_port c ≠ 0 ∧ c ≠ sender ∧ c ∉ my_addresses n) →
  reply_valid n sender (hello_reply_bytes ls).
Proof.
  intros Hw Hk Hs Hlen Hls Hc. split; [done|]. split; [done|]. split; [done|].
  rewrite length_hello_reply, reply_count_bytes, reply_records_bytes by (done || lia).
  split; [lia|]. split; [lia|]. apply Forall_map, Forall_forall. intros c Hin. destruct (Hc c Hin) as (? & ? & ?). done.
Qed.

(** ** Messages with a synchronization level and a time *)
Definition level_of (msg_buf : list Z) : Z := default 0 (msg_buf !! 1%nat).
Definition timestamp_of (msg_buf : list Z) : Z := be_value (take 8 (drop 2 msg_buf)).

Lemma wp_msg_level msg_buf (Q : Z → World → Prop) w :
  (2 ≤ length msg_buf)%nat → Q (level_of msg_buf) w → wp' (msg_byte msg_buf MESSAGE_SIZE) Q w.
Proof.
  intros Hlen HQ. unfold msg_byte. apply wp_from_opt; change (Z.to_nat MESSAGE_SIZE) with 1%nat.
  - intros a Ha. unfold level_of in HQ. by rewrite Ha in HQ.
  - intros Hnone%lookup_ge_None. lia.
Qed.

Lemma level_range msg_buf : bytes_ok msg_buf → 0 ≤ level_of msg_buf < 256.
Proof.
  intros Hb. unfold level_of. destruct (msg_buf !! 1%nat) eqn:Hl; simpl; [|lia].
  unfold bytes_ok in Hb. rewrite Forall_lookup in Hb. by eapply Hb.
Qed.

Lemma wp_msg_timestamp msg_buf (Q : Z → World → Prop) w :
  length msg_buf = 10%nat → bytes_ok msg_buf → 0 ≤ timestamp_of msg_buf < 2 ^ 64 →
  Q (timestamp_of msg_buf) w → wp' (msg_timestamp msg_buf) Q w.
Proof.
  intros Hlen Hb Hr HQ. unfold msg_timestamp, msg_bytes.
  change (MESSAGE_SIZE + SYNCHRONIZED_SIZE + TIMESTAMP_SIZE) with 10. rewrite Hlen. simpl (10 <=? _).
  change (Z.to_nat TIMESTAMP_SIZE) with 8%nat. change (Z.to_nat (MESSAGE_SIZE + SYNCHRONIZED_SIZE)) with 2%nat.
  wp_step. apply wp_ret, wp_ret. set (bytes := take 8 (drop 2 msg_buf)).
  assert (length bytes = 8%nat) as Hl by (unfold bytes; rewrite length_take, length_drop; lia).
  assert (Forall byte_ok bytes) as Hbytes by (by apply Forall_take, Forall_drop).
  pose proof (load_range bytes Hbytes) as Hload. rewrite Hl in Hload.
  rewrite ntohll_ntoh by done. rewrite <-Hl at 1. by rewrite ntoh_load.
Qed.

Lemma timestamp_range msg_buf : bytes_ok msg_buf → length msg_buf = 10%nat → 0 ≤ timestamp_of msg_buf < 2 ^ 64.
Proof.
  intros Hb Hlen. unfold timestamp_of. pose proof (be_value_range (take 8 (drop 2 msg_buf))) as Hr.
  rewrite length_take, length_drop, Hlen in Hr. apply Hr. by apply Forall_take, Forall_drop.
Qed.

(** A time read from the clock at some point after [w]. *)
Definition read_after (w : World) (t : timespec) : Prop := ∃ k, (clock_reads w ≤ k)%nat ∧ clock k = Some t.

Lemma read_after_now w t : clock (clock_reads w) = Some t → read_after w t.
Proof. intros Ht. by exists (clock_reads w). Qed.
Lemma read_after_later w w' t : (clock_reads w ≤ clock_reads w')%nat → read_after w' t → read_after w t.
Proof. intros Hle (k & Hk & Ht). exists k. split; [lia|done]. Qed.

Definition now_elapsed (w : World) (t : timespec) : Z := elapsed (start_time w) t.
Definition now_synchronized (w : World) (t : timespec) : Z :=
  synchronized (sync_level (node w)) (offset_ms (node w)) (now_elapsed w t).

(** ** [GET_TIME], [LEADER] and [DELAY_REQUEST] *)
Definition handle_get_time_post (msg_buf : list Z) (sender : sockaddr_in) (w w' : World) : Prop :=
  (if decide (length msg_buf = 1%nat)
   then ∃ t, clock (clock_reads w) = Some t ∧ node w' = node w ∧ peers w' = peers w ∧
        sent w' = sent w ++ [(sender, sync_bytes TIME (sync_level (node w)) (now_synchronized w t))]
   else unchanged w w') ∧ logged (length msg_buf = 1%nat) msg_buf w w'.

Lemma handle_get_time_run msg_buf sender w :
  node_ok w →
  wp' (handle_get_time clock msg_buf sender) (λ _ w', node_ok w' ∧ handle_get_time_post msg_buf sender w w') w.
Proof.
  intros Hw. unfold handle_get_time, handle_get_time_post. wp_step. apply wp_get_node. unfold MESSAGE_SIZE.
  wp_step; [apply negb_true_iff, Z.eqb_neq in Hb|apply negb_false_iff, Z.eqb_eq in Hb].
  { reject ltac:(lia). }
  pose proof (inv_offset _ _ (ok_data _ _ Hw)) as Ho.
  wp_step. apply wp_get_clock; [done|by apply Hw|done|]. intros t Ht Htok Hle Hel.
  pose proof (synchronized_range (sync_level (node w)) _ _ Ho Hel).
  wp_step. apply wp_create_sync_message; [eauto with wp_db|lia|]. intros b Hlen Htake.
  eapply wp_send_message; [exact Htake|]. intros e l Hl. rewrite decide_True by lia.
  split; [eapply node_ok_frame; eauto with wp_db|]. split; [by exists t|]. by apply logged_quiet; [lia|].
Qed.

Definition leader_valid (msg_buf : list Z) (w : World) : Prop :=
  length msg_buf = 2%nat ∧
  (level_of msg_buf = CLOCK_LEADER ∨ level_of msg_buf = CLOCK_UNSYNCHRONIZED ∧ sync_level (node w) = CLOCK_LEADER).

Definition handle_leader_post (msg_buf : list Z) (w w' : World) : Prop :=
  (if decide (length msg_buf = 2%nat ∧ level_of msg_buf = CLOCK_LEADER)
   then ∃ t, clock (clock_reads w) = Some t ∧ peers w' = peers w ∧ sent w' = sent w ∧
        node w' = node w <| sync_level := CLOCK_LEADER |> <| next_sync_start := later 2 t |>
   else if decide (length msg_buf = 2%nat ∧ level_of msg_buf = CLOCK_UNSYNCHRONIZED ∧ sync_level (node w) = CLOCK_LEADER)
   then peers w' = peers w ∧ sent w' = sent w ∧ node w' = node w <| sync_level := CLOCK_UNSYNCHRONIZED |>
   else unchanged w w') ∧ logged (leader_valid msg_buf w) msg_buf w w'.

Lemma handle_leader_run msg_buf sender w :
  node_ok w →
  wp' (handle_leader clock msg_buf sender) (λ _ w', node_ok w' ∧ handle_leader_post msg_buf w w') w.
Proof.
  intros Hw. unfold handle_leader. pose proof (ok_data _ _ Hw) as [Hids Hlev Hoff Hlast Hsync].
  change (MESSAGE_SIZE + SYNCHRONIZED_SIZE) with 2.
  assert (¬ leader_valid msg_buf w → wp' (bad_message msg_buf) (λ _ w', node_ok w' ∧ handle_leader_post msg_buf w w') w) as Hno.
  { unfold leader_valid. intros Hno. apply wp_rejected; [done..|]. rewrite !decide_False by tauto. done. }
  unfold handle_leader_post, leader_valid in *.
  wp_step; [apply negb_true_iff, Z.eqb_neq in Hb|apply negb_false_iff, Z.eqb_eq in Hb]; [apply Hno; lia|].
  wp_step. apply wp_msg_level; [lia|].
  wp_step; [apply Z.eqb_eq in Hb0|apply Z.eqb_neq in Hb0].
  - wp_step. apply wp_set_node. wp_step. apply wp_event_in_x_seconds; [done|done|]. intros t Ht Htok.
    apply wp_set_node. rewrite decide_True by (split; [lia|done]).
    split; [eapply (node_ok_set_data w); eauto with wp_db; done|]. split; [by exists t|].
    apply logged_quiet; [|done]. split; [lia|by left].
  - wp_step; [apply Z.eqb_eq in Hb1|apply Z.eqb_neq in Hb1; apply Hno; tauto].
    wp_step. apply wp_get_node.
    wp_step; [apply negb_true_iff, Z.eqb_neq in Hb2|apply negb_false_iff, Z.eqb_eq in Hb2]; [apply Hno; tauto|].
    apply wp_set_node. rewrite decide_False, decide_True by (tauto || (split; [lia|done])).
    split; [eapply (node_ok_set_data w); eauto with wp_db; done|]. split; [done|].
    apply logged_quiet; [|done]. split; [lia|by right].
Qed.

Definition delay_request_valid (msg_buf : list Z) (sender : sockaddr_in) (u : timespec) (w : World) : Prop :=
  length msg_buf = 1%nat ∧ sender ∈ asked w ∧ now_elapsed w u ≤ last_sync_start (node w) + 5.
#[global] Instance delay_request_valid_dec msg_buf sender u w : Decision (delay_request_valid msg_buf sender u w).
Proof. unfold delay_request_valid. apply _. Defined.

Definition handle_delay_request_post (msg_buf : list Z) (sender : sockaddr_in) (w w' : World) : Prop :=
  ∃ t u, clock (clock_reads w) = Some t ∧ clock (S (clock_reads w)) = Some u ∧
  (if decide (delay_request_valid msg_buf sender u w)
   then node w' = node w ∧ peers w' = peers w ∧
        sent w' = sent w ++ [(sender, sync_bytes DELAY_RESPONSE (sync_level (node w)) (now_synchronized w t))]
   else unchanged w w') ∧ logged (delay_request_valid msg_buf sender u w) msg_buf w w'.

Lemma handle_delay_request_run msg_buf sender w :
  node_ok w →
  wp' (handle_delay_request clock msg_buf sender) (λ _ w', node_ok w' ∧ handle_delay_request_post msg_buf sender w w') w.
Proof.
  intros Hw. unfold handle_delay_request, handle_delay_request_post. destruct (node_ok_lists w Hw) as (_ & _ & Hq).
  pose proof (ok_data _ _ Hw) as [Hids Hlev Hoff Hlast Hsync].
  wp_step. apply wp_get_clock; [done|by apply Hw|done|]. intros t Ht Htok Hle Hel.
  pose proof (synchronized_range (sync_level (node w)) _ _ Hoff Hel).
  wp_step. apply wp_get_natural_clock; [done|apply started_tick; apply Hw|]. intros u Hu Huok Hle' Hel'.
  wp_step. apply wp_get_node. unfold MESSAGE_SIZE.
  assert (node_ok (tick (tick w))) as Hw2 by (eapply node_ok_frame; eauto with wp_db).
  assert (¬ delay_request_valid msg_buf sender u w →
    wp' (bad_message msg_buf) (λ _ w', node_ok w' ∧ handle_delay_request_post msg_buf sender w w') (tick (tick w))) as Hno.
  { intros Hno. eapply wp_mono; [|eapply (wp_rejected _ (unchanged w) msg_buf w); [exact Hw2|exact Hno|done|done]].
    intros [] w' (Hw' & Hun & Hlog). split; [done|]. exists t, u. by rewrite decide_False. }
  unfold handle_delay_request_post in Hno.
  wp_step; [apply negb_true_iff, Z.eqb_neq in Hb|apply negb_false_iff, Z.eqb_eq in Hb].
  { apply Hno. unfold delay_request_valid. lia. }
  wp_step. eapply wp_list_contains; [exact Hq|]. unfold DELAY_RESPONSE_TIME.
  rewrite wrap_small by (unfold in_u; simpl; lia).
  wp_step; [apply orb_true_iff in Hb0|apply orb_false_iff in Hb0].
  { apply Hno. unfold delay_request_valid, now_elapsed. intros (_ & Hin & Hlate).
    destruct Hb0 as [Hb0|Hb0]; [|apply Z.ltb_lt in Hb0; simpl in *; lia].
    by rewrite bool_decide_true in Hb0. }
  destruct Hb0 as [Hin%negb_false_iff%bool_decide_eq_true Hlate%Z.ltb_ge].
  wp_step. apply wp_create_sync_message; [eauto with wp_db|lia|]. intros b Hlen Htake.
  eapply wp_send_message; [exact Htake|]. intros e l Hl.
  split; [eapply node_ok_frame; eauto with wp_db|]. exists t, u. split; [done|]. split; [done|].
  assert (delay_request_valid msg_buf sender u w) as Hv by (split; [lia|done]).
  rewrite decide_True by done. split; [done|]. by apply logged_quiet.
Qed.

(** ** [SYNC_START] *)
Definition sync_start_valid (msg_buf : list Z) (sender : sockaddr_in) (w : World) : Prop :=
  length msg_buf = 10%nat ∧ level_of msg_buf < 254 ∧ sender ∈ known w.
Definition synchronized_to (sender : sockaddr_in) (n : NodeData) : Prop :=
  sync_level n < 255 ∧ sender = synchronized_peer n.
#[global] Instance sync_start_valid_dec msg_buf sender w : Decision (sync_start_valid msg_buf sender w).
Proof. unfold sync_start_valid. apply _. Defined.
#[global] Instance synchronized_to_dec sender n : Decision (synchronized_to sender n).
Proof. unfold synchronized_to. apply _. Defined.

(** The exchange began: times 2 and 3 were taken in this order, and [DELAY_REQUEST] was sent. *)
Definition exchange_began (msg_buf : list Z) (sender : sockaddr_in) (check : timespec) (w w' : World) : Prop :=
  ∃ t2 t3 deadline, clock (clock_reads w) = Some t2 ∧ read_after w t3 ∧ nanos t2 ≤ nanos t3 ∧ peers w' = peers w ∧
    node w' = node w <| next_sync_check := check |> <| synchronizing := true |>
      <| synchronizing_level := level_of msg_buf |> <| T1 := timestamp_of msg_buf |> <| T2 := now_elapsed w t2 |>
      <| peer_to_sync := sender |> <| T3 := now_elapsed w t3 |> <| waiting_for_delay_response := deadline |> ∧
    sent w' = sent w ++ [(sender, [DELAY_REQUEST])].

Definition handle_sync_start_post (msg_buf : list Z) (sender : sockaddr_in) (w w' : World) : Prop :=
  (if decide (sync_start_valid msg_buf sender w ∧ synchronizing (node w) = false) then
     if decide (synchronized_to sender (node w)) then
       if decide (sync_level (node w) ≤ level_of msg_buf)
       then peers w' = peers w ∧ sent w' = sent w ∧
            node w' = node w <| sync_level := CLOCK_UNSYNCHRONIZED |> <| offset_ms := 0 |>
       else ∃ t, read_after w t ∧ exchange_began msg_buf sender (later 20 t) w w'
     else
       if decide (sync_level (node w) ≤ level_of msg_buf + 1) then unchanged w w'
       else exchange_began msg_buf sender (next_sync_check (node w)) w w'
   else unchanged w w') ∧ logged (sync_start_valid msg_buf sender w) msg_buf w w'.

(** The timestamps with which the arithmetic of [update_offset] cannot overflow. *)
Definition sane_timestamp (msg_buf : list Z) : Prop := timestamp_of msg_buf < 2 ^ 62.

Lemma wp_start_synchronization msg_buf sender check t2 w w1 (Q : unit → World → Prop) :
  node_ok w → bytes_ok msg_buf → length msg_buf = 10%nat → level_of msg_buf < 254 → sane_timestamp msg_buf →
  sender ∈ known w → clock (clock_reads w) = Some t2 →
  (clock_reads w < clock_reads w1)%nat → start_time w1 = start_time w → send_buffer w1 = send_buffer w →
  node w1 = node w <| next_sync_check := check |> → peers w1 = peers w → sent w1 = sent w → stderr w1 = stderr w →
  (∀ w', node_ok w' → exchange_began msg_buf sender check w w' → quiet w w' → Q tt w') →
  wp' (start_synchronization clock (level_of msg_buf) (timestamp_of msg_buf) (now_elapsed w t2) sender) Q w1.
Proof.
  intros Hw Hb Hlen Hlev Hts Hknown Ht2 Hk Hst Hbuf Hn Hp Hsent Herr HQ. unfold start_synchronization.
  pose proof (ok_data _ _ Hw) as [Hids Hlevel Hoff Hlast Hsync].
  pose proof (level_range msg_buf Hb) as Hlr. pose proof (timestamp_range msg_buf Hb Hlen) as Htr.
  assert (timespec_ok t2) as Hok2 by (by eapply monotonic_range).
  pose proof (start_before _ _ (ok_started _ _ Hw) _ t2 (le_n _) Ht2) as Hle2.
  pose proof (elapsed_range _ _ (start_range _ _ (ok_started _ _ Hw)) Hok2 Hle2) as Hel2.
  assert (started clock w1) as Hs1 by (eapply started_later; [apply Hw|done|lia]).
  wp_step. apply wp_set_node. wp_step. apply wp_create_simple_message; [by eapply buffer_same; [apply Hw|]|].
  intros b Hblen Htake. wp_step. apply wp_get_natural_clock; [done|eapply started_later; [exact Hs1|done|apply le_n]|].
  intros t3 Ht3 Hok3 Hle3 Hel3. wp_step. apply wp_set_node. wp_step. eapply wp_send_message; [exact Htake|].
  intros e l Hl. wp_step. apply wp_event_in_x_seconds; [done|done|]. intros t4 Ht4 Hok4. apply wp_set_node.
  change (start_time (w1 <| node ::= _ |> <| send_buffer := b |>)) with (start_time w1) in *.
  change (clock_reads (w1 <| node ::= _ |> <| send_buffer := b |>)) with (clock_reads w1) in *.
  apply HQ.
  - apply (node_ok_set_data w); [done|by eapply started_later; [exact Hs1|done|simpl; lia]|exact Hblen|exact Hp| |].
    + simpl. by rewrite Hn.
    + simpl. rewrite Hn, Hst in *. unfold now_elapsed. unfold sane_timestamp in Hts.
      split; simpl; [done..|]. intros _. repeat split; try lia; done.
  - exists t2, t3, (later DELAY_RESPONSE_TIME t4). split; [done|]. split; [exists (clock_reads w1); split; [lia|done]|].
    split; [eapply monotonic_order; [|exact Ht2|exact Ht3]; lia|]. split; [exact Hp|].
    simpl. rewrite Hn, Hsent, Hst. done.
  - unfold quiet. rewrite <-(quiet_same _ _ Herr). exact Hl.
Qed.

Lemma handle_sync_start_run msg_buf sender w :
  node_ok w → bytes_ok msg_buf → sane_timestamp msg_buf →
  wp' (handle_sync_start clock msg_buf sender) (λ _ w', node_ok w' ∧ handle_sync_start_post msg_buf sender w w') w.
Proof.
  intros Hw Hb Hts. unfold handle_sync_start, check_sync_start.
  destruct (node_ok_lists w Hw) as (Hkn & _). pose proof (ok_data _ _ Hw) as [Hids Hlevel Hoff Hlast Hsync].
  wp_step. apply wp_get_natural_clock; [done|by apply Hw|]. intros t2 Ht2 Hok2 Hle2 Hel2.
  assert (node_ok (tick w)) as Hw1 by (eapply node_ok_frame; eauto with wp_db).
  assert (¬ sync_start_valid msg_buf sender w →
    wp' (bad_message msg_buf) (λ _ w', node_ok w' ∧ handle_sync_start_post msg_buf sender w w') (tick w)) as Hno.
  { intros Hno. apply wp_rejected; [done..|]. rewrite decide_False by (by intros [? _]). done. }
  unfold handle_sync_start_post in *.
  wp_step. wp_step. apply wp_get_node. change (MESSAGE_SIZE + SYNCHRONIZED_SIZE + TIMESTAMP_SIZE) with 10.
  change (CLOCK_UNSYNCHRONIZED - 1) with 254. change (node (tick w)) with (node w).
  wp_step; [apply negb_true_iff, Z.eqb_neq in Hb0|apply negb_false_iff, Z.eqb_eq in Hb0].
  { apply wp_ret. cbn [negb]. apply Hno. unfold sync_start_valid. lia. }
  assert (length msg_buf = 10%nat) as Hlen by lia. pose proof (timestamp_range msg_buf Hb Hlen) as Htr.
  wp_step. apply wp_msg_level; [lia|]. wp_step. eapply wp_list_contains; [exact Hkn|].
  wp_step; [apply orb_true_iff in Hb1|apply orb_false_iff in Hb1].
  { apply wp_ret. cbn [negb]. apply Hno. unfold sync_start_valid.
    intros (_ & Hl & Hin). destruct Hb1 as [?%Z.leb_le|Hb1]; [lia|]. by rewrite bool_decide_true in Hb1. }
  destruct Hb1 as [Hlev%Z.leb_gt Hin%negb_false_iff%bool_decide_eq_true].
  assert (sync_start_valid msg_buf sender w) as Hvalid by done. clear Hno.
  assert (∀ w', quiet w w' → logged (sync_start_valid msg_buf sender w) msg_buf w w') as Hlog by (intros; by apply logged_quiet).
  apply wp_ret. cbn [negb]. wp_step. apply wp_get_node. change (node (tick w)) with (node w).
  destruct (synchronizing (node w)) eqn:Hsyn.
  { apply wp_ret. rewrite decide_False by (by intros [_ ?]). split; [done|]. split; [done|]. by apply Hlog. }
  wp_step. apply wp_msg_level; [lia|]. wp_step. apply wp_msg_timestamp; [done|done|done|].
  cbv zeta. assert ((sync_level (node w) <? CLOCK_UNSYNCHRONIZED) && equal_addr sender (synchronized_peer (node w)) =
          bool_decide (synchronized_to sender (node w))) as ->.
  { apply eq_true_iff_eq. by rewrite andb_true_iff, Z.ltb_lt, equal_addr_spec, bool_decide_eq_true. }
  case_bool_decide as Hto.
  - wp_step; [apply Z.leb_le in Hb1|apply Z.leb_gt in Hb1].
    + apply wp_set_node. rewrite !decide_True by done.
      split; [eapply (node_ok_set_data w); eauto with wp_db; [done..|]; by destruct (ok_data _ _ Hw)|].
      split; [done|]. by apply Hlog.
    + wp_step. apply wp_event_in_x_seconds; [done|done|]. intros t Ht Hok. wp_step. apply wp_set_node.
      eapply (wp_start_synchronization msg_buf sender (later 20 t) t2 w); eauto; [simpl; lia|].
      intros w' Hw' Hex Hq. split; [done|]. split; [|by apply Hlog].
      rewrite decide_True, decide_True, decide_False by (done || lia).
      exists t. split; [|done]. by eapply read_after_later; [|by apply read_after_now]; simpl; lia.
  - wp_step; [apply Z.leb_le in Hb1|apply Z.leb_gt in Hb1].
    + apply wp_ret. rewrite decide_True, decide_False, decide_True by done. split; [done|]. split; [done|]. by apply Hlog.
    + eapply (wp_start_synchronization msg_buf sender (next_sync_check (node w)) t2 w); eauto; [simpl; destruct (node w); done|].
      intros w' Hw' Hex Hq. split; [done|]. split; [|by apply Hlog].
      rewrite decide_True, decide_False, decide_False by (done || lia). done.
Qed.

(** ** [DELAY_RESPONSE] *)
Definition delay_response_valid (msg_buf : list Z) (sender : sockaddr_in) (n : NodeData) : Prop :=
  length msg_buf = 10%nat ∧ synchronizing n = true ∧ sender = peer_to_sync n ∧
  level_of msg_buf = synchronizing_level n ∧ T1 n ≤ timestamp_of msg_buf.
#[global] Instance delay_response_valid_dec msg_buf sender n : Decision (delay_response_valid msg_buf sender n).
Proof. unfold delay_response_valid. apply _. Defined.

Definition new_offset (n : NodeData) (t4 : Z) : Z := Z.quot (T2 n - T1 n + T3 n - t4) 2.

Definition handle_delay_response_post (msg_buf : list Z) (sender : sockaddr_in) (w w' : World) : Prop :=
  (if decide (delay_response_valid msg_buf sender (node w)) then
    ∃ start check t, read_after w t ∧ check = later 20 t ∧
      (if decide (254 ≤ sync_level (node w) ∧ level_of msg_buf + 1 < 254)
       then ∃ u, read_after w u ∧ start = later 0 u else start = next_sync_start (node w)) ∧
      peers w' = peers w ∧ sent w' = sent w ∧
      node w' = node w <| T4 := timestamp_of msg_buf |> <| next_sync_start := start |>
        <| sync_level := level_of msg_buf + 1 |> <| offset_ms := new_offset (node w) (timestamp_of msg_buf) |>
        <| synchronized_peer := sender |> <| next_sync_check := check |> <| synchronizing := false |>
   else unchanged w w') ∧ logged (delay_response_valid msg_buf sender (node w)) msg_buf w w'.

Lemma new_offset_range n l t4 :
  data_inv n l → synchronizing n = true → 0 ≤ t4 < 2 ^ 62 → - 2 ^ 62 ≤ new_offset n t4 < 2 ^ 62.
Proof.
  intros [_ _ _ _ Hsync] Hs Ht. destruct (Hsync Hs) as (_ & H1 & H2 & H3 & _).
  unfold new_offset. Z.to_euclidean_division_equations. lia.
Qed.

Lemma wp_update_offset (Q : unit → World → Prop) w :
  0 ≤ T1 (node w) < 2 ^ 62 → 0 ≤ T2 (node w) < 2 ^ 50 → 0 ≤ T3 (node w) < 2 ^ 50 → 0 ≤ T4 (node w) < 2 ^ 62 →
  Q tt (w <| node ::= λ n, n <| offset_ms := new_offset (node w) (T4 (node w)) |> |>) → wp' update_offset Q w.
Proof.
  intros H1 H2 H3 H4 HQ. unfold update_offset. wp_step. apply wp_get_node.
  rewrite !swrap_small by (unfold in_s; lia).
  repeat (wp_step; apply wp_signed64; [unfold in_s; lia|]). exact HQ.
Qed.

(** The end of the exchange, from the start of the next SYNC_START on. *)
Lemma finish_synchronization_run msg_buf sender w start w2 :
  node_ok w → bytes_ok msg_buf → sane_timestamp msg_buf → delay_response_valid msg_buf sender (node w) →
  started clock w2 → buffer_ok w2 → (clock_reads w ≤ clock_reads w2)%nat → peers w2 = peers w → sent w2 = sent w → stderr w2 = stderr w →
  node w2 = node w <| T4 := timestamp_of msg_buf |> <| next_sync_start := start |> →
  (if decide (254 ≤ sync_level (node w) ∧ level_of msg_buf + 1 < 254)
     then ∃ u, read_after w u ∧ start = later 0 u else start = next_sync_start (node w)) →
  wp' (finish_synchronization clock (level_of msg_buf) sender)
    (λ _ w', node_ok w' ∧ handle_delay_response_post msg_buf sender w w') w2.
Proof.
  intros Hw Hb Hts Hvalid Hs2 Hbuf2 Hk2 Hp2 Hsent2 Herr2 Hn2 Hstart. unfold finish_synchronization.
  pose proof Hvalid as (Hlen & Hsyn & _ & Hl & Ht).
  pose proof (ok_data _ _ Hw) as Hd. pose proof Hd as [Hids Hlevel Hoff Hlast Hsync].
  pose proof (timestamp_range msg_buf Hb Hlen) as Htr. destruct (Hsync Hsyn) as (Hsl & H1 & H2 & H3 & _).
  wp_step. apply wp_set_node. rewrite wrap_small by (unfold in_u; lia). set (w3 := w2 <| node ::= _ |>).
  assert (node w3 = node w <| T4 := timestamp_of msg_buf |> <| next_sync_start := start |> <| sync_level := level_of msg_buf + 1 |>)
    as Hn3 by (unfold w3; simpl; by rewrite Hn2).
  unfold sane_timestamp in Hts.
  wp_step. apply wp_update_offset; [rewrite Hn3; simpl; lia..|].
  wp_step. apply wp_set_node. wp_step. apply wp_event_in_x_seconds; [done|done|]. intros t Ht' Hok. apply wp_set_node.
  assert (node (tick w3) = node w3) as Htick by done.
  split.
  - eapply (node_ok_set_data w); [done|by eapply started_later; [exact Hs2|done|simpl; lia]|exact Hbuf2|exact Hp2| |].
    + simpl. by rewrite Hn2.
    + simpl. rewrite Hn2. simpl. split; simpl; [done|lia| |done|done].
      apply (new_offset_range _ _ _ Hd Hsyn). lia.
  - split; [|apply logged_quiet; [done|by apply quiet_same]]. rewrite decide_True by done.
    exists start, (later 20 t), t. split; [exists (clock_reads w2); by split|]. split; [done|]. split; [done|].
    split; [exact Hp2|]. split; [exact Hsent2|]. simpl. rewrite Hn2. done.
Qed.

Lemma handle_delay_response_run msg_buf sender w :
  node_ok w → bytes_ok msg_buf → sane_timestamp msg_buf →
  wp' (handle_delay_response clock msg_buf sender) (λ _ w', node_ok w' ∧ handle_delay_response_post msg_buf sender w w') w.
Proof.
  intros Hw Hb Hts. unfold handle_delay_response.
  pose proof (ok_data _ _ Hw) as Hd. pose proof Hd as [Hids Hlevel Hoff Hlast Hsync].
  assert (¬ delay_response_valid msg_buf sender (node w) →
    wp' (bad_message msg_buf) (λ _ w', node_ok w' ∧ handle_delay_response_post msg_buf sender w w') w) as Hno.
  { intros Hn. apply wp_rejected; [done..|]. by rewrite decide_False. }
  wp_step. apply wp_get_node. change (MESSAGE_SIZE + SYNCHRONIZED_SIZE + TIMESTAMP_SIZE) with 10.
  wp_step; [apply negb_true_iff, Z.eqb_neq in Hb0|apply negb_false_iff, Z.eqb_eq in Hb0].
  { apply Hno. unfold delay_response_valid. lia. }
  assert (length msg_buf = 10%nat) as Hlen by lia. pose proof (timestamp_range msg_buf Hb Hlen) as Htr.
  destruct (synchronizing (node w)) eqn:Hsyn; cbn [negb orb]; [|apply Hno; unfold delay_response_valid; rewrite Hsyn; by intros (_ & ? & _)].
  destruct (Hsync eq_refl) as (Hsl & H1 & H2 & H3 & _).
  wp_step; [apply negb_true_iff, equal_addr_false in Hb1|apply negb_false_iff, equal_addr_spec in Hb1].
  { apply Hno. unfold delay_response_valid. by intros (_ & _ & ? & _). }
  wp_step. apply wp_msg_level; [lia|]. wp_step. apply wp_msg_timestamp; [done|done|done|].
  wp_step; [apply orb_true_iff in Hb2|apply orb_false_iff in Hb2].
  { apply Hno. intros (_ & _ & _ & Hl & Ht).
    destruct Hb2 as [?%negb_true_iff%Z.eqb_neq|?%Z.ltb_lt]; [done|lia]. }
  destruct Hb2 as [Hl%negb_false_iff%Z.eqb_eq Ht%Z.ltb_ge]. clear Hno.
  assert (delay_response_valid msg_buf sender (node w)) as Hvalid by done.
  wp_step. apply wp_set_node. set (w1 := w <| node ::= _ |>).
  assert (node_ok w1) as Hw1 by (eapply (node_ok_set_data w); eauto with wp_db; by destruct Hd).
  wp_step. change (CLOCK_UNSYNCHRONIZED - 1) with 254.
  assert ((254 <=? sync_level (node w)) && (level_of msg_buf + 1 <? 254) =
          bool_decide (254 ≤ sync_level (node w) ∧ level_of msg_buf + 1 < 254)) as ->.
  { apply eq_true_iff_eq. by rewrite andb_true_iff, Z.leb_le, Z.ltb_lt, bool_decide_eq_true. }
  case_bool_decide as Hnew.
  - wp_step. apply wp_event_in_x_seconds; [done|done|]. intros t Htk Hok. apply wp_set_node.
    apply (finish_synchronization_run msg_buf sender w (later 0 t)); eauto with wp_db; [simpl; lia|]. rewrite decide_True by done.
    exists t. split; [by exists (clock_reads w1)|done].
  - apply wp_ret. apply (finish_synchronization_run msg_buf sender w (next_sync_start (node w))); eauto with wp_db. by rewrite decide_False.
Qed.

(** ** Timers *)
Definition sync_start_to (w : World) (a : sockaddr_in) (m : sockaddr_in * list Z) : Prop :=
  ∃ t, read_after w t ∧ m = (a, sync_bytes SYNC_START (sync_level (node w)) (now_synchronized w t)).

(** Only the iterators of the peer lists differ. *)
Definition same_lists (p p' : Peers) : Prop := peer_lists p' = peer_lists p ∧ peers_ok p'.

Lemma same_lists_iterator p i l it :
  peers_ok p → peer_lists p !! i = Some l → (∀ a, it = Some a → a ∈ l) → same_lists p (iterator_to p i it).
Proof. intros. split; [done|]. by eapply iterator_to_ok. Qed.
Lemma same_lists_trans p1 p2 p3 : same_lists p1 p2 → same_lists p2 p3 → same_lists p1 p3.
Proof. intros [H1 _] [H2 ?]. split; [congruence|done]. Qed.
Lemma same_lists_inv own p p' : same_lists p p' → lists_inv own p → lists_inv own p'.
Proof. intros [Hs Hp] [_ Hb Hc]. split; [done|by rewrite Hs|by rewrite Hs]. Qed.
Lemma same_lists_now w w' : node w' = node w → same_lists (peers w) (peers w') → lists_now w' = lists_now w.
Proof. intros Hn (Hl & _). unfold lists_now, known, awaiting, asked, list_at. by rewrite Hn, Hl. Qed.

Lemma wp_sync_start_loop fuel l1 a l2 w (Q : unit → World → Prop) :
  node_ok w → known w = l1 ++ a :: l2 → (length l2 < fuel)%nat →
  peer_list_iterators (peers w) !! peer_list (node w) = Some (Some a) →
  (∀ w' msgs, node_ok w' → node w' = node w → same_lists (peers w) (peers w') → start_time w' = start_time w →
     (clock_reads w ≤ clock_reads w')%nat → sent w' = sent w ++ msgs → Forall2 (sync_start_to w) (a :: l2) msgs →
     Q tt w') →
  wp' (sync_start_loop clock fuel) Q w.
Proof.
  revert l1 a l2 w. induction fuel as [|fuel IH]; intros l1 a l2 w Hw Hkn Hfuel Hit HQ; [lia|]. cbn [sync_start_loop].
  destruct (node_ok_lists w Hw) as (Hl & _). pose proof (inv_peers_ok _ _ (ok_lists _ _ Hw)) as Hp.
  pose proof (inv_offset _ _ (ok_data _ _ Hw)) as Hoff.
  wp_step. apply wp_get_node. wp_step. eapply wp_peers_read; [by eapply valid_iterator_run|].
  wp_step. apply wp_get_clock; [done|by apply Hw|done|]. intros t Ht Htok Hle Hel.
  pose proof (synchronized_range (sync_level (node w)) _ _ Hoff Hel).
  wp_step. apply wp_create_sync_message; [eauto with wp_db|lia|]. intros b Hlen Htake.
  wp_step. eapply wp_send_message; [exact Htake|]. intros e lines Hlines.
  wp_step. eapply wp_with_peers; [by apply (peer_list_iterator_next_run _ _ (known w) Hp Hl l1 a l2)|].
  set (m := (a, sync_bytes SYNC_START _ _)). set (w1 := set_field peers _ _).
  assert (sync_start_to w a m) as Hm by (exists t; split; [by apply read_after_now|done]).
  assert (same_lists (peers w) (peers w1)) as Hsame.
  { apply (same_lists_iterator _ _ (known w)); [done|done|]. intros c Hc%head_Some_elem_of. rewrite Hkn.
    apply elem_of_app. right. by right. }
  assert (node_ok w1) as Hw1.
  { split; [eauto with wp_db|exact Hlen|by apply (same_lists_inv _ (peers w)); [|apply Hw]|exact (ok_data _ _ Hw)]. }
  destruct l2 as [|a2 l2].
  - apply wp_ret. apply (HQ w1 [m]); try done; [simpl; lia|]. by repeat constructor.
  - apply (IH (l1 ++ [a]) a2 l2 w1); [done| |simpl in Hfuel; lia|..].
    + change (known w1) with (known w). by rewrite Hkn, <-app_assoc.
    + simpl. apply list_lookup_insert_eq. by eapply lookup_lt_Some.
    + intros w' msgs Hw' Hn Hs Hst Hk Hsent Hmsgs. apply (HQ w' (m :: msgs)); try done.
      * simpl in Hk. lia.
      * rewrite Hsent. simpl. by rewrite <-app_assoc.
      * constructor; [done|]. eapply Forall2_impl; [exact Hmsgs|]. intros c cm (u & Hu & ->).
        exists u. split; [|done]. eapply read_after_later; [|exact Hu]. simpl. lia.
Qed.

Definition fresh_enough (w : World) : Prop :=
  CLOCK_LEADER < sync_level (node w) < CLOCK_UNSYNCHRONIZED →
  ∃ t, clock (clock_reads w) = Some t ∧ check_order (next_sync_check (node w)) t = false.

(** What [check_and_handle_timers] may do. *)
Inductive timers_step (w w' : World) : Prop :=
  | Expired t :
      CLOCK_LEADER < sync_level (node w) < CLOCK_UNSYNCHRONIZED → clock (clock_reads w) = Some t →
      check_order (next_sync_check (node w)) t = true →
      node w' = node w <| sync_level := CLOCK_UNSYNCHRONIZED |> <| offset_ms := 0 |> →
      peers w' = peers w → sent w' = sent w → timers_step w w'
  | Not_synchronizing_others :
      fresh_enough w → CLOCK_UNSYNCHRONIZED - 1 ≤ sync_level (node w) → unchanged w w' → timers_step w w'
  | Not_due t :
      fresh_enough w → sync_level (node w) < CLOCK_UNSYNCHRONIZED - 1 → read_after w t →
      check_order (next_sync_start (node w)) t = false → unchanged w w' → timers_step w w'
  | Sync_start_sent t last next msgs :
      fresh_enough w → sync_level (node w) < CLOCK_UNSYNCHRONIZED - 1 → read_after w t →
      check_order (next_sync_start (node w)) t = true → read_after w last → read_after w next →
      sent w' = sent w ++ msgs → Forall2 (sync_start_to w) (known w) msgs →
      lists_now w' = (known w, awaiting w, if decide (known w = []) then asked w else known w) →
      node w' = node w <| last_sync_start := now_elapsed w last |> <| next_sync_start := later 5 next |> →
      timers_step w w'.

(** The second half of the function: [SYNC_START] is due. Once all are sent, the next ones are. *)
Lemma wp_sync_starts_sent w t w2 msgs :
  fresh_enough w → sync_level (node w) < CLOCK_UNSYNCHRONIZED - 1 → read_after w t →
  check_order (next_sync_start (node w)) t = true →
  node_ok w2 → node w2 = node w → start_time w2 = start_time w →
  (clock_reads w ≤ clock_reads w2)%nat → sent w2 = sent w ++ msgs → Forall2 (sync_start_to w) (known w) msgs →
  lists_now w2 = (known w, awaiting w, if decide (known w = []) then asked w else known w) →
  wp' (t ← get_natural_clock clock;
       _ ← set_node (λ n, n <| last_sync_start := t |>);
       ts ← event_in_x_seconds clock SYNC_START_DELAY;
       set_node (λ n, n <| next_sync_start := ts |>)) (λ _ w', node_ok w' ∧ timers_step w w') w2.
Proof.
  intros Hfresh Hlev Ht Hdue Hw2 Hn2 Hst2 Hk2 Hs2 Hmsgs Hl2. wp_step. apply wp_get_natural_clock; [done|by apply Hw2|].
  intros u Hu Huok Hle Hel. wp_step. apply wp_set_node. wp_step. apply wp_event_in_x_seconds; [done|done|].
  intros v Hv Hvok. apply wp_set_node. split.
  - eapply (node_ok_set_data w2); eauto with wp_db; [done..|]. destruct (ok_data _ _ Hw2). by split.
  - eapply (Sync_start_sent w _ t u v msgs); try done.
    + eapply read_after_later; [exact Hk2|]. by apply read_after_now.
    + exists (S (clock_reads w2)). split; [lia|exact Hv].
    + simpl. rewrite Hn2. unfold now_elapsed. by rewrite Hst2.
Qed.

Lemma wp_send_sync_starts w w1 t :
  node_ok w → node_ok w1 → node w1 = node w → peers w1 = peers w → sent w1 = sent w → start_time w1 = start_time w →
  (clock_reads w ≤ clock_reads w1)%nat →
  fresh_enough w → sync_level (node w) < CLOCK_UNSYNCHRONIZED - 1 → read_after w t →
  check_order (next_sync_start (node w)) t = true →
  wp' (send_sync_starts clock (node w)) (λ _ w', node_ok w' ∧ timers_step w w') w1.
Proof.
  intros Hw Hw1 Hn1 Hp1 Hsent1 Hst1 Hk1 Hfresh Hlev Ht Hdue. unfold send_sync_starts.
  destruct (node_ok_lists w Hw) as (Hl & _ & Hq). pose proof (inv_peers_ok _ _ (ok_lists _ _ Hw)) as Hp.
  wp_step. eapply wp_with_peers; [eapply peer_list_iterator_begin_run; [by rewrite Hp1|by rewrite Hp1]|].
  set (w2 := w1 <| peers := _ |>).
  assert (same_lists (peers w) (peers w2)) as Hsame.
  { unfold w2. simpl. rewrite Hp1. apply (same_lists_iterator _ _ (known w)); [done|done|]. intros c. apply head_Some_elem_of. }
  assert (node_ok w2) as Hw2.
  { split; [apply (started_later w1); [apply Hw1|done|done]|apply Hw1|..].
    - change (node w2) with (node w1). rewrite Hn1. by apply (same_lists_inv _ (peers w)); [|apply Hw].
    - change (node w2) with (node w1). pose proof (same_lists_now w w2 Hn1 Hsame) as Hls. injection Hls as -> _ _.
      rewrite Hn1. apply Hw. }
  assert (lists_now w2 = lists_now w) as Hls by (by apply same_lists_now).
  destruct (known w) as [|a l2] eqn:Hkn.
  { wp_step. apply wp_ret. apply (wp_sync_starts_sent w t w2 []); [done..|exact Hn1|exact Hst1|exact Hk1|by rewrite app_nil_r|by rewrite Hkn|].
    rewrite decide_True by done. rewrite Hls. unfold lists_now. by rewrite Hkn. }
  destruct (node_ok_lists w2 Hw2) as (Hl2 & _ & Hq2).
  assert (known w2 = a :: l2) as Hkn2 by (injection Hls as -> _ _; done).
  assert (node w2 = node w) as Hn2 by exact Hn1. rewrite Hn2, Hkn2 in Hl2.
  wp_step. wp_step. eapply wp_peers_read; [by apply run_get_list|].
  wp_step. apply (wp_sync_start_loop _ [] a l2); [done|exact Hkn2|simpl; lia|..].
  { rewrite Hn2. unfold w2. simpl. apply list_lookup_insert_eq. rewrite Hp1, (iterators_length _ Hp).
    by eapply lookup_lt_Some. }
  intros w3 msgs Hw3 Hn3 Hs3 Hst3 Hk3 Hsent3 Hmsgs.
  assert (lists_now w3 = lists_now w) as Hls3.
  { apply same_lists_now; [by rewrite Hn3|]. by eapply same_lists_trans. }
  destruct (node_ok_lists w3 Hw3) as (Hl3 & _ & Hq3). injection Hls3 as Hk3' Ha3 Hq3'.
  rewrite Hn3, Hn2, Hk3' in Hl3. rewrite Hn3, Hn2 in Hq3.
  eapply wp_with_peers; [by apply (peer_list_cpy_run _ _ _ Hl3 _ (asked w3))|].
  set (w4 := w3 <| peers := _ |>).
  assert (node w4 = node w) as Hn4 by (by rewrite <-Hn2, <-Hn3).
  destruct (node_ok_set_asked w3 w4) as [Hw4 Hl4]; eauto with wp_db.
  { rewrite Hk3', Hn3, Hn2. pose proof (inv_peers_ok _ _ (ok_lists _ _ Hw3)) as Hp3.
    set (p1 := set_to (peers w3) (asked_to_synchronize (node w)) []).
    assert (peers_ok p1) as Hp1' by (apply (set_to_ok _ _ _ Hq3); [done|apply set_ok_nil]).
    assert (peer_lists p1 !! asked_to_synchronize (node w) = Some []) as Hq1
      by (apply list_lookup_insert_eq; by eapply lookup_lt_Some).
    destruct (sets_to p1 _ [] Hq1 (known w)) as [Hok Hset]; [done|by apply known_ok|].
    split; [exact Hok|]. etransitivity; [exact Hset|]. apply list_insert_insert_eq. }
  rewrite Hk3', Ha3, Hkn in Hl4.
  assert (∀ c m, sync_start_to w2 c m → sync_start_to w c m) as Hmsg.
  { intros c m (u & Hu & ->). exists u. split; [by eapply read_after_later; [exact Hk1|]|].
    unfold now_synchronized, now_elapsed. rewrite Hn2. change (start_time w2) with (start_time w1). by rewrite Hst1. }
  apply (wp_sync_starts_sent w t w4 msgs); [done..| | | | |].
  - change (start_time w4) with (start_time w3). by rewrite Hst3.
  - change (clock_reads w4) with (clock_reads w3). change (clock_reads w2) with (clock_reads w1) in Hk3. lia.
  - change (sent w4) with (sent w3). rewrite Hsent3. change (sent w2) with (sent w1). by rewrite Hsent1.
  - rewrite Hkn. eapply Forall2_impl; [exact Hmsgs|exact Hmsg].
  - by rewrite Hkn, decide_False.
Qed.

Lemma check_and_handle_timers_run w :
  node_ok w → wp' (check_and_handle_timers clock) (λ _ w', node_ok w' ∧ timers_step w w') w.
Proof.
  intros Hw. unfold check_and_handle_timers. wp_step. apply wp_get_node. unfold CLOCK_LEADER, CLOCK_UNSYNCHRONIZED.
  assert (∀ w1, node_ok w1 → node w1 = node w → peers w1 = peers w → sent w1 = sent w → start_time w1 = start_time w →
    (clock_reads w ≤ clock_reads w1)%nat → fresh_enough w →
    wp' (n ← get_node; if sync_level n <? 255 - 1
         then due ← now_is_after clock (next_sync_start n); if (due : bool) then send_sync_starts clock n else mret tt
         else mret tt) (λ _ w', node_ok w' ∧ timers_step w w') w1) as Hrest.
  { intros w1 Hw1 Hn1 Hp1 Hs1 Hst1 Hk1 Hfresh. wp_step. apply wp_get_node. rewrite Hn1. change (255 - 1) with 254.
    wp_step; [apply Z.ltb_lt in Hb|apply Z.ltb_ge in Hb].
    - wp_step. apply wp_now_is_after; [done|]. intros t Ht Hok.
      assert (read_after w t) as Hread by (by eapply read_after_later; [|apply read_after_now]).
      assert (node_ok (tick w1)) as Hw1' by (eapply (node_ok_frame w1); eauto with wp_db).
      destruct (check_order _ _) eqn:Hdue.
      + apply (wp_send_sync_starts w _ t); try done. simpl. lia.
      + apply wp_ret. split; [done|]. by eapply Not_due.
    - apply wp_ret. split; [done|]. by apply Not_synchronizing_others. }
  unfold CLOCK_LEADER, CLOCK_UNSYNCHRONIZED in *.
  wp_step. wp_step; [apply andb_true_iff in Hb as [H1%Z.ltb_lt H2%Z.ltb_lt]|apply andb_false_iff in Hb].
  - wp_step. apply wp_now_is_after; [done|]. intros t Ht Hok.
    assert (node_ok (tick w)) as Hw1 by (eapply (node_ok_frame w); eauto with wp_db).
    destruct (check_order _ _) eqn:Hlate.
    + apply wp_set_node. wp_step. apply wp_get_node. simpl (sync_level _). cbn [sync_level node set_field]. apply wp_ret.
      split; [|by eapply Expired].
      eapply (node_ok_set_data w); eauto with wp_db; [done..|]. destruct (ok_data _ _ Hw). by split.
    + apply wp_ret. apply Hrest; try done; [simpl; lia|]. intros _. by exists t.
  - apply wp_ret. apply Hrest; try done. unfold fresh_enough. intros [H1 H2].
    destruct Hb as [Hb%Z.ltb_ge|Hb%Z.ltb_ge]; unfold CLOCK_LEADER, CLOCK_UNSYNCHRONIZED in *; lia.
Qed.

(** ** Relations that every step of an operation keeps *)
Lemma keeps_peers (R : World → World → Prop) {A} (m : M Peers A) :
  (∀ w p, R w (w <| peers := p |>)) → preserves any_failure R (with_peers m).
Proof. intros HR w. unfold with_peers, wp. destruct (m (peers w)) as [[a p]|]; [apply HR|done]. Qed.

Lemma wp_keeps (R : World → World → Prop) {A} (m : WM A) (P : World → Prop) (Q : A → World → Prop) w :
  preserves any_failure R m → wp' m (λ a w', P w' ∧ Q a w') w → wp' m (λ a w', P w' ∧ Q a w' ∧ R w w') w.
Proof using Type. intros Hm. specialize (Hm w). unfold wp in *. destruct (m w) as [[a w']|]; tauto. Qed.

Ltac keeps_tac solve_step :=
  cbv zeta; repeat
    lazymatch goal with
    | |- preserves _ _ (with_peers _) => apply keeps_peers; intros ? ?; solve_step
    | _ => preserves_step solve_step
    end.

(** The start of the clock does not change, and the clock goes on. *)
Definition goes_on (w w' : World) : Prop := start_time w' = start_time w ∧ (clock_reads w ≤ clock_reads w')%nat.
#[local] Instance goes_on_preorder : PreOrder goes_on.
Proof. split; [by intros w|]. intros w1 w2 w3 [H1 H2] [H3 H4]. split; [congruence|lia]. Qed.
#[local] Instance quiet_preorder : PreOrder quiet.
Proof. split; [exact quiet_refl|exact quiet_trans]. Qed.
Ltac goes_on_tac := keeps_tac ltac:(unfold goes_on; cbn [start_time clock_reads set_field]; split; [done|simpl; lia]).
Ltac quiet_tac := keeps_tac ltac:(by apply quiet_same).

Lemma goes_on_clock_gettime : preserves any_failure goes_on (clock_gettime clock).
Proof. unfold clock_gettime. goes_on_tac. Qed.
Lemma goes_on_signed64 z : preserves any_failure goes_on (signed64 z).
Proof. unfold signed64. goes_on_tac. Qed.
Hint Resolve goes_on_clock_gettime goes_on_signed64 : preserves_db.
Lemma goes_on_get_natural_clock : preserves any_failure goes_on (get_natural_clock clock).
Proof. unfold get_natural_clock. goes_on_tac. Qed.
Lemma goes_on_event x : preserves any_failure goes_on (event_in_x_seconds clock x).
Proof. unfold event_in_x_seconds. goes_on_tac. Qed.
Lemma goes_on_error fmt args : preserves any_failure goes_on (error fmt args).
Proof. unfold error. goes_on_tac. Qed.
Hint Resolve goes_on_get_natural_clock goes_on_event goes_on_error : preserves_db.
Lemma goes_on_send_message ty len dest : preserves any_failure goes_on (send_message ty len dest).
Proof. unfold send_message. goes_on_tac. Qed.
Lemma goes_on_write pos bytes : preserves any_failure goes_on (write_send_buffer pos bytes).
Proof. unfold write_send_buffer. goes_on_tac. Qed.
Lemma goes_on_get_node : preserves any_failure goes_on get_node.
Proof. unfold get_node. goes_on_tac. Qed.
Lemma goes_on_set_node f : preserves any_failure goes_on (set_node f).
Proof. unfold set_node. goes_on_tac. Qed.
Lemma goes_on_bad_message msg_buf : preserves any_failure goes_on (bad_message msg_buf).
Proof. unfold bad_message, error_msg_hex. goes_on_tac. Qed.
Hint Resolve goes_on_send_message goes_on_write goes_on_get_node goes_on_set_node goes_on_bad_message : preserves_db.

Lemma goes_on_handle_sync_start msg_buf sender : preserves any_failure goes_on (handle_sync_start clock msg_buf sender).
Proof.
  unfold handle_sync_start, check_sync_start, start_synchronization, create_delay_request_message, create_simple_message,
    msg_timestamp, msg_bytes, msg_byte, list_contains. goes_on_tac.
Qed.
Lemma goes_on_handle_delay_response msg_buf sender : preserves any_failure goes_on (handle_delay_response clock msg_buf sender).
Proof.
  unfold handle_delay_response, finish_synchronization, update_offset, msg_timestamp, msg_bytes, msg_byte. goes_on_tac.
Qed.

(** The timers report no message. *)
Lemma quiet_send_message ty len dest : preserves any_failure quiet (send_message ty len dest).
Proof.
  intros w. pose proof (wp_send_message (E:=any_failure) ty len dest _ (λ _ w', quiet w w') w eq_refl) as Hwp.
  unfold wp in *. destruct (send_message ty len dest w) as [[[] w']|]; [|done]. apply Hwp. by intros.
Qed.
Lemma quiet_clock_gettime : preserves any_failure quiet (clock_gettime clock).
Proof. unfold clock_gettime. quiet_tac. Qed.
Lemma quiet_signed64 z : preserves any_failure quiet (signed64 z).
Proof. unfold signed64. quiet_tac. Qed.
Lemma quiet_set_node f : preserves any_failure quiet (set_node f).
Proof. unfold set_node. quiet_tac. Qed.
Lemma quiet_get_node : preserves any_failure quiet get_node.
Proof. unfold get_node. quiet_tac. Qed.
Hint Resolve quiet_send_message quiet_clock_gettime quiet_signed64 quiet_set_node quiet_get_node : preserves_db.
Lemma quiet_get_natural_clock : preserves any_failure quiet (get_natural_clock clock).
Proof. unfold get_natural_clock. quiet_tac. Qed.
Hint Resolve quiet_get_natural_clock : preserves_db.

Lemma quiet_sync_start_loop fuel : preserves any_failure quiet (sync_start_loop clock fuel).
Proof.
  induction fuel as [|fuel IH]; [by apply preserves_fail|]. cbn [sync_start_loop].
  unfold get_clock, create_sync_start_message, create_sync_level_and_timestamp_message, write_send_buffer. quiet_tac.
Qed.
Hint Resolve quiet_sync_start_loop : preserves_db.
Lemma quiet_timers : preserves any_failure quiet (check_and_handle_timers clock).
Proof. unfold check_and_handle_timers, send_sync_starts, now_is_after, event_in_x_seconds. quiet_tac. Qed.

(** ** The main loop *)
Definition received_ok (r : Received) : Prop :=
  match r with
  | Datagram bytes sender => bytes_ok bytes ∧ addr_ok sender ∧ sane_timestamp bytes
  | _ => True
  end.

Lemma wp_left {A} (m : WM A) (P : World → Prop) (R : A → World → Prop) w :
  wp' m (λ a w', P w' ∧ R a w') w → wp' m (λ _ w', P w') w.
Proof. apply wp_mono. by intros a w' [HP _]. Qed.

Lemma handle_message_run msg_buf sender w :
  node_ok w → msg_buf ≠ [] → bytes_ok msg_buf → addr_ok sender → sane_timestamp msg_buf →
  wp' (handle_message clock msg_buf sender) (λ _ w', node_ok w') w.
Proof.
  intros Hw Hne Hb Hs Hts. unfold handle_message. wp_step. unfold msg_byte. apply wp_from_opt.
  2: { by destruct msg_buf. }
  intros ty Hty. repeat (destruct (ty =? _)); [..|apply wp_bad_message, (node_ok_console _ (errno w)), Hw].
  all: eapply wp_left.
  - by apply hello_handler_run.
  - by apply handle_hello_reply_run.
  - by apply handle_connect_run.
  - by apply handle_ack_connect_run.
  - by apply handle_sync_start_run.
  - by apply handle_delay_request_run.
  - by apply handle_delay_response_run.
  - by apply handle_leader_run.
  - by apply handle_get_time_run.
Qed.

(** The turns without a message: what they write leaves the rest of the state as it is. *)
Lemma wp_no_message r w (Q : unit → World → Prop) :
  (∀ bytes sender, r = Datagram bytes sender → bytes = []) → (∀ e l, Q tt (w <| errno := e |> <| stderr := l |>)) →
  wp' (receive clock r) Q w.
Proof.
  intros Hr HQ. destruct r as [|e|bytes sender]; cbn [receive].
  - apply wp_modify. exact (HQ 0 (stderr w)).
  - wp_step. apply wp_modify. eapply wp_error; [reflexivity|done|]. intros l _. apply HQ.
  - rewrite (Hr bytes sender eq_refl). apply wp_modify, (HQ (errno w)).
Qed.

Lemma node_turn_run r w : node_ok w → received_ok r → wp' (node_turn clock r) (λ _ w', node_ok w') w.
Proof.
  intros Hw Hr. unfold node_turn. wp_step. eapply wp_mono; [|by apply check_and_handle_timers_run].
  intros [] w1 [Hw1 _]. destruct r as [|e|[|b bytes] sender]; [..|by destruct Hr as (Hb & Hs & Hts); apply handle_message_run];
    (apply wp_no_message; [by intros ?? [= <- <-]|intros; by apply node_ok_console]).
Qed.

Lemma node_loop_run rs w : node_ok w → Forall received_ok rs → wp' (node_loop clock rs) (λ _ w', node_ok w') w.
Proof.
  intros Hw Hrs. revert w Hw. induction Hrs as [|r rs Hr Hrs IH]; intros w Hw; [by apply wp_ret|]. cbn [node_loop].
  wp_step. eapply wp_mono; [|by apply node_turn_run]. intros [] w1 Hw1. by apply IH.
Qed.

(** The process before [main]: the globals are initialised, the local [node_data] is not. *)
Record booted (w : World) : Prop := {
  boot_peers : peers w = no_peers;
  boot_buffer : buffer_ok w;
  boot_reads : clock_reads w = 0%nat }.

(** The two loops of [initialize_node_data] agree: every address has its place in the array. *)
Lemma count_ipv4_filter l num : count_ipv4 l num = (num + length (List.filter is_ipv4 l))%nat.
Proof. revert num. induction l as [|ifa l IH]; intros num; simpl; [lia|]. rewrite IH. destruct (is_ipv4 ifa); simpl; lia. Qed.

Definition own_address (port : Z) (ifa : ifaddrs) : sockaddr_in :=
  {| s_addr := match ifa with Some (_, a) => a | None => 0 end; sin_port := htons port |}.

Lemma store_ipv4_filter port l done rest :
  length rest = length (List.filter is_ipv4 l) →
  store_ipv4 port l (length done) (done ++ rest) = Ret (done ++ map (own_address port) (List.filter is_ipv4 l)).
Proof.
  revert done rest. induction l as [|ifa l IH]; intros dn rest Hlen; cbn [store_ipv4 List.filter is_ipv4] in *.
  { apply nil_length_inv in Hlen as ->. done. }
  destruct ifa as [[family a]|]; [|by apply IH]. change (is_ipv4 (Some (family, a))) with (family =? AF_INET) in *.
  destruct (family =? AF_INET); [|by apply IH].
  destruct rest as [|x rest]; [done|]. rewrite (proj2 (Nat.ltb_lt _ _)) by (rewrite length_app; simpl; lia).
  rewrite insert_app_r_alt, Nat.sub_diag by done. cbn [list_insert insert]. set (y := {| s_addr := a; sin_port := _ |}).
  specialize (IH (dn ++ [y]) rest). rewrite length_app, Nat.add_1_r, <-!app_assoc in IH. simpl in IH.
  rewrite IH by (simpl in Hlen; lia). done.
Qed.

(** Why the own addresses cannot be listed: the kernel does not give them, or there is no
    memory for them, which nobody tests when the address was bound. *)
Definition no_addresses (e : Setup) (bound : bool) (f : failure) : Prop :=
  match f with
  | Exit => bound = false ∧ (getifaddrs e = None ∨ malloc e = false)
  | Undef => bound = true ∧ malloc e = false
  | _ => False
  end.

(** The own addresses: the one that was bound, or those of all IPv4 interfaces. *)
Lemma find_my_addresses_run (e : Setup) (bound : bool) listen port :
  match find_my_addresses e bound listen port with
  | Ret own =>
      if bound then own = [{| s_addr := s_addr listen; sin_port := htons port |}]
      else ∃ l, getifaddrs e = Some l ∧ own = map (own_address port) (List.filter is_ipv4 l)
  | Fail f => no_addresses e bound f
  end.
Proof.
  unfold find_my_addresses, no_addresses. destruct bound; [by destruct (malloc e)|].
  destruct (getifaddrs e) as [l|]; [|cbn; tauto]. cbn [from_option_or mbind outcome_bind]. cbv zeta. rewrite count_ipv4_filter.
  destruct (Nat.eqb_spec (0 + length (List.filter is_ipv4 l)) 0) as [H0|_].
  { exists l. split; [done|]. by apply nil_length_inv in H0 as ->. }
  destruct (malloc e); [|tauto].
  pose proof (store_ipv4_filter port l [] (replicate (length (List.filter is_ipv4 l)) (garbage e))) as Hs.
  rewrite length_replicate in Hs. simpl in Hs |- *. rewrite Hs by done. by exists l.
Qed.

(** All a node ends by. *)
Definition node_ends (e : Setup) (bound : bool) (f : failure) : Prop := clock_exit clock f ∨ no_addresses e bound f.

Lemma wp_ends {A} (e : Setup) (bound : bool) (m : WM A) Q w : wp' m Q w → wp (node_ends e bound) m Q w.
Proof using Type. apply wp_weaken_failures. by left. Qed.

Lemma wp_initialize_node_data (e : Setup) (bound : bool) listen port w (Q : unit → World → Prop) :
  started clock w → buffer_ok w → peers w = no_peers →
  (∀ w', node_ok w' → sent w' = sent w → lists_now w' = ([], [], []) → Q tt w') →
  wp (node_ends e bound) (initialize_node_data e bound listen port) Q w.
Proof.
  intros Hs Hb Hp HQ. unfold initialize_node_data.
  wp_step. eapply wp_with_peers; [rewrite Hp; reflexivity|].
  wp_step. eapply wp_with_peers; [reflexivity|].
  wp_step. eapply wp_with_peers; [reflexivity|].
  wp_step. apply wp_set_node. wp_step. apply wp_lift_outcome.
  pose proof (find_my_addresses_run e bound listen port) as Hown.
  destruct (find_my_addresses e bound listen port) as [own|f]; [|by right].
  apply wp_set_node, HQ; [|done|done].
  split.
  - by eapply started_later; [exact Hs|done|].
  - exact Hb.
  - split; [split; [|done|done|by apply (no_position _ 3)]|done|]; simpl.
    + repeat (constructor; [apply set_ok_nil|]). constructor.
    + intros [|[|[|i]]] l a; simpl; [by intros [= <-] ?%not_elem_of_nil..|done].
  - by split.
Qed.

Lemma node_main_start_run (e : Setup) (bound : bool) listen port peer w :
  booted w → wp (node_ends e bound) (node_main_start clock e bound listen port peer) (λ _ w', node_ok w') w.
Proof.
  intros [Hp Hb Hr]. unfold node_main_start, clock_init. wp_step. wp_step. apply wp_ends, wp_clock_gettime; [done|].
  intros t Ht Hok. apply wp_modify. wp_step. rewrite Hr in Ht.
  apply wp_initialize_node_data; [|exact Hb|exact Hp|].
  { split; [exact Hok|]. intros k u Hk Hu. eapply (monotonic_order 0 k); [lia|exact Ht|exact Hu]. }
  intros w1 Hw1 Hs1 Hl1. destruct peer as [a|]; [|by apply wp_ret].
  wp_step. apply wp_set_node. wp_step. apply wp_set_node. unfold send_hello_message.
  wp_step. apply wp_get_node. wp_step. apply wp_create_simple_message; [apply Hw1|]. intros b Hlen Htake.
  eapply wp_send_message; [exact Htake|]. intros err l _.
  eapply (node_ok_set_data w1); eauto with wp_db; [done..|]. destruct (ok_data _ _ Hw1). by split.
Qed.
End handlers.
