(* ===== verification/NodeClaims.v ===== *)
(** * What a node of peer-time-sync does

    The properties of [messages.c], [clock.c] and of the main loop, each with an instance
    on a concrete node. [steady_clock] is a clock that advances by a millisecond whenever it
    is read, for 900 reads. *)
From Stdlib Require Import Ascii String.
From S2P Require Import Prelude CString Err Wire Peers PeerSets Node NodeSpec NodeInv.

(** ** Example nodes *)
#[local] Instance example_libc : Libc := λ _, lit "Some error".
(** A network that takes every datagram that fits into one. *)
#[local] Instance example_udp : Udp := λ _ _ bytes,
  if Z.of_nat (length bytes) <=? 65507 then (Z.of_nat (length bytes), 0) else (-1, 90).
Definition steady_clock (k : nat) : option timespec :=
  Some {| tv_sec := 100; tv_nsec := Z.of_nat (Nat.min k 900) * 1000000 |}.
#[export] Instance steady_clock_monotonic : Monotonic steady_clock.
Proof.
  split.
  - intros k t [= <-]. unfold timespec_ok. cbn [tv_sec tv_nsec]. lia.
  - intros j k t u Hjk [= <-] [= <-]. unfold nanos. cbn [tv_sec tv_nsec]. lia.
Qed.

Definition addr (host_number port : Z) : sockaddr_in := {| s_addr := host_number; sin_port := port |}.
Definition zero_time : timespec := {| tv_sec := 0; tv_nsec := 0 |}.
Definition example_data (own : list sockaddr_in) (level : Z) : NodeData :=
  {| my_addresses := own; known_peer := addr 0 0; peer_list := 0; waiting_for_hello_reply := false;
     waiting_for_ack_connect := 1; sync_level := level; offset_ms := 0; synchronized_peer := addr 0 0;
     next_sync_start := zero_time; next_sync_check := zero_time; last_sync_start := 0; asked_to_synchronize := 2;
     synchronizing := false; synchronizing_level := 0; peer_to_sync := addr 0 0;
     waiting_for_delay_response := zero_time; T1 := 0; T2 := 0; T3 := 0; T4 := 0 |}.
Definition example_world (n : NodeData) (l0 l1 l2 : list sockaddr_in) : World :=
  {| node := n; peers := {| peer_lists := [l0; l1; l2]; peer_list_iterators := [None; None; None]; next_id := 3 |};
     send_buffer := replicate (Z.to_nat 65536) 0; start_time := {| tv_sec := 100; tv_nsec := 0 |};
     clock_reads := 0; sent := []; errno := 0; stderr := [] |}.

Definition sorted_by_addr (l : list sockaddr_in) : bool :=
  (fix go l := match l with
               | a :: ((b :: _) as l') => sockaddr_in_less a b && go l'
               | _ => true
               end) l.
Lemma sorted_by_addr_sound l : sorted_by_addr l = true → StronglySorted (less sockaddr_in_less) l.
Proof.
  intros Hl. apply Sorted_StronglySorted; [intros a b c; apply (sto_trans (lt:=sockaddr_in_less))|].
  induction l as [|a l IH]; [constructor|]. destruct l as [|b l]; [by repeat constructor|].
  apply andb_true_iff in Hl as [Hab Hl]. constructor; [by apply IH|]. by constructor.
Qed.
Definition addr_okb (a : sockaddr_in) : bool :=
  (0 <=? s_addr a) && (s_addr a <? 2 ^ 32) && (0 <=? sin_port a) && (sin_port a <? 2 ^ 16).
Definition list_okb (own l : list sockaddr_in) : bool :=
  sorted_by_addr l && (length l <=? 100)%nat && forallb addr_okb l && forallb (λ a, negb (address_in_array a own)) l.
Lemma list_okb_sound own l : list_okb own l = true → set_ok l ∧ ∀ a, a ∈ l → a ∉ own.
Proof.
  unfold list_okb. rewrite !andb_true_iff, !forallb_forall, Nat.leb_le. intros [[[Hs Hn] Ha] Ho]. split; [split|].
  - by apply sorted_by_addr_sound.
  - unfold MAX_CAPACITY. lia.
  - apply Forall_forall. intros a Hin%list_elem_of_In. specialize (Ha a Hin). unfold addr_okb in Ha. unfold addr_ok.
    rewrite !andb_true_iff, !Z.leb_le, !Z.ltb_lt in Ha. lia.
  - intros a Hin%list_elem_of_In. specialize (Ho a Hin). by apply negb_true_iff, address_in_array_false in Ho.
Qed.

Lemma example_ok n l0 l1 l2 :
  forallb (list_okb (my_addresses n)) [l0; l1; l2] = true → data_inv n l0 →
  node_ok steady_clock (example_world n l0 l1 l2).
Proof.
  rewrite forallb_forall. intros Hl Hd. assert (∀ i l, [l0; l1; l2] !! i = Some l → list_okb (my_addresses n) l = true) as Hok.
  { intros i l Hi. apply Hl, list_elem_of_In. by eapply list_elem_of_lookup_2. }
  split.
  - split; [unfold timespec_ok; simpl; lia|]. intros k t _ [= <-]. unfold nanos. simpl tv_sec. simpl tv_nsec. lia.
  - unfold buffer_ok, example_world. cbn [send_buffer]. rewrite length_replicate. by rewrite Z2Nat.id.
  - split; [split; [|done|done|by apply (no_position _ 3)]|done|].
    + cbn [peer_lists example_world peers]. apply Forall_lookup. intros i l Hi. eapply list_okb_sound, Hok, Hi.
    + intros i l a Hi. eapply list_okb_sound, Hok, Hi.
  - assert (known (example_world n l0 l1 l2) = l0) as ->; [|done].
    unfold known, list_at. simpl. by destruct (inv_ids _ _ Hd) as (-> & _).
Qed.

Lemma example_data_inv own level l : 0 ≤ level < 256 → data_inv (example_data own level) l.
Proof. intros. by split. Qed.

(** ** The node as a whole *)


Definition boot_world : World :=
  {| node := example_data [] 7; peers := no_peers; send_buffer := replicate (Z.to_nat 65536) 0;
     start_time := zero_time; clock_reads := 0; sent := []; errno := 0; stderr := [] |}.

(** Two IPv4 interfaces, one of another family and one without an address. *)
Definition example_setup : Setup :=
  {| getifaddrs := Some [Some (2, 1); Some (10, 77); None; Some (2, 2)]; malloc := true; garbage := addr 5 5 |}.

(** ** Meeting other nodes *)
Section meeting.
Context `{Host} `{libc : Libc} `{udp : Udp} (clock_a clock_b : nat → option timespec) `{!Monotonic clock_a, !Monotonic clock_b}.

(** C13: node B, waiting for the reply of node A, gets the reply that A makes to its HELLO:
    whatever A knows (up to 9361 other peers, none with port 0), the reply passes the tests
    of B and reads back as exactly the list of A without A and B; A then knows B, B knows A,
    and B has sent CONNECT to each listed node, in order, and awaits its answer. *)
Theorem hello_exchange (wa wb : World) (a b : sockaddr_in) :
  node_ok clock_a wa → node_ok clock_b wb → addr_ok a → addr_ok b →
  a ∈ my_addresses (node wa) → b ∉ my_addresses (node wa) → a ∉ my_addresses (node wb) →
  waiting_for_hello_reply (node wb) = true → known_peer (node wb) = a →
  (∀ c, c ∈ known wa → sin_port c ≠ 0 ∧ (c ∈ my_addresses (node wb) → c = b)) →
  can_add b (known wa) →
  let ls := listed (my_addresses (node wa)) b (known wa) in
  Z.of_nat (length ls) < 9362 →
  wp (clock_exit clock_a) (handle_hello [HELLO] b)
    (λ _ wa', ∃ msg, sent wa' = sent wa ++ [(b, msg)] ∧ known wa' = added b (known wa) ∧
       wp (clock_exit clock_b) (handle_hello_reply msg a)
         (λ _ wb', waiting_for_hello_reply (node wb') = false ∧
            lists_now wb' = (added a (known wb), fold_left (λ l c, added c l) ls (awaiting wb), asked wb) ∧
            sent wb' = sent wb ++ map connect_to ls) wb) wa.
Proof.
  intros Hwa Hwb Ha Hb Hown Hbown Haown Hwait Hknown Hpeers Hadd ls Hlen.
  eapply wp_mono; [|by apply hello_handler_run]. intros [] wa' [Hwa' Hpost]. unfold handle_hello_post in Hpost.
  destruct Hpost as [Hpost _]. rewrite decide_True in Hpost by done. destruct Hpost as (Hn & Hl & Hs). injection Hl as Hk _ _.
  exists (hello_reply_bytes ls). split; [exact Hs|]. split; [exact Hk|].
  eapply wp_mono; [|apply handle_hello_reply_run; [done|done|apply hello_reply_ok]].
  intros [] wb' [Hwb' Hpost]. unfold handle_hello_reply_post in Hpost.
  assert (Forall addr_ok ls) as Hls.
  { pose proof (set_addresses _ (known_ok clock_a wa Hwa)) as Hf. rewrite Forall_forall in *.
    intros c [_ Hin]%list_elem_of_filter. auto. }
  destruct Hpost as [Hpost _]. rewrite decide_True in Hpost.
  - rewrite reply_peers_bytes in Hpost by (done || lia). destruct Hpost as (Hn' & Hl' & Hs'). by rewrite Hn'.
  - apply hello_reply_valid; try done. intros c [[Hc1 Hc2] Hin]%list_elem_of_filter.
    destruct (Hpeers c Hin) as [Hport Hmine]. split; [done|]. split; [by intros ->|]. intros Hc. by apply Hc2, Hmine.
Qed.

(** Two nodes that do not know each other do after CONNECT and ACK_CONNECT: the node that
    gets CONNECT answers with ACK_CONNECT and knows the sender, and the sender, if it awaited
    the answer, moves it to its known peers. *)
Theorem connect_handshake (wa wb : World) (a b : sockaddr_in) :
  node_ok clock_a wa → node_ok clock_b wb → addr_ok a → addr_ok b →
  b ∉ my_addresses (node wa) → can_add b (known wa) → a ∈ awaiting wb → can_add a (known wb) →
  wp (clock_exit clock_a) (handle_connect [CONNECT] b)
    (λ _ wa', ∃ msg, sent wa' = sent wa ++ [(b, msg)] ∧ b ∈ known wa' ∧
       wp (clock_exit clock_b) (handle_ack_connect msg a)
         (λ _ wb', a ∈ known wb' ∧ (a ∉ awaiting wb') ∧ (∀ c, c ∈ known wb → c ∈ known wb') ∧ sent wb' = sent wb) wb) wa.
Proof.
  intros Hwa Hwb Ha Hb Hbown Hadd Hawait Hadd'.
  assert (∀ c l, can_add c l → c ∈ added c l) as Hin.
  { intros c l Hc. apply (elem_of_list_to_set (C:=gset sockaddr_in)). rewrite added_set by done. set_solver. }
  eapply wp_mono; [|by apply handle_connect_run]. intros [] wa' [_ Hpost]. unfold handle_connect_post in Hpost.
  destruct Hpost as [Hpost _]. rewrite decide_True in Hpost by done. destruct Hpost as (Hn & Hl & Hs). injection Hl as Hk _ _.
  exists [ACK_CONNECT]. split; [exact Hs|]. split; [rewrite Hk; auto|].
  eapply wp_mono; [|by apply handle_ack_connect_run]. intros [] wb' [_ Hpost]. unfold handle_ack_connect_post in Hpost.
  destruct Hpost as [Hpost _]. rewrite decide_True in Hpost by done. destruct Hpost as (_ & Hs' & Hl'). injection Hl' as Hk' Ha' _.
  rewrite Hk', Ha'. split; [auto|]. split; [by intros [? _]%list_elem_of_filter|]. split; [|done].
  intros c. apply added_keeps.
Qed.
End meeting.
Lemma hello_exchange_witness :
  let a := addr 1 7 in let b := addr 2 8 in
  let wa := example_world (example_data [a] 255) [addr 3 9; addr 4 9] [] [] in
  let wb := example_world (example_data [b] 255 <| waiting_for_hello_reply := true |> <| known_peer := a |>) [] [] [] in
  wp (clock_exit steady_clock) (handle_hello (H:=false) [HELLO] b)
    (λ _ wa', ∃ msg, sent wa' = sent wa ++ [(b, msg)] ∧ known wa' = added b (known wa) ∧
       wp (clock_exit steady_clock) (handle_hello_reply (H:=false) msg a)
         (λ _ wb', waiting_for_hello_reply (node wb') = false ∧
            lists_now wb' = (added a (known wb), fold_left (λ l c, added c l) [addr 3 9; addr 4 9] (awaiting wb), asked wb) ∧
            sent wb' = sent wb ++ map connect_to [addr 3 9; addr 4 9]) wb) wa.
Proof.
  intros a b wa wb.
  apply (hello_exchange (H:=false) steady_clock steady_clock wa wb a b).
  all: try done.
  - by apply example_ok; [|by apply example_data_inv].
  - by apply example_ok; [|by split].
  - by left.
  - by intros [|?%not_elem_of_nil]%elem_of_cons.
  - by intros [|?%not_elem_of_nil]%elem_of_cons.
  - intros c Hc. repeat (apply elem_of_cons in Hc as [->|Hc]); [..|by apply not_elem_of_nil in Hc];
      (split; [done|]; by intros [|?%not_elem_of_nil]%elem_of_cons).
  - by right.
Defined.

Lemma connect_handshake_witness :
  let a := addr 1 7 in let b := addr 2 8 in
  let wa := example_world (example_data [a] 255) [addr 3 9] [] [] in
  let wb := example_world (example_data [b] 255) [addr 4 9] [a] [] in
  wp (clock_exit steady_clock) (handle_connect [CONNECT] b)
    (λ _ wa', ∃ msg, sent wa' = sent wa ++ [(b, msg)] ∧ b ∈ known wa' ∧
       wp (clock_exit steady_clock) (handle_ack_connect msg a)
         (λ _ wb', a ∈ known wb' ∧ (a ∉ awaiting wb') ∧ (∀ c, c ∈ known wb → c ∈ known wb') ∧ sent wb' = sent wb) wb) wa.
Proof.
  intros a b wa wb.
  apply (connect_handshake steady_clock steady_clock wa wb a b); try done.
  - by apply example_ok; [|by apply example_data_inv].
  - by apply example_ok; [|by apply example_data_inv].
  - by intros [|?%not_elem_of_nil]%elem_of_cons.
  - by right.
  - by left.
  - by right.
Defined.

(** ** Clocks *)

(** The natural clock is within a millisecond of the time since [clock_init], and never
    goes back: the value read is the elapsed time for some reading of the system clock, a
    later reading gives no smaller value, and no reading overflows or is negative. *)
Theorem natural_clock_correct (clock : nat → option timespec) `{Monotonic clock} (w : World) :
  started clock w →
  wp (clock_exit clock) (get_natural_clock clock)
    (λ ms w', ∃ t, clock (clock_reads w) = Some t ∧ 0 ≤ ms < 2 ^ 50 ∧
       Z.abs (ms * 1000000 - (nanos t - nanos (start_time w))) < 1000000 ∧
       wp (clock_exit clock) (get_natural_clock clock) (λ ms' _, ms ≤ ms') w') w.
Proof.
  intros Hs. apply wp_get_natural_clock; [done|done|]. intros t Ht Hok Hle Hel.
  pose proof (start_range _ _ Hs) as Hr.
  exists t. split; [done|]. split; [done|]. split; [by apply elapsed_accurate|].
  apply wp_get_natural_clock; [done|by apply started_tick|]. intros u Hu Huok Hle' Hel'.
  apply elapsed_mono; [done..|]. eapply (monotonic_order (clock_reads w)); [|exact Ht|exact Hu]. simpl. lia.
Qed.

Lemma natural_clock_correct_witness :
  wp (clock_exit steady_clock) (get_natural_clock steady_clock)
    (λ ms w', ∃ t, steady_clock 0 = Some t ∧ 0 ≤ ms < 2 ^ 50 ∧
       Z.abs (ms * 1000000 - (nanos t - nanos (start_time (example_world (example_data [] 255) [] [] [])))) < 1000000 ∧
       wp (clock_exit steady_clock) (get_natural_clock steady_clock) (λ ms' _, ms ≤ ms') w') (example_world (example_data [] 255) [] [] []).
Proof.
  apply (natural_clock_correct steady_clock (example_world (example_data [] 255) [] [] [])).
  eapply ok_started, (example_ok (example_data [] 255) [] [] []); [done|by apply example_data_inv].
Defined.

(** ** Synchronization *)

(** C31: the answer to SYNC_START on every branch. The message counts when it has ten bytes,
    a level of at most 253 and a known sender, and when no exchange is under way. From the
    peer the node is synchronized to, a level that is not smaller makes the node
    unsynchronized, and a smaller one begins an exchange and postpones the check by 20
    seconds; from another peer, an exchange begins only when the level is smaller by at
    least two. The exchange records the times 1, 2 and 3 and sends one DELAY_REQUEST;
    otherwise nothing changes. *)
Theorem sync_start_correct `{Host} `{libc : Libc} `{udp : Udp} (clock : nat → option timespec) `{Monotonic clock} msg_buf sender (w : World) :
  node_ok clock w → bytes_ok msg_buf → sane_timestamp msg_buf →
  wp (clock_exit clock) (handle_sync_start clock msg_buf sender)
    (λ _ w',
       if decide (sync_start_valid msg_buf sender w ∧ synchronizing (node w) = false) then
         if decide (synchronized_to sender (node w)) then
           if decide (sync_level (node w) ≤ level_of msg_buf)
           then peers w' = peers w ∧ sent w' = sent w ∧
                node w' = node w <| sync_level := CLOCK_UNSYNCHRONIZED |> <| offset_ms := 0 |>
           else ∃ t, read_after clock w t ∧ exchange_began clock msg_buf sender (later 20 t) w w'
         else
           if decide (sync_level (node w) ≤ level_of msg_buf + 1) then unchanged w w'
           else exchange_began clock msg_buf sender (next_sync_check (node w)) w w'
       else unchanged w w') w.
Proof.
  intros Hw Hb Hts. eapply wp_mono; [|by apply handle_sync_start_run]. by intros [] w' [_ [Hpost _]].
Qed.

Definition example_sync (level : Z) : list Z := sync_bytes SYNC_START level 1000.
Ltac bytes_done :=
  apply Forall_forall; intros ? Hbyte; repeat (apply elem_of_cons in Hbyte as [->|Hbyte]; [done|]);
  by apply not_elem_of_nil in Hbyte.

Lemma sync_start_correct_witness :
  let w := example_world (example_data [] 255) [addr 9 90] [] [] in
  wp (clock_exit steady_clock) (handle_sync_start (H:=false) steady_clock (example_sync 3) (addr 9 90))
    (λ _ w',
       if decide (sync_start_valid (example_sync 3) (addr 9 90) w ∧ synchronizing (node w) = false) then
         if decide (synchronized_to (addr 9 90) (node w)) then
           if decide (sync_level (node w) ≤ level_of (example_sync 3))
           then peers w' = peers w ∧ sent w' = sent w ∧
                node w' = node w <| sync_level := CLOCK_UNSYNCHRONIZED |> <| offset_ms := 0 |>
           else ∃ t, read_after steady_clock w t ∧ exchange_began steady_clock (example_sync 3) (addr 9 90) (later 20 t) w w'
         else
           if decide (sync_level (node w) ≤ level_of (example_sync 3) + 1) then unchanged w w'
           else exchange_began steady_clock (example_sync 3) (addr 9 90) (next_sync_check (node w)) w w'
       else unchanged w w') w.
Proof.
  intros w. apply (sync_start_correct (H:=false) steady_clock (example_sync 3) (addr 9 90) w); [|bytes_done|done].
  by apply example_ok; [|by apply example_data_inv].
Defined.

(** DELAY_REQUEST is answered exactly when it is one byte long, its sender was asked by the
    last SYNC_START, and at most five milliseconds have passed since; the answer carries the
    level of the node and its synchronized time at the reception. Nothing else changes. *)
Theorem delay_request_correct `{Host} `{libc : Libc} `{udp : Udp} (clock : nat → option timespec) `{Monotonic clock} msg_buf sender (w : World) :
  node_ok clock w →
  wp (clock_exit clock) (handle_delay_request clock msg_buf sender)
    (λ _ w', node w' = node w ∧ peers w' = peers w ∧
       ∃ t u, clock (clock_reads w) = Some t ∧ clock (S (clock_reads w)) = Some u ∧
         sent w' = sent w ++
           if decide (length msg_buf = 1%nat ∧ sender ∈ asked w ∧ now_elapsed w u ≤ last_sync_start (node w) + 5)
           then [(sender, sync_bytes DELAY_RESPONSE (sync_level (node w)) (now_synchronized w t))] else []) w.
Proof.
  intros Hw. eapply wp_mono; [|by apply handle_delay_request_run]. intros [] w' [_ (t & u & Ht & Hu & Hpost & _)].
  unfold delay_request_valid in Hpost. case_decide as Hd; destruct Hpost as (Hn & Hp & Hs); (split; [done|]; split; [done|]; exists t, u).
  - by rewrite decide_True.
  - by rewrite decide_False, app_nil_r.
Qed.

Lemma delay_request_correct_witness :
  let w := example_world (example_data [] 0) [addr 9 90] [] [addr 9 90] in
  wp (clock_exit steady_clock) (handle_delay_request (H:=false) steady_clock [DELAY_REQUEST] (addr 9 90))
    (λ _ w', node w' = node w ∧ peers w' = peers w ∧
       ∃ t u, steady_clock 0 = Some t ∧ steady_clock 1 = Some u ∧
         sent w' = sent w ++
           if decide (length [DELAY_REQUEST] = 1%nat ∧ addr 9 90 ∈ asked w ∧ now_elapsed w u ≤ last_sync_start (node w) + 5)
           then [(addr 9 90, sync_bytes DELAY_RESPONSE (sync_level (node w)) (now_synchronized w t))] else []) w.
Proof.
  intros w. apply (delay_request_correct (H:=false) steady_clock [DELAY_REQUEST] (addr 9 90) w).
  by apply example_ok; [|by apply example_data_inv].
Defined.

(** C32: the answer to DELAY_RESPONSE on every branch. It counts when it has ten bytes, an
    exchange with its sender is under way, its level is that of the SYNC_START and its time
    not before that one's. Then the node's level is one more than the sender's, its offset
    half of T2 - T1 + T3 - T4, the sender its peer, the next check in 20 seconds, the
    exchange over; it starts to send SYNC_START at once if it could not before and can now.
    Otherwise nothing changes. Nothing is sent. *)
Theorem delay_response_correct `{Host} `{libc : Libc} `{udp : Udp} (clock : nat → option timespec) `{Monotonic clock} msg_buf sender (w : World) :
  node_ok clock w → bytes_ok msg_buf → sane_timestamp msg_buf →
  wp (clock_exit clock) (handle_delay_response clock msg_buf sender)
    (λ _ w', peers w' = peers w ∧ sent w' = sent w ∧
       if decide (delay_response_valid msg_buf sender (node w)) then
         ∃ start t, read_after clock w t ∧
           (if decide (254 ≤ sync_level (node w) ∧ level_of msg_buf + 1 < 254)
            then ∃ u, read_after clock w u ∧ start = later 0 u else start = next_sync_start (node w)) ∧
           node w' = node w <| T4 := timestamp_of msg_buf |> <| next_sync_start := start |>
             <| sync_level := level_of msg_buf + 1 |> <| offset_ms := new_offset (node w) (timestamp_of msg_buf) |>
             <| synchronized_peer := sender |> <| next_sync_check := later 20 t |> <| synchronizing := false |>
       else node w' = node w) w.
Proof.
  intros Hw Hb Hts. eapply wp_mono; [|by apply handle_delay_response_run]. intros [] w' [_ Hpost].
  destruct Hpost as [Hpost _]. destruct (decide (delay_response_valid msg_buf sender (node w))).
  - destruct Hpost as (start & check & t & Ht & -> & Hstart & Hp & Hs & Hn).
    split; [done|]. split; [done|]. by exists start, t.
  - by destruct Hpost as (? & ? & ?).
Qed.

(** In an exchange with a peer of level 3 that began at 1000 ms of its clock. *)
Definition exchanging : NodeData :=
  example_data [] 255 <| synchronizing := true |> <| synchronizing_level := 3 |> <| peer_to_sync := addr 9 90 |>
    <| T1 := 1000 |> <| T2 := 10 |> <| T3 := 20 |>.
Lemma exchanging_inv : data_inv exchanging [addr 9 90].
Proof. split; try done. intros _. repeat split; try done. by left. Qed.
Definition example_response : list Z := sync_bytes DELAY_RESPONSE 3 1014.

Lemma delay_response_correct_witness :
  let w := example_world exchanging [addr 9 90] [] [] in
  wp (clock_exit steady_clock) (handle_delay_response (H:=false) steady_clock example_response (addr 9 90))
    (λ _ w', peers w' = peers w ∧ sent w' = sent w ∧
       if decide (delay_response_valid example_response (addr 9 90) (node w)) then
         ∃ start t, read_after steady_clock w t ∧
           (if decide (254 ≤ sync_level (node w) ∧ level_of example_response + 1 < 254)
            then ∃ u, read_after steady_clock w u ∧ start = later 0 u else start = next_sync_start (node w)) ∧
           node w' = node w <| T4 := timestamp_of example_response |> <| next_sync_start := start |>
             <| sync_level := level_of example_response + 1 |>
             <| offset_ms := new_offset (node w) (timestamp_of example_response) |>
             <| synchronized_peer := addr 9 90 |> <| next_sync_check := later 20 t |> <| synchronizing := false |>
       else node w' = node w) w.
Proof.
  intros w. apply (delay_response_correct (H:=false) steady_clock example_response (addr 9 90) w); [|bytes_done|done].
  by apply example_ok; [|apply exchanging_inv].
Defined.

(** C30: the timers. A node synchronized to a peer becomes unsynchronized, with offset 0, when
    the time of its check has passed; otherwise a node of level below 254 whose time for
    SYNC_START has come sends it to every known peer, once each and in order, with its level
    and its synchronized time, remembers whom it asked and when, and plans the next in five
    seconds; in all other cases nothing is sent and nothing changes. The loop over the peers
    ends. *)
Theorem timers_correct `{Host} `{libc : Libc} `{udp : Udp} (clock : nat → option timespec) `{Monotonic clock} (w : World) :
  node_ok clock w → wp (clock_exit clock) (check_and_handle_timers clock) (λ _ w', timers_step clock w w') w.
Proof.
  intros Hw. eapply wp_mono; [|by apply check_and_handle_timers_run]. by intros [] w' [_ Hpost].
Qed.

Lemma timers_correct_witness :
  let w := example_world (example_data [] 0) [addr 9 90; addr 10 90] [] [] in
  wp (clock_exit steady_clock) (check_and_handle_timers (H:=false) steady_clock) (λ _ w', timers_step steady_clock w w') w.
Proof.
  intros w. apply (timers_correct (H:=false) steady_clock w).
  by apply example_ok; [|by apply example_data_inv].
Defined.

(** *** The accuracy of the synchronization *)

(** The offset is half of the sum of two differences of clocks, each off by a delay. *)
Lemma offset_accurate n t4 theta d1 d2 :
  T2 n = T1 n + d1 + theta → t4 = T3 n + d2 - theta →
  2 * Z.abs (new_offset n t4 - theta) ≤ Z.abs (d1 - d2) + 1 ∧ (d1 = d2 → new_offset n t4 = theta).
Proof.
  intros H2 H4. unfold new_offset. rewrite H2, H4.
  replace (T1 n + d1 + theta - T1 n + T3 n - (T3 n + d2 - theta)) with (2 * theta + (d1 - d2)) by lia.
  split; [Z.to_euclidean_division_equations; lia|].
  intros ->. Z.to_euclidean_division_equations. lia.
Qed.

Lemma sync_bytes_ok ty level ts : byte_ok ty → byte_ok level → bytes_ok (sync_bytes ty level ts).
Proof. intros. unfold sync_bytes. constructor; [done|]. constructor; [done|]. apply be_bytes_ok. Qed.
Lemma timestamp_of_bytes ty level ts : 0 ≤ ts < 2 ^ 64 → timestamp_of (sync_bytes ty level ts) = ts.
Proof.
  intros Hts. unfold timestamp_of. change (drop 2 (sync_bytes ty level ts)) with (be_bytes 8 ts).
  rewrite take_ge by (by rewrite length_be_bytes). by apply be_value_bytes.
Qed.
Lemma length_sync_bytes ty level ts : length (sync_bytes ty level ts) = 10%nat.
Proof. unfold sync_bytes. cbn [length]. by rewrite length_be_bytes. Qed.

(** After a valid DELAY_RESPONSE, the clock of the node. *)
Lemma response_then_clock `{Host} `{libc : Libc} `{udp : Udp} (clock : nat → option timespec) `{Monotonic clock} msg_buf sender (w : World) :
  node_ok clock w → bytes_ok msg_buf → sane_timestamp msg_buf → delay_response_valid msg_buf sender (node w) →
  wp (clock_exit clock) (_ ← handle_delay_response clock msg_buf sender; get_clock clock)
    (λ c w', sync_level (node w') = level_of msg_buf + 1 ∧ synchronizing (node w') = false ∧
       ∃ t, read_after clock w t ∧
         c = if new_offset (node w) (timestamp_of msg_buf) <=? now_elapsed w t
             then now_elapsed w t - new_offset (node w) (timestamp_of msg_buf) else 0) w.
Proof.
  intros Hw Hb Hts Hv. pose proof (inv_sync _ _ (ok_data _ _ Hw)) as Hsync.
  pose proof Hv as (_ & Hsyn & _ & Hl & _). destruct (Hsync Hsyn) as (Hsl & _).
  apply wp_bind. eapply wp_mono; [|eapply wp_keeps; [apply goes_on_handle_delay_response|by apply handle_delay_response_run]].
  intros [] w1 (Hw1 & [Hpost _] & Hst & Hk).
  rewrite decide_True in Hpost by done. destruct Hpost as (start & check & t & _ & _ & _ & _ & _ & Hn).
  apply wp_get_clock; [done|by apply Hw1|by apply (inv_offset _ _ (ok_data _ _ Hw1))|].
  intros u Hu Huok Hle Hel. change (node (tick w1)) with (node w1). rewrite Hn. split; [done|]. split; [done|].
  exists u. split; [by eapply read_after_later; [exact Hk|apply read_after_now]|].
  unfold synchronized. cbn [sync_level offset_ms]. unfold now_elapsed. rewrite Hst.
  simpl. destruct (Z.eqb_spec (level_of msg_buf + 1) CLOCK_UNSYNCHRONIZED) as [He|]; [|done].
  unfold CLOCK_UNSYNCHRONIZED in He. lia.
Qed.

(** What comes of an exchange that begins with SYNC_START at the follower, in [wf1] after it:
    the peer's answer to the request, and the follower's clock [c] after the answer. *)
Definition exchange_outcome `{Host} `{libc : Libc} `{udp : Udp} (clock_f clock_l : nat → option timespec) (wf wl : World) (f l : sockaddr_in)
    (ts : Z) (wf1 : World) : Prop :=
  sent wf1 = sent wf ++ [(l, [DELAY_REQUEST])] ∧ ∃ t2 t3,
       read_after clock_f wf t2 ∧ read_after clock_f wf t3 ∧ nanos t2 ≤ nanos t3 ∧
       wp (clock_exit clock_l) (handle_delay_request clock_l [DELAY_REQUEST] f)
         (λ _ wl', ∃ t4 u, clock_l (clock_reads wl) = Some t4 ∧ clock_l (S (clock_reads wl)) = Some u ∧
            (now_elapsed wl u ≤ last_sync_start (node wl) + 5 → ts ≤ now_synchronized wl t4 < 2 ^ 62 →
             ∃ msg, sent wl' = sent wl ++ [(f, msg)] ∧
             wp (clock_exit clock_f) (_ ← handle_delay_response clock_f msg l; get_clock clock_f)
               (λ c wf', sync_level (node wf') = sync_level (node wl) + 1 ∧ synchronizing (node wf') = false ∧
                 ∃ t, read_after clock_f wf1 t ∧ ∀ theta d1 d2,
                   now_elapsed wf t2 = ts + d1 + theta → now_synchronized wl t4 = now_elapsed wf t3 + d2 - theta →
                   theta + Z.abs (d1 - d2) + 1 ≤ now_elapsed wf t →
                   2 * Z.abs (c - (now_elapsed wf t - theta)) ≤ Z.abs (d1 - d2) + 1 ∧
                   (d1 = d2 → c = now_elapsed wf t - theta)) wf1)) wl.

(** C12: a whole exchange. A follower that gets SYNC_START with level [lvl] and time [ts] from
    a known peer, and is not in an exchange, asks it; if the request comes within the peer's
    five milliseconds the peer answers, and the follower takes the answer. If the follower's
    natural clock is ahead of the peer's synchronized clock by [theta] and the two messages
    to and from the follower took [d1] and [d2] milliseconds, the follower's clock then
    agrees with the peer's to half of [|d1 - d2|], rounded up, and exactly when [d1 = d2];
    and its level is one more than the peer's. *)
Theorem exchange_synchronizes `{Host} `{libc : Libc} `{udp : Udp} (clock_f clock_l : nat → option timespec) `{!Monotonic clock_f, !Monotonic clock_l}
    (wf wl : World) (f l : sockaddr_in) (ts : Z) :
  node_ok clock_f wf → node_ok clock_l wl → l ∈ known wf → f ∈ asked wl →
  synchronizing (node wf) = false → l ≠ synchronized_peer (node wf) →
  sync_level (node wl) + 1 < sync_level (node wf) → sync_level (node wl) < 254 → 0 ≤ ts < 2 ^ 62 →
  wp (clock_exit clock_f) (handle_sync_start clock_f (sync_bytes SYNC_START (sync_level (node wl)) ts) l)
    (λ _ wf1, exchange_outcome clock_f clock_l wf wl f l ts wf1) wf.
Proof.
  intros Hwf Hwl Hl Hf Hidle Hother Hlev Hlev' Hts. unfold exchange_outcome. set (lvl := sync_level (node wl)) in *.
  pose proof (inv_level _ _ (ok_data _ _ Hwl)) as Hlvl. fold lvl in Hlvl.
  assert (timestamp_of (sync_bytes SYNC_START lvl ts) = ts) as Hts' by (apply timestamp_of_bytes; lia).
  eapply wp_mono; [|eapply wp_keeps; [apply goes_on_handle_sync_start|
    apply (handle_sync_start_run clock_f); [exact Hwf|by apply sync_bytes_ok|unfold sane_timestamp; lia]]].
  intros [] wf1 (Hwf1 & [Hpost _] & Hst & _).
  rewrite decide_True, decide_False, decide_False in Hpost;
    [|change (level_of (sync_bytes SYNC_START lvl ts)) with lvl; lia|by intros [_ ?]
     |split; [split; [apply length_sync_bytes|split; [exact Hlev'|done]]|done]].
  destruct Hpost as (t2 & t3 & deadline & H2 & H3 & H23 & _ & Hn & Hsent). rewrite Hts' in Hn.
  change (level_of (sync_bytes SYNC_START lvl ts)) with lvl in Hn.
  split; [exact Hsent|]. exists t2, t3. split; [by apply read_after_now|]. split; [done|]. split; [done|].
  eapply wp_mono; [|by apply handle_delay_request_run]. intros [] wl' [_ (t4 & u & H4 & Hu & Hpost & _)].
  exists t4, u. split; [done|]. split; [done|]. intros Hlate Ht4. rewrite decide_True in Hpost by done.
  destruct Hpost as (_ & _ & Hs'). eexists. split; [exact Hs'|]. fold lvl.
  assert (timestamp_of (sync_bytes DELAY_RESPONSE lvl (now_synchronized wl t4)) = now_synchronized wl t4) as Ht4'
    by (apply timestamp_of_bytes; lia).
  eapply wp_mono; [|apply (response_then_clock clock_f); [done|by apply sync_bytes_ok|unfold sane_timestamp; lia|]].
  - rewrite Ht4'. intros c wf' (Hl' & Hs & t & Ht & Hc). split; [exact Hl'|]. split; [done|].
    exists t. split; [done|]. intros theta d1 d2 E2 E4 Hrecent.
    destruct (offset_accurate (node wf1) (now_synchronized wl t4) theta d1 d2) as [Hacc Hexact].
    { rewrite Hn. exact E2. } { rewrite Hn. exact E4. }
    assert (now_elapsed wf1 t = now_elapsed wf t) as Het by (unfold now_elapsed; by rewrite Hst). rewrite Het in Hc.
    rewrite (proj2 (Z.leb_le _ _)) in Hc by lia. rewrite Hc. split; [lia|]. intros Hd. rewrite (Hexact Hd). done.
  - rewrite Hn. split; [apply length_sync_bytes|]. split; [done|]. split; [done|]. split; [done|].
    rewrite Ht4'. simpl. lia.
Qed.

Lemma exchange_synchronizes_witness :
  let f := addr 1 7 in let l := addr 9 90 in
  let wf := example_world (example_data [f] 255) [l] [] [] in
  let wl := example_world (example_data [l] 0) [f] [] [f] in
  wp (clock_exit steady_clock) (handle_sync_start (H:=false) steady_clock (sync_bytes SYNC_START (sync_level (node wl)) 0) l)
    (λ _ wf1, exchange_outcome (H:=false) steady_clock steady_clock wf wl f l 0 wf1) wf.
Proof.
  intros f l wf wl. apply (exchange_synchronizes (H:=false) steady_clock steady_clock wf wl f l 0); try done.
  - by apply example_ok; [|by apply example_data_inv].
  - by apply example_ok; [|by apply example_data_inv].
  - by left.
  - by left.
Defined.

(** *** An exchange without an answer *)
Definition exchange_goes_on (w w' : World) : Prop :=
  synchronizing (node w') = synchronizing (node w) ∧ peer_to_sync (node w') = peer_to_sync (node w) ∧
  ∃ ms, sent w' = sent w ++ ms ∧ Forall (λ m, m.2 ≠ [DELAY_REQUEST]) ms.

Lemma goes_on_silent w w' : node w' = node w → sent w' = sent w → exchange_goes_on w w'.
Proof. intros Hn Hs. split; [by rewrite Hn|]. split; [by rewrite Hn|]. exists []. by rewrite Hs, app_nil_r. Qed.
Lemma goes_on_sent w w' ms :
  synchronizing (node w') = synchronizing (node w) → peer_to_sync (node w') = peer_to_sync (node w) →
  sent w' = sent w ++ ms → Forall (λ m, m.2 ≠ [DELAY_REQUEST]) ms → exchange_goes_on w w'.
Proof. intros. split; [done|]. split; [done|]. by exists ms. Qed.
Lemma goes_on_trans w1 w2 w3 : exchange_goes_on w1 w2 → exchange_goes_on w2 w3 → exchange_goes_on w1 w3.
Proof.
  intros (Hs & Hp & ms & Hm & Hf) (Hs' & Hp' & ms' & Hm' & Hf'). split; [congruence|]. split; [congruence|].
  exists (ms ++ ms'). split; [by rewrite Hm', Hm, app_assoc|]. by apply Forall_app.
Qed.

(** The datagram is not a DELAY_RESPONSE of the peer. *)
Definition no_answer_from (p : sockaddr_in) (r : Received) : Prop :=
  match r with Datagram (ty :: _) sender => ty = DELAY_RESPONSE → sender ≠ p | _ => True end.

Section stuck.
Context `{Host} `{libc : Libc} `{udp : Udp} (clock : nat → option timespec) `{Monotonic clock}.

Lemma sync_starts_not_requests w l ms : Forall2 (sync_start_to clock w) l ms → Forall (λ m, m.2 ≠ [DELAY_REQUEST]) ms.
Proof. induction 1 as [|a m l ms (t & _ & ->) Hms IH]; constructor; [done|exact IH]. Qed.

Lemma timers_go_on w w' : timers_step clock w w' → exchange_goes_on w w'.
Proof.
  intros [t _ _ _ Hn _ Hs|_ _ (Hn & _ & Hs)|t _ _ _ _ (Hn & _ & Hs)|t u v ms _ _ _ _ _ _ Hs Hms _ Hn];
    [by eapply (goes_on_sent _ _ []); rewrite ?Hn, ?Hs, ?app_nil_r|by apply goes_on_silent..|].
  eapply (goes_on_sent _ _ ms); rewrite ?Hn; [done..|exact Hs|].
  by eapply sync_starts_not_requests.
Qed.

Lemma wp_goes_on {A} (m : WM A) (R : World → World → Prop) w :
  (∀ w', R w w' → exchange_goes_on w w') → wp (clock_exit clock) m (λ _ w', node_ok clock w' ∧ R w w') w →
  wp (clock_exit clock) m (λ _ w', node_ok clock w' ∧ exchange_goes_on w w') w.
Proof. intros HR. apply wp_mono. intros _ w' [? ?]. auto. Qed.
(** A handler answers what is valid and rejects the rest. *)
Ltac answers_or_silent Hpost :=
  let Hn := fresh "Hn" in let Hsent := fresh "Hsent" in
  revert Hpost; case_decide; [intros (Hn & _ & Hsent)|by intros (? & _ & ?); apply goes_on_silent];
  eapply goes_on_sent; rewrite ?Hn; [done..|exact Hsent|].

Lemma message_goes_on bytes sender w :
  node_ok clock w → bytes ≠ [] → bytes_ok bytes → addr_ok sender → sane_timestamp bytes →
  synchronizing (node w) = true → no_answer_from (peer_to_sync (node w)) (Datagram bytes sender) →
  wp (clock_exit clock) (handle_message clock bytes sender) (λ _ w', node_ok clock w' ∧ exchange_goes_on w w') w.
Proof.
  intros Hw Hne Hb Hs Hts Hsyn Hno. unfold handle_message. apply wp_bind. unfold msg_byte. apply wp_from_opt.
  2: { by destruct bytes. }
  intros ty Hty. cbv beta.
  destruct (ty =? HELLO).
  { eapply wp_goes_on; [|by apply hello_handler_run]. intros w' [Hpost _]. answers_or_silent Hpost. by constructor. }
  destruct (ty =? HELLO_REPLY).
  { eapply wp_goes_on; [|by apply handle_hello_reply_run]. intros w' [Hpost _]. answers_or_silent Hpost. apply Forall_map, Forall_forall. by intros. }
  destruct (ty =? CONNECT).
  { eapply wp_goes_on; [|by apply handle_connect_run]. intros w' [Hpost _]. answers_or_silent Hpost. by constructor. }
  destruct (ty =? ACK_CONNECT).
  { eapply wp_goes_on; [|by apply handle_ack_connect_run]. intros w' [Hpost _]. revert Hpost.
    case_decide; [intros (Hn & Hsent & _)|intros (? & _ & ?)]; by apply goes_on_silent. }
  destruct (ty =? SYNC_START).
  { eapply wp_goes_on; [|by apply handle_sync_start_run]. intros w' [Hpost _]. revert Hpost.
    rewrite decide_False by (rewrite Hsyn; by intros [_ ?]). intros (? & _ & ?). by apply goes_on_silent. }
  destruct (ty =? DELAY_REQUEST).
  { eapply wp_goes_on; [|by apply handle_delay_request_run]. intros w' (t & u & _ & _ & Hpost & _). answers_or_silent Hpost. by constructor. }
  destruct (Z.eqb_spec ty DELAY_RESPONSE) as [->|].
  { eapply wp_goes_on; [|by apply handle_delay_response_run]. intros w' [Hpost _]. revert Hpost.
    destruct bytes as [|ty bytes]; [done|]. injection Hty as ->.
    rewrite decide_False; [intros (? & _ & ?); by apply goes_on_silent|].
    intros (_ & _ & Hp & _). by apply Hno. }
  destruct (ty =? LEADER).
  { eapply wp_goes_on; [|by apply handle_leader_run]. intros w' [Hpost _]. revert Hpost.
    case_decide; [intros (t & _ & _ & Hsent & Hn)|case_decide; [intros (_ & Hsent & Hn)|by intros (? & _ & ?); apply goes_on_silent]];
      (eapply (goes_on_sent _ _ []); rewrite ?Hn; [done..|by rewrite Hsent, app_nil_r|done]). }
  destruct (ty =? GET_TIME).
  { eapply wp_goes_on; [|by apply handle_get_time_run]. intros w' [Hpost _]. revert Hpost.
    case_decide; [intros (t & _ & Hn & _ & Hsent)|by intros (? & _ & ?); apply goes_on_silent].
    eapply goes_on_sent; rewrite ?Hn; [done..|exact Hsent|]. by constructor. }
  apply wp_bad_message. split; [exact (node_ok_console _ w (errno w) _ Hw)|]. by apply goes_on_silent.
Qed.

(** C33: an exchange has no time limit. Once a node has begun an exchange, then as long as no
    DELAY_RESPONSE arrives from the peer it chose, whatever else arrives and however long it
    takes, the exchange stays open with that peer, and the node never sends a DELAY_REQUEST
    again to anyone: [waiting_for_delay_response] is set and never read. *)
Theorem unanswered_exchange_blocks (rs : list Received) (w : World) :
  node_ok clock w → synchronizing (node w) = true → Forall received_ok rs →
  Forall (no_answer_from (peer_to_sync (node w))) rs →
  wp (clock_exit clock) (node_loop clock rs)
    (λ _ w', synchronizing (node w') = true ∧ peer_to_sync (node w') = peer_to_sync (node w) ∧
       ∃ ms, sent w' = sent w ++ ms ∧ Forall (λ m, m.2 ≠ [DELAY_REQUEST]) ms) w.
Proof.
  intros Hw Hsyn Hok Hno. eapply (wp_mono _ _ (λ _ w', exchange_goes_on w w')).
  { intros [] w' (Hs & Hp & Hms). by rewrite Hs, Hp. }
  revert w Hw Hsyn Hno. induction Hok as [|r rs Hr Hrs IH]; intros w Hw Hsyn Hno.
  { apply wp_ret. by apply goes_on_silent. }
  apply Forall_cons in Hno as [Hn Hno]. cbn [node_loop]. apply wp_bind.
  apply (wp_mono _ _ (λ _ w1, node_ok clock w1 ∧ exchange_goes_on w w1)).
  - intros [] w1 [Hw1 Hgo]. eapply wp_mono; [|apply IH; [done|..]].
    + intros [] w'. by apply goes_on_trans.
    + destruct Hgo as (-> & _). done.
    + destruct Hgo as (_ & -> & _). done.
  - unfold node_turn. apply wp_bind. eapply wp_mono; [|by apply check_and_handle_timers_run].
    intros [] w1 [Hw1 Hstep%timers_go_on]. pose proof Hstep as (Hs & Hp & _).
    destruct r as [|e|[|b bytes] sender];
      [apply wp_no_message; [by intros ?? [= <- <-]|by intros; split; [apply node_ok_console|]]..|].
    destruct Hr as (Hb & Ha & Hts). eapply wp_mono; [|apply (message_goes_on (b :: bytes) sender w1); try done; by rewrite ?Hs, ?Hp].
    intros [] w' [Hw' Hgo]. split; [done|]. by eapply goes_on_trans.
Qed.
End stuck.

Lemma unanswered_exchange_blocks_witness :
  let w := example_world exchanging [addr 9 90] [] [] in
  wp (clock_exit steady_clock) (node_loop (H:=false) steady_clock
      [RecvTimeout; Datagram (sync_bytes SYNC_START 1 1) (addr 9 90); Datagram example_response (addr 8 80)])
    (λ _ w', synchronizing (node w') = true ∧ peer_to_sync (node w') = peer_to_sync (node w) ∧
       ∃ ms, sent w' = sent w ++ ms ∧ Forall (λ m, m.2 ≠ [DELAY_REQUEST]) ms) w.
Proof.
  intros w. apply (unanswered_exchange_blocks (H:=false) steady_clock _ w).
  - by apply example_ok; [|apply exchanging_inv].
  - done.
  - repeat (constructor; [first [done|split; [bytes_done|done]]|]). constructor.
  - repeat (constructor; [done|]). constructor.
Defined.

(** ** Messages that are ignored *)

Section outcomes.
Context `{Host} `{libc : Libc} `{udp : Udp} (clock : nat → option timespec) `{Monotonic clock}.

(** What its handler checks of a message. A DELAY_REQUEST is on time by the second of the two
    readings of the clock. *)
Definition message_correct (msg_buf : list Z) (sender : sockaddr_in) (w : World) : Prop :=
  match head msg_buf with
  | None => False
  | Some ty =>
      if ty =? HELLO then hello_valid msg_buf sender w
      else if ty =? HELLO_REPLY then reply_valid (node w) sender msg_buf
      else if ty =? CONNECT then connect_valid msg_buf sender w
      else if ty =? ACK_CONNECT then ack_connect_valid msg_buf sender w
      else if ty =? SYNC_START then sync_start_valid msg_buf sender w
      else if ty =? DELAY_REQUEST then ∃ u, clock (S (clock_reads w)) = Some u ∧ delay_request_valid msg_buf sender u w
      else if ty =? DELAY_RESPONSE then delay_response_valid msg_buf sender (node w)
      else if ty =? LEADER then leader_valid msg_buf w
      else if ty =? GET_TIME then length msg_buf = 1%nat
      else False
  end.

(** A SYNC_START that is not needed: an exchange is under way, or the sender is not the peer
    of the node and not better by two levels. *)
Definition passed_over (msg_buf : list Z) (sender : sockaddr_in) (w : World) : Prop :=
  head msg_buf = Some SYNC_START ∧
  (synchronizing (node w) = true ∨
   ¬ synchronized_to sender (node w) ∧ sync_level (node w) ≤ level_of msg_buf + 1).

(** The node changes or sends; LEADER makes a leader of a node that may be one already. *)
Definition acted_upon (msg_buf : list Z) (w w' : World) : Prop :=
  ¬ unchanged w w' ∨ (head msg_buf = Some LEADER ∧ sync_level (node w') = CLOCK_LEADER).

(** An incorrect message is reported, a correct one is passed over or acted upon. *)
Definition message_outcome (msg_buf : list Z) (sender : sockaddr_in) (w w' : World) : Prop :=
  (¬ message_correct msg_buf sender w ∧ stderr w' = stderr w ++ [msg_line msg_buf] ∧ unchanged w w') ∨
  (message_correct msg_buf sender w ∧ quiet w w' ∧ passed_over msg_buf sender w ∧ unchanged w w') ∨
  (message_correct msg_buf sender w ∧ quiet w w' ∧ ¬ passed_over msg_buf sender w ∧ acted_upon msg_buf w w').

Lemma outcome_of (valid A : Prop) `{Decision valid} msg_buf sender w w' :
  (if decide valid then A else unchanged w w') ∧ logged valid msg_buf w w' →
  head msg_buf ≠ Some SYNC_START → (message_correct msg_buf sender w ↔ valid) →
  (valid → A → acted_upon msg_buf w w') → message_outcome msg_buf sender w w'.
Proof.
  intros [Hpost [[Hv Hq]|[Hv Hline]]] Hty Hc Hact.
  - right; right. rewrite decide_True in Hpost by done. rewrite Hc. unfold passed_over. tauto.
  - left. rewrite decide_False in Hpost by done. by rewrite Hc.
Qed.

Lemma sends_acts msg_buf w w' m ms : sent w' = sent w ++ m :: ms → acted_upon msg_buf w w'.
Proof. intros Hs. left. intros (_ & _ & Hu). apply (f_equal length) in Hu. rewrite Hs, length_app in Hu. simpl in Hu. lia. Qed.
Lemma changes_acts {A} (f : NodeData → A) msg_buf w w' : f (node w') ≠ f (node w) → acted_upon msg_buf w w'.
Proof. intros Hf. left. intros (Hn & _). by rewrite Hn in Hf. Qed.

Lemma sync_start_outcome msg_buf sender w w' :
  head msg_buf = Some SYNC_START → handle_sync_start_post clock msg_buf sender w w' →
  message_outcome msg_buf sender w w'.
Proof.
  intros Hty [Hpost Hlog]. assert (message_correct msg_buf sender w = sync_start_valid msg_buf sender w) as Hc
    by (unfold message_correct; by rewrite Hty).
  unfold message_outcome, passed_over. rewrite Hc, Hty. destruct Hlog as [[Hv Hq]|[Hv Hline]].
  2: { rewrite decide_False in Hpost by tauto. tauto. }
  destruct (synchronizing (node w)) eqn:Hsyn.
  { rewrite decide_False in Hpost by (by intros [_ ?]). tauto. }
  rewrite decide_True in Hpost by done. destruct (decide (synchronized_to sender (node w))) as [Hto|Hto].
  - right; right. split; [done|]. split; [done|]. split; [by intros [_ [?|[? _]]]|]. case_decide.
    + destruct Hpost as (_ & _ & Hn). apply (changes_acts sync_level). rewrite Hn. destruct Hto as [Hl _].
      unfold CLOCK_UNSYNCHRONIZED. simpl. lia.
    + destruct Hpost as (t & _ & t2 & t3 & deadline & _ & _ & _ & _ & _ & Hs). by eapply sends_acts.
  - right. case_decide; [left; tauto|right]. destruct Hpost as (t2 & t3 & deadline & _ & _ & _ & _ & _ & Hs).
    split; [done|]. split; [done|]. split; [by intros [_ [?|[_ ?]]]|]. by eapply sends_acts.
Qed.

Lemma leader_outcome msg_buf sender w w' :
  head msg_buf = Some LEADER → handle_leader_post clock msg_buf w w' → message_outcome msg_buf sender w w'.
Proof.
  intros Hty [Hpost Hlog]. assert (message_correct msg_buf sender w = leader_valid msg_buf w) as Hc
    by (unfold message_correct; by rewrite Hty).
  unfold message_outcome, passed_over. rewrite Hc, Hty. destruct Hlog as [[Hv Hq]|[Hv Hline]].
  - right; right. split; [done|]. split; [done|]. split; [by intros [? _]|].
    case_decide; [|case_decide as Hl].
    + destruct Hpost as (t & _ & _ & _ & Hn). right. by rewrite Hn.
    + destruct Hpost as (_ & _ & Hn). apply (changes_acts sync_level). rewrite Hn. by destruct Hl as (_ & _ & ->).
    + unfold leader_valid in Hv. tauto.
  - unfold leader_valid in *. rewrite !decide_False in Hpost by tauto. tauto.
Qed.

Lemma delay_request_outcome msg_buf sender w w' :
  head msg_buf = Some DELAY_REQUEST → handle_delay_request_post clock msg_buf sender w w' →
  message_outcome msg_buf sender w w'.
Proof.
  intros Hty (t & u & _ & Hu & Hpost). eapply outcome_of; [exact Hpost|by rewrite Hty| |].
  - unfold message_correct. rewrite Hty. split; [|by exists u]. intros (u' & Hu' & Hv). by rewrite Hu' in Hu; injection Hu as ->.
  - intros _ (_ & _ & Hs). by eapply sends_acts.
Qed.

Lemma handle_message_outcome msg_buf sender (w : World) :
  node_ok clock w → msg_buf ≠ [] → bytes_ok msg_buf → addr_ok sender → sane_timestamp msg_buf →
  wp (clock_exit clock) (handle_message clock msg_buf sender) (λ _ w', message_outcome msg_buf sender w w') w.
Proof.
  intros Hw Hne Hb Hs Hts. destruct msg_buf as [|ty0 buf]; [done|]. set (msg_buf := ty0 :: buf) in *.
  unfold handle_message. apply wp_bind. unfold msg_byte. apply wp_from_opt; [|done]. intros ty [= <-].
  assert (∀ (m : WM unit) R, wp (clock_exit clock) m (λ _ w', node_ok clock w' ∧ R w w') w →
    (∀ w', R w w' → message_outcome msg_buf sender w w') →
    wp (clock_exit clock) m (λ _ w', message_outcome msg_buf sender w w') w) as Hmono
    by (intros m R Hm HR; eapply wp_mono; [|exact Hm]; intros [] w' [_ ?]; auto).
  repeat match goal with |- wp _ (if ?a =? ?b then _ else _) _ _ => destruct (Z.eqb_spec a b) as [Hty|] end;
    [eapply Hmono; [first [by apply hello_handler_run|by apply handle_hello_reply_run|by apply handle_connect_run
      |by apply handle_ack_connect_run|by apply handle_sync_start_run|by apply handle_delay_request_run
      |by apply handle_delay_response_run|by apply handle_leader_run|by apply handle_get_time_run]|intros w' Hpost]..|].
  5: apply sync_start_outcome; [by rewrite <-Hty|exact Hpost].
  5: apply delay_request_outcome; [by rewrite <-Hty|exact Hpost].
  6: apply leader_outcome; [by rewrite <-Hty|exact Hpost].
  1-6: eapply outcome_of; [exact Hpost|change (Some ty0 ≠ Some SYNC_START); by rewrite Hty|unfold message_correct; change (head msg_buf) with (Some ty0); by rewrite Hty|].
  - intros _ (_ & _ & Hsent). by eapply sends_acts.
  - intros (Hwait & _) (Hn & _). apply (changes_acts waiting_for_hello_reply). rewrite Hn. by rewrite Hwait.
  - intros _ (_ & _ & Hsent). by eapply sends_acts.
  - intros (_ & Hin & _) (Hn & _ & Hl). left. intros (Hn' & Hp & _). pose proof (same_peers_lists _ _ Hn' Hp) as Hl'.
    rewrite Hl' in Hl. injection Hl as _ Ha. rewrite Ha in Hin. by apply list_elem_of_filter in Hin as [? _].
  - intros (_ & Hsyn & _) (start & check & t & _ & _ & _ & _ & _ & Hn).
    apply (changes_acts synchronizing). rewrite Hn. by rewrite Hsyn.
  - intros _ (t & _ & _ & _ & Hsent). by eapply sends_acts.
  - apply wp_bad_message. left. split; [|done]. unfold message_correct. change (head msg_buf) with (Some ty0).
    cbv iota. repeat match goal with |- context [if ?a =? ?b then _ else _] => destruct (Z.eqb_spec a b) as [?|_]; [done|] end. tauto.
Qed.
End outcomes.

(** C36: an incorrect datagram is reported, and no other. A message of an unknown type, of the
    wrong size, from an unexpected sender or an address of the node itself, with inconsistent
    contents, or a DELAY_REQUEST more than five milliseconds after the SYNC_START, gets one
    line [ERROR MSG] with the hexadecimal digits of its first ten bytes, sends nothing and
    changes neither the data of the node nor its peer lists. A correct message is not
    reported: it is acted upon, or it is a SYNC_START that comes during an exchange or from
    another peer than the node's own whose level is too high, and changes nothing. *)
Theorem bad_messages_reported `{Host} `{libc : Libc} `{udp : Udp} (clock : nat → option timespec) `{Monotonic clock}
    msg_buf sender (w : World) :
  node_ok clock w → msg_buf ≠ [] → bytes_ok msg_buf → addr_ok sender → sane_timestamp msg_buf →
  wp (clock_exit clock) (handle_message clock msg_buf sender)
    (λ _ w', message_outcome clock msg_buf sender w w' ∧ read_hex (drop 10 (msg_line msg_buf)) = take 10 msg_buf) w.
Proof.
  intros. eapply wp_mono; [|by apply handle_message_outcome]. intros [] w' Hout. split; [exact Hout|].
  by apply msg_line_reads_back.
Qed.

Lemma bad_messages_reported_witness :
  let w := example_world (example_data [addr 1 7] 255) [addr 9 90] [] [] in
  wp (clock_exit steady_clock) (handle_message (H:=false) steady_clock [HELLO] (addr 1 7))
    (λ _ w', message_outcome (H:=false) steady_clock [HELLO] (addr 1 7) w w' ∧
       read_hex (drop 10 (msg_line [HELLO])) = take 10 [HELLO]) w.
Proof.
  intros w. apply (bad_messages_reported (H:=false) steady_clock [HELLO] (addr 1 7) w); try done.
  - by apply example_ok; [|by apply example_data_inv].
  - bytes_done.
Defined.
Lemma wp_send_too_long `{Host} `{libc : Libc} `{udp : Udp} (E : failure → Prop) len dest bytes failure (Q : unit → World → Prop) w :
  take (Z.to_nat len) (send_buffer w) = bytes → sendto (sent w) dest bytes = (-1, failure) → failure ≠ 0 →
  Q tt (w <| sent ::= λ l, l ++ [(dest, bytes)] |> <| errno := failure |>
          <| stderr ::= λ l, l ++ [lit "ERROR Failed to send a message of type 2" ++ errno_text failure ++ [lf]] |>) →
  wp E (send_message HELLO_REPLY len dest) Q w.
Proof.
  intros <- Hsend Hf HQ. unfold send_message. apply wp_bind, wp_get_state. cbv zeta. rewrite Hsend.
  apply wp_bind, wp_modify. change (-1 <? 0) with true. cbv iota. apply wp_bind, wp_modify.
  unfold error, NodeErr.error_text. apply wp_bind, wp_get_state, wp_bind.
  set (w1 := w <| sent ::= _ |> <| errno := failure |>). change (errno w1) with failure.
  rewrite (proj2 (Z.eqb_neq _ _) Hf). exact HQ.
Qed.

(** A reply with 9358 to 9361 peers passes the test of its size but does not fit into a
    datagram: the sender of HELLO becomes a known peer and never gets the reply. *)
Theorem large_hello_reply_fails `{Host} `{libc : Libc} `{udp : Udp} (clock : nat → option timespec) `{Monotonic clock}
    sender (w : World) :
  (∀ h d bytes, 65507 < Z.of_nat (length bytes) → sendto h d bytes = (-1, 90)) →
  node_ok clock w → addr_ok sender → hello_valid [HELLO] sender w →
  9358 ≤ Z.of_nat (length (listed (my_addresses (node w)) sender (known w))) →
  wp (clock_exit clock) (handle_hello [HELLO] sender)
    (λ _ w', known w' = added sender (known w) ∧
       stderr w' = stderr w ++ [lit "ERROR Failed to send a message of type 2" ++ errno_text 90 ++ [lf]]) w.
Proof.
  intros Hlimit Hw Hs Hv Hmany. pose proof Hv as (_ & Hown & Hfew & Hadd).
  set (line := lit "ERROR Failed to send a message of type 2" ++ _).
  eapply wp_mono; [|apply wp_and with (Q := λ _ w', stderr w' = stderr w ++ [line]); [by apply hello_handler_run|]].
  { intros [] w' [[_ [Hpost _]] Herr]. rewrite decide_True in Hpost by done. destruct Hpost as (_ & [= Hk _ _] & _).
    split; [exact Hk|exact Herr]. }
  unfold handle_hello. apply wp_bind, wp_get_node. rewrite (proj2 (address_in_array_false _ _) Hown). cbn [negb].
  destruct (node_ok_lists clock w Hw) as (Hk & _). set (ls := listed _ _ _) in *.
  apply wp_bind. eapply wp_create_hello_reply_message; [apply Hw|apply Hw|exact Hk|]. fold ls.
  intros b Hlen. split; [lia|]. intros _ Htake. pose proof (length_hello_reply ls) as Hl.
  rewrite (proj2 (Z.ltb_lt _ _)) by lia. apply wp_bind. eapply wp_list_add; [apply Hw|done|exact Hk|]. intros r p Hr _ _.
  rewrite (proj2 (Z.leb_le _ _)) by (by apply Hr).
  eapply wp_send_too_long; [rewrite Nat2Z.id; exact Htake|apply Hlimit; lia|done|done].
Qed.

Example bad_message_line :
  match handle_message (H:=false) steady_clock [HELLO; 0; 171] (addr 1 8) (example_world (example_data [addr 1 7] 255) [] [] []) with
  | Ret (_, w') => stderr w' = [lit "ERROR MSG 0100ab" ++ [lf]]
  | Fail _ => False
  end.
Proof. vm_compute. reflexivity. Qed.

(** ** Runs from the start of the process *)
Definition run_from_boot (rs : list Received) : outcome NodeData :=
  match (_ ← node_main_start (H:=false) steady_clock example_setup false (addr 0 0) 7 None;
         node_loop (H:=false) steady_clock rs) boot_world with
  | Ret (_, w) => Ret (node w)
  | Fail f => Fail f
  end.
Definition level_from_boot (rs : list Received) : option Z :=
  match run_from_boot rs with Ret n => Some (sync_level n) | Fail _ => None end.

(** P makes itself known, becomes the peer of the node, and the node is made the leader. *)
Definition becomes_leader : list Received :=
  let P := addr 9 90 in
  [Datagram [HELLO] P; Datagram (sync_bytes SYNC_START 0 500) P; Datagram (sync_bytes DELAY_RESPONSE 0 520) P;
   Datagram [LEADER; CLOCK_LEADER] (addr 8 80)].

(** A leader may lose its role to its former peer. A node synchronized to P that is made
    leader still compares senders with P, although [synchronized_peer] means nothing at
    level 0: the next SYNC_START of P, itself still at level 0, makes it unsynchronized. *)
Theorem leader_loses_leadership :
  level_from_boot becomes_leader = Some CLOCK_LEADER ∧
  level_from_boot (becomes_leader ++ [Datagram (sync_bytes SYNC_START 0 900) (addr 9 90)]) = Some CLOCK_UNSYNCHRONIZED.
Proof. split; vm_compute; reflexivity. Qed.

(** Timestamps are not checked. A known peer that sends SYNC_START and DELAY_RESPONSE with
    the timestamp 2^63 makes [update_offset] overflow a signed integer, which is undefined. *)
Theorem hostile_timestamp_overflows :
  let P := addr 9 90 in
  run_from_boot [Datagram [HELLO] P; Datagram (sync_bytes SYNC_START 0 (2 ^ 63)) P;
                 Datagram (sync_bytes DELAY_RESPONSE 0 (2 ^ 63)) P] = Fail Undef.
Proof. vm_compute. reflexivity. Qed.
