(* ===== verification/Client.v ===== *)
(** * The client of the-great-approximator ([client_logic.h], [client_logic.cpp], [ts_queue.h])

    Five threads share a [ClientLogic]. Each operation below is one turn of the loop of a
    thread, or the part of it between two points where another thread may come in between;
    [run_event] is one such step and a list of events an interleaving of the threads. A
    [ThreadSafeQueue] is the list of its elements, oldest first: its mutex makes [push] and
    the [pop]s single steps, and a [try_pop_for] that times out is a turn that does nothing. *)
From Stdlib Require Import Ascii String SpecFloat.
From S2P Require Import Prelude CString Double Constants MsgParser.

(** ** [ts_queue.h] *)
Definition push {A} (item : A) (queue : list A) : list A := queue ++ [item].
Definition try_pop {A} (queue : list A) : option (A * list A) :=
  match queue with [] => None | item :: queue' => Some (item, queue') end.

(** Where the automatic strategy is in its loop. *)
Inductive AutoAt := Waiting | MayPut | Counted | Chosen (point : Z) (value : double).

(** The members of [ClientLogic], then the local variables of its threads. *)
Record Client := {
  player_id : str;
  is_auto_strategy : bool;
  full_info : str;
  coeffs : list double;
  N_ : Z;
  game_over : bool;
  incoming_messages : list Message;
  outgoing_messages : list (option Message);
  logs : list (str * bool);
  K_ : Z;
  K_set : bool;
  puts_without_answer : Z;
  current_approximation : list double;
  real_values : list double;
  auto_at : AutoAt;                     (* auto_strategy *)
  stdin_buffer : str;                   (* manual_strategy: buffer *)
  recv_buffer : str;                    (* network_receiver *)
  first_line : bool;                    (* network_receiver: is_first_message *)
  sending : str;                        (* network_sender: the bytes left of the message *)
  first_message : bool;                 (* message_processor: is_first_message *)
  incorrect_message : bool;             (* message_processor *)
  scoring_received : bool;              (* message_processor *)
  written : str;                        (* what the socket accepted *)
  printed : list (str * bool) }.        (* what log_printer printed *)
#[export] Instance eta_Client : Eta Client := λ c,
  {| player_id := player_id c; is_auto_strategy := is_auto_strategy c; full_info := full_info c;
     coeffs := coeffs c; N_ := N_ c; game_over := game_over c; incoming_messages := incoming_messages c;
     outgoing_messages := outgoing_messages c; logs := logs c; K_ := K_ c; K_set := K_set c;
     puts_without_answer := puts_without_answer c; current_approximation := current_approximation c;
     real_values := real_values c; auto_at := auto_at c; stdin_buffer := stdin_buffer c;
     recv_buffer := recv_buffer c; first_line := first_line c; sending := sending c;
     first_message := first_message c; incorrect_message := incorrect_message c;
     scoring_received := scoring_received c; written := written c; printed := printed c |}.
Abbreviation CM := (M Client).

Definition log_stdout (msg : str) : CM unit := modify (λ c, c <| logs ::= push (msg, false) |>).
Definition log_stderr (msg : str) : CM unit := modify (λ c, c <| logs ::= push (msg, true) |>).

(** The state after the constructor and [register_connection]. The vectors are empty; [N_]
    is not initialised by the code. *)
Definition new_client (id : str) (auto : bool) (server_ip : str) (server_port garbage : Z) : Client :=
  let server_info := lit "[" ++ server_ip ++ lit "]:" ++ to_string server_port in
  {| player_id := id; is_auto_strategy := auto; full_info := server_info ++ lit ", " ++ id;
     coeffs := []; N_ := garbage; game_over := false; incoming_messages := []; outgoing_messages := [];
     logs := [(lit "Connected to " ++ server_info, false)]; K_ := 0; K_set := false; puts_without_answer := 1;
     current_approximation := []; real_values := []; auto_at := Waiting; stdin_buffer := []; recv_buffer := [];
     first_line := true; sending := []; first_message := true; incorrect_message := false;
     scoring_received := false; written := []; printed := [] |}.

Definition send_hello_message : CM unit :=
  c ← get_state; modify (λ c, c <| outgoing_messages ::= push (HelloMessage_createMessage (player_id c)) |>).
Definition send_put_message (point : Z) (value : double) : CM unit :=
  let msg := PutMessage_createMessage point value in
  _ ← log_stdout (lit "Putting " ++ doubleToString value ++ lit " in point " ++ to_string point);
  modify (λ c, c <| outgoing_messages ::= push msg |>).

(** ** Values of the polynomial *)

(** [x_pow] is an [int]: its overflow is undefined. *)
Definition signed32 (z : Z) : outcome Z := if in_sb 32 z then Ret z else Fail Undef.
Fixpoint poly_at_loop (cs : list double) (x : Z) (fuel i : nat) (result : double) (x_pow : Z) : outcome double :=
  match fuel with
  | O => Ret result
  | S fuel' =>
      c ← from_option_or Undef (cs !! i);
      let result := dadd result (dmul c (double_of_Z x_pow)) in
      x_pow ← signed32 (x_pow * x);
      poly_at_loop cs x fuel' (S i) result x_pow
  end.
Definition poly_at (x : Z) : CM double :=
  c ← get_state; lift_outcome (poly_at_loop (coeffs c) x (Z.to_nat (N_ c + 1)) O dzero 1).

(** The loop over [real_values[i]], from index [i] on; an index out of range is undefined. *)
Fixpoint fill_real_values (fuel : nat) (i : Z) : CM unit :=
  match fuel with
  | O => mret tt
  | S fuel' =>
      v ← poly_at i;
      c ← get_state;
      _ ← (if i <? Z.of_nat (length (real_values c))
           then modify (λ c, c <| real_values ::= <[Z.to_nat i := v]> |>) else fail Undef);
      fill_real_values fuel' (i + 1)
  end.

(** [std::vector::resize]; a [double] is value-initialised. *)
Definition resize_vec (n : Z) (l : list double) : list double := resize (Z.to_nat n) dzero l.

(** ** The count of puts without an answer *)
Definition increment_puts_without_answer : CM unit :=
  c ← get_state;
  if in_sb 32 (puts_without_answer c + 1) then modify (λ c, c <| puts_without_answer ::= Z.succ |>) else fail Undef.
Definition decrement_puts_without_answer : CM bool :=
  c ← get_state;
  if 0 <? puts_without_answer c then _ ← modify (λ c, c <| puts_without_answer ::= Z.pred |>); mret true
  else mret false.
Definition wait_for_puts : CM bool := c ← get_state; mret (puts_without_answer c =? 0).

(** ** Messages of the server *)
Definition processCoeffMessage (cs : list double) : CM bool :=
  _ ← modify (λ c, c <| coeffs := cs |> <| N_ := Z.of_nat (length cs) - 1 |>);
  let log_msg := lit "Received coefficients: " ++ fold_left (λ a b, a ++ doubleToString b ++ [space]) cs [] in
  _ ← log_stdout (removelast log_msg);
  _ ← modify (λ c, c <| current_approximation ::= resize_vec 2 |> <| real_values ::= resize_vec 2 |>);
  _ ← modify (λ c, c <| current_approximation ::= λ l, <[1%nat := dzero]> (<[0%nat := dzero]> l) |>);
  _ ← fill_real_values 2 0;
  _ ← decrement_puts_without_answer;
  mret true.

Definition value_in_point (value : double) (point : Z) : str :=
  lit "(" ++ doubleToString value ++ lit " in " ++ to_string point ++ lit ")".
Definition processBadPutMessage (point : Z) (value : double) : CM bool :=
  _ ← log_stdout (lit "Received bad put response " ++ value_in_point value point);
  c ← get_state;
  _ ← (if is_auto_strategy c then _ ← decrement_puts_without_answer; mret tt else mret tt);
  mret true.

Definition processStateMessage (msg : Message) (approx_values : list double) : CM bool :=
  text ← lift_outcome (substr_from (toRawString msg) (length (lit "STATE ")));
  _ ← log_stdout (lit "Received state: " ++ text);
  c ← get_state;
  if is_auto_strategy c && negb (K_set c) then
    let K_from_server := Z.of_nat (length approx_values) - 1 in
    _ ← modify (λ c, c <| K_ := K_from_server |> <| K_set := true |>);
    _ ← modify (λ c, c <| current_approximation ::= resize_vec (K_from_server + 1) |>
                       <| real_values ::= resize_vec (K_from_server + 1) |>);
    _ ← fill_real_values (Z.to_nat (K_from_server + 1)) 0;
    _ ← decrement_puts_without_answer;
    mret true
  else if is_auto_strategy c then decrement_puts_without_answer
  else mret true.

Definition processPenaltyMessage (point : Z) (value : double) : CM bool :=
  _ ← log_stdout (lit "Received penalty response " ++ value_in_point value point); mret true.

Definition processScoringMessage (msg : Message) : CM bool :=
  text ← lift_outcome (substr_from (toRawString msg) (length (lit "SCORING ")));
  _ ← log_stdout (lit "Game end, scoring: " ++ text);
  _ ← modify (λ c, c <| game_over := true |>);
  mret true.

(** ** [message_processor] *)

(** What a message that is not the first does; the result is that of [process*Message]. *)
Definition process_message (msg : Message) : CM bool :=
  match body msg with
  | BadPutMessage point value => processBadPutMessage point value
  | StateMessage approx_values => processStateMessage msg approx_values
  | PenaltyMessage point value => processPenaltyMessage point value
  | ScoringMessage _ _ =>
      ok ← processScoringMessage msg;
      _ ← (if (ok : bool) then modify (λ c, c <| scoring_received := true |>) else mret tt);
      mret ok
  | _ => mret false
  end.

(** One turn of the loop, or the end of the thread: [fatal] is the failure [Exit]. *)
Definition message_processor : CM unit :=
  c ← get_state;
  if game_over c then
    if scoring_received c then mret tt else fail Exit
  else
    match try_pop (incoming_messages c) with
    | None => mret tt
    | Some (msg, rest) =>
        _ ← modify (λ c, c <| incoming_messages := rest |>);
        if first_message c then
          _ ← modify (λ c, c <| first_message := false |> <| incorrect_message := true |>);
          match body msg with
          | CoeffMessage cs =>
              ok ← processCoeffMessage cs;
              _ ← modify (λ c, c <| incorrect_message := negb ok |>);
              if (ok : bool) then mret tt else fail Exit
          | _ => fail Exit
          end
        else
          ok ← process_message msg;
          _ ← modify (λ c, c <| incorrect_message := negb ok |>);
          if (ok : bool) then mret tt
          else log_stderr (lit "bad message from " ++ full_info c ++ lit ": " ++ toRawString msg)
    end.

(** ** [network_receiver] *)
Inductive RecvResult := RecvData (data : str) | RecvClosed | RecvAgain | RecvFailed.

(** [fatal] takes a format, which ends at its first null character ([error_msg.c_str()]): a conversion in
    it reads an argument that is not there, which is undefined; only two percent signs in a row are
    harmless. *)
Fixpoint format_without_arguments (s : str) : bool :=
  match s with
  | [] => true
  | c :: s' =>
      if bool_decide (c = chr 0) then true
      else if bool_decide (c = chr 37) then
        match s' with d :: s'' => bool_decide (d = chr 37) && format_without_arguments s'' | [] => false end
      else format_without_arguments s'
  end.
Definition fatal_format (fmt : str) : CM unit := if format_without_arguments fmt then fail Exit else fail Undef.

(** The loop over the lines of the buffer. *)
Fixpoint receive_lines (fuel : nat) : CM unit :=
  c ← get_state;
  match find_str crlf (recv_buffer c) with
  | None => mret tt
  | Some crlf_pos =>
      match fuel with
      | O => fail Diverge
      | S fuel' =>
          line ← lift_outcome (substr (recv_buffer c) 0 (crlf_pos + length crlf));
          _ ← modify (λ c, c <| recv_buffer ::= drop (crlf_pos + length crlf) |>);
          _ ← (match createMessage line with
               | Some msg => modify (λ c, c <| incoming_messages ::= push msg |>)
               | None =>
                   text ← lift_outcome (substr line 0 (length line - length crlf));
                   let error_msg := lit "bad message from " ++ full_info c ++ lit ": " ++ text in
                   if first_line c then fatal_format error_msg else log_stderr error_msg
               end);
          _ ← modify (λ c, c <| first_line := false |>);
          receive_lines fuel'
      end
  end.

Definition network_receiver (r : RecvResult) : CM unit :=
  c ← get_state;
  if game_over c then mret tt
  else
    match r with
    | RecvData data =>
        _ ← modify (λ c, c <| recv_buffer ::= λ b, b ++ data |>);
        c ← get_state;
        receive_lines (length (recv_buffer c))
    | RecvClosed => modify (λ c, c <| game_over := true |>)
    | RecvAgain => mret tt
    | RecvFailed => fail Exit
    end.

(** After its loop the thread reports what is left in the buffer. *)
Definition network_receiver_end : CM unit :=
  c ← get_state;
  if bool_decide (recv_buffer c = []) then mret tt
  else log_stderr (lit "partial message remaining in buffer at disconnection: " ++ recv_buffer c).

(** ** [network_sender]: one [write], with its result (an error number with a minus sign) and whether
    [errno] is [EAGAIN]. As in the server, [EPIPE] comes with the signal [SIGPIPE]. *)
Definition network_sender (nwritten : Z) (again : bool) : CM unit :=
  c ← get_state;
  match sending c with
  | [] =>
      if game_over c then mret tt
      else
        match try_pop (outgoing_messages c) with
        | None => mret tt
        | Some (msg, rest) =>
            m ← from_opt Undef msg;
            modify (λ c, c <| outgoing_messages := rest |> <| sending := raw_message m |>)
        end
  | _ =>
      if nwritten =? - EPIPE then fail Signal
      else if nwritten <=? 0 then
        if again && game_over c then modify (λ c, c <| sending := [] |>) else fail Exit
      else modify (λ c, c <| written ::= λ w, w ++ take (Z.to_nat nwritten) (sending c) |>
                          <| sending ::= drop (Z.to_nat nwritten) |>)
  end.

(** ** [log_printer] *)

(** The line of a log, and whether it goes to the standard error stream. *)
Definition print_log_to_console (log : str * bool) : str * bool :=
  if snd log then (lit "ERROR: " ++ fst log ++ [lf], true) else (fst log ++ lit "." ++ [lf], false).
Definition log_printer : CM unit :=
  c ← get_state;
  match try_pop (logs c) with
  | None => mret tt
  | Some (log, rest) => modify (λ c, c <| logs := rest |> <| printed ::= push (print_log_to_console log) |>)
  end.

(** ** Strategies *)

(** [std::max_element]: the first greatest element. *)
Fixpoint max_element (l : list double) (i best_i : nat) (best : double) : nat :=
  match l with
  | [] => best_i
  | x :: l' => if dlt best x then max_element l' (S i) i x else max_element l' (S i) best_i best
  end.
Definition clamp (v lo hi : double) : double := if dlt v lo then lo else if dlt hi v then hi else v.

Definition get_best_put : CM (Z * double) :=
  c ← get_state;
  let max_point := if K_set c then K_ c else 1 in
  if Z.of_nat (length (current_approximation c)) <? max_point + 1 then fail Undef
  else
    let n := Z.to_nat (max_point + 1) in
    approximation ← from_opt Undef (if (length (real_values c) <? n)%nat then None else Some (take n (current_approximation c)));
    let squared_differences :=
      zip_with (λ a b, dmul (dsub a b) (dsub a b)) approximation (real_values c) in
    first ← from_opt Undef (head squared_differences);
    let max_idx := max_element (tail squared_differences) 1 0 first in
    r ← from_opt Undef (real_values c !! max_idx);
    a ← from_opt Undef (current_approximation c !! max_idx);
    let diff := dsub r a in
    let value_to_put := clamp diff constants.min_put_value constants.max_put_value in
    _ ← modify (λ c, c <| current_approximation ::= <[max_idx := dadd a value_to_put]> |>);
    mret (Z.of_nat max_idx, value_to_put).

(** The automatic strategy, one step at a time: other threads run in between. *)
Definition auto_strategy : CM unit :=
  c ← get_state;
  match auto_at c with
  | Waiting =>
      if game_over c then mret tt
      else
        ready ← wait_for_puts;
        if (ready : bool) then modify (λ c, c <| auto_at := MayPut |>) else mret tt
  | MayPut => _ ← increment_puts_without_answer; modify (λ c, c <| auto_at := Counted |>)
  | Counted =>
      '(point, value) ← get_best_put; modify (λ c, c <| auto_at := Chosen point value |>)
  | Chosen point value =>
      _ ← send_put_message point value; modify (λ c, c <| auto_at := Waiting |>)
  end.

(** One line of input. *)
Definition manual_line (line : str) : CM unit :=
  let invalid := log_stderr (lit "invalid input line " ++ line) in
  match splitParams line with
  | Some [s0; s1] =>
      match parseInteger s0, parseDouble s1 with
      | Some point, Some value => send_put_message point value
      | _, _ => invalid
      end
  | _ => invalid
  end.
Fixpoint manual_lines (fuel : nat) : CM unit :=
  c ← get_state;
  match find_char lf (stdin_buffer c) with
  | None => mret tt
  | Some newline_pos =>
      match fuel with
      | O => fail Diverge
      | S fuel' =>
          line ← lift_outcome (substr (stdin_buffer c) 0 newline_pos);
          _ ← modify (λ c, c <| stdin_buffer ::= drop (newline_pos + 1) |>);
          _ ← manual_line line;
          manual_lines fuel'
      end
  end.
(** What [poll] and [read] give on the standard input. At its end, or when [poll] reports another event
    than data, the bytes are none. *)
Inductive Stdin := StdinData (data : str) | StdinTimeout | StdinReadFailed | StdinPollFailed.
#[export] Instance stdin_eq_dec : EqDecision Stdin.
Proof. solve_decision. Defined.
Definition manual_strategy (input : Stdin) : CM unit :=
  c ← get_state;
  if game_over c then mret tt
  else
    match input with
    | StdinPollFailed => fail Exit
    | StdinTimeout => mret tt
    | StdinReadFailed => log_stderr (lit "Error reading from stdin.")
    | StdinData data =>
        _ ← modify (λ c, c <| stdin_buffer ::= λ b, b ++ data |>);
        c ← get_state;
        manual_lines (length (stdin_buffer c))
    end.

(** ** The threads *)
Inductive Event :=
  | Processor
  | Receiver (r : RecvResult)
  | ReceiverEnd
  | Sender (nwritten : Z) (again : bool)
  | Printer
  | Strategy (input : Stdin).

Definition run_event (e : Event) : CM unit :=
  match e with
  | Processor => message_processor
  | Receiver r => network_receiver r
  | ReceiverEnd => c ← get_state; if game_over c then network_receiver_end else mret tt
  | Sender nwritten again => network_sender nwritten again
  | Printer => log_printer
  | Strategy input => c ← get_state; if is_auto_strategy c then auto_strategy else manual_strategy input
  end.
Fixpoint run_events (es : list Event) : CM unit :=
  match es with [] => mret tt | e :: es' => _ ← run_event e; run_events es' end.

(** [start_threads_and_send_hello] starts the threads before it queues HELLO: steps of
    theirs may come first. *)
Definition start (before : list Event) : CM unit := _ ← run_events before; send_hello_message.
Definition session (before after : list Event) : CM unit := _ ← start before; run_events after.
