(* ===== verification/ClientValues.v ===== *)
(** * The numbers of the client: the polynomial, the steps toward it, and the text of a put

    No number of the client overflows or becomes a NaN, and the values that the automatic
    strategy puts are read back by the server within the range that it accepts. *)
From Stdlib Require Import Ascii String SpecFloat.
From S2P Require Import Prelude CString Double Constants DoubleOrder MsgParser ServerState ServerLogic Handlers Client.

(** ** The polynomial: the loop of the client and that of the server *)
Lemma poly_loops_agree cs x fuel i r p :
  0 ≤ x < 2 ^ 31 → 0 ≤ p < 2 ^ 31 → p * x ^ Z.of_nat fuel < 2 ^ 31 → (i + fuel ≤ length cs)%nat →
  poly_at_loop cs x fuel i r p = poly_loop cs x fuel i r (double_of_Z p).
Proof.
  revert i r p. induction fuel as [|fuel IH]; intros i r p Hx Hp Hpow Hlen; [done|].
  cbn [poly_at_loop poly_loop]. destruct (lookup_lt_is_Some_2 cs i) as [c Hc]; [lia|]. rewrite Hc.
  cbn [from_option_or mbind outcome_bind].
  rewrite Nat2Z.inj_succ, Z.pow_succ_r in Hpow by lia.
  assert (0 ≤ p * x < 2 ^ 31) as Hpx.
  { split; [lia|]. destruct (Z.eq_dec x 0) as [->|]; [lia|].
    assert (0 < x ^ Z.of_nat fuel) by (apply Z.pow_pos_nonneg; lia). nia. }
  unfold signed32. rewrite (proj2 (in_sb_spec 32 _)) by (unfold in_s; simpl; lia). cbn [mbind outcome_bind].
  rewrite dmul_double_of_Z by lia. apply IH; [done|done| |lia]. lia.
Qed.

Lemma poly_loop_overflows cs x fuel i r p :
  0 ≤ x < 2 ^ 31 → 0 ≤ p < 2 ^ 31 → 2 ^ 31 ≤ p * x ^ Z.of_nat fuel → (i + fuel ≤ length cs)%nat →
  poly_at_loop cs x fuel i r p = Fail Undef.
Proof.
  revert i r p. induction fuel as [|fuel IH]; intros i r p Hx Hp Hpow Hlen; [simpl in Hpow; lia|].
  cbn [poly_at_loop]. destruct (lookup_lt_is_Some_2 cs i) as [c Hc]; [lia|]. rewrite Hc.
  cbn [from_option_or mbind outcome_bind]. rewrite Nat2Z.inj_succ, Z.pow_succ_r in Hpow by lia.
  unfold signed32. destruct (in_sb 32 (p * x)) eqn:Hin; [|done]. cbn [mbind outcome_bind].
  apply in_sb_spec in Hin. unfold in_s in Hin. simpl in Hin. apply IH; [done|lia| |lia]. lia.
Qed.

Definition value_ok (r : double) : Prop := dabs_le 10 119 r.
Definition coeffs_ok (cs : list double) : Prop := Forall (dabs_le 101 0) cs ∧ (length cs ≤ 9)%nat.

Lemma poly_at_loop_value cs x v :
  0 ≤ x < 2 ^ 14 → coeffs_ok cs → poly_at_loop cs x (length cs) O dzero 1 = Ret v → value_ok v.
Proof.
  intros Hx [Hcs Hlen] Hv. destruct (decide (1 * x ^ Z.of_nat (length cs) < 2 ^ 31)).
  - rewrite poly_loops_agree in Hv by lia.
    destruct (poly_loop_ret cs x (length cs) 0 dzero (double_of_Z 1)) as (r & Hr & Hd); [done..| | |].
    + apply dzero_dabs.
    + apply double_of_Z_dabs; [unfold dbound; lia|lia|lia].
    + rewrite Hr in Hv. by injection Hv as <-.
  - rewrite poly_loop_overflows in Hv by lia. done.
Qed.

(** ** A step toward a value *)
Lemma min_put_limit : constants.min_put_value = limit 5 50 true.
Proof. vm_compute. reflexivity. Qed.
Lemma max_put_limit : constants.max_put_value = limit 5 50 false.
Proof. vm_compute. reflexivity. Qed.
Lemma threshold_5 : threshold 5 50.
Proof. split; lia. Qed.

Abbreviation cut d := (clamp d constants.min_put_value constants.max_put_value).
Lemma cut_spec d :
  printable d → dabs_le 5 0 (cut d) ∧ (is_zero d = true → is_zero (cut d) = true) ∧ sign_of (cut d) = sign_of d.
Proof.
  intros [Hv Hf]. unfold clamp. rewrite min_put_limit, max_put_limit.
  destruct (dlt d (limit 5 50 true)) eqn:H1; [|destruct (dlt (limit 5 50 false) d) eqn:H2].
  - destruct d as [[]| | |[] m e]; done.
  - destruct d as [[]| | |[] m e]; done.
  - split; [|done]. apply (within_limits 5 50 threshold_5); first [done|lia].
Qed.

Definition approx_ok (a : double) : Prop := dabs_le 11 119 a.
Lemma step_toward r a :
  value_ok r → approx_ok a → printable (dsub r a) ∧ approx_ok (dadd a (cut (dsub r a))).
Proof.
  intros Hr Ha. assert (dabs_le 21 119 (dsub r a)) as Hd.
  { change 21 with (10 + 11). apply dsub_dabs; [unfold dbound; lia|lia|lia|done|done]. }
  assert (printable (dsub r a)) as Hp by (split; [by eapply dabs_le_valid|by eapply dabs_le_finite]).
  split; [done|]. destruct (cut_spec _ Hp) as (Hc & Hz & Hs).
  assert (dabs_le 1 119 (cut (dsub r a))) as Hc1 by (apply (dabs_le_rescale 5 1 0 119); [lia|lia|exact Hc]).
  destruct (dsub_toward 10 11 119 r a) as [Ha10|Hopp]; [lia|done|done| |].
  - unfold approx_ok. change 11 with (10 + 1). apply dadd_dabs; [unfold dbound; lia|lia|lia|done|done].
  - apply dadd_opposite; [unfold dbound; lia|done| |].
    + eapply dabs_le_mono; [|exact Hc1]. lia.
    + destruct Hopp as [Hopp|Hopp]; [left; by apply Hz|right; by rewrite Hs].
Qed.

(** ** The text of a put *)
Lemma print_parse_dabs j d d' :
  dbound j 0 → dabs_le j 0 d → parseDouble (doubleToString d) = Some d' → dabs_le j 0 d'.
Proof.
  intros Hj Hd. pose proof (dabs_le_finite _ _ _ Hd) as Hf. unfold parseDouble.
  destruct (doubleToString_text d Hf) as (neg & ds & fs & Hok & Heq). rewrite Heq at 1.
  rewrite double_format_complete by done. unfold doubleToString.
  assert (∀ s n, 0 ≤ n ≤ j * 2 ^ 0 * 10 ^ Z.of_nat constants.max_fractional_digits →
    dabs_le j 0 (decimal_to_double s n constants.max_fractional_digits)) as Hdec.
  { intros s n Hn. apply decimal_to_double_dabs; [unfold constants.max_fractional_digits; lia|done|lia|done]. }
  destruct Hj as [Hj _].
  destruct d as [s| | |s m e]; try done; cbn [print_fixed].
  - specialize (Hdec s 0 ltac:(simpl; lia)). rewrite stod_print_decimal by (lia || by eapply dabs_le_finite).
    rewrite Nat.eqb_refl. by intros [= <-].
  - destruct Hd as (_ & He & Hm). pose proof (scaled_le constants.max_fractional_digits m e j 0 ltac:(lia) He Hm) as Hsc.
    specialize (Hdec s _ Hsc). rewrite stod_print_decimal by (lia || by eapply dabs_le_finite).
    rewrite Nat.eqb_refl. by intros [= <-].
Qed.

Lemma in_limits_accepted k point v : dabs_le 5 0 v → 0 ≤ point ≤ k → put_out_of_range k point v = false.
Proof.
  intros Hv Hp. unfold put_out_of_range. rewrite (proj2 (Z.ltb_ge _ _)), (proj2 (Z.ltb_ge _ _)) by lia.
  assert (constants.eps = S754_finite false eps_m (-77)) as -> by (vm_compute; reflexivity).
  assert (dabs_le 5 0 (S754_finite false eps_m (-77))) as He by (split; [done|split; vm_compute; congruence]).
  rewrite min_put_limit, max_put_limit. unfold dgt.
  by rewrite (tolerance_below 5 50 threshold_5), (tolerance_above 5 50 threshold_5).
Qed.

(** A PUT at a point of the game with a value cut to the limits reads back as one that the server
    accepts. *)
Lemma put_reads_back k point value :
  0 ≤ point ≤ k ∧ k ≤ constants.max_k → dabs_le 5 0 value →
  ∃ m value', PutMessage_createMessage point value = Some m ∧ body m = PutMessage point value' ∧
    put_out_of_range k point value' = false.
Proof.
  intros [Hpoint Hk] Hvalue.
  assert (printable value) as Hpr by (split; [by eapply dabs_le_valid|by eapply dabs_le_finite]).
  destruct (pair_message_some (lit "PUT") PutMessage_parseMessage PutMessage point value)
    as (m & value' & Hm & [Hread _] & Hbody & _); [by split|done|done|unfold in_s, constants.max_k in *; lia|done|].
  exists m, value'. split; [exact Hm|]. split; [done|]. apply in_limits_accepted; [|lia].
  eapply print_parse_dabs; [|exact Hvalue|exact Hread]. unfold dbound; lia.
Qed.
