(* ===== verification/ClientInv.v ===== *)
(** * The invariant of the client, and what each step of a thread does

    [client_inv] relates the count of puts without an answer, the place of the automatic
    strategy and the sizes of the two vectors. [step_of] is what any step of any thread does
    to them; a step may also end the process, but no loop runs for ever. *)
From Stdlib Require Import Ascii String SpecFloat.
From S2P Require Import Prelude CString Double Constants DoubleOrder MsgParser ServerState ServerLogic Handlers Framing Client ClientValues.

Definition terminates (f : failure) : Prop := f ≠ Diverge.
Abbreviation wpt := (wp terminates).

(** ** Messages of the parser: lists of values are neither empty nor too long *)
Definition message_ok (m : Message) : Prop :=
  match body m with
  | CoeffMessage l => l ≠ [] ∧ coeffs_ok l
  | StateMessage l => l ≠ [] ∧ Z.of_nat (length l) ≤ constants.max_k + 1
  | _ => True
  end.

Lemma mapM_nonempty {A B} (f : A → option B) l k : mapM f l = Some k → l ≠ [] → k ≠ [] ∧ length k = length l.
Proof. intros Hm%mapM_Some_1%Forall2_length Hl. split; [|done]. intros ->. by destruct l. Qed.

Lemma createMessage_message_ok line m : createMessage line = Some m → message_ok m.
Proof.
  unfold createMessage. destruct (_ || _); [done|].
  destruct (extractCommandAndParams _) as [[cmd ps]|]; [|done]; cbn [mbind option_bind].
  destruct (splitParams ps) as [ws|]; [|done]; cbn [mbind option_bind].
  destruct (parse_command cmd) as [pm|] eqn:Hpm; [|done]; cbn [mbind option_bind].
  destruct (pm ws) as [b|] eqn:Hb; [|done]. intros [= <-]. unfold message_ok. cbn [body].
  apply parse_command_inv in Hpm as [-> |[-> |[-> |[-> |[-> |[-> | ->]]]]]].
  - unfold HelloMessage_parseMessage in Hb. destruct ws as [|w [|]]; try done. destruct (isAlphanumeric w); [|done].
    by injection Hb as <-.
  - pose proof (coeff_parse_ok _ _ Hb) as (l & -> & Hl). unfold CoeffMessage_parseMessage in Hb.
    destruct (_ || _) eqn:Hlen; [done|]. apply orb_false_iff in Hlen as [H1 H2].
    destruct (mapM _ ws) as [l'|] eqn:Hm; [|done]. injection Hb as ->.
    apply mapM_nonempty in Hm as [Hne Hlk]; [|by intros ->]. split; [done|]. split; [done|].
    unfold constants.max_n in H2. lia.
  - by apply pair_parse_ok in Hb as (p & v & -> & _).
  - by apply pair_parse_ok in Hb as (p & v & -> & _).
  - unfold StateMessage_parseMessage in Hb. destruct (_ || _) eqn:Hlen; [done|].
    apply orb_false_iff in Hlen as [H1 H2]. destruct (mapM _ ws) as [l|] eqn:Hm; [|done]. injection Hb as <-.
    apply mapM_nonempty in Hm as [Hne Hlk]; [|by intros ->]. split; [done|]. lia.
  - by apply pair_parse_ok in Hb as (p & v & -> & _).
  - unfold ScoringMessage_parseMessage in Hb. destruct (scoring_pairs ws); [|done]. by injection Hb as <-.
Qed.

(** ** The invariant *)
Definition max_point (c : Client) : Z := if K_set c then K_ c else 1.

Record client_inv (c : Client) : Prop := {
  ci_puts : 0 ≤ puts_without_answer c ≤ 1;
  ci_may : auto_at c = MayPut → puts_without_answer c = 0;
  ci_first : first_message c = true → puts_without_answer c = 1 ∧ auto_at c = Waiting ∧ K_set c = false;
  ci_ready : first_message c = false →
    coeffs c ≠ [] ∧ N_ c = Z.of_nat (length (coeffs c)) - 1 ∧ 0 ≤ max_point c ≤ constants.max_k ∧
    Z.of_nat (length (current_approximation c)) = max_point c + 1 ∧
    Z.of_nat (length (real_values c)) = max_point c + 1;
  ci_coeffs : coeffs_ok (coeffs c);
  ci_values : Forall approx_ok (current_approximation c) ∧ Forall value_ok (real_values c);
  ci_chosen i v : auto_at c = Chosen i v → 0 ≤ i ≤ constants.max_k ∧ dabs_le 5 0 v;
  ci_incoming : Forall message_ok (incoming_messages c) }.

(** What the invariant speaks about. *)
Definition control (c : Client) :=
  (is_auto_strategy c, puts_without_answer c, auto_at c, first_message c, K_set c, K_ c, coeffs c, N_ c,
   current_approximation c, real_values c, player_id c).

Lemma client_inv_control c c' :
  control c' = control c → Forall message_ok (incoming_messages c') → client_inv c → client_inv c'.
Proof.
  intros Hc Hin [H1 H2 H3 H4 H5 H6 H7 _]. injection Hc as Ha Hp Hat Hf Hks Hk Hco Hn Hca Hrv _.
  split; rewrite ?Hp, ?Hat, ?Hf, ?Hks, ?Hco, ?Hn, ?Hca, ?Hrv; try done.
  unfold max_point in *. by rewrite Hks, Hk.
Qed.

(** The bytes for the server: written, of the message being sent, and of those queued. *)
Definition raw_of (m : option Message) : str := match m with Some m => raw_message m | None => [] end.
Definition outgoing (c : Client) : str := sending c ++ concat (map raw_of (outgoing_messages c)).
Definition said (c : Client) : str := written c ++ outgoing c.

(** A step that concerns neither the puts nor the bytes for the server. *)
Definition quiet (c c' : Client) : Prop :=
  control c' = control c ∧ written c' = written c ∧ sending c' = sending c ∧ outgoing_messages c' = outgoing_messages c.
Lemma client_quiet_refl c : quiet c c.
Proof. done. Qed.
Lemma client_quiet_trans c1 c2 c3 : quiet c1 c2 → quiet c2 c3 → quiet c1 c3.
Proof. unfold quiet. intros (H1 & H2 & H3 & H4) (H1' & H2' & H3' & H4'). repeat split; congruence. Qed.

Lemma wp_log_stdout E msg (Q : unit → Client → Prop) c : Q tt (c <| logs ::= push (msg, false) |>) → wp E (log_stdout msg) Q c.
Proof. done. Qed.
Lemma wp_log_stderr E msg (Q : unit → Client → Prop) c : Q tt (c <| logs ::= push (msg, true) |>) → wp E (log_stderr msg) Q c.
Proof. done. Qed.
Lemma wp_substr_from s n (Q : str → Client → Prop) c : (∀ t, Q t c) → wpt (lift_outcome (substr_from s n)) Q c.
Proof. intros HQ. apply wp_lift_outcome. unfold substr_from. by destruct (_ <? _)%nat. Qed.
Lemma wp_substr s i n (Q : str → Client → Prop) c : (∀ t, Q t c) → wpt (lift_outcome (substr s i n)) Q c.
Proof. intros HQ. apply wp_lift_outcome. unfold substr. by destruct (_ <? _)%nat. Qed.

Lemma poly_at_loop_ends cs x fuel i r p : poly_at_loop cs x fuel i r p ≠ Fail Diverge.
Proof.
  revert i r p. induction fuel as [|fuel IH]; intros i r p; [done|]. cbn [poly_at_loop].
  destruct (cs !! i); [|done]. cbn [from_option_or mbind outcome_bind]. unfold signed32.
  destruct (in_sb 32 _); [|done]. cbn [mbind outcome_bind]. apply IH.
Qed.

Lemma Forall_resize_vec j b n l : Forall (dabs_le j b) l → Forall (dabs_le j b) (resize_vec n l).
Proof. intros Hl. apply Forall_resize; [apply dzero_dabs|done]. Qed.

Lemma wp_fill_real_values fuel i (Q : unit → Client → Prop) c :
  0 ≤ i → i + Z.of_nat fuel ≤ 2 ^ 14 → coeffs_ok (coeffs c) → N_ c = Z.of_nat (length (coeffs c)) - 1 →
  Forall value_ok (real_values c) →
  (∀ rv, length rv = length (real_values c) → Forall value_ok rv → Q tt (c <| real_values := rv |>)) →
  wpt (fill_real_values fuel i) Q c.
Proof.
  revert i c. induction fuel as [|fuel IH]; intros i c Hi Hif Hcs Hn Hrv HQ; cbn [fill_real_values].
  { apply wp_ret. specialize (HQ (real_values c) eq_refl Hrv). by destruct c. }
  wp_step. unfold poly_at. wp_step. wp_step. apply wp_lift_outcome.
  replace (Z.to_nat (N_ c + 1)) with (length (coeffs c)) by lia.
  pose proof (poly_at_loop_ends (coeffs c) i (length (coeffs c)) 0 dzero 1) as Hends.
  destruct (poly_at_loop _ _ _ _ _ _) as [v|f] eqn:Hv; [|unfold terminates; congruence].
  apply poly_at_loop_value in Hv; [|lia|done].
  wp_step. wp_step. wp_step. destruct (i <? _); [|by apply wp_fail].
  apply wp_modify, IH; [lia|lia|done|done|by apply Forall_insert|].
  intros rv Hlen Hall. simpl in Hlen. rewrite length_insert in Hlen. by apply (HQ rv).
Qed.

Lemma wp_decrement E (Q : bool → Client → Prop) c :
  (puts_without_answer c ≤ 0 → Q false c) →
  (0 < puts_without_answer c → Q true (c <| puts_without_answer ::= Z.pred |>)) →
  wp E decrement_puts_without_answer Q c.
Proof.
  intros H0 H1. unfold decrement_puts_without_answer. wp_step. wp_step. wp_step.
  - wp_step. wp_step. wp_step. apply H1. by apply Z.ltb_lt.
  - apply wp_ret, H0. by apply Z.ltb_ge.
Qed.

(** ** [message_processor] *)
Record processed (c c' : Client) : Prop := {
  pr_inv : client_inv c';
  pr_auto : is_auto_strategy c' = is_auto_strategy c ∧ auto_at c' = auto_at c ∧ player_id c' = player_id c;
  pr_puts : puts_without_answer c' = puts_without_answer c ∨ puts_without_answer c = 1 ∧ puts_without_answer c' = 0;
  pr_bytes : written c' = written c ∧ sending c' = sending c ∧ outgoing_messages c' = outgoing_messages c }.

Lemma processed_refl c : client_inv c → processed c c.
Proof. intros. split; [done|done|by left|done]. Qed.
Lemma processed_quiet c c' : client_inv c → quiet c c' → Forall message_ok (incoming_messages c') → processed c c'.
Proof.
  intros Hc (Hq & Hb) Hin. split; [by eapply client_inv_control| |left|tauto]; by injection Hq.
Qed.
Lemma processed_then_quiet c1 c2 c3 :
  processed c1 c2 → quiet c2 c3 → incoming_messages c3 = incoming_messages c2 → processed c1 c3.
Proof.
  intros [Hi (Ha & Hat & Hid) Hp (Hw & Hs & Ho)] (Hq & Hw' & Hs' & Ho') Hin.
  split; [|injection Hq; intros; split_and!; congruence|injection Hq as ? Hp' _ _ _ _ _ _ _ _ _; by rewrite Hp'|repeat split; congruence].
  eapply client_inv_control; [exact Hq| |done]. rewrite Hin. apply Hi.
Qed.

Lemma length_resize_vec n l : 0 ≤ n → Z.of_nat (length (resize_vec n l)) = n.
Proof. intros. unfold resize_vec. rewrite length_resize. lia. Qed.

Lemma decremented c :
  client_inv c → first_message c = false → 0 < puts_without_answer c → processed c (c <| puts_without_answer ::= Z.pred |>).
Proof.
  intros [H1 H2 H3 H4 H5] Hf Hp. split; [split; simpl; try done|done|right; simpl; lia|done]; try lia.
  all: intros Hm; first [specialize (H2 Hm); lia|congruence].
Qed.

Lemma wp_decrement_processed c0 (Q : bool → Client → Prop) c :
  processed c0 c → puts_without_answer c = puts_without_answer c0 → first_message c = false →
  (∀ b c', processed c0 c' → Q b c') → wpt decrement_puts_without_answer Q c.
Proof.
  intros Hc Hsame Hf HQ. apply wp_decrement; [intros _; by apply HQ|]. intros Hp. apply HQ.
  destruct (decremented c (pr_inv _ _ Hc) Hf Hp) as [Hi Ha Hpp Hb], Hc as [Hi0 [Ha0 Hat0] Hp0 (Hw0 & Hs0 & Ho0)].
  split; [done|simpl; by split| |simpl; by repeat split]. right. pose proof (ci_puts _ Hi0). simpl. lia.
Qed.

Lemma wp_processCoeffMessage cs c (Q : bool → Client → Prop) :
  cs ≠ [] ∧ coeffs_ok cs → puts_without_answer c = 1 → auto_at c = Waiting → K_set c = false → first_message c = false →
  Forall approx_ok (current_approximation c) ∧ Forall value_ok (real_values c) →
  Forall message_ok (incoming_messages c) → (∀ b c', processed c c' → Q b c') →
  wpt (processCoeffMessage cs) Q c.
Proof.
  intros [Hcs Hok] Hp Hat Hk Hf [Hav Hrvs] Hin HQ. unfold processCoeffMessage.
  wp_step. apply wp_modify. cbv zeta. wp_step. apply wp_log_stdout. wp_step. apply wp_modify. wp_step. apply wp_modify.
  wp_step. apply wp_fill_real_values; [done|done|exact Hok|done|by apply Forall_resize_vec|].
  intros rv Hrv Hall. simpl in Hrv.
  set (c1 := c <| coeffs := cs |> <| N_ := _ |> <| logs ::= _ |> <| current_approximation ::= _ |> <| real_values ::= _ |>
             <| current_approximation ::= _ |> <| real_values := rv |>).
  assert (client_inv c1 ∧ puts_without_answer c1 = puts_without_answer c ∧ first_message c1 = false) as (Hi1 & Hp1 & Hf1).
  { split; [|by split]. split; simpl.
    - lia.
    - by rewrite Hat.
    - by rewrite Hf.
    - intros _. unfold max_point. simpl. rewrite Hk. split; [done|]. split; [done|]. split; [unfold constants.max_k; lia|].
      rewrite !length_insert, Hrv, length_resize_vec by done. unfold resize_vec. by rewrite length_resize.
    - exact Hok.
    - split; [|exact Hall]. by repeat (apply Forall_insert; [|apply dzero_dabs]); apply Forall_resize_vec.
    - by rewrite Hat.
    - exact Hin. }
  assert (processed c c1) as Hpr by (split; [done|done|by left|done]).
  wp_step. eapply (wp_decrement_processed c); [exact Hpr|done|done|]. intros b c' Hc'. apply wp_ret. by apply HQ.
Qed.

Lemma wp_processStateMessage msg values c (Q : bool → Client → Prop) :
  client_inv c → first_message c = false → values ≠ [] ∧ Z.of_nat (length values) ≤ constants.max_k + 1 →
  (∀ b c', processed c c' → Q b c') →
  wpt (processStateMessage msg values) Q c.
Proof.
  intros Hc Hf [Hv Hmax] HQ. unfold processStateMessage. wp_step. apply wp_substr_from. intros t. wp_step. apply wp_log_stdout.
  wp_step. wp_step. set (c1 := c <| logs ::= _ |>).
  assert (processed c c1) as Hpr by (apply processed_quiet; [done|done|apply Hc]).
  change (is_auto_strategy c1) with (is_auto_strategy c). change (K_set c1) with (K_set c).
  destruct (is_auto_strategy c && negb (K_set c)).
  - cbv zeta. assert (0 < Z.of_nat (length values)) as Hlen by (destruct values; [done|simpl; lia]).
    pose proof (ci_ready c Hc Hf) as (Hco & Hn & _). pose proof (ci_values c Hc) as [Hav Hrvs].
    wp_step. apply wp_modify. wp_step. apply wp_modify. wp_step.
    apply wp_fill_real_values; [done|unfold constants.max_k in Hmax; lia|apply Hc|done|by apply Forall_resize_vec|].
    intros rv Hrv Hall. simpl in Hrv.
    set (c2 := c1 <| K_ := _ |> <| K_set := true |> <| current_approximation ::= _ |> <| real_values ::= _ |>
               <| real_values := rv |>).
    assert (processed c c2) as Hpr2.
    { destruct Hc as [H1 H2 H3 H4 H5 H6 H7 H8]. split; [split; simpl; try done|done|by left|done].
      - by rewrite Hf.
      - intros _. unfold max_point. simpl.
        split; [done|]. split; [done|]. split; [lia|]. rewrite Hrv, !length_resize_vec by lia. lia.
      - split; [|exact Hall]. by apply Forall_resize_vec. }
    wp_step. eapply (wp_decrement_processed c); [exact Hpr2|done|done|]. intros b c' Hc'. apply wp_ret. by apply HQ.
  - destruct (is_auto_strategy c); [|apply wp_ret; by apply HQ].
    by eapply (wp_decrement_processed c); [exact Hpr|done|done|].
Qed.

(** The messages that count as an answer to a put (or, the first one, allow the first put). *)
Definition is_answer (first : bool) (m : Message) : bool :=
  match body m with
  | CoeffMessage _ => first
  | BadPutMessage _ _ | StateMessage _ => negb first
  | _ => false
  end.
Definition counted (m : Message) (c c' : Client) : Prop :=
  is_answer false m = true ∨ puts_without_answer c' = puts_without_answer c.

Lemma wp_process_message msg c (Q : bool → Client → Prop) :
  client_inv c → first_message c = false → message_ok msg → (∀ b c', processed c c' → counted msg c c' → Q b c') →
  wpt (process_message msg) Q c.
Proof.
  intros Hc Hf Hm HQ. unfold process_message. unfold message_ok in Hm. unfold counted, is_answer in HQ.
  assert (∀ c1, quiet c c1 → incoming_messages c1 = incoming_messages c → processed c c1) as Hquiet.
  { intros c1 Hq Hin. apply (processed_then_quiet c c); [by apply processed_refl|done|done]. }
  destruct (body msg) as [p|cs|p v|p v|l|p v|ids sc].
  - apply wp_ret, HQ; [by apply processed_refl|by right].
  - apply wp_ret, HQ; [by apply processed_refl|by right].
  - apply wp_ret, HQ; [by apply processed_refl|by right].
  - unfold processBadPutMessage. wp_step. apply wp_log_stdout. wp_step. wp_step. set (c1 := c <| logs ::= _ |>).
    assert (processed c c1) as Hpr by (by apply Hquiet).
    wp_step. change (is_auto_strategy c1) with (is_auto_strategy c). destruct (is_auto_strategy c).
    + wp_step. eapply (wp_decrement_processed c); [exact Hpr|done|done|]. intros b c' Hc'.
      apply wp_ret, wp_ret. apply HQ; [done|by left].
    + apply wp_ret, wp_ret. apply HQ; [done|by left].
  - apply wp_processStateMessage; [done..|]. intros b c' Hc'. apply HQ; [done|by left].
  - unfold processPenaltyMessage. wp_step. apply wp_log_stdout. apply wp_ret, HQ; [by apply Hquiet|by right].
  - unfold processScoringMessage. wp_step. wp_step. apply wp_substr_from. intros t. wp_step. apply wp_log_stdout.
    wp_step. apply wp_modify. apply wp_ret. wp_step. apply wp_modify. apply wp_ret, HQ; [by apply Hquiet|by right].
Qed.

(** The answer that [message_processor] takes from the queue, 0 or 1. *)
Definition answers (c : Client) : Z :=
  if game_over c then 0
  else match incoming_messages c with m :: _ => if is_answer (first_message c) m then 1 else 0 | [] => 0 end.

Lemma message_processor_run c :
  client_inv c →
  wpt message_processor (λ _ c', processed c c' ∧ puts_without_answer c - puts_without_answer c' ≤ answers c) c.
Proof.
  intros Hc. unfold message_processor, answers. wp_step. wp_step.
  destruct (game_over c).
  { destruct (scoring_received c); [apply wp_ret; split; [by apply processed_refl|lia]|by apply wp_fail]. }
  unfold try_pop. pose proof (ci_incoming c Hc) as Hin. destruct (incoming_messages c) as [|msg rest].
  { apply wp_ret. split; [by apply processed_refl|lia]. }
  apply Forall_cons in Hin as [Hm Hrest]. wp_step. apply wp_modify.
  destruct (first_message c) eqn:Hf.
  - destruct (ci_first c Hc Hf) as (Hp & Hat & Hk). wp_step. apply wp_modify. unfold message_ok in Hm.
    unfold is_answer. destruct (body msg) as [|cs| | | | |]; try (by apply wp_fail).
    pose proof (ci_values c Hc) as Hvals.
    wp_step. apply wp_processCoeffMessage; try done. intros b c' Hc'. wp_step. apply wp_modify.
    destruct b; [|by apply wp_fail]. apply wp_ret. destruct Hc' as [Hi [Ha Hat'] Hpp Hb].
    split; [apply (processed_then_quiet _ c'); [by split|done|done]|].
    pose proof (ci_puts _ Hi). simpl in *. lia.
  - wp_step. set (c1 := c <| incoming_messages := rest |>).
    assert (client_inv c1) as Hc1 by (by apply (client_inv_control c)).
    apply wp_process_message; [done|done|done|]. intros b c' Hc' Hcount. wp_step. apply wp_modify.
    assert (∀ c'', quiet c' c'' → incoming_messages c'' = incoming_messages c' →
      processed c c'' ∧ puts_without_answer c - puts_without_answer c'' ≤ if is_answer false msg then 1 else 0) as Hfin.
    { intros c'' Hq Hi. destruct Hc' as [Hi' (Ha' & Hat' & Hid') Hpp Hb]. split.
      - apply (processed_then_quiet _ c'); [by split|done|done].
      - pose proof (ci_puts _ Hi'). pose proof (ci_puts _ Hc). destruct Hq as (Hq & _).
        injection Hq as _ -> _ _ _ _ _ _ _ _ _. destruct Hcount as [->|Heq]; [lia|].
        change (puts_without_answer c1) with (puts_without_answer c) in Heq. destruct (is_answer false msg); lia. }
    destruct b; [by apply wp_ret, Hfin|]. apply wp_log_stderr. by apply Hfin.
Qed.

(** ** The other threads *)
Lemma wp_receive_lines fuel c (Q : unit → Client → Prop) :
  (length (recv_buffer c) ≤ fuel)%nat → Forall message_ok (incoming_messages c) →
  (∀ c', quiet c c' → game_over c' = game_over c → Forall message_ok (incoming_messages c') → Q tt c') →
  wpt (receive_lines fuel) Q c.
Proof.
  revert c. induction fuel as [|fuel IH]; intros c Hlen Hin HQ; cbn [receive_lines]; wp_step; wp_step;
    destruct (find_str crlf (recv_buffer c)) as [pos|] eqn:Hfind; try (by apply wp_ret, HQ).
  { apply find_str_length in Hfind. simpl in Hfind. lia. }
  wp_step. apply wp_substr. intros line. wp_step. apply wp_modify. set (c1 := c <| recv_buffer ::= _ |>).
  apply find_str_length in Hfind. change (length crlf) with 2%nat in *.
  assert (∀ c2, quiet c c2 → game_over c2 = game_over c → recv_buffer c2 = drop (pos + 2) (recv_buffer c) →
    Forall message_ok (incoming_messages c2) →
    wpt (_ ← modify (λ c, c <| first_line := false |>); receive_lines fuel) Q c2) as Hrest.
  { intros c2 Hq Hg Hb Hin2. wp_step. apply wp_modify. apply IH; [simpl; rewrite Hb, length_drop; lia|done|].
    intros c' Hq' Hg' Hin'. apply HQ; [|rewrite Hg'; exact Hg|done]. eapply client_quiet_trans; [exact Hq|exact Hq']. }
  wp_step. destruct (createMessage line) as [msg|] eqn:Hmsg.
  - apply wp_modify, Hrest; try done. simpl. apply Forall_app. split; [done|]. apply Forall_singleton.
    by eapply createMessage_message_ok.
  - wp_step. apply wp_substr. intros text. cbv zeta. destruct (first_line c).
    + unfold fatal_format. wp_step; by apply wp_fail.
    + apply wp_log_stderr. by apply Hrest.
Qed.

Lemma network_receiver_run r c :
  client_inv c →
  wpt (network_receiver r) (λ _ c', client_inv c' ∧ quiet c c' ∧ (game_over c = true → game_over c' = true)) c.
Proof.
  intros Hc. unfold network_receiver. wp_step. wp_step. destruct (game_over c) eqn:Hg; [by apply wp_ret|].
  destruct r as [data| | |]; [|apply wp_modify|by apply wp_ret|by apply wp_fail].
  2: { split; [|done]. apply (client_inv_control c); [done|apply Hc|done]. }
  - wp_step. apply wp_modify. wp_step. wp_step. apply wp_receive_lines; [done|apply Hc|].
    intros c' Hq Hg' Hin. assert (quiet c c') as Hq' by (eapply client_quiet_trans; [|exact Hq]; done).
    split; [|done]. destruct Hq'. by eapply client_inv_control.
Qed.

(** What a step of [network_sender] does to the bytes: none is lost or reordered, unless the
    game is over and the thread gives up the message it is sending. *)
Record sender_step (c c' : Client) : Prop := {
  sd_said : game_over c = false → said c' = said c;
  sd_prefix : game_over c = true → written c' ++ sending c' `prefix_of` written c ++ sending c;
  sd_written : written c `prefix_of` written c' }.

Lemma network_sender_run n again c :
  client_inv c →
  wpt (network_sender n again)
    (λ _ c', client_inv c' ∧ control c' = control c ∧ game_over c' = game_over c ∧ sender_step c c') c.
Proof.
  intros Hc. unfold network_sender. wp_step. wp_step. destruct (sending c) as [|b bytes] eqn:Hs.
  - destruct (game_over c) eqn:Hg; [by apply wp_ret|]. unfold try_pop.
    destruct (outgoing_messages c) as [|m rest] eqn:Ho; [by apply wp_ret|].
    wp_step. apply wp_from_opt; [|done]. intros msg ->. apply wp_modify.
    split; [by apply (client_inv_control c); [|apply Hc|]|]. split; [done|]. split; [done|].
    split; [|by rewrite Hg|done]. intros _. unfold said, outgoing. simpl. by rewrite Ho, Hs.
  - wp_step; [by apply wp_fail|].
    wp_step; [destruct (again && game_over c) eqn:Hg; [|by apply wp_fail]|]; apply wp_modify.
    + apply andb_true_iff in Hg as [_ Hg].
      split; [by apply (client_inv_control c); [|apply Hc|]|]. split; [done|]. split; [done|].
      split; [by rewrite Hg| |done]. intros _. simpl. rewrite app_nil_r. by apply prefix_app_r.
    + split; [by apply (client_inv_control c); [|apply Hc|]|]. split; [done|]. split; [done|].
      assert (∀ w, (w ++ take (Z.to_nat n) (b :: bytes)) ++ drop (Z.to_nat n) (b :: bytes) = w ++ b :: bytes) as Heq.
      { intros w. by rewrite <-(assoc app), take_drop. }
      split; [| |by apply prefix_app_r]; intros _; unfold said, outgoing; simpl; rewrite Hs; [|by rewrite Heq].
      rewrite !(assoc app). by rewrite Heq.
Qed.

(** ** The strategies *)

(** A step whose only effect on the bytes for the server is to queue puts. *)
Definition is_put (m : option Message) : Prop := ∃ p v, m = PutMessage_createMessage p v.
Record queues (c c' : Client) (ms : list (option Message)) : Prop := {
  qu_puts : Forall is_put ms;
  qu_queue : outgoing_messages c' = outgoing_messages c ++ ms;
  qu_written : written c' = written c;
  qu_sending : sending c' = sending c }.

Lemma queues_nothing c c' :
  outgoing_messages c' = outgoing_messages c → written c' = written c → sending c' = sending c → queues c c' [].
Proof. intros Ho Hw Hs. split; [done| |done|done]. by rewrite Ho, app_nil_r. Qed.
Lemma queues_trans c1 c2 c3 ms ms' : queues c1 c2 ms → queues c2 c3 ms' → queues c1 c3 (ms ++ ms').
Proof.
  intros [P1 Q1 W1 S1] [P2 Q2 W2 S2]. split; [by apply Forall_app| |congruence|congruence].
  by rewrite Q2, Q1, (assoc app).
Qed.
Lemma queues_said c c' ms : queues c c' ms → said c' = said c ++ concat (map raw_of ms).
Proof.
  intros [_ Q W S]. unfold said, outgoing. by rewrite Q, W, S, map_app, concat_app, !(assoc app).
Qed.

(** A put that is counted and not yet queued, and the puts that this step queues. *)
Definition pending (c : Client) : Z := match auto_at c with Counted | Chosen _ _ => 1 | _ => 0 end.
Definition queued_now (c : Client) : list (option Message) :=
  match auto_at c with Chosen point value => [PutMessage_createMessage point value] | _ => [] end.

Record strategy_step (c c' : Client) : Prop := {
  ss_inv : client_inv c';
  ss_auto : is_auto_strategy c' = is_auto_strategy c ∧ player_id c' = player_id c;
  ss_over : game_over c' = game_over c;
  ss_puts : puts_without_answer c' = puts_without_answer c + (pending c' + Z.of_nat (length (queued_now c)) - pending c);
  ss_queues : queues c c' (queued_now c) }.

Lemma not_first c : client_inv c → auto_at c ≠ Waiting → first_message c = false.
Proof. intros Hc Hat. destruct (first_message c) eqn:Hf; [|done]. by destruct (ci_first c Hc Hf) as (_ & ? & _). Qed.

Lemma max_element_bound l i best_i best : (best_i < i)%nat → (max_element l i best_i best < i + length l)%nat.
Proof.
  revert i best_i best. induction l as [|x l IH]; intros i best_i best Hi; cbn [max_element length]; [lia|].
  destruct (dlt best x); [specialize (IH (S i) i x)|specialize (IH (S i) best_i best)]; lia.
Qed.

(** All indices of [get_best_put] are in range, and so is what it chooses. *)
Record chosen (c : Client) (i : Z) (v : double) (l : list double) : Prop := {
  ch_point : 0 ≤ i ≤ max_point c;
  ch_value : dabs_le 5 0 v;
  ch_length : length l = length (current_approximation c);
  ch_values : Forall approx_ok l }.

Lemma wp_get_best_put (Q : Z * double → Client → Prop) c :
  client_inv c → first_message c = false →
  (∀ i v l, chosen c i v l → Q (i, v) (c <| current_approximation := l |>)) →
  wp no_failure get_best_put Q c.
Proof.
  intros Hc Hf HQ. destruct (ci_ready c Hc Hf) as (_ & _ & Hmax & Ha & Hr). destruct (ci_values c Hc) as [Hav Hrvs].
  unfold get_best_put. wp_step. wp_step. cbv zeta. fold (max_point c).
  rewrite (proj2 (Z.ltb_ge _ _)), (proj2 (Nat.ltb_ge _ _)) by lia. wp_step. apply wp_from_opt; [|done]. intros ap [= <-].
  rewrite take_ge by lia. set (sq := zip_with _ _ _).
  assert (length sq = length (current_approximation c)) as Hsq by (unfold sq; rewrite length_zip_with; lia).
  destruct sq as [|x l]; [simpl in Hsq; lia|]. cbn [head tail]. wp_step. apply wp_from_opt; [|done]. intros first [= <-].
  pose proof (max_element_bound l 1 0 x ltac:(lia)) as Hb. simpl in Hsq. set (idx := max_element l 1 0 x) in *.
  destruct (lookup_lt_is_Some_2 (real_values c) idx) as [r Hrv]; [lia|].
  destruct (lookup_lt_is_Some_2 (current_approximation c) idx) as [a Hav']; [lia|].
  rewrite Hrv, Hav'. do 2 (wp_step; apply wp_from_opt; [|done]; intros ? [= <-]).
  destruct (step_toward r a) as [Hd Hstep]; [by eapply Forall_lookup_1|by eapply Forall_lookup_1|].
  wp_step. apply wp_modify. apply wp_ret. apply (HQ _ _ (<[_ := _]> (current_approximation c))). split.
  - lia.
  - by apply cut_spec.
  - by rewrite length_insert.
  - by apply Forall_insert.
Qed.

(** The four steps of [auto_strategy]. *)
Section auto_steps.
Context (c : Client) (Hc : client_inv c).

Lemma auto_idle : auto_at c = Waiting → strategy_step c c.
Proof.
  intros Hat. split; try done; unfold queued_now; rewrite Hat; [simpl; lia|by apply queues_nothing].
Qed.
Lemma auto_waiting :
  auto_at c = Waiting → puts_without_answer c = 0 → strategy_step c (c <| auto_at := MayPut |>).
Proof.
  intros Hat Hp. destruct Hc as [H1 H2 H3 H4 H5 H6 H7 H8]. split; try done; unfold queued_now; rewrite ?Hat; [|..|by apply queues_nothing].
  - split; simpl; [lia|done| |exact H4|exact H5|exact H6|done|exact H8]. intros Hf. destruct (H3 Hf). lia.
  - unfold pending. simpl. rewrite Hat. lia.
Qed.
Lemma auto_may_put :
  auto_at c = MayPut → strategy_step c (c <| puts_without_answer ::= Z.succ |> <| auto_at := Counted |>).
Proof.
  intros Hat. pose proof (ci_may c Hc Hat) as Hp. pose proof (not_first c Hc ltac:(congruence)) as Hf.
  destruct Hc as [H1 H2 H3 H4 H5 H6 H7 H8]. split; try done; unfold queued_now; rewrite ?Hat; [|..|by apply queues_nothing].
  - split; simpl; [lia|done|by rewrite Hf|exact H4|exact H5|exact H6|done|exact H8].
  - unfold pending. simpl. rewrite Hat. lia.
Qed.
Lemma auto_counted i v l :
  auto_at c = Counted → chosen c i v l →
  strategy_step c (c <| current_approximation := l |> <| auto_at := Chosen i v |>).
Proof.
  intros Hat [Hi Hv Hl Hav]. pose proof (not_first c Hc ltac:(congruence)) as Hf.
  destruct Hc as [H1 H2 H3 H4 H5 H6 H7 H8]. split; try done; unfold queued_now; rewrite ?Hat; [|..|by apply queues_nothing].
  - split; simpl; [lia|done|by rewrite Hf|by rewrite Hl|exact H5|by destruct H6| |exact H8].
    intros i' v' [= <- <-]. pose proof (ci_ready c Hc Hf). split; [lia|done].
  - unfold pending. simpl. rewrite Hat. lia.
Qed.
Lemma auto_chosen i v log :
  auto_at c = Chosen i v →
  strategy_step c (c <| logs ::= push log |> <| outgoing_messages ::= push (PutMessage_createMessage i v) |>
                     <| auto_at := Waiting |>).
Proof.
  intros Hat. pose proof (not_first c Hc ltac:(congruence)) as Hf.
  destruct Hc as [H1 H2 H3 H4 H5 H6 H7 H8]. split; try done; unfold queued_now; rewrite ?Hat.
  - split; simpl; [lia|done|by rewrite Hf|exact H4|exact H5|exact H6|done|exact H8].
  - unfold pending. simpl. rewrite Hat. lia.
  - split; [|done..]. apply Forall_singleton. by exists i, v.
Qed.
End auto_steps.

Lemma auto_strategy_run c : client_inv c → wp no_failure auto_strategy (λ _ c', strategy_step c c') c.
Proof.
  intros Hc. unfold auto_strategy. wp_step. wp_step. destruct (auto_at c) as [| | |point value] eqn:Hat.
  - destruct (game_over c); [by apply wp_ret, auto_idle|]. wp_step. unfold wait_for_puts. wp_step. wp_step. apply wp_ret.
    destruct (puts_without_answer c =? 0) eqn:Hp; [apply Z.eqb_eq in Hp|by apply wp_ret, auto_idle].
    by apply wp_modify, auto_waiting.
  - wp_step. unfold increment_puts_without_answer. wp_step. wp_step. rewrite (ci_may c Hc Hat).
    change (in_sb 32 (0 + 1)) with true. cbv iota. apply wp_modify. apply wp_modify. by apply auto_may_put.
  - wp_step. apply wp_get_best_put; [done|by apply not_first; [|congruence]|]. intros i v l Hl.
    apply wp_modify. by apply auto_counted.
  - wp_step. unfold send_put_message. wp_step. apply wp_log_stdout. apply wp_modify. apply wp_modify. by apply auto_chosen.
Qed.

(** What the manual strategy does: it queues puts, and touches nothing else but its buffer and the log. *)
Definition manual_step (c c' : Client) : Prop :=
  control c' = control c ∧ game_over c' = game_over c ∧ incoming_messages c' = incoming_messages c ∧ ∃ ms, queues c c' ms.
Lemma manual_step_refl c : manual_step c c.
Proof. repeat split. exists []. by apply queues_nothing. Qed.
Lemma manual_step_trans c1 c2 c3 : manual_step c1 c2 → manual_step c2 c3 → manual_step c1 c3.
Proof.
  intros (H1 & H2 & H3 & ms & H4) (H1' & H2' & H3' & ms' & H4'). split; [congruence|]. split; [congruence|].
  split; [congruence|]. exists (ms ++ ms'). by eapply queues_trans.
Qed.
Lemma manual_step_quiet c c' :
  quiet c c' → game_over c' = game_over c → incoming_messages c' = incoming_messages c → manual_step c c'.
Proof. intros (Hq & Hw & Hs & Ho) Hg Hin. repeat split; try done. exists []. by apply queues_nothing. Qed.

Lemma wp_manual_line line c (Q : unit → Client → Prop) :
  (∀ c', manual_step c c' → stdin_buffer c' = stdin_buffer c → Q tt c') → wp no_failure (manual_line line) Q c.
Proof.
  intros HQ. assert (wp no_failure (log_stderr (lit "invalid input line " ++ line)) Q c) as Hbad.
  { apply wp_log_stderr, HQ; [by apply manual_step_quiet|done]. }
  unfold manual_line. destruct (splitParams line) as [[|s0 [|s1 [|]]]|]; try exact Hbad.
  destruct (parseInteger s0) as [point|]; [|exact Hbad]. destruct (parseDouble s1) as [value|]; [|exact Hbad].
  unfold send_put_message. wp_step. apply wp_log_stdout. apply wp_modify, HQ; [|done].
  repeat split; try done. exists [PutMessage_createMessage point value]. split; [|done..].
  apply Forall_singleton. by exists point, value.
Qed.

Lemma wp_manual_lines fuel c (Q : unit → Client → Prop) :
  (length (stdin_buffer c) ≤ fuel)%nat → (∀ c', manual_step c c' → Q tt c') → wp no_failure (manual_lines fuel) Q c.
Proof.
  revert c. induction fuel as [|fuel IH]; intros c Hlen HQ; cbn [manual_lines]; wp_step; wp_step;
    destruct (find_char lf (stdin_buffer c)) as [pos|] eqn:Hfind; try (apply wp_ret, HQ, manual_step_refl).
  { apply find_str_length in Hfind. simpl in Hfind. lia. }
  apply find_str_length in Hfind. wp_step. apply wp_lift_outcome.
  unfold substr. rewrite (proj2 (Nat.ltb_ge _ _)) by lia. wp_step. apply wp_modify.
  wp_step. apply wp_manual_line. intros c2 Hadd Hbuf. apply IH.
  - rewrite Hbuf. simpl. rewrite length_drop. simpl in Hfind. lia.
  - intros c' Hadd'. apply HQ. eapply manual_step_trans; [|exact Hadd']. eapply manual_step_trans; [|exact Hadd].
    by apply manual_step_quiet.
Qed.

(** The manual strategy ends the program when [poll] fails, and only then. *)
Definition stops_program (input : Stdin) (c : Client) : bool :=
  match input with StdinPollFailed => negb (is_auto_strategy c) && negb (game_over c) | _ => false end.
Lemma manual_strategy_run input c :
  is_auto_strategy c = false → stops_program input c = false → wp no_failure (manual_strategy input) (λ _ c', manual_step c c') c.
Proof.
  intros Ha Hin. unfold stops_program in Hin. rewrite Ha in Hin.
  unfold manual_strategy. wp_step. wp_step. wp_step; [apply wp_ret, manual_step_refl|]. destruct input as [data| | |]; [| | |done].
  - wp_step. apply wp_modify. wp_step. wp_step. apply wp_manual_lines; [done|]. intros c' Hadd.
    eapply manual_step_trans; [|exact Hadd]. by apply manual_step_quiet.
  - apply wp_ret, manual_step_refl.
  - apply wp_log_stderr. by apply manual_step_quiet.
Qed.
Lemma stopping_strategy input c : stops_program input c = true → manual_strategy input c = Fail Exit.
Proof.
  unfold stops_program, manual_strategy, mbind, M_bind, get_state. destruct input; try done.
  by destruct (is_auto_strategy c), (game_over c).
Qed.

(** ** Every step *)

(** The answer that is processed in this step, and the puts that are queued. *)
Definition answer_processed (e : Event) (c : Client) : Z := match e with Processor => answers c | _ => 0 end.
Definition puts_queued (e : Event) (c c' : Client) : Z :=
  match e with Strategy _ => Z.of_nat (length (outgoing_messages c')) - Z.of_nat (length (outgoing_messages c)) | _ => 0 end.
(** The count of puts without an answer, less the one that is counted but not yet queued. *)
Definition balance (c : Client) : Z := puts_without_answer c - pending c.

(** What a step says: it queues puts, or it is one of [network_sender]. *)
Definition says (e : Event) (c c' : Client) : Prop :=
  (∃ ms, queues c c' ms ∧ Z.of_nat (length ms) = puts_queued e c c') ∨
  (game_over c' = game_over c ∧ sender_step c c' ∧ puts_queued e c c' = 0).

Lemma says_nothing e c c' :
  outgoing_messages c' = outgoing_messages c → written c' = written c → sending c' = sending c → says e c c'.
Proof.
  intros Ho Hw Hs. left. exists []. split; [by apply queues_nothing|]. unfold puts_queued. rewrite Ho. destruct e; simpl; lia.
Qed.
Lemma says_puts input c c' ms : queues c c' ms → says (Strategy input) c c'.
Proof.
  intros Hq. left. exists ms. split; [done|]. unfold puts_queued. rewrite (qu_queue _ _ _ Hq), length_app. lia.
Qed.

Record step_of (e : Event) (c c' : Client) : Prop := {
  so_inv : client_inv c';
  so_auto : is_auto_strategy c' = is_auto_strategy c ∧ player_id c' = player_id c;
  so_over : game_over c = true → game_over c' = true;
  so_balance : is_auto_strategy c = true → balance c + puts_queued e c c' ≤ balance c' + answer_processed e c;
  so_says : says e c c' }.

Lemma answers_range c : 0 ≤ answers c ≤ 1.
Proof. unfold answers. destruct (game_over c), (incoming_messages c) as [|m ?]; try destruct (is_answer _ m); lia. Qed.

Lemma step_of_control e c c' :
  client_inv c' → control c' = control c → (game_over c = true → game_over c' = true) →
  puts_queued e c c' = 0 → says e c c' → step_of e c c'.
Proof.
  intros Hi Hctl Hg Hq Hs. injection Hctl as Hau Hp Hat _ _ _ _ _ _ _ Hid. split; try done.
  intros _. unfold balance, pending. rewrite Hp, Hat, Hq. unfold answer_processed.
  pose proof (answers_range c). destruct e; lia.
Qed.
Lemma step_of_quiet e c c' :
  client_inv c' → quiet c c' → (game_over c = true → game_over c' = true) → step_of e c c'.
Proof.
  intros Hi (Hctl & Hw & Hs & Ho) Hg. apply step_of_control; try done.
  - unfold puts_queued. rewrite Ho. destruct e; lia.
  - by apply says_nothing.
Qed.

Lemma message_processor_over c :
  game_over c = true → wpt message_processor (λ _ c', game_over c' = true) c.
Proof.
  intros Hg. unfold message_processor. wp_step. wp_step. rewrite Hg.
  destruct (scoring_received c); [by apply wp_ret|by apply wp_fail].
Qed.

Lemma strategy_event_step input c :
  client_inv c → stops_program input c = false → wp no_failure (run_event (Strategy input)) (λ _ c', step_of (Strategy input) c c') c.
Proof.
  intros Hc Hin. cbn [run_event]. wp_step. wp_step. destruct (is_auto_strategy c) eqn:Hau.
  - eapply wp_mono; [|by apply auto_strategy_run]. intros [] c' [Hi Ha Hg Hp Hs].
    split; [done|done|by rewrite Hg| |by eapply says_puts]. intros _. unfold balance. cbn [puts_queued answer_processed].
    rewrite (qu_queue _ _ _ Hs), length_app. lia.
  - eapply wp_mono; [|by apply manual_strategy_run]. intros [] c' (Hctl & Hg & Hinc & Hs).
    assert (client_inv c') as Hi by (apply (client_inv_control c); [done|rewrite Hinc; apply Hc|done]).
    destruct Hs as [ms Hs]. split; [done| |by rewrite Hg|by rewrite Hau|by eapply says_puts]. by injection Hctl.
Qed.

Lemma run_event_step e c : client_inv c → wpt (run_event e) (λ _ c', step_of e c c') c.
Proof.
  intros Hc. destruct e as [|r| |n again| |input]; cbn [run_event].
  - assert (wpt message_processor (λ _ c', game_over c = true → game_over c' = true) c) as Hover.
    { destruct (game_over c) eqn:Hg; [|unfold wp; destruct (message_processor c) as [[]|f] eqn:Hm; [done|]].
      - eapply wp_mono; [|by apply message_processor_over]. done.
      - pose proof (message_processor_run c Hc) as Hr. unfold wp in Hr. by rewrite Hm in Hr. }
    eapply wp_mono; [|apply wp_and; [by apply message_processor_run|exact Hover]].
    intros [] c' [[[Hi (Ha & Hat & Hid) Hp (Hw & Hs & Ho)] Hans] Hg]. split; try done.
    + intros _. unfold balance, pending. rewrite Hat. simpl. lia.
    + by apply says_nothing.
  - eapply wp_mono; [|by apply network_receiver_run]. intros [] c' (Hi & Hq & Hg). by apply step_of_quiet.
  - wp_step. wp_step. destruct (game_over c) eqn:Hg; [|by apply wp_ret, step_of_quiet].
    unfold network_receiver_end. wp_step. wp_step. wp_step; [by apply wp_ret, step_of_quiet|]. apply wp_log_stderr.
    apply step_of_quiet; try done. by apply (client_inv_control c); [|apply Hc|].
  - eapply wp_mono; [|by apply network_sender_run]. intros [] c' (Hi & Hctl & Hg & Hs).
    apply step_of_control; try done; [by rewrite Hg|]. by right.
  - unfold log_printer. wp_step. wp_step. destruct (try_pop (logs c)) as [[log rest]|]; [|by apply wp_ret, step_of_quiet].
    apply wp_modify, step_of_quiet; try done. by apply (client_inv_control c); [|apply Hc|].
  - destruct (stops_program input c) eqn:Hin.
    + wp_step. wp_step. assert (is_auto_strategy c = false) as ->
        by (unfold stops_program in Hin; by destruct input, (is_auto_strategy c)).
      unfold wp. by rewrite stopping_strategy.
    + apply (wp_weaken_failures no_failure); [done|]. by apply strategy_event_step.
Qed.

Lemma run_event_ret e c c' : client_inv c → run_event e c = Ret (tt, c') → step_of e c c'.
Proof. intros Hc Hr. pose proof (run_event_step e c Hc) as Hs. unfold wp in Hs. by rewrite Hr in Hs. Qed.

Lemma new_client_inv player auto addr p garbage : client_inv (new_client player auto addr p garbage).
Proof.
  split; simpl; try done; try lia. split; [constructor|simpl; lia].
Qed.

Lemma hello_step c : client_inv c → ∃ c', send_hello_message c = Ret (tt, c') ∧ client_inv c' ∧ control c' = control c ∧
  game_over c' = game_over c ∧ written c' = written c ∧ sending c' = sending c ∧
  outgoing_messages c' = outgoing_messages c ++ [HelloMessage_createMessage (player_id c)].
Proof.
  intros Hc. eexists. split; [reflexivity|]. split; [by apply (client_inv_control c); [|apply Hc|]|]. done.
Qed.

(** ** Sessions *)

(** The bytes for the server when [all] is what has been queued: none is lost as long as the
    game is not over, and the written ones are always the first ones. *)
Definition bytes_of (all : list (option Message)) : str := concat (map raw_of all).
Record streams (all : list (option Message)) (c : Client) : Prop := {
  st_prefix : written c ++ sending c `prefix_of` bytes_of all;
  st_said : game_over c = false → said c = bytes_of all }.

(** The messages among them that are not null, each a line that the server reads back. *)
Definition messages_of (all : list (option Message)) : list Message := omap (λ m, m) all.
Lemma bytes_of_messages all : bytes_of all = concat (map raw_message (messages_of all)).
Proof. induction all as [|[m|] all IH]; [done| |done]. unfold bytes_of in *. simpl. by rewrite IH. Qed.
Lemma puts_made puts : Forall is_put puts → Forall made (messages_of puts).
Proof.
  induction 1 as [|m puts (p & v & ->) _ IH]; [constructor|]. cbn [messages_of omap list_omap].
  destruct (PutMessage_createMessage p v) as [m|] eqn:Hm; [|exact IH]. constructor; [|exact IH].
  by eapply createMessageWithCRLF_made.
Qed.
Lemma said_made puts1 player puts2 :
  Forall is_put puts1 → Forall is_put puts2 →
  Forall made (messages_of (puts1 ++ [HelloMessage_createMessage player] ++ puts2)).
Proof.
  intros H1 H2. unfold messages_of. rewrite !omap_app. apply Forall_app. split; [by apply puts_made|].
  apply Forall_app. split; [|by apply puts_made]. cbn [omap list_omap].
  destruct (HelloMessage_createMessage player) as [m|] eqn:Hm; [|constructor]. constructor; [|constructor].
  by eapply createMessageWithCRLF_made.
Qed.

Lemma bytes_of_app l k : bytes_of (l ++ k) = bytes_of l ++ bytes_of k.
Proof. unfold bytes_of. by rewrite map_app, concat_app. Qed.

Lemma step_streams e c c' all :
  step_of e c c' → streams all c →
  ∃ ms, Forall is_put ms ∧ Z.of_nat (length ms) = puts_queued e c c' ∧ (ms = [] ∨ queues c c' ms) ∧ streams (all ++ ms) c'.
Proof.
  intros [_ _ Hover _ Hsays] [Hpre Hsaid].
  assert (game_over c' = false → game_over c = false) as Hback.
  { intros Hg. destruct (game_over c); [|done]. by rewrite Hover in Hg. }
  destruct Hsays as [(ms & Hq & Hlen)|(Hg & [Hs Hp _] & Hlen)].
  - exists ms. split; [apply Hq|]. split; [done|]. split; [by right|]. split.
    + rewrite (qu_written _ _ _ Hq), (qu_sending _ _ _ Hq), bytes_of_app. by apply prefix_app_r.
    + intros Hg. by rewrite (queues_said _ _ _ Hq), Hsaid, bytes_of_app by auto.
  - exists []. rewrite app_nil_r. split; [done|]. split; [by rewrite Hlen|]. split; [by left|]. destruct (game_over c) eqn:Hov.
    + split; [|by rewrite Hg]. etrans; [by apply Hp|done].
    + rewrite <-Hs in Hsaid by done. split; [|by auto]. rewrite <-(Hsaid eq_refl). unfold said, outgoing.
      exists (concat (map raw_of (outgoing_messages c'))). by rewrite (assoc app).
Qed.

Lemma step_written e c c' : step_of e c c' → written c `prefix_of` written c'.
Proof. intros [_ _ _ _ [(ms & Hq & _)|(_ & Hs & _)]]; [by rewrite (qu_written _ _ _ Hq)|by apply Hs]. Qed.

Lemma hello_streams c c' all :
  client_inv c → send_hello_message c = Ret (tt, c') → streams all c →
  streams (all ++ [HelloMessage_createMessage (player_id c)]) c'.
Proof.
  intros _ [= <-] [Hpre Hsaid]. split; rewrite bytes_of_app; [by apply prefix_app_r|].
  intros Hg. simpl in Hg. rewrite <-(Hsaid Hg). unfold said, outgoing, push. simpl.
  by rewrite map_app, concat_app, !(assoc app).
Qed.

(** A property of the states that every step and HELLO preserve. *)
Lemma run_events_cons e es c c' :
  run_events (e :: es) c = Ret (tt, c') → ∃ c1, run_event e c = Ret (tt, c1) ∧ run_events es c1 = Ret (tt, c').
Proof. simpl. unfold mbind, M_bind. destruct (run_event e c) as [[[] c1]|]; [|done]. eauto. Qed.

Lemma run_events_inv es c c' :
  client_inv c → run_events es c = Ret (tt, c') →
  client_inv c' ∧ (is_auto_strategy c' = is_auto_strategy c ∧ player_id c' = player_id c) ∧
  ∀ all, streams all c → ∃ ms, Forall is_put ms ∧ streams (all ++ ms) c'.
Proof.
  revert c. induction es as [|e es IH]; intros c Hc Hr.
  { injection Hr as <-. split; [done|]. split; [done|]. intros all Hs. exists []. by rewrite app_nil_r. }
  apply run_events_cons in Hr as (c1 & He & Hr). apply run_event_ret in He as Hstep; [|done].
  destruct (IH c1) as (Hi & Hid & Hs); [apply Hstep|done|].
  destruct (so_auto _ _ _ Hstep), Hid. split; [done|]. split; [split; congruence|]. intros all Hall.
  destruct (step_streams _ _ _ _ Hstep Hall) as (ms & Hms & _ & _ & Hs1). destruct (Hs _ Hs1) as (ms' & Hms' & Hs').
  exists (ms ++ ms'). split; [by apply Forall_app|]. by rewrite (assoc app).
Qed.

Lemma session_inv before after c c' :
  client_inv c → session before after c = Ret (tt, c') →
  client_inv c' ∧ is_auto_strategy c' = is_auto_strategy c ∧ ∀ all, streams all c → ∃ puts1 puts2, Forall is_put puts1 ∧ Forall is_put puts2 ∧
    streams (all ++ puts1 ++ [HelloMessage_createMessage (player_id c)] ++ puts2) c'.
Proof.
  intros Hc. unfold session, start, mbind, M_bind. destruct (run_events before c) as [[[] c1]|] eqn:H1; [|done].
  destruct (run_events_inv _ _ _ Hc H1) as (Hi1 & [Ha1 Hid1] & Hs1).
  destruct (hello_step c1 Hi1) as (c2 & H2 & Hi2 & Hctl & _). rewrite H2. intros H3.
  destruct (run_events_inv _ _ _ Hi2 H3) as (Hi3 & [Ha3 _] & Hs3).
  split; [done|]. split; [injection Hctl as Ha2 _ _ _ _ _ _ _ _ _ _; congruence|]. intros all Hall.
  destruct (Hs1 all Hall) as (puts1 & Hp1 & Hall1). pose proof (hello_streams _ _ _ Hi1 H2 Hall1) as Hall2.
  destruct (Hs3 _ Hall2) as (puts2 & Hp2 & Hall3). exists puts1, puts2. split; [done|]. split; [done|].
  rewrite Hid1 in Hall3. by rewrite <-!(assoc app) in Hall3.
Qed.
