(* ===== verification/ClientClaims.v ===== *)
(** * What the client of the-great-approximator does

    The polynomial and the choice of a put, the streams of bytes to and from the server,
    and the discipline of one put at a time over all interleavings of the threads. *)
From Stdlib Require Import Ascii String SpecFloat.
From S2P Require Import Prelude CString Double Constants DoubleOrder MsgParser ServerState ServerLogic Framing Client ClientValues ClientInv.

(** ** [poly_at] and the polynomial of the server *)
(** C27: at an argument whose power [x^(N+1)] fits an [int], the client computes bit for bit the
    value with which the server scores the player; at any larger one the [int] that holds
    the power overflows, which is undefined, although all its values are in range. *)
Theorem poly_at_agrees_with_server (c : Client) (player : PlayerInfo) (x : Z) :
  0 ≤ x < 2 ^ 31 → coefficients player = coeffs c → N_ c = Z.of_nat (length (coeffs c)) - 1 →
  poly_at x c =
    if x ^ (N_ c + 1) <? 2 ^ 31
    then match player_poly_at (N_ c) player x with Ret v => Ret (v, c) | Fail f => Fail f end
    else Fail Undef.
Proof.
  intros Hx Hp Hn. unfold Client.poly_at, player_poly_at, mbind, M_bind, get_state, lift_outcome. rewrite Hp.
  assert (N_ c + 1 = Z.of_nat (length (coeffs c))) as -> by lia. rewrite Nat2Z.id.
  destruct (Z.ltb_spec (x ^ Z.of_nat (length (coeffs c))) (2 ^ 31)) as [Hlt|Hge].
  - rewrite poly_loops_agree by lia. done.
  - by rewrite poly_loop_overflows by lia.
Qed.

Definition example_client : Client :=
  new_client (lit "Ann") true (lit "::1") 7 0 <| coeffs := [double_of_Z 2; double_of_Z 3] |> <| N_ := 1 |>.
Definition example_player : PlayerInfo :=
  {| id := lit "Ann"; ip := lit "::1"; port := 7; messages := []; approximations := [];
     coefficients := [double_of_Z 2; double_of_Z 3]; penalty := dzero; is_known := true; correct_puts := 0;
     can_put := true; delay := 0 |}.
Lemma poly_at_agrees_with_server_witness :
  poly_at 5 example_client = Ret (double_of_Z 17, example_client) ∧ poly_at 46341 example_client = Fail Undef.
Proof.
  split.
  - rewrite (poly_at_agrees_with_server example_client example_player 5); [vm_compute; reflexivity|lia|done|done].
  - rewrite (poly_at_agrees_with_server example_client example_player 46341); [vm_compute; reflexivity|lia|done|done].
Defined.

(** ** The choice of a put *)
(** Scanning the rest of a list keeps an element that none before it exceeds. *)
Lemma max_element_spec pre l best_i best :
  (pre ++ l) !! best_i = Some best → (∀ j y, pre !! j = Some y → dlt best y = false) →
  ∃ m, (pre ++ l) !! max_element l (length pre) best_i best = Some m ∧
    ∀ j y, (pre ++ l) !! j = Some y → dlt m y = false.
Proof.
  revert pre best_i best. induction l as [|x l IH]; intros pre best_i best Hbest Hpre; cbn [max_element].
  { exists best. split; [done|]. by rewrite app_nil_r. }
  assert (pre ++ x :: l = (pre ++ [x]) ++ l) as Happ by (by rewrite <-app_assoc). rewrite Happ in *.
  replace (S (length pre)) with (length (pre ++ [x])) by (rewrite length_app; simpl; lia).
  destruct (dlt best x) eqn:Hlt.
  - apply IH.
    + rewrite <-Happ. by apply list_lookup_middle.
    + intros j y [Hj|[_ [_ <-]%list_lookup_singleton_Some]]%lookup_app_Some; [|apply dlt_irrefl].
      destruct (dlt x y) eqn:Hxy; [|done]. rewrite <-(Hpre j y Hj). symmetry. by eapply dlt_trans.
  - apply IH; [done|].
    intros j y [Hj|[_ [_ <-]%list_lookup_singleton_Some]]%lookup_app_Some; [by eapply Hpre|done].
Qed.

Definition square (a b : double) : double := dmul (dsub a b) (dsub a b).

Lemma clamp_range v : dlt (clamp v constants.min_put_value constants.max_put_value) constants.min_put_value = false ∧
  dlt constants.max_put_value (clamp v constants.min_put_value constants.max_put_value) = false.
Proof.
  unfold clamp. destruct (dlt v constants.min_put_value) eqn:H1; [done|].
  destruct (dlt constants.max_put_value v) eqn:H2; done.
Qed.

(** C26: the automatic strategy puts where its approximation is worst. When its two vectors
    cover the points 0 to [K], or 0 and 1 as long as [K] is unknown, [get_best_put] returns
    one of these points, none has a greater squared difference, and the value put there is
    the difference cut to [-5, 5]; the client adds it to its approximation of this point
    and changes nothing else. *)
Theorem best_put_correct (c : Client) :
  0 ≤ max_point c → Z.of_nat (length (current_approximation c)) = max_point c + 1 →
  Z.of_nat (length (real_values c)) = max_point c + 1 →
  ∃ (i : nat) v a r, Z.of_nat i ≤ max_point c ∧
    current_approximation c !! i = Some a ∧ real_values c !! i = Some r ∧
    v = clamp (dsub r a) constants.min_put_value constants.max_put_value ∧
    dlt v constants.min_put_value = false ∧ dgt v constants.max_put_value = false ∧
    (∀ j a' r', current_approximation c !! j = Some a' → real_values c !! j = Some r' → dlt (square a r) (square a' r') = false) ∧
    get_best_put c = Ret ((Z.of_nat i, v), c <| current_approximation ::= <[i := dadd a v]> |>).
Proof.
  intros Hmax Ha Hr. unfold get_best_put, mbind, M_bind, get_state. fold (max_point c).
  rewrite (proj2 (Z.ltb_ge _ _)) by lia. rewrite (proj2 (Nat.ltb_ge _ _)) by lia.
  unfold from_opt. rewrite take_ge by lia. fold (square).
  change (λ a b, dmul (dsub a b) (dsub a b)) with square.
  set (sq := zip_with square (current_approximation c) (real_values c)).
  assert (length sq = Z.to_nat (max_point c + 1)) as Hsq by (unfold sq; rewrite length_zip_with; lia).
  destruct sq as [|x l] eqn:Hsqe; [simpl in Hsq; lia|]. cbn [head tail].
  destruct (max_element_spec [x] l 0 x) as (m & Hm & Hall); [done|by intros [|] y [= <-]; apply dlt_irrefl|].
  cbn [length app] in Hm, Hall. set (i := max_element l 1 0 x) in *. rewrite <-Hsqe in Hm, Hall.
  apply lookup_zip_with_Some in Hm as (a & r & -> & Hai & Hri). rewrite Hri, Hai. unfold modify, mret, M_ret.
  exists i, (clamp (dsub r a) constants.min_put_value constants.max_put_value), a, r.
  destruct (clamp_range (dsub r a)) as [Hlo Hhi].
  split; [apply lookup_lt_Some in Hai; lia|]. split; [done|]. split; [done|]. split; [done|]. split; [done|].
  split; [done|]. split; [|done]. intros j a' r' Ha' Hr'. eapply Hall.
  apply lookup_zip_with_Some. by exists a', r'.
Qed.

Definition putting_client : Client :=
  example_client <| current_approximation := [dzero; dzero] |> <| real_values := [double_of_Z 2; double_of_Z 7] |>.
Lemma best_put_correct_witness :
  ∃ (i : nat) v a r, Z.of_nat i ≤ max_point putting_client ∧
    current_approximation putting_client !! i = Some a ∧ real_values putting_client !! i = Some r ∧
    v = clamp (dsub r a) constants.min_put_value constants.max_put_value ∧
    dlt v constants.min_put_value = false ∧ dgt v constants.max_put_value = false ∧
    (∀ j a' r', current_approximation putting_client !! j = Some a' → real_values putting_client !! j = Some r' →
       dlt (square a r) (square a' r') = false) ∧
    get_best_put putting_client = Ret ((Z.of_nat i, v), putting_client <| current_approximation ::= <[i := dadd a v]> |>).
Proof. apply (best_put_correct putting_client); vm_compute; done. Defined.

(** ** Sessions: all interleavings of the threads *)

(** C7: the invariant of the client holds in every state of a session, whatever the server and
    the user send and however the threads interleave; from there no step of a thread runs for
    ever. A step of the automatic strategy always succeeds: the counter does not overflow, and every
    index that the choice of a put uses is in range. A step of the manual strategy ends the program
    exactly when the game is on and [poll] fails on the standard input, and succeeds otherwise. *)
Theorem client_invariant (id_ server_ip : str) (auto : bool) (server_port garbage : Z) (before after : list Event) (c : Client) :
  session before after (new_client id_ auto server_ip server_port garbage) = Ret (tt, c) →
  client_inv c ∧ (∀ e, run_event e c ≠ Fail Diverge) ∧
  ∀ input, if bool_decide (input = StdinPollFailed) && negb auto && negb (game_over c)
           then run_event (Strategy input) c = Fail Exit
           else ∃ c', run_event (Strategy input) c = Ret (tt, c').
Proof.
  intros Hs. apply session_inv in Hs as (Hc & Ha & _); [|apply new_client_inv]. simpl in Ha. split; [done|]. split.
  - intros e He. pose proof (run_event_step e c Hc) as Hw. unfold wp in Hw. by rewrite He in Hw.
  - intros input. replace (_ && _) with (stops_program input c)
      by (unfold stops_program; rewrite Ha; by destruct input, auto, (game_over c)).
    destruct (stops_program input c) eqn:Hin.
    + unfold run_event, mbind, M_bind, get_state. assert (is_auto_strategy c = false) as ->
        by (unfold stops_program in Hin; by destruct input, (is_auto_strategy c)). by apply stopping_strategy.
    + destruct (wp_no_failure_ret _ _ _ (strategy_event_step input c Hc Hin)) as ([] & c' & Hr & _). by exists c'.
Qed.

(** The client of Ann with the events up to its first put, which its socket takes in part. *)
Definition ann (auto : bool) : Client := new_client (lit "Ann") auto (lit "::1") 7 0.
Definition coeff_line : str := lit "COEFF 2 3" ++ crlf.
Definition first_put : list Event :=
  [Sender 0 false; Sender 100 false; Receiver (RecvData coeff_line); Processor; Strategy StdinTimeout; Strategy StdinTimeout;
   Strategy StdinTimeout; Strategy StdinTimeout; Sender 0 false; Sender 5 false].
Definition after_session (before after : list Event) (c : Client) : Client :=
  match session before after c with Ret (_, c') => c' | Fail _ => c end.

Lemma client_invariant_witness :
  let c := after_session [Strategy (StdinData (lit "0 1" ++ [lf]))] [Sender 0 false] (ann false) in
  run_event (Strategy StdinPollFailed) c = Fail Exit ∧
  client_inv c ∧ (∀ e, run_event e c ≠ Fail Diverge) ∧
  ∀ input, if bool_decide (input = StdinPollFailed) && negb false && negb (game_over c)
           then run_event (Strategy input) c = Fail Exit
           else ∃ c', run_event (Strategy input) c = Ret (tt, c').
Proof.
  split; [vm_compute; reflexivity|].
  apply (client_invariant (lit "Ann") (lit "::1") false 7 0 [Strategy (StdinData (lit "0 1" ++ [lf]))] [Sender 0 false]).
  vm_compute. reflexivity.
Defined.

(** C10: what the client writes is always the first bytes of one sequence of whole messages: HELLO,
    and PUTs as the strategy chose them, in the order in which they were queued, whatever [write]
    accepts at a time. As long as the game is not over no byte is lost: the rest of the sequence
    is being sent or queued. The lines that the server cuts out of what has been written, in
    whatever pieces it arrives, all parse, and are the first of these messages. (Only PUTs queued
    before [start_threads_and_send_hello] queues HELLO precede it.) *)
Theorem client_stream (id_ server_ip : str) (auto : bool) (server_port garbage : Z) (before after : list Event) (c : Client) :
  session before after (new_client id_ auto server_ip server_port garbage) = Ret (tt, c) →
  ∃ puts1 puts2, Forall is_put puts1 ∧ Forall is_put puts2 ∧
    let all := puts1 ++ [HelloMessage_createMessage id_] ++ puts2 in
    written c `prefix_of` bytes_of all ∧
    (game_over c = false → written c ++ sending c ++ bytes_of (outgoing_messages c) = bytes_of all) ∧
    ∃ received, read_lines (fst (all_frames (written c))) = Some received ∧ received `prefix_of` messages_of all.
Proof.
  intros Hs. apply session_inv in Hs as (_ & _ & Hs); [|apply new_client_inv].
  destruct (Hs []) as (puts1 & puts2 & Hp1 & Hp2 & [Hpre Hsaid]); [by split|].
  exists puts1, puts2. split; [done|]. split; [done|]. cbv zeta.
  assert (written c `prefix_of` bytes_of (puts1 ++ [HelloMessage_createMessage id_] ++ puts2)) as Hw.
  { etrans; [|exact Hpre]. by apply prefix_app_r. }
  split; [exact Hw|]. split; [exact Hsaid|]. rewrite bytes_of_messages in Hw.
  apply frames_of_prefix; [by apply said_made|exact Hw].
Qed.

Lemma client_stream_witness :
  let c := after_session [Printer] first_put (ann true) in
  game_over c = false ∧ written c = lit "HELLO Ann" ++ crlf ++ lit "PUT 1" ∧
  ∃ puts1 puts2, Forall is_put puts1 ∧ Forall is_put puts2 ∧
    let all := puts1 ++ [HelloMessage_createMessage (lit "Ann")] ++ puts2 in
    written c `prefix_of` bytes_of all ∧
    (game_over c = false → written c ++ sending c ++ bytes_of (outgoing_messages c) = bytes_of all) ∧
    ∃ received, read_lines (fst (all_frames (written c))) = Some received ∧ received `prefix_of` messages_of all.
Proof.
  split; [vm_compute; reflexivity|]. split; [vm_compute; reflexivity|].
  apply (client_stream (lit "Ann") (lit "::1") true 7 0 [Printer] first_put). vm_compute. reflexivity.
Defined.

(** The strategy thread may be faster than [start_threads_and_send_hello]: the first message of
    a manual client can be a PUT, after which the server drops it. *)
Lemma put_before_hello :
  let c := after_session [Strategy (StdinData (lit "0 1" ++ [lf]))] [] (ann false) in
  said c = lit "PUT 0 1.0000000" ++ crlf ++ lit "HELLO Ann" ++ crlf.
Proof. vm_compute. reflexivity. Qed.

(** A SCORING without players, which the parser accepts, ends the client by an exception. *)
Lemma empty_scoring_throws :
  match createMessage (lit "SCORING" ++ crlf) with
  | Some msg => processScoringMessage msg (ann true) = Fail Throw
  | None => False
  end.
Proof. vm_compute. reflexivity. Qed.

(** ** What the receiver hands over *)
Definition bad_message (c : Client) (line : str) : str := lit "bad message from " ++ full_info c ++ lit ": " ++ line.
(** The messages of lines, and the complaints about those that are none. *)
Definition parsed (ls : list str) : list Message := omap (λ l, createMessage (l ++ crlf)) ls.
Definition complaints (c : Client) (ls : list str) : list (str * bool) :=
  omap (λ l, match createMessage (l ++ crlf) with Some _ => None | None => Some (bad_message c l, true) end) ls.
Definition after_lines (ls : list str) (rest : str) (c : Client) : Client :=
  c <| recv_buffer := rest |> <| incoming_messages ::= λ q, q ++ parsed ls |> <| logs ::= λ q, q ++ complaints c ls |>
    <| first_line ::= λ b, b && bool_decide (ls = []) |>.
(** The first line of a connection has to be a message. *)
Definition first_line_bad (c : Client) (ls : list str) : bool :=
  first_line c && match ls with l :: _ => bool_decide (createMessage (l ++ crlf) = None) | [] => false end.

Lemma after_lines_nil c : after_lines [] (recv_buffer c) c = c.
Proof. destruct c. unfold after_lines. simpl. by rewrite !app_nil_r, andb_true_r. Qed.

Lemma after_lines_cons c l ls rest buf :
  after_lines ls rest (match createMessage (l ++ crlf) with
    | Some msg => c <| recv_buffer := buf |> <| incoming_messages ::= push msg |> <| first_line := false |>
    | None => c <| recv_buffer := buf |> <| logs ::= push (bad_message c l, true) |> <| first_line := false |>
    end) = after_lines (l :: ls) rest c.
Proof.
  unfold after_lines, parsed, complaints, bad_message, push. destruct c. cbn [omap list_omap].
  destruct (createMessage (l ++ crlf)); simpl; rewrite <-?(assoc app), ?andb_false_r; reflexivity.
Qed.

Lemma receive_lines_run fuel c :
  (length (recv_buffer c) ≤ fuel)%nat →
  let '(ls, rest) := all_frames (recv_buffer c) in
  receive_lines fuel c =
    if first_line_bad c ls then Fail (if format_without_arguments (bad_message c (hd [] ls)) then Exit else Undef)
    else Ret (tt, after_lines ls rest c).
Proof.
  revert c. induction fuel as [|fuel IH]; intros c Hlen; rewrite all_frames_unfold; cbn [receive_lines];
    unfold mbind, M_bind, get_state; destruct (find_str crlf (recv_buffer c)) as [pos|] eqn:Hfind.
  - apply find_str_length in Hfind. simpl in Hfind. lia.
  - unfold first_line_bad. rewrite andb_false_r. by rewrite after_lines_nil.
  - pose proof (crlf_line _ _ Hfind) as Hline. apply find_str_length in Hfind. change (length crlf) with 2%nat in *.
    destruct (all_frames (drop (pos + 2) (recv_buffer c))) as [ls rest] eqn:Hframes.
    unfold lift_outcome at 1, substr at 1. cbn [Nat.ltb Nat.leb]. change (drop 0 (recv_buffer c)) with (recv_buffer c).
    rewrite Hline. set (l := take pos (recv_buffer c)) in *. unfold modify at 1.
    assert (length l = pos) as Hl by (unfold l; rewrite length_take; lia).
    set (c1 := c <| recv_buffer ::= drop (pos + 2) |>).
    assert (∀ c2, recv_buffer c2 = drop (pos + 2) (recv_buffer c) → first_line c2 = false →
      receive_lines fuel c2 = Ret (tt, after_lines ls rest c2)) as Hrest.
    { intros c2 Hb Hf. specialize (IH c2). rewrite Hb, Hframes in IH.
      rewrite IH by (rewrite length_drop; lia). unfold first_line_bad. by rewrite Hf. }
    pose proof (after_lines_cons c l ls rest (drop (pos + 2) (recv_buffer c))) as Hcons.
    unfold first_line_bad. destruct (createMessage (l ++ crlf)) as [msg|] eqn:Hmsg.
    + rewrite bool_decide_eq_false_2, andb_false_r by done. unfold modify. rewrite Hrest by done. by rewrite <-Hcons.
    + rewrite bool_decide_eq_true_2, andb_true_r by done. unfold lift_outcome, substr. cbn [Nat.ltb Nat.leb].
      rewrite length_app, Hl. change (length crlf) with 2%nat. replace (pos + 2 - 2)%nat with (length l) by lia.
      change (drop 0 (l ++ crlf)) with (l ++ crlf). rewrite take_app_length. fold (bad_message c l). cbn [hd].
      destruct (first_line c) eqn:Hf.
      * unfold fatal_format. by destruct (format_without_arguments _).
      * unfold log_stderr, modify. rewrite Hrest by done. by rewrite <-Hcons.
  - unfold first_line_bad. rewrite andb_false_r. by rewrite after_lines_nil.
Qed.

(** One [recv]: [receive_lines] on the bytes kept and the new ones. *)
Lemma network_receiver_lines (c : Client) (data : str) :
  game_over c = false →
  let '(ls, rest) := all_frames (recv_buffer c ++ data) in
  network_receiver (RecvData data) c =
    if first_line_bad c ls then Fail (if format_without_arguments (bad_message c (hd [] ls)) then Exit else Undef)
    else Ret (tt, after_lines ls rest c).
Proof.
  intros Hg. pose proof (receive_lines_run (length (recv_buffer c ++ data)) (c <| recv_buffer ::= λ b, b ++ data |>) (Nat.le_refl _)) as H.
  change (recv_buffer (c <| recv_buffer ::= λ b, b ++ data |>)) with (recv_buffer c ++ data) in H.
  destruct (all_frames (recv_buffer c ++ data)) as [ls rest].
  unfold network_receiver, mbind, M_bind, get_state, modify. rewrite Hg. exact H.
Qed.

(** C11: what the client receives. With the bytes of one [recv], the receiver hands over to the
    other threads the messages of exactly the lines that are complete by now, in order, and
    complains about every other one; what is left of the last line stays in the buffer, so that
    the pieces in which the bytes arrive do not matter ([all_frames_app]). Only if the first
    line of the connection is no message, the program ends: in [fatal], or undefined when the
    line, which serves as a format, holds a conversion. *)
Theorem receiver_delivers_lines (c : Client) (data : str) :
  game_over c = false →
  let '(ls, rest) := all_frames (recv_buffer c ++ data) in
  network_receiver (RecvData data) c =
    if first_line_bad c ls then Fail (if format_without_arguments (bad_message c (hd [] ls)) then Exit else Undef)
    else Ret (tt, after_lines ls rest c).
Proof. apply network_receiver_lines. Qed.

Lemma receiver_delivers_lines_witness :
  let c := ann true in
  network_receiver (RecvData (coeff_line ++ lit "what?" ++ crlf ++ lit "STA")) c =
    Ret (tt, after_lines [lit "COEFF 2 3"; lit "what?"] (lit "STA") c) ∧
  network_receiver (RecvData (lit "100%" ++ crlf)) c = Fail Undef.
Proof.
  cbv zeta. split.
  - pose proof (receiver_delivers_lines (ann true) (coeff_line ++ lit "what?" ++ crlf ++ lit "STA") eq_refl) as H.
    assert (all_frames (recv_buffer (ann true) ++ coeff_line ++ lit "what?" ++ crlf ++ lit "STA")
      = ([lit "COEFF 2 3"; lit "what?"], lit "STA")) as Hf by (vm_compute; reflexivity).
    rewrite Hf in H. rewrite H. vm_compute. reflexivity.
  - pose proof (receiver_delivers_lines (ann true) (lit "100%" ++ crlf) eq_refl) as H.
    assert (all_frames (recv_buffer (ann true) ++ lit "100%" ++ crlf) = ([lit "100%"], [])) as Hf by (vm_compute; reflexivity).
    rewrite Hf in H. rewrite H. vm_compute. reflexivity.
Defined.

(** A session with the puts that the strategy queued and the answers that were processed. *)
Fixpoint run_counted (es : list Event) (c : Client) (puts answers : Z) : outcome (Client * Z * Z) :=
  match es with
  | [] => Ret (c, puts, answers)
  | e :: es' =>
      match run_event e c with
      | Ret (_, c') => run_counted es' c' (puts + puts_queued e c c') (answers + answer_processed e c)
      | Fail f => Fail f
      end
  end.
Definition counted_session (before after : list Event) (c : Client) : outcome (Client * Z * Z) :=
  match run_counted before c 0 0 with
  | Ret (c1, puts, answers) =>
      match send_hello_message c1 with
      | Ret (_, c2) => run_counted after c2 puts answers
      | Fail f => Fail f
      end
  | Fail f => Fail f
  end.

Lemma run_counted_balance es c p a c' p' a' :
  client_inv c → is_auto_strategy c = true → 1 + p ≤ balance c + a → run_counted es c p a = Ret (c', p', a') →
  client_inv c' ∧ is_auto_strategy c' = true ∧ 1 + p' ≤ balance c' + a' ∧ run_events es c = Ret (tt, c').
Proof.
  revert c p a. induction es as [|e es IH]; intros c p a Hc Ha Hb Hr; [by injection Hr as <- <- <-|].
  cbn [run_counted run_events] in *. unfold mbind, M_bind. destruct (run_event e c) as [[[] c1]|] eqn:He; [|done].
  apply run_event_ret in He as [Hc1 [Ha1 _] _ Hb1 _]; [|done]. specialize (Hb1 Ha).
  eapply IH; [done|congruence| |done]. lia.
Qed.

(** C9: the automatic strategy has at most one put in flight. In every interleaving the number of
    PUTs it has queued is at most the number of answers that were processed (COEFF, which
    allows the first, then BAD_PUT and STATE), not even counting a PUT that it has announced
    with [increment_puts_without_answer] and not yet queued; and the counter stays 0 or 1. *)
Theorem one_put_at_a_time (id_ server_ip : str) (server_port garbage : Z) (before after : list Event) (c : Client) (puts answers : Z) :
  counted_session before after (new_client id_ true server_ip server_port garbage) = Ret (c, puts, answers) →
  session before after (new_client id_ true server_ip server_port garbage) = Ret (tt, c) ∧
  puts + pending c ≤ answers ∧ 0 ≤ puts_without_answer c ≤ 1.
Proof.
  unfold counted_session, session, start, mbind, M_bind.
  destruct (run_counted before _ 0 0) as [[[c1 p1] a1]|] eqn:H1; [|done].
  apply run_counted_balance in H1 as (Hc1 & Ha1 & Hb1 & ->); [|apply new_client_inv|done|vm_compute; congruence].
  destruct (hello_step c1 Hc1) as (c2 & -> & Hc2 & Hctl & _). injection Hctl as Ha2 Hp2 Hat2 _ _ _ _ _ _ _ _.
  intros H3. apply run_counted_balance in H3 as (Hc & _ & Hb & ->); [|done|congruence|].
  - split; [done|]. pose proof (ci_puts _ Hc). unfold balance in Hb. lia.
  - unfold balance, pending in *. by rewrite Hp2, Hat2.
Qed.

Lemma one_put_at_a_time_witness :
  let c := after_session [Printer] first_put (ann true) in
  session [Printer] first_put (ann true) = Ret (tt, c) ∧ 1 + pending c ≤ 1 ∧ 0 ≤ puts_without_answer c ≤ 1.
Proof. apply (one_put_at_a_time (lit "Ann") (lit "::1") 7 0 [Printer] first_put). vm_compute. reflexivity. Defined.

(** The server accepts what the automatic strategy puts. When, in any session, the strategy
    has decided to put, and the points that it knows are points of the server's game
    (0 to [k]), its next step chooses a point and a value whose PUT message exists, reads back
    at the server as that point and the value rounded to seven decimals, and passes the
    server's test of the range: no BAD_PUT answers it. No number overflows on the way. *)
Theorem auto_put_accepted (id_ server_ip : str) (server_port garbage : Z) (before after : list Event) (c : Client) (k : Z) (input : Stdin) :
  session before after (new_client id_ true server_ip server_port garbage) = Ret (tt, c) →
  auto_at c = Counted → max_point c ≤ k ≤ constants.max_k →
  ∃ c' point value m value', run_event (Strategy input) c = Ret (tt, c') ∧ auto_at c' = Chosen point value ∧
    PutMessage_createMessage point value = Some m ∧ body m = PutMessage point value' ∧
    put_out_of_range k point value' = false.
Proof.
  intros Hs Hat Hk. apply session_inv in Hs as Hinv; [|apply new_client_inv]. destruct Hinv as (Hc & Hauto & _).
  change (is_auto_strategy c = true) in Hauto. pose proof (not_first c Hc ltac:(congruence)) as Hf.
  destruct (wp_no_failure_ret get_best_put
    (λ r c', c' = c <| current_approximation := current_approximation c' |> ∧ chosen c r.1 r.2 (current_approximation c')) c)
    as ([point value] & c1 & Hput & Hc1 & [Hpoint Hvalue _ _]).
  { apply wp_get_best_put; [done|done|]. by intros i v l Hl. }
  simpl in Hpoint. destruct (put_reads_back k point value) as (m & value' & Hm & Hbody & Hin); [lia|done|].
  exists (c1 <| auto_at := Chosen point value |>), point, value, m, value'. split.
  - cbn [run_event]. unfold mbind, M_bind, get_state. rewrite Hauto. unfold auto_strategy, mbind, M_bind, get_state.
    cbv beta iota. rewrite Hat, Hput. reflexivity.
  - done.
Qed.

Definition until_counted : list Event := take 6 first_put.
Lemma auto_put_accepted_witness :
  let c := after_session [] until_counted (ann true) in
  ∃ c' point value m value', run_event (Strategy StdinTimeout) c = Ret (tt, c') ∧ auto_at c' = Chosen point value ∧
    PutMessage_createMessage point value = Some m ∧ body m = PutMessage point value' ∧
    put_out_of_range 100 point value' = false.
Proof.
  apply (auto_put_accepted (lit "Ann") (lit "::1") 7 0 [] until_counted); [vm_compute; reflexivity|vm_compute; reflexivity|].
  vm_compute. split; discriminate.
Defined.
