(* ===== verification/ClientHears.v ===== *)
(** * A client of an honest server

    The client is run against a server that keeps to the protocol of [Conversation.v]: whatever
    the pieces in which the bytes arrive and however its threads interleave, what it makes of them
    is the conversation, from the first message on. *)
From Stdlib Require Import Ascii String SpecFloat.
From S2P Require Import Prelude CString Double Constants MsgParser ServerState ServerLogic Server Handlers Framing Conversation.
From S2P Require Import Client ClientValues ClientInv ClientClaims.

(** The bytes that [read] gave the client. *)
Fixpoint received (es : list Event) : str :=
  match es with
  | [] => []
  | Receiver (RecvData data) :: es' => data ++ received es'
  | _ :: es' => received es'
  end.
Lemma received_app es es' : received (es ++ es') = received es ++ received es'.
Proof.
  induction es as [|e es IH]; [done|]. destruct e as [|[]| | | |]; simpl; rewrite ?IH; [done|by rewrite (assoc app)|done..].
Qed.

(** ** The part of the client that only the receiver and the processor touch *)
Definition inbox (c : Client) := (recv_buffer c, incoming_messages c, first_line c, first_message c).
Definition same_inbox (c c' : Client) : Prop :=
  inbox c' = inbox c ∧ coeffs c' = coeffs c ∧ (game_over c = true → game_over c' = true).
#[local] Instance same_inbox_preorder : PreOrder same_inbox.
Proof.
  split; [by intros c|]. intros c1 c2 c3 (H1 & H2 & H3) (H4 & H5 & H6). unfold same_inbox.
  split; [congruence|]. split; [congruence|auto].
Qed.
Ltac inbox_tac := preserves_tac ltac:(done).

Lemma inbox_log msg : preserves any_failure same_inbox (log_stderr msg).
Proof. unfold log_stderr. inbox_tac. Qed.
Lemma inbox_log_stdout msg : preserves any_failure same_inbox (log_stdout msg).
Proof. unfold log_stdout. inbox_tac. Qed.
#[local] Hint Resolve inbox_log inbox_log_stdout : preserves_db.
Lemma inbox_send_put point value : preserves any_failure same_inbox (send_put_message point value).
Proof. unfold send_put_message. inbox_tac. Qed.
#[local] Hint Resolve inbox_send_put : preserves_db.
Lemma inbox_manual_line line : preserves any_failure same_inbox (manual_line line).
Proof. unfold manual_line. inbox_tac. Qed.
#[local] Hint Resolve inbox_manual_line : preserves_db.
Lemma inbox_manual_lines fuel : preserves any_failure same_inbox (manual_lines fuel).
Proof. induction fuel as [|fuel IH]; cbn [manual_lines]; inbox_tac; apply IH. Qed.
#[local] Hint Resolve inbox_manual_lines : preserves_db.
Lemma inbox_manual input : preserves any_failure same_inbox (manual_strategy input).
Proof. unfold manual_strategy. inbox_tac. Qed.
Lemma inbox_best_put : preserves any_failure same_inbox get_best_put.
Proof. unfold get_best_put. inbox_tac. Qed.
#[local] Hint Resolve inbox_best_put : preserves_db.
Lemma inbox_auto : preserves any_failure same_inbox auto_strategy.
Proof. unfold auto_strategy, wait_for_puts, increment_puts_without_answer. inbox_tac. Qed.
Lemma inbox_sender n again : preserves any_failure same_inbox (network_sender n again).
Proof. unfold network_sender. inbox_tac. Qed.
Lemma inbox_printer : preserves any_failure same_inbox log_printer.
Proof. unfold log_printer. inbox_tac. Qed.
Lemma inbox_receiver_end : preserves any_failure same_inbox network_receiver_end.
Proof. unfold network_receiver_end. inbox_tac. Qed.
#[local] Hint Resolve inbox_manual inbox_auto inbox_sender inbox_printer inbox_receiver_end : preserves_db.

(** A step of another thread, or of the receiver when it gets nothing. *)
Definition elsewhere (e : Event) : Prop :=
  match e with Processor | Receiver (RecvData _) => False | _ => True end.
Lemma elsewhere_inbox e : elsewhere e → preserves any_failure same_inbox (run_event e).
Proof.
  destruct e as [|r| |n again| |input]; [done| |intros _..]; cbn [run_event]; try inbox_tac.
  destruct r; [done|intros _..]; unfold network_receiver; inbox_tac.
Qed.

(** ** The messages of the server *)
Definition not_exit (f : failure) : Prop := f ≠ Exit.
#[local] Hint Extern 1 (not_exit _) => discriminate : preserves_db.

Lemma substr_from_not_exit s n f : substr_from s n = Fail f → not_exit f.
Proof. unfold substr_from. destruct (_ <? _)%nat; [|done]. by intros [= <-]. Qed.
Lemma poly_at_loop_not_exit cs x fuel i r p f : poly_at_loop cs x fuel i r p = Fail f → not_exit f.
Proof.
  revert i r p. induction fuel as [|fuel IH]; intros i r p; [done|]. cbn [poly_at_loop].
  destruct (cs !! i); [|by intros [= <-]]. cbn [from_option_or mbind outcome_bind]. unfold signed32.
  destruct (in_sb 32 _); [|by intros [= <-]]. cbn [mbind outcome_bind]. apply IH.
Qed.
#[local] Hint Resolve substr_from_not_exit poly_at_loop_not_exit : preserves_db.

Lemma hears_log_stdout msg : preserves not_exit same_inbox (log_stdout msg).
Proof. unfold log_stdout. inbox_tac. Qed.
#[local] Hint Resolve hears_log_stdout : preserves_db.
Lemma hears_fill fuel i : preserves not_exit same_inbox (fill_real_values fuel i).
Proof.
  revert i. induction fuel as [|fuel IH]; intros i; cbn [fill_real_values]; unfold poly_at; inbox_tac.
Qed.
Lemma hears_decrement : preserves not_exit same_inbox decrement_puts_without_answer.
Proof. unfold decrement_puts_without_answer. inbox_tac. Qed.
#[local] Hint Resolve hears_fill hears_decrement : preserves_db.

Lemma hears_process msg : preserves not_exit same_inbox (process_message msg).
Proof.
  unfold process_message, processBadPutMessage, processStateMessage, processPenaltyMessage, processScoringMessage.
  inbox_tac.
Qed.

Lemma wp_preserved {A} (m : CM A) (Q : A → Client → Prop) c :
  preserves not_exit same_inbox m → (∀ a c', same_inbox c c' → Q a c') → wp not_exit m Q c.
Proof. intros Hm HQ. eapply wp_mono; [|apply Hm]. intros a c'. apply HQ. Qed.

Lemma coeff_heard cs c (Q : bool → Client → Prop) :
  (∀ c', same_inbox (c <| coeffs := cs |>) c' → Q true c') → wp not_exit (processCoeffMessage cs) Q c.
Proof.
  intros HQ. unfold processCoeffMessage. wp_step. wp_step. wp_step. apply wp_preserved; [auto with preserves_db|].
  intros _ c1 H1. wp_step. wp_step. wp_step. wp_step. wp_step.
  apply wp_preserved; [auto with preserves_db|]. intros _ c2 H2.
  wp_step. apply wp_preserved; [auto with preserves_db|]. intros _ c3 H3. wp_step. apply HQ.
  transitivity c1; [exact H1|]. transitivity c2; [exact H2|done].
Qed.

(** What the client has of the bytes [R]: the lines that are complete, as messages, of which the
    processor has taken the first; if it took any, the first one gave the coefficients. *)
Record hears (R : str) (c : Client) : Prop := {
  he_buffer : recv_buffer c = snd (all_frames R);
  he_line : first_line c = bool_decide (fst (all_frames R) = []);
  he_read : ∃ taken, read_lines (fst (all_frames R)) = Some (taken ++ incoming_messages c) ∧
    first_message c = bool_decide (taken = []) ∧
    (first_message c = false → ∃ m, head taken = Some m ∧ is_coeff (coeffs c) m) }.

Lemma hears_nothing id_ auto server_ip server_port garbage :
  hears [] (new_client id_ auto server_ip server_port garbage).
Proof. split; [done|done|]. by exists []. Qed.

Lemma hears_same R c c' : same_inbox c c' → hears R c → hears R c'.
Proof.
  intros ([= Hb Hi Hl Hf] & Hc & _) [H1 H2 (taken & H3 & H4 & H5)].
  split; [congruence|congruence|]. exists taken. by rewrite Hi, Hf, Hc.
Qed.

(** Every message that is waiting is one of the conversation; the first of all has coefficients. *)
Definition opens_with (cs : list double) (ms : list Message) : Prop := ∃ m, head ms = Some m ∧ is_coeff cs m.

Lemma processor_hears R c cs ms :
  hears R c → opens_with cs ms → Forall made ms → R `prefix_of` concat (map raw_message ms) → game_over c = false →
  wp not_exit message_processor (λ _ c', hears R c') c.
Proof.
  intros Hh (m0 & Hm0 & Hcs) Hmade HR Hg. unfold message_processor. wp_step. wp_step. rewrite Hg. unfold try_pop.
  destruct Hh as [H1 H2 (taken & H3 & H4 & H5)].
  destruct (incoming_messages c) as [|msg rest] eqn:Hin.
  { apply wp_ret. split; [done|done|]. exists taken. by rewrite Hin. }
  wp_step. apply wp_modify. destruct (frames_of_prefix R ms Hmade HR) as (ms1 & Hms1 & Hpre).
  rewrite H3 in Hms1. injection Hms1 as <-. destruct (first_message c) eqn:Hf.
  - symmetry in H4. apply bool_decide_eq_true in H4 as ->. destruct Hpre as [more ->]. injection Hm0 as ->.
    wp_step. apply wp_modify. unfold is_coeff in Hcs. rewrite Hcs. wp_step. apply coeff_heard.
    intros c' ([= Hb Hi Hl Hfm] & Hc' & _). wp_step. wp_step. apply wp_ret.
    split; [simpl; congruence|simpl; congruence|]. exists [m0]. simpl in *. rewrite Hi, Hfm, Hc'. split; [done|].
    split; [done|]. intros _. by exists m0.
  - assert (hears R (c <| incoming_messages := rest |>)) as Hh.
    { split; [done|done|]. exists (taken ++ [msg]). rewrite <-(assoc app). split; [exact H3|].
      change (first_message (c <| incoming_messages := rest |>)) with (first_message c). rewrite Hf.
      split; [symmetry; apply bool_decide_eq_false; by destruct taken|]. intros _. destruct (H5 eq_refl) as (m & Hm & Hmc).
      exists m. split; [|done]. by destruct taken. }
    wp_step. apply wp_preserved; [apply hears_process|]. intros b c' Hs. wp_step. wp_step.
    assert (∀ c2, same_inbox c' c2 → hears R c2) as Hend.
    { intros c2 Hc2. apply (hears_same R (c <| incoming_messages := rest |>)); [by transitivity c'|done]. }
    destruct b; [apply wp_ret|apply wp_log_stderr]; by apply Hend.
Qed.

(** Lines that are messages are handed over, and nothing is reported. *)
Lemma read_lines_parsed c ls ms :
  read_lines ls = Some ms → parsed ls = ms ∧ complaints c ls = [] ∧ first_line_bad c ls = false.
Proof.
  unfold read_lines. revert ms. induction ls as [|l ls IH]; intros ms; cbn [mapM].
  { intros [= <-]. split; [done|]. split; [done|]. unfold first_line_bad. by rewrite andb_false_r. }
  destruct (createMessage (l ++ crlf)) as [m|] eqn:Hm; [|done]. cbn [mbind option_bind].
  destruct (mapM _ ls) as [ms'|]; [|done]. intros [= <-]. destruct (IH ms' eq_refl) as (Hp & Hc & _).
  unfold parsed, complaints in *. cbn [omap list_omap]. rewrite Hm. split; [by f_equal|]. split; [done|].
  unfold first_line_bad. rewrite Hm. by rewrite andb_false_r.
Qed.

Lemma read_lines_split ls ls' ms :
  read_lines (ls ++ ls') = Some ms → ∃ ms1 ms2, ms = ms1 ++ ms2 ∧ read_lines ls = Some ms1 ∧ read_lines ls' = Some ms2.
Proof.
  unfold read_lines. intros (ms1 & ms2 & Hms & H1 & H2)%mapM_Some_1%Forall2_app_inv_l.
  exists ms1, ms2. split; [done|]. by split; apply mapM_Some_2.
Qed.

(** The lines of one [recv], all of them messages. *)
Lemma receiver_hears R c data ms :
  hears R c → Forall made ms → R ++ data `prefix_of` concat (map raw_message ms) → game_over c = false →
  ∃ ls rest, all_frames (recv_buffer c ++ data) = (ls, rest) ∧ complaints c ls = [] ∧
    network_receiver (RecvData data) c = Ret (tt, after_lines ls rest c) ∧ hears (R ++ data) (after_lines ls rest c).
Proof.
  intros [H1 H2 (taken & H3 & H4 & H5)] Hmade HR Hg.
  destruct (frames_of_prefix _ ms Hmade HR) as (all & Hall & _).
  pose proof (network_receiver_lines c data Hg) as Hrun. pose proof (all_frames_app R data) as Hsplit.
  rewrite <-H1 in Hsplit. destruct (all_frames (recv_buffer c ++ data)) as [ls rest]. cbn [fst snd] in Hsplit.
  rewrite Hsplit in Hall. cbn [fst] in Hall. apply read_lines_split in Hall as (ms1 & ms2 & -> & Hr1 & Hr2).
  rewrite H3 in Hr1. injection Hr1 as <-. destruct (read_lines_parsed c ls ms2 Hr2) as (Hp & Hc & Hbad).
  rewrite Hbad in Hrun. exists ls, rest. split; [done|]. split; [done|]. split; [exact Hrun|].
  unfold after_lines. split; rewrite Hsplit; cbn [fst snd].
  - done.
  - simpl. rewrite H2, <-bool_decide_and. apply bool_decide_ext. split; [by intros [-> ->]|apply app_nil].
  - exists taken. simpl. rewrite Hp, (assoc app). split; [|done]. unfold read_lines in *.
    apply mapM_Some_2, Forall2_app; by apply mapM_Some_1.
Qed.

(** ** Whole sessions *)

(** The bytes that came in after the end of the game are not read. *)
Definition heard (bytes : str) (c : Client) : Prop :=
  ∃ R, hears R c ∧ R `prefix_of` bytes ∧ (game_over c = false → R = bytes).

Lemma heard_same bytes c c' : same_inbox c c' → heard bytes c → heard bytes c'.
Proof.
  intros Hs (R & Hh & Hp & Hg). exists R. split; [by apply (hears_same R c)|]. split; [done|].
  intros Hg'. apply Hg. destruct Hs as (_ & _ & Hs). destruct (game_over c); [|done]. by rewrite Hs in Hg'.
Qed.

Lemma message_processor_idle c :
  game_over c = true → message_processor c = if scoring_received c then Ret (tt, c) else Fail Exit.
Proof.
  intros Hover. unfold message_processor, mbind, M_bind, get_state. rewrite Hover. by destruct (scoring_received c).
Qed.

Section honest_server.
Context (cs : list double) (ms : list Message).
Hypothesis Hopens : opens_with cs ms.
Hypothesis Hmade : Forall made ms.
Abbreviation said_bytes := (concat (map raw_message ms)).

Lemma processor_heard bytes c c' :
  bytes `prefix_of` said_bytes → heard bytes c → run_event Processor c = Ret (tt, c') → heard bytes c'.
Proof using Hopens Hmade.
  intros Hpre (R & Hh & Hp & Hg) Hr. cbn [run_event] in Hr. destruct (game_over c) eqn:Hover.
  - rewrite message_processor_idle in Hr by done. destruct (scoring_received c); [|done]. injection Hr as <-.
    exists R. by rewrite Hover.
  - exists R. split; [|split; [done|by intros _; apply Hg]].
    assert (R `prefix_of` said_bytes) as HR by (by transitivity bytes).
    exact (wp_elim not_exit _ _ _ _ _ (processor_hears R c cs ms Hh Hopens Hmade HR Hover) Hr).
Qed.

Lemma receiver_heard bytes data c c' :
  bytes ++ data `prefix_of` said_bytes → heard bytes c →
  run_event (Receiver (RecvData data)) c = Ret (tt, c') → heard (bytes ++ data) c'.
Proof using Hmade.
  intros Hpre (R & Hh & Hp & Hg) Hr. cbn [run_event] in Hr. destruct (game_over c) eqn:Hover.
  - unfold network_receiver, mbind, M_bind, get_state in Hr. rewrite Hover in Hr. injection Hr as <-.
    exists R. rewrite Hover. split; [done|]. split; [by apply prefix_app_r|done].
  - rewrite (Hg eq_refl) in *. destruct (receiver_hears bytes c data ms Hh Hmade Hpre Hover) as (ls & rest & _ & _ & Hrun & Hh').
    rewrite Hrun in Hr. injection Hr as <-. by exists (bytes ++ data).
Qed.

Lemma elsewhere_heard e bytes c c' :
  elsewhere e → heard bytes c → run_event e c = Ret (tt, c') → heard (bytes ++ received [e]) c'.
Proof.
  intros He Hh Hr. assert (received [e] = []) as -> by (by destruct e as [|[]| | | |]).
  rewrite app_nil_r. eapply heard_same; [|exact Hh].
  exact (wp_elim _ _ _ _ _ _ (elsewhere_inbox e He c) Hr).
Qed.

Lemma event_heard e bytes c c' :
  bytes ++ received [e] `prefix_of` said_bytes → heard bytes c → run_event e c = Ret (tt, c') →
  heard (bytes ++ received [e]) c'.
Proof using Hopens Hmade.
  destruct e as [|[data| | |]| |n again| |input]; try (intros _; by apply elsewhere_heard).
  - cbn [received]. rewrite app_nil_r. apply processor_heard.
  - cbn [received]. rewrite app_nil_r. apply receiver_heard.
Qed.

Lemma events_heard es bytes c c' :
  bytes ++ received es `prefix_of` said_bytes → heard bytes c → run_events es c = Ret (tt, c') →
  heard (bytes ++ received es) c'.
Proof using Hopens Hmade.
  revert bytes c. induction es as [|e es IH]; intros bytes c Hpre Hh Hr.
  { injection Hr as <-. cbn [received]. by rewrite app_nil_r. }
  apply run_events_cons in Hr as (c1 & He & Hr). change (e :: es) with ([e] ++ es) in *.
  rewrite received_app, (assoc app) in *. apply (IH _ c1); [done| |done].
  apply (event_heard e bytes c c1); [|done|done]. etrans; [|exact Hpre]. by apply prefix_app_r.
Qed.

Lemma session_heard id_ auto server_ip server_port garbage before after c :
  received (before ++ after) `prefix_of` said_bytes →
  session before after (new_client id_ auto server_ip server_port garbage) = Ret (tt, c) →
  heard (received (before ++ after)) c.
Proof using Hopens Hmade.
  intros Hpre. rewrite received_app in *. unfold session, start, mbind, M_bind.
  destruct (run_events before _) as [[[] c1]|] eqn:H1; [|done]. intros H2.
  apply (events_heard after (received before) (c1 <| outgoing_messages ::= push (HelloMessage_createMessage (player_id c1)) |>));
    [done| |exact H2].
  apply (heard_same _ c1); [done|].
  apply (events_heard before [] (new_client id_ auto server_ip server_port garbage)); [|exists []|done].
  - etrans; [|exact Hpre]. by apply prefix_app_r.
  - split; [apply hears_nothing|]. split; [done|by intros _].
Qed.

(** What has been heard, in terms of the conversation. *)
Lemma heard_conversation bytes c :
  bytes `prefix_of` said_bytes → heard bytes c →
  (∃ taken, taken ++ incoming_messages c `prefix_of` ms) ∧
  (first_message c = false → coeffs c = cs) ∧
  (game_over c = false →
     run_event Processor c ≠ Fail Exit ∧
     ∀ data, bytes ++ data `prefix_of` said_bytes →
       ∃ ls rest, network_receiver (RecvData data) c = Ret (tt, after_lines ls rest c) ∧ complaints c ls = []).
Proof using Hopens Hmade.
  intros Hpre (R & Hh & Hp & Hg). assert (R `prefix_of` said_bytes) as HR by (by transitivity bytes).
  destruct (frames_of_prefix R ms Hmade HR) as (ms1 & Hms1 & Hpre1).
  pose proof Hh as [_ _ (taken & H3 & H4 & H5)]. rewrite H3 in Hms1. injection Hms1 as <-.
  split; [by exists taken|]. split.
  - intros Hf. destruct (H5 Hf) as (m & Hm & Hc), Hopens as (m0 & Hm0 & Hc0).
    destruct Hpre1 as [more ->]. destruct taken as [|m1 taken]; [done|]. injection Hm as ->. injection Hm0 as ->.
    unfold is_coeff in *. congruence.
  - intros Hover. rewrite (Hg Hover) in *. split.
    + pose proof (processor_hears bytes c cs ms Hh Hopens Hmade HR Hover) as Hw. cbn [run_event].
      intros He. unfold wp in Hw. by rewrite He in Hw.
    + intros data Hd. destruct (receiver_hears bytes c data ms Hh Hmade Hd Hover) as (ls & rest & _ & Hc & Hrun & _).
      by exists ls, rest.
Qed.
End honest_server.
