(* ===== verification/ClientTurns.v ===== *)
(** * The automatic client waits for its turn

    In every session, with any server and any interleaving of the threads, the bytes that a client
    with the automatic strategy has written hold no more PUTs than the bytes that it has read hold
    messages that give it the turn. *)
From Stdlib Require Import Ascii String SpecFloat.
From S2P Require Import Prelude CString Double Constants MsgParser ServerState ServerLogic Server Handlers Framing Conversation.
From S2P Require Import GameInvariant EventLoop Courtesy Client ClientValues ClientInv ClientClaims ClientHears.

(** ** What is queued *)
Definition puts_among (all : list (option Message)) : nat := count put_message (messages_of all).

Lemma puts_among_app all all' : puts_among (all ++ all') = (puts_among all + puts_among all')%nat.
Proof. unfold puts_among, messages_of. by rewrite omap_app, count_app. Qed.
Lemma puts_among_le all : (puts_among all ≤ length all)%nat.
Proof.
  unfold puts_among, count. induction all as [|[m|] all IH]; [done|..]; cbn [messages_of omap list_omap List.filter length] in *.
  - destruct (put_message m); cbn [length]; unfold messages_of in IH; lia.
  - unfold messages_of in IH. lia.
Qed.
Lemma hello_no_put name : puts_among [HelloMessage_createMessage name] = 0%nat.
Proof.
  unfold puts_among, count. cbn [messages_of omap list_omap].
  destruct (HelloMessage_createMessage name) as [m|] eqn:Hm; [|done]. cbn [List.filter].
  enough (put_message m = false) as -> by done.
  unfold HelloMessage_createMessage, createMessageWithCRLF, createMessage in Hm.
  destruct (_ || _); [done|]. rewrite length_app, Nat.add_sub, take_app_length in Hm.
  unfold extractCommandAndParams in Hm. cbn [lit app] in Hm.
  destruct (bool_decide _); [done|]. change (find_char space (lit "HELLO " ++ name)) with (Some 5%nat) in Hm.
  cbv beta iota in Hm. destruct (_ =? _)%nat; [done|]. cbn [mbind option_bind] in Hm.
  destruct (splitParams _) as [ps|]; [|done]. cbn [mbind option_bind] in Hm.
  change (parse_command (take 5 (lit "HELLO " ++ name))) with (Some HelloMessage_parseMessage) in Hm.
  cbn [mbind option_bind] in Hm. unfold HelloMessage_parseMessage in Hm.
  destruct ps as [|w [|]]; try done. destruct (isAlphanumeric w); [|done]. by injection Hm as <-.
Qed.

(** ** What is read *)

(** The lines of the bytes [R] are cut and handed over, and the processor has taken [taken]. *)
Record takes (R : str) (taken : list Message) (c : Client) : Prop := {
  tk_buffer : recv_buffer c = snd (all_frames R);
  tk_lines : messages_of_lines (fst (all_frames R)) = taken ++ incoming_messages c;
  tk_first : first_message c = bool_decide (taken = []) }.

Lemma takes_same R taken c c' : same_inbox c c' → takes R taken c → takes R taken c'.
Proof. intros ([= Hb Hi _ Hf] & _) []. split; by rewrite ?Hb, ?Hi, ?Hf. Qed.

Lemma takes_receive R taken c c' data :
  game_over c = false → takes R taken c → network_receiver (RecvData data) c = Ret (tt, c') → takes (R ++ data) taken c'.
Proof.
  intros Hg [Hb Hm Hf] Hr. pose proof (network_receiver_lines c data Hg) as Hrun.
  pose proof (all_frames_app R data) as Hsplit. rewrite <-Hb in Hsplit.
  destruct (all_frames (recv_buffer c ++ data)) as [ls rest]. rewrite Hr in Hrun.
  destruct (first_line_bad c ls); [done|]. injection Hrun as ->. split; [by rewrite Hsplit| |done].
  rewrite Hsplit. cbn [fst]. rewrite messages_of_lines_app, Hm, <-(assoc app). done.
Qed.

(** The processor takes at most one message, which may count as an answer. *)
Definition answered (first : bool) (now : list Message) : Z :=
  match now with [] => 0 | m :: _ => if is_answer first m then 1 else 0 end.

Definition popped (c : Client) : list Message := if game_over c then [] else take 1 (incoming_messages c).
Lemma processor_takes c :
  wp any_failure message_processor (λ _ c',
    recv_buffer c' = recv_buffer c ∧ ∃ now, now = popped c ∧ incoming_messages c = now ++ incoming_messages c' ∧
      answers c = answered (first_message c) now ∧ first_message c' = first_message c && bool_decide (now = [])) c.
Proof.
  unfold message_processor, answers, popped. wp_step. wp_step. destruct (game_over c).
  { destruct (scoring_received c); [|by apply wp_fail]. apply wp_ret. split; [done|]. exists []. simpl. by rewrite andb_true_r. }
  unfold try_pop. destruct (incoming_messages c) as [|m rest] eqn:Hin.
  { apply wp_ret. split; [done|]. exists []. simpl. by rewrite Hin, andb_true_r. }
  wp_step. apply wp_modify. set (c1 := c <| incoming_messages := rest |>).
  assert (∀ c2, recv_buffer c2 = recv_buffer c → incoming_messages c2 = rest → first_message c2 = false →
    recv_buffer c2 = recv_buffer c ∧ ∃ now, now = take 1 (m :: rest) ∧ m :: rest = now ++ incoming_messages c2 ∧
      (if is_answer (first_message c) m then 1 else 0) = answered (first_message c) now ∧
      first_message c2 = first_message c && bool_decide (now = [])) as Hend.
  { intros c2 Hb2 Hi2 Hf2. split; [done|]. exists [m]. rewrite Hi2, Hf2. simpl. by rewrite andb_false_r. }
  destruct (first_message c) eqn:Hf.
  - wp_step. apply wp_modify. destruct (body m); try (by apply wp_fail). wp_step.
    eapply wp_weaken_failures; [|apply coeff_heard]; [done|]. intros c2 ([= Hb Hi _ Hf2] & _). wp_step. apply wp_modify.
    apply wp_ret. by apply Hend.
  - wp_step. apply (wp_weaken_failures not_exit); [done|]. apply wp_preserved; [apply hears_process|].
    intros b c2 ([= Hb2 Hi2 _ Hf2] & _). wp_step. apply wp_modify. rewrite Hf in Hf2.
    destruct b; [apply wp_ret|apply wp_log_stderr]; by apply Hend.
Qed.

Lemma answered_turns first now : answered first now ≤ Z.of_nat (count turn_message now).
Proof.
  destruct now as [|m now]; [done|]. unfold answered, is_answer, count, turn_message. simpl.
  destruct (body m), first; simpl; lia.
Qed.

(** ** Counting over a session *)

(** [all] was queued so far, [R] of the bytes that came in was read, and [taken] of its messages were
    processed; every PUT queued, and one that is announced, has had its turn. *)
Record tally (bytes : str) (all : list (option Message)) (R : str) (taken : list Message) (c : Client) : Prop := {
  ta_inv : client_inv c;
  ta_auto : is_auto_strategy c = true;
  ta_streams : streams all c;
  ta_made : Forall made (messages_of all);
  ta_bytes : R `prefix_of` bytes;
  ta_all_bytes : game_over c = false → R = bytes;
  ta_takes : takes R taken c;
  ta_turns : 1 + Z.of_nat (puts_among all) ≤ balance c + Z.of_nat (count turn_message taken) }.

(** What one step adds to them. *)
Record tallied (e : Event) (c c' : Client) (ms : list (option Message)) (now : list Message) : Prop := {
  td_puts : Forall is_put ms;
  td_queued : Z.of_nat (length ms) = puts_queued e c c';
  td_queues : ms = [] ∨ queues c c' ms;
  td_one : (length now ≤ 1)%nat;
  td_answer : answer_processed e c = answered (first_message c) now;
  td_now : e = Processor → now = popped c }.

Lemma event_takes e bytes R taken c c' :
  R `prefix_of` bytes → (game_over c = false → R = bytes) → takes R taken c → client_inv c →
  run_event e c = Ret (tt, c') →
  ∃ R' now, R' `prefix_of` bytes ++ received [e] ∧ (game_over c' = false → R' = bytes ++ received [e]) ∧
    takes R' (taken ++ now) c' ∧ (length now ≤ 1)%nat ∧ answer_processed e c = answered (first_message c) now ∧
    (e = Processor → now = popped c).
Proof.
  intros Hpre Hg Ht Hc Hr. pose proof (run_event_ret e c c' Hc Hr) as Hstep.
  assert (game_over c' = false → game_over c = false) as Hback.
  { intros Hg'. destruct (game_over c) eqn:Hov; [|done]. by rewrite (so_over _ _ _ Hstep Hov) in Hg'. }
  assert (elsewhere e → ∃ R' now, R' `prefix_of` bytes ++ received [e] ∧ (game_over c' = false → R' = bytes ++ received [e]) ∧
    takes R' (taken ++ now) c' ∧ (length now ≤ 1)%nat ∧ answer_processed e c = answered (first_message c) now ∧
    (e = Processor → now = popped c)) as Helse.
  { intros He. exists R, []. assert (received [e] = []) as -> by (by destruct e as [|[]| | | |]).
    rewrite !app_nil_r. split; [done|]. split; [auto|]. split; [|split; [simpl; lia|by destruct e]].
    apply (takes_same R taken c); [exact (wp_elim _ _ _ _ _ _ (elsewhere_inbox e He c) Hr)|done]. }
  destruct e as [|[data| | |]| |n again| |input]; try (by apply Helse); clear Helse; cbn [received run_event] in *.
  - rewrite app_nil_r. destruct (wp_elim _ _ _ _ _ _ (processor_takes c) Hr) as (Hb' & now & Hnow & Hi & Ha & Hf').
    assert (length now ≤ 1)%nat by (rewrite Hnow; unfold popped; destruct (game_over c); [simpl; lia|rewrite length_take; lia]).
    exists R, now. split; [done|]. split; [auto|]. split; [|done]. destruct Ht as [Hb Hm Hf].
    split; [congruence|by rewrite Hm, Hi, (assoc app)|]. rewrite Hf', Hf. by destruct taken, now.
  - rewrite app_nil_r. destruct (game_over c) eqn:Hov.
    + unfold network_receiver, mbind, M_bind, get_state in Hr. rewrite Hov in Hr. injection Hr as <-.
      exists R, []. rewrite app_nil_r. split; [by apply prefix_app_r|]. split; [congruence|]. split; [done|]. split; [simpl; lia|done].
    + rewrite (Hg eq_refl) in *. exists (bytes ++ data), []. rewrite app_nil_r. split; [done|]. split; [done|].
      split; [by apply (takes_receive bytes taken c)|]. split; [simpl; lia|done].
Qed.

Lemma event_tally e bytes all R taken c c' :
  tally bytes all R taken c → run_event e c = Ret (tt, c') →
  ∃ ms R' now, tally (bytes ++ received [e]) (all ++ ms) R' (taken ++ now) c' ∧ tallied e c c' ms now.
Proof.
  intros [Hi Ha Hs Hmade Hpre Hg Ht Hle] Hr. pose proof (run_event_ret e c c' Hi Hr) as Hstep.
  destruct (step_streams e c c' all Hstep Hs) as (ms & Hputs & Hlen & Hqs & Hs').
  destruct (event_takes e bytes R taken c c') as (R' & now & Hpre' & Hg' & Ht' & Hone & Hans & Hnow); [done..|].
  exists ms, R', now. split; [|done]. split; try done.
  - apply Hstep.
  - rewrite <-Ha. apply Hstep.
  - unfold messages_of. rewrite omap_app. apply Forall_app. split; [done|]. by apply puts_made.
  - pose proof (so_balance _ _ _ Hstep Ha) as Hb. pose proof (answered_turns (first_message c) now).
    pose proof (puts_among_le ms). rewrite puts_among_app, count_app. lia.
Qed.

Lemma events_tally es bytes all R taken c c' :
  tally bytes all R taken c → run_events es c = Ret (tt, c') →
  ∃ all' R' taken', tally (bytes ++ received es) all' R' taken' c'.
Proof.
  revert bytes all R taken c. induction es as [|e es IH]; intros bytes all R taken c Ht Hr.
  { injection Hr as <-. exists all, R, taken. by rewrite !app_nil_r. }
  apply run_events_cons in Hr as (c1 & He & Hr).
  destruct (event_tally e bytes all R taken c c1 Ht He) as (ms & R' & now & Ht1 & _).
  destruct (IH _ _ _ _ _ Ht1 Hr) as (all' & R'' & taken' & Ht'). exists all', R'', taken'. change (e :: es) with ([e] ++ es).
  by rewrite received_app, !(assoc app).
Qed.

Lemma hello_tally bytes all R taken c c' :
  tally bytes all R taken c → send_hello_message c = Ret (tt, c') →
  tally bytes (all ++ [HelloMessage_createMessage (player_id c)]) R taken c' ∧ balance c' = balance c.
Proof.
  intros [Hi Ha Hs Hmade Hpre Hg Ht Hle] Hr. pose proof (hello_streams c c' all Hi Hr Hs) as Hs'.
  destruct (hello_step c Hi) as (c2 & Hr2 & Hi' & Hctl & Hov & _). rewrite Hr in Hr2. injection Hr2 as <-.
  assert (balance c' = balance c) as Hbal.
  { injection Hctl as _ Hp Hat _ _ _ _ _ _ _ _. unfold balance, pending. by rewrite Hp, Hat. }
  split; [|done]. split; try done.
  - rewrite <-Ha. by injection Hctl.
  - unfold messages_of in *. rewrite omap_app. apply Forall_app. split; [done|].
    exact (said_made [] (player_id c) [] (Forall_nil_2 _) (Forall_nil_2 _)).
  - by rewrite Hov.
  - injection Hr as <-. by destruct Ht.
  - rewrite puts_among_app, hello_no_put, Hbal. lia.
Qed.

Lemma new_client_tally name server_ip server_port garbage :
  tally [] [] [] [] (new_client name true server_ip server_port garbage).
Proof. split; first [apply new_client_inv|done|constructor|by split]. Qed.

Lemma session_tally name server_ip server_port garbage before after c :
  session before after (new_client name true server_ip server_port garbage) = Ret (tt, c) →
  ∃ all R taken, tally (received (before ++ after)) all R taken c.
Proof.
  unfold session, start, mbind, M_bind.
  destruct (run_events before _) as [[[] c1]|] eqn:H1; [|done].
  destruct (events_tally _ _ _ _ _ _ _ (new_client_tally _ _ _ _) H1) as (all1 & R1 & taken1 & Ht1).
  destruct (send_hello_message c1) as [[[] c2]|] eqn:H2; [|done].
  destruct (hello_tally _ _ _ _ _ _ Ht1 H2) as [Ht2 _]. intros H3.
  rewrite received_app. by eapply events_tally.
Qed.

(** The PUTs in the bytes written and the turns in the bytes read. *)
Lemma lines_prefix bytes bytes' : bytes `prefix_of` bytes' → messages_in bytes `prefix_of` messages_in bytes'.
Proof.
  intros [more ->]. unfold messages_in. rewrite all_frames_app. cbn [fst].
  rewrite messages_of_lines_app. by apply prefix_app_r.
Qed.

(** The PUTs in the bytes of messages that were queued. *)
Lemma puts_in_queued bytes all :
  Forall made (messages_of all) → bytes `prefix_of` bytes_of all → (puts_in bytes ≤ puts_among all)%nat.
Proof.
  rewrite bytes_of_messages. intros Hmade Hw. destruct (frames_of_prefix _ _ Hmade Hw) as (ms & Hms & Hp).
  unfold puts_in, messages_in. rewrite (read_lines_messages _ _ Hms). by apply count_prefix.
Qed.
Lemma tally_written bytes all R taken c : tally bytes all R taken c → (puts_in (written c) ≤ puts_among all)%nat.
Proof.
  intros Ht. apply puts_in_queued; [apply Ht|]. etrans; [|apply Ht]. by apply prefix_app_r.
Qed.
Lemma tally_taken bytes all R taken c : tally bytes all R taken c → (count turn_message taken ≤ turns_in bytes)%nat.
Proof.
  intros Ht. unfold turns_in. apply count_prefix. etrans; [|apply lines_prefix, Ht]. unfold messages_in.
  rewrite (tk_lines _ _ _ (ta_takes _ _ _ _ _ Ht)). by apply prefix_app_r.
Qed.
Lemma balance_range c : client_inv c → balance c ≤ 1.
Proof. intros Hc. pose proof (ci_puts c Hc). unfold balance, pending. destruct (auto_at c); lia. Qed.

Lemma tally_waits bytes all R taken c : tally bytes all R taken c → (puts_in (written c) ≤ turns_in bytes)%nat.
Proof.
  intros Ht. pose proof (tally_written _ _ _ _ _ Ht). pose proof (tally_taken _ _ _ _ _ Ht).
  pose proof (ta_turns _ _ _ _ _ Ht). pose proof (balance_range c (ta_inv _ _ _ _ _ Ht)). lia.
Qed.

(** ** Exact counts

    As long as no answer comes that was not waited for, nothing is lost: every turn is either in the
    count of puts without an answer or in a PUT that was queued. *)
Definition same_turn (c c' : Client) : Prop :=
  puts_without_answer c' = puts_without_answer c ∧ auto_at c' = auto_at c ∧ is_auto_strategy c' = is_auto_strategy c.
#[local] Instance same_turn_preorder : PreOrder same_turn.
Proof. split; [by intros c|]. intros c1 c2 c3 (H1 & H2 & H3) (H4 & H5 & H6). split_and!; congruence. Qed.
Ltac turn_tac := preserves_tac ltac:(done).

Lemma turn_log msg : preserves any_failure same_turn (log_stderr msg).
Proof. unfold log_stderr. turn_tac. Qed.
Lemma turn_log_stdout msg : preserves any_failure same_turn (log_stdout msg).
Proof. unfold log_stdout. turn_tac. Qed.
Lemma turn_fill fuel i : preserves any_failure same_turn (fill_real_values fuel i).
Proof. revert i. induction fuel as [|fuel IH]; intros i; cbn [fill_real_values]; unfold poly_at; turn_tac; apply IH. Qed.
#[local] Hint Resolve turn_log turn_log_stdout turn_fill : preserves_db.
Lemma turn_receive_lines fuel : preserves any_failure same_turn (receive_lines fuel).
Proof. induction fuel as [|fuel IH]; cbn [receive_lines]; unfold fatal_format; turn_tac; apply IH. Qed.
#[local] Hint Resolve turn_receive_lines : preserves_db.
Lemma turn_receiver r : preserves any_failure same_turn (network_receiver r).
Proof. unfold network_receiver. turn_tac. Qed.
Lemma turn_receiver_end : preserves any_failure same_turn network_receiver_end.
Proof. unfold network_receiver_end. turn_tac. Qed.
Lemma turn_sender n again : preserves any_failure same_turn (network_sender n again).
Proof. unfold network_sender. turn_tac. Qed.
Lemma turn_printer : preserves any_failure same_turn log_printer.
Proof. unfold log_printer. turn_tac. Qed.
#[local] Hint Resolve turn_receiver turn_receiver_end turn_sender turn_printer : preserves_db.

(** The threads that neither process an answer nor put. *)
Definition bystander (e : Event) : Prop := match e with Processor | Strategy _ => False | _ => True end.
Lemma bystander_turn e : bystander e → preserves any_failure same_turn (run_event e).
Proof. destruct e; intros []; cbn [run_event]; turn_tac. Qed.

Lemma wp_same_turn {A} (m : CM A) (Q : A → Client → Prop) c :
  preserves any_failure same_turn m → (∀ a c', same_turn c c' → Q a c') → wp any_failure m Q c.
Proof. intros Hm HQ. eapply wp_mono; [|apply Hm]. intros a c'. apply HQ. Qed.

(** An answer that was waited for ends the wait. *)
Definition wait_over (c : Client) : Prop := puts_without_answer c = 0.
Lemma decrement_over (Q : bool → Client → Prop) c :
  puts_without_answer c = 1 → (∀ b c', wait_over c' → Q b c') → wp any_failure decrement_puts_without_answer Q c.
Proof. intros Hp HQ. apply wp_decrement; intros H; [lia|]. apply HQ. unfold wait_over. simpl. lia. Qed.

Lemma coeff_over cs c : puts_without_answer c = 1 → wp any_failure (processCoeffMessage cs) (λ _ c', wait_over c') c.
Proof.
  intros Hp. unfold processCoeffMessage. wp_step. wp_step. cbv zeta. wp_step.
  apply wp_same_turn; [turn_tac|]. intros _ c1 (Hp1 & _). wp_step. wp_step. wp_step. wp_step. wp_step.
  apply wp_same_turn; [turn_tac|]. intros _ c2 (Hp2 & _). wp_step.
  apply decrement_over; [simpl in *; congruence|]. intros _ c3 H3. by wp_step.
Qed.

Lemma process_over msg c :
  is_auto_strategy c = true → puts_without_answer c = 1 → is_answer false msg = true →
  wp any_failure (process_message msg) (λ _ c', wait_over c') c.
Proof.
  intros Ha Hp Hans. unfold process_message. unfold is_answer in Hans. destruct (body msg); try done.
  - unfold processBadPutMessage. wp_step. apply wp_same_turn; [turn_tac|]. intros _ c1 (Hp1 & _ & Ha1).
    wp_step. wp_step. wp_step. rewrite Ha1, Ha. wp_step. apply decrement_over; [congruence|]. intros _ c2 H2.
    wp_step. by wp_step.
  - unfold processStateMessage. wp_step. apply wp_same_turn; [turn_tac|]. intros text c1 (Hp1 & _ & Ha1).
    wp_step. apply wp_same_turn; [turn_tac|]. intros _ c2 (Hp2 & _ & Ha2). wp_step. wp_step.
    rewrite Ha2, Ha1, Ha. destruct (negb (K_set c2)); cbn [andb]; [|apply decrement_over; [congruence|done]].
    cbv zeta. wp_step. wp_step. wp_step. wp_step. wp_step.
    apply wp_same_turn; [turn_tac|]. intros _ c3 (Hp3 & _). wp_step.
    apply decrement_over; [simpl in *; congruence|]. intros _ c4 H4. by wp_step.
Qed.

Lemma processor_over c :
  is_auto_strategy c = true → puts_without_answer c = 1 → answers c = 1 →
  wp any_failure message_processor (λ _ c', wait_over c') c.
Proof.
  intros Ha Hp Hans. unfold message_processor. unfold answers in Hans. wp_step. wp_step.
  destruct (game_over c); [lia|]. unfold try_pop. destruct (incoming_messages c) as [|m rest]; [lia|].
  destruct (is_answer (first_message c) m) eqn:Hm; [|lia]. wp_step. wp_step. destruct (first_message c).
  - wp_step. wp_step. destruct (body m) as [|cs| | | | |]; try (by apply wp_fail). wp_step.
    eapply wp_mono; [|by apply coeff_over]. intros b c1 H1. wp_step. wp_step. by destruct b; [apply wp_ret|apply wp_fail].
  - wp_step. eapply wp_mono; [|by apply process_over]. intros b c1 H1. wp_step. wp_step.
    by destruct b; [apply wp_ret|apply wp_log_stderr].
Qed.

Lemma event_exact e c c' :
  client_inv c → is_auto_strategy c = true → run_event e c = Ret (tt, c') →
  (answer_processed e c = 1 → balance c = 1) →
  balance c' + answer_processed e c = balance c + puts_queued e c c'.
Proof.
  intros Hc Ha Hr Hwait.
  assert (bystander e → balance c' + answer_processed e c = balance c + puts_queued e c c') as Hby.
  { intros He. destruct (wp_elim _ _ _ _ _ _ (bystander_turn e He c) Hr) as (Hp & Hat & _).
    unfold balance, pending. rewrite Hp, Hat. destruct e; simpl; try done; lia. }
  destruct e as [| | | | |input]; try (by apply Hby); clear Hby; cbn [run_event answer_processed puts_queued] in *.
  - pose proof (run_event_ret Processor c c' Hc Hr) as Hstep. pose proof (ci_puts c Hc). pose proof (answers_range c).
    destruct (wp_elim _ _ _ _ _ _ (message_processor_run c Hc) Hr) as [[_ (_ & Hat & _) Hp _] Hle].
    unfold balance, pending in *. rewrite Hat. destruct (decide (answers c = 1)) as [Hans|]; [|lia].
    pose proof (wp_elim _ _ _ _ _ _ (processor_over c Ha ltac:(destruct (auto_at c); lia) Hans) Hr) as Hz.
    unfold wait_over in Hz. destruct (auto_at c); lia.
  - unfold mbind, M_bind, get_state in Hr. rewrite Ha in Hr.
    pose proof (wp_elim _ _ _ _ _ _ (auto_strategy_run c Hc) Hr) as [_ _ _ Hp Hq].
    unfold balance. rewrite (qu_queue _ _ _ Hq), length_app. lia.
Qed.

(** The point that the strategy has chosen is a point of a game on [0..k]. *)
Definition plan (k : Z) (c : Client) : Prop := ∀ i v, auto_at c = Chosen i v → 0 ≤ i ≤ k.
Lemma plan_max c : client_inv c → plan constants.max_k c.
Proof. intros Hc i v Hat. apply (ci_chosen c Hc i v Hat). Qed.

(** What the automatic strategy queues is a PUT, not a null message, and the server accepts it. *)
Lemma queued_put k c m :
  client_inv c → k ≤ constants.max_k → plan k c → m ∈ queued_now c →
  ∃ msg, m = Some msg ∧ put_message msg = true ∧ good_put k msg.
Proof.
  unfold queued_now. intros Hc Hk Hplan Hm. destruct (auto_at c) as [| | |i v] eqn:Hat; try (by apply not_elem_of_nil in Hm).
  apply list_elem_of_singleton in Hm as ->. destruct (ci_chosen c Hc i v Hat) as [_ Hv]. specialize (Hplan i v Hat).
  destruct (put_reads_back k i v) as (msg & v' & Hmsg & Hb & Hin); [lia|done|].
  exists msg. split; [exact Hmsg|]. unfold put_message, good_put. by rewrite Hb.
Qed.

(** Each turn that was processed is in a PUT or still held. *)
Definition even (all : list (option Message)) (taken : list Message) (c : Client) : Prop :=
  1 + Z.of_nat (puts_among all) = balance c + Z.of_nat (count turn_message taken).

Lemma puts_among_all ms : (∀ m, m ∈ ms → ∃ msg, m = Some msg ∧ put_message msg = true) → puts_among ms = length ms.
Proof.
  induction ms as [|m ms IH]; intros Hms; [done|]. change (m :: ms) with ([m] ++ ms). rewrite puts_among_app, length_app, IH.
  - destruct (Hms m) as (msg & -> & Hput); [by left|]. f_equal. unfold puts_among, count. simpl. by rewrite Hput.
  - intros m' Hm'. apply Hms. by right.
Qed.

(** What is queued is what the strategy had chosen. *)
Lemma tallied_queued e c c' ms now :
  client_inv c → is_auto_strategy c = true → run_event e c = Ret (tt, c') → tallied e c c' ms now →
  ms = [] ∨ ms = queued_now c.
Proof.
  intros Hc Ha Hr [_ Hlen [->|Hq] _ _ _]; [by left|].
  destruct e as [| | | | |input]; try (left; by destruct ms; [|simpl in Hlen; lia]).
  right. cbn [run_event] in Hr. unfold mbind, M_bind, get_state in Hr. rewrite Ha in Hr.
  pose proof (wp_elim _ _ _ _ _ _ (auto_strategy_run c Hc) Hr) as [_ _ _ _ Hq'].
  pose proof (qu_queue _ _ _ Hq) as Ho. rewrite (qu_queue _ _ _ Hq') in Ho. by apply app_inv_head in Ho.
Qed.

Lemma tallied_puts e c c' ms now :
  client_inv c → is_auto_strategy c = true → run_event e c = Ret (tt, c') → tallied e c c' ms now →
  puts_among ms = length ms.
Proof.
  intros Hc Ha Hr Ht. destruct (tallied_queued e c c' ms now Hc Ha Hr Ht) as [->| ->]; [done|].
  apply puts_among_all. intros m Hm. destruct (queued_put constants.max_k c m) as (msg & Hmsg & Hput & _); eauto using plan_max.
  done.
Qed.

Lemma event_even e c c' all taken ms now :
  client_inv c → is_auto_strategy c = true → run_event e c = Ret (tt, c') → tallied e c c' ms now →
  (answer_processed e c = 1 → balance c = 1) → answered (first_message c) now = Z.of_nat (count turn_message now) →
  even all taken c → even (all ++ ms) (taken ++ now) c'.
Proof.
  intros Hc Ha Hr Ht Hwait Hans Heven. pose proof (event_exact e c c' Hc Ha Hr Hwait) as Hex.
  pose proof (tallied_puts e c c' ms now Hc Ha Hr Ht) as Hp. destruct Ht as [_ Hlen _ _ Hnow _].
  unfold even in *. rewrite puts_among_app, count_app. lia.
Qed.

(** ** The strategy moves

    A client that has the turn queues a PUT within four steps of its strategy. *)
Definition strategy_steps (n : nat) : list Event := replicate n (Strategy StdinTimeout).
Definition puts_within (n : nat) (c : Client) : Prop :=
  ∃ k c' m, (k ≤ n)%nat ∧ run_events (strategy_steps k) c = Ret (tt, c') ∧
    outgoing_messages c' = outgoing_messages c ++ [Some m] ∧ put_message m = true.

Lemma puts_within_step n c c1 :
  run_event (Strategy StdinTimeout) c = Ret (tt, c1) → outgoing_messages c1 = outgoing_messages c →
  puts_within n c1 → puts_within (S n) c.
Proof.
  intros Hr Ho (k & c' & m & Hk & Hrun & Hout & Hm). exists (S k), c', m. split; [lia|]. split; [|by rewrite Hout, Ho].
  cbn [strategy_steps replicate run_events]. by rewrite (bind_ret _ _ _ _ _ Hr).
Qed.

Lemma strategy_runs c :
  client_inv c → is_auto_strategy c = true →
  ∃ c1, run_event (Strategy StdinTimeout) c = Ret (tt, c1) ∧ auto_strategy c = Ret (tt, c1) ∧ strategy_step c c1 ∧
    is_auto_strategy c1 = true.
Proof.
  intros Hc Ha. destruct (wp_no_failure_ret _ _ _ (auto_strategy_run c Hc)) as ([] & c1 & Hr & Hst). exists c1.
  split; [|split; [done|split; [done|]]].
  - cbn [run_event]. unfold mbind, M_bind, get_state. by rewrite Ha.
  - rewrite <-Ha. apply Hst.
Qed.

Lemma queues_none c c' : queued_now c = [] → strategy_step c c' → outgoing_messages c' = outgoing_messages c.
Proof. intros Hq Hs. rewrite (qu_queue _ _ _ (ss_queues _ _ Hs)), Hq. apply app_nil_r. Qed.

Lemma chosen_moves c i v : client_inv c → is_auto_strategy c = true → auto_at c = Chosen i v → puts_within 1 c.
Proof.
  intros Hc Ha Hat. destruct (strategy_runs c Hc Ha) as (c1 & Hr & _ & Hst & _).
  destruct (queued_put constants.max_k c (PutMessage_createMessage i v)) as (m & Hm & Hput & _);
    [done|done|by apply plan_max|unfold queued_now; rewrite Hat; by left|].
  exists 1%nat, c1, m. split; [done|]. cbn [strategy_steps replicate run_events].
  split; [by rewrite (bind_ret _ _ _ _ _ Hr)|]. split; [|done].
  rewrite (qu_queue _ _ _ (ss_queues _ _ Hst)). unfold queued_now. by rewrite Hat, Hm.
Qed.

Lemma counted_moves c : client_inv c → is_auto_strategy c = true → auto_at c = Counted → puts_within 2 c.
Proof.
  intros Hc Ha Hat. destruct (strategy_runs c Hc Ha) as (c1 & Hr & Hrun & Hst & Ha1).
  apply (puts_within_step 1 c c1 Hr); [apply queues_none; [by unfold queued_now; rewrite Hat|done]|].
  assert (∃ i v, auto_at c1 = Chosen i v) as (i & v & Hat1); [|by eapply chosen_moves; [apply Hst|..]].
  unfold auto_strategy, mbind, M_bind, get_state in Hrun. rewrite Hat in Hrun.
  destruct (get_best_put c) as [[[i v] c2]|]; [|done]. injection Hrun as <-. by exists i, v.
Qed.

Lemma may_put_moves c : client_inv c → is_auto_strategy c = true → auto_at c = MayPut → puts_within 3 c.
Proof.
  intros Hc Ha Hat. destruct (strategy_runs c Hc Ha) as (c1 & Hr & Hrun & Hst & Ha1).
  apply (puts_within_step 2 c c1 Hr); [apply queues_none; [by unfold queued_now; rewrite Hat|done]|].
  apply counted_moves; [apply Hst|done|]. unfold auto_strategy, mbind, M_bind, get_state in Hrun. rewrite Hat in Hrun.
  destruct (increment_puts_without_answer c) as [[[] c2]|]; [|done]. by injection Hrun as <-.
Qed.

Lemma strategy_moves c :
  client_inv c → is_auto_strategy c = true → game_over c = false → balance c = 0 → puts_within 4 c.
Proof.
  intros Hc Ha Hg Hb. pose proof (ci_may c Hc) as Hmay. unfold balance, pending in Hb.
  assert (∀ n m, (n ≤ m)%nat → puts_within n c → puts_within m c) as Hmono.
  { intros n m Hnm (k & c' & msg & Hk & Hrest). exists k, c', msg. split; [lia|done]. }
  destruct (auto_at c) as [| | |i v] eqn:Hat.
  - destruct (strategy_runs c Hc Ha) as (c1 & Hr & Hrun & Hst & Ha1).
    apply (puts_within_step 3 c c1 Hr); [apply queues_none; [by unfold queued_now; rewrite Hat|done]|].
    apply may_put_moves; [apply Hst|done|].
    unfold auto_strategy, wait_for_puts, mbind, M_bind, get_state, mret, M_ret in Hrun. rewrite Hat, Hg in Hrun.
    rewrite (proj2 (Z.eqb_eq (puts_without_answer c) 0)) in Hrun by lia. by injection Hrun as <-.
  - apply (Hmono 3%nat); [lia|]. by apply may_put_moves.
  - apply (Hmono 2%nat); [lia|]. by apply counted_moves.
  - apply (Hmono 1%nat); [lia|]. by eapply chosen_moves.
Qed.
