(* ===== verification/ClientRange.v ===== *)
(** * The automatic client puts in range

    As long as every STATE that a client with the automatic strategy has processed had a value for
    each of the points [0..k], every PUT that it queues is one that the server of a game on these
    points accepts. *)
From Stdlib Require Import Ascii String SpecFloat.
From S2P Require Import Prelude CString Double Constants MsgParser ServerState ServerLogic Server Handlers Framing Conversation.
From S2P Require Import GameInvariant EventLoop Courtesy Client ClientValues ClientInv ClientClaims ClientHears ClientTurns.

(** ** The number of points *)
Definition same_points (c c' : Client) : Prop := K_set c' = K_set c ∧ K_ c' = K_ c.
#[local] Instance same_points_preorder : PreOrder same_points.
Proof. split; [by intros c|]. intros c1 c2 c3 (H1 & H2) (H3 & H4). split; congruence. Qed.
Abbreviation keeps_points := (preserves any_failure same_points).
Ltac points_tac := preserves_tac ltac:(done).

Lemma points_log msg : keeps_points (log_stderr msg).
Proof. unfold log_stderr. points_tac. Qed.
Lemma points_log_stdout msg : keeps_points (log_stdout msg).
Proof. unfold log_stdout. points_tac. Qed.
Lemma points_decrement : keeps_points decrement_puts_without_answer.
Proof. unfold decrement_puts_without_answer. points_tac. Qed.
Lemma points_fill fuel i : keeps_points (fill_real_values fuel i).
Proof. revert i. induction fuel as [|fuel IH]; intros i; cbn [fill_real_values]; unfold poly_at; points_tac; apply IH. Qed.
Lemma points_send i v : keeps_points (send_put_message i v).
Proof. unfold send_put_message, log_stdout. points_tac. Qed.
#[local] Hint Resolve points_log points_log_stdout points_decrement points_fill points_send : preserves_db.
Lemma points_coeff cs : keeps_points (processCoeffMessage cs).
Proof. unfold processCoeffMessage. points_tac. Qed.
Lemma points_auto : keeps_points auto_strategy.
Proof. unfold auto_strategy, wait_for_puts, increment_puts_without_answer, get_best_put. points_tac. Qed.
Lemma points_receive_lines fuel : keeps_points (receive_lines fuel).
Proof. induction fuel as [|fuel IH]; cbn [receive_lines]; unfold fatal_format; points_tac; apply IH. Qed.
Lemma points_manual_lines fuel : keeps_points (manual_lines fuel).
Proof. induction fuel as [|fuel IH]; cbn [manual_lines]; unfold manual_line; points_tac; apply IH. Qed.
#[local] Hint Resolve points_coeff points_auto points_receive_lines points_manual_lines : preserves_db.

Lemma points_event e : e ≠ Processor → keeps_points (run_event e).
Proof.
  intros He. destruct e; [done|..]; cbn [run_event];
    unfold network_receiver, network_receiver_end, network_sender, log_printer, manual_strategy; points_tac.
Qed.

Section points.
Context (k : Z).

(** A client that has seen a STATE has the number of points from it. *)
Definition knows (c : Client) : Prop := K_set c = true → K_ c = k.
Lemma knows_same c c' : same_points c c' → knows c → knows c'.
Proof using Type. unfold knows. by intros [-> ->]. Qed.

Lemma wp_same_points {A} (m : CM A) (Q : A → Client → Prop) c :
  keeps_points m → (∀ a c', same_points c c' → Q a c') → wp any_failure m Q c.
Proof using Type. intros Hm HQ. eapply wp_mono; [|apply Hm]. intros a c'. apply HQ. Qed.

Lemma knows_state msg values c :
  Z.of_nat (length values) = k + 1 → knows c →
  wp any_failure (processStateMessage msg values) (λ _ c', knows c') c.
Proof using Type.
  intros Hlen Hk. unfold processStateMessage. wp_step. apply wp_same_points; [points_tac|]. intros t c1 H1.
  wp_step. apply wp_same_points; [points_tac|]. intros [] c2 H2. wp_step. wp_step.
  apply (knows_same _ _ H1) in Hk. apply (knows_same _ _ H2) in Hk. wp_step.
  - cbv zeta. wp_step. wp_step. wp_step. wp_step. wp_step.
    apply wp_same_points; [points_tac|]. intros [] c3 H3. wp_step.
    apply wp_same_points; [points_tac|]. intros b c4 H4. wp_step.
    apply (knows_same _ _ H4), (knows_same _ _ H3). unfold knows. simpl. lia.
  - wp_step; [|by wp_step]. apply wp_same_points; [points_tac|]. intros b c3 H3. by apply (knows_same _ _ H3).
Qed.

Lemma knows_process msg c :
  good_state k msg → knows c → wp any_failure (process_message msg) (λ _ c', knows c') c.
Proof using Type.
  intros Hgood Hk. unfold process_message. unfold good_state in Hgood.
  assert (∀ m : CM bool, keeps_points m → wp any_failure m (λ _ c', knows c') c) as Hquiet.
  { intros m Hm. apply wp_same_points; [done|]. intros b c' H. by apply (knows_same _ _ H). }
  destruct (body msg); try solve [apply Hquiet; unfold processBadPutMessage, processPenaltyMessage, processScoringMessage; points_tac].
  by apply knows_state.
Qed.

Lemma knows_processor c :
  Forall (good_state k) (popped c) → knows c → wp any_failure message_processor (λ _ c', knows c') c.
Proof using Type.
  unfold popped, message_processor. intros Hgood Hk. wp_step. wp_step. destruct (game_over c).
  { by destruct (scoring_received c); [apply wp_ret|apply wp_fail]. }
  unfold try_pop. destruct (incoming_messages c) as [|msg rest]; [by apply wp_ret|].
  apply Forall_cons in Hgood as [Hgood _]. wp_step. wp_step. destruct (first_message c).
  - wp_step. wp_step. destruct (body msg); try (by apply wp_fail). wp_step.
    apply wp_same_points; [points_tac|]. intros b c1 H1. wp_step. wp_step.
    destruct b; [apply wp_ret|by apply wp_fail]. by apply (knows_same _ _ H1).
  - wp_step. eapply wp_mono; [|by apply knows_process]. intros b c1 H1. wp_step. wp_step.
    by destruct b; [apply wp_ret|apply wp_log_stderr].
Qed.

(** ** The choice of a point *)
Hypothesis Hk : 1 ≤ k ≤ constants.max_k.

Lemma max_point_known c : knows c → max_point c ≤ k.
Proof using Hk. unfold knows, max_point. destruct (K_set c); [intros ->; [lia|done]|lia]. Qed.

Lemma auto_plan c :
  client_inv c → knows c → plan k c → wp no_failure auto_strategy (λ _ c', plan k c') c.
Proof using Hk.
  intros Hc Hkn Hplan. pose proof (max_point_known c Hkn). unfold auto_strategy. wp_step. wp_step.
  destruct (auto_at c) as [| | |i v] eqn:Hat.
  - wp_step; [by wp_step|]. unfold wait_for_puts. wp_step. wp_step. wp_step. wp_step. wp_step; [by wp_step|by wp_step].
  - wp_step. unfold increment_puts_without_answer. wp_step. wp_step. rewrite (ci_may c Hc Hat).
    change (in_sb 32 (0 + 1)) with true. cbv iota. by apply wp_modify, wp_modify.
  - wp_step. apply wp_get_best_put; [done|by apply not_first; [|congruence]|]. intros i v l [Hi _ _ _].
    apply wp_modify. intros i' v' [= <- <-]. lia.
  - wp_step. unfold send_put_message. wp_step. apply wp_log_stdout. by apply wp_modify, wp_modify.
Qed.

(** ** Every step *)
Record careful (all : list (option Message)) (c : Client) : Prop := {
  ca_knows : knows c;
  ca_plan : plan k c;
  ca_puts : Forall (good_put k) (messages_of all) }.

Lemma event_careful e c c' all ms now :
  client_inv c → is_auto_strategy c = true → run_event e c = Ret (tt, c') → tallied e c c' ms now →
  Forall (good_state k) now → careful all c → careful (all ++ ms) c'.
Proof using Hk.
  intros Hc Ha Hr Ht Hnow [Hkn Hplan Hputs]. pose proof (run_event_ret e c c' Hc Hr) as Hstep. split.
  - assert (e = Processor ∨ e ≠ Processor) as [->|He] by (destruct e; [by left|by right..]).
    + rewrite (td_now _ _ _ _ _ Ht eq_refl) in Hnow. by apply (wp_elim _ _ _ _ _ _ (knows_processor c Hnow Hkn) Hr).
    + eapply knows_same; [|exact Hkn]. exact (wp_elim _ _ _ _ _ _ (points_event e He c) Hr).
  - assert (bystander e → plan k c') as Hby.
    { intros He. destruct (wp_elim _ _ _ _ _ _ (bystander_turn e He c) Hr) as (_ & Hat & _). unfold plan. by rewrite Hat. }
    destruct e as [| | | | |input]; try (by apply Hby); cbn [run_event] in Hr.
    + destruct (wp_elim _ _ _ _ _ _ (message_processor_run c Hc) Hr) as [[_ (_ & Hat & _) _ _] _].
      unfold plan. by rewrite Hat.
    + unfold mbind, M_bind, get_state in Hr. rewrite Ha in Hr.
      exact (wp_elim _ _ _ _ _ _ (auto_plan c Hc Hkn Hplan) Hr).
  - unfold messages_of. rewrite omap_app. apply Forall_app. split; [done|].
    destruct (tallied_queued e c c' ms now Hc Ha Hr Ht) as [->| ->]; [done|].
    apply Forall_forall. intros m (om & Hin & ->)%list_elem_of_omap.
    by destruct (queued_put k c _ Hc (proj2 Hk) Hplan Hin) as (msg & [= ->] & _ & ?).
Qed.

Lemma new_client_careful name server_ip server_port garbage :
  careful [] (new_client name true server_ip server_port garbage).
Proof using Type. split; [done|done|constructor]. Qed.
Lemma hello_careful all c c' :
  send_hello_message c = Ret (tt, c') → careful all c → careful (all ++ [HelloMessage_createMessage (player_id c)]) c'.
Proof using Type.
  intros Hr [H1 H2 H3]. injection Hr as <-. split; [done|done|]. unfold messages_of. rewrite omap_app.
  apply Forall_app. split; [done|]. pose proof (hello_no_put (player_id c)) as Hno. unfold puts_among, count in Hno.
  cbn [messages_of omap list_omap] in *. destruct (HelloMessage_createMessage _) as [m|]; [|done].
  apply Forall_singleton. unfold good_put. cbn [List.filter] in Hno. unfold put_message in Hno. by destruct (body m).
Qed.
End points.
