(* ===== verification/Game.v ===== *)
(** * The server and one automatic client as one system

    [game] is the step relation of both programs: turns of the server's loop, among any number of
    other clients, and steps of the client's threads, in any order; between them a network that
    delivers bytes late, in pieces, but in order. There is always exactly one turn: it is held by the
    client, or on its way to it, or in a PUT on its way to the server, or due at the server. *)
From Stdlib Require Import Ascii String SpecFloat.
From S2P Require Import Prelude CString Double Constants MsgParser ServerState ServerLogic Server Rules Handlers Framing Conversation.
From S2P Require Import GameInvariant EventLoop Courtesy MainLoop ServerClaims.
From S2P Require Import Client ClientValues ClientInv ClientClaims ClientHears ClientTurns ClientRange.

(** ** Records of what was done *)
Lemma sent_to_grows f t o : Accepted f ∉ o → sent_to f t `prefix_of` sent_to f (t ++ o).
Proof.
  induction o as [|x o IH] using rev_ind; intros Ho; [by rewrite app_nil_r|].
  apply not_elem_of_app in Ho as [Ho Hx]. rewrite (assoc app), sent_to_snoc.
  destruct x as [g|g b|g b|g]; [destruct (Z.eqb_spec g f) as [->|_]; [by destruct Hx; left|] |..]; try by apply IH.
  destruct (g =? f); [apply prefix_app_r|]; by apply IH.
Qed.
Lemma received_from_grows f t o : Accepted f ∉ o → received_from f t `prefix_of` received_from f (t ++ o).
Proof.
  induction o as [|x o IH] using rev_ind; intros Ho; [by rewrite app_nil_r|].
  apply not_elem_of_app in Ho as [Ho Hx]. rewrite (assoc app), received_from_snoc.
  destruct x as [g|g b|g b|g]; [destruct (Z.eqb_spec g f) as [->|_]; [by destruct Hx; left|] |..]; try by apply IH.
  destruct (g =? f); [apply prefix_app_r|]; by apply IH.
Qed.

(** A descriptor that is not accepted anew was open before. *)
Lemma use_fds_no_new f o fds fds' : use_fds fds o = Some fds' → Accepted f ∉ o → f ∈ fds' → f ∈ fds.
Proof.
  revert fds. induction o as [|x o IH]; intros fds; [by intros [= <-]|]. cbn [use_fds].
  destruct (use_fd fds x) as [fds1|] eqn:Hx; [|done]. cbn [mbind option_bind]. intros Hu Ho Hf.
  apply not_elem_of_cons in Ho as [Hne Ho]. pose proof (IH fds1 Hu Ho Hf) as Hin. clear IH.
  destruct x as [g|g b|g b|g]; simpl in Hx; destruct (decide (g ∈ fds)); try done; injection Hx as <-; [|done..|].
  - apply elem_of_union in Hin as [->%elem_of_singleton|]; done.
  - by apply elem_of_difference in Hin as [? _].
Qed.

(** Messages are told by their bytes. *)
Lemma made_unique ms ms' :
  Forall made ms → Forall made ms' → concat (map raw_message ms) = concat (map raw_message ms') → ms = ms'.
Proof.
  intros (ls & Hf & Hr)%frames_of_messages (ls' & Hf' & Hr')%frames_of_messages He.
  rewrite He, Hf' in Hf. injection Hf as <-. congruence.
Qed.
Lemma messages_in_made ms : Forall made ms → messages_in (concat (map raw_message ms)) = ms.
Proof.
  intros (ls & Hf & Hr)%frames_of_messages. unfold messages_in. rewrite Hf. by apply read_lines_messages.
Qed.

(** In the conversation of the server, the messages that give the turn are the answers that the
    client counts. *)
Lemma script_answers over cs ms taken now :
  script over cs ms → taken ++ now `prefix_of` ms → (length now ≤ 1)%nat →
  answered (bool_decide (taken = [])) now = Z.of_nat (count turn_message now).
Proof.
  intros (first & replies & last & -> & Hf & Hrep & Hlast) [rest Hp] Hlen.
  destruct now as [|m [|]]; [done| |simpl in Hlen; lia]. unfold answered, is_answer, count, turn_message. simpl.
  destruct taken as [|x taken]; rewrite <-?(assoc app) in Hp; simpl in Hp; injection Hp as -> Hp.
  - rewrite bool_decide_true by done. unfold is_coeff in Hf. by rewrite Hf.
  - rewrite bool_decide_false by done.
    assert (m ∈ replies ++ last) as Hin by (rewrite Hp; set_solver).
    apply elem_of_app in Hin as [Hin|Hin].
    + rewrite Forall_forall in Hrep. specialize (Hrep m Hin). unfold reply in Hrep. by destruct (body m).
    + destruct over; [|subst last; by apply not_elem_of_nil in Hin]. destruct Hlast as (m' & -> & ids & scores & Hb).
      apply list_elem_of_singleton in Hin as ->. by rewrite Hb.
Qed.

(** The turns of a conversation: one COEFF, and the answers. *)
Definition state_message (m : Message) : bool := match body m with StateMessage _ => true | _ => false end.
Definition coeff_message (m : Message) : bool := match body m with CoeffMessage _ => true | _ => false end.
Lemma count_turns ms :
  count turn_message ms = (count coeff_message ms + count bad_put_message ms + count state_message ms)%nat.
Proof.
  unfold count. induction ms as [|m ms IH]; [done|]. cbn [List.filter].
  unfold turn_message, coeff_message, bad_put_message, state_message in *.
  destruct (body m); cbn [length]; lia.
Qed.
Lemma script_coeffs over cs ms : script over cs ms → count coeff_message ms = 1%nat.
Proof.
  intros (first & replies & last & -> & Hf & Hr & Hl).
  assert (∀ l, Forall (λ m, coeff_message m = false) l → count coeff_message l = 0%nat) as Hno.
  { unfold count. induction 1 as [|m l Hm _ IH]; [done|]. cbn [List.filter]. by rewrite Hm. }
  change (first :: replies ++ last) with ([first] ++ replies ++ last). rewrite !count_app, (Hno replies), (Hno last).
  - unfold is_coeff in Hf. unfold count, coeff_message. simpl. by rewrite Hf.
  - destruct over; [|by subst last]. destruct Hl as (m & -> & ids & scores & Hb). apply Forall_singleton.
    unfold coeff_message. by rewrite Hb.
  - eapply Forall_impl; [exact Hr|]. unfold reply, coeff_message. intros m. by destruct (body m).
Qed.

(** ** The system *)
Section game.
Context (s0 : Server) (f : Z) (name server_ip : str) (server_port garbage : Z).

(** The state of the server and of the client on [f], the bytes that the client has read, and whether
    it has queued its HELLO. The client was accepted when no answer was due that was meant for a former client
    with its descriptor, address and port. It reads what the server has sent, the server receives what the
    client has written, and the descriptor is not given to another client meanwhile. *)
Inductive game : Server → Client → str → bool → Prop :=
  | game_start s :
      served undue s0 f s → received_from f (trace s) = [] → sent_to f (trace s) = [] →
      game s (new_client name true server_ip server_port garbage) [] false
  | game_server s c r g t s' o :
      game s c r g → kernel_ok t s → run_turn t s = Ret (tt, s') →
      trace s' = trace s ++ o → Accepted f ∉ o → received_from f (trace s') `prefix_of` written c →
      game s' c r g
  | game_client s c r g e c' :
      game s c r g → run_event e c = Ret (tt, c') → r ++ received [e] `prefix_of` sent_to f (trace s) →
      game s c' (r ++ received [e]) g
  | game_hello s c r c' :
      game s c r false → send_hello_message c = Ret (tt, c') → game s c' r true.

Hypothesis H0 : inv s0.
Hypothesis Hfds0 : fds_open s0.

Record joint (s : Server) (c : Client) (r : str) (g : bool) : Prop := {
  jo_reach : served undue s0 f s;
  jo_polite : polite f (trace s);
  jo_heard : r `prefix_of` sent_to f (trace s);
  jo_read : received_from f (trace s) `prefix_of` written c;
  jo_name : player_id c = name;
  jo_count : ∃ all R taken, tally r all R taken c ∧ (g = true → HelloMessage_createMessage name ∈ all) ∧
    (is_Some (players s !! f) → even all taken c ∧ careful (K s) all c) }.

Lemma reach_inv s : served undue s0 f s → inv s.
Proof using H0. intros Hr. by eapply (reachable_inv s0), served_reachable. Qed.
Lemma reach_fds s : served undue s0 f s → fds_open s.
Proof using H0 Hfds0. intros Hr. by eapply (reachable_fds s0), served_reachable. Qed.
Lemma reach_talks s : served undue s0 f s → talks (eq f) s.
Proof using H0. intros Hr. apply (served_talks s0); [done|]. eapply served_weaken; [apply undue_unanswered|done]. Qed.

(** What the server has said to the client while it is connected. *)
Lemma joint_said s c r g p :
  joint s c r g → player_of s f p →
  ∃ ms handled, Conversation.said s f p = concat (map raw_message ms) ∧ Forall made ms ∧
    fair s f p handled [] ∧ count turn_message ms = (puts_of handled + turn_of p)%nat ∧
    Forall (good_state (K s)) ms ∧ (ms = [] ∨ script (stopping s) (coefficients p) ms).
Proof using H0.
  intros [Hr Hpol _ _ _ _] Hp.
  destruct (served_courteous s0 f s H0 Hr f p eq_refl Hp Hpol) as [handled Hf].
  pose proof Hf as [_ (ms & Hs & Hmade & _ & Hc & Hst & _) _ _ _]. exists ms, handled. do 5 (split; [done|]).
  pose proof (talks_said s (reach_talks s Hr) f p eq_refl Hp) as Ht. unfold conversation in Ht.
  destruct (is_known p); [right|left].
  - destruct Ht as (ms' & Hmade' & Hsc & Hs'). by rewrite (made_unique ms ms') by congruence.
  - apply made_unique; [done|done|]. simpl. congruence.
Qed.

(** The messages that the client has taken are the first of what the server said. *)
Lemma taken_prefix s p r R taken c ms :
  Conversation.said s f p = concat (map raw_message ms) → Forall made ms → r `prefix_of` sent_to f (trace s) →
  R `prefix_of` r → takes R taken c → taken `prefix_of` ms.
Proof using Type.
  intros Hs Hmade Hr HR [_ Hl _].
  assert (R `prefix_of` concat (map raw_message ms)) as Hp.
  { rewrite <-Hs. etrans; [exact HR|]. etrans; [exact Hr|]. unfold Conversation.said. by apply prefix_app_r. }
  destruct (frames_of_prefix _ _ Hmade Hp) as (ms1 & Hms1 & Hp1). apply read_lines_messages in Hms1.
  rewrite Hl in Hms1. subst ms1. etrans; [|exact Hp1]. by apply prefix_app_r.
Qed.

(** ** The server's turns *)
Lemma joint_server s c r g t s' o :
  joint s c r g → kernel_ok t s → run_turn t s = Ret (tt, s') →
  trace s' = trace s ++ o → Accepted f ∉ o → received_from f (trace s') `prefix_of` written c → joint s' c r g.
Proof using H0 Hfds0.
  intros [Hr Hpol Hheard Hread Hname (all & R & taken & Ht & Hg & Hcount)] Henv Hrun Htr Ho Hw.
  assert (served undue s0 f s') as Hr'.
  { eapply served_turn; [done..|]. intros (o' & Ho' & Hin). rewrite Ho' in Htr. apply app_inv_head in Htr. by subst o'. }
  assert (r `prefix_of` sent_to f (trace s')) as Hheard'.
  { etrans; [exact Hheard|]. rewrite Htr. by apply sent_to_grows. }
  split; try done.
  - intros t1 t2 Hsplit Ht2. rewrite Hsplit in Htr.
    apply app_eq_app in Htr as [l [[-> ->]|[Htr ->]]].
    + (* during this turn *)
      rewrite Hsplit in Hw. etrans; [apply count_prefix, lines_prefix; etrans; [|exact Hw]; by apply received_from_grows|].
      etrans; [by eapply tally_waits|]. apply count_prefix, lines_prefix. etrans; [exact Hheard|]. apply sent_to_grows.
      intros Hl. apply Ho, elem_of_app. by left.
    + apply (Hpol t1 l Htr). intros Hl. apply Ht2, elem_of_app. by left.
  - exists all, R, taken. split; [done|]. split; [done|]. intros Hs'.
    destruct (run_turn_rules _ _ _ Hrun) as (HK & _). rewrite HK. apply Hcount.
    apply elem_of_dom. apply elem_of_dom in Hs'. pose proof (reach_fds s Hr) as Hfd. pose proof (reach_fds s' Hr') as Hfd'.
    unfold fds_open in Hfd, Hfd'. rewrite Htr, use_fds_app, Hfd in Hfd'. by eapply use_fds_no_new.
Qed.

(** ** The client's steps *)
Lemma joint_waits s c r g e p all R taken R' now c' :
  joint s c r g → player_of s f p → r ++ received [e] `prefix_of` sent_to f (trace s) →
  tally r all R taken c → even all taken c →
  R' `prefix_of` r ++ received [e] → takes R' (taken ++ now) c' → (length now ≤ 1)%nat →
  answer_processed e c = answered (first_message c) now →
  answered (first_message c) now = Z.of_nat (count turn_message now) ∧ (answer_processed e c = 1 → balance c = 1) ∧
  Forall (good_state (K s)) now.
Proof using H0.
  intros Hj Hp Hheard Ht Heven HR' Htk Hone Hans. destruct (joint_said s c r g p Hj Hp) as (ms & handled & Hs & Hmade & Hf & Hc & Hst & Hsc).
  pose proof (taken_prefix s p _ R' (taken ++ now) c' ms Hs Hmade Hheard HR' Htk) as Hpre.
  assert (Forall (good_state (K s)) now) as Hnow.
  { destruct Hpre as [rest ->]. by apply Forall_app in Hst as [[_ ?]%Forall_app _]. }
  assert (answered (first_message c) now = Z.of_nat (count turn_message now)) as Hturn.
  { rewrite (tk_first _ _ _ (ta_takes _ _ _ _ _ Ht)). destruct Hsc as [->|Hsc]; [|by eapply script_answers].
    apply prefix_nil_inv, app_nil in Hpre as [_ ->]. done. }
  split; [done|]. split; [|done]. intros H1. pose proof (count_prefix turn_message _ _ Hpre) as Hle. rewrite count_app, Hc in Hle.
  assert (puts_of handled ≤ puts_among all)%nat as Hputs.
  { etrans; [|by eapply tally_written]. etrans; [|apply count_prefix, lines_prefix, Hj].
    unfold messages_in. rewrite (fair_lines _ _ _ _ _ Hf). cbn [fst]. rewrite messages_of_lines_app, count_app.
    unfold puts_of. lia. }
  assert (turn_of p ≤ 1)%nat by (unfold turn_of; destruct (can_put p); lia).
  pose proof (balance_range c (ta_inv _ _ _ _ _ Ht)). unfold even in Heven. lia.
Qed.

Lemma joint_client s c r g e c' :
  joint s c r g → run_event e c = Ret (tt, c') → r ++ received [e] `prefix_of` sent_to f (trace s) →
  joint s c' (r ++ received [e]) g.
Proof using H0.
  intros Hj Hrun Hheard. pose proof Hj as [Hr Hpol _ Hread Hname (all & R & taken & Ht & Hg & Heven)].
  pose proof (run_event_ret e c c' (ta_inv _ _ _ _ _ Ht) Hrun) as Hstep.
  destruct (event_tally e r all R taken c c' Ht Hrun) as (ms & R' & now & Ht' & Htd).
  split; try done.
  - etrans; [exact Hread|]. by eapply step_written.
  - rewrite <-Hname. apply Hstep.
  - exists (all ++ ms), R', (taken ++ now). split; [done|]. split; [intros ->; apply elem_of_app; left; auto|].
    intros [p Hp]. destruct (Heven ltac:(by eexists)) as [Hev Hcare].
    destruct (joint_waits s c r g e p all R taken R' now c') as (Hturn & Hwait & Hst); try done; first [apply Ht'|apply Htd|idtac].
    split; [eapply event_even; [apply Ht|apply Ht|done..]|].
    eapply (event_careful (K s)); [apply inv_K, (reach_inv s Hr)|apply Ht|apply Ht|done..].
Qed.

Lemma joint_hello s c r c' : joint s c r false → send_hello_message c = Ret (tt, c') → joint s c' r true.
Proof using Type.
  intros [Hr Hpol Hheard Hread Hname (all & R & taken & Ht & _ & Heven)] Hrun.
  destruct (hello_tally r all R taken c c' Ht Hrun) as [Ht' Hbal]. rewrite Hname in Ht'.
  injection Hrun as <-. split; try done. eexists _, R, taken. split; [exact Ht'|]. split.
  - intros _. apply elem_of_app. right. by apply list_elem_of_singleton.
  - intros Hs. destruct (Heven Hs) as [Hev Hcare].
    split; [unfold even in *; rewrite puts_among_app, hello_no_put, Hbal; lia|]. rewrite <-Hname. by eapply hello_careful.
Qed.

Lemma joint_start s :
  served undue s0 f s → received_from f (trace s) = [] → sent_to f (trace s) = [] →
  joint s (new_client name true server_ip server_port garbage) [] false.
Proof using Type.
  intros Hr Hrec Hsent. split; try done.
  - intros t1 t2 Ht Ho. rewrite Ht in Hrec. pose proof (received_from_grows f t1 t2 Ho) as Hp. rewrite Hrec in Hp.
    apply prefix_nil_inv in Hp as ->. apply Nat.le_0_l.
  - by apply prefix_nil.
  - rewrite Hrec. apply prefix_nil.
  - exists [], [], []. split; [apply new_client_tally|]. split; [done|]. intros _.
    split; [done|apply new_client_careful].
Qed.

Lemma game_joint s c r g : game s c r g → joint s c r g.
Proof using H0 Hfds0.
  induction 1 as [s Hr Hrec Hsent|s c r g t s' o _ IH Henv Hrun Htr Ho Hw|s c r g e c' _ IH Hrun Hheard|s c r c' _ IH Hrun].
  - by apply joint_start.
  - by eapply joint_server.
  - by eapply joint_client.
  - by eapply joint_hello.
Qed.

(** ** The one turn *)

(** PUTs that are on their way: in what the client has written or is about to write, and not handled
    by the server; and turns that are on their way: in what the server has sent or queued, and not
    taken by the client's processor. *)
Definition puts_handled (s : Server) : Z :=
  Z.of_nat (puts_in (received_from f (trace s))) - Z.of_nat (puts_of (fst (all_frames (client_buffer s f)))).
Definition puts_on_way (s : Server) (c : Client) : Z := Z.of_nat (puts_in (said c)) - puts_handled s.
Definition turns_taken (c : Client) (r : str) : Z :=
  Z.of_nat (turns_in r) - Z.of_nat (count turn_message (incoming_messages c)).
Definition turns_on_way (s : Server) (p : PlayerInfo) (c : Client) (r : str) : Z :=
  Z.of_nat (turns_in (Conversation.said s f p)) - turns_taken c r.
(** The client is deciding on a PUT, or may do so. *)
Definition turn_of_client (c : Client) : Z := 1 - balance c.
(** The server waits for HELLO, or has an answer due. *)
Definition turn_of_server (p : PlayerInfo) : Z := if can_put p then 0 else 1.

Lemma one_token s c r g p :
  game s c r g → player_of s f p → game_over c = false →
  turn_of_client c + puts_on_way s c + turn_of_server p + turns_on_way s p c r = 1 ∧
  0 ≤ turn_of_client c ∧ 0 ≤ puts_on_way s c ∧ 0 ≤ turns_on_way s p c r.
Proof using H0 Hfds0.
  intros Hgame Hp Hover. apply game_joint in Hgame as Hj.
  destruct (joint_said s c r g p Hj Hp) as (ms & handled & Hs & Hmade & Hf & Hc & _).
  destruct Hj as [_ _ Hheard Hread _ (all & R & taken & Ht & _ & Heven)]. destruct (Heven ltac:(by eexists)) as [Hev _]. clear Heven.
  pose proof (ta_all_bytes _ _ _ _ _ Ht Hover) as ->. pose proof (ta_takes _ _ _ _ _ Ht) as Htk.
  pose proof (balance_range c (ta_inv _ _ _ _ _ Ht)) as Hbal.
  assert (puts_in (said c) = puts_among all) as Hsaid.
  { rewrite (st_said _ _ (ta_streams _ _ _ _ _ Ht) Hover), bytes_of_messages. unfold puts_in.
    by rewrite messages_in_made by apply (ta_made _ _ _ _ _ Ht). }
  assert (turns_in (Conversation.said s f p) = count turn_message ms) as Hturns
    by (unfold turns_in; by rewrite Hs, messages_in_made).
  assert (turns_in r = count turn_message taken + count turn_message (incoming_messages c))%nat as Hr
    by (unfold turns_in, messages_in; by rewrite (tk_lines _ _ _ Htk), count_app).
  assert (puts_in (received_from f (trace s)) = puts_of handled + puts_of (fst (all_frames (client_buffer s f))))%nat as Hrec.
  { unfold puts_in, messages_in. rewrite (fair_lines _ _ _ _ _ Hf). cbn [fst].
    by rewrite messages_of_lines_app, count_app. }
  assert (puts_of handled ≤ puts_among all)%nat as Hle.
  { pose proof (tally_written _ _ _ _ _ Ht). pose proof (count_prefix put_message _ _ (lines_prefix _ _ Hread)).
    unfold puts_in in *. lia. }
  pose proof (count_prefix turn_message _ _ (taken_prefix s p r r taken c ms Hs Hmade Hheard (reflexivity _) Htk)).
  unfold turn_of_client, puts_on_way, puts_handled, turns_on_way, turns_taken, turn_of_server, turn_of, even in *.
  rewrite Hsaid, Hturns, Hr, Hrec. destruct (can_put p); lia.
Qed.

(** ** Every PUT is accepted *)
(** The server reads what the client has queued, from the start. *)
Lemma handled_queued s c all handled p :
  fair s f p handled [] → received_from f (trace s) `prefix_of` written c → streams all c →
  Forall made (messages_of all) → messages_of_lines handled `prefix_of` messages_of all.
Proof using Type.
  intros Hf Hread Hs Hmade.
  assert (received_from f (trace s) `prefix_of` concat (map raw_message (messages_of all))) as Hpre.
  { rewrite <-bytes_of_messages. etrans; [exact Hread|]. etrans; [|apply Hs]. by apply prefix_app_r. }
  destruct (frames_of_prefix _ _ Hmade Hpre) as (ms & Hms%read_lines_messages & Hp).
  rewrite (fair_lines _ _ _ _ _ Hf) in Hms. cbn [fst] in Hms. rewrite messages_of_lines_app in Hms.
  etrans; [|exact Hp]. rewrite <-Hms. by apply prefix_app_r.
Qed.

(** The rules are those of the start, and no more puts count than the game has. *)
Lemma reach_rules s : served undue s0 f s → same_rules s0 s.
Proof using Type.
  intros Hr%served_reachable. revert Hr. unfold same_rules. induction 1 as [|s t s' _ IH _ (-> & -> & ->)%run_turn_rules]; done.
Qed.
Lemma puts_limited s p :
  inv s → player_of s f p → if stopping s then correct_puts p ≤ M_ s else correct_puts p < M_ s.
Proof using Type.
  intros [Hi Htot] Hp. unfold total_ok in Htot. rewrite (inv_total s Hi) in Htot.
  assert (correct_puts p ≤ sum_puts (players s)).
  { eapply sum_puts_le; [|exact Hp]. intros f' p' Hp'. by eapply puts_nonneg, (inv_numbers s Hi). }
  destruct (stopping s); lia.
Qed.

Lemma game_accepted s c r g p :
  game s c r g → player_of s f p →
  puts_handled s = correct_puts p ∧ penalty p = dzero ∧
  Forall (λ e, gives_state (snd e)) (answers_due f p (events s)) ∧
  ∃ ms, Conversation.said s f p = concat (map raw_message ms) ∧ Forall made ms ∧
    count bad_put_message ms = 0%nat ∧ count penalty_message ms = 0%nat ∧ Forall (good_state (K s)) ms ∧
    (is_known p = true → 1 + Z.of_nat (count state_message ms) = correct_puts p + Z.of_nat (turn_of p)).
Proof using H0 Hfds0.
  intros Hgame Hp. apply game_joint in Hgame as Hj.
  destruct (joint_said s c r g p Hj Hp) as (ms & handled & Hs & Hmade & Hf & Hturns & Hst & Hsc).
  destruct Hj as [Hr _ _ Hread _ (all & R & taken & Ht & _ & Hcount)]. destruct (Hcount ltac:(by eexists)) as [_ Hcare].
  assert (in_range (K s) handled) as Hin.
  { destruct (handled_queued s c all handled p Hf Hread (ta_streams _ _ _ _ _ Ht) (ta_made _ _ _ _ _ Ht)) as [rest He].
    pose proof (ca_puts _ _ _ Hcare) as Hgood. rewrite He in Hgood. by apply Forall_app in Hgood as [? _]. }
  destruct (fair_paid _ _ _ _ _ Hf Hin) as [Hputs Hpen Hdue].
  destruct (fair_said _ _ _ _ _ Hf) as (ms' & Hs' & Hmade' & Hnopen & _ & _ & Hbad).
  rewrite (made_unique ms' ms) in * by congruence. specialize (Hbad Hin).
  split; [|split; [done|split; [done|]]].
  - unfold puts_handled, puts_in, messages_in. rewrite (fair_lines _ _ _ _ _ Hf), Hputs. cbn [fst].
    rewrite messages_of_lines_app, count_app. unfold puts_of. simpl. lia.
  - exists ms. do 5 (split; [done|]). intros Hk. destruct Hsc as [->|Hsc].
    + pose proof (talks_said s (reach_talks s Hr) f p eq_refl Hp) as Hconv. unfold conversation in Hconv. rewrite Hk in Hconv.
      destruct Hconv as (ms1 & Hmade1 & (first & replies & last & -> & _) & Hs1).
      rewrite Hs in Hs1. by pose proof (made_unique [] _ Hmade Hmade1 Hs1).
    + rewrite count_turns, (script_coeffs _ _ _ Hsc), Hbad in Hturns. lia.
Qed.

(** Everything that was said on either side has arrived and was processed. *)
Record delivered (s : Server) (p : PlayerInfo) (c : Client) (r : str) : Prop := {
  dl_queue : messages p = [];
  dl_heard : r = sent_to f (trace s);
  dl_read : received_from f (trace s) = written c;
  dl_lines : fst (all_frames (client_buffer s f)) = [];
  dl_incoming : incoming_messages c = [];
  dl_outgoing : outgoing_messages c = [];
  dl_sending : sending c = [] }.

Lemma delivered_turn s c r g p :
  game s c r g → player_of s f p → game_over c = false → delivered s p c r → balance c = if can_put p then 0 else 1.
Proof using H0 Hfds0.
  intros Hg Hp Hover [Hq Hh Hr Hl Hi Ho Hs]. destruct (one_token s c r g p Hg Hp Hover) as [Hsum _].
  assert (said c = written c) as Hsaid by (unfold said, outgoing; by rewrite Ho, Hs, app_nil_r).
  assert (Conversation.said s f p = r) as Hheard by (unfold Conversation.said; by rewrite Hq, app_nil_r, Hh).
  unfold turn_of_client, puts_on_way, puts_handled, turns_on_way, turns_taken, turn_of_server in Hsum.
  rewrite Hsaid, Hheard, Hr, Hl, Hi in Hsum. change (puts_of []) with 0%nat in Hsum.
  change (count turn_message []) with 0%nat in Hsum. destruct (can_put p); lia.
Qed.

(** The HELLO has arrived with the rest. *)
Lemma delivered_known s c r p :
  game s c r true → player_of s f p → game_over c = false → delivered s p c r → player_name name → is_known p = true.
Proof using H0 Hfds0.
  intros Hgame Hp Hover [Hq Hh Hr Hl Hi Ho Hs] Hname. apply game_joint in Hgame as Hj.
  destruct (joint_said s c r true p Hj Hp) as (ms & handled & _ & _ & Hf & _).
  destruct Hj as [_ _ _ _ _ (all & R & taken & Ht & Hhello & _)]. specialize (Hhello eq_refl).
  destruct (is_known p) eqn:Hk; [done|]. destruct (fair_unknown _ _ _ _ _ Hf Hk) as [_ ->].
  pose proof (fair_lines _ _ _ _ _ Hf) as Hlines. rewrite Hl, Hr in Hlines.
  assert (written c = bytes_of all) as Hw.
  { rewrite <-(st_said _ _ (ta_streams _ _ _ _ _ Ht) Hover). unfold said, outgoing. by rewrite Ho, Hs, app_nil_r. }
  assert (messages_of all = []) as Hnil.
  { rewrite <-(messages_in_made (messages_of all)) by apply (ta_made _ _ _ _ _ Ht).
    unfold messages_in. by rewrite <-bytes_of_messages, <-Hw, Hlines. }
  destruct (hello_message_roundtrip name Hname) as (m & Hm & _). rewrite Hm in Hhello.
  assert (m ∈ messages_of all) as Hin by (apply list_elem_of_omap; by exists (Some m)).
  rewrite Hnil in Hin. by apply not_elem_of_nil in Hin.
Qed.
End game.
