(* ===== verification/GameClaims.v ===== *)
(** * The server and its clients together

    What every client hears from the server over a whole game, what the server does with its
    descriptors, what a client makes of what it hears, that the server and an automatic client
    play by the rules together, and that their game always has exactly one turn, never gets
    stuck, and every PUT is accepted. *)
From Stdlib Require Import Ascii String SpecFloat.
From S2P Require Import Prelude CString Double Constants MsgParser ServerState ServerLogic Server Handlers Framing Conversation.
From S2P Require Import GameInvariant EventLoop Courtesy MainLoop ServerClaims.
From S2P Require Import Client ClientValues ClientInv ClientClaims ClientHears ClientTurns ClientRange Game.

(** ** Descriptors *)

(** C16: the server never sends on a descriptor that is closed, never closes one twice, and is
    never given one it still uses: its whole history of accepting, sending and closing, from its
    start and over any number of games, is one of proper use. After every turn the descriptors that
    are open are exactly those it polls besides the listening socket, so none is leaked. *)
Theorem descriptors_used_properly k n m file listening_fd time s :
  config_ok k n m file listening_fd →
  reachable (initial_server k n m file listening_fd time) s →
  use_fds ∅ (trace s) = Some (list_to_set (map fd (tail (poll_fds s)))).
Proof.
  intros Hc Hr. pose proof (initial_inv k n m file listening_fd time Hc) as H0.
  rewrite (reachable_fds _ _ H0 (initial_fds _ _ _ _ _ _) Hr). f_equal.
  destruct (inv_sockets s (proj1 (reachable_inv _ _ H0 Hr))) as [_ _ _ Hps].
  apply set_eq. intros f. rewrite elem_of_dom, elem_of_list_to_set, Hps. by destruct (poll_fds s).
Qed.
Lemma descriptors_used_properly_witness :
  use_fds ∅ (trace bob_played) = Some (list_to_set (map fd (tail (poll_fds bob_played)))) ∧ trace bob_played ≠ [].
Proof.
  split; [|by vm_compute]. apply (descriptors_used_properly 5 1 3 demo_file 3 0); [apply demo_config|].
  eapply served_reachable, bob_played_served.
Defined.

(** ** Conversations *)

(** C14: what the server says to a client, in all the bytes it has sent or queued since it accepted
    the connection, provided that at that moment no answer was due that was meant for a former client
    called UNKNOWN with the same descriptor, address and port: nothing before the client's HELLO; then, one line each and each line one that
    the parser reads back as a message, a COEFF with the [N + 1] coefficients by which the player is
    scored, any number of BAD_PUT, STATE and PENALTY, and at the end of the game one SCORING, which
    is the last line. [stale_answer_before_hello] shows what happens without the proviso. *)
Theorem server_keeps_to_protocol k n m file listening_fd time s client_fd p :
  config_ok k n m file listening_fd →
  served unanswered (initial_server k n m file listening_fd time) client_fd s →
  player_of s client_fd p →
  let bytes := sent_to client_fd (trace s) ++ concat (messages p) in
  if is_known p then
    ∃ ms, bytes = concat (map raw_message ms) ∧ Forall made ms ∧ script (stopping s) (coefficients p) ms ∧
      length (coefficients p) = Z.to_nat (N s + 1)
  else bytes = [].
Proof.
  intros Hc Hr Hp. pose proof (initial_inv k n m file listening_fd time Hc) as H0.
  pose proof (talks_said s (served_talks _ _ _ H0 Hr) client_fd p eq_refl Hp) as Ht.
  assert (inv s) as Hi by (eapply (reachable_inv _ _ H0), served_reachable, Hr).
  pose proof (coefficients_length _ _ _ (inv_numbers s (proj1 Hi) client_fd p Hp)).
  unfold conversation, Conversation.said in Ht. cbv zeta. destruct (is_known p); [|done].
  destruct Ht as (ms & ? & ? & ?). by exists ms.
Qed.
Lemma server_keeps_to_protocol_witness :
  let bytes := sent_to 5 (trace bob_played) ++ concat (messages played_bob) in
  bytes = lit "COEFF 1 -2" ++ crlf ++ lit "PENALTY 2 2.0000000" ++ crlf ++
    lit "STATE 0.0000000 2.0000000 0.0000000 0.0000000 0.0000000 0.0000000" ++ crlf ∧
  if is_known played_bob then
    ∃ ms, bytes = concat (map raw_message ms) ∧ Forall made ms ∧ script (stopping bob_played) (coefficients played_bob) ms ∧
      length (coefficients played_bob) = Z.to_nat (N bob_played + 1)
  else bytes = [].
Proof.
  split; [vm_compute; reflexivity|].
  apply (server_keeps_to_protocol 5 1 3 demo_file 3 0 bob_played 5 played_bob);
    [apply demo_config| |exact played_bob_player].
  eapply served_weaken; [apply undue_unanswered|exact bob_played_served].
Defined.

(** The callbacks take a client for the one they were made for when descriptor, address, port and
    name agree; a client that has not said HELLO has the name UNKNOWN, which is a legal name. *)
Definition unknown_returns : list Turn :=
  [demo_turn bob_arrives None [POLLIN] 0;
   demo_turn AcceptNone (Some (lit "HELLO UNKNOWN" ++ crlf ++ lit "PUT 99 1" ++ crlf)) [0; POLLIN] 10;
   demo_turn AcceptNone (Some []) [0; POLLIN] 20;
   demo_turn bob_arrives None [POLLIN] 30;
   demo_turn AcceptNone None [0; 0] 1020;
   demo_turn AcceptNone None [0; POLLOUT] 1030].
Example stale_answer_before_hello :
  match run_turns unknown_returns demo_start with
  | Ret (_, s) =>
      sent_to 5 (trace s) = lit "BAD_PUT 99 1.0000000" ∧ is_known <$> players s !! 5 = Some false
  | Fail _ => False
  end.
Proof. vm_compute. by split. Qed.

(** And a player who returns under the same name from the same address and port is taken for the one who
    left: Bob, who has put nothing in this connection, gets the STATE of his former one. *)
Definition namesake_returns : list Turn :=
  [demo_turn bob_arrives None [POLLIN] 0;
   demo_turn AcceptNone (Some (lit "HELLO Bob" ++ crlf ++ lit "PUT 1 2" ++ crlf)) [0; POLLIN] 10;
   demo_turn AcceptNone (Some []) [0; POLLIN] 20;
   demo_turn bob_arrives None [POLLIN] 30;
   demo_turn AcceptNone (Some (lit "HELLO Bob" ++ crlf)) [0; POLLIN] 40;
   demo_turn AcceptNone None [0; 0] 2010].
Example stale_answer_to_namesake :
  match run_turns namesake_returns demo_start with
  | Ret (_, s) =>
      puts_in (received_from 5 (trace s)) = 0%nat ∧
      messages <$> players s !! 5 =
        Some [lit "COEFF 0.5 3" ++ crlf; lit "STATE 0.0000000 2.0000000 0.0000000 0.0000000 0.0000000 0.0000000" ++ crlf]
  | Fail _ => False
  end.
Proof. vm_compute. by split. Qed.

(** ** A client of the server *)

(** C15: a client that is connected to this server understands it. Take any state of the server,
    with any other clients, and any interleaving of the client's threads; all that is assumed is that
    what the client has read is the beginning of what was sent to it, and that when it was accepted no
    answer was due that was meant for a former client called UNKNOWN with the same descriptor, address and
    port. Then the
    messages its processor took and those still waiting are the first of the conversation; once the
    first is processed, it has the coefficients (and the degree) by which the server scores it; and
    as long as the game goes on, the processor does not end the program, and whatever arrives next
    is handed over line by line without a complaint. *)
Theorem client_understands_server k n m file listening_fd time s client_fd p
    (id_ server_ip : str) (auto : bool) (server_port garbage : Z) (before after : list Event) (c : Client) :
  config_ok k n m file listening_fd →
  served unanswered (initial_server k n m file listening_fd time) client_fd s →
  player_of s client_fd p → is_known p = true →
  received (before ++ after) `prefix_of` sent_to client_fd (trace s) →
  session before after (new_client id_ auto server_ip server_port garbage) = Ret (tt, c) →
  ∃ ms, script (stopping s) (coefficients p) ms ∧
    sent_to client_fd (trace s) ++ concat (messages p) = concat (map raw_message ms) ∧
    (∃ taken, taken ++ incoming_messages c `prefix_of` ms) ∧
    (first_message c = false → coeffs c = coefficients p ∧ N_ c = N s) ∧
    (game_over c = false →
       run_event Processor c ≠ Fail Exit ∧
       ∀ data, received (before ++ after) ++ data `prefix_of` sent_to client_fd (trace s) →
         ∃ ls rest, network_receiver (RecvData data) c = Ret (tt, after_lines ls rest c) ∧ complaints c ls = []).
Proof.
  intros Hc Hr Hp Hk Hrec Hs. pose proof (initial_inv k n m file listening_fd time Hc) as H0.
  pose proof (talks_said s (served_talks _ _ _ H0 Hr) client_fd p eq_refl Hp) as Ht.
  assert (inv s) as Hi by (eapply (reachable_inv _ _ H0), served_reachable, Hr).
  pose proof (inv_N s (proj1 Hi)) as HN.
  pose proof (coefficients_length _ _ _ (inv_numbers s (proj1 Hi) client_fd p Hp)) as Hlen.
  unfold conversation in Ht. rewrite Hk in Ht. destruct Ht as (ms & Hmade & Hscript & Hsaid).
  assert (opens_with (coefficients p) ms) as Hopens.
  { destruct Hscript as (first & replies & last & -> & Hf & _). by exists first. }
  assert (∀ b, b `prefix_of` sent_to client_fd (trace s) → b `prefix_of` concat (map raw_message ms)) as Hpre.
  { intros b Hb. rewrite <-Hsaid. unfold Conversation.said. by apply prefix_app_r. }
  pose proof (session_heard _ _ Hopens Hmade _ _ _ _ _ _ _ _ (Hpre _ Hrec) Hs) as Hh.
  destruct (heard_conversation _ _ Hopens Hmade _ _ (Hpre _ Hrec) Hh) as (H1 & H2 & H3).
  exists ms. split; [done|]. split; [exact Hsaid|]. split; [done|]. split.
  - intros Hf. specialize (H2 Hf). split; [done|].
    apply session_inv in Hs as [Hci _]; [|apply new_client_inv].
    destruct (ci_ready c Hci Hf) as (_ & -> & _). rewrite H2, Hlen. lia.
  - intros Hg. destruct (H3 Hg) as [H4 H5]. split; [done|]. intros data Hd. by apply H5, Hpre.
Qed.
Definition bob_client : Client := new_client (lit "Bob") true (lit "::1") 7 0.
Definition bob_hears : list Event :=
  [Receiver (RecvData (lit "COEFF 1 ")); Printer; Receiver (RecvData (lit "-2" ++ crlf ++ lit "PENAL")); Processor].
Definition bob_heard : Client := after_session [Sender 0 false] bob_hears bob_client.
Lemma client_understands_server_witness :
  first_message bob_heard = false ∧ game_over bob_heard = false ∧ recv_buffer bob_heard = lit "PENAL" ∧
  ∃ ms, script (stopping bob_played) (coefficients played_bob) ms ∧
    sent_to 5 (trace bob_played) ++ concat (messages played_bob) = concat (map raw_message ms) ∧
    (∃ taken, taken ++ incoming_messages bob_heard `prefix_of` ms) ∧
    (first_message bob_heard = false → coeffs bob_heard = coefficients played_bob ∧ N_ bob_heard = N bob_played) ∧
    (game_over bob_heard = false →
       run_event Processor bob_heard ≠ Fail Exit ∧
       ∀ data, received ([Sender 0 false] ++ bob_hears) ++ data `prefix_of` sent_to 5 (trace bob_played) →
         ∃ ls rest, network_receiver (RecvData data) bob_heard = Ret (tt, after_lines ls rest bob_heard) ∧
           complaints bob_heard ls = []).
Proof.
  do 3 (split; [vm_compute; reflexivity|]).
  apply (client_understands_server 5 1 3 demo_file 3 0 bob_played 5 played_bob (lit "Bob") (lit "::1") true 7 0);
    [apply demo_config| |exact played_bob_player|vm_compute; reflexivity| |vm_compute; reflexivity].
  { eapply served_weaken; [apply undue_unanswered|exact bob_played_served]. }
  exists (drop 17 (sent_to 5 (trace bob_played))). vm_compute. reflexivity.
Defined.

(** ** An automatic client of the server *)

(** The client on [client_fd] is an automatic one: whatever bytes the server has received of it at
    any time, it had written them in a session in which it read nothing but what the server had sent
    by then. *)
Definition plays_on (client_fd : Z) (name server_ip : str) (server_port garbage : Z) (t : list Output) : Prop :=
  ∀ t1 t2, t = t1 ++ t2 → Accepted client_fd ∉ t2 →
    ∃ before after c, session before after (new_client name true server_ip server_port garbage) = Ret (tt, c) ∧
      received_from client_fd t1 `prefix_of` written c ∧ received (before ++ after) `prefix_of` sent_to client_fd t1.

Lemma plays_polite client_fd name server_ip server_port garbage t :
  plays_on client_fd name server_ip server_port garbage t → polite client_fd t.
Proof.
  intros Hplays t1 t2 Ht Ho. destruct (Hplays t1 t2 Ht Ho) as (before & after & c & Hs & Hw & Hr).
  destruct (session_tally _ _ _ _ _ _ _ Hs) as (all & R & taken & Htally). apply tally_waits in Htally.
  etrans; [apply count_prefix, lines_prefix, Hw|]. etrans; [exact Htally|]. by apply count_prefix, lines_prefix.
Qed.

(** C3: the server and an automatic client play by the rules together. Among any other clients,
    which may be as rude as they like, an automatic client is never sent a PENALTY, provided that when
    it was accepted no answer was due that was meant for a former client with the same descriptor, address and
    port; each of its PUTs
    that was handled has been answered with a turn (STATE or BAD_PUT, after COEFF for the HELLO), but
    for the last one, whose answer, and no second one, is due as long as it waits. *)
Theorem automatic_client_never_penalised k n m file listening_fd time s client_fd p
    (name server_ip : str) (server_port garbage : Z) :
  config_ok k n m file listening_fd →
  served undue (initial_server k n m file listening_fd time) client_fd s →
  player_of s client_fd p → plays_on client_fd name server_ip server_port garbage (trace s) →
  ∃ ms handled, sent_to client_fd (trace s) ++ concat (messages p) = concat (map raw_message ms) ∧ Forall made ms ∧
    count penalty_message ms = 0%nat ∧
    fst (all_frames (received_from client_fd (trace s))) = handled ++ fst (all_frames (client_buffer s client_fd)) ∧
    count turn_message ms = (puts_of handled + if can_put p then 1 else 0)%nat ∧
    if is_known p && negb (can_put p)
    then ∃ e, answers_due client_fd p (events s) = [e] ∧ gives_turn client_fd p (snd e)
    else answers_due client_fd p (events s) = [].
Proof.
  intros Hc Hr Hp Hplays. pose proof (initial_inv k n m file listening_fd time Hc) as H0.
  destruct (served_courteous _ _ _ H0 Hr client_fd p eq_refl Hp (plays_polite _ _ _ _ _ _ Hplays)) as [taken [Hl (ms & Hsaid & Hmade & Hpen & Hturn & _) Hdue _ _]].
  exists ms, taken. split; [exact Hsaid|]. split; [done|]. split; [done|]. split; [by rewrite Hl|]. by split.
Qed.

(** Bob plays with the automatic strategy. *)
Definition bob_waits : list Event := [Sender 0 false; Sender 100 false].
Definition bob_puts : list Event :=
  bob_waits ++ [Receiver (RecvData (lit "COEFF 1 -2" ++ crlf)); Processor; Strategy StdinTimeout; Strategy StdinTimeout;
    Strategy StdinTimeout; Strategy StdinTimeout; Sender 0 false; Sender 100 false].
Definition bob_written : str := written (after_session [] bob_puts bob_client).
Definition auto_plays : list Turn :=
  [demo_turn AcceptNone (Some (lit "HELLO Bob" ++ crlf)) [0; POLLIN] 10;
   demo_turn AcceptNone None [0; POLLOUT] 20;
   demo_turn AcceptNone (Some (drop 11 bob_written)) [0; POLLIN] 30;
   demo_turn AcceptNone None [0; 0] 40].
Definition auto_played : Server := bob_after auto_plays.
Definition auto_bob : PlayerInfo := default demo_player (players auto_played !! 5).

Definition accepts (client_fd : Z) (o : Output) : bool := match o with Accepted f => f =? client_fd | _ => false end.
Definition plays_okb (client_fd : Z) (c0 : Client) (es : nat → list Event) (t : list Output) : bool :=
  forallb (λ n, existsb (accepts client_fd) (drop n t) ||
    match session [] (es n) c0 with
    | Ret (_, c) => bool_decide (received_from client_fd (take n t) `prefix_of` written c) &&
        bool_decide (received (es n) `prefix_of` sent_to client_fd (take n t))
    | Fail _ => false
    end) (seq 0 (S (length t))).
Lemma plays_okb_sound client_fd name server_ip server_port garbage es t :
  plays_okb client_fd (new_client name true server_ip server_port garbage) es t = true →
  plays_on client_fd name server_ip server_port garbage t.
Proof.
  unfold plays_okb. rewrite forallb_forall. intros Hok t1 t2 -> Ho.
  specialize (Hok (length t1)). rewrite take_app_length, drop_app_length in Hok.
  apply orb_true_iff in Hok as [Hacc|Hok]; [|destruct (session [] (es (length t1)) _) as [[[] c]|] eqn:Hs; [|done]|].
  - apply existsb_exists in Hacc as (o & Hin & Ha). destruct o as [f| | |]; try done. apply Z.eqb_eq in Ha as ->.
    by apply list_elem_of_In in Hin.
  - apply andb_true_iff in Hok as [H1%bool_decide_eq_true H2%bool_decide_eq_true]. by exists [], (es (length t1)), c.
  - apply in_seq. rewrite length_app. lia.
Qed.

Lemma automatic_client_never_penalised_witness :
  puts_in (received_from 5 (trace auto_played)) = 1%nat ∧
  ∃ ms handled, sent_to 5 (trace auto_played) ++ concat (messages auto_bob) = concat (map raw_message ms) ∧ Forall made ms ∧
    count penalty_message ms = 0%nat ∧
    fst (all_frames (received_from 5 (trace auto_played))) = handled ++ fst (all_frames (client_buffer auto_played 5)) ∧
    count turn_message ms = (puts_of handled + if can_put auto_bob then 1 else 0)%nat ∧
    if is_known auto_bob && negb (can_put auto_bob)
    then ∃ e, answers_due 5 auto_bob (events auto_played) = [e] ∧ gives_turn 5 auto_bob (snd e)
    else answers_due 5 auto_bob (events auto_played) = [].
Proof.
  split; [vm_compute; reflexivity|].
  apply (automatic_client_never_penalised 5 1 3 demo_file 3 0 auto_played 5 auto_bob (lit "Bob") (lit "::1") 7 0).
  - apply demo_config.
  - apply bob_after_served; [|vm_compute; reflexivity..]. repeat constructor; apply demo_turn_sends.
  - vm_compute. reflexivity.
  - apply (plays_okb_sound 5 (lit "Bob") (lit "::1") 7 0 (λ n, if (n <=? 3)%nat then bob_waits else bob_puts)).
    vm_compute. reflexivity.
Defined.

(** ** The game as a whole *)
Lemma started_game k n m file listening_fd time :
  config_ok k n m file listening_fd → let s0 := initial_server k n m file listening_fd time in
  inv s0 ∧ fds_open s0.
Proof. intros Hc. split; [by apply initial_inv|apply initial_fds]. Qed.

(** A game of Bob, move by move, with the conditions of [game] checked. *)
Inductive Move := ServerTurn (t : Turn) | ClientStep (e : Event) | SayHello.
Definition Table : Type := Server * Client * str * bool.
Definition move (client_fd : Z) (m : Move) (x : Table) : option Table :=
  let '(s, c, r, g) := x in
  match m with
  | ServerTurn t =>
      match run_turn t s with
      | Ret (_, s') =>
          let o := drop (length (trace s)) (trace s') in
          if turn_okb t s && bool_decide (trace s' = trace s ++ o) && negb (bool_decide (Accepted client_fd ∈ o)) &&
             bool_decide (received_from client_fd (trace s') `prefix_of` written c)
          then Some (s', c, r, g) else None
      | Fail _ => None
      end
  | ClientStep e =>
      match run_event e c with
      | Ret (_, c') =>
          if bool_decide (r ++ received [e] `prefix_of` sent_to client_fd (trace s))
          then Some (s, c', r ++ received [e], g) else None
      | Fail _ => None
      end
  | SayHello => if g then None else match send_hello_message c with Ret (_, c') => Some (s, c', r, true) | Fail _ => None end
  end.
Definition server_honest (m : Move) : Prop :=
  match m with ServerTurn t => sends_at_most t | _ => True end.

Lemma move_sound s0 f name server_ip server_port garbage m s c r g s' c' r' g' :
  server_honest m → move f m (s, c, r, g) = Some (s', c', r', g') →
  game s0 f name server_ip server_port garbage s c r g → game s0 f name server_ip server_port garbage s' c' r' g'.
Proof.
  destruct m as [t|e|]; intros Hh; cbn [move]; cbv zeta.
  - destruct (run_turn t s) as [[[] s1]|] eqn:Hrun; [|done]. destruct (_ && _) eqn:Hok; [|done]. intros [= <- <- <- <-] Hg.
    apply andb_true_iff in Hok as [Hok Hrd%bool_decide_eq_true]. apply andb_true_iff in Hok as [Hok Ho%negb_true_iff].
    apply andb_true_iff in Hok as [Hok Htr%bool_decide_eq_true]. apply bool_decide_eq_false in Ho.
    eapply game_server; [exact Hg|by apply turn_okb_sound|exact Hrun|exact Htr|exact Ho|exact Hrd].
  - destruct (run_event e c) as [[[] c1]|] eqn:Hrun; [|done]. case_bool_decide as Hr; [|done].
    intros [= <- <- <- <-] Hg. by eapply game_client.
  - destruct g; [done|]. intros [= <- <- <- <-] Hg. by eapply game_hello.
Qed.

Fixpoint moves (client_fd : Z) (ms : list Move) (x : Table) : option Table :=
  match ms with [] => Some x | m :: ms' => x' ← move client_fd m x; moves client_fd ms' x' end.
Lemma moves_sound s0 f name server_ip server_port garbage ms s c r g s' c' r' g' :
  Forall server_honest ms → moves f ms (s, c, r, g) = Some (s', c', r', g') →
  game s0 f name server_ip server_port garbage s c r g → game s0 f name server_ip server_port garbage s' c' r' g'.
Proof.
  intros Hh. revert s c r g. induction Hh as [|m ms Hm _ IH]; intros s c r g; [by intros [= <- <- <- <-]|].
  cbn [moves]. destruct (move f m (s, c, r, g)) as [[[[s1 c1] r1] g1]|] eqn:He; [|done]. cbn [mbind option_bind].
  intros Hms Hg. eapply IH; [exact Hms|]. by eapply move_sound.
Qed.

Definition bob_moves : list Move :=
  [SayHello; ClientStep (Sender 0 false); ClientStep (Sender 100 false);
   ServerTurn (demo_turn AcceptNone (Some (lit "HELLO Bob" ++ crlf)) [0; POLLIN] 10);
   ServerTurn (demo_turn AcceptNone None [0; POLLOUT] 20);
   ClientStep (Receiver (RecvData (lit "COEFF 1 "))); ClientStep (Receiver (RecvData (lit "-2" ++ crlf)));
   ClientStep Processor; ClientStep (Strategy StdinTimeout); ClientStep (Strategy StdinTimeout); ClientStep (Strategy StdinTimeout);
   ClientStep (Strategy StdinTimeout); ClientStep (Sender 0 false); ClientStep (Sender 100 false);
   ServerTurn (demo_turn AcceptNone (Some (drop 11 bob_written)) [0; POLLIN] 30)].
Definition bob_at (n : nat) : Table :=
  default (bob_seated, bob_client, [], false) (moves 5 (take n bob_moves) (bob_seated, bob_client, [], false)).

Lemma bob_moves_honest n : Forall server_honest (take n bob_moves).
Proof. apply Forall_take. unfold bob_moves. repeat apply Forall_cons_2; try apply Forall_nil_2; try exact I; intros ? ? ?; apply Z.le_min_r. Qed.
Definition bob_server (n : nat) : Server := (bob_at n).1.1.1.
Definition bob_plays_on (n : nat) : Client := (bob_at n).1.1.2.
Definition bob_read (n : nat) : str := (bob_at n).1.2.
Lemma bob_game n :
  bool_decide (is_Some (moves 5 (take n bob_moves) (bob_seated, bob_client, [], false))) = true →
  game demo_start 5 (lit "Bob") (lit "::1") 7 0 (bob_server n) (bob_plays_on n) (bob_read n) (bob_at n).2.
Proof.
  intros [[[[s c] r] g] Hm]%bool_decide_eq_true. unfold bob_server, bob_plays_on, bob_read, bob_at. rewrite Hm.
  eapply moves_sound; [apply (bob_moves_honest n)|exact Hm|].
  apply game_start; [apply bob_seated_served|vm_compute; reflexivity..].
Qed.

(** C4: there is exactly one turn. In every interleaving of the server's loop, of an automatic
    client's threads and of the network between them, with any other clients, once the client was
    accepted when no answer was due that was meant for a former client with the same descriptor, address and
    port, exactly one of four
    things is the case as long as the client is connected: the client has the turn; one PUT of it is
    on its way (queued, written, or received and not handled); the server owes it an answer (or waits
    for its HELLO); one message that gives it the turn is on its way. So nothing is ever answered
    twice, and no turn is lost. *)
Theorem one_turn_in_the_game k n m file listening_fd time client_fd (name server_ip : str) (server_port garbage : Z) s c r g p :
  config_ok k n m file listening_fd →
  game (initial_server k n m file listening_fd time) client_fd name server_ip server_port garbage s c r g →
  player_of s client_fd p → game_over c = false →
  let shares := [turn_of_client c; puts_on_way client_fd s c; turn_of_server p; turns_on_way client_fd s p c r] in
  Forall (λ x, x = 0 ∨ x = 1) shares ∧ foldr Z.add 0 shares = 1.
Proof.
  intros Hc Hg Hp Hover. destruct (started_game k n m file listening_fd time Hc) as (H1 & H2).
  destruct (one_token _ _ _ _ _ _ H1 H2 s c r g p Hg Hp Hover) as (Hsum & Ha & Hb & Hd).
  assert (turn_of_server p = 0 ∨ turn_of_server p = 1) as Hs by (unfold turn_of_server; destruct (can_put p); auto).
  simpl. split; [|lia]. rewrite !Forall_cons. repeat split; try done; lia.
Qed.

Definition bob_in (n : nat) : PlayerInfo := default demo_player (players (bob_server n) !! 5).
Lemma one_turn_in_the_game_witness :
  let shares := [turn_of_client (bob_plays_on 13); puts_on_way 5 (bob_server 13) (bob_plays_on 13);
    turn_of_server (bob_in 13); turns_on_way 5 (bob_server 13) (bob_in 13) (bob_plays_on 13) (bob_read 13)] in
  shares = [0; 1; 0; 0] ∧ Forall (λ x, x = 0 ∨ x = 1) shares ∧ foldr Z.add 0 shares = 1.
Proof.
  split; [vm_compute; reflexivity|].
  apply (one_turn_in_the_game 5 1 3 demo_file 3 0 5 (lit "Bob") (lit "::1") 7 0
    (bob_server 13) (bob_plays_on 13) (bob_read 13) (bob_at 13).2).
  - apply demo_config.
  - apply (bob_game 13). vm_compute. reflexivity.
  - vm_compute. reflexivity.
  - vm_compute. reflexivity.
Defined.

(** C6: the game never gets stuck, for a client that was accepted when no answer was due that was meant
    for a former client with the same descriptor, address and port. When everything that the server and an automatic client have said
    has arrived and was processed, then the client is in the game, and one side has the next move: if
    it is the client's turn, its strategy queues a PUT within four steps of its own; otherwise the client
    waits for the one answer that is due, a STATE, at the latest [max 1 delay] seconds from now. *)
Theorem game_never_stuck k n m file listening_fd time client_fd (name server_ip : str) (server_port garbage : Z) s c r p :
  config_ok k n m file listening_fd → player_name name →
  game (initial_server k n m file listening_fd time) client_fd name server_ip server_port garbage s c r true →
  player_of s client_fd p → game_over c = false → delivered client_fd s p c r →
  is_known p = true ∧
  if can_put p then
    ∃ steps c' put, (steps ≤ 4)%nat ∧ run_events (replicate steps (Strategy StdinTimeout)) c = Ret (tt, c') ∧
      outgoing_messages c' = [Some put] ∧ put_message put = true
  else
    auto_at c = Waiting ∧ puts_without_answer c = 1 ∧
    ∃ d cb, answers_due client_fd p (events s) = [(d, cb)] ∧ gives_turn client_fd p cb ∧ gives_state cb ∧
      d ≤ now s + 1000 * Z.max 1 (delay p).
Proof.
  intros Hc Hname Hg Hp Hover Hd. destruct (started_game k n m file listening_fd time Hc) as (H1 & H2).
  pose proof (delivered_turn _ _ _ _ _ _ H1 H2 s c r true p Hg Hp Hover Hd) as Hbal.
  pose proof (delivered_known _ _ _ _ _ _ H1 H2 s c r p Hg Hp Hover Hd Hname) as Hk. split; [done|].
  pose proof (game_joint _ _ _ _ _ _ H1 H2 s c r true Hg) as Hj.
  destruct (joint_said _ _ _ H1 s c r true p Hj Hp) as (ms & handled & _ & _ & Hf & _).
  destruct (game_accepted _ _ _ _ _ _ H1 H2 s c r true p Hg Hp) as (_ & _ & Hstates & _).
  destruct Hj as [Hr _ _ _ _ (all & R & taken & Ht & _)]. pose proof (ta_inv _ _ _ _ _ Ht) as Hci.
  destruct (can_put p) eqn:Hcp.
  - destruct (strategy_moves c Hci (ta_auto _ _ _ _ _ Ht) Hover Hbal) as (j & c' & put & Hj & Hrun & Ho & Hput).
    exists j, c', put. split; [done|]. split; [exact Hrun|]. by rewrite Ho, (dl_outgoing _ _ _ _ _ Hd).
  - pose proof (ci_puts c Hci). pose proof (ci_may c Hci) as Hmay. unfold balance, pending in Hbal.
    split; [destruct (auto_at c); [done|rewrite Hmay in Hbal by done; lia|lia|lia]|]. split; [destruct (auto_at c); lia|].
    pose proof (fair_due _ _ _ _ _ Hf) as Hdue. unfold due_ok in Hdue. rewrite Hk, Hcp in Hdue. destruct Hdue as ([d cb] & He & Hgt).
    rewrite He in Hstates. apply Forall_cons in Hstates as [Hstate _].
    exists d, cb. split; [done|]. split; [done|]. split; [done|].
    pose proof (inv_turn s (proj1 (reach_inv _ _ H1 s Hr)) client_fd p Hp) as Hturn. unfold turn_ok in Hturn. rewrite Hk in Hturn.
    destruct Hturn as [|(d' & cb' & Hin & Hg' & Hle)]; [congruence|].
    assert ((d', cb') ∈ answers_due client_fd p (events s)) as Hin'.
    { apply list_elem_of_filter. split; [by apply gives_turn_about|done]. }
    rewrite He in Hin'. apply list_elem_of_singleton in Hin' as [= -> ->]. exact Hle.
Qed.
Lemma game_never_stuck_witness :
  can_put (bob_in 15) = false ∧ is_known (bob_in 15) = true ∧
  if can_put (bob_in 15) then
    ∃ steps c' put, (steps ≤ 4)%nat ∧ run_events (replicate steps (Strategy StdinTimeout)) (bob_plays_on 15) = Ret (tt, c') ∧
      outgoing_messages c' = [Some put] ∧ put_message put = true
  else
    auto_at (bob_plays_on 15) = Waiting ∧ puts_without_answer (bob_plays_on 15) = 1 ∧
    ∃ d cb, answers_due 5 (bob_in 15) (events (bob_server 15)) = [(d, cb)] ∧ gives_turn 5 (bob_in 15) cb ∧ gives_state cb ∧
      d ≤ now (bob_server 15) + 1000 * Z.max 1 (delay (bob_in 15)).
Proof.
  split; [vm_compute; reflexivity|].
  apply (game_never_stuck 5 1 3 demo_file 3 0 5 (lit "Bob") (lit "::1") 7 0 (bob_server 15) (bob_plays_on 15) (bob_read 15)).
  - apply demo_config.
  - split; [done|vm_compute; reflexivity].
  - apply (bob_game 15). vm_compute. reflexivity.
  - vm_compute. reflexivity.
  - vm_compute. reflexivity.
  - split; vm_compute; reflexivity.
Defined.

(** C5: the server accepts every PUT of an automatic client. In every interleaving of the server's loop,
    of the client's threads and of the network between them, with any other clients, once the client was
    accepted when no answer was due that was meant for a former client with the same descriptor, address and
    port: each PUT of the
    client that the server has handled counts as correct, its penalty stays 0, no BAD_PUT and no
    PENALTY is ever sent to it or due, each STATE has a value for each of the [k + 1] points, there is
    one STATE for each PUT, up to the one that is due, and the game, if it is not over, has more puts
    than that. *)
Theorem every_put_accepted k n m file listening_fd time client_fd (name server_ip : str) (server_port garbage : Z) s c r g p :
  config_ok k n m file listening_fd →
  game (initial_server k n m file listening_fd time) client_fd name server_ip server_port garbage s c r g →
  player_of s client_fd p →
  let puts := puts_handled client_fd s in
  correct_puts p = puts ∧ penalty p = dzero ∧ (if stopping s then puts ≤ m else puts < m) ∧
  Forall (λ e, gives_state (snd e)) (answers_due client_fd p (events s)) ∧
  ∃ ms, sent_to client_fd (trace s) ++ concat (messages p) = concat (map raw_message ms) ∧ Forall made ms ∧
    count bad_put_message ms = 0%nat ∧ count penalty_message ms = 0%nat ∧ Forall (good_state k) ms ∧
    (is_known p = true → Z.of_nat (count state_message ms) = puts - turn_of_server p).
Proof.
  intros Hc Hg Hp. destruct (started_game k n m file listening_fd time Hc) as (H1 & H2).
  destruct (game_accepted _ _ _ _ _ _ H1 H2 s c r g p Hg Hp) as (Hputs & Hpen & Hdue & ms & Hs & Hm & Hb & Hn & Hst & Hcount).
  pose proof (jo_reach _ _ _ _ _ _ _ (game_joint _ _ _ _ _ _ H1 H2 s c r g Hg)) as Hr.
  destruct (reach_rules _ _ s Hr) as (HK & _ & HM). change (K s = k) in HK. change (M_ s = m) in HM.
  pose proof (puts_limited client_fd s p (reach_inv _ _ H1 s Hr) Hp) as Hlim. rewrite HM in Hlim.
  cbv zeta. rewrite Hputs. do 4 (split; [done|]). exists ms. rewrite HK in Hst. do 5 (split; [done|]).
  intros Hk. specialize (Hcount Hk). unfold turn_of, turn_of_server in *. destruct (can_put p); lia.
Qed.
Lemma every_put_accepted_witness :
  let puts := puts_handled 5 (bob_server 15) in
  puts = 1 ∧ correct_puts (bob_in 15) = puts ∧ penalty (bob_in 15) = dzero ∧
  (if stopping (bob_server 15) then puts ≤ 3 else puts < 3) ∧
  Forall (λ e, gives_state (snd e)) (answers_due 5 (bob_in 15) (events (bob_server 15))) ∧
  ∃ ms, sent_to 5 (trace (bob_server 15)) ++ concat (messages (bob_in 15)) = concat (map raw_message ms) ∧ Forall made ms ∧
    count bad_put_message ms = 0%nat ∧ count penalty_message ms = 0%nat ∧ Forall (good_state 5) ms ∧
    (is_known (bob_in 15) = true → Z.of_nat (count state_message ms) = puts - turn_of_server (bob_in 15)).
Proof.
  split; [vm_compute; reflexivity|].
  apply (every_put_accepted 5 1 3 demo_file 3 0 5 (lit "Bob") (lit "::1") 7 0
    (bob_server 15) (bob_plays_on 15) (bob_read 15) (bob_at 15).2).
  - apply demo_config.
  - apply (bob_game 15). vm_compute. reflexivity.
  - vm_compute. reflexivity.
Defined.
