(* ===== verification/Args.v ===== *)
(** * The command lines ([arg_parser.cpp] of the-great-approximator; [arg_parser.c] and
    [read_port] of peer-time-sync)

    [getopt] belongs to the system: a parser here is a function of what its successive calls
    return, up to the final -1, and of the arguments that are left ([argv[optind]] and on).
    [logInfo] and [printUsage] give the text that they print; [fatal] is the failure [Exit]. *)
From Stdlib Require Import Ascii String.
From S2P Require Import Prelude CString Constants MsgParser.

(** What one call of [getopt] returns, with [optarg]. *)
Record Option_ := { opt : ascii; optarg : str }.

(** ** [arg_parser.cpp] *)
Module ArgParser.
Definition parseAndValidateInt (s : str) (min max : Z) : outcome Z :=
  let '(value, endptr, range_error) := strtoul s in
  if range_error || negb (bool_decide (endptr = [])) || (value <? min) || (max <? value) then Fail Exit
  else Ret (swrap 32 value).
Definition parseAndValidatePort (s : str) (allow_zero : bool) : outcome Z :=
  value ← parseAndValidateInt s (if allow_zero then 0 else 1) (2 ^ 16 - 1);
  Ret (wrap 16 value).
(** Every branch is [fatal]. *)
Definition handle_getopt_error {A} : outcome A := Fail Exit.
End ArgParser.

Module ClientArgParser.
Import ArgParser.
Record Args := {
  player_id : str; player_id_set : bool;
  server_address : str; server_address_set : bool;
  server_port : Z; server_port_set : bool;
  force_ipv4 : bool; force_ipv6 : bool; auto_strategy : bool }.
#[global] Instance eta_Args : Eta Args := λ a,
  {| player_id := player_id a; player_id_set := player_id_set a; server_address := server_address a;
     server_address_set := server_address_set a; server_port := server_port a; server_port_set := server_port_set a;
     force_ipv4 := force_ipv4 a; force_ipv6 := force_ipv6 a; auto_strategy := auto_strategy a |}.

(** [server_port] is not initialised. *)
Definition initial (garbage : Z) : Args :=
  {| player_id := []; player_id_set := false; server_address := []; server_address_set := false;
     server_port := garbage; server_port_set := false; force_ipv4 := false; force_ipv6 := false;
     auto_strategy := false |}.

Definition parse_option (o : Option_) (a : Args) : outcome Args :=
  if bool_decide (opt o = "u"%char) then Ret (a <| player_id := optarg o |> <| player_id_set := true |>)
  else if bool_decide (opt o = "s"%char) then Ret (a <| server_address := optarg o |> <| server_address_set := true |>)
  else if bool_decide (opt o = "p"%char) then
    port ← parseAndValidatePort (optarg o) false;
    Ret (a <| server_port := port |> <| server_port_set := true |>)
  else if bool_decide (opt o = "4"%char) then Ret (a <| force_ipv4 := true |>)
  else if bool_decide (opt o = "6"%char) then Ret (a <| force_ipv6 := true |>)
  else if bool_decide (opt o = "a"%char) then Ret (a <| auto_strategy := true |>)
  else handle_getopt_error.
Fixpoint parse_options (os : list Option_) (a : Args) : outcome Args :=
  match os with [] => Ret a | o :: os' => a ← parse_option o a; parse_options os' a end.
Definition parse (os : list Option_) (a : Args) : outcome Args :=
  a ← parse_options os a;
  if force_ipv4 a && force_ipv6 a then Ret (a <| force_ipv4 := false |> <| force_ipv6 := false |>) else Ret a.

Definition validate (extra : list str) (a : Args) : outcome unit :=
  if negb (bool_decide (extra = [])) then Fail Exit
  else if negb (player_id_set a) || bool_decide (player_id a = []) then Fail Exit
  else if negb (server_address_set a) || bool_decide (server_address a = []) then Fail Exit
  else if negb (server_port_set a) then Fail Exit
  else if forallb isalnum (player_id a) then Ret tt else Fail Exit.

(** The constructor. *)
Definition create (garbage : Z) (os : list Option_) (extra : list str) : outcome Args :=
  a ← parse os (initial garbage);
  _ ← validate extra a;
  Ret a.

(** The line on the standard output. *)
Definition logInfo (a : Args) : str :=
  lit "Starting with id '" ++ player_id a ++ lit "' on server [" ++ server_address a ++ lit "]:" ++
  to_string (server_port a) ++
  (if force_ipv4 a then lit " forcing IPv4" else []) ++ (if force_ipv6 a then lit " forcing IPv6" else []) ++
  (if auto_strategy a then lit " using auto strategy" else lit " reading from stdin") ++ lit "." ++ [lf].
Definition printUsage (program : str) : str :=
  lit "Usage: " ++ program ++ lit " -u player_id -s server -p port [-4] [-6] [-a]".
End ClientArgParser.

Module ServerArgParser.
Import ArgParser.
Record Args := { port : Z; k : Z; n : Z; m : Z; file : str; file_set : bool }.
#[global] Instance eta_Args : Eta Args := λ a,
  {| port := port a; k := k a; n := n a; m := m a; file := file a; file_set := file_set a |}.
Definition initial : Args := {| port := 0; k := 100; n := 4; m := 131; file := []; file_set := false |}.

Definition parse_option (o : Option_) (a : Args) : outcome Args :=
  if bool_decide (opt o = "p"%char) then v ← parseAndValidatePort (optarg o) true; Ret (a <| port := v |>)
  else if bool_decide (opt o = "k"%char) then v ← parseAndValidateInt (optarg o) 1 constants.max_k; Ret (a <| k := v |>)
  else if bool_decide (opt o = "n"%char) then v ← parseAndValidateInt (optarg o) 1 constants.max_n; Ret (a <| n := v |>)
  else if bool_decide (opt o = "m"%char) then v ← parseAndValidateInt (optarg o) 1 constants.max_m; Ret (a <| m := v |>)
  else if bool_decide (opt o = "f"%char) then Ret (a <| file := optarg o |> <| file_set := true |>)
  else handle_getopt_error.
Fixpoint parse_options (os : list Option_) (a : Args) : outcome Args :=
  match os with [] => Ret a | o :: os' => a ← parse_option o a; parse_options os' a end.
Definition parseAndValidate (os : list Option_) (extra : list str) : outcome Args :=
  a ← parse_options os initial;
  if negb (bool_decide (extra = [])) then Fail Exit
  else if negb (file_set a) || bool_decide (file a = []) then Fail Exit
  else Ret a.

(** The line on the standard output. *)
Definition logInfo (a : Args) : str :=
  lit "Starting with port=" ++ (if port a =? 0 then lit "any" else to_string (port a)) ++
  lit ", k=" ++ to_string (k a) ++ lit ", n=" ++ to_string (n a) ++ lit ", m=" ++ to_string (m a) ++
  lit ", file='" ++ file a ++ lit "'." ++ [lf].
(** [error], with the name of the program; [fatal] follows in the callers. *)
Definition printUsage (program : str) : str :=
  lit "Usage: " ++ program ++ lit " [-p port] [-k value] [-n value] [-m value] -f file".
End ServerArgParser.

(** ** [arg_parser.c] and [read_port] of [networking.c] *)
Definition read_port (s : str) : outcome Z :=
  let '(port, endptr, range_error) := strtoul s in
  if range_error || negb (bool_decide (endptr = [])) || (2 ^ 16 - 1 <? port) then Fail Exit else Ret (wrap 16 port).

Module NodeArgs.
(** [Config], and the variables [a_provided] and [r_provided] of [parse_args]. *)
Record Config := {
  bind_address : option str; port : Z; peer_address : option str; peer_port : Z;
  a_provided : bool; r_provided : bool }.
#[global] Instance eta_Config : Eta Config := λ c,
  {| bind_address := bind_address c; port := port c; peer_address := peer_address c; peer_port := peer_port c;
     a_provided := a_provided c; r_provided := r_provided c |}.
Definition initial : Config :=
  {| bind_address := None; port := 0; peer_address := None; peer_port := 0; a_provided := false; r_provided := false |}.

Definition parse_option (o : Option_) (c : Config) : outcome Config :=
  if bool_decide (opt o = "b"%char) then Ret (c <| bind_address := Some (optarg o) |>)
  else if bool_decide (opt o = "p"%char) then v ← read_port (optarg o); Ret (c <| port := v |>)
  else if bool_decide (opt o = "a"%char) then Ret (c <| peer_address := Some (optarg o) |> <| a_provided := true |>)
  else if bool_decide (opt o = "r"%char) then
    v ← read_port (optarg o); Ret (c <| peer_port := v |> <| r_provided := true |>)
  else Fail Exit.
Fixpoint parse_options (os : list Option_) (c : Config) : outcome Config :=
  match os with [] => Ret c | o :: os' => c ← parse_option o c; parse_options os' c end.
Definition parse_args (os : list Option_) (extra : list str) : outcome Config :=
  c ← parse_options os initial;
  if negb (Bool.eqb (a_provided c) (r_provided c)) then Fail Exit
  else if r_provided c && (peer_port c =? 0) then Fail Exit
  else if negb (bool_decide (extra = [])) then Fail Exit
  else Ret c.
End NodeArgs.
