(* ===== verification/ArgsClaims.v ===== *)
(** * What the command lines let through

    The numbers that are accepted, and what the configurations that come out promise to the
    server, the client and the node that are started with them. *)
From Stdlib Require Import Ascii String.
From S2P Require Import Prelude CString Double Constants MsgParser ServerState ServerLogic Server Handlers GameInvariant EventLoop MainLoop ServerClaims Args.

(** ** Numbers *)

(** The texts that [strtoul] consumes to the end. *)
Definition number_text (s : str) (neg : bool) (ds : str) : Prop :=
  ds ≠ [] ∧ forallb isdigit ds = true ∧ ∃ blanks (sign : str), forallb isspace blanks = true ∧
    s = blanks ++ sign ++ ds ∧ (if neg then sign = [minus] else sign = [] ∨ sign = [chr 43]).

Lemma span_split {A} (p : A → bool) l a b : span p l = (a, b) → l = a ++ b ∧ forallb p a = true.
Proof. intros H. pose proof (span_app p l) as H1. pose proof (span_forall p l) as H2. by rewrite H in H1, H2. Qed.

Lemma scan_integer_sound s neg v n :
  scan_integer s = Some (neg, v, n) → drop n s = [] → ∃ ds, number_text s neg ds ∧ v = dec_value ds.
Proof.
  unfold scan_integer. destruct (span isspace s) as [blanks s1] eqn:Hs. apply span_split in Hs as [-> Hb].
  assert (∃ sign s2 ng sn, (match s1 with
    | c :: s' => if bool_decide (c = minus) then (true, 1%nat, s')
                 else if bool_decide (c = chr 43) then (false, 1%nat, s') else (false, 0%nat, s1)
    | [] => (false, 0%nat, s1) end) = (ng, sn, s2) ∧ s1 = sign ++ s2 ∧ length sign = sn ∧
    (if (ng : bool) then sign = [minus] else sign = [] ∨ sign = [chr 43])) as (sign & s2 & ng & sn & -> & -> & <- & Hsign).
  { destruct s1 as [|c s']; [by exists [], [], false, 0%nat; split; [|split; [|split; [|left]]]|].
    case_bool_decide as Hc; [subst; by exists [minus], s', true, 1%nat|].
    case_bool_decide as Hc'; [subst; exists [chr 43], s', false, 1%nat; repeat split; by right|].
    exists [], (c :: s'), false, 0%nat. repeat split. by left. }
  destruct (span isdigit s2) as [ds rest] eqn:Hd. apply span_split in Hd as [-> Hds].
  destruct ds as [|d ds]; [done|]. intros [= <- <- <-] Hdrop. exists (d :: ds). split; [|done].
  assert (rest = []) as ->.
  { apply (f_equal length) in Hdrop. rewrite length_drop, !length_app in Hdrop. simpl in Hdrop.
    destruct rest; [done|]. simpl in Hdrop. lia. }
  split; [done|]. split; [done|]. exists blanks, sign. by rewrite app_nil_r.
Qed.

Lemma digits_head_not ds c : forallb isdigit ds = true → isdigit c = false →
  match ds with d :: _ => d ≠ c | [] => True end.
Proof. destruct ds as [|d ds]; [done|]. simpl. intros [Hd _]%andb_true_iff Hc ->. congruence. Qed.

Lemma scan_integer_complete s neg ds :
  number_text s neg ds → scan_integer s = Some (neg, dec_value ds, length s).
Proof.
  intros (Hne & Hds & blanks & sign & Hb & -> & Hsign). unfold scan_integer.
  destruct ds as [|d ds]; [done|]. pose proof Hds as Hd. simpl in Hd. apply andb_true_iff in Hd as [Hd _].
  assert (isspace d = false) as Hsp by (unfold isspace, isdigit in *; lia).
  rewrite span_stop; [|done|].
  2: { destruct neg; [by subst sign|]. by destruct Hsign as [-> | ->]. }
  rewrite !length_app. destruct neg; [subst sign|destruct Hsign as [-> | ->]]; cbn [app].
  - rewrite bool_decide_eq_true_2 by done. rewrite span_all by done. f_equal. f_equal. simpl. lia.
  - rewrite !bool_decide_eq_false_2 by (by apply (isdigit_not d)). rewrite span_all by done. f_equal. f_equal. simpl. lia.
  - rewrite bool_decide_eq_false_2, bool_decide_eq_true_2 by done. rewrite span_all by done. f_equal. f_equal. simpl. lia.
Qed.

(** What [strtoul] reads of a whole text: nothing of the empty one, and a number that fits;
    a minus sign negates modulo [2^64]. *)
Definition reads_number (s : str) (v : Z) : Prop :=
  (s = [] ∧ v = 0) ∨
  ∃ neg ds, number_text s neg ds ∧ dec_value ds < 2 ^ 64 ∧ v = if neg then wrap 64 (- dec_value ds) else dec_value ds.

Lemma strtoul_spec s v : strtoul s = (v, [], false) ↔ reads_number s v.
Proof.
  unfold strtoul, reads_number. split.
  - destruct (scan_integer s) as [[[neg x] n]|] eqn:Hs; [|intros [= <- ->]; by left].
    destruct (2 ^ 64 <=? x) eqn:Hx; intros [= Hv Hd].
    destruct (scan_integer_sound s neg x n Hs Hd) as (ds & Ht & ->). right. exists neg, ds.
    split; [done|]. split; [lia|done].
  - intros [[-> ->]|(neg & ds & Ht & Hlt & ->)]; [done|]. rewrite (scan_integer_complete s neg ds Ht).
    rewrite (proj2 (Z.leb_gt _ _)) by lia. by rewrite drop_all.
Qed.

Lemma reads_number_range s v : reads_number s v → 0 ≤ v < 2 ^ 64.
Proof.
  intros [[_ ->]|(neg & ds & (_ & Hds & _) & Hlt & ->)]; [lia|].
  pose proof (digits_value_nonneg ds Hds). destruct neg; [|lia]. by apply (wrap_range 64).
Qed.

Lemma parseAndValidateInt_spec s min max v :
  0 ≤ min → max < 2 ^ 31 →
  ArgParser.parseAndValidateInt s min max = Ret v ↔ min ≤ v ≤ max ∧ reads_number s v.
Proof.
  intros Hmin Hmax. unfold ArgParser.parseAndValidateInt. destruct (strtoul s) as [[value endptr] err] eqn:Hs.
  assert (∀ x, (err = false ∧ endptr = [] ∧ value = x) ↔ reads_number s x) as Hread.
  { intros x. rewrite <-strtoul_spec, Hs. split; [by intros (-> & -> & ->)|by intros [= -> -> ->]]. }
  assert (∀ x, 0 ≤ x < 2 ^ 31 → swrap 32 x = x) as Hcast.
  { intros x Hx. apply swrap_small; [lia|]. unfold in_s. simpl. lia. }
  rewrite <-Hread. destruct err; [by split; [|intros (_ & ? & _)]|].
  case_bool_decide as He; [|by split; [|intros (_ & _ & ? & _)]]. cbn [negb orb].
  destruct (Z.ltb_spec value min); [split; [done|intros (? & _ & _ & ->); lia]|].
  destruct (Z.ltb_spec max value); [split; [done|intros (? & _ & _ & ->); lia]|].
  simpl. rewrite Hcast by lia. split; [intros [= <-]; by repeat split|]. by intros (_ & _ & _ & ->).
Qed.

Lemma parseAndValidateInt_exit s min max f : ArgParser.parseAndValidateInt s min max = Fail f → f = Exit.
Proof. unfold ArgParser.parseAndValidateInt. destruct (strtoul s) as [[]]. destruct (_ || _); congruence. Qed.

Lemma parseAndValidatePort_spec s (allow_zero : bool) v :
  ArgParser.parseAndValidatePort s allow_zero = Ret v ↔
    (if allow_zero then 0 else 1) ≤ v < 2 ^ 16 ∧ reads_number s v.
Proof.
  unfold ArgParser.parseAndValidatePort. set (min := if allow_zero then 0 else 1).
  assert (0 ≤ min) as Hmin by (by destruct allow_zero).
  pose proof (parseAndValidateInt_spec s min (2 ^ 16 - 1)) as Hspec.
  destruct (ArgParser.parseAndValidateInt s min (2 ^ 16 - 1)) as [x|f]; cbn [mbind outcome_bind].
  - destruct (proj1 (Hspec x Hmin ltac:(done)) eq_refl) as [Hx Hr].
    rewrite wrap_small by (unfold in_u; lia). split; [intros [= <-]; split; [lia|done]|].
    intros [Hv Hrv]. by rewrite (proj2 (Hspec v Hmin ltac:(done)) ltac:(split; [lia|done])).
  - split; [done|]. intros [Hv Hrv]. by rewrite (proj2 (Hspec v Hmin ltac:(done)) ltac:(split; [lia|done])).
Qed.

Lemma read_port_is_port s : read_port s = ArgParser.parseAndValidatePort s true.
Proof.
  unfold read_port, ArgParser.parseAndValidatePort, ArgParser.parseAndValidateInt.
  destruct (strtoul s) as [[value endptr] err] eqn:Hs. destruct err; [done|].
  case_bool_decide as He; [|done]. subst. apply strtoul_spec, reads_number_range in Hs. cbn [negb orb].
  rewrite (proj2 (Z.ltb_ge value 0)) by lia. cbn [orb]. destruct (Z.ltb_spec (2 ^ 16 - 1) value); [done|].
  simpl. by rewrite swrap_small by (unfold in_s; simpl; lia).
Qed.

(** Which numbers the command lines accept. [parseAndValidateInt] returns [v] exactly when
    [v] is in its range and [strtoul] reads it of the whole text: blanks, a sign and digits, where
    a minus sign stands for the negation modulo [2^64]; the empty text counts as 0. Everything
    else ends the program. [read_port] of peer-time-sync accepts the same texts as the ports
    of the-great-approximator. *)
Theorem command_line_numbers (s : str) (min max : Z) :
  0 ≤ min → max < 2 ^ 31 →
  (∀ v, ArgParser.parseAndValidateInt s min max = Ret v ↔ min ≤ v ≤ max ∧ reads_number s v) ∧
  (∀ f, ArgParser.parseAndValidateInt s min max = Fail f → f = Exit) ∧
  (∀ (allow_zero : bool) v, ArgParser.parseAndValidatePort s allow_zero = Ret v ↔
    (if allow_zero then 0 else 1) ≤ v < 2 ^ 16 ∧ reads_number s v) ∧
  read_port s = ArgParser.parseAndValidatePort s true.
Proof.
  intros Hmin Hmax. split; [|split; [|split]].
  - intros v. by apply parseAndValidateInt_spec.
  - apply parseAndValidateInt_exit.
  - intros z v. apply parseAndValidatePort_spec.
  - apply read_port_is_port.
Qed.

(** The smallest port: a negative number that the conversion wraps around. *)
Lemma command_line_numbers_witness :
  let s := lit " -18446744073709551615" in
  ArgParser.parseAndValidateInt s 1 65535 = Ret 1 ∧ reads_number s 1.
Proof.
  cbv zeta. split; [vm_compute; reflexivity|].
  apply (command_line_numbers (lit " -18446744073709551615") 1 65535); [lia|lia|vm_compute; reflexivity].
Defined.

(** ** Options *)

(** The argument of the last occurrence of an option. *)
Fixpoint last_option (c : ascii) (os : list Option_) : option str :=
  match os with
  | [] => None
  | o :: os' =>
      match last_option c os' with
      | Some s => Some s
      | None => if bool_decide (opt o = c) then Some (optarg o) else None
      end
  end.
(** [v] is what the option gives, or [v0] without it. *)
Definition given {A} (c : ascii) (os : list Option_) (reads : str → A → Prop) (v0 v : A) : Prop :=
  match last_option c os with Some s => reads s v | None => v = v0 end.

Lemma given_cons {A} c o os (reads : str → A → Prop) v0 v1 v :
  (if bool_decide (opt o = c) then reads (optarg o) v1 else v1 = v0) → given c os reads v1 v → given c (o :: os) reads v0 v.
Proof.
  unfold given. cbn [last_option]. destruct (last_option c os); [done|]. intros Hv1 ->. by case_bool_decide.
Qed.

Definition reads_within (min max : Z) (s : str) (v : Z) : Prop := reads_number s v ∧ min ≤ v ≤ max.
Definition reads_flag (s : str) (b : bool) : Prop := b = true.
Definition reads_text (s t : str) : Prop := t = s.

(** Case analysis on the tests of an option, the last goals being impossible. *)
Ltac option_cases :=
  repeat match goal with
  | H : (if bool_decide (opt ?o = ?c) then _ else _) = _ |- _ => destruct (decide (opt o = c)) as [?Heq|?Hne];
      [rewrite bool_decide_eq_true_2 in H by done|rewrite bool_decide_eq_false_2 in H by done]
  end.

Record server_given (os : list Option_) (a0 a : ServerArgParser.Args) : Prop := {
  sg_port : given "p" os (reads_within 0 (2 ^ 16 - 1)) (ServerArgParser.port a0) (ServerArgParser.port a);
  sg_k : given "k" os (reads_within 1 constants.max_k) (ServerArgParser.k a0) (ServerArgParser.k a);
  sg_n : given "n" os (reads_within 1 constants.max_n) (ServerArgParser.n a0) (ServerArgParser.n a);
  sg_m : given "m" os (reads_within 1 constants.max_m) (ServerArgParser.m a0) (ServerArgParser.m a);
  sg_file : given "f" os reads_text (ServerArgParser.file a0) (ServerArgParser.file a);
  sg_file_set : given "f" os reads_flag (ServerArgParser.file_set a0) (ServerArgParser.file_set a) }.

Lemma parse_int_within s min max x :
  0 ≤ min → max < 2 ^ 31 → ArgParser.parseAndValidateInt s min max = Ret x → reads_within min max s x.
Proof. intros Hmin Hmax [Hx Hr]%parseAndValidateInt_spec; [by split|done|done]. Qed.
Lemma parse_port_within s x : ArgParser.parseAndValidatePort s true = Ret x → reads_within 0 (2 ^ 16 - 1) s x.
Proof. intros [Hx Hr]%parseAndValidatePort_spec. split; [done|lia]. Qed.

Lemma server_option_given o os a0 a1 a :
  ServerArgParser.parse_option o a0 = Ret a1 → server_given os a1 a → server_given (o :: os) a0 a.
Proof.
  intros Ho [Hp Hk Hn Hm Hf Hfs]. unfold ServerArgParser.parse_option in Ho.
  assert (∀ (m : outcome Z) (g : Z → ServerArgParser.Args), (v ← m; Ret (g v)) = Ret a1 → ∃ v, m = Ret v ∧ a1 = g v) as Hbind.
  { intros [v|f] g; [|done]. intros [= <-]. by exists v. }
  option_cases; [apply Hbind in Ho as (v & Hv & ->)|apply Hbind in Ho as (v & Hv & ->)|apply Hbind in Ho as (v & Hv & ->)|
    apply Hbind in Ho as (v & Hv & ->)|injection Ho as <-|done].
  all: try (apply parse_port_within in Hv); try (apply parse_int_within in Hv; [|done|done]).
  all: split; eapply given_cons; try eassumption; rewrite Heq; simpl; try done.
Qed.

Lemma server_options_given os a0 a : ServerArgParser.parse_options os a0 = Ret a → server_given os a0 a.
Proof.
  revert a0. induction os as [|o os IH]; intros a0; cbn [ServerArgParser.parse_options]; [by intros [= <-]|].
  destruct (ServerArgParser.parse_option o a0) as [a1|] eqn:Ho; [|done]. intros Hr.
  eapply server_option_given; [exact Ho|by apply IH].
Qed.

Lemma given_within c os min max v0 v : given c os (reads_within min max) v0 v → min ≤ v0 ≤ max → min ≤ v ≤ max.
Proof. unfold given. destruct (last_option c os); [by intros [_ ?]|by intros ->]. Qed.

(** A parser ends the program by [fatal] only. *)
Definition exits {A} (o : outcome A) : Prop := ∀ f, o = Fail f → f = Exit.
Lemma exits_ret {A} (a : A) : exits (Ret a).
Proof. by intros f. Qed.
Lemma exits_fail {A} : exits (Fail Exit : outcome A).
Proof. by intros f [= <-]. Qed.
Lemma exits_bind {A B} (o : outcome A) (g : A → outcome B) : exits o → (∀ a, exits (g a)) → exits (o ≫= g).
Proof. intros Ho Hg f. destruct o as [a|f']; cbn [mbind outcome_bind]; [apply Hg|]. intros [= <-]. by apply Ho. Qed.
Lemma exits_if {A} (b : bool) (o o' : outcome A) : exits o → exits o' → exits (if b then o else o').
Proof. by destruct b. Qed.
Create HintDb exits_db discriminated.
#[local] Hint Resolve exits_ret exits_fail exits_bind exits_if : exits_db.

Lemma exits_int s min max : exits (ArgParser.parseAndValidateInt s min max).
Proof. intros f. apply parseAndValidateInt_exit. Qed.
Lemma exits_port s allow_zero : exits (ArgParser.parseAndValidatePort s allow_zero).
Proof. unfold ArgParser.parseAndValidatePort. auto using exits_int with exits_db. Qed.
Lemma exits_read_port s : exits (read_port s).
Proof. rewrite read_port_is_port. apply exits_port. Qed.
#[local] Hint Resolve exits_int exits_port exits_read_port : exits_db.

Lemma server_exits os extra : exits (ServerArgParser.parseAndValidate os extra).
Proof.
  unfold ServerArgParser.parseAndValidate. apply exits_bind; [|auto with exits_db].
  generalize ServerArgParser.initial. induction os as [|o os IH]; intros a; cbn [ServerArgParser.parse_options];
    [apply exits_ret|]. apply exits_bind; [|done]. unfold ServerArgParser.parse_option. auto 10 with exits_db.
Qed.

(** What a server can be started with. *)
Lemma server_parse_given os extra a :
  ServerArgParser.parseAndValidate os extra = Ret a →
  extra = [] ∧ server_given os ServerArgParser.initial a ∧ ServerArgParser.file_set a = true ∧ ServerArgParser.file a ≠ [].
Proof.
  unfold ServerArgParser.parseAndValidate.
  destruct (ServerArgParser.parse_options os ServerArgParser.initial) as [a'|] eqn:Ho; [|done]. cbn [mbind outcome_bind].
  apply server_options_given in Ho. case_bool_decide as Hextra; [|done]. cbn [negb].
  destruct (ServerArgParser.file_set a') eqn:Hset; [|done]. case_bool_decide as Hfile; [done|]. by intros [= <-].
Qed.

Lemma server_given_config os a content listening_fd :
  server_given os ServerArgParser.initial a → coeff_file_ok (ServerArgParser.n a) content → 0 ≤ listening_fd < 2 ^ 31 →
  config_ok (ServerArgParser.k a) (ServerArgParser.n a) (ServerArgParser.m a) content listening_fd.
Proof.
  intros [Hp Hk Hn Hm _ _] Hc Hfd.
  split; [by eapply given_within|]. split; [by eapply given_within|]. split; [by eapply given_within|]. by split.
Qed.

(** C24: the server that a command line starts is one that the other properties speak about. When
    [ServerArgParser] accepts the options, no argument is left over, the file name is the last
    [-f] and not empty, and port, [K], [N] and [M] are the last ones given, or 0, 100, 4 and 131,
    within their limits; so, with a usable file of coefficients, every state that the server
    reaches satisfies its invariant. Any other command line ends the program. *)
Theorem server_command_line (os : list Option_) (extra : list str) :
  match ServerArgParser.parseAndValidate os extra with
  | Fail f => f = Exit
  | Ret a =>
      extra = [] ∧ last_option "f" os = Some (ServerArgParser.file a) ∧ ServerArgParser.file a ≠ [] ∧
      given "p" os (reads_within 0 (2 ^ 16 - 1)) 0 (ServerArgParser.port a) ∧
      given "k" os (reads_within 1 constants.max_k) 100 (ServerArgParser.k a) ∧
      given "n" os (reads_within 1 constants.max_n) 4 (ServerArgParser.n a) ∧
      given "m" os (reads_within 1 constants.max_m) 131 (ServerArgParser.m a) ∧
      ∀ content listening_fd time s, coeff_file_ok (ServerArgParser.n a) content → 0 ≤ listening_fd < 2 ^ 31 →
        reachable (initial_server (ServerArgParser.k a) (ServerArgParser.n a) (ServerArgParser.m a) content listening_fd time) s →
        inv s
  end.
Proof.
  pose proof (server_exits os extra) as Hexit.
  destruct (ServerArgParser.parseAndValidate os extra) as [a|f] eqn:H; [|by apply Hexit].
  apply server_parse_given in H as (Hextra & Hg & Hset & Hfile). pose proof Hg as [Hp Hk Hn Hm Hf Hfs].
  split; [done|]. split.
  { unfold given in Hf, Hfs. destruct (last_option "f" os); [by rewrite Hf|]. simpl in Hfs. congruence. }
  do 5 (split; [done|]). intros content fd time s Hc Hfd. apply reachable_inv, initial_inv. by eapply server_given_config.
Qed.

Definition server_options : list Option_ :=
  [{| opt := "k"; optarg := lit "5" |}; {| opt := "f"; optarg := lit "coeffs.txt" |}; {| opt := "k"; optarg := lit "7" |}].
Definition server_args : ServerArgParser.Args :=
  {| ServerArgParser.port := 0; ServerArgParser.k := 7; ServerArgParser.n := 4; ServerArgParser.m := 131;
     ServerArgParser.file := lit "coeffs.txt"; ServerArgParser.file_set := true |}.
Lemma server_command_line_witness :
  last_option "f" server_options = Some (lit "coeffs.txt") ∧
  given "k" server_options (reads_within 1 constants.max_k) 100 7.
Proof.
  pose proof (server_command_line server_options []) as H.
  assert (ServerArgParser.parseAndValidate server_options [] = Ret server_args) as Heq by (vm_compute; reflexivity).
  rewrite Heq in H. destruct H as (_ & Hf & _ & _ & Hk & _). by split.
Defined.

(** ** The client *)
Record client_given (os : list Option_) (a0 a : ClientArgParser.Args) : Prop := {
  cg_id : given "u" os reads_text (ClientArgParser.player_id a0) (ClientArgParser.player_id a);
  cg_id_set : given "u" os reads_flag (ClientArgParser.player_id_set a0) (ClientArgParser.player_id_set a);
  cg_server : given "s" os reads_text (ClientArgParser.server_address a0) (ClientArgParser.server_address a);
  cg_server_set : given "s" os reads_flag (ClientArgParser.server_address_set a0) (ClientArgParser.server_address_set a);
  cg_port : given "p" os (reads_within 1 (2 ^ 16 - 1)) (ClientArgParser.server_port a0) (ClientArgParser.server_port a);
  cg_port_set : given "p" os reads_flag (ClientArgParser.server_port_set a0) (ClientArgParser.server_port_set a);
  cg_4 : given "4" os reads_flag (ClientArgParser.force_ipv4 a0) (ClientArgParser.force_ipv4 a);
  cg_6 : given "6" os reads_flag (ClientArgParser.force_ipv6 a0) (ClientArgParser.force_ipv6 a);
  cg_auto : given "a" os reads_flag (ClientArgParser.auto_strategy a0) (ClientArgParser.auto_strategy a) }.

Lemma client_option_given o os a0 a1 a :
  ClientArgParser.parse_option o a0 = Ret a1 → client_given os a1 a → client_given (o :: os) a0 a.
Proof.
  intros Ho [H1 H2 H3 H4 H5 H6 H7 H8 H9]. unfold ClientArgParser.parse_option in Ho. option_cases; try done.
  3: { destruct (ArgParser.parseAndValidatePort (optarg o) false) as [v|] eqn:Hv; [|done].
    apply parseAndValidatePort_spec in Hv as [Hv Hread]. injection Ho as <-.
    split; eapply given_cons; try eassumption; rewrite Heq; simpl; try done. split; [done|lia]. }
  all: injection Ho as <-; split; eapply given_cons; try eassumption; rewrite Heq; simpl; try done.
Qed.

Lemma client_options_given os a0 a : ClientArgParser.parse_options os a0 = Ret a → client_given os a0 a.
Proof.
  revert a0. induction os as [|o os IH]; intros a0; cbn [ClientArgParser.parse_options]; [by intros [= <-]|].
  destruct (ClientArgParser.parse_option o a0) as [a1|] eqn:Ho; [|done]. intros Hr.
  eapply client_option_given; [exact Ho|by apply IH].
Qed.

Lemma client_exits garbage os extra : exits (ClientArgParser.create garbage os extra).
Proof.
  assert (∀ a, exits (ClientArgParser.parse_options os a)) as Hos.
  { induction os as [|o os IH]; intros a; cbn [ClientArgParser.parse_options]; [apply exits_ret|].
    apply exits_bind; [|done]. unfold ClientArgParser.parse_option. auto 12 with exits_db. }
  unfold ClientArgParser.create, ClientArgParser.parse, ClientArgParser.validate. auto 20 with exits_db.
Qed.

Definition has_option (c : ascii) (os : list Option_) : bool := bool_decide (last_option c os ≠ None).
Lemma given_flag c os b : given c os reads_flag false b → b = has_option c os.
Proof. unfold given, has_option. by destruct (last_option c os). Qed.
Lemma given_text c os v (b : bool) : given c os reads_text [] v → given c os reads_flag false b → b = true → last_option c os = Some v.
Proof. unfold given. destruct (last_option c os); [by intros ->|]. congruence. Qed.

(** [parse]: what the options give, and the families when both are forced. *)
Lemma client_parse_given garbage os a :
  ClientArgParser.parse os (ClientArgParser.initial garbage) = Ret a →
  ∃ f4 f6, client_given os (ClientArgParser.initial garbage)
      (a <| ClientArgParser.force_ipv4 := f4 |> <| ClientArgParser.force_ipv6 := f6 |>) ∧
    ClientArgParser.force_ipv4 a = f4 && negb f6 ∧ ClientArgParser.force_ipv6 a = f6 && negb f4.
Proof.
  unfold ClientArgParser.parse. destruct (ClientArgParser.parse_options _ _) as [a'|] eqn:Ho; [|done].
  apply client_options_given in Ho. cbn [mbind outcome_bind]. intros H.
  exists (ClientArgParser.force_ipv4 a'), (ClientArgParser.force_ipv6 a').
  destruct a' as [? ? ? ? ? ? [] [] ?]; simpl in H; injection H as <-; (split; [exact Ho|by split]).
Qed.

Lemma client_auto garbage os extra a :
  ClientArgParser.create garbage os extra = Ret a → ClientArgParser.auto_strategy a = has_option "a" os.
Proof.
  unfold ClientArgParser.create. destruct (ClientArgParser.parse os _) as [a'|] eqn:Ho; [|done].
  cbn [mbind outcome_bind]. destruct (ClientArgParser.validate extra a'); [|done]. intros [= <-].
  apply client_parse_given in Ho as (f4 & f6 & [_ _ _ _ _ _ _ _ Hau] & _). by apply given_flag.
Qed.

(** C25: the client that a command line starts can talk to the server. When [ClientArgParser]
    accepts the options, player, server and port are the last ones given, the port is not 0, an
    address family is forced exactly when its option is given without the other one, and the
    strategy is the automatic one exactly with [-a]; and the HELLO of this player exists and
    reads back at the server as the player's name. Any other command line ends the program. *)
Theorem client_command_line (garbage : Z) (os : list Option_) (extra : list str) :
  match ClientArgParser.create garbage os extra with
  | Fail f => f = Exit
  | Ret a =>
      extra = [] ∧ last_option "u" os = Some (ClientArgParser.player_id a) ∧
      last_option "s" os = Some (ClientArgParser.server_address a) ∧ ClientArgParser.server_address a ≠ [] ∧
      (∃ s, last_option "p" os = Some s ∧ reads_within 1 (2 ^ 16 - 1) s (ClientArgParser.server_port a)) ∧
      ClientArgParser.force_ipv4 a = has_option "4" os && negb (has_option "6" os) ∧
      ClientArgParser.force_ipv6 a = has_option "6" os && negb (has_option "4" os) ∧
      ClientArgParser.auto_strategy a = has_option "a" os ∧
      ∃ m, HelloMessage_createMessage (ClientArgParser.player_id a) = Some m ∧
        body m = HelloMessage (ClientArgParser.player_id a)
  end.
Proof.
  pose proof (client_exits garbage os extra) as Hexit.
  destruct (ClientArgParser.create garbage os extra) as [a|f] eqn:H; [|by apply Hexit]. clear Hexit. revert H.
  unfold ClientArgParser.create. destruct (ClientArgParser.parse os _) as [a'|] eqn:Ho; [|done].
  apply client_parse_given in Ho as (f4 & f6 & [Hid His Hsv Hss Hp Hps H4%given_flag H6%given_flag Hau] & E4 & E6).
  simpl in *. subst f4 f6. unfold ClientArgParser.validate.
  case_bool_decide as Hextra; [|done]. cbn [negb].
  destruct (ClientArgParser.player_id_set a') eqn:S1; [|done]. cbn [negb orb]. case_bool_decide as Hne; [done|].
  destruct (ClientArgParser.server_address_set a') eqn:S2; [|done]. cbn [negb orb].
  case_bool_decide as Hsne; [done|]. destruct (ClientArgParser.server_port_set a') eqn:S3; [|done]. cbn [negb].
  destruct (forallb isalnum (ClientArgParser.player_id a')) eqn:Hal; [|done]. intros [= <-].
  split; [done|]. split; [by eapply given_text|]. split; [by eapply given_text|]. split; [done|]. split.
  { unfold given in Hp, Hps. destruct (last_option "p" os) as [s|]; [by exists s|]. simpl in Hps. congruence. }
  split; [done|]. split; [done|]. split; [by apply given_flag|].
  destruct (hello_message_roundtrip (ClientArgParser.player_id a')) as (m & Hm & Hb & _); [by split|]. by exists m.
Qed.

(** ** The node *)
Lemma node_exits os extra : exits (NodeArgs.parse_args os extra).
Proof.
  unfold NodeArgs.parse_args. apply exits_bind; [|auto with exits_db].
  generalize NodeArgs.initial. induction os as [|o os IH]; intros a; cbn [NodeArgs.parse_options]; [apply exits_ret|].
  apply exits_bind; [|done]. unfold NodeArgs.parse_option. auto 10 with exits_db.
Qed.

Record node_given (os : list Option_) (c0 c : NodeArgs.Config) : Prop := {
  ng_bind : given "b" os (λ s o, o = Some s) (NodeArgs.bind_address c0) (NodeArgs.bind_address c);
  ng_port : given "p" os (reads_within 0 (2 ^ 16 - 1)) (NodeArgs.port c0) (NodeArgs.port c);
  ng_peer : given "a" os (λ s o, o = Some s) (NodeArgs.peer_address c0) (NodeArgs.peer_address c);
  ng_a : given "a" os reads_flag (NodeArgs.a_provided c0) (NodeArgs.a_provided c);
  ng_peer_port : given "r" os (reads_within 0 (2 ^ 16 - 1)) (NodeArgs.peer_port c0) (NodeArgs.peer_port c);
  ng_r : given "r" os reads_flag (NodeArgs.r_provided c0) (NodeArgs.r_provided c) }.

Lemma node_options_given os c0 c : NodeArgs.parse_options os c0 = Ret c → node_given os c0 c.
Proof.
  revert c0. induction os as [|o os IH]; intros c0; cbn [NodeArgs.parse_options]; [by intros [= <-]|].
  destruct (NodeArgs.parse_option o c0) as [c1|] eqn:Ho; [|done]. intros [H1 H2 H3 H4 H5 H6]%IH.
  unfold NodeArgs.parse_option in Ho. option_cases; try done.
  2, 4: destruct (read_port (optarg o)) as [v|] eqn:Hv; [|done];
    rewrite read_port_is_port in Hv; apply parse_port_within in Hv.
  all: injection Ho as <-; split; eapply given_cons; try eassumption; rewrite Heq; simpl; done.
Qed.

(** What [parse_args] gives a node: an address to bind to, if any, and a port, 0 for any; and
    either no peer, or the address and the port of one, which is not 0. *)
Theorem node_command_line (os : list Option_) (extra : list str) :
  match NodeArgs.parse_args os extra with
  | Fail f => f = Exit
  | Ret c =>
      extra = [] ∧ NodeArgs.bind_address c = last_option "b" os ∧
      given "p" os (reads_within 0 (2 ^ 16 - 1)) 0 (NodeArgs.port c) ∧ NodeArgs.peer_address c = last_option "a" os ∧
      match last_option "r" os with
      | Some s => NodeArgs.peer_address c ≠ None ∧ reads_within 1 (2 ^ 16 - 1) s (NodeArgs.peer_port c)
      | None => NodeArgs.peer_address c = None ∧ NodeArgs.peer_port c = 0
      end
  end.
Proof.
  pose proof (node_exits os extra) as Hexit.
  destruct (NodeArgs.parse_args os extra) as [c|f] eqn:H; [|by apply Hexit]. clear Hexit. revert H.
  unfold NodeArgs.parse_args. destruct (NodeArgs.parse_options os NodeArgs.initial) as [c'|] eqn:Ho; [|done].
  apply node_options_given in Ho as [Hb Hp Ha Has Hr Hrs]. cbn [mbind outcome_bind].
  apply given_flag in Has, Hrs. simpl in *.
  destruct (Bool.eqb _ _) eqn:Heq; [|done]. apply Bool.eqb_prop in Heq. cbn [negb].
  destruct (NodeArgs.r_provided c' && (NodeArgs.peer_port c' =? 0)) eqn:Hz; [done|].
  destruct (bool_decide (extra = [])) eqn:Hextra; [apply bool_decide_eq_true in Hextra|done]. intros [= <-].
  split; [done|]. unfold has_option, given, reads_within in *.
  split; [revert Hb; by destruct (last_option "b" os)|]. split; [done|].
  assert (NodeArgs.peer_address c' = last_option "a" os) as Hpeer by (revert Ha; by destruct (last_option "a" os)).
  split; [done|]. rewrite Hpeer. rewrite Has, Hrs in *.
  destruct (last_option "r" os) as [r|], (last_option "a" os) as [a|]; simpl in *; try done.
  destruct Hr as [Hr Hrange]. split; [done|]. split; [done|]. lia.
Qed.
