(* ===== verification/Sockets.v ===== *)
(** * Setting up sockets ([networking.cpp] of the-great-approximator; [bind_socket] and
    [get_address] of [networking.c] of peer-time-sync)

    The kernel is a parameter: a function from the calls made so far, with their results, to the
    result of the next call. A history is the state of the computations below, so that what a
    program did to its descriptors can be read off it. The resolver and the conversions of
    addresses to text are parameters as well. *)
From Stdlib Require Import Ascii String.
From S2P Require Import Prelude CString Constants Args Wire.

Definition O_NONBLOCK : Z := 2048.

Inductive SockOpt := SO_REUSEADDR | IPV6_V6ONLY.
(** One result of [getaddrinfo]: the family, and the address itself. *)
Record addrinfo := { ai_family : Z; ai_addr : Z }.

Inductive Call :=
  | Socket (family : Z)
  | Setsockopt (fd : Z) (o : SockOpt) (value : Z)
  | SetReceiveTimeout (fd tv_sec tv_usec : Z)
  | Bind (fd family addr port : Z)             (* the address and the port as the program gives them *)
  | GetFlags (fd : Z)
  | SetFlags (fd flags : Z)
  | Listen (fd backlog : Z)
  | Accept (fd : Z)
  | Connect (fd : Z) (a : addrinfo)
  | Close (fd : Z).
Definition History : Type := list (Call * Z).
Abbreviation KM := (M History).

Section kernel.
Variable kernel : History → Call → Z.
Variable errno_again : History → bool. (* errno is EAGAIN or EWOULDBLOCK *)

Definition syscall (c : Call) : KM Z := λ h, let r := kernel h c in Ret (r, h ++ [(c, r)]).

(** ** [networking.cpp] *)
Definition set_socket_nonblocking (sockfd : Z) : KM unit :=
  flags ← syscall (GetFlags sockfd);
  if flags <? 0 then fail Exit
  else
    r ← syscall (SetFlags sockfd (Z.lor flags O_NONBLOCK));
    if r <? 0 then fail Exit else mret tt.

(** The result, and the out parameter [sockfd]. *)
Definition setup_listening_socket_ipv6 (port backlog : Z) : KM (bool * Z) :=
  sockfd ← syscall (Socket AF_INET6);
  if sockfd <? 0 then mret (false, sockfd)
  else
    _ ← syscall (Setsockopt sockfd SO_REUSEADDR 1);
    _ ← syscall (Setsockopt sockfd IPV6_V6ONLY 0);
    r ← syscall (Bind sockfd AF_INET6 0 port);
    if r <? 0 then mret (false, sockfd)
    else
      _ ← set_socket_nonblocking sockfd;
      r ← syscall (Listen sockfd backlog);
      if r <? 0 then mret (false, sockfd) else mret (true, sockfd).

Definition setup_listening_socket_ipv4 (port backlog : Z) : KM Z :=
  sockfd ← syscall (Socket AF_INET);
  if sockfd <? 0 then fail Exit
  else
    _ ← syscall (Setsockopt sockfd SO_REUSEADDR 1);
    r ← syscall (Bind sockfd AF_INET 0 port);
    if r <? 0 then fail Exit
    else
      _ ← set_socket_nonblocking sockfd;
      r ← syscall (Listen sockfd backlog);
      if r <? 0 then fail Exit else mret sockfd.

Definition setup_listening_socket (port backlog : Z) : KM Z :=
  '(ok, sockfd) ← setup_listening_socket_ipv6 port backlog;
  if (ok : bool) then mret sockfd else setup_listening_socket_ipv4 port backlog.

Definition accept_new_connection (listening_fd : Z) : KM Z :=
  client_fd ← syscall (Accept listening_fd);
  h ← get_state;
  if client_fd <? 0 then (if errno_again h then mret (-1) else fail Exit)
  else _ ← set_socket_nonblocking client_fd; mret client_fd.

(** C's [/] and [%] cut toward zero. *)
Definition set_receive_timeout (sockfd timeout_ms : Z) : KM unit :=
  r ← syscall (SetReceiveTimeout sockfd (Z.quot timeout_ms 1000) (Z.rem timeout_ms 1000 * 1000));
  if r <? 0 then fail Exit else mret tt.

Section resolver.
(** [getaddrinfo] for a host, a service and the family of the hints; [None] is an error. *)
Variable getaddrinfo : str → str → Z → option (list addrinfo).
(** [inet_ntop] for the two families of internet addresses. *)
Variable inet_ntop : Z → Z → option str.

(** [std::stoi]: an exception for what is not an [int]. *)
Definition stoi (s : str) : outcome Z :=
  match stoll s with Some (v, _) => if in_sb 32 v then Ret v else Fail Throw | None => Fail Throw end.

Definition conversion (a : addrinfo) : option str :=
  if ai_family a =? AF_INET then inet_ntop AF_INET (ai_addr a)
  else if ai_family a =? AF_INET6 then inet_ntop AF_INET6 (ai_addr a)
  else None.

(** The loop over the addresses: the descriptor, or -1, and the two out parameters. *)
Fixpoint connect_loop (port_str : str) (addrs : list addrinfo) : KM (option (Z * str * Z)) :=
  match addrs with
  | [] => mret None
  | send_addr :: addrs' =>
      sockfd ← syscall (Socket (ai_family send_addr));
      if sockfd =? -1 then connect_loop port_str addrs'
      else
        r ← syscall (Connect sockfd send_addr);
        match (if r =? 0 then conversion send_addr else None) with
        | Some ip => port ← lift_outcome (stoi port_str); mret (Some (sockfd, ip, port))
        | None => _ ← syscall (Close sockfd); connect_loop port_str addrs'
        end
  end.

Definition connect_to_server (host port_str : str) (force_ipv4 force_ipv6 : bool) : KM (Z * str * Z) :=
  let family := if force_ipv4 then AF_INET else if force_ipv6 then AF_INET6 else AF_UNSPEC in
  match getaddrinfo host port_str family with
  | None => fail Exit
  | Some res => o ← connect_loop port_str res; from_opt Exit o
  end.

(** [make_connection] of [approx-client.cpp]. *)
Definition make_connection (a : ClientArgParser.Args) : KM (Z * str * Z) :=
  '(sockfd, ip, port) ← connect_to_server (ClientArgParser.server_address a) (to_string (ClientArgParser.server_port a))
    (ClientArgParser.force_ipv4 a) (ClientArgParser.force_ipv6 a);
  _ ← set_receive_timeout sockfd constants.client_timeout;
  mret (sockfd, ip, port).
End resolver.
End kernel.

(** The descriptors that a history leaves open, the last one first. *)
Fixpoint remove_one (fd : Z) (l : list Z) : list Z :=
  match l with [] => [] | x :: l' => if fd =? x then l' else x :: remove_one fd l' end.
Definition after_call (fds : list Z) (e : Call * Z) : list Z :=
  match e with
  | (Socket _, r) | (Accept _, r) => if r <? 0 then fds else r :: fds
  | (Close fd, _) => remove_one fd fds
  | _ => fds
  end.
Definition open_fds (h : History) : list Z := fold_left after_call h [].
