(* ===== verification/SocketClaims.v ===== *)
(** * What setting up sockets leaves behind

    Whatever the kernel answers: which descriptor comes out, and that no other stays open. *)
From Stdlib Require Import Ascii String.
From S2P Require Import Prelude CString Constants Args Wire Sockets.

Lemma open_fds_app h h' : open_fds (h ++ h') = fold_left after_call h' (open_fds h).
Proof. unfold open_fds. by rewrite fold_left_app. Qed.

Section kernel.
Context (kernel : History → Call → Z).

Lemma wp_syscall E c (Q : Z → History → Prop) h :
  Q (kernel h c) (h ++ [(c, kernel h c)]) → wp E (syscall kernel c) Q h.
Proof. done. Qed.

(** ** Connecting *)
Section connect.
Context (getaddrinfo : str → str → Z → option (list addrinfo)) (inet_ntop : Z → Z → option str).
(** [socket] returns a descriptor or -1. *)
Hypothesis socket_range : ∀ h f, -1 ≤ kernel h (Socket f).

Lemma stoi_to_string z : in_s 32 z → stoi (to_string z) = Ret z.
Proof.
  intros Hz. unfold stoi. rewrite stoll_to_string by (unfold in_s in *; simpl in *; lia).
  by rewrite (proj2 (in_sb_spec 32 z)).
Qed.

(** A connection is the last two calls; before them nothing has been left open. *)
Record connected_by (h0 h : History) (addrs : list addrinfo) (fd : Z) (ip : str) (addr : addrinfo) (h1 : History) : Prop := {
  cb_calls : h = h1 ++ [(Socket (ai_family addr), fd); (Connect fd addr, 0)];
  cb_addr : addr ∈ addrs;
  cb_text : conversion inet_ntop addr = Some ip;
  cb_fd : 0 ≤ fd;
  cb_open : open_fds h1 = open_fds h0 }.

Lemma wp_connect_loop port addrs h0 h (Q : option (Z * str * Z) → History → Prop) :
  in_s 32 port → open_fds h = open_fds h0 →
  (∀ h', open_fds h' = open_fds h0 → Q None h') →
  (∀ fd ip addr h1 h', connected_by h0 h' addrs fd ip addr h1 → Q (Some (fd, ip, port)) h') →
  wp no_failure (connect_loop kernel inet_ntop (to_string port) addrs) Q h.
Proof.
  intros Hport. revert h. induction addrs as [|addr addrs IH]; intros h Hopen HNone HSome; cbn [connect_loop].
  { by apply wp_ret, HNone. }
  assert (∀ h', open_fds h' = open_fds h0 → wp no_failure (connect_loop kernel inet_ntop (to_string port) addrs) Q h') as Hnext.
  { intros h' Hopen'. apply IH; [done|done|]. intros fd ip a h1 h'' [H1 H2 H3 H4 H5].
    eapply (HSome fd ip a h1). split; try done. by right. }
  wp_step. apply wp_syscall. set (fd := kernel h (Socket (ai_family addr))).
  pose proof (socket_range h (ai_family addr)) as Hfd. fold fd in Hfd. destruct (Z.eqb_spec fd (-1)) as [Heq|Hne].
  { apply Hnext. rewrite open_fds_app. simpl. rewrite Heq. done. }
  wp_step. apply wp_syscall. set (r := kernel _ (Connect fd addr)).
  assert (after_call (open_fds h) (Socket (ai_family addr), fd) = fd :: open_fds h) as Hafter.
  { simpl. by rewrite (proj2 (Z.ltb_ge fd 0)) by lia. }
  destruct (if r =? 0 then conversion inet_ntop addr else None) as [ip|] eqn:Hip.
  - wp_step. apply wp_lift_outcome. rewrite stoi_to_string by done. apply wp_ret.
    destruct (Z.eqb_spec r 0) as [Hr|]; [|done]. apply (HSome fd ip addr h). split; [|by left|done|lia|done].
    by rewrite <-(assoc app), Hr.
  - wp_step. apply wp_syscall. apply Hnext. rewrite !open_fds_app. cbn [fold_left]. rewrite Hafter. simpl.
    by rewrite Z.eqb_refl.
Qed.

Lemma set_receive_timeout_run fd ms h (Q : unit → History → Prop) :
  (∀ r, 0 ≤ r → Q tt (h ++ [(SetReceiveTimeout fd (Z.quot ms 1000) (Z.rem ms 1000 * 1000), r)])) →
  wp only_exit (set_receive_timeout kernel fd ms) Q h.
Proof.
  intros HQ. unfold set_receive_timeout. wp_step. apply wp_syscall. wp_step; [by apply wp_fail|].
  apply wp_ret, HQ. lia.
Qed.

(** C28: how the client connects. [make_connection] ends the program deliberately, or it returns
    a descriptor, the text of the address and the port of the command line: the last calls
    opened this descriptor, connected it to an address that the resolver gave for the host, the
    port and the forced family, and set its timeout to 200 ms; every descriptor of an earlier
    attempt has been closed. *)
Theorem make_connection_correct (a : ClientArgParser.Args) (h0 : History) :
  0 ≤ ClientArgParser.server_port a < 2 ^ 16 →
  match make_connection kernel getaddrinfo inet_ntop a h0 with
  | Fail f => f = Exit
  | Ret ((fd, ip, port), h) =>
      port = ClientArgParser.server_port a ∧ 0 ≤ fd ∧ open_fds h = fd :: open_fds h0 ∧
      ∃ res addr h1 r,
        getaddrinfo (ClientArgParser.server_address a) (to_string port)
          (if ClientArgParser.force_ipv4 a then AF_INET else if ClientArgParser.force_ipv6 a then AF_INET6 else AF_UNSPEC)
          = Some res ∧
        addr ∈ res ∧ conversion inet_ntop addr = Some ip ∧ open_fds h1 = open_fds h0 ∧ 0 ≤ r ∧
        h = h1 ++ [(Socket (ai_family addr), fd); (Connect fd addr, 0); (SetReceiveTimeout fd 0 200000, r)]
  end.
Proof.
  intros Hport. set (port := ClientArgParser.server_port a).
  cut (wp only_exit (make_connection kernel getaddrinfo inet_ntop a) (λ r h, r.2 = port ∧ 0 ≤ r.1.1 ∧
    open_fds h = r.1.1 :: open_fds h0 ∧ ∃ res addr h1 rt,
        getaddrinfo (ClientArgParser.server_address a) (to_string port)
          (if ClientArgParser.force_ipv4 a then AF_INET else if ClientArgParser.force_ipv6 a then AF_INET6 else AF_UNSPEC)
          = Some res ∧
        addr ∈ res ∧ conversion inet_ntop addr = Some r.1.2 ∧ open_fds h1 = open_fds h0 ∧ 0 ≤ rt ∧
        h = h1 ++ [(Socket (ai_family addr), r.1.1); (Connect r.1.1 addr, 0); (SetReceiveTimeout r.1.1 0 200000, rt)]) h0).
  { unfold wp. destruct (make_connection _ _ _ _ _) as [[[[fd ip] p] h]|f]; [|done]. simpl. by intros (-> & H). }
  unfold make_connection, connect_to_server. wp_step. cbv zeta. fold port.
  destruct (getaddrinfo _ _ _) as [res|] eqn:Hres; [|by apply wp_fail]. wp_step.
  apply (wp_weaken_failures no_failure); [done|].
  apply (wp_connect_loop port res h0); [unfold in_s; simpl; lia|done|intros; by apply wp_from_opt|].
  intros fd ip addr h1 h' [-> Haddr Hip Hfd Hopen]. apply wp_from_opt; [|done]. intros x [= <-].
  wp_step. apply set_receive_timeout_run. intros r Hr. apply wp_ret. simpl. split; [done|]. split; [done|]. split.
  { rewrite !open_fds_app. simpl. by rewrite (proj2 (Z.ltb_ge fd 0)), Hopen by lia. }
  exists res, addr, h1, r. do 5 (split; [done|]). by rewrite <-(assoc app).
Qed.
End connect.
End kernel.

(** Two addresses, of which the first refuses the connection. *)
Definition demo_kernel (h : History) (c : Call) : Z :=
  match c with
  | Socket _ => 3 + Z.of_nat (length h)
  | Connect _ a => if ai_addr a =? 1 then -1 else 0
  | _ => 0
  end.
Definition demo_resolver (host service : str) (family : Z) : option (list addrinfo) :=
  Some [{| ai_family := AF_INET6; ai_addr := 1 |}; {| ai_family := AF_INET; ai_addr := 2 |}].
Definition demo_text (family addr : Z) : option str := Some (lit "10.0.0.2").
Definition demo_args : ClientArgParser.Args :=
  {| ClientArgParser.player_id := lit "Ann"; ClientArgParser.player_id_set := true;
     ClientArgParser.server_address := lit "host"; ClientArgParser.server_address_set := true;
     ClientArgParser.server_port := 4242; ClientArgParser.server_port_set := true;
     ClientArgParser.force_ipv4 := false; ClientArgParser.force_ipv6 := false; ClientArgParser.auto_strategy := true |}.

Lemma make_connection_correct_witness :
  match make_connection demo_kernel demo_resolver demo_text demo_args [] with
  | Fail f => False
  | Ret ((fd, ip, port), h) => port = 4242 ∧ 0 ≤ fd ∧ open_fds h = [fd]
  end.
Proof.
  assert (∀ h f, -1 ≤ demo_kernel h (Socket f)) as Hrange by (intros; simpl; lia).
  pose proof (make_connection_correct demo_kernel demo_resolver demo_text Hrange demo_args [] ltac:(simpl; lia)) as H.
  destruct (make_connection demo_kernel demo_resolver demo_text demo_args []) as [[[[fd ip] port] h]|f] eqn:Heq.
  - destruct H as (H1 & H2 & H3 & _). by split.
  - vm_compute in Heq. discriminate.
Defined.

(** ** Listening and accepting *)
Section listening.
Context (kernel : History → Call → Z) (errno_again : History → bool).

Lemma wp_set_socket_nonblocking fd h (Q : unit → History → Prop) :
  (∀ flags r, 0 ≤ flags → 0 ≤ r → Q tt (h ++ [(GetFlags fd, flags); (SetFlags fd (Z.lor flags O_NONBLOCK), r)])) →
  wp only_exit (set_socket_nonblocking kernel fd) Q h.
Proof.
  intros HQ. unfold set_socket_nonblocking. wp_step. apply wp_syscall. wp_step; [by apply wp_fail|].
  wp_step. apply wp_syscall. wp_step; [by apply wp_fail|]. apply wp_ret. rewrite <-(assoc app). apply HQ; lia.
Qed.

(** The last calls on a socket that listens: bound to all interfaces, not blocking. *)
Definition listens (fd family port backlog : Z) (h : History) : Prop :=
  ∃ h1 rb flags rf rl, 0 ≤ rb ∧ 0 ≤ flags ∧ 0 ≤ rf ∧ 0 ≤ rl ∧
    h = h1 ++ [(Bind fd family 0 port, rb); (GetFlags fd, flags); (SetFlags fd (Z.lor flags O_NONBLOCK), rf);
               (Listen fd backlog, rl)].

Lemma wp_syscall_any E c (Q : Z → History → Prop) h : (∀ r, Q r (h ++ [(c, r)])) → wp E (syscall kernel c) Q h.
Proof. intros HQ. apply wp_syscall, HQ. Qed.

Lemma open_fds_socket h f fd t : 0 ≤ fd → open_fds (h ++ (Socket f, fd) :: t) = fold_left after_call t (fd :: open_fds h).
Proof. intros Hfd. rewrite open_fds_app. simpl. by rewrite (proj2 (Z.ltb_ge fd 0)). Qed.

Lemma wp_ipv6 port backlog h (Q : bool * Z → History → Prop) :
  (∀ fd h', open_fds h' = open_fds h → Q (false, fd) h') →
  (∀ fd h', open_fds h' = fd :: open_fds h → Q (false, fd) h') →
  (∀ fd h', 0 ≤ fd → open_fds h' = fd :: open_fds h → listens fd AF_INET6 port backlog h' → Q (true, fd) h') →
  wp only_exit (setup_listening_socket_ipv6 kernel port backlog) Q h.
Proof.
  intros Hnone Hleft Hok. unfold setup_listening_socket_ipv6. wp_step. apply wp_syscall_any. intros fd. wp_step.
  { apply wp_ret, Hnone. rewrite open_fds_app. simpl. by rewrite Hb. }
  apply Z.ltb_ge in Hb. do 2 (wp_step; apply wp_syscall_any; intros ?). wp_step. apply wp_syscall_any. intros rb.
  rewrite <-!(assoc app). wp_step; [by apply wp_ret, Hleft, open_fds_socket|].
  wp_step. apply wp_set_socket_nonblocking. intros flags rf Hflags Hrf. wp_step. apply wp_syscall_any. intros rl.
  rewrite <-!(assoc app). wp_step; [by apply wp_ret, Hleft, open_fds_socket|].
  apply wp_ret, Hok; [done|by apply open_fds_socket|].
  eexists (h ++ [_; _; _]), rb, flags, rf, rl. rewrite <-(assoc app). do 4 (split; [lia|]). reflexivity.
Qed.

Lemma wp_ipv4 port backlog h (Q : Z → History → Prop) :
  (∀ fd h', 0 ≤ fd → open_fds h' = fd :: open_fds h → listens fd AF_INET port backlog h' → Q fd h') →
  wp only_exit (setup_listening_socket_ipv4 kernel port backlog) Q h.
Proof.
  intros Hok. unfold setup_listening_socket_ipv4. wp_step. apply wp_syscall_any. intros fd. wp_step; [by apply wp_fail|].
  apply Z.ltb_ge in Hb. wp_step. apply wp_syscall_any. intros ?. wp_step. apply wp_syscall_any. intros rb.
  rewrite <-!(assoc app). wp_step; [by apply wp_fail|].
  wp_step. apply wp_set_socket_nonblocking. intros flags rf Hflags Hrf. wp_step. apply wp_syscall_any. intros rl.
  rewrite <-!(assoc app). wp_step; [by apply wp_fail|]. apply wp_ret, Hok; [done|by apply open_fds_socket|].
  eexists (h ++ [_; _]), rb, flags, rf, rl. rewrite <-(assoc app). do 4 (split; [lia|]). reflexivity.
Qed.

(** The server's socket: [setup_listening_socket] ends the program deliberately, or returns a
    descriptor that is bound to the port on all interfaces, does not block and listens. Apart
    from it, at most the descriptor of a failed attempt with IPv6 stays open. *)
Theorem listening_socket_ready (port backlog : Z) (h0 : History) :
  match setup_listening_socket kernel port backlog h0 with
  | Fail f => f = Exit
  | Ret (fd, h) => 0 ≤ fd ∧
      (listens fd AF_INET6 port backlog h ∧ open_fds h = fd :: open_fds h0 ∨
       listens fd AF_INET port backlog h ∧ ∃ left, (length left ≤ 1)%nat ∧ open_fds h = fd :: left ++ open_fds h0)
  end.
Proof.
  cut (wp only_exit (setup_listening_socket kernel port backlog) (λ fd h, 0 ≤ fd ∧
      (listens fd AF_INET6 port backlog h ∧ open_fds h = fd :: open_fds h0 ∨
       listens fd AF_INET port backlog h ∧ ∃ left, (length left ≤ 1)%nat ∧ open_fds h = fd :: left ++ open_fds h0)) h0).
  { unfold wp. by destruct (setup_listening_socket _ _ _ _) as [[]|]. }
  unfold setup_listening_socket. wp_step. apply wp_ipv6.
  - intros fd6 h Hopen. apply wp_ipv4. intros fd h' Hfd Hopen' Hl. split; [done|]. right. split; [done|].
    exists []. split; [simpl; lia|]. by rewrite Hopen', Hopen.
  - intros fd6 h Hopen. apply wp_ipv4. intros fd h' Hfd Hopen' Hl. split; [done|]. right. split; [done|].
    exists [fd6]. split; [done|]. by rewrite Hopen', Hopen.
  - intros fd h Hfd Hopen Hl. apply wp_ret. split; [done|]. by left.
Qed.

(** A new connection does not block, -1 stands for none. *)
Theorem accept_correct (fd : Z) (h0 : History) :
  match accept_new_connection kernel errno_again fd h0 with
  | Fail f => f = Exit
  | Ret (client_fd, h) =>
      (client_fd = -1 ∧ open_fds h = open_fds h0) ∨
      (0 ≤ client_fd ∧ open_fds h = client_fd :: open_fds h0 ∧ ∃ flags r, 0 ≤ r ∧
         h = h0 ++ [(Accept fd, client_fd); (GetFlags client_fd, flags); (SetFlags client_fd (Z.lor flags O_NONBLOCK), r)])
  end.
Proof.
  cut (wp only_exit (accept_new_connection kernel errno_again fd) (λ client_fd h,
      (client_fd = -1 ∧ open_fds h = open_fds h0) ∨
      (0 ≤ client_fd ∧ open_fds h = client_fd :: open_fds h0 ∧ ∃ flags r, 0 ≤ r ∧
         h = h0 ++ [(Accept fd, client_fd); (GetFlags client_fd, flags); (SetFlags client_fd (Z.lor flags O_NONBLOCK), r)])) h0).
  { unfold wp. by destruct (accept_new_connection _ _ _ _) as [[]|]. }
  unfold accept_new_connection. wp_step. apply wp_syscall_any. intros cfd. wp_step. wp_step. wp_step.
  { wp_step; [|by apply wp_fail]. apply wp_ret. left. split; [done|]. rewrite open_fds_app. simpl. by rewrite Hb. }
  wp_step. apply wp_set_socket_nonblocking. intros flags r Hflags Hr. apply wp_ret. right.
  split; [lia|]. split; [rewrite !open_fds_app; simpl; by rewrite Hb|]. exists flags, r. split; [done|]. by rewrite <-(assoc app).
Qed.
End listening.

(** When IPv6 sockets exist but cannot be bound, the server runs with a descriptor that
    nothing uses: [setup_listening_socket_ipv6] returns without closing it. *)
Lemma ipv6_descriptor_leaks :
  let kernel h c := match c with Socket f => if f =? AF_INET6 then 3 else 4 | Bind _ f _ _ => if f =? AF_INET6 then -1 else 0 | _ => 0 end in
  match setup_listening_socket kernel 2025 64 [] with
  | Ret (fd, h) => fd = 4 ∧ open_fds h = [4; 3]
  | Fail _ => False
  end.
Proof. vm_compute. done. Qed.
