(* ===== verification/Programs.v ===== *)
(** * The three programs from their command lines on ([main] of [approx-client.cpp],
    [approx-server.cpp] and [main.c], up to their loops)

    Command line, sockets and the state with which the modelled loops start. *)
From Stdlib Require Import Ascii String.
From S2P Require Import Prelude CString Err Constants MsgParser ServerState ServerLogic Server GameInvariant ServerClaims Args ArgsClaims Sockets SocketClaims Wire Peers Node NodeSpec NodeInv NodeClaims Client ClientInv.

(** The constructor of [ServerLogic] exits when the file cannot be opened. *)
Definition open_coeff_file (files : str → option str) (file_name : str) : KM str := from_opt Exit (files file_name).

(** ** [approx-server.cpp]; [files] gives the contents of a file that can be opened. *)
Definition server_main (kernel : History → Call → Z) (files : str → option str) (os : list Option_) (extra : list str)
    (time : Z) : KM Server :=
  a ← lift_outcome (ServerArgParser.parseAndValidate os extra);
  listening_fd ← setup_listening_socket kernel (ServerArgParser.port a) constants.listening_socket_backlog;
  content ← open_coeff_file files (ServerArgParser.file a);
  mret (initial_server (ServerArgParser.k a) (ServerArgParser.n a) (ServerArgParser.m a) content listening_fd time).

(** ** [approx-client.cpp]; the two numbers are what memory held. *)
Definition client_main (kernel : History → Call → Z) (getaddrinfo : str → str → Z → option (list addrinfo))
    (inet_ntop : Z → Z → option str) (os : list Option_) (extra : list str) (garbage_port garbage_n : Z) : KM Client :=
  a ← lift_outcome (ClientArgParser.create garbage_port os extra);
  '(_, server_ip, server_port) ← make_connection kernel getaddrinfo inet_ntop a;
  mret (new_client (ClientArgParser.player_id a) (ClientArgParser.auto_strategy a) server_ip server_port garbage_n).

(** ** [main.c] and its helpers in [networking.c] *)
Section node.
Context `{Host} `{libc : Libc} `{udp : Udp}.
Variable kernel : History → Call → Z.
(** The address of a numeric text, the IPv4 address of a host, the port that the kernel chose. *)
Variable inet_pton : str → option Z.
Variable resolve : str → option Z.
Variable getsockname : History → option Z.

Definition get_address (host : str) (port : Z) : KM sockaddr_in :=
  a ← from_opt Exit (resolve host); mret {| s_addr := a; sin_port := htons port |}.

(** The listening address, and the port once it is known. *)
Definition bind_socket (sock_fd : Z) (bind_address : option str) (port : Z) : KM (sockaddr_in * Z) :=
  a ← (match bind_address with None => mret (htonl 0) | Some s => from_opt Exit (inet_pton s) end);
  r ← syscall kernel (Bind sock_fd AF_INET a port);
  if r <? 0 then fail Exit
  else
    let listen_address := {| s_addr := a; sin_port := htons port |} in
    if port =? 0 then
      h ← get_state;
      sin_port ← from_opt Exit (getsockname h);
      mret (listen_address, ntohs sin_port)
    else mret (listen_address, port).

(** [set_receive_timeout] of peer-time-sync takes seconds. *)
Definition set_receive_timeout_seconds (sock_fd seconds : Z) : KM unit :=
  r ← syscall kernel (SetReceiveTimeout sock_fd seconds 0); if r <? 0 then fail Exit else mret tt.

(** [main] before the node's data: the listening address, the port and the peer. *)
Definition node_setup (os : list Option_) (extra : list str) : KM (option str * sockaddr_in * Z * option sockaddr_in) :=
  c ← lift_outcome (NodeArgs.parse_args os extra);
  sock_fd ← syscall kernel (Socket AF_INET);
  if sock_fd <? 0 then fail Exit
  else
    '(listen_address, port) ← bind_socket sock_fd (NodeArgs.bind_address c) (NodeArgs.port c);
    _ ← set_receive_timeout_seconds sock_fd 1;
    peer ← (match NodeArgs.peer_address c with
            | None => mret None
            | Some host => a ← get_address host (NodeArgs.peer_port c); mret (Some a)
            end);
    mret (NodeArgs.bind_address c, listen_address, port, peer).

(** The node's own addresses are looked for when no bind address was given. *)
Definition node_main (clock : nat → option timespec) (e : Setup) (os : list Option_) (extra : list str)
    (h : History) : WM unit :=
  match node_setup os extra h with
  | Fail f => fail f
  | Ret ((bound, listen_address, port, peer), _) =>
      node_main_start clock e (bool_decide (is_Some bound)) listen_address port peer
  end.
End node.

(** ** The programs are what the properties of their loops speak about *)

(** A server that comes up listens on the port of its command line and, when the file of
    coefficients is usable and descriptors fit an [int], keeps its invariant for ever. *)
Theorem server_program kernel files os extra time h0 s0 h :
  server_main kernel files os extra time h0 = Ret (s0, h) →
  (∀ f text, files f = Some text → coeff_file_ok (N s0) text) → (∀ d, d ∈ open_fds h → d < 2 ^ 31) →
  ∃ a listening_fd family, ServerArgParser.parseAndValidate os extra = Ret a ∧
    listens listening_fd family (ServerArgParser.port a) constants.listening_socket_backlog h ∧
    poll_fds s0 = [{| fd := listening_fd; pevents := POLLIN; revents := 0 |}] ∧ ∀ s, reachable s0 s → inv s.
Proof.
  unfold server_main, mbind, M_bind, lift_outcome. intros Hrun Hfiles Hfds.
  destruct (ServerArgParser.parseAndValidate os extra) as [a|] eqn:Ha; [|done].
  pose proof (listening_socket_ready kernel (ServerArgParser.port a) constants.listening_socket_backlog h0) as Hl.
  destruct (setup_listening_socket kernel (ServerArgParser.port a) constants.listening_socket_backlog h0) as [[lfd h1]|]; [|done].
  unfold open_coeff_file, from_opt in Hrun. destruct (files (ServerArgParser.file a)) as [content|] eqn:Hf; [|done].
  injection Hrun as <- <-. apply server_parse_given in Ha as (_ & Hg & _).
  destruct Hl as [Hlfd Hl]. assert (∃ family rest, listens lfd family (ServerArgParser.port a) constants.listening_socket_backlog h1 ∧ open_fds h1 = lfd :: rest)
    as (family & rest & Hlis & Hopen).
  { destruct Hl as [[Hl Ho]|[Hl (left & _ & Ho)]]; [by exists AF_INET6, (open_fds h0)|by exists AF_INET, (left ++ open_fds h0)]. }
  exists a, lfd, family. do 3 (split; [done|]). intros s. apply reachable_inv, initial_inv. eapply server_given_config; [done|by eapply Hfiles|].
  split; [done|]. apply Hfds. rewrite Hopen. by left.
Qed.

(** A client that comes up starts with its invariant, which every session keeps. *)
Theorem client_program kernel getaddrinfo inet_ntop os extra gp gn h0 c0 h before after c :
  client_main kernel getaddrinfo inet_ntop os extra gp gn h0 = Ret (c0, h) →
  session before after c0 = Ret (tt, c) → client_inv c ∧ is_auto_strategy c = has_option "a" os.
Proof.
  unfold client_main, mbind, M_bind, lift_outcome. intros Hrun Hs.
  destruct (ClientArgParser.create gp os extra) as [a|] eqn:Ha; [|done].
  destruct (make_connection _ _ _ _ _) as [[[[fd ip] port] h1]|]; [|done]. injection Hrun as <- <-.
  apply session_inv in Hs as (Hc & Hauto & _); [|apply new_client_inv]. split; [done|]. rewrite Hauto. simpl.
  by eapply client_auto.
Qed.

Section node_exits.
Context `{Host} (kernel : History → Call → Z) (inet_pton resolve : str → option Z) (getsockname : History → option Z).

Lemma wp_opt_exit {A} (o : option A) (Q : A → History → Prop) s : (∀ a, Q a s) → wp only_exit (from_opt Exit o) Q s.
Proof. intros HQ. by apply wp_from_opt. Qed.

Lemma wp_bind_socket sock_fd bind_address port (Q : sockaddr_in * Z → History → Prop) s :
  (∀ x s', Q x s') → wp only_exit (bind_socket kernel inet_pton getsockname sock_fd bind_address port) Q s.
Proof.
  intros HQ. unfold bind_socket. wp_step.
  assert (∀ a s', wp only_exit (r ← syscall kernel (Bind sock_fd AF_INET a port);
    if r <? 0 then fail Exit
    else if port =? 0
      then h ← get_state; sin_port ← from_opt Exit (getsockname h);
           mret ({| s_addr := a; sin_port := htons port |}, ntohs sin_port)
      else mret ({| s_addr := a; sin_port := htons port |}, port)) Q s') as Hrest.
  { intros a s'. wp_step. apply wp_syscall. wp_step; [by apply wp_fail|]. wp_step; [|by apply wp_ret].
    wp_step. wp_step. wp_step. apply wp_opt_exit. intros p. by apply wp_ret. }
  destruct bind_address as [t|]; [apply wp_opt_exit; intros a|apply wp_ret]; apply Hrest.
Qed.

(** The set-up of a node returns, or ends the program deliberately. *)
Lemma node_setup_exits os extra h : exits (node_setup kernel inet_pton resolve getsockname os extra h).
Proof.
  cut (wp only_exit (node_setup kernel inet_pton resolve getsockname os extra) (λ _ _, True) h).
  { unfold wp, exits. destruct (node_setup _ _ _ _ _ _ _) as [[]|f]; [done|]. by intros Hf f' [= <-]. }
  unfold node_setup. wp_step. apply wp_lift_outcome. pose proof (node_exits os extra) as Hargs.
  destruct (NodeArgs.parse_args os extra) as [c|f]; [|by apply Hargs].
  wp_step. apply wp_syscall. wp_step; [by apply wp_fail|]. wp_step. apply wp_bind_socket. intros [listen port] s.
  unfold set_receive_timeout_seconds. wp_step. wp_step. apply wp_syscall. wp_step; [by apply wp_fail|]. apply wp_ret.
  wp_step. destruct (NodeArgs.peer_address c) as [host|]; [|by apply wp_ret, wp_ret].
  unfold get_address. wp_step. wp_step. apply wp_opt_exit. intros a. by apply wp_ret, wp_ret, wp_ret.
Qed.
End node_exits.

(** A node, with any command line and however its sockets are set up, keeps its invariant. *)
Theorem node_program `{Host} `{libc : Libc} `{udp : Udp} (clock : nat → option timespec) `{Monotonic clock}
    kernel inet_pton resolve getsockname (e : Setup) os extra h (rs : list Received) (w : World) :
  malloc e = true → booted w → Forall received_ok rs →
  wp only_exit (_ ← node_main kernel inet_pton resolve getsockname clock e os extra h; node_loop clock rs)
    (λ _ w', node_ok clock w') w.
Proof.
  intros Hm Hw Hrs. apply wp_bind. unfold node_main.
  pose proof (node_setup_exits kernel inet_pton resolve getsockname os extra h) as Hexit.
  destruct (node_setup _ _ _ _ _ _ _) as [[[[[bound listen] port] peer] h']|f]; [|by apply wp_fail, Hexit].
  eapply wp_mono; [|eapply wp_weaken_failures; [|by apply node_main_start_run]].
  - intros [] w1 Hw1. eapply wp_weaken_failures; [|by apply node_loop_run]. by intros f [-> _].
  - intros f [[-> _]|Hf]; [done|]. unfold no_addresses in Hf. rewrite Hm in Hf. destruct f; try done. by destruct Hf.
Qed.

(** The address that [-b] gives is used without a test of [malloc]. *)
Theorem bound_node_without_memory (e : Setup) listen port `{Host} :
  malloc e = false → find_my_addresses e true listen port = Fail Undef.
Proof. intros Hm. unfold find_my_addresses. by rewrite Hm. Qed.
